(* ===== verification/_CoqProject ===== *)
-Q . S2P
Prelude.v
Errors.v
Types.v
Membership.v
Isr.v
Store.v
Recorder.v
Durable.v
Proposer.v
Consensus.v
Epochs.v
System.v
Agreement.v
Replica.v
Policy.v
Schedule.v
Runtime.v
RuntimeSteps.v
RuntimeInvariant.v
Delivery.v
Restart.v
Checkpoint.v
Polling.v
Reconfigure.v
RuntimeLife.v
LocalCluster.v
RuntimeRuns.v
Codec.v
Batch.v
Wire.v
Dedupe.v
ExactlyOnce.v
SubmissionHandler.v
AsyncProposer.v
SharedStore.v
Metrics.v
Transport.v
Server.v
Tls.v
Listener.v
NodeRuntime.v
NodeTasks.v
NodeClaims.v
NodeExecution.v
NodeDurable.v
NodeRuns.v
NodeSources.v
NodeEpochs.v
Cluster.v
ClusterSafety.v
ClusterRuns.v
Mixing.v
Report.v
Chaos.v
Load.v
