(* ===== verification/Prelude.v ===== *)
(** * A verification of the QuePaxa consensus crate

  The crate under src/ is a replicated log built on QuePaxa. For every slot of
  the log, proposers run a four-phase round against a set of recorders, each of
  which keeps a constant-space interval summary register per slot; a decided
  slot is committed in order by the replicas. This development models the
  protocol, the runtimes that drive it and the network layer around them, and
  proves that the protocol is safe, that the system survives crashes, and that
  its bookkeeping loses nothing. It also shows, on concrete runs, where the
  code does less than it says.

  ** The parts of the program and the files that model them

  - [Prelude]: [u64] arithmetic with its overflow behaviour, the result type
    and the state-and-error monad in which [&mut self] methods are written
    (an error keeps what the method had already changed), ordered iteration
    of maps, tactics and hints.
  - [Errors] (error.rs): the error enum and its messages.
  - [Types] (types.rs): slots, steps, priorities, proposal keys and their
    order, proposals, decisions, messages.
  - [Membership] (types.rs): stable and joint cluster identities, quorums,
    reconfiguration, membership commands and their canonical bytes. SHA-256
    is a parameter.
  - [Isr] (isr.rs): the interval summary register, related to the history of
    the records it has served.
  - [Store] (store.rs): value stores and the fetching availability guard. The
    class [ValueStore] is the interface its theorems rely on.
  - [Recorder] (recorder.rs, [RecorderCore]): records, decisions, pruning,
    reconfiguration, snapshot and restore.
  - [Durable] (crash.rs, recorder.rs): the write, sync, rename, sync sequence
    with its crash points, the state stores behind the class
    [RecorderStateStore], and the durable recorder.
  - [Proposer] (proposer.rs): priority sources behind the class
    [PrioritySource], endpoints, quorum collection, and the loop of [propose].
    Threads, the reply channel and the clock are an argument: for the requests
    of a phase it yields the launched workers and the arrivals in order.
  - [Consensus]: the safety argument for one slot over what the recorders have
    accepted; of the quorums it uses only the class [QuorumSystem], which
    [Membership] discharges for stable and joint epochs.
  - [Epochs]: the memberships a deployment goes through, each with the slot of
    the decision that ordered the next.
  - [System]: proposers and recorders running together, as a transition
    system made of the operations above: any request that was ever sent may be
    served, again or never; replies are delayed, lost or repeated; recorders
    fail, learn decisions, prune, restart, install the next epoch or join in
    it; any number of proposals of any replicas, with any leaders, in any
    epochs, run at once.
  - [Agreement]: the theorems about reachable states, the abstract machine
    they refine, and an executable scheduler with two concrete runs, one of
    them from a stable epoch through a joint one to another stable one.
  - [Replica] (replica.rs): the queue, the log, the commit frontier.
  - [Policy] (policy.rs): the hedging policies behind one class.
  - [Schedule] (runtime/schedule.rs): runtime configuration, hedging delay,
    epoch schedules and the leader ranking.
  - [Runtime] (runtime.rs): the runtime that drives one replica, over classes
    for its store, state machine, client notifier and recorder endpoints (the
    endpoints and the clock share one state, the [world]).
  - [RuntimeSteps], [RuntimeInvariant]: every operation of the runtime as a
    sequence of elementary steps, and the invariant of reachable runtimes by
    induction on steps.
  - [Delivery], [Restart], [Checkpoint], [Polling], [Reconfigure]: execution in
    log order, stopping and starting, state transfer, what a checkpoint may
    forget, termination of [poll], membership changes. [RuntimeLife]: the whole
    life of a runtime, with all of these as its steps.
  - [LocalCluster], [RuntimeRuns]: recorders in the same process behind a
    runtime, and whole runs evaluated on them.
  - [Codec] (network/codec.rs): the versioned, checksummed envelope of
    snapshot files, and a file store behind it that may fail and crash.
  - [Batch] (network/batch.rs): the batch stores in memory and on disk, the
    authenticated batch service.
  - [Wire] (network/wire.rs): the messages between nodes.
  - [Dedupe], [ExactlyOnce] (network/dedupe.rs): the deduplicating state
    machine over the class [ExactlyOnceExecutor], the executors and the
    submission journals, in memory and on disk.
  - [SubmissionHandler] (network/dedupe.rs): concurrent retries of one request
    as tasks that interleave at their await points, with the map of
    reference-counted locks.
  - [AsyncProposer] (network/async_proposer.rs): the tokio proposer, and
    where it decides what the synchronous one decides.
  - [Transport] (network/transport.rs, server.rs): frames, the RPC client, the
    recorder, batch and submission clients, errors on the wire.
  - [Server] (network/server.rs): the peer registry and the handling of one
    connection, over classes for the recorder, the submission handler and the
    batch service.
  - [NodeRuntime] (network/node_runtime.rs): the asynchronous runtime; every
    stretch of code that holds the state lock is one definition.
  - [NodeTasks]: the requests of a node as tasks that interleave between those
    stretches, with the membership gate, dropped futures and restarts.
  - [NodeClaims], [NodeExecution], [NodeDurable]: what a node proposes,
    executes and has answered; [NodeRuns]: whole runs, evaluated.
  - [NodeSources]: every decision in a node's state, store, tasks and
    application is one it was handed. [NodeEpochs]: its proposals are in
    slots of the membership epoch it is in.
  - [Cluster]: the composition. Nodes run their requests, each proposer they
    start runs against the recorders of [System], decisions and state
    transfers flow back and between nodes. [ClusterSafety]: its theorems;
    [ClusterRuns]: a scheduler and a run of three nodes, one of which joins
    in the joint epoch of a membership change.
  - [SharedStore] (recorder.rs, runtime.rs, proposer.rs): stores and clients
    behind a lock that may be poisoned, the [Arc<Mutex<S>>] instances.
  - [Metrics] (network/metrics.rs): the counters.
  - [Listener] (network/server.rs): the accept loop, its permits, the tasks of
    the connections as stages that interleave, the TLS registry, shutdown.
  - [Tls] (network/tls.rs): the mutual TLS configurations, over a class for
    rustls.
  - [Mixing]: the 64-bit mixing functions of the two files below.
  - [Chaos] (network/chaos.rs): the fault-injecting proxy, its harness, and
    the fault layer for decoded RPCs.
  - [Report] (network/report.rs), [Load] (network/load.rs): atomic JSON
    reports and the open-loop load generator.

  ** What the theorems show

  - Replication ([ClusterSafety]): in a whole cluster, composed of the nodes'
    code, the proposers and the recorders, what applications execute and what
    clients are told for a slot is one batch, of the node it names, also
    across membership changes; the cluster refines the transition system of
    [System], so what agreement assumes of its callers is proved of the code
    that calls it.
  - Safety of consensus ([Agreement], [Membership]): decisions of a slot agree
    and were proposed; recorders never see conflicting decisions; the system
    refines a machine that chooses one batch per slot; quorums of one epoch,
    and of two consecutive epochs, intersect. This holds along any number of
    membership changes: recorders leave an epoch only when they have served
    nothing after its anchor, so a slot has quorums of one epoch only. Two
    things are assumed of the callers of [propose]. A replica proposes one
    batch per slot, which [slots_claimed_once] proves of the replica's
    pipeline and [node_proposes_one_batch_per_slot] of a node;
    [two_lanes_decide_differently] shows that it is needed. And a proposer of
    an epoch proposes in slots after the anchor with which the epoch began,
    which [cluster_runs_the_protocol] proves of the nodes: they install an
    epoch when they have committed exactly through its anchor, behind a gate,
    and join after a state transfer.
  - Registers and recorders ([Isr], [Recorder], [Durable]): a register is a
    summary of its history; a recorder never forgets above its floor, binds a
    slot to one leader, restarts from its snapshot; files are replaced
    atomically; an acknowledged write survives a restart and a failed one
    leaves nothing behind.
  - Proposers ([Proposer]): a collected quorum is one, non-fatal failures are
    tolerated, [propose] returns, sampling is unbiased.
  - Replicas ([Replica]): commits are in order and exactly once, slots are
    claimed once, values are not lost, snapshots restore.
  - Scheduling ([Policy], [Schedule]): schedules are permutations of the
    members, round robin is fair, the adaptive policy exploits its samples, the
    ranking is a function of its window, the hedging delay is the configured
    percentile.
  - Runtimes ([RuntimeInvariant], [Delivery], [Restart], [Checkpoint],
    [Polling], [Reconfigure], [RuntimeLife]): through membership changes that
    keep the proposers of the log and state transfers from live runtimes, a
    runtime stays well formed and restarts as it was; what it executes between
    two transfers is in log order, once; a checkpoint drops only what every
    member knows; [poll] returns; a membership change is all or nothing.
  - Nodes ([NodeClaims], [NodeDurable], [NodeExecution]): however requests
    interleave, fail and restart, a node proposes one batch per slot, which is
    what agreement assumes of it, if the state transfers it installs account
    for what it has proposed; a submission that was answered stays committed,
    if they are not behind the node either; a caught-up node executes in
    order; hedging delays are bounded.
  - Clients and batches ([Dedupe], [ExactlyOnce], [SubmissionHandler],
    [Batch]): commands are applied once across crashes, a recorded request is
    never submitted again, one submission per request at a time, published
    batches survive.
  - The network ([AsyncProposer], [Transport], [Server]): the asynchronous
    proposer decides exactly what the synchronous one decides, where the
    quorums of the membership are its majorities, which the synchronous one
    insists on; a remote recorder answers like a local one, a connection acts
    only in its registered name.
  - The accept loop ([Listener]): connections stay within their limit, speak
    for whom their certificate was registered to, and end with the result and
    the effects [serve] gives.
  - Measurement ([Chaos], [Load], [Report]): the proxy forwards prefixes, a
    repeated RPC leaves a recorder as one delivery does, a load report counts
    every request once, the offered load depends on the configuration only,
    reports are replaced atomically.
  - Findings, each proved on a concrete run. Recorders and replicas: a failed
    reconfiguration is not rolled back; a recorder, a runtime and a node may
    reject their own snapshot after a finalized reconfiguration; a failed
    proposal loses its batch; a late decision occupies the log; equal logs may
    rank leaders differently. Runtimes: an unsaved claim is proposed and
    agreement broken; a removed replica panics; the synchronous proposer
    refuses to work while one of three members is replaced; slots a state
    transfer marks as executed are never run by the runtime that installs it.
    Nodes: a state transfer makes a node forget what it proposed or answered
    above the transfer's end; a no-op is proposed before it is saved; a submission split over two batches is never
    answered; a failed execution reorders the log; a late decision is executed
    twice. Network: a configuration mismatch does not cross the wire; a failed
    prune can lose a batch; an unused lock stays in its map; a revoked peer is
    still served; limits the builders accept make the loop and the load
    generator panic. Measurement: the proxy closes before its byte limit, an
    RPC delay overflows, an extreme rate never reaches its deadline.

  ** Bounds and fuel

  Integers are [Z]; where a width matters the theorem says so ([U64.fits],
  [cluster_typed]). Loops whose length depends on data take fuel:
  [ProposerCore.drive] ([propose_terminates]: [max_steps - 3] iterations
  suffice), [ReplicaCore.open_slot_from] and [ReplicaCore.commit_from] (one
  more than the size of the log suffices, proved in [Replica]),
  [ReplicaRuntime.poll_loop] (one more than the pending proposals,
  [poll_returns]), [AsyncProposerCore.drive] ([async_propose_terminates]),
  [OpenLoopLoadGenerator.generate] (as many arrivals as there are request IDs,
  [load_requests_are_distinct]). The
  draws of
  [OsRandom] are a finite list, so a source that is never accepted ends in an
  error instead of a loop.

  ** What is not modelled

  Sockets, timers and TLS handshakes are arguments of the definitions that
  meet them. postcard, SHA-256, serde_json, rustls and the payload verifiers
  are parameters; the laws used of them are stated where they are used (what
  postcard encodes it decodes, with the bytes behind it untouched). The
  natural logarithm of the load generator is a parameter, because the language
  leaves its precision open. The counters of [Metrics] are updated by
  [Listener] only: nothing in the crate reads them. Module declarations,
  re-exports, serde derives, tests, examples and benchmarks are left out. Locks
  are not poisoned except in [Batch], [Store] and [SharedStore], where the code
  handles it, and blocking tasks do not panic; a future of the node runtime is
  dropped between two holds of the state lock, not within one. The nodes
  of a whole cluster have no no-op value ([unsaved_noop_is_proposed] shows
  why). The code lets its operator choose what follows an epoch: every node and
  recorder is given one and the same change per epoch, with the decision that
  ordered it, reached in the epoch it ends; a node that joins in a later epoch
  installs a state transfer before it takes requests. That these are kept, as
  NETWORKING.md asks, is assumed (the chain of [Epochs] and the inputs
  [brings] of [Cluster]). It does not look at what a node has proposed when
  it installs a state transfer either: that the transfer accounts for those
  proposals is a condition of the theorems ([Node.allowed],
  [transfer_forgets_proposal]).
*)
From stdpp Require Export base tactics numbers list gmap strings pretty sorting.
From Stdlib Require Export Lia.

#[global] Open Scope Z_scope.

(** ** Notations of the development *)

Declare Scope quepaxa_scope.
Delimit Scope quepaxa_scope with qp.
#[global] Open Scope quepaxa_scope.

(** ** Machine integers

  Rust's [u64] (and [usize], which has the same width on the supported
  targets) is a [Z] in [0, 2^64). The arithmetic the crate uses is written
  out: [checked_*] returns [None] on overflow, [saturating_*] clamps,
  [wrapping_*] reduces modulo [2^64]. *)

Module U64.
Definition MAX : Z := 18446744073709551615.
Definition modulus : Z := 18446744073709551616.

Definition fits (x : Z) : Prop := 0 ≤ x ≤ MAX.

#[global] Instance fits_dec x : Decision (fits x).
Proof. unfold fits; apply _. Defined.

Definition checked_add (a b : Z) : option Z :=
  if a + b <=? MAX then Some (a + b) else None.
Definition checked_mul (a b : Z) : option Z :=
  if a * b <=? MAX then Some (a * b) else None.
Definition checked_sub (a b : Z) : option Z :=
  if b <=? a then Some (a - b) else None.
Definition saturating_add (a b : Z) : Z := Z.min (a + b) MAX.
Definition saturating_sub (a b : Z) : Z := Z.max (a - b) 0.
Definition wrapping_sub (a b : Z) : Z := (a - b) mod modulus.
Definition wrapping_mul (a b : Z) : Z := (a * b) mod modulus.
Definition shl (a n : Z) : Z := (Z.shiftl a n) mod modulus.
Definition shr (a n : Z) : Z := Z.shiftr a n.

Lemma checked_add_Some a b c : checked_add a b = Some c ↔ c = a + b ∧ a + b ≤ MAX.
Proof. unfold checked_add. destruct (Z.leb_spec (a + b) MAX); naive_solver lia. Qed.

Lemma checked_add_None a b : checked_add a b = None ↔ MAX < a + b.
Proof. unfold checked_add. destruct (Z.leb_spec (a + b) MAX); naive_solver lia. Qed.

Lemma wrapping_sub_small a b : fits a → 0 ≤ b ≤ a → wrapping_sub a b = a - b.
Proof. unfold fits, wrapping_sub, MAX, modulus. intros. apply Z.mod_small. lia. Qed.
End U64.

(** The length of a vector, as a [usize]. *)
Definition len {A} (l : list A) : Z := Z.of_nat (length l).
Arguments len : simpl never.

Lemma len_nonneg {A} (l : list A) : 0 ≤ len l.
Proof. unfold len; lia. Qed.

Lemma len_nil {A} : len (@nil A) = 0.
Proof. done. Qed.

Lemma len_cons {A} (x : A) l : len (x :: l) = 1 + len l.
Proof. unfold len; simpl; lia. Qed.

Lemma len_app {A} (l k : list A) : len (l ++ k) = len l + len k.
Proof. unfold len; rewrite length_app; lia. Qed.

(** [Vec::is_empty]. *)
Definition is_empty {A} (l : list A) : bool :=
  match l with [] => true | _ => false end.

Lemma is_empty_spec {A} (l : list A) : is_empty l = true ↔ l = [].
Proof. by destruct l. Qed.

Lemma is_empty_false {A} (l : list A) : is_empty l = false ↔ l ≠ [].
Proof. by destruct l. Qed.

(** ** Results and the state-and-error monad

  [Result<T>] of the crate is [result QuePaxaError T]. A method that takes
  [&mut self] and returns a [Result] is a function of type [M S E A]: it
  returns the state it leaves behind on every path, the error paths included,
  because the crate's methods do mutate before an error is found. *)

Inductive result (E A : Type) : Type :=
| Ok (a : A)
| Err (e : E).
Arguments Ok {E A} a.
Arguments Err {E A} e.

#[global] Instance result_eq_dec `{EqDecision E, EqDecision A} : EqDecision (result E A).
Proof. solve_decision. Defined.

Definition is_ok {E A} (r : result E A) : bool :=
  match r with Ok _ => true | Err _ => false end.

Definition is_err {E A} (r : result E A) : bool := negb (is_ok r).

Definition ok_or {E A} (o : option A) (e : E) : result E A :=
  match o with Some a => Ok a | None => Err e end.

(** Rust's [?]. *)
Notation "'let?' x := c 'in' k" :=
  (match c with Ok x => k | Err e => Err e end)
  (at level 10, x name, c at level 100, k at level 200,
   format "'let?'  x  :=  c  'in' '//' k") : quepaxa_scope.

(** [if cond { return Err(e) }]. *)
Notation "'reject' b 'with' e ';;' k" :=
  (if b then Err e else k)
  (at level 10, b at level 99, e at level 99, k at level 200,
   format "'reject'  b  'with'  e  ';;' '//' k") : quepaxa_scope.

(** A [for] loop whose body may return early with an error. *)
Fixpoint try_each {E A} (f : A → result E unit) (l : list A) : result E unit :=
  match l with
  | [] => Ok tt
  | x :: l => let? _ := f x in try_each f l
  end.

Definition M (S E A : Type) : Type := S → S * result E A.

Definition ret {S E A} (a : A) : M S E A := λ s, (s, Ok a).
Definition throw {S E A} (e : E) : M S E A := λ s, (s, Err e).
Definition lift {S E A} (r : result E A) : M S E A := λ s, (s, r).
Definition reads {S E A} (f : S → A) : M S E A := λ s, (s, Ok (f s)).
Definition readr {S E A} (f : S → result E A) : M S E A := λ s, (s, f s).
Definition modify {S E} (f : S → S) : M S E unit := λ s, (f s, Ok tt).
Definition bind {S E A B} (m : M S E A) (k : A → M S E B) : M S E B :=
  λ s, match m s with
       | (s', Ok a) => k a s'
       | (s', Err e) => (s', Err e)
       end.

Notation "'let*' x := c 'in' k" := (bind c (λ x, k))
  (at level 10, x name, c at level 100, k at level 200,
   format "'let*'  x  :=  c  'in' '//' k") : quepaxa_scope.
Notation "c ';*' k" := (bind c (λ _, k))
  (at level 199, k at level 200, right associativity,
   format "c  ';*' '//' k") : quepaxa_scope.
Notation "'reject*' b 'with' e ';;' k" :=
  (if b then throw e else k)
  (at level 10, b at level 99, e at level 99, k at level 200,
   format "'reject*'  b  'with'  e  ';;' '//' k") : quepaxa_scope.

Fixpoint for_each {S E A} (f : A → M S E unit) (l : list A) : M S E unit :=
  match l with
  | [] => ret tt
  | x :: l => f x ;* for_each f l
  end.

(** A method of a field, as a method of the record that holds it. *)
Definition zoom {T S E A} (get : T → S) (set : T → S → T) (m : M S E A) : M T E A :=
  λ t, let '(s, r) := m (get t) in (set t s, r).

(** [preserves P m]: [m] keeps [P] on every path, errors included. *)
Definition preserves {S E A} (P : S → Prop) (m : M S E A) : Prop :=
  ∀ s, P s → P (m s).1.

Lemma preserves_bind {S E A B} (P : S → Prop) (m : M S E A) (k : A → M S E B) :
  preserves P m → (∀ a, preserves P (k a)) → preserves P (bind m k).
Proof.
  intros Hm Hk s Hs. unfold bind. specialize (Hm s Hs).
  destruct (m s) as [s' [a|e]]; [by apply Hk | done].
Qed.

Lemma bind_Ok {S E A B} (m : M S E A) (k : A → M S E B) s s' b :
  bind m k s = (s', Ok b) ↔ ∃ s1 a, m s = (s1, Ok a) ∧ k a s1 = (s', Ok b).
Proof.
  unfold bind. destruct (m s) as [s1 [a|e]]; split.
  - intros H. by exists s1, a.
  - by intros (? & ? & [= <- <-] & ?).
  - done.
  - by intros (? & ? & [=] & ?).
Qed.

Lemma bind_Err {S E A B} (m : M S E A) (k : A → M S E B) s s' e :
  bind m k s = (s', Err e) ↔
  m s = (s', Err e) ∨ ∃ s1 a, m s = (s1, Ok a) ∧ k a s1 = (s', Err e).
Proof.
  unfold bind. destruct (m s) as [s1 [a|e']]; split.
  - intros H. right. by exists s1, a.
  - by intros [[=]|(? & ? & [= <- <-] & ?)].
  - intros [= <- <-]. by left.
  - by intros [[= <- <-]|(? & ? & [=] & ?)].
Qed.

Lemma preserves_for_each {S E A} (P : S → Prop) (f : A → M S E unit) l :
  (∀ x, preserves P (f x)) → preserves P (for_each f l).
Proof. intros Hf. induction l; simpl; [by intros s | by apply preserves_bind]. Qed.

Lemma try_each_Ok {E A} (f : A → result E unit) l :
  try_each f l = Ok tt ↔ Forall (λ x, f x = Ok tt) l.
Proof.
  induction l as [|x l IH]; simpl; [naive_solver|].
  rewrite Forall_cons. destruct (f x) as [[]|e]; naive_solver.
Qed.

Create HintDb quepaxa.
Create Rewrite HintDb quepaxa.
#[export] Hint Resolve preserves_bind preserves_for_each : quepaxa.
#[export] Hint Rewrite @len_nil @len_cons @len_app : quepaxa.

(** Case analysis on every [match] and [if] in sight, closing absurd cases. *)
Ltac split_guards :=
  repeat (case_match; simplify_eq/=; try done).

(** Linear arithmetic with division and modulo by constants. *)
Ltac mod_lia := Z.to_euclidean_division_equations; lia.

(** ** Ordered iteration over maps

  A [BTreeMap] is a [gmap]; where the code iterates and the order is
  observable, it visits the entries by increasing key. *)

Definition key_le {A} (x y : Z * A) : Prop := x.1 ≤ y.1.

#[global] Instance key_le_dec {A} (x y : Z * A) : Decision (key_le x y).
Proof. unfold key_le; apply _. Defined.

Definition entries {A} (m : gmap Z A) : list (Z * A) :=
  merge_sort key_le (map_to_list m).

Definition keys {A} (m : gmap Z A) : list Z := (entries m).*1.
Definition values {A} (m : gmap Z A) : list A := (entries m).*2.

Lemma entries_perm {A} (m : gmap Z A) : entries m ≡ₚ map_to_list m.
Proof. apply merge_sort_Permutation. Qed.

Lemma elem_of_entries {A} (m : gmap Z A) i x : (i, x) ∈ entries m ↔ m !! i = Some x.
Proof. by rewrite entries_perm, elem_of_map_to_list. Qed.

Lemma elem_of_keys {A} (m : gmap Z A) i : i ∈ keys m ↔ is_Some (m !! i).
Proof.
  unfold keys. rewrite list_elem_of_fmap. split.
  - intros ([j x] & -> & Hj%elem_of_entries). by exists x.
  - intros [x Hx]. exists (i, x). by rewrite elem_of_entries.
Qed.

Lemma elem_of_values {A} (m : gmap Z A) x : x ∈ values m ↔ ∃ i, m !! i = Some x.
Proof.
  unfold values. rewrite list_elem_of_fmap. split.
  - intros ([j y] & -> & Hj%elem_of_entries). by exists j.
  - intros [i Hi]. exists (i, x). by rewrite elem_of_entries.
Qed.

Lemma NoDup_keys {A} (m : gmap Z A) : NoDup (keys m).
Proof. unfold keys. rewrite entries_perm. apply NoDup_fst_map_to_list. Qed.

Lemma entries_sorted {A} (m : gmap Z A) : StronglySorted key_le (entries m).
Proof.
  apply StronglySorted_merge_sort.
  - intros x y z. unfold key_le. lia.
  - intros x y. unfold key_le. lia.
Qed.

Lemma keys_sorted {A} (m : gmap Z A) : StronglySorted Z.le (keys m).
Proof.
  unfold keys. induction (entries_sorted m) as [|x l Hs IH Hx]; simpl; constructor; [done|].
  rewrite Forall_fmap. eapply Forall_impl; [done|]. done.
Qed.

Lemma keys_eq {A B} (m : gmap Z A) (n : gmap Z B) :
  keys m = keys n ↔ ∀ i, is_Some (m !! i) ↔ is_Some (n !! i).
Proof.
  split.
  - intros He i. by rewrite <-!elem_of_keys, He.
  - intros Hi. apply (StronglySorted_unique Z.le); [apply keys_sorted..|].
    apply NoDup_Permutation; [apply NoDup_keys..|]. intros i. by rewrite !elem_of_keys.
Qed.

Lemma Forall_entries {A} (P : Z * A → Prop) (m : gmap Z A) :
  Forall P (entries m) ↔ ∀ i x, m !! i = Some x → P (i, x).
Proof.
  rewrite Forall_forall. split.
  - intros H i x Hi. apply H. by apply elem_of_entries.
  - intros H [i x] Hi. apply H. by apply elem_of_entries.
Qed.

Lemma existsb_false {A} (f : A → bool) (l : list A) :
  existsb f l = false ↔ ∀ x, x ∈ l → f x = false.
Proof.
  rewrite <-not_true_iff_false, existsb_exists. split.
  - intros Hn x Hx. apply not_true_iff_false. intros Hf. apply Hn. exists x.
    split; [by apply list_elem_of_In|done].
  - intros H (x & Hx%list_elem_of_In & Hf). rewrite H in Hf; done.
Qed.

(** [BTreeMap::len] as a [usize]. *)
Definition count {A} (m : gmap Z A) : Z := Z.of_nat (size m).

(** [BTreeMap::retain] on the keys. *)
Definition retain {A} (p : Z → bool) (m : gmap Z A) : gmap Z A :=
  filter (λ kv, p kv.1 = true) m.

Lemma lookup_retain {A} (p : Z → bool) (m : gmap Z A) i :
  retain p m !! i = if p i then m !! i else None.
Proof.
  unfold retain. destruct (p i) eqn:Hp.
  - destruct (m !! i) eqn:Hm.
    + by apply map_lookup_filter_Some.
    + apply map_lookup_filter_None. by left.
  - apply map_lookup_filter_None. right. simpl. congruence.
Qed.

(** ** Lists *)

(** Does the list repeat an element? This is the scan
    [iter().enumerate().any(|(i, v)| list[..i].contains(v))]. *)
Definition has_duplicate `{EqDecision A} (l : list A) : bool :=
  existsb (λ i, match l !! i with
                | Some v => bool_decide (v ∈ take i l)
                | None => false
                end) (seq 0 (length l)).

Lemma has_duplicate_false `{EqDecision A} (l : list A) :
  has_duplicate l = false ↔ NoDup l.
Proof.
  unfold has_duplicate. rewrite <-not_true_iff_false, existsb_exists. split.
  - intros Hno. apply NoDup_alt. intros i j x Hi Hj.
    destruct (decide (i = j)) as [|Hne]; [done|]. exfalso. apply Hno.
    assert (∃ a b, (a < b)%nat ∧ l !! a = Some x ∧ l !! b = Some x) as (a & b & Hlt & Ha & Hb).
    { destruct (decide (i < j)%nat); [by exists i, j | exists j, i; split_and!; try done; lia]. }
    exists b. split.
    + apply in_seq. apply lookup_lt_Some in Hb. lia.
    + rewrite Hb. apply bool_decide_eq_true. apply list_elem_of_lookup. exists a.
      by rewrite lookup_take_lt.
  - intros Hnd (i & _ & Hi). destruct (l !! i) as [x|] eqn:Hx; [|done].
    apply bool_decide_eq_true, list_elem_of_lookup in Hi as [j Hj].
    apply lookup_take_Some in Hj as [Hj ?].
    pose proof (NoDup_lookup _ _ _ _ Hnd Hx Hj). lia.
Qed.

(** Collecting into a set shows repetitions by the size. *)
Lemma size_list_to_set_le `{Countable V} (l : list V) :
  (size (list_to_set l : gset V) ≤ length l)%nat.
Proof.
  induction l as [|v l IH]; [by apply Nat.eq_le_incl, (size_empty (C:=gset V))|simpl].
  pose proof (size_union_alt {[v]} (list_to_set l : gset V)) as Hu.
  rewrite Hu, size_singleton.
  assert (size ((list_to_set l : gset V) ∖ {[v]}) ≤ size (list_to_set l : gset V))%nat; [|lia].
  apply subseteq_size. set_solver.
Qed.

Lemma size_list_to_set_NoDup `{Countable V} (l : list V) :
  size (list_to_set l : gset V) = length l → NoDup l.
Proof.
  induction l as [|v l IH]; simpl; [constructor|]. intros Hs.
  pose proof (size_list_to_set_le l).
  destruct (decide (v ∈ l)) as [Hin|Hout].
  - rewrite subseteq_union_1_L in Hs by set_solver. lia.
  - constructor; [done|]. apply IH.
    rewrite size_union, size_singleton in Hs by set_solver. lia.
Qed.
