(* ===== verification/Errors.v ===== *)
(** * Errors of the crate (src/error.rs)

  [QuePaxaError] with the constructors of the source. Messages built with
  [format!] are built here with the same text; the parts that come from the
  operating system are arguments of the definitions that raise them. *)
From S2P Require Import Prelude.

Module QuePaxaError.
Inductive t : Type :=
| EmptyCluster
| EmptyProposal
| EmptyDecision
| MissingProposal
| MissingValue
| DuplicateReplica (replica : Z)
| UnknownReplica (replica : Z)
| InvalidSender (replica : Z)
| InvalidRecorderReply (expected received : Z)
| DuplicateRecorderReply (replica : Z)
| InvalidQuorum (replicas quorum : Z)
| QuorumNotReached (needed received : Z)
| InvalidStep (step limit : Z)
| StepOverflow
| SlotOverflow
| ResourceLimit (resource : string) (limit : Z)
| InvalidProposal (message : string)
| TransportError (message : string)
| StorageError (message : string)
| ConfigurationMismatch
| ConfigurationEpochOverflow
| InvalidReconfiguration (message : string)
| ConflictingDecision (slot : Z)
| ScheduleMismatch (slot : Z)
| SlotAlreadyDecided (slot : Z)
| SlotPruned (slot : Z)
| StepLimitExceeded (limit : Z)
| PolicyError (message : string).

#[global] Instance eq_dec : EqDecision t.
Proof. solve_decision. Defined.

(** [impl Display for QuePaxaError]. *)
Definition fmt (e : t) : string :=
  match e with
  | EmptyCluster => "cluster must contain at least one replica"
  | EmptyProposal => "proposal must contain at least one value id"
  | EmptyDecision => "decision must contain at least one value id"
  | MissingProposal => "recorder reply did not contain a proposal"
  | MissingValue => "required value is missing from the value store"
  | DuplicateReplica r => "duplicate replica id " +:+ pretty r
  | UnknownReplica r => "unknown replica id " +:+ pretty r
  | InvalidSender r => "replica id " +:+ pretty r +:+ " is not an authorized sender"
  | InvalidRecorderReply expected received =>
      "recorder reply identity mismatch: expected " +:+ pretty expected
      +:+ ", received " +:+ pretty received
  | DuplicateRecorderReply r => "duplicate reply from recorder " +:+ pretty r
  | InvalidQuorum replicas quorum =>
      "invalid quorum " +:+ pretty quorum +:+ " for " +:+ pretty replicas +:+ " replicas"
  | QuorumNotReached needed received =>
      "quorum not reached: needed " +:+ pretty needed +:+ ", received " +:+ pretty received
  | InvalidStep step limit =>
      "logical step " +:+ pretty step +:+ " is outside the accepted range through "
      +:+ pretty limit
  | StepOverflow => "logical step counter overflowed"
  | SlotOverflow => "slot index overflowed"
  | ResourceLimit resource limit =>
      resource +:+ " exceeds its configured limit of " +:+ pretty limit
  | InvalidProposal message => message
  | TransportError message => message
  | StorageError message => message
  | ConfigurationMismatch =>
      "replica configuration does not match the local cluster identity"
  | ConfigurationEpochOverflow => "membership configuration epoch overflowed"
  | InvalidReconfiguration message => message
  | ConflictingDecision slot => "conflicting decision for slot " +:+ pretty slot
  | ScheduleMismatch slot => "round-one leader schedule mismatch for slot " +:+ pretty slot
  | SlotAlreadyDecided slot => "slot " +:+ pretty slot +:+ " is already decided"
  | SlotPruned slot =>
      "slot " +:+ pretty slot +:+ " was pruned after checkpointing; state transfer is required"
  | StepLimitExceeded limit =>
      "proposer exceeded the configured step limit " +:+ pretty limit
  | PolicyError message => message
  end.
End QuePaxaError.


(** [crate::error::Result]. *)
Abbreviation Result := (result QuePaxaError.t).
