(* ===== verification/Types.v ===== *)
(** * Identifiers, proposals, decisions and messages (src/types.rs)

  The newtypes over [u64] ([ReplicaId], [LaneId], [SlotIndex], [Step],
  [Priority]) are [Z]; the bounds the code relies on are stated where a
  theorem needs them. The order on proposal keys is the derived
  lexicographic [Ord], and ties keep the earlier proposal. *)
From S2P Require Import Prelude Errors.

Abbreviation ReplicaId := Z (only parsing).
Abbreviation LaneId := Z (only parsing).
Abbreviation SlotIndex := Z (only parsing).

(** ** Slots *)

Module SlotIdx.
Definition GENESIS : SlotIndex := 0.
Definition next (s : SlotIndex) : SlotIndex := U64.saturating_add s 1.
Definition checked_next (s : SlotIndex) : option SlotIndex := U64.checked_add s 1.
End SlotIdx.

(** ** Logical steps: four phases per round *)

Module Step.
Definition t : Type := Z.
Definition INITIAL : Z := 0.
Definition ROUND_ONE_PHASE_ZERO : Z := 4.

Definition checked_from_round_phase (round phase : Z) : option Z :=
  match U64.checked_mul round 4 with
  | Some step => U64.checked_add step phase
  | None => None
  end.

Definition phase (s : Z) : Z := s mod 4.
Definition next (s : Z) : Z := U64.saturating_add s 1.
Definition checked_next (s : Z) : option Z := U64.checked_add s 1.

Definition is_next_after (s previous : Z) : bool :=
  bool_decide (U64.checked_add previous 1 = Some s).
End Step.

(** ** Priorities *)

Module Priority.
Definition MIN : Z := 0.
Definition MAX : Z := U64.MAX.
Definition is_leader_priority (p : Z) : bool := p =? MAX.
End Priority.

(** ** Proposal keys and their lexicographic order *)

Module ProposalKey.
Record t : Type := new {
  priority : Z;
  proposer_id : ReplicaId;
  lane_id : LaneId;
}.

#[global] Instance eq_dec : EqDecision t.
Proof. solve_decision. Defined.

(** The derived [Ord]: fields are compared in declaration order. *)
Definition compare (a b : t) : comparison :=
  match priority a ?= priority b with
  | Eq => match proposer_id a ?= proposer_id b with
          | Eq => lane_id a ?= lane_id b
          | c => c
          end
  | c => c
  end.

Definition geb (a b : t) : bool :=
  match compare a b with Lt => false | _ => true end.

Definition le (a b : t) : Prop := geb b a = true.
End ProposalKey.

(** ** Proposals *)

Module Proposal.
Record t {V : Type} : Type := mk {
  key : ProposalKey.t;
  value_ids : list V;
}.
Arguments t : clear implicits.
Arguments mk {V} _ _.

#[global] Instance eq_dec `{EqDecision V} : EqDecision (t V).
Proof. solve_decision. Defined.

Definition new {V} (key : ProposalKey.t) (value_ids : list V) : Result (t V) :=
  reject is_empty value_ids with QuePaxaError.EmptyProposal ;;
  Ok (mk key value_ids).

Definition with_priority {V} (p : t V) (priority : Z) : t V :=
  mk (ProposalKey.new priority (key p).(ProposalKey.proposer_id)
                      (key p).(ProposalKey.lane_id))
     (value_ids p).
End Proposal.

(** ** Decisions *)

Module Decision.
Record t {V : Type} : Type := mk {
  slot : SlotIndex;
  value_ids : list V;
  proposer : ReplicaId;
  decided_step : Z;
}.
Arguments t : clear implicits.
Arguments mk {V} _ _ _ _.

#[global] Instance eq_dec `{EqDecision V} : EqDecision (t V).
Proof. solve_decision. Defined.

Definition new {V} (slot : SlotIndex) (value_ids : list V) (proposer : ReplicaId)
    (decided_step : Z) : Result (t V) :=
  reject is_empty value_ids with QuePaxaError.EmptyDecision ;;
  Ok (mk slot value_ids proposer decided_step).
End Decision.

(** ** Choosing the best proposal *)

Definition best_proposal {V} (left : option (Proposal.t V)) (right : Proposal.t V)
    : Proposal.t V :=
  match left with
  | Some current =>
      if ProposalKey.geb (Proposal.key current) (Proposal.key right)
      then current else right
  | None => right
  end.

Definition max_proposal_by_key {V} (proposals : list (Proposal.t V))
    : option (Proposal.t V) :=
  fold_left (λ best proposal, Some (best_proposal best proposal)) proposals None.

(** ** Recorder messages that do not mention the membership *)

Module RecordRequest.
Record t {V : Type} : Type := mk {
  sender : ReplicaId;
  slot : SlotIndex;
  round_one_leader : option ReplicaId;
  step : Z;
  proposal : Proposal.t V;
  known_decisions : list (Decision.t V);
}.
Arguments t : clear implicits.
Arguments mk {V} _ _ _ _ _ _.
End RecordRequest.

Module RecordSummary.
Record t {V : Type} : Type := mk {
  step : Z;
  first : option (Proposal.t V);
  prior_aggregate : option (Proposal.t V);
}.
Arguments t : clear implicits.
Arguments mk {V} _ _ _.
End RecordSummary.

(** ** Lemmas *)

Lemma key_compare_spec (a b : ProposalKey.t) :
  match ProposalKey.compare a b with
  | Eq => a = b
  | Lt => ProposalKey.compare b a = Gt
  | Gt => ProposalKey.compare b a = Lt
  end.
Proof.
  destruct a as [pa ia la], b as [pb ib lb]. unfold ProposalKey.compare; simpl.
  destruct (Z.compare_spec pa pb), (Z.compare_spec pb pa); try lia; try done.
  destruct (Z.compare_spec ia ib), (Z.compare_spec ib ia); try lia; try done.
  destruct (Z.compare_spec la lb), (Z.compare_spec lb la); try lia; try done.
  congruence.
Qed.

#[global] Instance key_le_refl : Reflexive ProposalKey.le.
Proof.
  intros a. unfold ProposalKey.le, ProposalKey.geb.
  pose proof (key_compare_spec a a). destruct (ProposalKey.compare a a) eqn:E; congruence.
Qed.

#[global] Instance key_le_antisymm : AntiSymm (=) ProposalKey.le.
Proof.
  intros a b. unfold ProposalKey.le, ProposalKey.geb.
  pose proof (key_compare_spec a b). destruct (ProposalKey.compare a b) eqn:E;
    [done | done |]. by rewrite H.
Qed.

(** The order written out on the three fields. *)
Lemma key_le_iff (a b : ProposalKey.t) :
  ProposalKey.le a b ↔
    ProposalKey.priority a < ProposalKey.priority b
    ∨ (ProposalKey.priority a = ProposalKey.priority b
       ∧ (ProposalKey.proposer_id a < ProposalKey.proposer_id b
          ∨ (ProposalKey.proposer_id a = ProposalKey.proposer_id b
             ∧ ProposalKey.lane_id a ≤ ProposalKey.lane_id b))).
Proof.
  destruct a as [pa ia la], b as [pb ib lb].
  unfold ProposalKey.le, ProposalKey.geb, ProposalKey.compare; simpl.
  destruct (Z.compare_spec pb pa); [|naive_solver lia..].
  destruct (Z.compare_spec ib ia); [|naive_solver lia..].
  destruct (Z.compare_spec lb la); naive_solver lia.
Qed.

#[global] Instance key_le_trans : Transitive ProposalKey.le.
Proof. intros a b c. rewrite !key_le_iff. lia. Qed.

#[global] Instance key_le_total : Total ProposalKey.le.
Proof. intros a b. rewrite !key_le_iff. lia. Qed.

Lemma key_geb_false (a b : ProposalKey.t) :
  ProposalKey.geb a b = false → ProposalKey.le a b.
Proof.
  intros H. destruct (key_le_total a b) as [|H']; [done|].
  unfold ProposalKey.le in H'. congruence.
Qed.

Section best.
Context {V : Type}.
Implicit Types p q : Proposal.t V.

Lemma best_proposal_upper o p q :
  (q = p ∨ o = Some q) →
  ProposalKey.le (Proposal.key q) (Proposal.key (best_proposal o p)).
Proof.
  unfold best_proposal. destruct o as [r|]; [|naive_solver].
  destruct (ProposalKey.geb (Proposal.key r) (Proposal.key p)) eqn:E.
  - by intros [->|[= ->]].
  - apply key_geb_false in E. by intros [->|[= ->]].
Qed.

Lemma best_proposal_choice o p : best_proposal o p = p ∨ o = Some (best_proposal o p).
Proof. unfold best_proposal. destruct o as [r|]; [case_match|]; auto. Qed.

Lemma max_proposal_snoc (l : list (Proposal.t V)) p :
  max_proposal_by_key (l ++ [p]) = Some (best_proposal (max_proposal_by_key l) p).
Proof. unfold max_proposal_by_key. by rewrite fold_left_app. Qed.

Lemma max_proposal_None (l : list (Proposal.t V)) : max_proposal_by_key l = None ↔ l = [].
Proof.
  destruct l as [|x l] using rev_ind; [done|]. rewrite max_proposal_snoc.
  split; [done|]. by intros ?%app_eq_nil%proj2.
Qed.

Lemma max_proposal_elem (l : list (Proposal.t V)) p : max_proposal_by_key l = Some p → p ∈ l.
Proof.
  revert p. induction l as [|x l IH] using rev_ind; [done|]. intros p.
  rewrite max_proposal_snoc. intros [= <-]. apply elem_of_app.
  destruct (best_proposal_choice (max_proposal_by_key l) x) as [->|E].
  - right. by apply list_elem_of_singleton.
  - left. by apply IH.
Qed.

Lemma max_proposal_upper (l : list (Proposal.t V)) p q :
  max_proposal_by_key l = Some p → q ∈ l →
  ProposalKey.le (Proposal.key q) (Proposal.key p).
Proof.
  revert p q. induction l as [|x l IH] using rev_ind; [done|]. intros p q.
  rewrite max_proposal_snoc. intros [= <-] [Hq| ->%list_elem_of_singleton]%elem_of_app.
  - destruct (max_proposal_by_key l) as [r|] eqn:E.
    + etrans; [by apply IH|]. apply best_proposal_upper. auto.
    + apply max_proposal_None in E. subst. by apply elem_of_nil in Hq.
  - apply best_proposal_upper. auto.
Qed.

Lemma max_proposal_Some (l : list (Proposal.t V)) q :
  q ∈ l → ∃ p, max_proposal_by_key l = Some p.
Proof.
  intros Hq. destruct (max_proposal_by_key l) eqn:E; [eauto|].
  apply max_proposal_None in E. subst. by apply elem_of_nil in Hq.
Qed.
End best.

#[export] Hint Resolve max_proposal_elem max_proposal_upper : quepaxa.

(** ** Properties *)

(** The fold [max_proposal_by_key] returns the first proposal of the list
    whose key is maximal: it is an element, its key bounds every key, and
    every proposal before it has a strictly smaller key. *)
Theorem max_proposal_by_key_first_max {V} (l : list (Proposal.t V)) p :
  max_proposal_by_key l = Some p →
  ∃ l1 l2, l = l1 ++ p :: l2
    ∧ (∀ q, q ∈ l → ProposalKey.le (Proposal.key q) (Proposal.key p))
    ∧ (∀ q, q ∈ l1 → ¬ ProposalKey.le (Proposal.key p) (Proposal.key q)).
Proof.
  intros Hmax. enough (∃ l1 l2, l = l1 ++ p :: l2
    ∧ ∀ q, q ∈ l1 → ¬ ProposalKey.le (Proposal.key p) (Proposal.key q)) as (l1&l2&?&?)
    by (exists l1, l2; split_and!; eauto with quepaxa).
  revert p Hmax. induction l as [|x l IH] using rev_ind; [done|]. intros p.
  rewrite max_proposal_snoc. intros [= <-]. unfold best_proposal.
  destruct (max_proposal_by_key l) as [r|] eqn:E; [destruct ProposalKey.geb eqn:G|].
  - destruct (IH r eq_refl) as (l1 & l2 & -> & ?). exists l1, (l2 ++ [x]).
    by rewrite <-app_assoc.
  - exists l, []. split; [done|]. intros q Hq Hle.
    pose proof (max_proposal_upper _ _ _ E Hq) as Hqr.
    pose proof (key_le_trans _ _ _ Hle Hqr) as Hxr. unfold ProposalKey.le in Hxr. congruence.
  - apply max_proposal_None in E as ->. exists [], []. split; [done|].
    by intros q ?%elem_of_nil.
Qed.
