(* ===== verification/Membership.v ===== *)
(** * Cluster membership, quorums and reconfiguration (src/types.rs)

  [ClusterIdentity] with its stable and joint epochs, the quorum predicate,
  the successor relation, and the canonical encoding of a membership
  command. The theorems: every constructor yields a well-formed cluster, two
  quorums of one epoch meet, quorums of two consecutive epochs meet, and the
  canonical encoding is injective. *)
From S2P Require Import Prelude Errors Types.

(** ** Vectors of replica identifiers *)

(** [slice::windows(2)]. *)
Definition windows2 {A} (l : list A) : list (A * A) := zip l (tail l).

(** [Vec::sort] and [Vec::dedup]. *)
Definition sort (l : list Z) : list Z := merge_sort Z.le l.

Fixpoint dedup (l : list Z) : list Z :=
  match l with
  | x :: (y :: _) as t => if x =? y then dedup t else x :: dedup t
  | _ => l
  end.

Definition members_are_normalized (members : list ReplicaId) : bool :=
  negb (is_empty members) && forallb (λ pair, pair.1 <? pair.2) (windows2 members).

Definition normalize_members (members : list ReplicaId) : Result (list ReplicaId) :=
  let members := sort members in
  reject is_empty members with QuePaxaError.EmptyCluster ;;
  match List.find (λ pair, pair.1 =? pair.2) (windows2 members) with
  | Some (duplicate, _) => Err (QuePaxaError.DuplicateReplica duplicate)
  | None => Ok members
  end.

Definition validate_fault_tolerance (replica_count max_faults : Z) : Result unit :=
  match U64.checked_mul max_faults 2 ≫= λ value, U64.checked_add value 1 with
  | None => Err (QuePaxaError.InvalidProposal "fault tolerance is too large")
  | Some required =>
      reject replica_count <? required
        with QuePaxaError.InvalidProposal
               (pretty replica_count +:+ " replicas cannot tolerate " +:+ pretty max_faults
                +:+ " crash faults; require at least " +:+ pretty required) ;;
      Ok tt
  end.

(** ** Cluster identities *)

Module JointMembership.
Record t : Type := mk {
  old_members : list ReplicaId;
  old_max_faults : Z;
  new_members : list ReplicaId;
}.

#[global] Instance eq_dec : EqDecision t.
Proof. solve_decision. Defined.
End JointMembership.

Module ClusterIdentity.
Record t : Type := mk {
  members : list ReplicaId;
  max_faults : Z;
  epoch : Z;
  joint : option JointMembership.t;
}.

#[global] Instance eq_dec : EqDecision t.
Proof. solve_decision. Defined.

Definition stable (epoch : Z) (members : list ReplicaId) (max_faults : Z) : Result t :=
  let? members := normalize_members members in
  let? _ := validate_fault_tolerance (len members) max_faults in
  Ok (mk members max_faults epoch None).

Definition new (members : list ReplicaId) (max_faults : Z) : Result t :=
  stable 0 members max_faults.

Definition is_joint (c : t) : bool := bool_decide (is_Some (joint c)).

Definition begin_joint (self : t) (new_members : list ReplicaId) (new_max_faults : Z)
    : Result t :=
  reject is_joint self
    with QuePaxaError.InvalidReconfiguration
           "cannot begin a second reconfiguration from a joint epoch" ;;
  let? new_members := normalize_members new_members in
  let? _ := validate_fault_tolerance (len new_members) new_max_faults in
  let? epoch := ok_or (U64.checked_add (epoch self) 1)
                      QuePaxaError.ConfigurationEpochOverflow in
  let old_members := members self in
  Ok (mk (dedup (sort (old_members ++ new_members))) new_max_faults epoch
         (Some (JointMembership.mk old_members (max_faults self) new_members))).

(** [expect("a joint epoch has joint membership")] is the [None] case after
    the guard: [is_joint] makes it unreachable. *)
Definition finalize_joint (self : t) : Result t :=
  match joint self with
  | None => Err (QuePaxaError.InvalidReconfiguration "only a joint epoch can be finalized")
  | Some joint =>
      let? epoch := ok_or (U64.checked_add (epoch self) 1)
                          QuePaxaError.ConfigurationEpochOverflow in
      stable epoch (JointMembership.new_members joint) (max_faults self)
  end.

Definition current_members (self : t) : list ReplicaId :=
  match joint self with
  | Some joint => JointMembership.new_members joint
  | None => members self
  end.

Definition old_members (self : t) : option (list ReplicaId) :=
  JointMembership.old_members <$> joint self.

(** [members.binary_search(&replica).is_ok()]: membership, on the sorted
    vectors every constructor builds. *)
Definition contains (self : t) (replica : ReplicaId) : bool :=
  bool_decide (replica ∈ members self).

Definition quorum_size (self : t) : Z :=
  match joint self with
  | Some joint =>
      let old_quorum := U64.wrapping_sub (len (JointMembership.old_members joint))
                                         (JointMembership.old_max_faults joint) in
      let new_quorum := U64.wrapping_sub (len (JointMembership.new_members joint))
                                         (max_faults self) in
      let shared :=
        Z.min (Z.min (len (filter (λ m, m ∈ JointMembership.new_members joint)
                                  (JointMembership.old_members joint)))
                     old_quorum)
              new_quorum in
      U64.wrapping_sub (old_quorum + new_quorum) shared
  | None => U64.wrapping_sub (len (members self)) (max_faults self)
  end.

Definition has_quorum (self : t) (voters : list ReplicaId) : bool :=
  let voters : gset Z := list_to_set voters in
  match joint self with
  | Some joint =>
      let old := len (filter (λ m, m ∈ voters) (JointMembership.old_members joint)) in
      let new := len (filter (λ m, m ∈ voters) (JointMembership.new_members joint)) in
      (U64.wrapping_sub (len (JointMembership.old_members joint))
                        (JointMembership.old_max_faults joint) <=? old)
      && (U64.wrapping_sub (len (JointMembership.new_members joint))
                           (max_faults self) <=? new)
  | None =>
      (quorum_size self <=? Z.of_nat (size voters))
      && forallb (contains self) (elements voters)
  end.

Definition is_well_formed (self : t) : bool :=
  if negb (members_are_normalized (members self)) then false
  else match joint self with
  | None => is_ok (validate_fault_tolerance (len (members self)) (max_faults self))
  | Some joint =>
      if negb (members_are_normalized (JointMembership.old_members joint))
         || negb (members_are_normalized (JointMembership.new_members joint))
         || is_err (validate_fault_tolerance (len (JointMembership.old_members joint))
                                             (JointMembership.old_max_faults joint))
         || is_err (validate_fault_tolerance (len (JointMembership.new_members joint))
                                             (max_faults self))
      then false
      else bool_decide (dedup (sort (JointMembership.old_members joint
                                     ++ JointMembership.new_members joint))
                        = members self)
  end.

Definition is_successor_of (self previous : t) : bool :=
  if negb (is_well_formed self) || negb (is_well_formed previous)
     || negb (bool_decide (U64.checked_add (epoch previous) 1 = Some (epoch self)))
  then false
  else match joint self with
  | Some joint =>
      negb (is_joint previous)
      && bool_decide (JointMembership.old_members joint = members previous)
      && (JointMembership.old_max_faults joint =? max_faults previous)
  | None =>
      match joint previous with
      | Some joint =>
          bool_decide (members self = JointMembership.new_members joint)
          && (max_faults self =? max_faults previous)
      | None => false
      end
  end.
End ClusterIdentity.

(** ** Replies carry the recorder's cluster *)

Module RecordReply.
Record t {V : Type} : Type := mk {
  recorder : ReplicaId;
  cluster : ClusterIdentity.t;
  summary : RecordSummary.t V;
  decision : option (Decision.t V);
}.
Arguments t : clear implicits.
Arguments mk {V} _ _ _ _.
End RecordReply.

(** ** Membership changes *)

Module MembershipChange.
Record t {V : Type} : Type := mk {
  anchor : Decision.t V;
  next : ClusterIdentity.t;
  command_id : V;
}.
Arguments t : clear implicits.
Arguments mk {V} _ _ _.

Definition not_in_anchor : QuePaxaError.t :=
  QuePaxaError.InvalidReconfiguration
    "membership command ID is not present in its anchor decision".

Definition new `{EqDecision V} (anchor : Decision.t V) (next : ClusterIdentity.t)
    (command_id : V) : Result (t V) :=
  reject negb (bool_decide (command_id ∈ Decision.value_ids anchor)) with not_in_anchor ;;
  Ok (mk anchor next command_id).

Definition validate_binding `{EqDecision V} (self : t V) : Result unit :=
  if bool_decide (command_id self ∈ Decision.value_ids (anchor self))
  then Ok tt else Err not_in_anchor.
End MembershipChange.

(** ** The canonical encoding *)

(** [u64::to_be_bytes]. *)
Definition to_be_bytes (x : Z) : list Z :=
  map (λ i, Z.land (Z.shiftr x (8 * i)) 255) [7; 6; 5; 4; 3; 2; 1; 0].

(** [u64::try_from] on a [usize] cannot fail on a 64-bit target; a narrower
    conversion would be an error, which the range test keeps. *)
Definition encode_usize (value : Z) : Result (list Z) :=
  if value <=? U64.MAX then Ok (to_be_bytes value)
  else Err (QuePaxaError.InvalidReconfiguration
              "membership field is too large for its canonical encoding").

Definition encode_members (members : list ReplicaId) : Result (list Z) :=
  let? count := encode_usize (len members) in
  Ok (count ++ flat_map to_be_bytes members).

Definition encode_cluster (cluster : ClusterIdentity.t) : Result (list Z) :=
  let? faults := encode_usize (ClusterIdentity.max_faults cluster) in
  let? members := encode_members (ClusterIdentity.members cluster) in
  let? joint :=
    match ClusterIdentity.joint cluster with
    | Some joint =>
        let? old_faults := encode_usize (JointMembership.old_max_faults joint) in
        let? old := encode_members (JointMembership.old_members joint) in
        let? new := encode_members (JointMembership.new_members joint) in
        Ok ([1] ++ old_faults ++ old ++ new)
    | None => Ok [0]
    end in
  Ok (to_be_bytes (ClusterIdentity.epoch cluster) ++ faults ++ members ++ joint).

(** [b"quepaxa-membership-command-v1"]. *)
Definition command_prefix : list Z :=
  (λ a, Z.of_N (Ascii.N_of_ascii a)) <$>
    String.list_ascii_of_string "quepaxa-membership-command-v1".

Module MembershipCommand.
Record t : Type := new { next : ClusterIdentity.t }.

Definition canonical_bytes (self : t) : Result (list Z) :=
  let? body := encode_cluster (next self) in
  Ok (command_prefix ++ body).

(** SHA-256 comes from the [sha2] crate: it is a parameter, from byte strings
    to digests (as byte strings). *)
Section digest.
Context (Sha256 : list Z → list Z).

Definition sha256_id (self : t) : Result (list Z) :=
  let? bytes := canonical_bytes self in
  Ok (Sha256 bytes).

Definition bind (self : t) (anchor : Decision.t (list Z))
    : Result (MembershipChange.t (list Z)) :=
  let? command_id := sha256_id self in
  MembershipChange.new anchor (next self) command_id.
End digest.
End MembershipCommand.

(** ** Sorted vectors *)

Lemma windows2_cons {A} (x y : A) l : windows2 (x :: y :: l) = (x, y) :: windows2 (y :: l).
Proof. done. Qed.

Lemma windows2_lt_sorted l :
  forallb (λ pair, pair.1 <? pair.2) (windows2 l) = true ↔ Sorted Z.lt l.
Proof.
  induction l as [|x [|y l] IH]; [done | split; auto |].
  rewrite windows2_cons. simpl forallb. rewrite andb_true_iff, IH, Z.ltb_lt. simpl. split.
  - intros [??]. constructor; [done|]. by constructor.
  - intros [Hs Hd]%Sorted_inv. apply HdRel_inv in Hd. done.
Qed.

Lemma sorted_lt_strong l : Sorted Z.lt l → StronglySorted Z.lt l.
Proof. apply Sorted_StronglySorted. intros x y z. lia. Qed.

Lemma sorted_lt_NoDup l : Sorted Z.lt l → NoDup l.
Proof.
  intros H%sorted_lt_strong. induction H as [|x l Hs IH Hx]; constructor; [|done].
  intros Hin. rewrite Forall_forall in Hx. specialize (Hx x). apply Hx in Hin. lia.
Qed.

Lemma Forall_HdRel_lt x l : (∀ y, y ∈ l → x < y) → HdRel Z.lt x l.
Proof. destruct l as [|y l]; intros H; constructor. apply H. left. Qed.

Lemma strong_lt_le l : StronglySorted Z.lt l → StronglySorted Z.le l.
Proof.
  induction 1 as [|x l Hs IH Hx]; constructor; [done|].
  eapply Forall_impl; [done|]. intros y. simpl. lia.
Qed.

(** A strictly increasing vector is determined by its elements. *)
Lemma sorted_lt_unique l k :
  Sorted Z.lt l → Sorted Z.lt k → (∀ x, x ∈ l ↔ x ∈ k) → l = k.
Proof.
  intros Hl Hk Heq. apply (StronglySorted_unique Z.le).
  - by apply strong_lt_le, sorted_lt_strong.
  - by apply strong_lt_le, sorted_lt_strong.
  - apply NoDup_Permutation; [by apply sorted_lt_NoDup..|done].
Qed.

Lemma sort_perm l : sort l ≡ₚ l.
Proof. apply merge_sort_Permutation. Qed.

Lemma sort_sorted l : Sorted Z.le (sort l).
Proof. apply StronglySorted_Sorted, StronglySorted_merge_sort; apply _. Qed.

Lemma elem_of_sort x l : x ∈ sort l ↔ x ∈ l.
Proof. by rewrite sort_perm. Qed.

Lemma elem_of_dedup x l : x ∈ dedup l ↔ x ∈ l.
Proof.
  induction l as [|y [|z l] IH]; [done..|]. simpl dedup.
  destruct (Z.eqb_spec y z) as [->|Hne].
  - rewrite IH, !elem_of_cons. naive_solver.
  - by rewrite !elem_of_cons, IH, elem_of_cons.
Qed.

Lemma dedup_sorted l : Sorted Z.le l → Sorted Z.lt (dedup l).
Proof.
  intros Hs%Sorted_StronglySorted; [|intros x y z; lia].
  induction Hs as [|x l Hs IH Hx]; [constructor|]. destruct l as [|y l]; [by repeat constructor|].
  simpl dedup in *. destruct (Z.eqb_spec x y) as [->|Hne]; [done|].
  constructor; [done|]. apply Forall_HdRel_lt. intros z Hz.
  assert (z ∈ y :: l) as Hz' by (by apply elem_of_dedup).
  rewrite Forall_forall in Hx. pose proof (Hx z Hz'). pose proof (Hx y (list_elem_of_here _ _)).
  destruct (decide (x = z)) as [->|]; [|lia]. exfalso.
  apply elem_of_cons in Hz' as [->|Hz']; [done|].
  apply StronglySorted_inv in Hs as [_ Hy]. rewrite Forall_forall in Hy.
  specialize (Hy z Hz'). lia.
Qed.

Lemma union_sorted l k : Sorted Z.lt (dedup (sort (l ++ k))).
Proof. apply dedup_sorted, sort_sorted. Qed.

Lemma elem_of_union_members x l k : x ∈ dedup (sort (l ++ k)) ↔ x ∈ l ∨ x ∈ k.
Proof. by rewrite elem_of_dedup, elem_of_sort, elem_of_app. Qed.

Lemma members_are_normalized_spec l :
  members_are_normalized l = true ↔ l ≠ [] ∧ Sorted Z.lt l.
Proof.
  unfold members_are_normalized.
  by rewrite andb_true_iff, negb_true_iff, is_empty_false, windows2_lt_sorted.
Qed.

Lemma find_windows2_None l :
  Sorted Z.le l → List.find (λ pair, pair.1 =? pair.2) (windows2 l) = None ↔ NoDup l.
Proof.
  intros Hs. split.
  - intros Hf. apply sorted_lt_NoDup. induction l as [|x [|y l] IH]; [by constructor..|].
    apply Sorted_inv in Hs as [Hs Hd]. apply HdRel_inv in Hd.
    rewrite windows2_cons in Hf. simpl in Hf.
    destruct (Z.eqb_spec x y) as [|Hne]; [done|].
    constructor; [by apply IH|]. constructor. lia.
  - induction l as [|x [|y l] IH]; [done..|]. intros [Hx Hnd]%NoDup_cons.
    apply Sorted_inv in Hs as [Hs _]. rewrite windows2_cons. simpl.
    destruct (Z.eqb_spec x y) as [->|]; [|by apply IH].
    exfalso. apply Hx. left.
Qed.

Lemma normalize_members_Ok ms l :
  normalize_members ms = Ok l ↔ l = sort ms ∧ ms ≠ [] ∧ NoDup ms.
Proof.
  unfold normalize_members. pose proof (sort_perm ms) as Hp.
  pose proof (find_windows2_None _ (sort_sorted ms)) as Hf.
  assert (NoDup (sort ms) ↔ NoDup ms) as Hnd by (by rewrite Hp). rewrite Hnd in Hf. clear Hnd.
  destruct (is_empty (sort ms)) eqn:He.
  - apply is_empty_spec in He. rewrite He in Hp. apply Permutation_nil in Hp. naive_solver.
  - assert (ms ≠ []) by (intros ->; done).
    destruct (find _ _) as [[d ?]|]; naive_solver.
Qed.

Lemma normalize_members_sorted ms l :
  normalize_members ms = Ok l → l ≠ [] ∧ Sorted Z.lt l.
Proof.
  intros [-> [Hne Hnd]]%normalize_members_Ok. split.
  - intros Hs. pose proof (sort_perm ms) as Hp. rewrite Hs in Hp.
    by apply Permutation_nil in Hp.
  - pose proof (sort_sorted ms) as Hs.
    apply Sorted_StronglySorted in Hs; [|intros x y z; lia].
    assert (NoDup (sort ms)) as Hnd' by (by rewrite sort_perm). revert Hs Hnd'. clear.
    generalize (sort ms). induction 1 as [|x l Hs IH Hx]; intros Hnd; [constructor|].
    apply NoDup_cons in Hnd as [Hxn Hnd]. constructor; [by apply IH|].
    apply Forall_HdRel_lt. intros y Hy. rewrite Forall_forall in Hx.
    specialize (Hx y Hy). destruct (decide (x = y)); [by subst | lia].
Qed.

Lemma validate_fault_tolerance_Ok n f :
  0 ≤ f → validate_fault_tolerance n f = Ok tt ↔ 2 * f + 1 ≤ n ∧ 2 * f + 1 ≤ U64.MAX.
Proof.
  intros Hf. unfold validate_fault_tolerance, U64.checked_mul.
  destruct (Z.leb_spec (f * 2) U64.MAX); simpl; [|split; [done|lia]].
  destruct (U64.checked_add (f * 2) 1) as [r|] eqn:E.
  - apply U64.checked_add_Some in E as [-> ?].
    destruct (Z.ltb_spec n (f * 2 + 1)); split; try done; lia.
  - apply U64.checked_add_None in E. split; [done|lia].
Qed.

(** ** Quorum intersection *)

(** The values the Rust types can hold: [usize] and [u64] fields, and vectors
    of [u64] identifiers no longer than [usize::MAX]. *)
Definition usize_component (ms : list ReplicaId) (f : Z) : Prop :=
  U64.fits f ∧ U64.fits (len ms) ∧ Forall U64.fits ms.

Definition cluster_typed (c : ClusterIdentity.t) : Prop :=
  usize_component (ClusterIdentity.members c) (ClusterIdentity.max_faults c)
  ∧ U64.fits (ClusterIdentity.epoch c)
  ∧ match ClusterIdentity.joint c with
    | Some j => usize_component (JointMembership.old_members j)
                                (JointMembership.old_max_faults j)
                ∧ usize_component (JointMembership.new_members j)
                                  (ClusterIdentity.max_faults c)
    | None => True
    end.

#[global] Instance cluster_typed_dec c : Decision (cluster_typed c).
Proof. unfold cluster_typed, usize_component. destruct (ClusterIdentity.joint c); apply _. Defined.

(** The voter sets an epoch must gather a quorum of, with their fault
    budgets: one in a stable epoch, two in a joint one. *)
Definition components (c : ClusterIdentity.t) : list (list ReplicaId * Z) :=
  match ClusterIdentity.joint c with
  | None => [(ClusterIdentity.members c, ClusterIdentity.max_faults c)]
  | Some j => [(JointMembership.old_members j, JointMembership.old_max_faults j);
               (JointMembership.new_members j, ClusterIdentity.max_faults c)]
  end.

Definition counted (voters : list ReplicaId) (ms : list ReplicaId) : Z :=
  len (filter (λ m, m ∈ (list_to_set voters : gset Z)) ms).

Lemma is_ok_unit {E} (r : result E unit) : is_ok r = true ↔ r = Ok tt.
Proof. destruct r as [[]|]; naive_solver. Qed.

Lemma is_err_unit_false {E} (r : result E unit) : is_err r = false ↔ r = Ok tt.
Proof. destruct r as [[]|]; naive_solver. Qed.

Lemma well_formed_component c ms f :
  cluster_typed c → ClusterIdentity.is_well_formed c = true →
  (ms, f) ∈ components c →
  usize_component ms f ∧ Sorted Z.lt ms ∧ ms ≠ [] ∧ 2 * f + 1 ≤ len ms
  ∧ (∀ x, x ∈ ms → x ∈ ClusterIdentity.members c).
Proof.
  unfold ClusterIdentity.is_well_formed, components, cluster_typed.
  intros (Hty & _ & Hj) Hwf Hin.
  destruct (members_are_normalized _) eqn:Hn; [|done]. apply members_are_normalized_spec in Hn.
  simpl in Hwf. destruct (ClusterIdentity.joint c) as [j|].
  - destruct Hj as [Ho Hn']. repeat (apply list_elem_of_In in Hin; simpl in Hin).
    destruct (_ || _ || _ || _) eqn:Hg; [done|].
    rewrite !orb_false_iff, !negb_false_iff, !members_are_normalized_spec, !is_err_unit_false in Hg.
    apply bool_decide_eq_true in Hwf.
    assert (∀ x, x ∈ JointMembership.old_members j ∨ x ∈ JointMembership.new_members j
      → x ∈ ClusterIdentity.members c) as Hmem.
    { intros x Hx. by rewrite <-Hwf, elem_of_union_members. }
    destruct Hg as [[[[??] [??]] Hf1] Hf2].
    rewrite validate_fault_tolerance_Ok in Hf1, Hf2 by (unfold usize_component, U64.fits in *; lia).
    destruct Hin as [[= <- <-]|[[= <- <-]|[]]]; naive_solver.
  - apply list_elem_of_singleton in Hin as [= -> ->].
    apply is_ok_unit, validate_fault_tolerance_Ok in Hwf;
      [naive_solver | unfold usize_component, U64.fits in *; lia].
Qed.

Lemma filter_voters_size (voters : gset Z) (ms : list Z) :
  NoDup ms → (∀ x, x ∈ voters → x ∈ ms) →
  len (filter (λ m, m ∈ voters) ms) = Z.of_nat (size voters).
Proof.
  intros Hnd Hsub. unfold len. f_equal.
  rewrite <-(size_list_to_set (C:=gset Z)) by (by apply NoDup_filter).
  f_equal. apply set_eq. intros x. rewrite elem_of_list_to_set, list_elem_of_filter. naive_solver.
Qed.

Lemma has_quorum_component c voters ms f :
  cluster_typed c → ClusterIdentity.is_well_formed c = true →
  ClusterIdentity.has_quorum c voters = true → (ms, f) ∈ components c →
  len ms - f ≤ counted voters ms.
Proof.
  intros Hty Hwf Hq Hin.
  pose proof (λ m g, well_formed_component c m g Hty Hwf) as Hcomp.
  revert Hq Hin. unfold ClusterIdentity.has_quorum, ClusterIdentity.quorum_size, components in *.
  destruct (ClusterIdentity.joint c) as [j|].
  - destruct (Hcomp _ _ (list_elem_of_here _ _)) as ((?&?&?)&_&_&?&_).
    destruct (Hcomp (JointMembership.new_members j) (ClusterIdentity.max_faults c))
      as ((?&?&?)&_&_&?&_); [by right; left|].
    rewrite !U64.wrapping_sub_small by (unfold U64.fits in *; lia).
    rewrite andb_true_iff, !Z.leb_le. intros [??] Hin.
    apply list_elem_of_In in Hin. destruct Hin as [[= <- <-]|[[= <- <-]|[]]]; done.
  - destruct (Hcomp _ _ (list_elem_of_here _ _)) as ((?&?&?)&Hs&_&?&_).
    rewrite !U64.wrapping_sub_small by (unfold U64.fits in *; lia).
    rewrite andb_true_iff, Z.leb_le, forallb_forall. intros [Hsz Hall] Hin.
    apply list_elem_of_singleton in Hin as [= -> ->]. unfold counted.
    rewrite filter_voters_size; [done | by apply sorted_lt_NoDup |].
    intros x Hx. specialize (Hall x). apply bool_decide_eq_true in Hall; [done|].
    by apply list_elem_of_In, elem_of_elements.
Qed.

(** Two selections from one list that together exceed its length overlap. *)
Lemma selections_meet (v w : gset Z) (ms : list Z) :
  len ms < len (filter (λ m, m ∈ v) ms) + len (filter (λ m, m ∈ w) ms) →
  ∃ x, x ∈ ms ∧ x ∈ v ∧ x ∈ w.
Proof.
  induction ms as [|x ms IH].
  - unfold len; simpl. lia.
  - rewrite !filter_cons, len_cons. intros Hlt.
    destruct (decide (x ∈ v)), (decide (x ∈ w)).
    + exists x. split; [left|done].
    + rewrite len_cons in Hlt. destruct IH as (y&?&?); [lia|]. exists y. split; [by right|done].
    + rewrite len_cons in Hlt. destruct IH as (y&?&?); [lia|]. exists y. split; [by right|done].
    + destruct IH as (y&?&?); [lia|]. exists y. split; [by right|done].
Qed.

Lemma common_component_meet c1 c2 v w ms f :
  cluster_typed c1 → cluster_typed c2 →
  ClusterIdentity.is_well_formed c1 = true → ClusterIdentity.is_well_formed c2 = true →
  (ms, f) ∈ components c1 → (ms, f) ∈ components c2 →
  ClusterIdentity.has_quorum c1 v = true → ClusterIdentity.has_quorum c2 w = true →
  ∃ r, r ∈ v ∧ r ∈ w ∧ r ∈ ClusterIdentity.members c1 ∧ r ∈ ClusterIdentity.members c2.
Proof.
  intros Ht1 Ht2 Hw1 Hw2 Hc1 Hc2 Hq1 Hq2.
  pose proof (has_quorum_component _ _ _ _ Ht1 Hw1 Hq1 Hc1) as Hn1.
  pose proof (has_quorum_component _ _ _ _ Ht2 Hw2 Hq2 Hc2) as Hn2.
  destruct (well_formed_component _ _ _ Ht1 Hw1 Hc1) as (_&_&_&Hf&Hm1).
  destruct (well_formed_component _ _ _ Ht2 Hw2 Hc2) as (_&_&_&_&Hm2).
  destruct (selections_meet (list_to_set v) (list_to_set w) ms) as (x&?&Hv&Hw).
  { unfold counted in *. lia. }
  exists x. rewrite !elem_of_list_to_set in *. auto.
Qed.

Lemma successor_common_component next prev :
  ClusterIdentity.is_successor_of next prev = true →
  ClusterIdentity.is_well_formed next = true ∧ ClusterIdentity.is_well_formed prev = true
  ∧ ClusterIdentity.epoch next = ClusterIdentity.epoch prev + 1
  ∧ ∃ ms f, (ms, f) ∈ components next ∧ (ms, f) ∈ components prev.
Proof.
  unfold ClusterIdentity.is_successor_of, components.
  destruct (_ || _ || _) eqn:Hg; [done|].
  rewrite !orb_false_iff, !negb_false_iff, bool_decide_eq_true, U64.checked_add_Some in Hg.
  destruct Hg as [[Hw1 Hw2] [He _]]. intros Hs. split_and!; [done..|]. clear -Hs.
  destruct (ClusterIdentity.joint next) as [j|].
  - unfold ClusterIdentity.is_joint in Hs. apply andb_true_iff in Hs as [[Hj Ho]%andb_true_iff Hf].
    apply negb_true_iff, bool_decide_eq_false, eq_None_not_Some in Hj.
    apply bool_decide_eq_true in Ho. apply Z.eqb_eq in Hf. rewrite Hj, <-Ho, <-Hf.
    eexists _, _. split; left.
  - destruct (ClusterIdentity.joint prev) as [j|]; [|done].
    apply andb_true_iff in Hs as [Hm Hf]. apply bool_decide_eq_true in Hm.
    apply Z.eqb_eq in Hf. rewrite Hm, Hf. eexists _, _. split; [left|right; left].
Qed.

(** ** Constructors and the successor relation *)

Lemma stable_Ok e ms f c :
  ClusterIdentity.stable e ms f = Ok c ↔
  ∃ l, normalize_members ms = Ok l ∧ validate_fault_tolerance (len l) f = Ok tt
       ∧ c = ClusterIdentity.mk l f e None.
Proof.
  unfold ClusterIdentity.stable. split.
  - destruct (normalize_members ms) as [l|]; [|done].
    destruct (validate_fault_tolerance (len l) f) as [[]|] eqn:E; [|done]. intros [= <-]. eauto.
  - by intros (l & -> & -> & ->).
Qed.

Lemma normalize_sorted l : l ≠ [] → Sorted Z.lt l → normalize_members l = Ok l.
Proof.
  intros Hne Hs. pose proof (sorted_lt_NoDup _ Hs) as Hnd.
  destruct (normalize_members l) as [k|] eqn:E.
  - pose proof (normalize_members_sorted _ _ E) as [_ Hk].
    apply normalize_members_Ok in E as [-> _]. f_equal.
    apply sorted_lt_unique; [done..|]. intros x. apply elem_of_sort.
  - pose proof (proj2 (normalize_members_Ok l (sort l)) (conj eq_refl (conj Hne Hnd))). congruence.
Qed.

Lemma stable_well_formed e ms f c :
  ClusterIdentity.stable e ms f = Ok c → ClusterIdentity.is_well_formed c = true.
Proof.
  intros (l & Hn & Hv & ->)%stable_Ok. unfold ClusterIdentity.is_well_formed; simpl.
  rewrite (proj2 (members_are_normalized_spec l)) by (by eapply normalize_members_sorted).
  simpl. by rewrite Hv.
Qed.

Lemma begin_joint_Ok c ms f c' :
  ClusterIdentity.begin_joint c ms f = Ok c' ↔
  ∃ l e, ClusterIdentity.joint c = None ∧ normalize_members ms = Ok l
         ∧ validate_fault_tolerance (len l) f = Ok tt
         ∧ U64.checked_add (ClusterIdentity.epoch c) 1 = Some e
         ∧ c' = ClusterIdentity.mk (dedup (sort (ClusterIdentity.members c ++ l))) f e
                  (Some (JointMembership.mk (ClusterIdentity.members c)
                                            (ClusterIdentity.max_faults c) l)).
Proof.
  unfold ClusterIdentity.begin_joint, ClusterIdentity.is_joint.
  split.
  - destruct (ClusterIdentity.joint c); simpl; [done|].
    destruct (normalize_members ms) as [l|]; [|done].
    destruct (validate_fault_tolerance (len l) f) as [[]|] eqn:?; [|done].
    destruct (U64.checked_add _ 1) as [e|] eqn:?; [|done]. intros [= <-]. eauto 10.
  - by intros (l & e & -> & -> & -> & -> & ->).
Qed.

Lemma union_nonempty l k : l ≠ [] → dedup (sort (l ++ k)) ≠ [].
Proof.
  intros Hl He. destruct l as [|x l]; [done|]. apply (elem_of_nil x).
  rewrite <-He, elem_of_union_members. left. left.
Qed.

Lemma begin_joint_successor c ms f c' :
  ClusterIdentity.is_well_formed c = true → ClusterIdentity.begin_joint c ms f = Ok c' →
  ClusterIdentity.is_successor_of c' c = true.
Proof.
  intros Hwf (l & e & Hj & Hn & Hv & He & ->)%begin_joint_Ok.
  assert (Hwf' := Hwf). unfold ClusterIdentity.is_well_formed in Hwf'. rewrite Hj in Hwf'.
  destruct (members_are_normalized (ClusterIdentity.members c)) eqn:Hm; [|done]. simpl in Hwf'.
  apply is_ok_unit in Hwf'. pose proof (normalize_members_sorted _ _ Hn) as Hl.
  unfold ClusterIdentity.is_successor_of, ClusterIdentity.is_joint. rewrite Hwf, Hj.
  unfold ClusterIdentity.is_well_formed; simpl.
  rewrite (proj2 (members_are_normalized_spec (dedup _))); [simpl|].
  2:{ split; [|apply union_sorted]. apply union_nonempty. by apply members_are_normalized_spec. }
  rewrite Hm, (proj2 (members_are_normalized_spec l)) by done. simpl.
  rewrite Hwf', Hv; simpl. rewrite !bool_decide_true by done. simpl. apply Z.eqb_refl.
Qed.

Lemma finalize_joint_successor c c' :
  ClusterIdentity.is_well_formed c = true → ClusterIdentity.finalize_joint c = Ok c' →
  ClusterIdentity.is_successor_of c' c = true.
Proof.
  intros Hwf. unfold ClusterIdentity.finalize_joint.
  destruct (ClusterIdentity.joint c) as [j|] eqn:Hj; [|done].
  destruct (U64.checked_add _ 1) as [e|] eqn:He; [simpl|done]. intros Hst.
  pose proof (stable_well_formed _ _ _ _ Hst) as Hwf'.
  apply stable_Ok in Hst as (l & Hn & Hv & ->).
  unfold ClusterIdentity.is_well_formed in Hwf. rewrite Hj in Hwf.
  unfold ClusterIdentity.is_successor_of. rewrite Hwf', He, Hj.
  unfold ClusterIdentity.is_well_formed. rewrite Hj. revert Hwf.
  destruct (members_are_normalized (ClusterIdentity.members c)); [simpl|done].
  destruct (_ || _ || _ || _) eqn:Hg; [done|]. intros ->. simpl.
  rewrite bool_decide_true by done. simpl. rewrite Z.eqb_refl, andb_true_r.
  rewrite !orb_false_iff, !negb_false_iff, !members_are_normalized_spec in Hg.
  destruct Hg as [[[_ [??]] _] _]. rewrite normalize_sorted in Hn by done.
  apply bool_decide_true. congruence.
Qed.

Lemma successor_constructed next prev :
  ClusterIdentity.is_successor_of next prev = true →
  (∃ ms f, ClusterIdentity.begin_joint prev ms f = Ok next)
  ∨ ClusterIdentity.finalize_joint prev = Ok next.
Proof.
  unfold ClusterIdentity.is_successor_of. destruct (_ || _ || _) eqn:Hg; [done|].
  rewrite !orb_false_iff, !negb_false_iff, bool_decide_eq_true in Hg.
  destruct Hg as [[Hw1 Hw2] He]. unfold ClusterIdentity.is_well_formed in Hw1.
  destruct next as [m f e j]; simpl in *.
  destruct (members_are_normalized m) eqn:Hm; [simpl in Hw1|done].
  apply members_are_normalized_spec in Hm as [??]. destruct j as [j|]; intros Hs.
  - left. exists (JointMembership.new_members j), f.
    unfold ClusterIdentity.is_joint in Hs. apply andb_true_iff in Hs as [[Hj Ho]%andb_true_iff Hf].
    apply negb_true_iff, bool_decide_eq_false, eq_None_not_Some in Hj.
    apply bool_decide_eq_true in Ho. apply Z.eqb_eq in Hf.
    destruct (_ || _ || _ || _) eqn:Hg; [done|]. apply bool_decide_eq_true in Hw1.
    rewrite !orb_false_iff, !negb_false_iff, !members_are_normalized_spec, !is_err_unit_false in Hg.
    destruct Hg as [[[_ [??]] _] Hv]. apply begin_joint_Ok. eexists _, _.
    split_and!; [done | by apply normalize_sorted | done | done |].
    destruct j as [jo jf jn]; simpl in *. by rewrite <-Hw1, Ho, Hf.
  - right. destruct (ClusterIdentity.joint prev) as [j|] eqn:Hj; [|done].
    apply andb_true_iff in Hs as [Hn Hf]. apply bool_decide_eq_true in Hn. apply Z.eqb_eq in Hf.
    unfold ClusterIdentity.finalize_joint. rewrite Hj, He. simpl. apply stable_Ok.
    exists m. rewrite <-Hn, <-Hf. split_and!; [by apply normalize_sorted| |done].
    by apply is_ok_unit.
Qed.

(** ** Size of a joint quorum *)

Lemma filter_size_meet (v : gset Z) (ms : list Z) :
  NoDup ms → len (filter (λ m, m ∈ v) ms) = Z.of_nat (size (v ∩ list_to_set ms)).
Proof.
  intros Hnd. unfold len. f_equal.
  rewrite <-(size_list_to_set (C:=gset Z)) by (by apply NoDup_filter).
  f_equal. apply set_eq. intros x.
  rewrite elem_of_intersection, !elem_of_list_to_set, list_elem_of_filter. done.
Qed.

(** Voters counted in two lists, less those that can be shared, are distinct. *)
Lemma counted_union_lower (v o n : list Z) :
  NoDup o → NoDup n →
  counted v o + counted v n
    - Z.min (len (filter (λ m, m ∈ n) o)) (Z.min (counted v o) (counted v n))
  ≤ Z.of_nat (size (list_to_set v : gset Z)).
Proof.
  intros Ho Hn.
  set (vs := list_to_set v : gset Z). set (os := list_to_set o : gset Z).
  set (ns := list_to_set n : gset Z).
  assert (counted v o = Z.of_nat (size (vs ∩ os))) as -> by (by apply filter_size_meet).
  assert (counted v n = Z.of_nat (size (vs ∩ ns))) as -> by (by apply filter_size_meet).
  assert (len (filter (λ m, m ∈ n) o) = Z.of_nat (size (ns ∩ os))) as ->.
  { unfold os. rewrite <-(filter_size_meet ns o) by done. unfold len. do 2 f_equal.
    apply list_filter_iff. intros x. unfold ns. by rewrite elem_of_list_to_set. }
  pose proof (size_union_alt (vs ∩ os) (vs ∩ ns)) as Hu.
  pose proof (size_difference_alt (vs ∩ ns) (vs ∩ os)) as Hd.
  pose proof (subseteq_size ((vs ∩ os) ∪ (vs ∩ ns)) vs ltac:(set_solver)).
  pose proof (subseteq_size (vs ∩ ns ∩ (vs ∩ os)) (ns ∩ os) ltac:(set_solver)).
  pose proof (subseteq_size (vs ∩ ns ∩ (vs ∩ os)) (vs ∩ os) ltac:(set_solver)).
  pose proof (subseteq_size (vs ∩ ns ∩ (vs ∩ os)) (vs ∩ ns) ltac:(set_solver)).
  lia.
Qed.

(** ** Properties *)

(** C12: in every well-formed epoch, stable or joint, any two sets of voters
    that [has_quorum] accepts share a voter of the epoch. *)
Theorem quorum_intersection c v w :
  cluster_typed c → ClusterIdentity.is_well_formed c = true →
  ClusterIdentity.has_quorum c v = true → ClusterIdentity.has_quorum c w = true →
  ∃ r, r ∈ v ∧ r ∈ w ∧ ClusterIdentity.contains c r = true.
Proof.
  intros Hty Hwf Hv Hw. destruct (components c) as [|[ms f] cs] eqn:Hc.
  { unfold components in Hc. by destruct (ClusterIdentity.joint c). }
  assert ((ms, f) ∈ components c) as Hin by (rewrite Hc; left).
  destruct (common_component_meet c c v w ms f) as (r&?&?&?&_); [done..|].
  exists r. split_and!; [done..|]. by apply bool_decide_true.
Qed.

(** C13: quorums of consecutive epochs meet: when [next] is accepted as the
    successor of [prev], a quorum of each shares a voter, so a reconfiguration
    never moves between disjoint quorums. *)
Theorem successor_quorum_intersection next prev v w :
  cluster_typed next → cluster_typed prev →
  ClusterIdentity.is_successor_of next prev = true →
  ClusterIdentity.has_quorum prev v = true → ClusterIdentity.has_quorum next w = true →
  ∃ r, r ∈ v ∧ r ∈ w ∧ ClusterIdentity.contains prev r = true
       ∧ ClusterIdentity.contains next r = true.
Proof.
  intros Htn Htp Hs Hv Hw.
  destruct (successor_common_component _ _ Hs) as (Hwn & Hwp & _ & ms & f & Hn & Hp).
  destruct (common_component_meet prev next v w ms f) as (r&?&?&?&?); [done..|].
  exists r. split_and!; [done..| |]; by apply bool_decide_true.
Qed.

(** The successors of a well-formed epoch are exactly the epochs that
    [begin_joint] and [finalize_joint] build from it. *)
Theorem is_successor_of_iff next prev :
  ClusterIdentity.is_well_formed prev = true →
  ClusterIdentity.is_successor_of next prev = true ↔
  (∃ ms f, ClusterIdentity.begin_joint prev ms f = Ok next)
  ∨ ClusterIdentity.finalize_joint prev = Ok next.
Proof.
  intros Hwf. split; [apply successor_constructed|].
  intros [(ms & f & H)|H]; eauto using begin_joint_successor, finalize_joint_successor.
Qed.

(** [quorum_size] is a lower bound on the number of distinct voters of
    every quorum, in stable and in joint epochs. *)
Lemma quorum_size_lower_bound c v :
  cluster_typed c → ClusterIdentity.is_well_formed c = true →
  ClusterIdentity.has_quorum c v = true →
  ClusterIdentity.quorum_size c ≤ Z.of_nat (size (list_to_set v : gset Z)).
Proof.
  intros Hty Hwf Hq.
  pose proof (λ m g, has_quorum_component c v m g Hty Hwf Hq) as Hcount.
  pose proof (λ m g, well_formed_component c m g Hty Hwf) as Hcomp.
  unfold ClusterIdentity.quorum_size, components in *.
  destruct (ClusterIdentity.joint c) as [j|] eqn:Hj.
  - specialize (Hcount _ _ (list_elem_of_here _ _)) as Ho.
    specialize (Hcount _ _ (list_elem_of_further _ _ _ (list_elem_of_here _ _))) as Hn.
    destruct (Hcomp _ _ (list_elem_of_here _ _)) as ((?&?&?)&?%sorted_lt_NoDup&_&?&_).
    destruct (Hcomp _ _ (list_elem_of_further _ _ _ (list_elem_of_here _ _)))
      as ((?&?&?)&?%sorted_lt_NoDup&_&?&_).
    pose proof (counted_union_lower v (JointMembership.old_members j)
                  (JointMembership.new_members j) ltac:(done) ltac:(done)) as Hl.
    rewrite !(U64.wrapping_sub_small (len _)) by (unfold U64.fits in *; lia).
    pose proof (len_nonneg (filter (λ m, m ∈ JointMembership.new_members j)
      (JointMembership.old_members j))).
    unfold U64.wrapping_sub. etrans; [apply Z.mod_le; [unfold U64.fits in *; lia | done]|]. lia.
  - unfold ClusterIdentity.has_quorum in Hq. rewrite Hj in Hq.
    apply andb_true_iff in Hq as [Hq%Z.leb_le _]. unfold ClusterIdentity.quorum_size in Hq.
    by rewrite Hj in Hq.
Qed.

(** ** The canonical encoding is injective *)

Lemma Ok_inj {E A} (x y : A) : Ok (E:=E) x = Ok y → x = y.
Proof. congruence. Qed.

(** The reader of [to_be_bytes]: [u64::from_be_bytes]. *)
Definition from_be_bytes (bytes : list Z) : Z :=
  fold_left (λ acc b, acc * 256 + b) bytes 0.

Lemma from_to_be_bytes x : U64.fits x → from_be_bytes (to_be_bytes x) = x.
Proof.
  intros [H1 H2]. unfold from_be_bytes, to_be_bytes. cbn [map fold_left].
  change 255 with (Z.ones 8). rewrite !Z.land_ones, !Z.shiftr_div_pow2 by lia.
  change (2 ^ 8) with 256.
  assert (∀ k, 0 ≤ k → x / 2 ^ (8 * k) = 256 * (x / 2 ^ (8 * (k + 1))) + (x / 2 ^ (8 * k)) mod 256)
    as Hs.
  { intros k Hk. replace (8 * (k + 1)) with (8 * k + 8) by lia.
    rewrite Z.pow_add_r, <-Z.div_div by lia. change (2 ^ 8) with 256. apply Z.div_mod. lia. }
  assert (x / 2 ^ (8 * 8) = 0) as H8.
  { apply Z.div_small. unfold U64.MAX in H2. change (2 ^ (8 * 8)) with 18446744073709551616. lia. }
  pose proof (Hs 0). pose proof (Hs 1). pose proof (Hs 2). pose proof (Hs 3).
  pose proof (Hs 4). pose proof (Hs 5). pose proof (Hs 6). pose proof (Hs 7).
  change (2 ^ (8 * 0)) with 1 in *. rewrite Z.div_1_r in *.
  change (0 + 1) with 1 in *. change (1 + 1) with 2 in *. change (2 + 1) with 3 in *.
  change (3 + 1) with 4 in *. change (4 + 1) with 5 in *. change (5 + 1) with 6 in *.
  change (6 + 1) with 7 in *. change (7 + 1) with 8 in *. lia.
Qed.

Lemma to_be_bytes_app x y r s :
  U64.fits x → U64.fits y → to_be_bytes x ++ r = to_be_bytes y ++ s → x = y ∧ r = s.
Proof.
  intros Hx Hy He. apply app_inj_1 in He as [He ->]; [|done].
  split; [|done]. by rewrite <-(from_to_be_bytes x), <-(from_to_be_bytes y), He.
Qed.

Lemma encode_usize_Ok x bs : encode_usize x = Ok bs → bs = to_be_bytes x.
Proof. unfold encode_usize. case_match; naive_solver. Qed.

Lemma flat_map_bytes_app l k r s :
  length l = length k → Forall U64.fits l → Forall U64.fits k →
  flat_map to_be_bytes l ++ r = flat_map to_be_bytes k ++ s → l = k ∧ r = s.
Proof.
  revert k. induction l as [|x l IH]; intros [|y k] Hlen Hl Hk He; try done.
  apply Forall_cons in Hl as [??], Hk as [??]. cbn [flat_map] in He.
  rewrite <-!app_assoc in He. apply to_be_bytes_app in He as [-> He]; [|done..].
  apply IH in He as [-> ->]; [done| |done..]. simpl in Hlen. lia.
Qed.

Lemma encode_members_app l k bl bk r s :
  U64.fits (len l) → U64.fits (len k) → Forall U64.fits l → Forall U64.fits k →
  encode_members l = Ok bl → encode_members k = Ok bk → bl ++ r = bk ++ s → l = k ∧ r = s.
Proof.
  unfold encode_members. intros Hl Hk Hfl Hfk.
  destruct (encode_usize (len l)) as [cl|] eqn:El; [|done]. intros [= <-].
  destruct (encode_usize (len k)) as [ck|] eqn:Ek; [|done]. intros [= <-].
  apply encode_usize_Ok in El as ->, Ek as ->. rewrite <-!app_assoc. intros He.
  apply to_be_bytes_app in He as [Hlen He]; [|done..].
  apply flat_map_bytes_app in He; [done| |done..]. unfold len in Hlen. lia.
Qed.

Definition encode_joint (joint : option JointMembership.t) : Result (list Z) :=
  match joint with
  | Some joint =>
      let? old_faults := encode_usize (JointMembership.old_max_faults joint) in
      let? old := encode_members (JointMembership.old_members joint) in
      let? new := encode_members (JointMembership.new_members joint) in
      Ok ([1] ++ old_faults ++ old ++ new)
  | None => Ok [0]
  end.

Lemma encode_cluster_Ok c bs :
  encode_cluster c = Ok bs →
  ∃ ms jb, encode_members (ClusterIdentity.members c) = Ok ms
    ∧ encode_joint (ClusterIdentity.joint c) = Ok jb
    ∧ bs = to_be_bytes (ClusterIdentity.epoch c)
           ++ to_be_bytes (ClusterIdentity.max_faults c) ++ ms ++ jb.
Proof.
  unfold encode_cluster. fold (encode_joint (ClusterIdentity.joint c)).
  destruct (encode_usize _) as [fb|] eqn:Ef; [|done]. apply encode_usize_Ok in Ef as ->.
  destruct (encode_members _) as [ms|]; [|done].
  destruct (encode_joint _) as [jb|]; [|done]. intros [= <-]. eauto.
Qed.

Definition joint_typed (o : option JointMembership.t) : Prop :=
  match o with
  | Some j => usize_component (JointMembership.old_members j) (JointMembership.old_max_faults j)
              ∧ U64.fits (len (JointMembership.new_members j))
              ∧ Forall U64.fits (JointMembership.new_members j)
  | None => True
  end.

Lemma encode_joint_inj o1 o2 bs :
  joint_typed o1 → joint_typed o2 →
  encode_joint o1 = Ok bs → encode_joint o2 = Ok bs → o1 = o2.
Proof.
  unfold encode_joint.
  destruct o1 as [[m1 f1 n1]|], o2 as [[m2 f2 n2]|]; simpl; [|by repeat case_match; naive_solver..].
  intros ((?&?&?)&?&?) ((?&?&?)&?&?).
  destruct (encode_usize f1) as [b1|] eqn:E1; [|done]. apply encode_usize_Ok in E1 as ->.
  destruct (encode_members m1) as [bm1|] eqn:Em1; [|done].
  destruct (encode_members n1) as [bn1|] eqn:En1; [|done]. intros [= <-].
  destruct (encode_usize f2) as [b2|] eqn:E2; [|done]. apply encode_usize_Ok in E2 as ->.
  destruct (encode_members m2) as [bm2|] eqn:Em2; [|done].
  destruct (encode_members n2) as [bn2|] eqn:En2; [|done]. intros He%Ok_inj%(app_inv_head [1]).
  apply (to_be_bytes_app f2 f1) in He as [-> He]; [|done..].
  eapply (encode_members_app m2 m1) in He as [-> He]; [|done..].
  rewrite <-(app_nil_r bn1), <-(app_nil_r bn2) in He.
  eapply (encode_members_app n2 n1) in He as [-> _]; done.
Qed.

Lemma cluster_joint_typed c : cluster_typed c → joint_typed (ClusterIdentity.joint c).
Proof.
  intros (_&_&Hj). unfold joint_typed. destruct (ClusterIdentity.joint c); [|done].
  destruct Hj as [? (?&?&?)]. done.
Qed.

(** The canonical bytes of a membership command determine the cluster it
    installs: two commands with the same encoding name the same configuration,
    so a collision-free digest of the bytes binds the exact target. *)
Theorem canonical_bytes_injective c1 c2 bs :
  cluster_typed c1 → cluster_typed c2 →
  MembershipCommand.canonical_bytes (MembershipCommand.new c1) = Ok bs →
  MembershipCommand.canonical_bytes (MembershipCommand.new c2) = Ok bs →
  c1 = c2.
Proof.
  intros Ht1 Ht2. unfold MembershipCommand.canonical_bytes. cbn [MembershipCommand.next].
  destruct (encode_cluster c1) as [b1|] eqn:E1; [|done]. intros <-%Ok_inj.
  destruct (encode_cluster c2) as [b2|] eqn:E2; [|done]. intros He%Ok_inj%app_inv_head.
  apply encode_cluster_Ok in E1 as (m1 & j1 & Em1 & Ej1 & ->).
  apply encode_cluster_Ok in E2 as (m2 & j2 & Em2 & Ej2 & ->).
  pose proof (cluster_joint_typed _ Ht1). pose proof (cluster_joint_typed _ Ht2).
  destruct Ht1 as ((?&?&?)&?&_), Ht2 as ((?&?&?)&?&_), c1 as [ms1 f1 e1 o1], c2 as [ms2 f2 e2 o2].
  simpl in *. apply to_be_bytes_app in He as [-> He]; [|done..].
  apply to_be_bytes_app in He as [-> He]; [|done..].
  eapply (encode_members_app ms2 ms1) in He as [-> ->]; [|done..].
  f_equal. by eapply encode_joint_inj.
Qed.

(** ** The properties at a concrete reconfiguration *)

Definition ex_stable : ClusterIdentity.t := ClusterIdentity.mk [1; 2; 3] 1 0 None.
Definition ex_joint : ClusterIdentity.t :=
  ClusterIdentity.mk [1; 2; 3; 4] 1 1 (Some (JointMembership.mk [1; 2; 3] 1 [2; 3; 4])).

Lemma ex_stable_typed : cluster_typed ex_stable.
Proof. apply (bool_decide_unpack _). vm_compute. exact I. Qed.

Lemma ex_joint_typed : cluster_typed ex_joint.
Proof. apply (bool_decide_unpack _). vm_compute. exact I. Qed.

Lemma quorum_intersection_witness :
  ∃ r, r ∈ [1; 2; 4] ∧ r ∈ [1; 3; 4] ∧ ClusterIdentity.contains ex_joint r = true.
Proof.
  apply (quorum_intersection ex_joint [1; 2; 4] [1; 3; 4]).
  - apply ex_joint_typed.
  - reflexivity.
  - reflexivity.
  - reflexivity.
Defined.

Lemma successor_quorum_intersection_witness :
  ∃ r, r ∈ [1; 2] ∧ r ∈ [2; 3; 4] ∧ ClusterIdentity.contains ex_stable r = true
       ∧ ClusterIdentity.contains ex_joint r = true.
Proof.
  apply (successor_quorum_intersection ex_joint ex_stable [1; 2] [2; 3; 4]).
  - apply ex_joint_typed.
  - apply ex_stable_typed.
  - reflexivity.
  - reflexivity.
  - reflexivity.
Defined.

Lemma is_successor_of_iff_witness :
  ClusterIdentity.is_successor_of ex_joint ex_stable = true.
Proof.
  apply (is_successor_of_iff ex_joint ex_stable).
  - reflexivity.
  - left. exists [4; 3; 2], 1. vm_compute. reflexivity.
Defined.

Lemma canonical_bytes_injective_witness :
  ∃ bs, MembershipCommand.canonical_bytes (MembershipCommand.new ex_joint) = Ok bs
    ∧ ∀ c, cluster_typed c → MembershipCommand.canonical_bytes (MembershipCommand.new c) = Ok bs →
           ex_joint = c.
Proof.
  eexists. split; [vm_compute; reflexivity|]. intros c Hc Hbs.
  eapply (canonical_bytes_injective ex_joint c).
  - apply ex_joint_typed.
  - exact Hc.
  - vm_compute. reflexivity.
  - exact Hbs.
Defined.
