(* ===== verification/Isr.v ===== *)
(** * Interval summary registers (src/isr.rs)

  The constant-space register of one slot. Its meaning is given by the whole
  sequence of records it has served: [accepted h s] lists the proposals
  recorded while the register's clock stood at step [s], and the refinement
  theorem says that the four fields are the clock, the first and the best
  proposal of the current step, and the best proposal of the step before. *)
From S2P Require Import Prelude Errors Types.

Module IntervalSummarySnapshot.
Record t {V : Type} : Type := mk {
  step : Z;
  first : option (Proposal.t V);
  current_aggregate : option (Proposal.t V);
  prior_aggregate : option (Proposal.t V);
}.
Arguments t : clear implicits.
Arguments mk {V} _ _ _ _.

#[global] Instance eq_dec `{EqDecision V} : EqDecision (t V).
Proof. solve_decision. Defined.
End IntervalSummarySnapshot.

Module IntervalSummaryRegister.
Record t {V : Type} : Type := mk {
  step : Z;
  first : option (Proposal.t V);
  current_aggregate : option (Proposal.t V);
  prior_aggregate : option (Proposal.t V);
}.
Arguments t : clear implicits.
Arguments mk {V} _ _ _ _.

Section ops.
Context {V : Type}.

Definition default : t V := mk Step.INITIAL None None None.

Definition snapshot (self : t V) : IntervalSummarySnapshot.t V :=
  IntervalSummarySnapshot.mk (step self) (first self) (current_aggregate self)
                             (prior_aggregate self).

Definition restore (snapshot : IntervalSummarySnapshot.t V) : t V :=
  mk (IntervalSummarySnapshot.step snapshot)
     (IntervalSummarySnapshot.first snapshot)
     (IntervalSummarySnapshot.current_aggregate snapshot)
     (IntervalSummarySnapshot.prior_aggregate snapshot).

(** The state after the two branches of [record], then the summary. *)
Definition record (self : t V) (s : Z) (proposal : Proposal.t V)
    : t V * RecordSummary.t V :=
  let self' :=
    if s =? step self then
      mk (step self)
         (match first self with Some f => Some f | None => Some proposal end)
         (Some (best_proposal (current_aggregate self) proposal))
         (prior_aggregate self)
    else if step self <? s then
      mk s (Some proposal) (Some proposal)
         (if Step.is_next_after s (step self) then current_aggregate self else None)
    else self in
  (self', RecordSummary.mk (step self') (first self') (prior_aggregate self')).
End ops.
End IntervalSummaryRegister.

(** ** What a register has seen *)

Section history.
Context {V : Type}.
Implicit Types h : list (Z * Proposal.t V).
Implicit Types p : Proposal.t V.

(** The register after a sequence of records, from the default state. *)
Definition run_records h : IntervalSummaryRegister.t V :=
  fold_left (λ r sp, (IntervalSummaryRegister.record r sp.1 sp.2).1) h
            IntervalSummaryRegister.default.

(** The largest step recorded, from the initial step. *)
Definition clock h : Z := fold_left (λ c sp, Z.max c sp.1) h Step.INITIAL.

(** The proposals recorded at step [s] while no later step had been seen. *)
Fixpoint accepted_from (c : Z) h (s : Z) : list (Proposal.t V) :=
  match h with
  | [] => []
  | (s', p) :: h =>
      if s' <? c then accepted_from c h s
      else (if s' =? s then [p] else []) ++ accepted_from s' h s
  end.

Definition accepted h (s : Z) : list (Proposal.t V) := accepted_from Step.INITIAL h s.

(** The abstract register: its fields as functions of the history. *)
Definition isr_of_history h : IntervalSummaryRegister.t V :=
  IntervalSummaryRegister.mk (clock h)
    (hd_error (accepted h (clock h)))
    (max_proposal_by_key (accepted h (clock h)))
    (max_proposal_by_key (accepted h (clock h - 1))).

Lemma clock_snoc h s p : clock (h ++ [(s, p)]) = Z.max (clock h) s.
Proof. unfold clock. by rewrite fold_left_app. Qed.

Lemma clock_app h h' : clock h ≤ clock (h ++ h').
Proof.
  induction h' as [|[s p] h' IH] using rev_ind; [by rewrite app_nil_r|].
  rewrite app_assoc, clock_snoc. lia.
Qed.

Lemma clock_bound h s p : (s, p) ∈ h → s ≤ clock h.
Proof.
  induction h as [|[s' p'] h IH] using rev_ind; [by intros ?%elem_of_nil|]. rewrite clock_snoc.
  intros [Hin%IH|[= -> ->]%list_elem_of_singleton]%elem_of_app; lia.
Qed.

Lemma clock_nonneg h : 0 ≤ clock h.
Proof.
  induction h as [|[s p] h IH] using rev_ind; [done|]. rewrite clock_snoc. lia.
Qed.

Lemma accepted_from_snoc c h s' p s :
  accepted_from c (h ++ [(s', p)]) s =
  accepted_from c h s
    ++ (if (s' =? s) && (fold_left (λ c sp, Z.max c sp.1) h c <=? s') then [p] else []).
Proof.
  revert c. induction h as [|[s0 p0] h IH]; intros c; simpl.
  - destruct (Z.ltb_spec s' c), (Z.leb_spec c s'); try lia.
    + by rewrite andb_false_r.
    + rewrite andb_true_r, app_nil_r. done.
  - destruct (Z.ltb_spec s0 c).
    + rewrite IH. by rewrite Z.max_l by lia.
    + rewrite IH, app_assoc. by rewrite Z.max_r by lia.
Qed.

Lemma accepted_snoc h s' p s :
  accepted (h ++ [(s', p)]) s =
  accepted h s ++ (if (s' =? s) && (clock h <=? s') then [p] else []).
Proof. apply accepted_from_snoc. Qed.

Lemma accepted_beyond h s : clock h < s → accepted h s = [].
Proof.
  induction h as [|[s' p] h IH] using rev_ind; [done|]. rewrite clock_snoc, accepted_snoc.
  intros Hs. rewrite IH by lia. destruct (Z.eqb_spec s' s); [lia|done].
Qed.

Lemma accepted_recorded h s p : p ∈ accepted h s → (s, p) ∈ h.
Proof.
  induction h as [|[s' q] h IH] using rev_ind; [by intros ?%elem_of_nil|].
  rewrite accepted_snoc. intros [Hp|Hp]%elem_of_app; apply elem_of_app; [left; auto|].
  destruct (Z.eqb_spec s' s) as [->|]; simpl in Hp; [|by apply elem_of_nil in Hp].
  case_match; [|by apply elem_of_nil in Hp].
  apply list_elem_of_singleton in Hp as ->. right. left.
Qed.

Lemma accepted_prefix h h' s : accepted h s `prefix_of` accepted (h ++ h') s.
Proof.
  induction h' as [|[s' p] h' IH] using rev_ind; [by rewrite app_nil_r|].
  rewrite app_assoc, accepted_snoc. by apply prefix_app_r.
Qed.

(** Once the clock has passed a step, that step's proposals are final. *)
Lemma accepted_frozen h h' s : s < clock h → accepted (h ++ h') s = accepted h s.
Proof.
  intros Hs. induction h' as [|[s' p] h' IH] using rev_ind; [by rewrite app_nil_r|].
  rewrite app_assoc, accepted_snoc, IH.
  pose proof (clock_app h h') as Hle.
  destruct (Z.eqb_spec s' s), (Z.leb_spec (clock (h ++ h')) s'); try lia; simpl; apply app_nil_r.
Qed.

Lemma is_next_after_spec s c :
  0 ≤ c → U64.fits s → Step.is_next_after s c = (s =? c + 1).
Proof.
  intros Hc [_ Hs]. unfold Step.is_next_after.
  destruct (Z.eqb_spec s (c + 1)) as [->|Hne].
  - apply bool_decide_true. by apply U64.checked_add_Some.
  - apply bool_decide_false. intros [??]%U64.checked_add_Some. lia.
Qed.

(** One record moves the abstract register as it moves the history. *)
Lemma record_isr_of_history h s p :
  U64.fits s →
  (IntervalSummaryRegister.record (isr_of_history h) s p).1 = isr_of_history (h ++ [(s, p)]).
Proof.
  intros Hs. pose proof (clock_nonneg h) as Hc.
  unfold IntervalSummaryRegister.record, isr_of_history; simpl.
  rewrite clock_snoc. destruct (Z.eqb_spec s (clock h)) as [->|Hne].
  - rewrite Z.max_id, !accepted_snoc, Z.eqb_refl, Z.leb_refl. simpl.
    rewrite max_proposal_snoc. destruct (Z.eqb_spec (clock h) (clock h - 1)); [lia|].
    rewrite app_nil_r. by destruct (accepted h (clock h)).
  - destruct (Z.ltb_spec (clock h) s).
    + rewrite Z.max_r, !accepted_snoc, Z.eqb_refl by lia.
      rewrite (accepted_beyond h s) by lia.
      destruct (Z.leb_spec (clock h) s); [|lia]. simpl. f_equal.
      rewrite is_next_after_spec by done. destruct (Z.eqb_spec s (s - 1)); [lia|].
      rewrite app_nil_r. destruct (Z.eqb_spec s (clock h + 1)) as [->|].
      * by replace (clock h + 1 - 1) with (clock h) by lia.
      * by rewrite accepted_beyond by lia.
    + rewrite Z.max_l, !accepted_snoc by lia.
      destruct (Z.leb_spec (clock h) s); [lia|]. by rewrite !andb_false_r, !app_nil_r.
Qed.

(** The summary of a record, in terms of the history it extends. *)
Lemma record_summary_of_history h s p :
  U64.fits s →
  let h' := h ++ [(s, p)] in
  (IntervalSummaryRegister.record (isr_of_history h) s p).2
  = RecordSummary.mk (clock h') (hd_error (accepted h' (clock h')))
      (max_proposal_by_key (accepted h' (clock h' - 1))).
Proof.
  intros Hs h'. pose proof (record_isr_of_history h s p Hs) as Hr.
  unfold IntervalSummaryRegister.record in *. simpl in *. by rewrite Hr.
Qed.

(** A record that moves or meets the clock is accepted. *)
Lemma accepted_fresh h s p : clock h ≤ s → p ∈ accepted (h ++ [(s, p)]) s.
Proof.
  intros Hs. rewrite accepted_snoc, Z.eqb_refl, (proj2 (Z.leb_le _ _)) by done.
  apply elem_of_app. right. left.
Qed.

(** The step the clock shows has an accepted proposal. *)
Lemma accepted_clock h :
  h ≠ [] → Forall (λ sp, 0 ≤ sp.1) h → accepted h (clock h) ≠ [].
Proof.
  induction h as [|[s p] h IH] using rev_ind; [done|]. intros _ [Hh [Hs _]%Forall_cons]%Forall_app.
  simpl in Hs. rewrite clock_snoc. destruct (Z.le_gt_cases (clock h) s) as [Hle|Hgt].
  - rewrite Z.max_r by done. intros Hn. pose proof (accepted_fresh h s p Hle) as Hin.
    rewrite Hn in Hin. by apply elem_of_nil in Hin.
  - rewrite Z.max_l by lia. rewrite accepted_snoc. intros [Hn _]%app_eq_nil.
    apply IH; try done. intros ->. change (clock []) with 0 in Hgt. lia.
Qed.

Definition steps_fit h : Prop := Forall (λ sp, U64.fits sp.1) h.

Lemma run_records_history h : steps_fit h → run_records h = isr_of_history h.
Proof.
  induction h as [|[s p] h IH] using rev_ind; [done|].
  intros [Hh [Hs _]%Forall_cons]%Forall_app. unfold run_records in *.
  rewrite fold_left_app, IH by done. by apply record_isr_of_history.
Qed.

(** C14: the register refines its history: after any sequence of records its
    fields are the clock, the first proposal accepted at the clock, the best
    one, and the best one of the preceding step (absent when it was skipped). *)
Theorem isr_refines_history h : steps_fit h → run_records h = isr_of_history h.
Proof. apply run_records_history. Qed.

(** What a proposer learns from a reply: after any history, the reply to
    [record s p] carries the later of the two clocks; it reports [p] as
    accepted exactly when the register has not moved past [s]; [first] is the
    first proposal of the reported step and [prior_aggregate] the best of the
    step before. *)
Theorem isr_reply_meaning h s p :
  steps_fit h → U64.fits s →
  let h' := h ++ [(s, p)] in
  let reply := (IntervalSummaryRegister.record (run_records h) s p).2 in
  RecordSummary.step reply = Z.max (clock h) s
  ∧ RecordSummary.first reply = hd_error (accepted h' (RecordSummary.step reply))
  ∧ RecordSummary.prior_aggregate reply
    = max_proposal_by_key (accepted h' (RecordSummary.step reply - 1))
  ∧ (RecordSummary.step reply = s → p ∈ accepted h' s).
Proof.
  intros Hh Hs h' reply. subst reply.
  rewrite run_records_history, record_summary_of_history by done. simpl. fold h'.
  unfold h' at 1. rewrite clock_snoc. split_and!; [done..|]. unfold h'. rewrite clock_snoc.
  intros Hle. apply accepted_fresh. lia.
Qed.
End history.

(** A record for a step the register has passed changes nothing and
    reports the current step. *)
Lemma isr_stale_record {V} (r : IntervalSummaryRegister.t V) s p :
  s < IntervalSummaryRegister.step r →
  IntervalSummaryRegister.record r s p =
  (r, RecordSummary.mk (IntervalSummaryRegister.step r) (IntervalSummaryRegister.first r)
                       (IntervalSummaryRegister.prior_aggregate r)).
Proof.
  intros Hs. unfold IntervalSummaryRegister.record.
  destruct (Z.eqb_spec s (IntervalSummaryRegister.step r)); [lia|].
  destruct (Z.ltb_spec (IntervalSummaryRegister.step r) s); [lia|]. done.
Qed.

(** ** The properties at a concrete history: two proposals at step 4, a step
    skipped, then a late one *)

Definition ex_proposal (priority proposer : Z) : Proposal.t Z :=
  Proposal.mk (ProposalKey.new priority proposer 0) [10 * proposer].

Definition ex_history : list (Z * Proposal.t Z) :=
  [(4, ex_proposal 7 1); (4, ex_proposal 9 2); (5, ex_proposal 3 3)].

Lemma ex_history_fits : steps_fit ex_history.
Proof. unfold steps_fit, U64.fits. repeat constructor; simpl; unfold U64.MAX; lia. Qed.

Lemma isr_refines_history_witness :
  run_records ex_history
  = IntervalSummaryRegister.mk 5 (Some (ex_proposal 3 3)) (Some (ex_proposal 3 3))
                               (Some (ex_proposal 9 2)).
Proof. rewrite (isr_refines_history ex_history ex_history_fits). vm_compute. reflexivity. Defined.

Lemma isr_reply_meaning_witness :
  RecordSummary.step (IntervalSummaryRegister.record (run_records ex_history) 6 (ex_proposal 1 1)).2
  = 6
  ∧ RecordSummary.prior_aggregate
      (IntervalSummaryRegister.record (run_records ex_history) 6 (ex_proposal 1 1)).2
    = Some (ex_proposal 3 3).
Proof.
  destruct (isr_reply_meaning ex_history 6 (ex_proposal 1 1)) as (Hstep & _ & Hprior & _).
  - apply ex_history_fits.
  - unfold U64.fits, U64.MAX. lia.
  - split; [exact Hstep|]. rewrite Hprior. vm_compute. reflexivity.
Defined.
