(* ===== verification/Store.v ===== *)
(** * Value availability (src/store.rs)

  A recorder acknowledges a proposal only after its availability guard has
  accepted the value IDs. [FetchingAvailability] is the production guard: it
  fetches what its store misses, checks the answer and inserts it. The store
  behind it is any [ValueStore], the interface its theorems rely on, which
  [InMemoryValueStore] implements. *)
From S2P Require Import Prelude Errors.

(** ** The [ValueStore] interface: its operations and what they promise *)

Class ValueStore (V B S : Type) : Type := {
  vs_contains : S → V → bool;
  vs_get : S → V → option B;
  vs_insert : S → V → B → S;
}.

Class ValueStoreLaws (V B S : Type) `{!ValueStore V B S} : Prop := {
  vs_contains_get : ∀ s v, vs_contains (B:=B) s v = bool_decide (is_Some (vs_get (B:=B) s v));
  vs_insert_self : ∀ s v b, vs_contains (B:=B) (vs_insert s v b) v = true;
  vs_insert_other : ∀ s v b w, v ≠ w → vs_get (B:=B) (vs_insert s v b) w = vs_get s w;
  vs_insert_present : ∀ s v b c, vs_get s v = Some c → vs_get (vs_insert s v b) v = Some c;
}.

(** ** The permissive guard *)

Definition allow_all_ensure_available {V} (value_ids : list V) : Result unit := Ok tt.

(** ** The in-memory store *)

Module InMemoryValueStore.
Section ops.
Context {V B : Type} `{Countable V}.

Record t : Type := mk { values : gmap V B }.

Definition new : t := mk ∅.
Definition len (self : t) : Z := Z.of_nat (size (values self)).
Definition is_empty (self : t) : bool := bool_decide (values self = ∅).
Definition contains (self : t) (value_id : V) : bool :=
  bool_decide (is_Some (values self !! value_id)).
Definition get (self : t) (value_id : V) : option B := values self !! value_id.

(** [entry(value_id).or_insert(batch)]. *)
Definition insert (self : t) (value_id : V) (batch : B) : t :=
  match values self !! value_id with
  | Some _ => self
  | None => mk (<[value_id := batch]> (values self))
  end.
End ops.
Arguments t V B {_ _}.
End InMemoryValueStore.

#[global] Instance in_memory_value_store `{Countable V} {B}
    : ValueStore V B (InMemoryValueStore.t V B) := {|
  vs_contains := InMemoryValueStore.contains;
  vs_get := InMemoryValueStore.get;
  vs_insert := InMemoryValueStore.insert;
|}.

#[global] Instance in_memory_value_store_laws `{Countable V} {B}
    : ValueStoreLaws V B (InMemoryValueStore.t V B).
Proof.
  split; simpl; unfold InMemoryValueStore.contains, InMemoryValueStore.get,
    InMemoryValueStore.insert.
  - done.
  - intros s v b. apply bool_decide_true.
    destruct (InMemoryValueStore.values s !! v) eqn:E; simpl; [by rewrite E|].
    by rewrite lookup_insert_eq.
  - intros s v b w Hne. case_match; simpl; [done|]. by rewrite lookup_insert_ne.
  - intros s v b c Hc. by rewrite Hc.
Qed.

(** ** The fetching guard *)

Module FetchingAvailability.
Section ops.
(** [V: Ord] is a decidable total order, [F] the fetcher's state and
    [fetch_values] its only method. *)
Context {V B S F : Type} `{EqDecision V} (ord : relation V) `{!RelDecision ord}.
Context `{!ValueStore V B S} (fetch_values : F → list V → F * Result (list (V * B))).

(** The two mutexes, each with the flag a panicking holder leaves behind. *)
Record t : Type := mk {
  store : S;
  store_poisoned : bool;
  fetcher : F;
  fetcher_poisoned : bool;
}.

(** Collecting into a [BTreeSet] and back: sorted, without duplicates. *)
Definition btree_set (l : list V) : list V := merge_sort ord (remove_dups l).

Definition unexpected : QuePaxaError.t :=
  QuePaxaError.InvalidProposal "value fetcher returned an unexpected or duplicate value ID".

(** The loop over the fetched pairs. What was inserted before an unexpected
    or repeated ID stays inserted. *)
Fixpoint insert_fetched (requested : list V) (returned : list V)
    (fetched : list (V * B)) (store : S) : S * Result unit :=
  match fetched with
  | [] => (store, Ok tt)
  | (value_id, batch) :: fetched =>
      if negb (bool_decide (value_id ∈ requested)) || bool_decide (value_id ∈ returned)
      then (store, Err unexpected)
      else insert_fetched requested (value_id :: returned) fetched
                          (vs_insert store value_id batch)
  end.

Definition ensure_available (value_ids : list V) : M t QuePaxaError.t unit := λ self,
  if store_poisoned self
  then (self, Err (QuePaxaError.TransportError "value store lock was poisoned"))
  else
  let missing :=
    btree_set (filter (λ v, vs_contains (B:=B) (store self) v = false) value_ids) in
  if is_empty missing then (self, Ok tt)
  else if fetcher_poisoned self
  then (self, Err (QuePaxaError.TransportError "value fetcher lock was poisoned"))
  else
  let '(fetcher', fetched) := fetch_values (fetcher self) missing in
  match fetched with
  | Err e => (mk (store self) false fetcher' false, Err e)
  | Ok fetched =>
      let '(store', inserted) := insert_fetched missing [] fetched (store self) in
      (mk store' false fetcher' false,
       let? _ := inserted in
       if forallb (vs_contains (B:=B) store') missing then Ok tt
       else Err QuePaxaError.MissingValue)
  end.
End ops.
Arguments t S F : clear implicits.
End FetchingAvailability.

Section fetching.
Context {V B S F : Type} `{EqDecision V} (ord : relation V) `{!RelDecision ord}.
Context `{!ValueStore V B S, !ValueStoreLaws V B S}.
Context (fetch_values : F → list V → F * Result (list (V * B))).
Import FetchingAvailability.

Lemma elem_of_btree_set (l : list V) v : v ∈ btree_set ord l ↔ v ∈ l.
Proof. unfold btree_set. by rewrite merge_sort_Permutation, elem_of_remove_dups. Qed.

Lemma contains_insert_mono (s : S) (v w : V) (b : B) :
  vs_contains (B:=B) s w = true → vs_contains (B:=B) (vs_insert s v b) w = true.
Proof.
  destruct (decide (v = w)) as [->|Hne]; [intros; apply vs_insert_self|].
  rewrite !vs_contains_get. by rewrite vs_insert_other.
Qed.

Lemma get_insert_stable (s : S) (v w : V) (b c : B) :
  vs_get s w = Some c → vs_get (vs_insert s v b) w = Some c.
Proof.
  destruct (decide (v = w)) as [->|Hne]; [apply vs_insert_present|].
  by rewrite vs_insert_other.
Qed.

Lemma insert_fetched_spec requested returned (fetched : list (V * B)) s :
  let s' := (insert_fetched requested returned fetched s).1 in
  (∀ v c, vs_get s v = Some c → vs_get s' v = Some c)
  ∧ (∀ v, vs_get (B:=B) s v = None → is_Some (vs_get (B:=B) s' v) → v ∈ requested).
Proof.
  revert returned s. induction fetched as [|[v b] fetched IH]; intros returned s; simpl.
  { split; [done|]. intros v ->. by intros [? [=]]. }
  destruct (_ || _) eqn:Hg; simpl.
  { split; [done|]. intros w ->. by intros [? [=]]. }
  apply orb_false_iff in Hg as [Hv%negb_false_iff%bool_decide_eq_true _].
  destruct (IH (v :: returned) (vs_insert s v b)) as [IH1 IH2]. split.
  - intros w c Hc. by apply IH1, get_insert_stable.
  - intros w Hw Hs. destruct (decide (v = w)) as [->|Hne]; [done|].
    apply IH2; [|done]. by rewrite vs_insert_other.
Qed.

(** When [ensure_available] answers [Ok], every ID of the proposal is in
    the store it leaves behind, whatever the fetcher answered. *)
Theorem ensure_available_sound (self : t S F) value_ids self' :
  ensure_available ord fetch_values value_ids self = (self', Ok tt) →
  ∀ v, v ∈ value_ids → vs_contains (B:=B) (store self') v = true.
Proof.
  unfold ensure_available. destruct (store_poisoned self); [done|].
  set (missing := btree_set ord _).
  assert (∀ v, v ∈ value_ids → vs_contains (B:=B) (store self) v = true ∨ v ∈ missing) as Hm.
  { intros v Hv. destruct (vs_contains (store self) v) eqn:E; [by left|right].
    apply elem_of_btree_set, list_elem_of_filter. done. }
  destruct (is_empty missing) eqn:He.
  { apply is_empty_spec in He. intros [= <-] v Hv. destruct (Hm v Hv) as [|Hin]; [done|].
    rewrite He in Hin. by apply elem_of_nil in Hin. }
  destruct (fetcher_poisoned self); [done|].
  destruct (fetch_values _ missing) as [f' [fetched|e]]; [|done].
  pose proof (insert_fetched_spec missing [] fetched (store self)) as [Hkeep _].
  destruct (insert_fetched missing [] fetched (store self)) as [s' [[]|]]; [|done].
  destruct (forallb _ missing) eqn:Hall; [|done]. intros [= <-] v Hv. simpl in *.
  destruct (Hm v Hv) as [Hc|Hin].
  - revert Hc. rewrite !vs_contains_get, !bool_decide_eq_true.
    intros [c Hc]. exists c. by apply Hkeep.
  - rewrite forallb_forall in Hall. by apply Hall, list_elem_of_In.
Qed.

(** On every path, errors included, [ensure_available] keeps each stored
    payload and inserts only IDs the proposal asked for. *)
Theorem ensure_available_inserts_only_requested (self : t S F) value_ids :
  let self' := (ensure_available ord fetch_values value_ids self).1 in
  (∀ v c, vs_get (store self) v = Some c → vs_get (store self') v = Some c)
  ∧ (∀ v, vs_get (B:=B) (store self) v = None → is_Some (vs_get (B:=B) (store self') v) →
          v ∈ value_ids).
Proof.
  assert (∀ s : S, (∀ v (c : B), vs_get s v = Some c → vs_get s v = Some c)
    ∧ ∀ v, vs_get (B:=B) s v = None → is_Some (vs_get (B:=B) s v) → v ∈ value_ids) as Hsame.
  { intros s. split; [done|]. intros v ->. by intros [? [=]]. }
  unfold ensure_available. destruct (store_poisoned self); [apply Hsame|].
  destruct (is_empty _); [apply Hsame|]. destruct (fetcher_poisoned self); [apply Hsame|].
  set (missing := btree_set ord _).
  destruct (fetch_values _ missing) as [f' [fetched|e]]; [|apply Hsame].
  pose proof (insert_fetched_spec missing [] fetched (store self)) as [Hk Hn].
  destruct (insert_fetched missing [] fetched (store self)) as [s' r]. simpl in *.
  split; [done|]. intros v H1 H2. specialize (Hn v H1 H2).
  by apply elem_of_btree_set, list_elem_of_filter in Hn as [_ ?].
Qed.
End fetching.

(** ** The guard on a concrete store, with a fetcher that answers a fixed list *)

Definition ex_fetch (answer : list (Z * Z)) (missing : list Z)
    : list (Z * Z) * Result (list (Z * Z)) := (answer, Ok answer).

Definition ex_store : FetchingAvailability.t (InMemoryValueStore.t Z Z) (list (Z * Z)) :=
  FetchingAvailability.mk (InMemoryValueStore.mk {[1 := 100]}) false [(3, 300); (2, 200)] false.

Lemma ensure_available_sound_witness :
  let r := FetchingAvailability.ensure_available Z.le ex_fetch [3; 1; 2; 3] ex_store in
  r.2 = Ok tt ∧ vs_contains (B:=Z) (FetchingAvailability.store r.1) 3 = true.
Proof.
  split; [vm_compute; reflexivity|].
  apply (ensure_available_sound (B:=Z) Z.le ex_fetch ex_store [3; 1; 2; 3]).
  - vm_compute. reflexivity.
  - left.
Defined.

(** A fetcher that answers an ID nobody asked for: the guard fails, and what
    it had inserted before stays. *)
Definition ex_rogue : FetchingAvailability.t (InMemoryValueStore.t Z Z) (list (Z * Z)) :=
  FetchingAvailability.mk (InMemoryValueStore.mk {[1 := 100]}) false [(2, 200); (9, 900)] false.

Lemma ensure_available_inserts_only_requested_witness :
  let r := FetchingAvailability.ensure_available Z.le ex_fetch [3; 1; 2] ex_rogue in
  r.2 = Err FetchingAvailability.unexpected
  ∧ vs_get (B:=Z) (FetchingAvailability.store r.1) 2 = Some 200
  ∧ vs_get (B:=Z) (FetchingAvailability.store r.1) 1 = Some 100.
Proof.
  split; [vm_compute; reflexivity|]. split; [vm_compute; reflexivity|].
  apply (ensure_available_inserts_only_requested (B:=Z) Z.le ex_fetch ex_rogue [3; 1; 2]).
  vm_compute. reflexivity.
Defined.
