(* ===== verification/Recorder.v ===== *)
(** * The recorder (src/recorder.rs)

  [RecorderCore] keeps, per slot, an interval summary register, the round-one
  leader the slot is bound to and the retained decision, above a pruned
  floor. Methods that take [&mut self] are state-and-error computations: an
  error leaves behind whatever the method had already changed. The
  availability guard is an argument of [record], so a proof covers any guard
  and any answer it gives. *)
From S2P Require Import Prelude Errors Types Membership Isr.

Module RecorderLimits.
Record t : Type := mk {
  max_active_slots : Z;
  max_decisions : Z;
  max_values_per_proposal : Z;
  max_known_decisions : Z;
  max_step : Z;
}.

Definition default : t := mk 4096 4096 1024 256 1027.
End RecorderLimits.

Module RecorderConfig.
Record t : Type := mk {
  id : ReplicaId;
  cluster : ClusterIdentity.t;
  limits : RecorderLimits.t;
}.

Definition from_cluster (id : ReplicaId) (cluster : ClusterIdentity.t) : Result t :=
  reject negb (ClusterIdentity.contains cluster id) with QuePaxaError.UnknownReplica id ;;
  Ok (mk id cluster RecorderLimits.default).

Definition new (id : ReplicaId) (members : list ReplicaId) (max_faults : Z) : Result t :=
  let? cluster := ClusterIdentity.new members max_faults in
  reject negb (ClusterIdentity.contains cluster id) with QuePaxaError.UnknownReplica id ;;
  Ok (mk id cluster RecorderLimits.default).

Definition with_limits (self : t) (limits : RecorderLimits.t) : Result t :=
  reject (RecorderLimits.max_active_slots limits =? 0)
         || (RecorderLimits.max_decisions limits =? 0)
         || (RecorderLimits.max_values_per_proposal limits =? 0)
         || (RecorderLimits.max_known_decisions limits =? 0)
         || (RecorderLimits.max_step limits <? Step.ROUND_ONE_PHASE_ZERO)
    with QuePaxaError.InvalidProposal
           "recorder limits must be non-zero and include the initial protocol step" ;;
  Ok (mk (id self) (cluster self) limits).

Definition contains (self : t) (replica : ReplicaId) : bool :=
  ClusterIdentity.contains (cluster self) replica.

Definition install_cluster (self : t) (cluster : ClusterIdentity.t) : t :=
  mk (id self) cluster (limits self).
End RecorderConfig.

Module RecorderSnapshot.
Record t {V : Type} : Type := mk {
  cluster : ClusterIdentity.t;
  slots : gmap Z (IntervalSummarySnapshot.t V);
  round_one_leaders : gmap Z (option ReplicaId);
  decisions : gmap Z (Decision.t V);
  pruned_through : SlotIndex;
}.
Arguments t : clear implicits.
Arguments mk {V} _ _ _ _ _.
End RecorderSnapshot.

Module RecorderCore.
Record t {V : Type} : Type := mk {
  config : RecorderConfig.t;
  slots : gmap Z (IntervalSummaryRegister.t V);
  round_one_leaders : gmap Z (option ReplicaId);
  decisions : gmap Z (Decision.t V);
  pruned_through : SlotIndex;
}.
Arguments t : clear implicits.
Arguments mk {V} _ _ _ _ _.

Section ops.
Context {V : Type} `{EqDecision V}.

(** Field updates. *)
Definition set_slots (self : t V) slots : t V :=
  mk (config self) slots (round_one_leaders self) (decisions self) (pruned_through self).
Definition set_leaders (self : t V) leaders : t V :=
  mk (config self) (slots self) leaders (decisions self) (pruned_through self).
Definition set_decisions (self : t V) decisions : t V :=
  mk (config self) (slots self) (round_one_leaders self) decisions (pruned_through self).

Definition limits (self : t V) : RecorderLimits.t := RecorderConfig.limits (config self).
Definition cluster (self : t V) : ClusterIdentity.t := RecorderConfig.cluster (config self).
Definition id (self : t V) : ReplicaId := RecorderConfig.id (config self).

Definition new (config : RecorderConfig.t) : t V := mk config ∅ ∅ ∅ SlotIdx.GENESIS.

Definition snapshot (self : t V) : RecorderSnapshot.t V :=
  RecorderSnapshot.mk (cluster self) (IntervalSummaryRegister.snapshot <$> slots self)
                      (round_one_leaders self) (decisions self) (pruned_through self).

Definition restore_snapshot_state (self : t V) (snapshot : RecorderSnapshot.t V) : t V :=
  mk (config self)
     (IntervalSummaryRegister.restore <$> RecorderSnapshot.slots snapshot)
     (RecorderSnapshot.round_one_leaders snapshot)
     (RecorderSnapshot.decisions snapshot)
     (RecorderSnapshot.pruned_through snapshot).

Definition prune_through (self : t V) (slot : SlotIndex) : t V :=
  mk (config self)
     (retain (λ index, slot <? index) (slots self))
     (retain (λ index, slot <? index) (round_one_leaders self))
     (retain (λ index, slot <? index) (decisions self))
     (Z.max (pruned_through self) slot).

Definition install_state_transfer_floor (self : t V) (slot : SlotIndex) : t V :=
  prune_through self slot.

Definition status (self : t V) (slot : SlotIndex) : option Z :=
  IntervalSummaryRegister.step <$> slots self !! slot.

Definition validate_decision (self : t V) (decision : Decision.t V) : Result unit :=
  reject is_empty (Decision.value_ids decision) with QuePaxaError.EmptyDecision ;;
  reject negb (RecorderConfig.contains (config self) (Decision.proposer decision))
    with QuePaxaError.InvalidSender (Decision.proposer decision) ;;
  reject RecorderLimits.max_step (limits self) <? Decision.decided_step decision
    with QuePaxaError.InvalidStep (Decision.decided_step decision)
                                  (RecorderLimits.max_step (limits self)) ;;
  reject RecorderLimits.max_values_per_proposal (limits self) <? len (Decision.value_ids decision)
    with QuePaxaError.ResourceLimit "decision value IDs"
           (RecorderLimits.max_values_per_proposal (limits self)) ;;
  reject has_duplicate (Decision.value_ids decision)
    with QuePaxaError.InvalidProposal "decision contains duplicate value IDs" ;;
  Ok tt.

Definition validate_proposal (self : t V) (proposal : Proposal.t V) : Result unit :=
  let proposer_id := ProposalKey.proposer_id (Proposal.key proposal) in
  reject negb (RecorderConfig.contains (config self) proposer_id)
    with QuePaxaError.InvalidSender proposer_id ;;
  reject is_empty (Proposal.value_ids proposal) with QuePaxaError.EmptyProposal ;;
  reject RecorderLimits.max_values_per_proposal (limits self) <? len (Proposal.value_ids proposal)
    with QuePaxaError.ResourceLimit "proposal value IDs"
           (RecorderLimits.max_values_per_proposal (limits self)) ;;
  reject has_duplicate (Proposal.value_ids proposal)
    with QuePaxaError.InvalidProposal "proposal contains duplicate value IDs" ;;
  Ok tt.

Definition validate_isr_snapshot (self : t V) (state : IntervalSummarySnapshot.t V)
    : Result unit :=
  let step := IntervalSummarySnapshot.step state in
  reject (step <? Step.ROUND_ONE_PHASE_ZERO) || (RecorderLimits.max_step (limits self) <? step)
    with QuePaxaError.InvalidStep step (RecorderLimits.max_step (limits self)) ;;
  reject bool_decide (IntervalSummarySnapshot.first state = None)
         || bool_decide (IntervalSummarySnapshot.current_aggregate state = None)
    with QuePaxaError.MissingProposal ;;
  try_each (validate_proposal self)
    (omap (λ o, o) [IntervalSummarySnapshot.first state;
                    IntervalSummarySnapshot.current_aggregate state;
                    IntervalSummarySnapshot.prior_aggregate state]).

Definition restore (config : RecorderConfig.t) (snapshot : RecorderSnapshot.t V)
    : Result (t V) :=
  let limits := RecorderConfig.limits config in
  reject negb (bool_decide (RecorderSnapshot.cluster snapshot = RecorderConfig.cluster config))
    with QuePaxaError.ConfigurationMismatch ;;
  reject RecorderLimits.max_active_slots limits <? count (RecorderSnapshot.slots snapshot)
    with QuePaxaError.ResourceLimit "active recorder slots"
           (RecorderLimits.max_active_slots limits) ;;
  reject RecorderLimits.max_decisions limits <? count (RecorderSnapshot.decisions snapshot)
    with QuePaxaError.ResourceLimit "retained decisions"
           (RecorderLimits.max_decisions limits) ;;
  let recorder := new config in
  let? _ :=
    try_each (λ '(slot, decision),
      reject negb (slot =? Decision.slot decision)
             || (slot <=? RecorderSnapshot.pruned_through snapshot)
        with QuePaxaError.InvalidProposal
          "recorder snapshot decision key does not match its slot or pruned floor" ;;
      validate_decision recorder decision) (entries (RecorderSnapshot.decisions snapshot)) in
  reject existsb (λ slot, slot <=? RecorderSnapshot.pruned_through snapshot)
                 (keys (RecorderSnapshot.slots snapshot))
    with QuePaxaError.InvalidProposal
      "recorder snapshot retains a slot at or below its pruned floor" ;;
  reject negb (bool_decide (keys (RecorderSnapshot.round_one_leaders snapshot)
                            = keys (RecorderSnapshot.slots snapshot)))
    with QuePaxaError.InvalidProposal
      "recorder snapshot leader bindings do not match its active slots" ;;
  reject existsb (λ leader, negb (RecorderConfig.contains config leader))
                 (omap (λ o, o) (values (RecorderSnapshot.round_one_leaders snapshot)))
    with QuePaxaError.InvalidProposal
      "recorder snapshot binds a slot to an unknown leader" ;;
  let? _ := try_each (validate_isr_snapshot recorder)
                     (values (RecorderSnapshot.slots snapshot)) in
  Ok (restore_snapshot_state recorder snapshot).

Definition inform_decision (decision : Decision.t V) : M (t V) QuePaxaError.t unit :=
  let* _ := readr (λ self, validate_decision self decision) in
  let* self := reads (λ self, self) in
  let slot := Decision.slot decision in
  if slot <=? pruned_through self then ret tt
  else match decisions self !! slot with
  | Some existing =>
      reject* negb (bool_decide (Decision.value_ids existing = Decision.value_ids decision))
        with QuePaxaError.ConflictingDecision slot ;;
      ret tt
  | None =>
      reject* count (decisions self) =? RecorderLimits.max_decisions (limits self)
        with QuePaxaError.ResourceLimit "retained decisions"
               (RecorderLimits.max_decisions (limits self)) ;;
      modify (λ self, set_decisions self (<[slot := decision]> (decisions self)))
  end.

Definition install_membership (change : MembershipChange.t V) : M (t V) QuePaxaError.t unit :=
  let* _ := lift (MembershipChange.validate_binding change) in
  let* self := reads (λ self, self) in
  let next := MembershipChange.next change in
  let anchor := MembershipChange.anchor change in
  if bool_decide (cluster self = next) then ret tt
  else
  reject* negb (ClusterIdentity.is_successor_of next (cluster self))
    with QuePaxaError.InvalidReconfiguration
      "membership transition does not follow the local configuration epoch" ;;
  match decisions self !! Decision.slot anchor with
  | None =>
      throw (QuePaxaError.InvalidReconfiguration
        "membership anchor decision is not retained by this recorder")
  | Some retained =>
      reject* negb (bool_decide (retained = anchor))
        with QuePaxaError.ConflictingDecision (Decision.slot anchor) ;;
      reject* existsb (λ slot, Decision.slot anchor <? slot) (keys (slots self))
              || existsb (λ slot, Decision.slot anchor <? slot) (keys (decisions self))
        with QuePaxaError.InvalidReconfiguration
          "membership changes require all later consensus slots to be drained" ;;
      modify (λ self, mk (RecorderConfig.install_cluster (config self) next) (slots self)
                         (round_one_leaders self) (decisions self) (pruned_through self))
  end.

Definition validate_request (self : t V) (request : RecordRequest.t V) : Result unit :=
  reject negb (RecorderConfig.contains (config self) (RecordRequest.sender request))
    with QuePaxaError.InvalidSender (RecordRequest.sender request) ;;
  let? _ :=
    match RecordRequest.round_one_leader request with
    | Some leader =>
        reject negb (RecorderConfig.contains (config self) leader)
          with QuePaxaError.UnknownReplica leader ;;
        Ok tt
    | None => Ok tt
    end in
  let? _ := validate_proposal self (RecordRequest.proposal request) in
  reject (RecordRequest.step request <? Step.ROUND_ONE_PHASE_ZERO)
         || (RecorderLimits.max_step (limits self) <? RecordRequest.step request)
    with QuePaxaError.InvalidStep (RecordRequest.step request)
                                  (RecorderLimits.max_step (limits self)) ;;
  reject RecorderLimits.max_known_decisions (limits self)
         <? len (RecordRequest.known_decisions request)
    with QuePaxaError.ResourceLimit "known decisions in one request"
           (RecorderLimits.max_known_decisions (limits self)) ;;
  Ok tt.

(** [round_one_leaders.entry(slot).or_insert(leader)], then
    [slots.entry(slot).or_default()] and the register's [record]. *)
Definition bind_leader (slot : SlotIndex) (leader : option ReplicaId) (self : t V) : t V :=
  match round_one_leaders self !! slot with
  | Some _ => self
  | None => set_leaders self (<[slot := leader]> (round_one_leaders self))
  end.

Definition record_slot (slot : SlotIndex) (step : Z) (proposal : Proposal.t V)
    : M (t V) QuePaxaError.t (RecordSummary.t V) := λ self,
  let isr := default IntervalSummaryRegister.default (slots self !! slot) in
  let '(isr', summary) := IntervalSummaryRegister.record isr step proposal in
  (set_slots self (<[slot := isr']> (slots self)), Ok summary).

Definition record (ensure_available : list V → Result unit) (request : RecordRequest.t V)
    : M (t V) QuePaxaError.t (RecordReply.t V) :=
  let slot := RecordRequest.slot request in
  let leader := RecordRequest.round_one_leader request in
  let* _ := readr (λ self, validate_request self request) in
  let* self := reads (λ self, self) in
  reject* slot <=? pruned_through self with QuePaxaError.SlotPruned slot ;;
  reject* match round_one_leaders self !! slot with
          | Some bound => negb (bool_decide (bound = leader))
          | None => false
          end
    with QuePaxaError.ScheduleMismatch slot ;;
  let* _ := lift (ensure_available (Proposal.value_ids (RecordRequest.proposal request))) in
  let* _ := for_each inform_decision (RecordRequest.known_decisions request) in
  let* self := reads (λ self, self) in
  reject* bool_decide (slots self !! slot = None)
          && (count (slots self) =? RecorderLimits.max_active_slots (limits self))
    with QuePaxaError.ResourceLimit "active recorder slots"
           (RecorderLimits.max_active_slots (limits self)) ;;
  let* _ := modify (bind_leader slot leader) in
  let* summary := record_slot slot (RecordRequest.step request)
                              (RecordRequest.proposal request) in
  reads (λ self, RecordReply.mk (id self) (cluster self) summary (decisions self !! slot)).

Definition record_from (ensure_available : list V → Result unit)
    (authenticated_sender : ReplicaId) (request : RecordRequest.t V)
    : M (t V) QuePaxaError.t (RecordReply.t V) :=
  reject* negb (authenticated_sender =? RecordRequest.sender request)
    with QuePaxaError.InvalidSender (RecordRequest.sender request) ;;
  record ensure_available request.

(** [RecorderClient::inform_decisions] for a recorder. *)
Definition inform_decisions (decisions : list (Decision.t V)) : M (t V) QuePaxaError.t unit :=
  for_each inform_decision decisions.
End ops.
End RecorderCore.

(** ** The effect of each operation *)

Section spec.
Context {V : Type} `{EqDecision V}.
Implicit Types s : RecorderCore.t V.
Implicit Types d : Decision.t V.
Import RecorderCore.

(** What learning decisions may change: nothing but the decision map, which
    grows above the pruned floor. *)
Definition learned s s' : Prop :=
  config s' = config s ∧ slots s' = slots s ∧ round_one_leaders s' = round_one_leaders s
  ∧ pruned_through s' = pruned_through s ∧ decisions s ⊆ decisions s'.

#[global] Instance learned_preorder : PreOrder learned.
Proof.
  split.
  - intros s. by split_and!.
  - intros s1 s2 s3 (?&?&?&?&?) (?&?&?&?&?). split_and!; try congruence. by etrans.
Qed.

Lemma inform_decision_cases d s s' r :
  inform_decision d s = (s', r) →
  s' = s
  ∨ (r = Ok tt ∧ validate_decision s d = Ok tt ∧ pruned_through s < Decision.slot d
     ∧ decisions s !! Decision.slot d = None
     ∧ count (decisions s) ≠ RecorderLimits.max_decisions (limits s)
     ∧ s' = set_decisions s (<[Decision.slot d := d]> (decisions s))).
Proof.
  unfold inform_decision, bind, readr, reads, ret, throw, modify.
  destruct (validate_decision s d) as [[]|] eqn:Hv; [|naive_solver].
  destruct (Z.leb_spec (Decision.slot d) (pruned_through s)); [naive_solver|].
  destruct (decisions s !! Decision.slot d) eqn:Hd; [case_match; naive_solver|].
  destruct (Z.eqb_spec (count (decisions s)) (RecorderLimits.max_decisions (limits s)));
    [naive_solver|]. intros [= <- <-]. right. done.
Qed.

Lemma inform_decision_learned d s : learned s (inform_decision d s).1.
Proof.
  destruct (inform_decision d s) as [s' r] eqn:E.
  apply inform_decision_cases in E as [->|(_&_&_&Hn&_&->)]; simpl; [done|].
  split_and!; try done. simpl. by apply insert_subseteq.
Qed.

Lemma inform_all_learned ds s : learned s (for_each inform_decision ds s).1.
Proof.
  apply (preserves_for_each (learned s)); [|done].
  intros d s' Hs. etrans; [done|]. apply inform_decision_learned.
Qed.

(** Whatever a recorder has learned was there or among the news. *)
Lemma inform_all_decisions ds s i d :
  decisions (for_each inform_decision ds s).1 !! i = Some d →
  decisions s !! i = Some d ∨ (d ∈ ds ∧ Decision.slot d = i).
Proof.
  revert s. induction ds as [|d0 ds IH]; intros s; simpl; [by left|]. unfold bind at 1.
  destruct (inform_decision d0 s) as [s1 [[]|e]] eqn:E;
    apply inform_decision_cases in E as [->|(Hr&_&_&_&_&->)]; try discriminate Hr; simpl.
  - intros [?|[??]]%IH; [by left|right; by split; [right|]].
  - intros [Hi|[??]]%IH; [|right; by split; [right|]]. simpl in Hi.
    apply lookup_insert_Some in Hi as [[? <-]|[_ Hi]]; [right; by split; [left|]|by left].
  - by left.
Qed.

Lemma validate_request_step s req :
  validate_request s req = Ok tt →
  4 ≤ RecordRequest.step req ≤ RecorderLimits.max_step (limits s).
Proof.
  unfold validate_request. destruct (negb _); [done|].
  destruct (match RecordRequest.round_one_leader req with Some _ => _ | None => _ end)
    as [[]|]; [|done].
  destruct (validate_proposal s _) as [[]|]; [|done]. unfold Step.ROUND_ONE_PHASE_ZERO.
  destruct (Z.ltb_spec (RecordRequest.step req) 4); [done|]. simpl.
  destruct (Z.ltb_spec (RecorderLimits.max_step (limits s)) (RecordRequest.step req)); [done|].
  lia.
Qed.

(** The register of a slot, fresh when the slot is not active yet. *)
Definition register s (slot : SlotIndex) : IntervalSummaryRegister.t V :=
  default IntervalSummaryRegister.default (slots s !! slot).

Lemma record_Ok ea req s s' reply :
  record ea req s = (s', Ok reply) →
  let slot := RecordRequest.slot req in
  let leader := RecordRequest.round_one_leader req in
  let out := IntervalSummaryRegister.record (register s slot) (RecordRequest.step req)
                                            (RecordRequest.proposal req) in
  validate_request s req = Ok tt
  ∧ pruned_through s < slot
  ∧ (round_one_leaders s !! slot = None ∨ round_one_leaders s !! slot = Some leader)
  ∧ (slots s !! slot = None → count (slots s) ≠ RecorderLimits.max_active_slots (limits s))
  ∧ ∃ mid, learned s mid ∧ for_each inform_decision (RecordRequest.known_decisions req) s = (mid, Ok tt)
    ∧ s' = set_slots (bind_leader slot leader mid) (<[slot := out.1]> (slots s))
    ∧ reply = RecordReply.mk (id s) (cluster s) out.2 (decisions mid !! slot).
Proof.
  intros Hrec slot leader out. unfold record in Hrec.
  apply bind_Ok in Hrec as (s1 & [] & [= <- Hv] & Hrec).
  apply bind_Ok in Hrec as (s1 & x & [= <- <-] & Hrec). fold slot in Hrec. fold leader in Hrec.
  destruct (Z.leb_spec slot (pruned_through s)); [done|].
  destruct (match round_one_leaders s !! slot with Some _ => _ | None => _ end) eqn:Hl; [done|].
  apply bind_Ok in Hrec as (s1 & [] & [= <- He] & Hrec).
  apply bind_Ok in Hrec as (mid & [] & Hmid & Hrec).
  pose proof (inform_all_learned (RecordRequest.known_decisions req) s) as Hle.
  rewrite Hmid in Hle. simpl in Hle. destruct Hle as (Hc&Hs&Hr&Hp&Hd).
  apply bind_Ok in Hrec as (s1 & x & [= <- <-] & Hrec).
  unfold limits in Hrec. rewrite Hs, Hc in Hrec. destruct (_ && _) eqn:Hcap; [done|].
  split_and!; [done|done| | |].
  - destruct (round_one_leaders s !! slot) as [b|]; [|by left]. right.
    apply negb_false_iff, bool_decide_eq_true in Hl. by subst.
  - intros Hnone Heq. apply andb_false_iff in Hcap as [Hcap|Hcap].
    + apply bool_decide_eq_false in Hcap. done.
    + apply Z.eqb_neq in Hcap. done.
  - exists mid. split; [by split_and!|]. split; [done|].
    apply bind_Ok in Hrec as (s1 & [] & [= <-] & Hrec).
    apply bind_Ok in Hrec as (s1 & summary & Hrs & Hrec).
    unfold record_slot in Hrs.
    assert (slots (bind_leader slot leader mid) = slots s) as Hbs.
    { unfold bind_leader. by destruct (round_one_leaders mid !! slot). }
    assert (config (bind_leader slot leader mid) = config s ∧
            decisions (bind_leader slot leader mid) = decisions mid) as [Hbc Hbd].
    { unfold bind_leader. by destruct (round_one_leaders mid !! slot). }
    rewrite Hbs in Hrs. fold (register s slot) in Hrs.
    destruct (IntervalSummaryRegister.record _ _ _) as [isr' sum] eqn:Hisr.
    injection Hrs as <- <-. unfold reads in Hrec. injection Hrec as <- <-.
    simpl. split; [done|]. unfold id, cluster. simpl. by rewrite Hbc, Hbd.
Qed.

Lemma record_Err_state ea req s s' e :
  record ea req s = (s', Err e) →
  s' = s ∨ s' = (for_each inform_decision (RecordRequest.known_decisions req) s).1.
Proof.
  unfold record. intros [[= <- _]|(s1&[]&[= <- _]&Hrec)]%bind_Err; [by left|].
  apply bind_Err in Hrec as [[=]|(s1&x&[= <- <-]&Hrec)].
  destruct (_ <=? _); [left; by injection Hrec as <- _|].
  destruct (match round_one_leaders s !! _ with Some _ => _ | None => _ end);
    [left; by injection Hrec as <- _|].
  apply bind_Err in Hrec as [[= <- _]|(s1&[]&[= <- _]&Hrec)]; [by left|]. right.
  apply bind_Err in Hrec as [Hmid|(mid&[]&Hmid&Hrec)]; rewrite Hmid; [done|].
  apply bind_Err in Hrec as [[=]|(s1&x&[= <- <-]&Hrec)].
  destruct (_ && _); [by injection Hrec as <- _|].
  apply bind_Err in Hrec as [[=]|(s1&x&[= <- <-]&Hrec)].
  apply bind_Err in Hrec as [Hrec|(s1&sum&_&[=])].
  unfold record_slot in Hrec. by destruct (IntervalSummaryRegister.record _ _ _).
Qed.

Lemma record_Err_learned ea req s s' e : record ea req s = (s', Err e) → learned s s'.
Proof. intros [->| ->]%record_Err_state; [done|]. apply inform_all_learned. Qed.

(** ** The recorder's invariant *)

Lemma validate_decision_config s s' d :
  config s = config s' → validate_decision s d = validate_decision s' d.
Proof. unfold validate_decision, limits. by intros ->. Qed.

Lemma validate_proposal_config s s' p :
  config s = config s' → validate_proposal s p = validate_proposal s' p.
Proof. unfold validate_proposal, limits. by intros ->. Qed.

(** The proposals a register holds. *)
Definition isr_proposals (r : IntervalSummaryRegister.t V) : list (Proposal.t V) :=
  omap (λ o, o) [IntervalSummaryRegister.first r; IntervalSummaryRegister.current_aggregate r;
                 IntervalSummaryRegister.prior_aggregate r].

Definition isr_ok s (r : IntervalSummaryRegister.t V) : Prop :=
  Step.ROUND_ONE_PHASE_ZERO ≤ IntervalSummaryRegister.step r ≤ RecorderLimits.max_step (limits s)
  ∧ is_Some (IntervalSummaryRegister.first r)
  ∧ is_Some (IntervalSummaryRegister.current_aggregate r)
  ∧ Forall (λ p, validate_proposal s p = Ok tt) (isr_proposals r).

Lemma validate_isr_snapshot_Ok s r :
  validate_isr_snapshot s (IntervalSummaryRegister.snapshot r) = Ok tt ↔ isr_ok s r.
Proof.
  unfold validate_isr_snapshot, isr_ok. simpl. rewrite <-!not_eq_None_Some.
  destruct (_ || _) eqn:Hs.
  { split; [done|]. intros ([??]&_). apply orb_true_iff in Hs as [Hs%Z.ltb_lt|Hs%Z.ltb_lt]; lia. }
  apply orb_false_iff in Hs as [Hs1%Z.ltb_ge Hs2%Z.ltb_ge].
  destruct (_ || _) eqn:Hf.
  { split; [done|]. intros (_&?&?&_).
    by apply orb_true_iff in Hf as [Hf%bool_decide_eq_true|Hf%bool_decide_eq_true]. }
  apply orb_false_iff in Hf as [Hf1%bool_decide_eq_false Hf2%bool_decide_eq_false].
  rewrite try_each_Ok. unfold isr_proposals. naive_solver lia.
Qed.

Record recorder_inv s : Prop := {
  inv_bound : ∀ i, is_Some (slots s !! i) ↔ is_Some (round_one_leaders s !! i);
  inv_active : ∀ i r, slots s !! i = Some r → pruned_through s < i ∧ isr_ok s r;
  inv_leader : ∀ i l, round_one_leaders s !! i = Some (Some l) →
                      RecorderConfig.contains (config s) l = true;
  inv_decided : ∀ i d, decisions s !! i = Some d →
      Decision.slot d = i ∧ pruned_through s < i ∧ validate_decision s d = Ok tt;
  inv_slots_count : count (slots s) ≤ RecorderLimits.max_active_slots (limits s);
  inv_decisions_count : count (decisions s) ≤ RecorderLimits.max_decisions (limits s);
}.

Lemma count_insert_None {A} (m : gmap Z A) i x :
  m !! i = None → count (<[i:=x]> m) = count m + 1.
Proof. intros Hi. unfold count. rewrite map_size_insert_None by done. lia. Qed.

Lemma count_insert_Some {A} (m : gmap Z A) i x y :
  m !! i = Some y → count (<[i:=x]> m) = count m.
Proof. intros Hi. unfold count. by rewrite map_size_insert, Hi. Qed.

Lemma count_retain {A} f (m : gmap Z A) : count (retain f m) ≤ count m.
Proof. unfold count. apply inj_le, map_subseteq_size, map_filter_subseteq. Qed.

Lemma inform_decision_inv d s : recorder_inv s → recorder_inv (inform_decision d s).1.
Proof.
  intros Hinv. destruct (inform_decision d s) as [s' r] eqn:E.
  apply inform_decision_cases in E as [->|(_&Hv&Hp&Hn&Hc&->)]; [done|].
  destruct Hinv as [Hb Ha Hl Hd Hsc Hdc]. split; try done; simpl.
  - intros i d'. rewrite lookup_insert_Some. intros [[<- <-]|[Hne Hi]]; [done|by apply Hd].
  - unfold limits in *. simpl. rewrite count_insert_None by done. lia.
Qed.

Lemma isr_ok_record s r step p :
  (isr_ok s r ∨ r = IntervalSummaryRegister.default) →
  Step.ROUND_ONE_PHASE_ZERO ≤ step ≤ RecorderLimits.max_step (limits s) →
  validate_proposal s p = Ok tt →
  isr_ok s (IntervalSummaryRegister.record r step p).1.
Proof.
  intros Hr Hs Hp. unfold IntervalSummaryRegister.record. simpl.
  destruct (Z.eqb_spec step (IntervalSummaryRegister.step r)) as [He|Hne].
  - destruct Hr as [(Hst & [f Hf] & [c Hc] & Hall)| ->]; [|unfold Step.ROUND_ONE_PHASE_ZERO in *;
      simpl in He; unfold Step.INITIAL in He; lia].
    unfold isr_ok, isr_proposals in *. simpl. rewrite Hf, Hc in *. simpl in *.
    split_and!; [lia|lia|done|done|].
    apply Forall_cons in Hall as [Hvf [Hvc Hall]%Forall_cons].
    repeat (apply Forall_cons; split); [done| |done]. unfold best_proposal.
    by destruct (ProposalKey.geb _ _).
  - destruct (Z.ltb_spec (IntervalSummaryRegister.step r) step).
    + unfold isr_ok, isr_proposals; simpl. split_and!; [lia|lia|done|done|].
      repeat (apply Forall_cons; split); [done..|].
      destruct (Step.is_next_after _ _); [|constructor].
      destruct Hr as [(_ & _ & [c Hc] & Hall)| ->]; [|constructor].
      unfold isr_proposals in Hall. rewrite Hc in *. simpl.
      apply Forall_singleton. rewrite Forall_forall in Hall. apply Hall.
      destruct (IntervalSummaryRegister.first r); simpl; [right; left|left].
    + destruct Hr as [| ->]; [done|]. simpl in *. unfold Step.INITIAL, Step.ROUND_ONE_PHASE_ZERO in *.
      lia.
Qed.

Lemma validate_request_Ok s req :
  validate_request s req = Ok tt →
  RecorderConfig.contains (config s) (RecordRequest.sender req) = true
  ∧ (∀ l, RecordRequest.round_one_leader req = Some l →
          RecorderConfig.contains (config s) l = true)
  ∧ validate_proposal s (RecordRequest.proposal req) = Ok tt
  ∧ Step.ROUND_ONE_PHASE_ZERO ≤ RecordRequest.step req ≤ RecorderLimits.max_step (limits s).
Proof.
  unfold validate_request. destruct (RecorderConfig.contains _ (RecordRequest.sender req)); [|done].
  simpl. intros Hv.
  destruct (RecordRequest.round_one_leader req) as [l|].
  - destruct (RecorderConfig.contains (config s) l) eqn:Hl; [simpl in Hv|done].
    destruct (validate_proposal s _) as [[]|]; [|done].
    destruct (_ || _) eqn:Hst; [done|]. apply orb_false_iff in Hst as [?%Z.ltb_ge ?%Z.ltb_ge].
    split_and!; [done|by intros ? [= <-]|done|lia|lia].
  - destruct (validate_proposal s _) as [[]|]; [|done].
    destruct (_ || _) eqn:Hst; [done|]. apply orb_false_iff in Hst as [?%Z.ltb_ge ?%Z.ltb_ge].
    split_and!; [done|done|done|lia|lia].
Qed.

Lemma inform_all_inv ds s : recorder_inv s → recorder_inv (for_each inform_decision ds s).1.
Proof.
  apply (preserves_for_each recorder_inv). intros d s' Hs. by apply inform_decision_inv.
Qed.

Lemma isr_ok_config s s' r : config s = config s' → isr_ok s r → isr_ok s' r.
Proof.
  intros Hc (?&?&?&Hall). unfold isr_ok, limits in *. rewrite <-Hc. split_and!; try done; try lia.
  eapply Forall_impl; [done|]. intros p. simpl. by rewrite (validate_proposal_config s s').
Qed.

Lemma record_inv ea req s : recorder_inv s → recorder_inv (record ea req s).1.
Proof.
  intros Hinv. destruct (record ea req s) as [s' [reply|e]] eqn:E; simpl; last first.
  { apply record_Err_state in E as [->| ->]; [done|]. by apply inform_all_inv. }
  apply record_Ok in E as (Hv&Hp&Hl&Hcap&mid&Hle&Hmid&->&->).
  assert (recorder_inv mid) as Hm.
  { pose proof (inform_all_inv (RecordRequest.known_decisions req) s Hinv) as H.
    by rewrite Hmid in H. }
  destruct Hle as (Hc&Hs&Hr&Hpt&Hd).
  apply validate_request_Ok in Hv as (_&Hleader&Hvp&Hstep).
  set (slot := RecordRequest.slot req) in *. set (leader := RecordRequest.round_one_leader req) in *.
  set (out := IntervalSummaryRegister.record _ _ _).
  assert (isr_ok s out.1) as Hout.
  { apply isr_ok_record; [|done..]. unfold register.
    destruct (slots s !! slot) eqn:E; [left|by right]. by eapply inv_active. }
  assert (round_one_leaders (bind_leader slot leader mid)
          = match round_one_leaders s !! slot with
            | Some _ => round_one_leaders s
            | None => <[slot := leader]> (round_one_leaders s) end) as Hbl.
  { unfold bind_leader. rewrite Hr. destruct (round_one_leaders s !! slot); simpl; congruence. }
  assert (config (bind_leader slot leader mid) = config s
          ∧ decisions (bind_leader slot leader mid) = decisions mid
          ∧ pruned_through (bind_leader slot leader mid) = pruned_through s) as (Hbc&Hbd&Hbp).
  { unfold bind_leader. destruct (round_one_leaders mid !! slot); simpl; by rewrite ?Hc, ?Hpt. }
  destruct Hm as [_ _ _ Hmd _ Hmc]. destruct Hinv as [Hib Hia Hil _ Hisc _].
  split; unfold limits in *; simpl; rewrite ?Hbl, ?Hbc, ?Hbd, ?Hbp.
  - intros i. specialize (Hib i). destruct (round_one_leaders s !! slot) eqn:E.
    + rewrite lookup_insert. case_decide; [subst i; rewrite E; by split|done].
    + rewrite !lookup_insert. by case_decide.
  - intros i r. rewrite lookup_insert_Some. intros [[<- <-]|[Hne Hi]].
    + split; [done|]. by apply (isr_ok_config s).
    + destruct (Hia i r Hi). split; [done|]. by apply (isr_ok_config s).
  - intros i l. destruct (round_one_leaders s !! slot); [apply Hil|].
    rewrite lookup_insert_Some. intros [[<- Heq]|[Hne Hi]]; [by apply Hleader|by eapply Hil].
  - intros i d Hi. destruct (Hmd i d Hi) as (?&?&Hvd). rewrite <-Hpt. split_and!; [done..|].
    rewrite <-Hvd. apply validate_decision_config. simpl. by rewrite Hbc.
  - destruct (slots s !! slot) eqn:E.
    + by erewrite count_insert_Some.
    + rewrite count_insert_None by done. specialize (Hcap eq_refl). lia.
  - by rewrite <-Hc.
Qed.

Lemma prune_inv slot s : recorder_inv s → recorder_inv (prune_through s slot).
Proof.
  intros [Hb Ha Hl Hd Hsc Hdc]. split; unfold limits in *; simpl.
  - intros i. rewrite !lookup_retain. by destruct (slot <? i).
  - intros i r. rewrite lookup_retain. destruct (Z.ltb_spec slot i); [|done].
    intros Hi. destruct (Ha i r Hi). split; [lia|]. by apply (isr_ok_config s).
  - intros i l. rewrite lookup_retain. destruct (slot <? i); [apply Hl|done].
  - intros i d. rewrite lookup_retain. destruct (Z.ltb_spec slot i); [|done].
    intros Hi. destruct (Hd i d Hi) as (?&?&Hv). split_and!; [done|lia|].
    rewrite <-Hv. by apply validate_decision_config.
  - etrans; [apply count_retain|done].
  - etrans; [apply count_retain|done].
Qed.

(** A joint epoch contains every member of the epoch before it. *)
Lemma joint_successor_members next prev :
  ClusterIdentity.is_successor_of next prev = true → ClusterIdentity.is_joint next = true →
  ∀ r, ClusterIdentity.contains prev r = true → ClusterIdentity.contains next r = true.
Proof.
  intros Hs Hj r Hr. apply successor_constructed in Hs as [(ms & f & Hb)|Hf].
  - apply begin_joint_Ok in Hb as (l & e & _ & _ & _ & _ & ->).
    unfold ClusterIdentity.contains in *; simpl. apply bool_decide_true.
    apply elem_of_union_members. left. by apply bool_decide_eq_true in Hr.
  - exfalso. unfold ClusterIdentity.finalize_joint in Hf.
    destruct (ClusterIdentity.joint prev); [|done].
    destruct (U64.checked_add _ 1); [simpl in Hf|done]. by apply stable_Ok in Hf as (l&_&_&->).
Qed.

Lemma install_membership_cases change s s' r :
  install_membership change s = (s', r) →
  s' = s
  ∨ (r = Ok tt
     ∧ MembershipChange.command_id change ∈ Decision.value_ids (MembershipChange.anchor change)
     ∧ ClusterIdentity.is_successor_of (MembershipChange.next change) (cluster s) = true
     ∧ decisions s !! Decision.slot (MembershipChange.anchor change)
       = Some (MembershipChange.anchor change)
     ∧ (∀ i, is_Some (slots s !! i) ∨ is_Some (decisions s !! i) →
             i ≤ Decision.slot (MembershipChange.anchor change))
     ∧ s' = mk (RecorderConfig.install_cluster (config s) (MembershipChange.next change))
               (slots s) (round_one_leaders s) (decisions s) (pruned_through s)).
Proof.
  unfold install_membership, bind, lift, reads, ret, throw, modify, MembershipChange.validate_binding.
  destruct (bool_decide (MembershipChange.command_id change ∈ _)) eqn:Hb; [|naive_solver].
  destruct (bool_decide (cluster s = _)); [naive_solver|].
  destruct (ClusterIdentity.is_successor_of _ _) eqn:Hs; [simpl|naive_solver].
  destruct (decisions s !! _) as [a|] eqn:Ha; [|naive_solver].
  destruct (bool_decide (a = _)) eqn:Hba; [simpl|naive_solver].
  destruct (_ || _) eqn:Hd; [naive_solver|]. intros [= <- <-]. right.
  apply bool_decide_eq_true in Hb, Hba as ->. split_and!; [done..| |done].
  apply orb_false_iff in Hd as [Hd1 Hd2].
  rewrite <-not_true_iff_false, existsb_exists in Hd1, Hd2. intros i Hi.
  destruct (Z.le_gt_cases i (Decision.slot (MembershipChange.anchor change))); [done|].
  exfalso. destruct Hi as [Hi|Hi].
  - apply Hd1. exists i. split; [by apply list_elem_of_In, elem_of_keys|]. by apply Z.ltb_lt.
  - apply Hd2. exists i. split; [by apply list_elem_of_In, elem_of_keys|]. by apply Z.ltb_lt.
Qed.

(** Growing the membership keeps what was valid. *)
Definition grows s s' : Prop :=
  limits s' = limits s
  ∧ ∀ r, RecorderConfig.contains (config s) r = true → RecorderConfig.contains (config s') r = true.

Lemma validate_proposal_grows s s' p :
  grows s s' → validate_proposal s p = Ok tt → validate_proposal s' p = Ok tt.
Proof.
  intros [Hl Hc]. unfold validate_proposal. rewrite Hl.
  destruct (RecorderConfig.contains (config s) _) eqn:E; [|done]. by rewrite (Hc _ E).
Qed.

Lemma validate_decision_grows s s' d :
  grows s s' → validate_decision s d = Ok tt → validate_decision s' d = Ok tt.
Proof.
  intros [Hl Hc]. unfold validate_decision. rewrite Hl. destruct (is_empty _); [done|].
  destruct (RecorderConfig.contains (config s) _) eqn:E; [|done]. by rewrite (Hc _ E).
Qed.

Lemma install_joint_inv change s :
  ClusterIdentity.is_joint (MembershipChange.next change) = true →
  recorder_inv s → recorder_inv (install_membership change s).1.
Proof.
  intros Hj Hinv. destruct (install_membership change s) as [s' r] eqn:E.
  apply install_membership_cases in E as [->|(_&_&Hs&_&_&->)]; [done|]. simpl.
  set (s' := mk _ _ _ _ _).
  assert (grows s s') as Hg.
  { split; [done|]. unfold RecorderConfig.contains; simpl.
    by apply (joint_successor_members _ (cluster s)). }
  destruct Hinv as [Hb Ha Hl Hd Hsc Hdc]. split; try done.
  - intros i x Hi. destruct (Ha i x Hi) as (?&Hst&?&?&Hall). split; [done|].
    unfold isr_ok. destruct Hg as [-> Hc]. split_and!; [lia|lia|done|done|].
    eapply Forall_impl; [done|]. intros p. by apply validate_proposal_grows.
  - intros i l Hi. apply Hg. by eapply Hl.
  - intros i d Hi. destruct (Hd i d Hi) as (?&?&?). split_and!; [done..|].
    by eapply validate_decision_grows.
Qed.

(** ** Restoring a recorder *)

Lemma restore_snapshot_id s : restore_snapshot_state s (snapshot s) = s.
Proof.
  destruct s as [c sl l d p]. unfold restore_snapshot_state, snapshot; simpl. f_equal.
  rewrite <-map_fmap_compose. rewrite <-(map_fmap_id sl) at 2. apply map_fmap_ext.
  by intros i [????] _.
Qed.

Lemma restore_Ok config snap s :
  restore config snap = Ok s → s = restore_snapshot_state (new config) snap.
Proof.
  unfold restore. destruct (negb _); [done|]. do 2 (destruct (_ <? _); [done|]).
  destruct (try_each _ (entries _)) as [[]|]; [|done]. destruct (existsb _ _); [done|].
  destruct (negb _); [done|]. destruct (existsb _ _); [done|].
  destruct (try_each _ _) as [[]|]; [|done]. congruence.
Qed.

(** A restart that succeeds gives back the state that was saved. *)
Lemma restart_same s s' : restore (config s) (snapshot s) = Ok s' → s' = s.
Proof.
  intros ->%restore_Ok. transitivity (restore_snapshot_state s (snapshot s)); [done|].
  apply restore_snapshot_id.
Qed.

(** A recorder that satisfies its invariant restarts exactly: [restore]
    accepts its own snapshot under the same configuration and rebuilds the
    state it had. *)
Lemma restore_snapshot_roundtrip s :
  recorder_inv s → restore (config s) (snapshot s) = Ok s.
Proof.
  intros [Hb Ha Hl Hd Hsc Hdc]. unfold restore. simpl.
  rewrite bool_decide_true by done. simpl. unfold limits, count in *.
  rewrite map_size_fmap. rewrite (proj2 (Z.ltb_ge _ _)) by done.
  rewrite (proj2 (Z.ltb_ge _ _)) by done.
  rewrite (proj2 (try_each_Ok _ _)); last first.
  { apply Forall_entries. intros i d Hi. destruct (Hd i d Hi) as (<-&?&Hv).
    rewrite Z.eqb_refl, (proj2 (Z.leb_gt _ _)) by done. simpl.
    by rewrite <-Hv; apply validate_decision_config. }
  rewrite (proj2 (existsb_false _ _)); last first.
  { intros i Hi. apply elem_of_keys in Hi as [r Hi]. rewrite lookup_fmap in Hi.
    destruct (slots s !! i) as [r'|] eqn:E; [|done]. apply Z.leb_gt. by eapply Ha. }
  rewrite bool_decide_true; last first.
  { apply keys_eq. intros i. rewrite lookup_fmap, fmap_is_Some. by rewrite Hb. }
  rewrite (proj2 (existsb_false _ _)); last first.
  { intros l Hi. apply list_elem_of_omap in Hi as (o & Ho%elem_of_values & ->).
    destruct Ho as [i Hi]. apply negb_false_iff. by eapply Hl. }
  rewrite (proj2 (try_each_Ok _ _)); last first.
  { apply Forall_forall. intros r Hi. apply elem_of_values in Hi as [i Hi].
    rewrite lookup_fmap in Hi. destruct (slots s !! i) as [r'|] eqn:E; [|done].
    injection Hi as <-. apply validate_isr_snapshot_Ok. eapply isr_ok_config; [|by eapply Ha].
    done. }
  f_equal. change (restore_snapshot_state s (snapshot s) = s). apply restore_snapshot_id.
Qed.
End spec.

(** ** Sequences of operations *)

Section operations.
Context {V : Type} `{EqDecision V}.
Import RecorderCore.

(** The mutating entry points of a recorder. *)
Inductive recorder_op : Type :=
| OpRecord (ensure_available : list V → Result unit) (request : RecordRequest.t V)
| OpInform (decisions : list (Decision.t V))
| OpPrune (slot : SlotIndex)
| OpInstall (change : MembershipChange.t V).

Definition run_op (op : recorder_op) (s : t V) : t V :=
  match op with
  | OpRecord ea request => (record ea request s).1
  | OpInform ds => (inform_decisions ds s).1
  | OpPrune slot => prune_through s slot
  | OpInstall change => (install_membership change s).1
  end.

Definition run_ops (ops : list recorder_op) (s : t V) : t V :=
  fold_left (λ s op, run_op op s) ops s.

(** Every reconfiguration in the sequence enters a joint epoch. *)
Definition enters_joint (op : recorder_op) : bool :=
  match op with
  | OpInstall change => ClusterIdentity.is_joint (MembershipChange.next change)
  | _ => true
  end.

Lemma run_op_inv op s : enters_joint op = true → recorder_inv s → recorder_inv (run_op op s).
Proof.
  destruct op; simpl; intros Hj Hi.
  - by apply record_inv.
  - by apply inform_all_inv.
  - by apply prune_inv.
  - by apply install_joint_inv.
Qed.

Lemma new_inv config :
  0 ≤ RecorderLimits.max_active_slots (RecorderConfig.limits config) →
  0 ≤ RecorderLimits.max_decisions (RecorderConfig.limits config) →
  recorder_inv (new (V:=V) config).
Proof.
  intros. split; unfold limits; simpl; try done. intros i. by rewrite !lookup_empty.
Qed.

Lemma run_ops_inv ops s :
  forallb enters_joint ops = true → recorder_inv s → recorder_inv (run_ops ops s).
Proof.
  revert s. induction ops as [|op ops IH]; intros s; simpl; [done|].
  intros [Hop Hops]%andb_true_iff Hi. by apply IH, run_op_inv.
Qed.

(** C32: whatever a recorder has served (records, decisions, pruning and joint
    reconfigurations, with errors along the way), it restarts from its snapshot
    with exactly the state it had. *)
Theorem reachable_recorder_restarts config ops :
  0 ≤ RecorderLimits.max_active_slots (RecorderConfig.limits config) →
  0 ≤ RecorderLimits.max_decisions (RecorderConfig.limits config) →
  forallb enters_joint ops = true →
  let s := run_ops ops (new config) in
  restore (RecorderCore.config s) (snapshot s) = Ok s.
Proof.
  intros H1 H2 Hops s. apply restore_snapshot_roundtrip, run_ops_inv; [done|].
  by apply new_inv.
Qed.

Lemma bind_leader_kept slot leader (s : t V) i l :
  round_one_leaders s !! i = Some l → round_one_leaders (bind_leader slot leader s) !! i = Some l.
Proof.
  unfold bind_leader. destruct (round_one_leaders s !! slot) eqn:E; [done|]. intros Hi. simpl.
  rewrite lookup_insert_ne; [done|]. intros ->. congruence.
Qed.

Lemma record_step_mono {W} (r : IntervalSummaryRegister.t W) st p :
  IntervalSummaryRegister.step r
  ≤ IntervalSummaryRegister.step (IntervalSummaryRegister.record r st p).1.
Proof.
  unfold IntervalSummaryRegister.record; simpl.
  destruct (Z.eqb_spec st (IntervalSummaryRegister.step r)); [done|].
  destruct (Z.ltb_spec (IntervalSummaryRegister.step r) st); simpl; lia.
Qed.

(** What no operation undoes above the floor: a slot's leader binding, its
    decision, and the progress of its register. *)
Definition advances (s s' : t V) : Prop :=
  pruned_through s ≤ pruned_through s'
  ∧ ∀ i, pruned_through s' < i →
    (∀ l, round_one_leaders s !! i = Some l → round_one_leaders s' !! i = Some l)
    ∧ (∀ d, decisions s !! i = Some d → decisions s' !! i = Some d)
    ∧ (∀ r, slots s !! i = Some r → ∃ r', slots s' !! i = Some r'
         ∧ IntervalSummaryRegister.step r ≤ IntervalSummaryRegister.step r').

#[global] Instance advances_preorder : PreOrder advances.
Proof.
  split.
  - intros s. split; [done|]. intros i _. split_and!; [done..|]. intros r Hr. by exists r.
  - intros s1 s2 s3 [Hp1 H1] [Hp2 H2]. split; [lia|]. intros i Hi.
    destruct (H1 i) as (?&?&Hr1); [lia|]. destruct (H2 i) as (?&?&Hr2); [lia|].
    split_and!; [by auto..|]. intros r (r'&Hr'&?)%Hr1.
    destruct (Hr2 r' Hr') as (r''&?&?). exists r''. split; [done|lia].
Qed.

Lemma learned_advances (s s' : t V) : learned s s' → advances s s'.
Proof.
  intros (_&Hs&Hl&Hp&Hd). split; [lia|]. intros i _. rewrite Hs, Hl. split_and!; [done| |].
  - intros d Hi. by eapply lookup_weaken.
  - intros r Hr. by exists r.
Qed.

Lemma record_advances ea req s : advances s (record ea req s).1.
Proof.
  destruct (record ea req s) as [s' [reply|e]] eqn:E; simpl.
  2:{ apply learned_advances. by eapply record_Err_learned. }
  apply record_Ok in E as (_&_&_&_&mid&Hle&_&->&_).
  pose proof (learned_advances _ _ Hle) as [Hp Ha]. destruct Hle as (_&Hs&_&Hpt&_).
  set (slot := RecordRequest.slot req). set (ld := RecordRequest.round_one_leader req).
  assert (pruned_through (bind_leader slot ld mid) = pruned_through mid
    ∧ decisions (bind_leader slot ld mid) = decisions mid) as [Hb1 Hb2].
  { unfold bind_leader. by destruct (round_one_leaders mid !! slot). }
  split; simpl; rewrite Hb1; [done|]. intros i Hi. destruct (Ha i Hi) as (Hl&Hd&_).
  rewrite Hb2. split_and!.
  - intros l Hli. by apply bind_leader_kept, Hl.
  - apply Hd.
  - intros r Hr. rewrite lookup_insert. case_decide as Heq; [subst i|by exists r; rewrite Hr].
    eexists. split; [done|]. unfold register. rewrite Hr. apply record_step_mono.
Qed.

Lemma run_op_advances op s : advances s (run_op op s).
Proof.
  destruct op; simpl.
  - apply record_advances.
  - apply learned_advances, inform_all_learned.
  - split; simpl; [lia|]. intros i Hi. rewrite !lookup_retain, (proj2 (Z.ltb_lt slot i)) by lia.
    split_and!; [done..|]. intros r Hr. by exists r.
  - destruct (install_membership change s) as [s' r] eqn:E.
    apply install_membership_cases in E as [->|(_&_&_&_&_&->)]; [done|].
    split; [done|]. intros i _. split_and!; [done..|]. intros x Hx. by exists x.
Qed.

Lemma run_ops_advances ops s : advances s (run_ops ops s).
Proof.
  revert s. induction ops as [|op ops IH]; intros s; simpl; [done|].
  etrans; [apply run_op_advances|apply IH].
Qed.

(** C16: above its pruned floor a recorder never forgets: along any sequence of
    operations (records, decisions, prunings, reconfigurations, errors
    included) the floor only rises, and for every slot above it the round-one
    leader and the retained decision stay what they were and the step of the
    register never goes back. *)
Theorem recorder_never_forgets ops s :
  let s' := run_ops ops s in
  pruned_through s ≤ pruned_through s'
  ∧ ∀ i, pruned_through s' < i →
    (∀ l, round_one_leaders s !! i = Some l → round_one_leaders s' !! i = Some l)
    ∧ (∀ d, decisions s !! i = Some d → decisions s' !! i = Some d)
    ∧ (∀ st, status s i = Some st → ∃ st', status s' i = Some st' ∧ st ≤ st').
Proof.
  intros s'. destruct (run_ops_advances ops s) as [Hp Ha]. split; [done|]. intros i Hi.
  destruct (Ha i Hi) as (Hl & Hd & Hr). split_and!; [done..|]. unfold status.
  intros st (r & Hs & ->)%fmap_Some. destruct (Hr r Hs) as (r' & Hr' & Hle).
  exists (IntervalSummaryRegister.step r'). unfold s'. by rewrite Hr'.
Qed.

(** Leader binding: after a successful [record] the slot is bound to the
    request's round-one leader, and from then on, until the slot is pruned,
    every request naming another leader is refused. *)
Theorem leader_binding_exclusive ea req s s1 reply ops ea' req' s2 reply' :
  record ea req s = (s1, Ok reply) →
  record ea' req' (run_ops ops s1) = (s2, Ok reply') →
  RecordRequest.slot req' = RecordRequest.slot req →
  RecordRequest.round_one_leader req' = RecordRequest.round_one_leader req.
Proof.
  intros H1 H2 Hslot.
  apply record_Ok in H1 as (_&Hp1&Hl&_&mid&Hle&_&->&_).
  pose proof (learned_advances _ _ Hle) as [_ _]. destruct Hle as (_&_&Hr&Hpt&_).
  set (s1 := set_slots _ _) in *. set (slot := RecordRequest.slot req) in *.
  assert (round_one_leaders s1 !! slot = Some (RecordRequest.round_one_leader req)) as Hb.
  { unfold s1, bind_leader. rewrite Hr. destruct Hl as [Hn|Hs]; simpl.
    - rewrite Hn. simpl. by rewrite lookup_insert_eq.
    - by rewrite Hs, Hr. }
  pose proof (run_ops_advances ops s1) as [_ Ha].
  apply record_Ok in H2 as (_&Hp2&Hl2&_). rewrite Hslot in *.
  destruct (Ha slot Hp2) as (Hkeep&_&_). apply Hkeep in Hb.
  destruct Hl2 as [Hn|Hs]; congruence.
Qed.

(** An error from [record] leaves registers, leader bindings, floor and
    configuration untouched: at most some of the request's known decisions
    have been learned, each under its own slot. *)
Theorem record_error_frame ea req (s s' : t V) e :
  record ea req s = (s', Err e) →
  config s' = config s ∧ slots s' = slots s ∧ round_one_leaders s' = round_one_leaders s
  ∧ pruned_through s' = pruned_through s ∧ decisions s ⊆ decisions s'
  ∧ ∀ i d, decisions s' !! i = Some d →
      decisions s !! i = Some d
      ∨ (d ∈ RecordRequest.known_decisions req ∧ Decision.slot d = i).
Proof.
  intros Hrec. pose proof (record_Err_learned _ _ _ _ _ Hrec) as (?&?&?&?&?).
  split_and!; [done..|]. apply record_Err_state in Hrec as [->| ->]; [by left|].
  intros i d. apply inform_all_decisions.
Qed.

(** A valid request at or below the pruned floor is answered [SlotPruned]
    and changes nothing. *)
Theorem record_below_floor ea req (s : t V) :
  validate_request s req = Ok tt → RecordRequest.slot req ≤ pruned_through s →
  record ea req s = (s, Err (QuePaxaError.SlotPruned (RecordRequest.slot req))).
Proof.
  intros Hv Hp. unfold record, bind, readr, reads. rewrite Hv.
  by rewrite (proj2 (Z.leb_le _ _)).
Qed.
End operations.

(** ** A recorder that cannot restart

  [restore] re-validates retained decisions against the current membership,
  but a finalized reconfiguration may have removed their proposer. *)

Section removed_proposer.
Import RecorderCore.

Definition rp_stable : ClusterIdentity.t := ClusterIdentity.mk [1; 2; 3] 1 0 None.
Definition rp_joint : ClusterIdentity.t :=
  ClusterIdentity.mk [1; 2; 3; 4] 1 1 (Some (JointMembership.mk [1; 2; 3] 1 [2; 3; 4])).
Definition rp_final : ClusterIdentity.t := ClusterIdentity.mk [2; 3; 4] 1 2 None.
Definition rp_first : Decision.t Z := Decision.mk 1 [99] 1 4.
Definition rp_second : Decision.t Z := Decision.mk 2 [100] 2 4.

Definition rp_ops : list (recorder_op (V:=Z)) :=
  [OpInform [rp_first]; OpInstall (MembershipChange.mk rp_first rp_joint 99);
   OpInform [rp_second]; OpInstall (MembershipChange.mk rp_second rp_final 100)].

Definition rp_recorder : t Z := run_ops rp_ops (new (RecorderConfig.mk 2 rp_stable RecorderLimits.default)).

(** After a reconfiguration that drops the proposer of a retained decision,
    the recorder's own snapshot is rejected on restart with [InvalidSender],
    although the cluster identity it persisted is the configured one. *)
Theorem finalized_recorder_cannot_restart :
  ClusterIdentity.begin_joint rp_stable [2; 3; 4] 1 = Ok rp_joint
  ∧ ClusterIdentity.finalize_joint rp_joint = Ok rp_final
  ∧ cluster rp_recorder = rp_final
  ∧ decisions rp_recorder !! 1 = Some rp_first
  ∧ restore (config rp_recorder) (snapshot rp_recorder) = Err (QuePaxaError.InvalidSender 1).
Proof. vm_compute. split_and!; reflexivity. Qed.
End removed_proposer.

(** ** The properties on a concrete recorder *)

Section example.
Import RecorderCore.

Definition ex_config : RecorderConfig.t := RecorderConfig.mk 2 rp_stable RecorderLimits.default.
Definition ex_recorder : t Z := new ex_config.

(** A guard that has every value. *)
Definition ex_available (value_ids : list Z) : Result unit := Ok tt.

Definition ex_request (slot step sender leader : Z) : RecordRequest.t Z :=
  RecordRequest.mk sender slot (Some leader) step
    (Proposal.mk (ProposalKey.new Priority.MAX sender 0) [10 * sender]) [].

Definition ex_served : t Z := (record ex_available (ex_request 1 4 1 1) ex_recorder).1.
Definition ex_pruned : t Z := prune_through ex_served 1.

Lemma reachable_recorder_restarts_witness :
  restore ex_config (snapshot ex_served) = Ok ex_served
  ∧ status ex_served 1 = Some 4.
Proof.
  split; [|vm_compute; reflexivity].
  apply (reachable_recorder_restarts ex_config [OpRecord ex_available (ex_request 1 4 1 1)]).
  - vm_compute. discriminate.
  - vm_compute. discriminate.
  - reflexivity.
Defined.

Lemma leader_binding_exclusive_witness :
  let s := run_ops [OpInform [Decision.mk 2 [5] 3 4]] ex_served in
  is_err (record ex_available (ex_request 1 4 2 2) s).2 = true
  ∧ is_err (record ex_available (ex_request 1 5 2 1) s).2 = false
  ∧ ∀ req s' reply, record ex_available req s = (s', Ok reply) → RecordRequest.slot req = 1 →
      RecordRequest.round_one_leader req = Some 1.
Proof.
  split; [vm_compute; reflexivity|]. split; [vm_compute; reflexivity|]. intros req s' reply Hr Hs.
  eapply (leader_binding_exclusive ex_available (ex_request 1 4 1 1) ex_recorder ex_served _
    [OpInform [Decision.mk 2 [5] 3 4]] ex_available req s' reply).
  - vm_compute. reflexivity.
  - exact Hr.
  - exact Hs.
Defined.

(** A request whose second known decision is invalid: the first one is kept. *)
Definition ex_half_informed : RecordRequest.t Z :=
  RecordRequest.mk 1 3 (Some 1) 4 (Proposal.mk (ProposalKey.new Priority.MAX 1 0) [10])
    [Decision.mk 1 [7] 2 4; Decision.mk 2 [] 2 4].

Lemma record_error_frame_witness :
  let s' := (record ex_available ex_half_informed ex_served).1 in
  decisions s' !! 1 = Some (Decision.mk 1 [7] 2 4)
  ∧ slots s' = slots ex_served ∧ round_one_leaders s' = round_one_leaders ex_served.
Proof.
  split; [vm_compute; reflexivity|].
  destruct (record_error_frame ex_available ex_half_informed ex_served
    (record ex_available ex_half_informed ex_served).1 QuePaxaError.EmptyDecision)
    as (_ & Hslots & Hleaders & _).
  - vm_compute. reflexivity.
  - split; [exact Hslots | exact Hleaders].
Defined.

Lemma record_below_floor_witness :
  record ex_available (ex_request 1 5 2 1) ex_pruned
  = (ex_pruned, Err (QuePaxaError.SlotPruned 1)).
Proof.
  apply (record_below_floor ex_available (ex_request 1 5 2 1) ex_pruned).
  - vm_compute. reflexivity.
  - vm_compute. discriminate.
Defined.
End example.
