(* ===== verification/Durable.v ===== *)
(** * Durable state: atomic files and the durable recorder (src/recorder.rs)

  [save_file] is the write-temporary, sync, rename, sync-directory sequence
  every file store of the crate uses, with its crash points. The durable
  recorder persists before it acknowledges and rolls back when it cannot.
  The store behind it is any [RecorderStateStore]: its laws are what the
  restart theorem relies on, and the in-memory and the file store obey them. *)
From S2P Require Import Prelude Errors Types Membership Isr Recorder.

(** ** Crash points (src/crash.rs) *)

Module CrashPoint.
Inductive t : Type :=
| RecorderTemporaryOpened
| RecorderTemporaryWritten
| RecorderTemporarySynced
| RecorderRenamed
| RecorderDirectorySynced
| RuntimeTemporaryOpened
| RuntimeTemporaryWritten
| RuntimeTemporarySynced
| RuntimeRenamed
| RuntimeDirectorySynced
| BatchTemporaryOpened
| BatchTemporaryWritten
| BatchTemporarySynced
| BatchRenamed
| BatchDirectorySynced
| SubmissionJournalTemporaryOpened
| SubmissionJournalTemporaryWritten
| SubmissionJournalTemporarySynced
| SubmissionJournalRenamed
| SubmissionJournalDirectorySynced
| ExactlyOnceTemporaryOpened
| ExactlyOnceTemporaryWritten
| ExactlyOnceTemporarySynced
| ExactlyOnceRenamed
| ExactlyOnceDirectorySynced.
End CrashPoint.

(** [NoopCrashInjector]. *)
Definition noop_reached (point : CrashPoint.t) : Result unit := Ok tt.

(** ** Files that are replaced atomically *)

Module AtomicFile.
(** One target path and its temporary sibling. [visible] is what a read
    returns now; [survivors] are the contents the path may have after a crash,
    [None] standing for a missing file; [temporary] is the sibling's content
    with a flag saying whether it has been synced. A renamed file that was
    never synced may come back with any content: [Torn]. *)
Inductive content : Type := Missing | Bytes (bytes : list Z) | Torn.

#[global] Instance content_eq_dec : EqDecision content.
Proof. solve_decision. Defined.

Record disk : Type := mk {
  visible : content;
  survivors : list content;
  temporary : option (list Z * bool);
}.

(** The outcomes of the operating system calls of one save: an error message
    or success, and for the write the number of bytes that reached the file. *)
Record io : Type := {
  io_open : option string;
  io_write : option string;
  io_written : nat;
  io_sync : option string;
  io_rename : option string;
  io_sync_parent : option string;
}.

(** The five crash points, in the order they are reached. *)
Record points : Type := {
  opened : CrashPoint.t;
  written : CrashPoint.t;
  synced : CrashPoint.t;
  renamed : CrashPoint.t;
  directory_synced : CrashPoint.t;
}.

Definition attempt (outcome : option string) : Result unit :=
  match outcome with
  | None => Ok tt
  | Some message => Err (QuePaxaError.StorageError message)
  end.

Definition write_temporary (bytes : list Z) (o : io) : M disk QuePaxaError.t unit := λ d,
  match io_write o with
  | None => (mk (visible d) (survivors d) (Some (bytes, false)), Ok tt)
  | Some message => (mk (visible d) (survivors d) (Some (take (io_written o) bytes, false)),
                     Err (QuePaxaError.StorageError message))
  end.

Definition rename (d : disk) : disk :=
  match temporary d with
  | Some (bytes, true) => mk (Bytes bytes) (Bytes bytes :: survivors d) None
  | Some (bytes, false) => mk (Bytes bytes) (Torn :: Bytes bytes :: survivors d) None
  | None => d
  end.

(** The body of [FileRecorderStore::save] and its four siblings. *)
Definition save_file (reached : CrashPoint.t → Result unit) (p : points) (o : io)
    (bytes : list Z) : M disk QuePaxaError.t unit :=
  let* _ := lift (attempt (io_open o)) in
  let* _ := modify (λ d, mk (visible d) (survivors d) (Some ([], false))) in
  let* _ := lift (reached (opened p)) in
  let* _ := write_temporary bytes o in
  let* _ := lift (reached (written p)) in
  let* _ := lift (attempt (io_sync o)) in
  let* _ := modify (λ d, mk (visible d) (survivors d)
                            ((λ '(bytes, _), (bytes, true)) <$> temporary d)) in
  let* _ := lift (reached (synced p)) in
  let* _ := lift (attempt (io_rename o)) in
  let* _ := modify rename in
  let* _ := lift (reached (renamed p)) in
  let* _ := lift (attempt (io_sync_parent o)) in
  let* _ := modify (λ d, mk (visible d) [visible d] (temporary d)) in
  lift (reached (directory_synced p)).

(** After a crash the path holds one of the survivors. *)
Definition after_crash (d : disk) (c : content) : Prop := c ∈ survivors d.

Lemma save_file_outcome reached p o bytes d :
  let '(d', r) := save_file reached p o bytes d in
  (visible d' = visible d ∧ survivors d' = survivors d ∧ is_err r = true)
  ∨ (visible d' = Bytes bytes ∧ survivors d' = Bytes bytes :: survivors d ∧ is_err r = true)
  ∨ (visible d' = Bytes bytes ∧ survivors d' = [Bytes bytes]).
Proof.
  unfold save_file, bind, lift, modify, write_temporary, attempt.
  destruct (io_open o); simpl; [naive_solver|].
  destruct (reached (opened p)); simpl; [|naive_solver].
  destruct (io_write o); simpl; [naive_solver|].
  destruct (reached (written p)); simpl; [|naive_solver].
  destruct (io_sync o); simpl; [naive_solver|].
  destruct (reached (synced p)); simpl; [|naive_solver].
  destruct (io_rename o); simpl; [naive_solver|].
  destruct (reached (renamed p)); simpl; [|naive_solver].
  destruct (io_sync_parent o); simpl; [naive_solver|]. naive_solver.
Qed.

(** C35: a save is atomic at every crash point and under every I/O failure: the
    file then holds the content it could have had before or the complete new
    bytes, never a torn mixture; and an acknowledged save leaves the new bytes
    as the only content a crash can expose. *)
Theorem save_file_atomic reached p o bytes d :
  let '(d', r) := save_file reached p o bytes d in
  (∀ c, after_crash d' c → after_crash d c ∨ c = Bytes bytes)
  ∧ (visible d' = visible d ∨ visible d' = Bytes bytes)
  ∧ (r = Ok tt → visible d' = Bytes bytes ∧ ∀ c, after_crash d' c ↔ c = Bytes bytes).
Proof.
  pose proof (save_file_outcome reached p o bytes d) as Hs. unfold after_crash.
  destruct (save_file reached p o bytes d) as [d' r].
  destruct Hs as [(Hv&->&Hr)|[(Hv&->&Hr)|(Hv&->)]]; (split_and!; [|by auto|]).
  - by left.
  - intros ->. done.
  - intros c [->|?]%elem_of_cons; auto.
  - intros ->. done.
  - intros c ->%list_elem_of_singleton. by right.
  - intros _. split; [done|]. intros c. apply list_elem_of_singleton.
Qed.
End AtomicFile.

(** ** State stores of the recorder *)

Class RecorderStateStore (V S : Type) : Type := {
  store_load : S → S * Result (option (RecorderSnapshot.t V));
  store_save : S → RecorderSnapshot.t V → S * Result unit;
}.

(** What a store promises, in terms of the snapshot a restart would load:
    loading does not change it, an acknowledged save replaces it, and a failed
    save leaves the old or the new snapshot. *)
Class RecorderStateStoreLaws (V S : Type) `{!RecorderStateStore V S}
    (content : S → option (RecorderSnapshot.t V)) : Prop := {
  store_load_content : ∀ s s' o, store_load (V:=V) s = (s', Ok o) →
      o = content s ∧ content s' = content s;
  store_save_Ok : ∀ s s' snap, store_save s snap = (s', Ok tt) → content s' = Some snap;
  store_save_Err : ∀ s s' snap e, store_save s snap = (s', Err e) →
      content s' = content s ∨ content s' = Some snap;
}.

Module InMemoryRecorderStore.
Record t {V : Type} : Type := mk { snapshot : option (RecorderSnapshot.t V) }.
Arguments t : clear implicits.
Arguments mk {V} _.

Definition load {V} (self : t V) : t V * Result (option (RecorderSnapshot.t V)) :=
  (self, Ok (snapshot self)).
Definition save {V} (self : t V) (snap : RecorderSnapshot.t V) : t V * Result unit :=
  (mk (Some snap), Ok tt).
End InMemoryRecorderStore.

#[global] Instance in_memory_recorder_store {V}
    : RecorderStateStore V (InMemoryRecorderStore.t V) := {|
  store_load := InMemoryRecorderStore.load;
  store_save := InMemoryRecorderStore.save;
|}.

#[global] Instance in_memory_recorder_store_laws {V}
    : RecorderStateStoreLaws V (InMemoryRecorderStore.t V) InMemoryRecorderStore.snapshot.
Proof.
  split; simpl.
  - by intros s s' o [= <- <-].
  - by intros s s' snap [= <-].
  - done.
Qed.

(** [FileRecorderStore] over the codec the application supplies. The codec,
    the injector and the outcomes of the system calls of the next save are
    parameters of the store's state. *)
Module FileRecorderStore.
Section ops.
Context {V : Type}.
Context (encode : RecorderSnapshot.t V → Result (list Z)).
Context (decode : list Z → Result (RecorderSnapshot.t V)).

Record t : Type := mk {
  disk : AtomicFile.disk;
  reached : CrashPoint.t → Result unit;
  next_io : list AtomicFile.io;
}.

Definition recorder_points : AtomicFile.points := {|
  AtomicFile.opened := CrashPoint.RecorderTemporaryOpened;
  AtomicFile.written := CrashPoint.RecorderTemporaryWritten;
  AtomicFile.synced := CrashPoint.RecorderTemporarySynced;
  AtomicFile.renamed := CrashPoint.RecorderRenamed;
  AtomicFile.directory_synced := CrashPoint.RecorderDirectorySynced;
|}.

Definition io_success : AtomicFile.io := {|
  AtomicFile.io_open := None; AtomicFile.io_write := None; AtomicFile.io_written := 0%nat;
  AtomicFile.io_sync := None; AtomicFile.io_rename := None; AtomicFile.io_sync_parent := None;
|}.

(** [ErrorKind::NotFound] is [Missing]; a torn file is what the codec makes
    of unreadable bytes: an error. *)
Definition load (self : t) : t * Result (option (RecorderSnapshot.t V)) :=
  (self,
   match AtomicFile.visible (disk self) with
   | AtomicFile.Bytes bytes => let? snapshot := decode bytes in Ok (Some snapshot)
   | AtomicFile.Missing => Ok None
   | AtomicFile.Torn => Err (QuePaxaError.StorageError "could not read recorder state")
   end).

Definition save (self : t) (snapshot : RecorderSnapshot.t V) : t * Result unit :=
  match encode snapshot with
  | Err e => (self, Err e)
  | Ok bytes =>
      let io := default io_success (head (next_io self)) in
      let '(disk', r) := AtomicFile.save_file (reached self) recorder_points io bytes
                                              (disk self) in
      (mk disk' (reached self) (tail (next_io self)), r)
  end.
End ops.
Arguments t : clear implicits.
End FileRecorderStore.

Section file_store_laws.
Context {V : Type}.
Context (encode : RecorderSnapshot.t V → Result (list Z)).
Context (decode : list Z → Result (RecorderSnapshot.t V)).

(** The documented contract of a [RecorderCodec]: what it encodes, it decodes
    back. *)
Hypothesis codec_roundtrip : ∀ snap bytes, encode snap = Ok bytes → decode bytes = Ok snap.

Instance file_recorder_store : RecorderStateStore V FileRecorderStore.t := {|
  store_load := FileRecorderStore.load decode;
  store_save := FileRecorderStore.save encode;
|}.

(** The snapshot a restart would load. *)
Definition file_content (s : FileRecorderStore.t) : option (RecorderSnapshot.t V) :=
  match AtomicFile.visible (FileRecorderStore.disk s) with
  | AtomicFile.Bytes bytes =>
      match decode bytes with Ok snap => Some snap | Err _ => None end
  | _ => None
  end.

Lemma file_recorder_store_laws : RecorderStateStoreLaws V FileRecorderStore.t file_content.
Proof.
  split.
  - intros s s' o. simpl. unfold FileRecorderStore.load, file_content. intros [= <- Hl].
    destruct (AtomicFile.visible _); [by injection Hl as <-| |done].
    destruct (decode bytes); [by injection Hl as <-|done].
  - intros s s' snap. simpl. unfold FileRecorderStore.save.
    destruct (encode snap) as [bytes|] eqn:He; [|done].
    pose proof (AtomicFile.save_file_outcome (FileRecorderStore.reached s)
      FileRecorderStore.recorder_points
      (default FileRecorderStore.io_success (head (FileRecorderStore.next_io s)))
      bytes (FileRecorderStore.disk s)) as Ho.
    destruct (AtomicFile.save_file _ _ _ _ _) as [d' r]. intros [= <- ->].
    unfold file_content; simpl. destruct Ho as [(_&_&?)|[(_&_&?)|(->&_)]]; [done..|].
    by rewrite (codec_roundtrip _ _ He).
  - intros s s' snap e. simpl. unfold FileRecorderStore.save.
    destruct (encode snap) as [bytes|] eqn:He; [|intros [= <- _]; by left].
    pose proof (AtomicFile.save_file_outcome (FileRecorderStore.reached s)
      FileRecorderStore.recorder_points
      (default FileRecorderStore.io_success (head (FileRecorderStore.next_io s)))
      bytes (FileRecorderStore.disk s)) as Ho.
    destruct (AtomicFile.save_file _ _ _ _ _) as [d' r]. intros [= <- ->].
    unfold file_content; simpl. destruct Ho as [(->&_)|[(->&_)|(->&_)]]; [by left|right..].
    + by rewrite (codec_roundtrip _ _ He).
    + by rewrite (codec_roundtrip _ _ He).
Qed.
End file_store_laws.

(** ** The durable recorder *)

Module DurableRecorderCore.
Section ops.
Context {V S : Type} `{EqDecision V} `{!RecorderStateStore V S}.

Record t : Type := mk { core : RecorderCore.t V; store : S }.

Definition new (config : RecorderConfig.t) (store : S) : S * Result t :=
  let '(store', loaded) := store_load store in
  (store',
   let? snapshot := loaded in
   let? core := match snapshot with
                | Some snapshot => RecorderCore.restore config snapshot
                | None => Ok (RecorderCore.new config)
                end in
   Ok (mk core store')).

(** [mutate]: snapshot, run, persist; on either failure put the snapshot back
    into the core, as it is after the mutation. *)
Definition mutate {A} (mutation : M (RecorderCore.t V) QuePaxaError.t A)
    : M t QuePaxaError.t A := λ self,
  let before := RecorderCore.snapshot (core self) in
  match mutation (core self) with
  | (core', Err e) => (mk (RecorderCore.restore_snapshot_state core' before) (store self), Err e)
  | (core', Ok output) =>
      let after := RecorderCore.snapshot core' in
      match store_save (store self) after with
      | (store', Err e) => (mk (RecorderCore.restore_snapshot_state core' before) store', Err e)
      | (store', Ok _) => (mk core' store', Ok output)
      end
  end.

Definition record ensure_available request : M t QuePaxaError.t (RecordReply.t V) :=
  mutate (RecorderCore.record ensure_available request).

Definition record_from ensure_available authenticated_sender request
    : M t QuePaxaError.t (RecordReply.t V) :=
  mutate (RecorderCore.record_from ensure_available authenticated_sender request).

Definition inform_decision decision : M t QuePaxaError.t unit :=
  mutate (RecorderCore.inform_decision decision).

Definition inform_decisions decisions : M t QuePaxaError.t unit :=
  mutate (RecorderCore.inform_decisions decisions).

Definition prune_through slot : M t QuePaxaError.t unit :=
  mutate (modify (λ core, RecorderCore.prune_through core slot)).

Definition install_state_transfer_floor slot : M t QuePaxaError.t unit :=
  mutate (modify (λ core, RecorderCore.install_state_transfer_floor core slot)).

Definition install_membership change : M t QuePaxaError.t unit :=
  mutate (RecorderCore.install_membership change).
End ops.
Arguments t V S : clear implicits.
End DurableRecorderCore.

Section durable.
Context {V S : Type} `{EqDecision V} `{!RecorderStateStore V S}.
Implicit Types self : DurableRecorderCore.t V S.
Import DurableRecorderCore.

(** A mutation that leaves the configuration alone. *)
Definition keeps_config {A} (m : M (RecorderCore.t V) QuePaxaError.t A) : Prop :=
  ∀ c, RecorderCore.config (m c).1 = RecorderCore.config c.

Lemma record_keeps_config ea req : keeps_config (RecorderCore.record ea req).
Proof.
  intros c. destruct (RecorderCore.record ea req c) as [c' [reply|e]] eqn:E; simpl.
  - apply record_Ok in E as (_&_&_&_&mid&(Hc&_)&_&->&_).
    unfold RecorderCore.bind_leader. by destruct (RecorderCore.round_one_leaders mid !! _).
  - apply record_Err_learned in E as (Hc&_). done.
Qed.

Lemma record_from_keeps_config ea a req : keeps_config (RecorderCore.record_from ea a req).
Proof.
  intros c. unfold RecorderCore.record_from.
  destruct (negb _); [done|]. apply record_keeps_config.
Qed.

Lemma inform_keeps_config ds : keeps_config (RecorderCore.inform_decisions ds).
Proof. intros c. apply (inform_all_learned ds c). Qed.

Lemma prune_keeps_config slot :
  keeps_config (modify (λ core, RecorderCore.prune_through core slot)).
Proof. done. Qed.

Lemma restore_state_config (c c' : RecorderCore.t V) :
  RecorderCore.config c' = RecorderCore.config c →
  RecorderCore.restore_snapshot_state c' (RecorderCore.snapshot c) = c.
Proof.
  intros Hc. rewrite <-(restore_snapshot_id c) at 2.
  unfold RecorderCore.restore_snapshot_state. by rewrite Hc.
Qed.

Lemma mutate_Err {A} (m : M _ _ A) self self' e :
  keeps_config m → mutate m self = (self', Err e) → core self' = core self.
Proof.
  intros Hk. unfold mutate. specialize (Hk (core self)).
  destruct (m (core self)) as [c' [a|e']]; simpl in Hk.
  - destruct (store_save _ _) as [st' [|]]; [done|]. intros [= <- _]. simpl.
    by apply restore_state_config.
  - intros [= <- _]. simpl. by apply restore_state_config.
Qed.

Lemma mutate_Ok {A} (m : M _ _ A) self self' a :
  mutate m self = (self', Ok a) →
  m (core self) = (core self', Ok a)
  ∧ ∃ u, store_save (store self) (RecorderCore.snapshot (core self')) = (store self', Ok u).
Proof.
  unfold mutate. destruct (m (core self)) as [c' [b|e']]; [|done].
  destruct (store_save _ _) as [st' [u|]] eqn:Es; [|done]. intros [= <- <-]. eauto.
Qed.

(** The durable operations, except the reconfiguration. *)
Inductive durable_op : ∀ {A : Type}, M (t V S) QuePaxaError.t A → Prop :=
| DurableRecord ea req : durable_op (record ea req)
| DurableRecordFrom ea a req : durable_op (record_from ea a req)
| DurableInformDecision d : durable_op (inform_decision d)
| DurableInformDecisions ds : durable_op (inform_decisions ds)
| DurablePrune slot : durable_op (prune_through slot)
| DurableFloor slot : durable_op (install_state_transfer_floor slot).

Lemma durable_op_core {A} (op : M (t V S) QuePaxaError.t A) :
  durable_op op →
  ∃ m : M (RecorderCore.t V) QuePaxaError.t A,
    op = mutate m ∧ keeps_config m ∧ preserves recorder_inv m.
Proof.
  intros Hop. destruct Hop; (eexists; split; [done|split]).
  - apply record_keeps_config.
  - intros c. apply record_inv.
  - apply record_from_keeps_config.
  - intros c Hc. unfold RecorderCore.record_from. destruct (negb _); [done|]. by apply record_inv.
  - intros c. apply (inform_decision_learned d c).
  - intros c. apply inform_decision_inv.
  - apply inform_keeps_config.
  - intros c. apply inform_all_inv.
  - apply prune_keeps_config.
  - intros c. apply prune_inv.
  - apply prune_keeps_config.
  - intros c. apply prune_inv.
Qed.

(** C34: no state that was never persisted is retained: when a durable
    operation other than a reconfiguration fails, whether the mutation or the
    save failed, the recorder is exactly as before. *)
Theorem durable_error_rolls_back {A} (op : M (t V S) QuePaxaError.t A) self self' e :
  durable_op op → op self = (self', Err e) → core self' = core self.
Proof.
  intros Hop Hrun. destruct (durable_op_core op Hop) as (m & -> & Hk & _).
  by eapply mutate_Err.
Qed.

(** A snapshot that [restore] accepts satisfies the invariant, under the
    configuration it was accepted for. *)
Lemma restore_inv config snap (c : RecorderCore.t V) :
  RecorderCore.restore config snap = Ok c → recorder_inv c.
Proof.
  intros Hr. pose proof (restore_Ok _ _ _ Hr) as ->. revert Hr. unfold RecorderCore.restore.
  destruct (negb (bool_decide _)); [done|].
  destruct (Z.ltb_spec (RecorderLimits.max_active_slots (RecorderConfig.limits config))
              (count (RecorderSnapshot.slots snap))) as [|Hsc]; [done|].
  destruct (Z.ltb_spec (RecorderLimits.max_decisions (RecorderConfig.limits config))
              (count (RecorderSnapshot.decisions snap))) as [|Hdc]; [done|].
  destruct (try_each _ (entries _)) as [[]|] eqn:Hd; [|done].
  destruct (existsb _ (keys _)) eqn:Hf; [done|].
  destruct (negb (bool_decide _)) eqn:Hk; [done|].
  destruct (existsb _ (omap _ _)) eqn:Hl; [done|].
  destruct (try_each _ (values _)) as [[]|] eqn:Hi; [|done]. intros _.
  rewrite try_each_Ok, Forall_entries in Hd. rewrite existsb_false in Hf, Hl.
  apply negb_false_iff, bool_decide_eq_true in Hk.
  pose proof (proj1 (keys_eq _ _) Hk) as Hkeys. rewrite try_each_Ok, Forall_forall in Hi.
  split; unfold RecorderCore.limits; simpl.
  - intros i. by rewrite lookup_fmap, fmap_is_Some, Hkeys.
  - intros i r. rewrite lookup_fmap_Some. intros (v & <- & Hv). split.
    + apply Z.leb_gt, Hf, elem_of_keys. by eexists.
    + apply validate_isr_snapshot_Ok. rewrite <-(Hi v) by (apply elem_of_values; by eexists).
      by destruct v.
  - intros i l Hil. apply negb_false_iff, Hl, list_elem_of_omap. exists (Some l).
    split; [apply elem_of_values; by eexists|done].
  - intros i d Hid. specialize (Hd i d Hid). simpl in Hd.
    destruct (Z.eqb_spec i (Decision.slot d)) as [->|]; [|done].
    destruct (Z.leb_spec (Decision.slot d) (RecorderSnapshot.pruned_through snap)); [done|].
    split_and!; [done..|]. by rewrite <-Hd; apply validate_decision_config.
  - unfold count in *. by rewrite map_size_fmap.
  - done.
Qed.

(** Every call that changes a durable recorder; a reconfiguration enters a
    joint epoch. *)
Inductive durable_call : ∀ {A : Type}, M (t V S) QuePaxaError.t A → Prop :=
| CallOp {A} (op : M (t V S) QuePaxaError.t A) : durable_op op → durable_call op
| CallInstall change :
    ClusterIdentity.is_joint (MembershipChange.next change) = true →
    durable_call (install_membership change).

(** A recorder in service: opened on a store, empty or not, and called. *)
Inductive serving : t V S → Prop :=
| ServingNew config store store' self :
    0 ≤ RecorderLimits.max_active_slots (RecorderConfig.limits config) →
    0 ≤ RecorderLimits.max_decisions (RecorderConfig.limits config) →
    new config store = (store', Ok self) → serving self
| ServingCall {A} (op : M (t V S) QuePaxaError.t A) self self' r :
    serving self → durable_call op → op self = (self', r) → serving self'.

Lemma new_recorder_inv config st st' self :
  0 ≤ RecorderLimits.max_active_slots (RecorderConfig.limits config) →
  0 ≤ RecorderLimits.max_decisions (RecorderConfig.limits config) →
  new config st = (st', Ok self) → recorder_inv (core self).
Proof.
  intros Ha Hd. unfold new. destruct (store_load st) as [st1 [[snap|]|]]; [| |done].
  - simpl. destruct (RecorderCore.restore config snap) as [c|] eqn:Hr; [|done].
    intros [= _ <-]. by eapply restore_inv.
  - simpl. intros [= _ <-]. by apply new_inv.
Qed.

(** The call is [mutate] of an operation that keeps the invariant, and what a
    failure puts back satisfies it too. *)
Lemma durable_call_core {A} (op : M (t V S) QuePaxaError.t A) :
  durable_call op →
  ∃ m : M (RecorderCore.t V) QuePaxaError.t A, op = mutate m ∧ preserves recorder_inv m
    ∧ ∀ c, recorder_inv c →
        recorder_inv (RecorderCore.restore_snapshot_state (m c).1 (RecorderCore.snapshot c)).
Proof.
  destruct 1 as [A op Hop|change Hj].
  - destruct (durable_op_core op) as (m & -> & Hk & Hp); [done|].
    exists m. split_and!; [done..|]. intros c Hc. by rewrite restore_state_config.
  - exists (RecorderCore.install_membership change).
    split_and!; [done|intros c; by apply install_joint_inv|]. intros c Hc.
    pose proof (install_joint_inv change c Hj Hc) as Hc'.
    destruct (RecorderCore.install_membership change c) as [c' r] eqn:E. simpl in *.
    apply install_membership_cases in E as [->|(_&_&_&_&_&->)]; [by rewrite restore_snapshot_id|].
    set (c' := RecorderCore.mk _ _ _ _ _) in *.
    by rewrite (restore_snapshot_id c' : RecorderCore.restore_snapshot_state c' (RecorderCore.snapshot c) = c').
Qed.

Lemma serving_inv self : serving self → recorder_inv (core self).
Proof.
  induction 1 as [config st st' self Ha Hd Hnew|A op self self' r _ IH Hop Hrun].
  - by eapply new_recorder_inv.
  - destruct (durable_call_core op Hop) as (m & -> & Hp & Hback). specialize (Hp _ IH).
    specialize (Hback _ IH). unfold mutate in Hrun.
    destruct (m (core self)) as [c [a|e]]; [destruct (store_save _ _) as [st [u|e]]|];
      by injection Hrun as <- _.
Qed.

(** C33: persist before acknowledge: when a recorder in service answers [Ok] to
    any call that changes it, a process that crashes and reopens the store
    under the configuration the recorder then has resumes with exactly the
    acknowledged state. The calls are those of [durable_op] and
    [install_membership] into a joint epoch; a recorder that left a joint epoch
    for a final one may reject its own snapshot
    ([finalized_recorder_cannot_restart]). In service is a recorder that was
    opened on any store its [new] accepted and has served such calls, failed
    ones included. *)
Theorem durable_ack_survives_restart {A} (op : M (t V S) QuePaxaError.t A)
    content `{!RecorderStateStoreLaws V S content} self self' a st o :
  serving self → durable_call op → op self = (self', Ok a) →
  store_load (store self') = (st, Ok o) →
  new (RecorderCore.config (core self')) (store self') = (st, Ok (mk (core self') st)).
Proof.
  intros Hself Hop Hrun Hload. pose proof (serving_inv _ (ServingCall op self self' _ Hself Hop Hrun)) as Hinv.
  destruct (durable_call_core op Hop) as (m & -> & _).
  apply mutate_Ok in Hrun as [_ ([] & Hs)]. apply store_save_Ok in Hs.
  pose proof (store_load_content _ _ _ Hload) as [-> _].
  unfold new. rewrite Hload, Hs. by rewrite restore_snapshot_roundtrip.
Qed.
End durable.

(** ** A reconfiguration that is not rolled back *)

Section failed_reconfiguration.
Import DurableRecorderCore.

(** A store whose disk is full. *)
Instance full_disk : RecorderStateStore Z unit := {|
  store_load := λ _, (tt, Ok None);
  store_save := λ _ _, (tt, Err (QuePaxaError.StorageError "simulated disk failure"));
|}.

Definition fr_recorder : t Z unit :=
  mk (run_ops [OpInform [rp_first]]
        (RecorderCore.new (RecorderConfig.mk 2 rp_stable RecorderLimits.default))) tt.

Definition fr_change : MembershipChange.t Z := MembershipChange.mk rp_first rp_joint 99.

(** [install_membership] escapes the rollback: when its save fails the
    error is returned, but the in-memory recorder keeps serving in the new
    epoch that was never persisted, because the snapshot that is put back does
    not restore the cluster. *)
Theorem failed_reconfiguration_is_not_rolled_back :
  let '(after, r) := install_membership fr_change fr_recorder in
  r = Err (QuePaxaError.StorageError "simulated disk failure")
  ∧ RecorderCore.cluster (core fr_recorder) = rp_stable
  ∧ RecorderCore.cluster (core after) = rp_joint.
Proof. vm_compute. split_and!; reflexivity. Qed.
End failed_reconfiguration.

(** ** The properties on a concrete durable recorder *)

Section example.
Import DurableRecorderCore.

(** A disk that fails on its first save, then works. *)
Instance flaky_disk : RecorderStateStore Z (bool * option (RecorderSnapshot.t Z)) := {|
  store_load := λ s : bool * option (RecorderSnapshot.t Z), (s, Ok s.2);
  store_save := λ (s : bool * option (RecorderSnapshot.t Z)) snap,
    if s.1 then ((true, Some snap), Ok tt)
    else ((true, s.2), Err (QuePaxaError.StorageError "simulated disk failure"));
|}.

Definition ex_flaky : t Z (bool * option (RecorderSnapshot.t Z)) := mk ex_recorder (false, None).

Lemma durable_error_rolls_back_witness :
  let '(after, r) := record ex_available (ex_request 1 4 1 1) ex_flaky in
  r = Err (QuePaxaError.StorageError "simulated disk failure") ∧ core after = ex_recorder.
Proof.
  destruct (record ex_available (ex_request 1 4 1 1) ex_flaky) as [after r] eqn:E.
  assert (r = Err (QuePaxaError.StorageError "simulated disk failure")) as ->.
  { change r with (after, r).2. rewrite <-E. vm_compute. reflexivity. }
  split; [reflexivity|].
  apply (durable_error_rolls_back (record ex_available (ex_request 1 4 1 1)) ex_flaky after
    (QuePaxaError.StorageError "simulated disk failure")).
  - apply DurableRecord.
  - exact E.
Defined.

(** Decision 1 is learnt and the recorder enters the
    joint epoch: reopened, it is there. *)
Definition ex_joint : t Z (InMemoryRecorderStore.t Z) :=
  (install_membership fr_change
     (inform_decisions [rp_first] (mk (RecorderCore.new (RecorderConfig.mk 2 rp_stable RecorderLimits.default))
        (InMemoryRecorderStore.mk None))).1).1.

Lemma durable_ack_survives_restart_witness :
  RecorderCore.cluster (core ex_joint) = rp_joint
  ∧ new (RecorderCore.config (core ex_joint)) (store ex_joint) = (store ex_joint, Ok ex_joint).
Proof.
  split; [vm_compute; reflexivity|].
  eapply (durable_ack_survives_restart (install_membership fr_change) InMemoryRecorderStore.snapshot).
  - eapply ServingCall; [|apply CallOp, (DurableInformDecisions [rp_first])|apply surjective_pairing].
    apply (ServingNew (RecorderConfig.mk 2 rp_stable RecorderLimits.default)
      (InMemoryRecorderStore.mk None) (InMemoryRecorderStore.mk None)); vm_compute; done.
  - by apply CallInstall.
  - vm_compute. reflexivity.
  - reflexivity.
Defined.
End example.
