(* ===== verification/Proposer.v ===== *)
(** * The proposer (src/proposer.rs)

  Priority sources, recorder validation, quorum collection and Algorithm 4.
  The environment of [propose] (worker threads, channels, clocks) is an
  explicit argument: for every batch of requests it says which workers were
  launched and in which order their results, a timeout or a disconnection
  reach the receiver. *)
From S2P Require Import Prelude Errors Types Membership.

(** ** Priority sources *)

Class PrioritySource (R : Type) : Type :=
  next_below : R → Z → R * Result Z.

(** The contract of the trait: a private priority below the exclusive bound
    (and above the reserved zero). *)
Class PrioritySourceLaws (R : Type) `{!PrioritySource R} : Prop :=
  next_below_range : ∀ r upper r' p, next_below r upper = (r', Ok p) → 1 ≤ p < upper.

Definition priority_range_error : QuePaxaError.t :=
  QuePaxaError.InvalidProposal "priority range must reserve zero and the leader priority".

Module OsRandom.
(** The bytes /dev/urandom will deliver: a stream of 64-bit draws, each a
    number or a read error. [next_below] consumes draws until one is below the
    cutoff; the finite list bounds how many are looked at, and running out of
    it is reported as a read error. *)
Definition t : Type := list (Result Z).

Definition unavailable : QuePaxaError.t :=
  QuePaxaError.TransportError "OS randomness unavailable".

Definition range (upper : Z) : Z := upper - 1.
Definition cutoff (upper : Z) : Z := U64.MAX - U64.MAX mod range upper.

Fixpoint sample (upper : Z) (draws : t) : t * Result Z :=
  match draws with
  | [] => ([], Err unavailable)
  | Err e :: draws => (draws, Err e)
  | Ok value :: draws =>
      if value <? cutoff upper then (draws, Ok (value mod range upper + 1))
      else sample upper draws
  end.

Definition next_below (draws : t) (upper : Z) : t * Result Z :=
  if upper <=? 1 then (draws, Err priority_range_error) else sample upper draws.
End OsRandom.

#[global] Instance os_random_source : PrioritySource OsRandom.t := OsRandom.next_below.

Module XorShift64.
Definition t : Type := Z.

Definition mix_seed (value : Z) : Z :=
  let value := Z.lxor value (U64.shr value 30) in
  let value := U64.wrapping_mul value 0xbf58476d1ce4e5b9 in
  let value := Z.lxor value (U64.shr value 27) in
  let value := U64.wrapping_mul value 0x94d049bb133111eb in
  Z.lxor value (U64.shr value 31).

Definition new (seed : Z) : t := Z.max seed 1.

Definition new_for_stream (seed replica_id lane_id : Z) : t :=
  new (mix_seed (Z.lxor (Z.lxor seed (U64.wrapping_mul replica_id 0x9e3779b97f4a7c15))
                        (U64.wrapping_mul lane_id 0xbf58476d1ce4e5b9))).

Definition scramble (x : Z) : Z :=
  let x := Z.lxor x (U64.shl x 13) in
  let x := Z.lxor x (U64.shr x 7) in
  Z.lxor x (U64.shl x 17).

Definition next_below (state : t) (upper : Z) : t * Result Z :=
  if upper <=? 1 then (state, Err priority_range_error)
  else let x := scramble state in (x, Ok (x mod (upper - 1) + 1)).
End XorShift64.

#[global] Instance xorshift_source : PrioritySource XorShift64.t := XorShift64.next_below.

(** ** Recorder endpoints *)

Module RecorderHandle.
(** The identity and the in-flight flag of an endpoint; the client behind it
    belongs to the environment. *)
Record t : Type := mk { id : ReplicaId; in_flight : bool }.

Definition new (id : ReplicaId) : t := mk id false.
Definition is_idle (self : t) : bool := negb (in_flight self).

(** [compare_exchange(false, true).is_ok()]. *)
Definition try_begin (self : t) : t * bool :=
  if in_flight self then (self, false) else (mk (id self) true, true).
Definition release (self : t) : t := mk (id self) false.

(** How the worker of an auxiliary call ends: its thread does not start, it
    answers (a panic or a poisoned client lock is an error answer), it is
    still running at the timeout, or it exits without an answer. *)
Inductive worker (A : Type) : Type :=
| NotStarted
| Answered (result : Result A)
| Overdue
| Exited.
Arguments NotStarted {A}.
Arguments Answered {A} _.
Arguments Overdue {A}.
Arguments Exited {A}.

(** The endpoint's flag afterwards and the answer. An overdue worker keeps
    the in-flight guard. *)
Definition call_with_timeout {A} (self : t) (outcome : worker A) : t * Result A :=
  let '(begun, won) := try_begin self in
  if negb won
  then (begun, Err (QuePaxaError.TransportError
                      ("recorder " +:+ pretty (id self) +:+ " already has an RPC in flight")))
  else match outcome with
  | NotStarted =>
      (release begun, Err (QuePaxaError.TransportError "could not start recorder RPC worker"))
  | Answered result => (release begun, result)
  | Overdue =>
      (begun, Err (QuePaxaError.TransportError "recorder RPC exceeded its transport timeout"))
  | Exited =>
      (release begun, Err (QuePaxaError.TransportError
                             "recorder RPC worker exited without a response"))
  end.
End RecorderHandle.

Module ProposerConfig.
Record t : Type := mk {
  max_steps : Z;
  quorum : option Z;
  cluster : option ClusterIdentity.t;
  rpc_timeout : Z;
}.

(** Durations are in nanoseconds. *)
Definition default : t := mk 1027 None None 30000000000.
End ProposerConfig.

(** ** Quorums of replies *)

Definition quorum_size (replica_count : Z) : Result Z :=
  reject replica_count =? 0 with QuePaxaError.EmptyCluster ;;
  Ok (replica_count / 2 + 1).

(** [members.insert] over the recorders: the first repeated identity. *)
Fixpoint first_duplicate (seen : list Z) (l : list Z) : option Z :=
  match l with
  | [] => None
  | x :: l => if bool_decide (x ∈ seen) then Some x else first_duplicate (x :: seen) l
  end.

Definition validate_recorders (recorders : list ReplicaId) (proposer : ReplicaId)
    (configured_quorum : option Z) (expected_cluster : option ClusterIdentity.t) : Result Z :=
  let? majority := quorum_size (len recorders) in
  match first_duplicate [] recorders with
  | Some duplicate => Err (QuePaxaError.DuplicateReplica duplicate)
  | None =>
  reject negb (bool_decide (proposer ∈ recorders))
    with QuePaxaError.UnknownReplica proposer ;;
  let? _ :=
    match expected_cluster with
    | Some cluster =>
        reject negb (bool_decide ((list_to_set recorders : gset Z)
                                  = list_to_set (ClusterIdentity.members cluster)))
          with QuePaxaError.ConfigurationMismatch ;;
        reject negb (bool_decide (configured_quorum = Some (ClusterIdentity.quorum_size cluster)))
          with QuePaxaError.InvalidQuorum (len recorders) (default majority configured_quorum) ;;
        Ok tt
    | None => Ok tt
    end in
  match configured_quorum with
  | Some quorum =>
      reject (quorum <? majority) || (len recorders <? quorum)
        with QuePaxaError.InvalidQuorum (len recorders) quorum ;;
      Ok quorum
  | None => Ok majority
  end
  end.

Section replies.
Context {V : Type}.

Definition quorum_reached (replies : list (RecordReply.t V)) (quorum : Z)
    (expected_cluster : option ClusterIdentity.t) : bool :=
  match expected_cluster with
  | None => quorum <=? len replies
  | Some cluster => ClusterIdentity.has_quorum cluster (RecordReply.recorder <$> replies)
  end.

Definition reply_first (reply : RecordReply.t V) : option (Proposal.t V) :=
  RecordSummary.first (RecordReply.summary reply).
Definition reply_prior (reply : RecordReply.t V) : option (Proposal.t V) :=
  RecordSummary.prior_aggregate (RecordReply.summary reply).
Definition reply_step (reply : RecordReply.t V) : Z :=
  RecordSummary.step (RecordReply.summary reply).

Definition fast_path_winner (step : Z) (replies : list (RecordReply.t V))
    (leader : option ReplicaId) : option (Proposal.t V) :=
  if negb (step =? Step.ROUND_ONE_PHASE_ZERO) then None
  else match head replies ≫= reply_first with
  | None => None
  | Some winner =>
      if negb (Priority.is_leader_priority (ProposalKey.priority (Proposal.key winner))) then None
      else if negb (bool_decide (leader = Some (ProposalKey.proposer_id (Proposal.key winner))))
      then None
      else if forallb (λ reply, match reply_first reply with
                                | Some proposal =>
                                    bool_decide (Proposal.key proposal = Proposal.key winner)
                                | None => false
                                end) replies
      then Some winner else None
  end.

(** What the receiving end of the reply channel sees. *)
Inductive event : Type :=
| Arrival (expected : ReplicaId) (result : Result (RecordReply.t V))
| TimedOut
| Disconnected.

(** Errors that end the collection at once. *)
Definition is_fatal (e : QuePaxaError.t) : bool :=
  match e with
  | QuePaxaError.ConflictingDecision _ | QuePaxaError.SlotPruned _
  | QuePaxaError.ScheduleMismatch _ | QuePaxaError.ConfigurationMismatch => true
  | _ => false
  end.

(** The [while] loop of [collect_quorum]. The deadline makes a receive that
    never completes a timeout, so an exhausted event list is one. *)
Fixpoint collect (quorum : Z) (expected_cluster : option ClusterIdentity.t)
    (replies : list (RecordReply.t V)) (seen : list ReplicaId) (pending : Z)
    (events : list event) : Result (list (RecordReply.t V)) :=
  if quorum_reached replies quorum expected_cluster then Ok replies
  else match events with
  | [] | TimedOut :: _ => Err (QuePaxaError.QuorumNotReached quorum (len replies))
  | Disconnected :: _ =>
      Err (QuePaxaError.TransportError "all recorder workers exited before replying")
  | Arrival expected (Ok reply) :: events =>
      reject negb (RecordReply.recorder reply =? expected)
        with QuePaxaError.InvalidRecorderReply expected (RecordReply.recorder reply) ;;
      reject match expected_cluster with
             | Some cluster => negb (bool_decide (RecordReply.cluster reply = cluster))
             | None => false
             end
        with QuePaxaError.ConfigurationMismatch ;;
      reject bool_decide (RecordReply.recorder reply ∈ seen)
        with QuePaxaError.DuplicateRecorderReply (RecordReply.recorder reply) ;;
      collect quorum expected_cluster (replies ++ [reply]) (RecordReply.recorder reply :: seen)
              (pending - 1) events
  | Arrival expected (Err error) :: events =>
      reject is_fatal error with error ;;
      reject len replies + (pending - 1) <? quorum
        with QuePaxaError.QuorumNotReached quorum (len replies) ;;
      collect quorum expected_cluster replies seen (pending - 1) events
  end.

(** What the operating system and the clock do to one call of
    [collect_quorum]: which endpoints still have an RPC outstanding, which
    worker threads start, whether the deadline is representable, and what the
    receiver sees. *)
Record phase_io : Type := PhaseIo {
  busy : ReplicaId → bool;
  spawns : ReplicaId → bool;
  deadline_fits : bool;
  events : list event;
}.

(** The [for] loop that starts one worker per idle endpoint: [try_begin]
    skips a busy endpoint, a failed spawn releases it. Returns the flags left
    behind and the requests under way. *)
Fixpoint launch (spawned : ReplicaId → bool)
    (requests : list (RecorderHandle.t * RecordRequest.t V))
    : list RecorderHandle.t * list (ReplicaId * RecordRequest.t V) :=
  match requests with
  | [] => ([], [])
  | (recorder, request) :: requests =>
      let '(handles, under_way) := launch spawned requests in
      let '(begun, won) := RecorderHandle.try_begin recorder in
      if negb won then (begun :: handles, under_way)
      else if spawned (RecorderHandle.id recorder)
      then (begun :: handles, (RecorderHandle.id recorder, request) :: under_way)
      else (RecorderHandle.release begun :: handles, under_way)
  end.

Definition collect_quorum (requests : list (ReplicaId * RecordRequest.t V)) (quorum : Z)
    (expected_cluster : option ClusterIdentity.t) (io : phase_io)
    : Result (list (RecordReply.t V)) :=
  let handles := (λ kr, (RecorderHandle.mk kr.1 (busy io kr.1), kr.2)) <$> requests in
  let launched := len (launch (spawns io) handles).2 in
  reject launched <? quorum with QuePaxaError.QuorumNotReached quorum launched ;;
  reject negb (deadline_fits io)
    with QuePaxaError.TransportError "recorder RPC timeout exceeds the clock range" ;;
  collect quorum expected_cluster [] [] launched (events io).
End replies.
Arguments event V : clear implicits.
Arguments phase_io V : clear implicits.

(** ** Algorithm 4 *)

Section algorithm.
Context {V : Type} `{EqDecision V}.

(** [iter().find_map(|reply| reply.decision.as_ref())]. *)
Fixpoint find_decision (replies : list (RecordReply.t V)) : option (Decision.t V) :=
  match replies with
  | [] => None
  | reply :: replies =>
      match RecordReply.decision reply with
      | Some decision => Some decision
      | None => find_decision replies
      end
  end.

(** [iter().max_by_key(|reply| reply.summary.step)]: the last maximal one. *)
Definition max_by_step (replies : list (RecordReply.t V)) : option (RecordReply.t V) :=
  fold_left (λ best reply,
    match best with
    | Some current => if reply_step reply <? reply_step current then Some current else Some reply
    | None => Some reply
    end) replies None.

(** The phase of [step] over a quorum that answered at [step]: a decision, or
    the proposal to carry on with. *)
Definition phase_outcome (slot : SlotIndex) (leader : option ReplicaId) (step : Z)
    (proposal : Proposal.t V) (replies : list (RecordReply.t V))
    : Result (Decision.t V + Proposal.t V) :=
  if Step.phase step =? 0 then
    match fast_path_winner step replies leader with
    | Some winner =>
        let? decision := Decision.new slot (Proposal.value_ids winner)
                           (ProposalKey.proposer_id (Proposal.key winner)) step in
        Ok (inl decision)
    | None =>
        let? proposal := ok_or (max_proposal_by_key (omap reply_first replies))
                               QuePaxaError.MissingProposal in
        Ok (inr proposal)
    end
  else if Step.phase step =? 1 then Ok (inr proposal)
  else if Step.phase step =? 2 then
    match max_proposal_by_key (omap reply_prior replies) with
    | Some max_prior =>
        if bool_decide (proposal = max_prior) then
          let? decision := Decision.new slot (Proposal.value_ids proposal)
                             (ProposalKey.proposer_id (Proposal.key proposal)) step in
          Ok (inl decision)
        else Ok (inr proposal)
    | None => Ok (inr proposal)
    end
  else
    match max_proposal_by_key (omap reply_prior replies) with
    | Some max_prior => Ok (inr max_prior)
    | None => Ok (inr proposal)
    end.

(** The body of the loop after the replies are in: a decision, or the step
    and the proposal of the next iteration. *)
Definition advance (slot : SlotIndex) (leader : option ReplicaId) (step : Z)
    (proposal : Proposal.t V) (replies : list (RecordReply.t V))
    : Result (Decision.t V + Z * Proposal.t V) :=
  match find_decision replies with
  | Some decision =>
      reject negb (Decision.slot decision =? slot) || is_empty (Decision.value_ids decision)
        with QuePaxaError.InvalidProposal "recorder reported a decision for a different slot" ;;
      Ok (inl decision)
  | None =>
      if forallb (λ reply, reply_step reply =? step) replies then
        let? outcome := phase_outcome slot leader step proposal replies in
        match outcome with
        | inl decision => Ok (inl decision)
        | inr proposal =>
            let? step := ok_or (Step.checked_next step) QuePaxaError.StepOverflow in
            Ok (inr (step, proposal))
        end
      else
        match max_by_step replies with
        | Some reply =>
            if step <? reply_step reply then
              let? proposal := ok_or (reply_first reply) QuePaxaError.MissingProposal in
              Ok (inr (reply_step reply, proposal))
            else Ok (inr (step, proposal))
        | None => Ok (inr (step, proposal))
        end
  end.
End algorithm.

Module ProposerCore.
Record t {R : Type} : Type := mk {
  replica_id : ReplicaId;
  lane_id : LaneId;
  rng : R;
  config : ProposerConfig.t;
}.
Arguments t : clear implicits.
Arguments mk {R} _ _ _ _.

Section config.
Context {R : Type}.
Implicit Types self : t R.

Definition with_rng (replica_id : ReplicaId) (lane_id : LaneId) (rng : R) : t R :=
  mk replica_id lane_id rng ProposerConfig.default.

Definition with_config self (config : ProposerConfig.t) : t R :=
  mk (replica_id self) (lane_id self) (rng self) config.

Definition with_quorum self (quorum : Z) : t R :=
  with_config self (ProposerConfig.mk (ProposerConfig.max_steps (config self)) (Some quorum)
    (ProposerConfig.cluster (config self)) (ProposerConfig.rpc_timeout (config self))).

Definition configure_cluster self (cluster : ClusterIdentity.t) : t R :=
  with_config self (ProposerConfig.mk (ProposerConfig.max_steps (config self))
    (Some (ClusterIdentity.quorum_size cluster)) (Some cluster)
    (ProposerConfig.rpc_timeout (config self))).

Definition with_cluster self (cluster : ClusterIdentity.t) : t R :=
  configure_cluster self cluster.

(** At least one millisecond. *)
Definition with_rpc_timeout self (timeout : Z) : t R :=
  with_config self (ProposerConfig.mk (ProposerConfig.max_steps (config self))
    (ProposerConfig.quorum (config self)) (ProposerConfig.cluster (config self))
    (Z.max timeout 1000000)).

Definition configured_quorum self : option Z := ProposerConfig.quorum (config self).
Definition set_rng self (rng : R) : t R :=
  mk (replica_id self) (lane_id self) rng (config self).
End config.

Section propose.
Context {R : Type} `{!PrioritySource R} {V : Type} `{EqDecision V}.
Implicit Types self : t R.

(** The reserved priority goes out only in round one, from the leader itself. *)
Definition randomizes self (leader : option ReplicaId) (step : Z) : bool :=
  (Step.phase step =? 0)
  && ((Step.ROUND_ONE_PHASE_ZERO <? step) || negb (bool_decide (leader = Some (replica_id self)))).

Definition proposal_for self (leader : option ReplicaId) (step : Z) (proposal : Proposal.t V)
    : t R * Result (Proposal.t V) :=
  if randomizes self leader step then
    let '(rng', priority) := next_below (rng self) Priority.MAX in
    (set_rng self rng',
     let? priority := priority in Ok (Proposal.with_priority proposal priority))
  else (self, Ok proposal).

Fixpoint phase_requests self (slot : SlotIndex) (leader : option ReplicaId)
    (known_decisions : list (Decision.t V)) (step : Z) (proposal : Proposal.t V)
    (recorders : list ReplicaId) : t R * Result (list (ReplicaId * RecordRequest.t V)) :=
  match recorders with
  | [] => (self, Ok [])
  | recorder :: recorders =>
      match proposal_for self leader step proposal with
      | (self, Err e) => (self, Err e)
      | (self, Ok proposal_for_recorder) =>
          let request := RecordRequest.mk (replica_id self) slot leader step
                           proposal_for_recorder known_decisions in
          let '(self, rest) :=
            phase_requests self slot leader known_decisions step proposal recorders in
          (self, let? rest := rest in Ok ((recorder, request) :: rest))
      end
  end.

(** The checks of [propose] before the loop, and its first proposal. *)
Definition prepare self (value_ids : list V) (leader : option ReplicaId)
    (recorders : list ReplicaId) (known_decisions : list (Decision.t V))
    : Result (Z * Proposal.t V) :=
  let? quorum := validate_recorders recorders (replica_id self)
                   (ProposerConfig.quorum (config self))
                   (ProposerConfig.cluster (config self)) in
  let? _ :=
    match leader with
    | Some leader =>
        reject negb (existsb (λ recorder, recorder =? leader) recorders)
          with QuePaxaError.UnknownReplica leader ;;
        Ok tt
    | None => Ok tt
    end in
  let? _ := try_each (λ decision,
    reject negb (existsb (λ recorder, recorder =? Decision.proposer decision) recorders)
      with QuePaxaError.InvalidSender (Decision.proposer decision) ;;
    Ok tt) known_decisions in
  let? proposal := Proposal.new (ProposalKey.new Priority.MAX (replica_id self) (lane_id self))
                                value_ids in
  Ok (quorum, proposal).

(** The transport, the scheduler and the clock: from the requests of a phase
    to what that phase's collection sees. *)
Context {X : Type} (network : X → list (ReplicaId * RecordRequest.t V) → X * phase_io V).

(** The loop. [None] is an exhausted fuel, which the termination theorem
    excludes; the proposer and the network state come back on every path. *)
Fixpoint drive (fuel : nat) self (x : X) (slot : SlotIndex) (leader : option ReplicaId)
    (recorders : list ReplicaId) (quorum : Z) (known_decisions : list (Decision.t V))
    (step : Z) (proposal : Proposal.t V) : t R * X * option (Result (Decision.t V)) :=
  let limit := ProposerConfig.max_steps (config self) in
  if limit <? step then (self, x, Some (Err (QuePaxaError.StepLimitExceeded limit)))
  else match fuel with
  | O => (self, x, None)
  | S fuel =>
      match phase_requests self slot leader known_decisions step proposal recorders with
      | (self, Err e) => (self, x, Some (Err e))
      | (self, Ok requests) =>
          let '(x, io) := network x requests in
          match (let? replies := collect_quorum requests quorum
                                   (ProposerConfig.cluster (config self)) io in
                 advance slot leader step proposal replies) with
          | Err e => (self, x, Some (Err e))
          | Ok (inl decision) => (self, x, Some (Ok decision))
          | Ok (inr (step, proposal)) =>
              drive fuel self x slot leader recorders quorum [] step proposal
          end
      end
  end.

Definition propose (fuel : nat) self (x : X) (slot : SlotIndex) (value_ids : list V)
    (leader : option ReplicaId) (recorders : list ReplicaId)
    (known_decisions : list (Decision.t V)) : t R * X * option (Result (Decision.t V)) :=
  match prepare self value_ids leader recorders known_decisions with
  | Err e => (self, x, Some (Err e))
  | Ok (quorum, proposal) =>
      drive fuel self x slot leader recorders quorum known_decisions
            Step.ROUND_ONE_PHASE_ZERO proposal
  end.
End propose.
End ProposerCore.

(** ** Priority sources keep their contract *)

#[global] Instance xorshift_laws : PrioritySourceLaws XorShift64.t.
Proof.
  intros r upper r' p. unfold next_below, xorshift_source, XorShift64.next_below.
  destruct (Z.leb_spec upper 1); [done|]. intros [= _ <-].
  pose proof (Z.mod_pos_bound (XorShift64.scramble r) (upper - 1)). lia.
Qed.

Lemma os_random_sample_range upper draws draws' p :
  1 < upper → OsRandom.sample upper draws = (draws', Ok p) → 1 ≤ p < upper.
Proof.
  intros Hu. induction draws as [|[v|e] draws IH]; simpl; [done| |done].
  destruct (v <? OsRandom.cutoff upper); [|done]. intros [= _ <-]. unfold OsRandom.range.
  pose proof (Z.mod_pos_bound v (upper - 1)). lia.
Qed.

#[global] Instance os_random_laws : PrioritySourceLaws OsRandom.t.
Proof.
  intros r upper r' p. unfold next_below, os_random_source, OsRandom.next_below.
  destruct (Z.leb_spec upper 1); [done|]. by apply os_random_sample_range.
Qed.

Lemma cutoff_multiple upper :
  1 < upper → OsRandom.cutoff upper = OsRandom.range upper * (U64.MAX / OsRandom.range upper).
Proof.
  intros. unfold OsRandom.cutoff. pose proof (Z.div_mod U64.MAX (OsRandom.range upper)).
  unfold OsRandom.range in *. lia.
Qed.

Lemma sample_rejects upper rejected draws :
  Forall (λ v, OsRandom.cutoff upper ≤ v) rejected →
  OsRandom.sample upper ((Ok <$> rejected) ++ draws) = OsRandom.sample upper draws.
Proof.
  induction 1 as [|v l Hv _ IH]; simpl; [done|].
  destruct (Z.ltb_spec v (OsRandom.cutoff upper)); [lia|done].
Qed.

(** Rejection sampling has no modulo bias: after any rejected draws, the
    next 64-bit draw yields priority [p] exactly when it is one of the
    [u64::MAX / (upper - 1)] numbers [i * (upper - 1) + (p - 1)], so every
    priority in [1, upper) is hit by equally many draws. *)
Theorem os_random_unbiased upper rejected v rest p :
  1 < upper → U64.fits v → 1 ≤ p < upper →
  Forall (λ r, OsRandom.cutoff upper ≤ r) rejected →
  (v < OsRandom.cutoff upper
   ∧ next_below (R:=OsRandom.t) ((Ok <$> rejected) ++ Ok v :: rest) upper = (rest, Ok p))
  ↔ ∃ i, 0 ≤ i < U64.MAX / (upper - 1) ∧ v = i * (upper - 1) + (p - 1).
Proof.
  intros Hu [Hv _] Hp Hr. unfold next_below, os_random_source, OsRandom.next_below.
  rewrite (proj2 (Z.leb_gt upper 1)), sample_rejects by done.
  rewrite cutoff_multiple by done. simpl. unfold OsRandom.range.
  set (n := U64.MAX / (upper - 1)). pose proof (Z.div_mod v (upper - 1)).
  pose proof (Z.mod_pos_bound v (upper - 1)). split.
  - intros [Hlt Hs]. rewrite cutoff_multiple in Hs by done. unfold OsRandom.range in Hs.
    fold n in Hs. rewrite (proj2 (Z.ltb_lt _ _)) in Hs by done. injection Hs as <-.
    exists (v / (upper - 1)). split; [|lia]. split; [by apply Z.div_pos; lia|].
    apply Z.div_lt_upper_bound; lia.
  - intros (i & Hi & Hvi).
    assert (v < (upper - 1) * n) as Hlt by nia. split; [done|].
    rewrite cutoff_multiple by done. unfold OsRandom.range. fold n.
    rewrite (proj2 (Z.ltb_lt _ _)) by done. do 2 f_equal.
    replace v with ((p - 1) + i * (upper - 1)) by lia.
    rewrite Z.mod_add, Z.mod_small by lia. lia.
Qed.

(** ** The xorshift state never reaches zero *)

Lemma shl_testbit x n i :
  0 ≤ i → 0 ≤ n → Z.testbit (U64.shl x n) i = (i <? 64) && Z.testbit x (i - n).
Proof.
  intros Hi Hn. unfold U64.shl, U64.modulus.
  change 18446744073709551616 with (2 ^ 64). destruct (Z.ltb_spec i 64).
  - rewrite Z.mod_pow2_bits_low, Z.shiftl_spec by lia. done.
  - rewrite Z.mod_pow2_bits_high by lia. done.
Qed.

Lemma lxor_shl_nonzero x n : 0 < n → x ≠ 0 → Z.lxor x (U64.shl x n) ≠ 0.
Proof.
  intros Hn Hne H0%Z.lxor_eq. apply Hne, Z.bits_inj_0. intros i.
  destruct (Z.le_gt_cases 0 i) as [Hi|]; [|by apply Z.testbit_neg_r].
  revert Hi. induction (Z.lt_wf 0 i) as [i _ IH]. intros Hi.
  rewrite H0, shl_testbit by lia. destruct (Z.le_gt_cases 0 (i - n)).
  - rewrite IH by lia. by rewrite andb_false_r.
  - rewrite Z.testbit_neg_r by lia. by rewrite andb_false_r.
Qed.

Lemma lxor_shr_nonzero x n : 0 < n → 0 < x → Z.lxor x (U64.shr x n) ≠ 0.
Proof.
  intros Hn Hx H0%Z.lxor_eq. unfold U64.shr in H0. rewrite Z.shiftr_div_pow2 in H0 by lia.
  assert (1 < 2 ^ n) by (by apply Z.pow_gt_1).
  pose proof (Z.div_lt x (2 ^ n)). lia.
Qed.

Lemma shl_nonneg x n : 0 ≤ U64.shl x n.
Proof. unfold U64.shl, U64.modulus. apply Z.mod_pos_bound. lia. Qed.

Lemma scramble_pos x : 0 < x → 0 < XorShift64.scramble x.
Proof.
  intros Hx. unfold XorShift64.scramble.
  set (a := Z.lxor x (U64.shl x 13)). set (b := Z.lxor a (U64.shr a 7)).
  assert (0 < a).
  { assert (a ≠ 0) by (apply lxor_shl_nonzero; lia).
    assert (0 ≤ a) by (apply Z.lxor_nonneg; pose proof (shl_nonneg x 13); lia). lia. }
  assert (0 < b).
  { assert (b ≠ 0) by (apply lxor_shr_nonzero; lia).
    assert (0 ≤ b); [|lia]. apply Z.lxor_nonneg. unfold U64.shr. rewrite Z.shiftr_nonneg. lia. }
  assert (Z.lxor b (U64.shl b 17) ≠ 0) by (apply lxor_shl_nonzero; lia).
  assert (0 ≤ Z.lxor b (U64.shl b 17)); [|lia].
  apply Z.lxor_nonneg. pose proof (shl_nonneg b 17). lia.
Qed.

(** The states of a deterministic source after [n] draws. *)
Fixpoint xorshift_draws (upper : Z) (n : nat) (state : XorShift64.t) : XorShift64.t :=
  match n with
  | O => state
  | S n => xorshift_draws upper n (next_below state upper).1
  end.

(** The degenerate all-zero state is never reached: a source built by [new] or
    [new_for_stream] keeps a positive state, so its draws keep moving. *)
Lemma xorshift_state_positive upper n state :
  0 < state → 0 < xorshift_draws upper n state.
Proof.
  revert state. induction n as [|n IH]; intros state Hs; simpl; [done|]. apply IH.
  unfold next_below, xorshift_source, XorShift64.next_below.
  destruct (upper <=? 1); [done|]. by apply scramble_pos.
Qed.

Lemma xorshift_new_positive seed : 0 < XorShift64.new seed.
Proof. unfold XorShift64.new. lia. Qed.

(** ** What a collected quorum is *)

Section collected.
Context {V : Type}.
Implicit Types replies : list (RecordReply.t V).

(** A reply the collection may keep: it arrived, from the endpoint it names,
    with the expected membership. *)
Definition vouched (ec : option ClusterIdentity.t) (evs : list (event V))
    (reply : RecordReply.t V) : Prop :=
  Arrival (RecordReply.recorder reply) (Ok reply) ∈ evs
  ∧ ∀ cluster, ec = Some cluster → RecordReply.cluster reply = cluster.

Lemma vouched_cons ec ev evs reply : vouched ec evs reply → vouched ec (ev :: evs) reply.
Proof. intros [??]. split; [by right|done]. Qed.

Lemma collect_spec quorum ec evs : ∀ replies seen pending out,
  collect quorum ec replies seen pending evs = Ok out →
  (∀ r, r ∈ RecordReply.recorder <$> replies ↔ r ∈ seen) →
  NoDup (RecordReply.recorder <$> replies) →
  ∃ fresh, out = replies ++ fresh ∧ Forall (vouched ec evs) fresh
    ∧ NoDup (RecordReply.recorder <$> out) ∧ quorum_reached out quorum ec = true.
Proof.
  induction evs as [|ev evs IH]; intros replies seen pending out Hc Hseen Hnd;
    simpl in Hc; destruct (quorum_reached replies quorum ec) eqn:Hq;
    [injection Hc as <-; exists []; rewrite app_nil_r; by split_and!
    |done
    |injection Hc as <-; exists []; rewrite app_nil_r; by split_and!
    |].
  destruct ev as [expected [reply|error]| |]; [| |done|done].
  - destruct (Z.eqb_spec (RecordReply.recorder reply) expected) as [<-|]; [simpl in Hc|done].
    destruct (match ec with Some _ => _ | None => false end) eqn:Hec; [done|].
    destruct (bool_decide _) eqn:Hb; [done|]. apply bool_decide_eq_false in Hb.
    apply IH in Hc as (fresh & -> & Hf & Hnd' & Hq').
    + exists (reply :: fresh). rewrite <-app_assoc in *. split_and!; try done.
      constructor.
      * split; [left|]. intros cluster ->. apply negb_false_iff, bool_decide_eq_true in Hec. done.
      * eapply Forall_impl; [done|]. intros r. apply vouched_cons.
    + intros r. rewrite fmap_app, elem_of_app, elem_of_cons, Hseen. simpl.
      rewrite list_elem_of_singleton. naive_solver.
    + rewrite fmap_app. apply NoDup_app. split_and!; [done| |apply NoDup_singleton].
      intros r Hr%Hseen ->%list_elem_of_singleton. done.
  - destruct (is_fatal error); [done|]. destruct (_ <? quorum); [done|].
    apply IH in Hc as (fresh & -> & Hf & ? & ?); [|done..]. exists fresh. split_and!; try done.
    eapply Forall_impl; [done|]. intros r. apply vouched_cons.
Qed.

Lemma collect_quorum_spec requests quorum ec (io : phase_io V) out :
  collect_quorum requests quorum ec io = Ok out →
  Forall (vouched ec (events io)) out
  ∧ NoDup (RecordReply.recorder <$> out) ∧ quorum_reached out quorum ec = true.
Proof.
  unfold collect_quorum. destruct (_ <? quorum); [done|]. destruct (negb _); [done|]. intros Hc.
  apply collect_spec in Hc as (fresh & -> & ?); [|done|constructor]. done.
Qed.

(** A quorum that [collect_quorum] returns is one: the replies name
    distinct recorders that form a quorum of the expected membership (or are
    at least [quorum] many), each arrived from the endpoint it names, and each
    carries the expected cluster identity. *)
Theorem collect_quorum_sound requests quorum ec (io : phase_io V) out :
  collect_quorum requests quorum ec io = Ok out →
  NoDup (RecordReply.recorder <$> out)
  ∧ quorum_reached out quorum ec = true
  ∧ ∀ reply, reply ∈ out →
      Arrival (RecordReply.recorder reply) (Ok reply) ∈ events io
      ∧ ∀ cluster, ec = Some cluster → RecordReply.cluster reply = cluster.
Proof.
  intros (Hall & Hnd & Hq)%collect_quorum_spec. split_and!; [done..|].
  rewrite Forall_forall in Hall. apply Hall.
Qed.

Lemma launch_cons spawned recorder request (requests : list (RecorderHandle.t * RecordRequest.t V)) :
  launch spawned ((recorder, request) :: requests) =
  let rest := launch spawned requests in
  if RecorderHandle.in_flight recorder then (recorder :: rest.1, rest.2)
  else if spawned (RecorderHandle.id recorder)
  then (RecorderHandle.mk (RecorderHandle.id recorder) true :: rest.1,
        (RecorderHandle.id recorder, request) :: rest.2)
  else (recorder :: rest.1, rest.2).
Proof.
  simpl. destruct (launch spawned requests) as [hs us]. unfold RecorderHandle.try_begin.
  destruct recorder as [k []]; simpl; [done|]. by destruct (spawned k).
Qed.

(** At most one outstanding RPC per endpoint: starting a phase sends
    exactly the requests whose endpoint was idle and whose worker started, in
    order; afterwards an endpoint is in flight iff it was before or its
    request is under way. *)
Theorem launch_one_rpc_per_endpoint spawned (requests : list (RecorderHandle.t * RecordRequest.t V)) :
  (launch spawned requests).2 =
    omap (λ hr, if RecorderHandle.is_idle hr.1 && spawned (RecorderHandle.id hr.1)
                then Some (RecorderHandle.id hr.1, hr.2) else None) requests
  ∧ (launch spawned requests).1 =
    (λ hr, RecorderHandle.mk (RecorderHandle.id hr.1)
             (RecorderHandle.in_flight hr.1 || spawned (RecorderHandle.id hr.1))) <$> requests.
Proof.
  induction requests as [|[[k fl] req] requests [IH1 IH2]]; [done|].
  rewrite launch_cons. csimpl. rewrite <-IH1, <-IH2. unfold RecorderHandle.is_idle.
  destruct fl; simpl; [done|]. by destruct (spawned k).
Qed.

(** ** Tolerating failed recorders *)

(** An arrival that cannot stop the collection: a well-labelled reply, or an
    error of the tolerated kinds. *)
Definition benign (ec : option ClusterIdentity.t) (ev : event V) : Prop :=
  match ev with
  | Arrival expected (Ok reply) =>
      RecordReply.recorder reply = expected
      ∧ ∀ cluster, ec = Some cluster → RecordReply.cluster reply = cluster
  | Arrival expected (Err error) => is_fatal error = false
  | _ => False
  end.

Definition arrived_replies (evs : list (event V)) : list (RecordReply.t V) :=
  omap (λ ev, match ev with Arrival _ (Ok reply) => Some reply | _ => None end) evs.

Lemma arrived_replies_cons_Ok k r (evs : list (event V)) :
  arrived_replies (Arrival k (Ok r) :: evs) = r :: arrived_replies evs.
Proof. done. Qed.

Lemma len_arrived_replies (evs : list (event V)) : len (arrived_replies evs) ≤ len evs.
Proof.
  induction evs as [|ev evs IH]; [done|]. rewrite len_cons.
  assert (len (arrived_replies (ev :: evs)) ≤ 1 + len (arrived_replies evs)); [|lia].
  destruct ev as [k [r|e]| |]; try (change (len (arrived_replies evs) ≤ 1 + len (arrived_replies evs)); lia).
  by rewrite arrived_replies_cons_Ok, len_cons.
Qed.

Lemma collect_progress quorum ec evs : ∀ replies seen pending,
  Forall (benign ec) evs →
  (∀ r, r ∈ RecordReply.recorder <$> replies ↔ r ∈ seen) →
  NoDup (RecordReply.recorder <$> replies ++ arrived_replies evs) →
  quorum ≤ len (replies ++ arrived_replies evs) → len evs ≤ pending →
  quorum_reached (replies ++ arrived_replies evs) quorum ec = true →
  ∃ out, collect quorum ec replies seen pending evs = Ok out.
Proof.
  induction evs as [|ev evs IH]; intros replies seen pending Hb Hseen Hnd Hlen Hpend Hq; simpl.
  { change (arrived_replies []) with (@nil (RecordReply.t V)) in Hq. rewrite app_nil_r in Hq.
    rewrite Hq. by eexists. }
  destruct (quorum_reached replies quorum ec); [by eexists|].
  apply Forall_cons in Hb as [Hev Hb]. rewrite len_cons in Hpend.
  destruct ev as [k [reply|error]| |]; [| |done|done]; simpl in Hev.
  - destruct Hev as [<- Hec]. rewrite Z.eqb_refl. simpl.
    rewrite arrived_replies_cons_Ok in *.
    replace (match ec with Some _ => _ | None => false end) with false; last first.
    { destruct ec as [c|]; [|done]. rewrite (bool_decide_true (_ = c)) by auto. done. }
    rewrite bool_decide_false; last first.
    { intros Hin%Hseen. rewrite fmap_app, fmap_cons in Hnd.
      apply NoDup_app in Hnd as (_&Hd&_). apply (Hd _ Hin). left. }
    rewrite (cons_middle reply), app_assoc in Hlen, Hnd, Hq.
    apply IH; try done; [|lia]. intros r.
    rewrite fmap_app, elem_of_app, elem_of_cons, Hseen. simpl.
    rewrite list_elem_of_singleton. naive_solver.
  - rewrite Hev. change (arrived_replies (Arrival k (Err error) :: evs))
      with (arrived_replies evs) in *.
    rewrite len_app in Hlen. pose proof (len_arrived_replies evs).
    rewrite (proj2 (Z.ltb_ge _ _)) by lia.
    apply IH; try done; [|lia]. by rewrite len_app.
Qed.
End collected.

(** C36: the collection tolerates failed recorders: when every arrival is a
    well-labelled reply or a non-fatal error, at most one per launched worker,
    and the recorders that did reply form a quorum of the expected cluster,
    [collect_quorum] succeeds, whatever the order of arrivals and errors. *)
Theorem collect_quorum_tolerates_failures {V} c
    (requests : list (ReplicaId * RecordRequest.t V)) (io : phase_io V) :
  cluster_typed c → ClusterIdentity.is_well_formed c = true →
  deadline_fits io = true →
  Forall (benign (Some c)) (events io) →
  NoDup (RecordReply.recorder <$> arrived_replies (events io)) →
  len (events io)
    ≤ len (filter (λ kr, busy io kr.1 = false ∧ spawns io kr.1 = true) requests) →
  ClusterIdentity.has_quorum c (RecordReply.recorder <$> arrived_replies (events io)) = true →
  ∃ out, collect_quorum requests (ClusterIdentity.quorum_size c) (Some c) io = Ok out.
Proof.
  intros Hty Hwf Hdl Hb Hnd Hlen Hq. unfold collect_quorum. rewrite Hdl.
  assert (len (launch (spawns io) ((λ kr, (RecorderHandle.mk kr.1 (busy io kr.1), kr.2))
            <$> requests)).2
          = len (filter (λ kr, busy io kr.1 = false ∧ spawns io kr.1 = true) requests)) as ->.
  { clear. induction requests as [|[k req] requests IH]; [done|].
    rewrite fmap_cons, launch_cons, filter_cons. simpl.
    destruct (busy io k); [by rewrite decide_False by naive_solver|]. simpl.
    destruct (spawns io k); [|by rewrite decide_False by naive_solver].
    rewrite decide_True by done. simpl. by rewrite !len_cons, IH. }
  pose proof (quorum_size_lower_bound _ _ Hty Hwf Hq) as Hqs.
  assert (ClusterIdentity.quorum_size c ≤ len (arrived_replies (events io))) as Hql.
  { rewrite size_list_to_set in Hqs by done. rewrite length_fmap in Hqs. done. }
  pose proof (len_arrived_replies (events io)). rewrite (proj2 (Z.ltb_ge _ _)) by lia. simpl.
  apply collect_progress; try done; lia.
Qed.

(** ** The loop of [propose] *)

(** What a step of the algorithm decides is about the slot asked for. *)
Lemma advance_slot {V} `{EqDecision V} slot leader step (p : Proposal.t V) replies d :
  advance slot leader step p replies = Ok (inl d) → Decision.slot d = slot.
Proof.
  unfold advance. destruct (find_decision replies) as [d'|].
  { destruct (Z.eqb_spec (Decision.slot d') slot) as [Heq|]; simpl; [|done].
    destruct (is_empty _); [done|]. by intros [= <-]. }
  destruct (forallb _ replies).
  - unfold phase_outcome, Decision.new. intros Ho.
    repeat (case_match; simplify_eq/=; try done).
  - repeat (case_match; try done).
Qed.

Section loop.
Context {R : Type} `{!PrioritySource R} {V : Type} `{EqDecision V}.
Import ProposerCore.

(** The proposal a phase may send for [proposal]: the proposal itself, or a
    copy with a private priority when the phase randomizes. *)
Definition sends (self : t R) (leader : option ReplicaId) (step : Z)
    (proposal sent : Proposal.t V) : Prop :=
  if randomizes self leader step
  then ∃ rng rng' priority, next_below rng Priority.MAX = (rng', Ok priority)
       ∧ sent = Proposal.with_priority proposal priority
  else sent = proposal.

Lemma proposal_for_spec (self self' : t R) leader step (proposal p : Proposal.t V) :
  proposal_for self leader step proposal = (self', Ok p) →
  (∃ rng', self' = set_rng self rng') ∧ sends self leader step proposal p.
Proof.
  unfold proposal_for, sends. destruct (randomizes self leader step).
  - destruct (next_below (rng self) Priority.MAX) as [rng' [pr|e]] eqn:E; [|done].
    intros [= <- <-]. split; [eauto|]. by exists (rng self), rng', pr.
  - intros [= <- <-]. split; [|done]. exists (rng self). by destruct self.
Qed.

(** The requests of a phase: one per recorder, in order. *)
Lemma phase_requests_spec (self self' : t R) slot leader known step (proposal : Proposal.t V)
    recorders requests :
  phase_requests self slot leader known step proposal recorders = (self', Ok requests) →
  (∃ rng', self' = set_rng self rng')
  ∧ Forall2 (λ k kr, ∃ p, kr = (k, RecordRequest.mk (replica_id self) slot leader step p known)
                          ∧ sends self leader step proposal p) recorders requests.
Proof.
  revert self requests. induction recorders as [|k recorders IH]; intros self requests; simpl.
  { intros [= <- <-]. split; [|constructor]. exists (rng self). by destruct self. }
  destruct (proposal_for self leader step proposal) as [self1 [p|e]] eqn:Ep; [|done].
  apply proposal_for_spec in Ep as [[rng1 ->] Hp].
  destruct (phase_requests (set_rng self rng1) _ _ _ _ _ _) as [self2 [rest|e]] eqn:Er; [|done].
  intros [= <- <-]. apply IH in Er as [[rng2 ->] Hrest]. split; [by exists rng2|].
  constructor; [by exists p|]. done.
Qed.

Lemma max_by_step_spec (replies : list (RecordReply.t V)) reply :
  max_by_step replies = Some reply →
  reply ∈ replies ∧ ∀ r, r ∈ replies → reply_step r ≤ reply_step reply.
Proof.
  revert reply. induction replies as [|r l IH] using rev_ind; [done|]. intros reply.
  unfold max_by_step in *. rewrite fold_left_app. simpl.
  destruct (fold_left _ l None) as [cur|] eqn:E.
  - destruct (IH cur eq_refl) as [Hin Hmax].
    destruct (Z.ltb_spec (reply_step r) (reply_step cur)); intros [= <-];
      (split; [rewrite elem_of_app, list_elem_of_singleton; auto|]);
      intros r' [Hr'| ->%list_elem_of_singleton]%elem_of_app;
      try (specialize (Hmax r' Hr')); lia.
  - assert (l = []) as ->.
    { clear -E. destruct l as [|x l] using rev_ind; [done|]. rewrite fold_left_app in E.
      simpl in E. repeat case_match; done. }
    intros [= <-]. split; [left|]. by intros r' ->%list_elem_of_singleton.
Qed.

(** When no reply is behind the request, the loop moves to a later step. *)
Lemma advance_progress slot leader step (proposal : Proposal.t V) replies step' proposal' :
  (∀ r, r ∈ replies → step ≤ reply_step r) →
  advance slot leader step proposal replies = Ok (inr (step', proposal')) → step < step'.
Proof.
  intros Hge. unfold advance. destruct (find_decision replies); [case_match; done|].
  destruct (forallb _ replies) eqn:Hall.
  - destruct (phase_outcome _ _ _ _ _) as [[d|p]|e]; [done| |done].
    destruct (Step.checked_next step) as [s|] eqn:Hs; [|done]. intros [= <- <-].
    apply U64.checked_add_Some in Hs as [-> _]. lia.
  - assert (∃ r, r ∈ replies ∧ step < reply_step r) as (r & Hr & Hlt).
    { apply not_true_iff_false in Hall. rewrite forallb_forall in Hall.
      destruct (decide (Exists (λ r, step < reply_step r) replies)) as [He|Hne].
      - by apply Exists_exists in He.
      - exfalso. apply Hall. intros r Hr%list_elem_of_In. apply Z.eqb_eq.
        specialize (Hge r Hr). rewrite <-Forall_Exists_neg, Forall_forall in Hne.
        specialize (Hne r Hr). simpl in Hne. lia. }
    destruct (max_by_step replies) as [m|] eqn:Hm.
    + apply max_by_step_spec in Hm as [_ Hmax]. specialize (Hmax r Hr).
      rewrite (proj2 (Z.ltb_lt _ _)) by lia.
      destruct (reply_first m); [|done]. intros [= <- <-]. lia.
    + exfalso. clear -Hm Hr. destruct replies as [|x l _] using rev_ind; [by apply elem_of_nil in Hr|].
      unfold max_by_step in Hm. rewrite fold_left_app in Hm. simpl in Hm.
      repeat case_match; done.
Qed.

Context {X : Type} (network : X → list (ReplicaId * RecordRequest.t V) → X * phase_io V).

(** Replies answer one of the phase's requests and are not behind it: what a
    recorder's register guarantees (see [isr_reply_meaning]). *)
Definition never_behind : Prop :=
  ∀ x requests k reply, Arrival k (Ok reply) ∈ events (network x requests).2 →
  ∃ request, (k, request) ∈ requests ∧ RecordRequest.step request ≤ reply_step reply.

Lemma drive_terminates (self : t R) fuel x slot leader recorders quorum known step proposal :
  never_behind →
  ProposerConfig.max_steps (config self) < step + Z.of_nat fuel →
  is_Some (drive network fuel self x slot leader recorders quorum known step proposal).2.
Proof.
  intros Hnet. revert self x known step proposal.
  induction fuel as [|fuel IH]; intros self x known step proposal Hfuel; simpl;
    destruct (Z.ltb_spec (ProposerConfig.max_steps (config self)) step); [by eexists | lia | by eexists |].
  destruct (phase_requests _ _ _ _ _ _ _) as [self' [requests|e]] eqn:Er; [|by eexists].
  apply phase_requests_spec in Er as [[rng' ->] Hreqs].
  destruct (network x requests) as [x' io] eqn:Hio.
  destruct (collect_quorum requests _ _ io) as [replies|e] eqn:Hc; [|by eexists].
  destruct (advance _ _ _ _ _) as [[d|[step' proposal']]|e] eqn:Ha; try by eexists.
  apply IH. simpl. apply advance_progress in Ha; [lia|]. intros r Hr.
  apply collect_quorum_spec in Hc as (Hall&_&_). rewrite Forall_forall in Hall.
  destruct (Hall r Hr) as [Harr _]. specialize (Hnet x requests). rewrite Hio in Hnet.
  apply Hnet in Harr as (req & Hin & Hle). apply list_elem_of_lookup in Hin as [i Hi].
  destruct (Forall2_lookup_r _ _ _ _ _ Hreqs Hi) as (k & _ & p & [= _ ->] & _). done.
Qed.

(** C37: [propose] terminates: against recorders whose replies are never behind
    the request, [max_steps - 3] iterations always suffice, because every
    iteration that does not finish moves to a strictly later step. *)
Theorem propose_terminates (self : t R) x slot value_ids leader recorders known :
  never_behind →
  ∃ self' x' outcome,
    propose network (Z.to_nat (ProposerConfig.max_steps (config self) - 3)) self x slot
            value_ids leader recorders known = (self', x', Some outcome).
Proof.
  intros Hnet. unfold propose.
  destruct (prepare _ _ _ _ _) as [[quorum proposal]|e]; [|by eauto].
  pose proof (drive_terminates self (Z.to_nat (ProposerConfig.max_steps (config self) - 3)) x
    slot leader recorders quorum known Step.ROUND_ONE_PHASE_ZERO proposal Hnet) as [r Hr].
  { unfold Step.ROUND_ONE_PHASE_ZERO. lia. }
  destruct (drive _ _ _ _ _ _ _ _ _ _ _) as [[self' x'] o]. simpl in Hr. subst. eauto.
Qed.
End loop.

(** ** The properties on concrete runs *)

Section example.
Import ProposerCore.

(** The cutoff for [upper = 4] is [u64::MAX] itself: the draw [u64::MAX] is
    rejected, then 5 gives priority 3. *)
Lemma os_random_unbiased_witness :
  next_below (R:=OsRandom.t) [Ok U64.MAX; Ok 5] 4 = ([], Ok 3).
Proof.
  apply (os_random_unbiased 4 [U64.MAX] 5 [] 3).
  - lia.
  - unfold U64.fits, U64.MAX. lia.
  - lia.
  - repeat constructor. vm_compute. discriminate.
  - exists 1. split; [split; vm_compute; [discriminate | reflexivity] | reflexivity].
Defined.

Definition ex_reply (recorder step : Z) (p : Proposal.t Z) : RecordReply.t Z :=
  RecordReply.mk recorder ex_stable (RecordSummary.mk step (Some p) None) None.

Definition ex_leader_proposal : Proposal.t Z :=
  Proposal.mk (ProposalKey.new Priority.MAX 1 0) [10].

Definition ex_requests : list (ReplicaId * RecordRequest.t Z) :=
  (λ k, (k, RecordRequest.mk 1 1 (Some 1) 4 ex_leader_proposal [])) <$> [1; 2; 3].

(** Recorder 3 fails, the others answer. *)
Definition ex_io : phase_io Z := {|
  busy := λ _, false;
  spawns := λ _, true;
  deadline_fits := true;
  events := [Arrival 1 (Ok (ex_reply 1 4 ex_leader_proposal));
             Arrival 3 (Err (QuePaxaError.TransportError "connection refused"));
             Arrival 2 (Ok (ex_reply 2 4 ex_leader_proposal))];
|}.

Lemma collect_quorum_sound_witness :
  collect_quorum ex_requests 2 (Some ex_stable) ex_io
    = Ok [ex_reply 1 4 ex_leader_proposal; ex_reply 2 4 ex_leader_proposal]
  ∧ quorum_reached [ex_reply 1 4 ex_leader_proposal; ex_reply 2 4 ex_leader_proposal] 2
      (Some ex_stable) = true.
Proof.
  split; [vm_compute; reflexivity|].
  apply (collect_quorum_sound ex_requests 2 (Some ex_stable) ex_io). vm_compute. reflexivity.
Defined.

Lemma collect_quorum_tolerates_failures_witness :
  ∃ out, collect_quorum ex_requests (ClusterIdentity.quorum_size ex_stable) (Some ex_stable) ex_io
         = Ok out.
Proof.
  apply (collect_quorum_tolerates_failures ex_stable ex_requests ex_io).
  - apply ex_stable_typed.
  - reflexivity.
  - reflexivity.
  - unfold benign. repeat constructor; simpl; intros ? [= <-]; reflexivity.
  - apply (bool_decide_unpack _). vm_compute. exact I.
  - vm_compute. discriminate.
  - reflexivity.
Defined.

(** Recorders that always answer at the step asked, with the proposal sent. *)
Definition ex_network (x : unit) (requests : list (ReplicaId * RecordRequest.t Z))
    : unit * phase_io Z :=
  (x, {| busy := λ _, false; spawns := λ _, true; deadline_fits := true;
         events := (λ kr, Arrival kr.1 (Ok (ex_reply kr.1 (RecordRequest.step kr.2)
                                              (RecordRequest.proposal kr.2)))) <$> requests |}).

Lemma ex_network_never_behind : never_behind ex_network.
Proof.
  intros x requests k reply. simpl. intros ([k' req] & [= -> ->] & Hin)%list_elem_of_fmap.
  exists req. split; [exact Hin|]. simpl. unfold reply_step. simpl. lia.
Qed.

Lemma propose_terminates_witness :
  (∃ self' x' outcome,
     propose ex_network (Z.to_nat (1027 - 3)) (with_cluster (with_rng 1 0 (XorShift64.new 7)) ex_stable)
             tt 1 [10] (Some 1) [1; 2; 3] [] = (self', x', Some outcome))
  ∧ (propose ex_network 1 (with_cluster (with_rng 1 0 (XorShift64.new 7)) ex_stable)
             tt 1 [10] (Some 1) [1; 2; 3] []).2 = Some (Ok (Decision.mk 1 [10] 1 4)).
Proof.
  split; [|vm_compute; reflexivity].
  apply (propose_terminates ex_network (with_cluster (with_rng 1 0 (XorShift64.new 7)) ex_stable)
    tt 1 [10] (Some 1) [1; 2; 3] []).
  apply ex_network_never_behind.
Defined.
End example.
