(* ===== verification/Consensus.v ===== *)
(** * Why one slot has one outcome

  The safety argument of one slot, over what its recorders have accepted and
  nothing else: [acc k s] is the list of proposals recorder [k] accepted while
  its clock stood at step [s], [clk k] is that clock. The evidence a proposer
  has for the pair (step, proposal) it drives is a statement about [acc] that
  survives the growth of the registers. Two facts license a decision, the
  fast path of round one and a proposal that dominates phase one; any two
  decisions then have the same origin. The argument needs of the quorums only
  that any two meet. *)
From S2P Require Import Prelude Errors Types Membership.

(** ** Quorum systems *)

Class QuorumSystem (quorum : list ReplicaId → Prop) : Prop :=
  quorum_meet : ∀ v w, quorum v → quorum w → ∃ r, r ∈ v ∧ r ∈ w.

Definition cluster_quorum (c : ClusterIdentity.t) (voters : list ReplicaId) : Prop :=
  ClusterIdentity.has_quorum c voters = true.

(** The quorums of a well-formed epoch, stable or joint, are one. *)
Lemma cluster_quorum_system c :
  cluster_typed c → ClusterIdentity.is_well_formed c = true → QuorumSystem (cluster_quorum c).
Proof.
  intros Hty Hwf v w Hv Hw. destruct (components c) as [|[ms f] cs] eqn:Hc.
  { unfold components in Hc. by destruct (ClusterIdentity.joint c). }
  assert ((ms, f) ∈ components c) as Hin by (rewrite Hc; left).
  destruct (common_component_meet c c v w ms f) as (r&?&?&_); [done..|]. by exists r.
Qed.

(** ** What recorders have accepted *)

Record registers (V : Type) : Type := Registers {
  acc : ReplicaId → Z → list (Proposal.t V);
  clk : ReplicaId → Z;
}.
Arguments Registers {V} _ _.
Arguments acc {V} _ _ _.
Arguments clk {V} _ _.

(** A later view of the same registers: lists grow at their end, and a step
    the clock has left is final. *)
Definition grows_to {V} (a b : registers V) : Prop :=
  (∀ k s, acc a k s `prefix_of` acc b k s)
  ∧ (∀ k s, s < clk a k → acc b k s = acc a k s)
  ∧ (∀ k, clk a k ≤ clk b k).

#[global] Instance grows_to_preorder {V} : PreOrder (grows_to (V:=V)).
Proof.
  split; [intros a; split_and!; intros; (done || reflexivity)|].
  intros a b c (P1&F1&C1) (P2&F2&C2). split_and!.
  - intros k s. etrans; [apply P1|apply P2].
  - intros k s Hs. specialize (C1 k). rewrite F2, F1 by lia. done.
  - intros k. specialize (C1 k). specialize (C2 k). lia.
Qed.

Lemma head_prefix {A} (l k : list A) x : l `prefix_of` k → head l = Some x → head k = Some x.
Proof. intros [m ->]. by destruct l. Qed.

Lemma elem_of_prefix {A} (l k : list A) x : l `prefix_of` k → x ∈ l → x ∈ k.
Proof. intros [m ->] Hx. apply elem_of_app. by left. Qed.

Section slot.
Context {V : Type} (quorum : list ReplicaId → Prop) `{!QuorumSystem quorum}.
(** The origins proposed in this slot (replica, lane, values), one per
    replica, and the slot's leader. *)
Context (proposed : ReplicaId * LaneId * list V → Prop) (leader : option ReplicaId).
Context (one_origin : ∀ o o', proposed o → proposed o' → o.1.1 = o'.1.1 → o = o').
Implicit Types a b : registers V.
Implicit Types p q x : Proposal.t V.

Local Abbreviation prio p := (ProposalKey.priority (Proposal.key p)).
Local Abbreviation pid p := (ProposalKey.proposer_id (Proposal.key p)).
Local Abbreviation lane p := (ProposalKey.lane_id (Proposal.key p)).
Local Abbreviation below p q := (ProposalKey.le (Proposal.key p) (Proposal.key q)).

(** Who proposed it and what; the priority is a round's private matter. *)
Definition origin p : ReplicaId * LaneId * list V := (pid p, lane p, Proposal.value_ids p).

Definition genuine p : Prop := proposed (origin p).

Lemma origin_with_priority p n : origin (Proposal.with_priority p n) = origin p.
Proof. done. Qed.

Lemma genuine_origin p q : genuine p → genuine q → pid p = pid q → origin p = origin q.
Proof using one_origin. intros Hp Hq He. by apply one_origin. Qed.

Lemma genuine_key p q :
  genuine p → genuine q → Proposal.key p = Proposal.key q → origin p = origin q.
Proof using one_origin. intros ?? He. apply genuine_origin; [done..|]. by rewrite He. Qed.

(** ** Evidence *)

(** Entering phase one: the best of the first proposals of a quorum. *)
Definition best_first a s p : Prop :=
  ∃ Q, quorum Q ∧ (∃ k, k ∈ Q ∧ head (acc a k s) = Some p)
    ∧ ∀ k, k ∈ Q → ∃ x, head (acc a k s) = Some x ∧ below x p.

(** Entering phases two and three: a quorum accepted it. *)
Definition accepted_by_quorum a s p : Prop :=
  ∃ Q, quorum Q ∧ ∀ k, k ∈ Q → p ∈ acc a k s.

(** Entering a later round: it dominates what a quorum accepted in phase two
    (two steps back), and comes from there unless there was nothing. *)
Definition carried a s q : Prop :=
  ∃ Q, quorum Q ∧ (∀ k, k ∈ Q → s - 1 ≤ clk a k)
    ∧ (∀ k x, k ∈ Q → x ∈ acc a k (s - 2) → below x q)
    ∧ ((∃ k, k ∈ Q ∧ q ∈ acc a k (s - 2))
       ∨ (∀ k, k ∈ Q → acc a k (s - 2) = [] ∧ q ∈ acc a k (s - 1))).

Definition evidence a s p : Prop :=
  4 ≤ s
  ∧ (s mod 4 = 0 → s = 4 ∨ ∃ q, carried a s q ∧ origin q = origin p)
  ∧ (s mod 4 = 1 → best_first a (s - 1) p)
  ∧ (s mod 4 = 2 → accepted_by_quorum a (s - 1) p)
  ∧ (s mod 4 = 3 → accepted_by_quorum a (s - 1) p).

(** In round one the reserved priority is the leader's. *)
Definition leader_only s p : Prop :=
  s = 4 → prio p ≤ Priority.MAX ∧ (prio p = Priority.MAX → leader = Some (pid p)).

(** Everything accepted was sent with evidence. *)
Definition justified a : Prop :=
  ∀ k s p, p ∈ acc a k s → genuine p ∧ evidence a s p ∧ leader_only s p.

(** ** The two grounds for a decision *)

Definition fast_decided a p : Prop :=
  leader = Some (pid p) ∧ prio p = Priority.MAX
  ∧ ∃ Q, quorum Q ∧ (∃ k, k ∈ Q ∧ head (acc a k 4) = Some p)
    ∧ ∀ k, k ∈ Q → ∃ x, head (acc a k 4) = Some x ∧ Proposal.key x = Proposal.key p.

Definition phase_two_decided a s p : Prop :=
  s mod 4 = 2
  ∧ ∃ Q, quorum Q ∧ (∀ k, k ∈ Q → p ∈ acc a k s ∧ s ≤ clk a k)
    ∧ ∀ k x, k ∈ Q → x ∈ acc a k (s - 1) → below x p.

Definition decidable a p : Prop := fast_decided a p ∨ ∃ s, phase_two_decided a s p.

(** ** Evidence survives growth *)

Lemma best_first_grows a b s p : grows_to a b → best_first a s p → best_first b s p.
Proof.
  intros (P&_&_) (Q & HQ & (k & Hk & Hh) & Hall). exists Q. split; [done|]. split.
  - exists k. split; [done|]. eapply head_prefix; [apply P|done].
  - intros k' Hk'. destruct (Hall k' Hk') as (x & Hx & ?). exists x. split; [|done].
    eapply head_prefix; [apply P|done].
Qed.

Lemma accepted_by_quorum_grows a b s p :
  grows_to a b → accepted_by_quorum a s p → accepted_by_quorum b s p.
Proof.
  intros (P&_&_) (Q & HQ & Hall). exists Q. split; [done|]. intros k Hk.
  eapply elem_of_prefix; [apply P|by apply Hall].
Qed.

Lemma carried_grows a b s q : grows_to a b → carried a s q → carried b s q.
Proof.
  intros (P&F&C) (Q & HQ & Hclk & Hle & Hin). exists Q.
  assert (∀ k, k ∈ Q → acc b k (s - 2) = acc a k (s - 2)) as Hfz.
  { intros k Hk. apply F. specialize (Hclk k Hk). lia. }
  split_and!; [done| | |].
  - intros k Hk. specialize (Hclk k Hk). specialize (C k). lia.
  - intros k x Hk. rewrite Hfz by done. by apply Hle.
  - destruct Hin as [(k & Hk & Hq)|Hall]; [left|right].
    + exists k. by rewrite Hfz.
    + intros k Hk. destruct (Hall k Hk). rewrite Hfz by done. split; [done|].
      eapply elem_of_prefix; [apply P|done].
Qed.

Lemma evidence_grows a b s p : grows_to a b → evidence a s p → evidence b s p.
Proof.
  intros Hg (H4 & H0 & H1 & H2 & H3). split_and!; [done| | | |].
  - intros Hs. destruct (H0 Hs) as [|(q & Hq & ?)]; [by left|]. right. exists q.
    split; [|done]. by eapply carried_grows.
  - eauto using best_first_grows.
  - eauto using accepted_by_quorum_grows.
  - eauto using accepted_by_quorum_grows.
Qed.

Lemma fast_decided_grows a b p : grows_to a b → fast_decided a p → fast_decided b p.
Proof.
  intros (P&_&_) (? & ? & Q & HQ & (k & Hk & Hh) & Hall). split_and!; [done..|].
  exists Q. split_and!; [done| |].
  - exists k. split; [done|]. eapply head_prefix; [apply P|done].
  - intros k' Hk'. destruct (Hall k' Hk') as (x & Hx & ?). exists x. split; [|done].
    eapply head_prefix; [apply P|done].
Qed.

Lemma phase_two_decided_grows a b s p :
  grows_to a b → phase_two_decided a s p → phase_two_decided b s p.
Proof.
  intros (P&F&C) (Hs & Q & HQ & Hall & Hle). split; [done|]. exists Q. split_and!; [done| |].
  - intros k Hk. destruct (Hall k Hk) as [Hp Hc]. specialize (C k). split; [|lia].
    eapply elem_of_prefix; [apply P|done].
  - intros k x Hk. destruct (Hall k Hk) as [_ Hc]. rewrite F by lia. by apply Hle.
Qed.

Lemma decidable_grows a b p : grows_to a b → decidable a p → decidable b p.
Proof.
  intros Hg [Hf|[s Hs]]; [left; by eapply fast_decided_grows|].
  right. exists s. by eapply phase_two_decided_grows.
Qed.

(** ** Any two decisions agree *)

Section agreement.
Context (a : registers V) (Ha : justified a).

Lemma justified_genuine k s p : p ∈ acc a k s → genuine p.
Proof using Ha one_origin. intros Hp. by apply Ha in Hp as [? _]. Qed.

Lemma head_elem k s p : head (acc a k s) = Some p → p ∈ acc a k s.
Proof. destruct (acc a k s); [done|]. intros [= ->]. left. Qed.

(** From step [s] on, everything accepted has one origin. *)
Definition locked s (o : ReplicaId * LaneId * list V) : Prop :=
  ∀ s' k x, s ≤ s' → x ∈ acc a k s' → origin x = o.

(** The phase zero of a later round, or the phase one of round one, locks as
    soon as all it accepted has one origin. *)
Lemma locked_from s o :
  4 ≤ s → (s mod 4 = 0 ∨ s = 5) → (∀ k x, x ∈ acc a k s → origin x = o) → locked s o.
Proof using Ha QuorumSystem0 one_origin.
  intros Hs4 Hs Hbase s'. destruct (decide (s' < s)) as [|Hge]; [lia|].
  induction (Z.lt_wf s s') as [s' _ IH]. intros k x Hle Hx.
  destruct (decide (s' = s)) as [->|Hne]; [by eapply Hbase|].
  assert (∀ t k x, s ≤ t < s' → x ∈ acc a k t → origin x = o) as Hprev.
  { intros t k' x' Ht. apply IH; lia. }
  clear IH. destruct (Ha k s' x Hx) as (_ & (H4 & H0 & H1 & H2 & H3) & _).
  pose proof (Z.mod_pos_bound s' 4 ltac:(lia)) as Hb.
  assert (s' mod 4 = 0 ∨ s' mod 4 = 1 ∨ s' mod 4 = 2 ∨ s' mod 4 = 3)
    as [Hm|[Hm|[Hm|Hm]]] by lia.
  - assert (s ≤ s' - 2).
    { clear -Hs Hm Hge Hne. destruct Hs as [Hs| ->]; mod_lia. }
    destruct (H0 Hm) as [->|(q & (Q & HQ & _ & _ & Hin) & <-)]; [lia|].
    destruct Hin as [(k' & _ & Hq)|Hall]; [eapply Hprev; [|done]; lia|].
    destruct (quorum_meet Q Q HQ HQ) as (r & Hr & _). destruct (Hall r Hr) as [_ Hq].
    eapply Hprev; [|done]; lia.
  - destruct (H1 Hm) as (Q & _ & (k' & _ & Hh%head_elem) & _). eapply Hprev; [|done]; lia.
  - destruct (H2 Hm) as (Q & HQ & Hall). destruct (quorum_meet Q Q HQ HQ) as (r & Hr & _).
    eapply Hprev; [|by apply (Hall r Hr)]; lia.
  - destruct (H3 Hm) as (Q & HQ & Hall). destruct (quorum_meet Q Q HQ HQ) as (r & Hr & _).
    eapply Hprev; [|by apply (Hall r Hr)]; lia.
Qed.

(** In round one nothing outranks the leader's reserved priority. *)
Lemma reserved_is_top k p x :
  leader = Some (pid p) → prio p = Priority.MAX → genuine p → x ∈ acc a k 4 →
  below p x → Proposal.key x = Proposal.key p.
Proof using Ha one_origin.
  intros Hl Hmax Hgp Hx Hle. destruct (Ha k 4 x Hx) as (Hgx & _ & Hlo).
  destruct (Hlo eq_refl) as [Hmx Honly]. rewrite Hl in Honly.
  apply key_le_iff in Hle. assert (prio x = Priority.MAX) as Hpx by lia.
  specialize (Honly Hpx). injection Honly as Honly.
  pose proof (genuine_origin _ _ Hgx Hgp (eq_sym Honly)) as [= Hid Hlane _].
  destruct p as [[] ?], x as [[] ?]. simpl in *. congruence.
Qed.

Lemma fast_decided_genuine p : fast_decided a p → genuine p.
Proof using Ha one_origin.
  intros (_ & _ & Q & _ & (k & _ & Hh%head_elem) & _). by eapply justified_genuine.
Qed.

Lemma fast_decided_locks p : fast_decided a p → locked 5 (origin p).
Proof using Ha QuorumSystem0 one_origin.
  intros Hf. pose proof (fast_decided_genuine _ Hf) as Hgp.
  destruct Hf as (Hl & Hmax & Q & HQ & _ & Hall). apply locked_from; [done|by right|].
  intros k x Hx. destruct (Ha k 5 x Hx) as (Hgx & (_&_&H1&_) & _). change (5 - 1) with 4 in H1.
  destruct (H1 eq_refl) as (Q' & HQ' & (k' & _ & Hh%head_elem) & Htop).
  destruct (quorum_meet Q Q' HQ HQ') as (r & Hr & Hr').
  destruct (Hall r Hr) as (y & Hy & Hky). destruct (Htop r Hr') as (z & Hz & Hzx).
  assert (y = z) as <- by congruence. rewrite Hky in Hzx.
  apply genuine_key; [done..|]. by eapply (reserved_is_top k').
Qed.

(** What phase two decides outranks whatever reached phase two. *)
Lemma phase_two_decided_top s p k x :
  phase_two_decided a s p → x ∈ acc a k s → below x p.
Proof using Ha QuorumSystem0 one_origin.
  intros (Hs & Q & HQ & _ & Hle) Hx. destruct (Ha k s x Hx) as (_ & (_&_&_&H2&_) & _).
  destruct (H2 Hs) as (Q' & HQ' & Hall). destruct (quorum_meet Q Q' HQ HQ') as (r & Hr & Hr').
  by apply (Hle r), Hall.
Qed.

Lemma phase_two_decided_elem s p :
  phase_two_decided a s p → ∃ k, p ∈ acc a k s.
Proof using Ha QuorumSystem0 one_origin.
  intros (_ & Q & HQ & Hall & _). destruct (quorum_meet Q Q HQ HQ) as (r & Hr & _).
  exists r. by apply Hall.
Qed.

Lemma phase_two_decided_locks s p : phase_two_decided a s p → locked (s + 2) (origin p).
Proof using Ha QuorumSystem0 one_origin.
  intros Hd. pose proof Hd as (Hs & Q & HQ & Hall & _).
  destruct (phase_two_decided_elem _ _ Hd) as (kp & Hp).
  pose proof (justified_genuine _ _ _ Hp) as Hgp. destruct (Ha kp s p Hp) as (_ & (H4&_) & _).
  assert ((s + 2) mod 4 = 0) as Hm.
  { rewrite Z.add_mod by lia. rewrite Hs. done. }
  apply locked_from; [lia|by left|]. intros k x Hx.
  destruct (Ha k (s + 2) x Hx) as (_ & (_&H0&_) & _).
  destruct (H0 Hm) as [?|(q & (Q' & HQ' & _ & Htop & Hin) & <-)]; [lia|].
  replace (s + 2 - 2) with s in * by lia.
  destruct (quorum_meet Q Q' HQ HQ') as (r & Hr & Hr'). destruct (Hall r Hr) as [Hpr _].
  destruct Hin as [(k' & Hk' & Hq)|Hempty].
  - apply genuine_key; [by eapply justified_genuine|done|]. apply (anti_symm ProposalKey.le).
    + by eapply phase_two_decided_top.
    + by apply (Htop r).
  - destruct (Hempty r Hr') as [He _]. rewrite He in Hpr. by apply elem_of_nil in Hpr.
Qed.

(** A decision of phase two against any other. *)
Lemma phase_two_agree s p q :
  phase_two_decided a s p → decidable a q → origin p = origin q.
Proof using Ha QuorumSystem0 one_origin.
  intros Hp Hq. destruct (phase_two_decided_elem _ _ Hp) as (kp & Hpin).
  destruct (Ha kp s p Hpin) as (Hgp & (H4&_) & _).
  destruct Hq as [Hf|[s' Hq]].
  - apply (fast_decided_locks _ Hf s kp p); [|done]. destruct Hp as [Hs _].
    destruct (decide (s = 4)) as [->|]; [done|lia].
  - destruct (phase_two_decided_elem _ _ Hq) as (kq & Hqin).
    destruct (Ha kq s' q Hqin) as (Hgq & _ & _).
    pose proof Hp as [Hs _]. pose proof Hq as [Hs' _].
    destruct (Z.lt_trichotomy s s') as [Hlt|[<-|Hgt]].
    + symmetry. apply (phase_two_decided_locks _ _ Hp s' kq q); [|done].
      clear -Hs Hs' Hlt. mod_lia.
    + apply genuine_key; [done..|]. apply (anti_symm ProposalKey.le);
        by eapply phase_two_decided_top.
    + apply (phase_two_decided_locks _ _ Hq s kp p); [|done].
      clear -Hs Hs' Hgt. mod_lia.
Qed.

Lemma decidable_agree p q : decidable a p → decidable a q → origin p = origin q.
Proof using Ha QuorumSystem0 one_origin.
  intros [Hp|[s Hp]] Hq; [|by eapply phase_two_agree].
  destruct Hq as [Hq|[s Hq]]; [|symmetry; by eapply phase_two_agree; [|left]].
  pose proof (fast_decided_genuine _ Hp). pose proof (fast_decided_genuine _ Hq).
  destruct Hp as (_ & _ & Q & HQ & _ & Hall), Hq as (_ & _ & Q' & HQ' & _ & Hall').
  destruct (quorum_meet Q Q' HQ HQ') as (r & Hr & Hr').
  destruct (Hall r Hr) as (x & Hx & Hkx). destruct (Hall' r Hr') as (y & Hy & Hky).
  apply genuine_key; [done..|]. congruence.
Qed.

Lemma decidable_genuine p : decidable a p → genuine p.
Proof using Ha QuorumSystem0 one_origin.
  intros [Hp|[s Hp]]; [by apply fast_decided_genuine|].
  destruct (phase_two_decided_elem _ _ Hp) as (k & Hk). by eapply justified_genuine.
Qed.
End agreement.
End slot.

(** ** More quorums, more evidence *)

Section weaken.
Context {V : Type} (quorum quorum' : list ReplicaId → Prop) (Hle : ∀ Q, quorum Q → quorum' Q).
Implicit Types (a : registers V) (p : Proposal.t V).

Lemma evidence_weaken a s p : evidence quorum a s p → evidence quorum' a s p.
Proof using Hle.
  unfold evidence, carried, best_first, accepted_by_quorum. intros (H4 & H0 & H1 & H2 & H3).
  split_and!; [done|..].
  - intros Hs. destruct (H0 Hs) as [|(q & (Q & ? & ?) & ?)]; [by left|]. right. eauto 10.
  - intros Hs. destruct (H1 Hs) as (Q & ? & ?). eauto.
  - intros Hs. destruct (H2 Hs) as (Q & ? & ?). eauto.
  - intros Hs. destruct (H3 Hs) as (Q & ? & ?). eauto.
Qed.

Lemma decidable_weaken l a p : decidable quorum l a p → decidable quorum' l a p.
Proof using Hle.
  intros [(? & ? & Q & ? & ?)|(s & ? & Q & ? & ?)]; [left|right; exists s];
    (split_and!; [done..|]); eauto.
Qed.
End weaken.
