(* ===== verification/Epochs.v ===== *)
(** * Successive memberships

  A deployment's membership over time: the epoch it starts in and the changes
  that follow, each with the slot of the decision that ordered it. Stable and
  joint epochs alternate as [begin_joint] and [finalize_joint] of src/types.rs
  build them. Quorums of one epoch, and of two successive ones, meet; those of
  epochs further apart need not. *)
From S2P Require Import Prelude Errors Types Membership Consensus.

Record chain : Type := Chain {
  first_epoch : ClusterIdentity.t;
  changes : list (SlotIndex * ClusterIdentity.t);
}.

(** A deployment whose membership never changes. *)
Definition single (c : ClusterIdentity.t) : chain := Chain c [].
Coercion single : ClusterIdentity.t >-> chain.

Implicit Types h : chain.

Definition epoch_of h (n : nat) : option ClusterIdentity.t :=
  (first_epoch h :: (changes h).*2) !! n.

(** The slot whose decision ended epoch [n] and ordered the next. *)
Definition anchor_of h (n : nat) : option SlotIndex := (changes h).*1 !! n.

(** Slot [s] is later than the anchor with which epoch [n] began. *)
Definition begins_before h (n : nat) (s : SlotIndex) : Prop :=
  match n with O => True | S m => ∃ a, anchor_of h m = Some a ∧ a < s end.

(** The slots in which an epoch may propose. *)
Definition opens h (e : ClusterIdentity.t) (s : SlotIndex) : Prop :=
  ∃ n, epoch_of h n = Some e ∧ begins_before h n s.

Record chain_ok h : Prop := {
  ch_typed : ∀ n e, epoch_of h n = Some e → cluster_typed e;
  ch_first : ClusterIdentity.is_well_formed (first_epoch h) = true;
  ch_next : ∀ n e e', epoch_of h n = Some e → epoch_of h (S n) = Some e' →
    ClusterIdentity.is_successor_of e' e = true;
  ch_anchors : ∀ n a a', anchor_of h n = Some a → anchor_of h (S n) = Some a' → a < a';
}.

Lemma epoch_of_S h n e :
  epoch_of h (S n) = Some e → is_Some (epoch_of h n) ∧ is_Some (anchor_of h n).
Proof.
  unfold epoch_of, anchor_of. cbn [lookup list_lookup]. intros He%lookup_lt_Some.
  rewrite length_fmap in He. split; apply lookup_lt_is_Some; simpl; rewrite length_fmap; lia.
Qed.

Lemma opens_later h e s s' : opens h e s → s ≤ s' → opens h e s'.
Proof.
  intros (n & Hn & Hb) Hle. exists n. split; [done|]. destruct n as [|n]; [done|].
  destruct Hb as (a & Ha & ?). exists a. split; [done|lia].
Qed.

Lemma opens_next h n e a :
  epoch_of h (S n) = Some e → anchor_of h n = Some a → opens h e (a + 1).
Proof. intros He Ha. exists (S n). split; [done|]. exists a. split; [done|lia]. Qed.

Lemma opens_first h s : opens h (first_epoch h) s.
Proof. by exists O. Qed.

Lemma single_epoch c n e : epoch_of (single c) n = Some e → n = O ∧ e = c.
Proof. destruct n; [by intros [= <-]|done]. Qed.

Lemma single_ok c :
  cluster_typed c → ClusterIdentity.is_well_formed c = true → chain_ok (single c).
Proof.
  intros Hty Hwf. split; try done.
  by intros n e [_ ->]%single_epoch.
Qed.

Section chain.
Context (h : chain) (Hok : chain_ok h).

Lemma epoch_well_formed n e : epoch_of h n = Some e → ClusterIdentity.is_well_formed e = true.
Proof using Hok.
  destruct n as [|n]; [intros [= <-]; by apply Hok|]. intros He.
  destruct (epoch_of_S _ _ _ He) as [[e0 He0] _].
  by destruct (successor_common_component _ _ (ch_next _ Hok _ _ _ He0 He)) as (? & _).
Qed.

Lemma epoch_number n : ∀ e,
  epoch_of h n = Some e →
  ClusterIdentity.epoch e = ClusterIdentity.epoch (first_epoch h) + Z.of_nat n.
Proof using Hok.
  induction n as [|n IH]; intros e He; [injection He as <-; lia|].
  destruct (epoch_of_S _ _ _ He) as [[e0 He0] _].
  destruct (successor_common_component _ _ (ch_next _ Hok _ _ _ He0 He)) as (_ & _ & -> & _).
  rewrite (IH _ He0). lia.
Qed.

Lemma epoch_of_inj n m e : epoch_of h n = Some e → epoch_of h m = Some e → n = m.
Proof using Hok. intros Hn%epoch_number Hm%epoch_number. lia. Qed.

Lemma anchors_increase n m a a' :
  (n < m)%nat → anchor_of h n = Some a → anchor_of h m = Some a' → a < a'.
Proof using Hok.
  intros Hlt Ha. revert a'. induction Hlt as [|m Hlt IH]; intros a' Ha'; [by eapply ch_anchors|].
  assert (is_Some (anchor_of h m)) as [b Hb].
  { apply lookup_lt_is_Some. apply lookup_lt_Some in Ha'. lia. }
  specialize (IH _ Hb). pose proof (ch_anchors _ Hok _ _ _ Hb Ha'). lia.
Qed.

(** Quorums of one epoch or of neighbours meet. *)
Lemma neighbours_meet n m e e' v w :
  epoch_of h n = Some e → epoch_of h m = Some e' → (n ≤ m ≤ S n)%nat →
  cluster_quorum e v → cluster_quorum e' w → ∃ r, r ∈ v ∧ r ∈ w.
Proof using Hok.
  intros He He' Hnm Hv Hw. assert (m = n ∨ m = S n) as [->| ->] by lia.
  - simplify_eq. eapply cluster_quorum_system; [..|done|done];
      [by eapply ch_typed|by eapply epoch_well_formed].
  - destruct (successor_common_component _ _ (ch_next _ Hok _ _ _ He He'))
      as (? & ? & _ & ms & f & ? & ?).
    destruct (common_component_meet e e' v w ms f) as (r & ? & ? & _);
      [by eapply ch_typed|by eapply ch_typed|done..|]. by exists r.
Qed.
End chain.

#[global] Instance begins_before_dec h n s : Decision (begins_before h n s).
Proof.
  destruct n as [|m]; simpl; [left; exact I|].
  destruct (anchor_of h m) as [a|]; [|right; by intros (a & ? & _)].
  destruct (decide (a < s)) as [Hlt|Hge]; [left; by exists a|].
  right. intros (a' & [= <-] & ?). by apply Hge.
Defined.
