(* ===== verification/System.v ===== *)
(** * The running system: proposers and recorders together

  A transition system built from the operations of the other files: recorders
  serve [RecorderCore.record], learn decisions, prune and restart; proposer
  sessions launch the requests of a phase, collect a quorum with
  [collect_quorum] and take the step [advance] computes. The network is
  monotone: any request ever sent may be served, or served again, at any
  time, and any reply may arrive late, or never. The membership changes along
  the way, as a chain of epochs says ([Epochs]): each recorder installs the
  next epoch when it is told, or joins in it, and sessions of two epochs may
  run side by side. The log of served requests stands for the history of every
  register, which is what the argument of [Consensus] speaks about. *)
From S2P Require Import Prelude Errors Types Membership Isr Recorder Proposer Consensus Epochs.

(** One call of [propose] under way. [requests] holds the phase's requests
    between launching them and taking the next step. *)
Record session (V R : Type) : Type := Session {
  core : ProposerCore.t R;
  slot : SlotIndex;
  leader : option ReplicaId;
  endpoints : list ReplicaId;
  quorum : Z;
  known : list (Decision.t V);
  at_step : Z;
  carrying : Proposal.t V;
  requests : option (list (ReplicaId * RecordRequest.t V));
}.
Arguments Session {V R} _ _ _ _ _ _ _ _ _.
Arguments core {V R} _.
Arguments slot {V R} _.
Arguments leader {V R} _.
Arguments endpoints {V R} _.
Arguments quorum {V R} _.
Arguments known {V R} _.
Arguments at_step {V R} _.
Arguments carrying {V R} _.
Arguments requests {V R} _.

Record state (V R : Type) : Type := State {
  recorders : gmap Z (RecorderCore.t V);
  sessions : gmap nat (session V R);
  started : list (SlotIndex * (ReplicaId * LaneId * list V));
  sent : list (ReplicaId * RecordRequest.t V);
  answered : list (ReplicaId * RecordRequest.t V * RecordReply.t V);
  decided_in : list (ClusterIdentity.t * Decision.t V);
}.
Arguments State {V R} _ _ _ _ _ _.
Arguments recorders {V R} _.
Arguments sessions {V R} _.
Arguments started {V R} _.
Arguments sent {V R} _.
Arguments answered {V R} _.
Arguments decided_in {V R} _.

(** The decisions sessions returned; [decided_in] says under which epoch. *)
Definition decided {V R} (σ : state V R) : list (Decision.t V) := (decided_in σ).*2.

Section system.
Context {V : Type} `{EqDecision V} {R : Type} `{!PrioritySource R}.
Context (c : chain).
Implicit Types σ : state V R.

Definition set_recorder σ (k : ReplicaId) (r : RecorderCore.t V) : state V R :=
  State (<[k := r]> (recorders σ)) (sessions σ) (started σ) (sent σ) (answered σ) (decided_in σ).

Definition set_session σ (i : nat) (ses : session V R) : state V R :=
  State (recorders σ) (<[i := ses]> (sessions σ)) (started σ) (sent σ) (answered σ) (decided_in σ).

Definition end_session σ (i : nat) : state V R :=
  State (recorders σ) (delete i (sessions σ)) (started σ) (sent σ) (answered σ) (decided_in σ).

Definition log_start σ entry : state V R :=
  State (recorders σ) (sessions σ) (started σ ++ [entry]) (sent σ) (answered σ) (decided_in σ).

Definition log_sent σ reqs : state V R :=
  State (recorders σ) (sessions σ) (started σ) (sent σ ++ reqs) (answered σ) (decided_in σ).

Definition log_answer σ entry : state V R :=
  State (recorders σ) (sessions σ) (started σ) (sent σ) (answered σ ++ [entry]) (decided_in σ).

Definition log_decision σ (epoch : ClusterIdentity.t) d : state V R :=
  State (recorders σ) (sessions σ) (started σ) (sent σ) (answered σ)
        (decided_in σ ++ [(epoch, d)]).

Lemma decided_log_decision σ epoch d : decided (log_decision σ epoch d) = decided σ ++ [d].
Proof. unfold decided. simpl. by rewrite fmap_app. Qed.

(** A session after [advance] returned a step and a proposal. *)
Definition continue (ses : session V R) (step : Z) (proposal : Proposal.t V) : session V R :=
  Session (core ses) (slot ses) (leader ses) (endpoints ses) (quorum ses) [] step proposal None.

(** A session after launching a phase. *)
Definition launch_phase (ses : session V R) (core' : ProposerCore.t R)
    (reqs : list (ReplicaId * RecordRequest.t V)) : session V R :=
  Session core' (slot ses) (leader ses) (endpoints ses) (quorum ses) (known ses)
          (at_step ses) (carrying ses) (Some reqs).

(** A replica proposes one batch on one lane per slot. *)
Definition consistent_start σ (s : SlotIndex) (o : ReplicaId * LaneId * list V) : Prop :=
  ∀ o', (s, o') ∈ started σ → o'.1.1 = o.1.1 → o' = o.

(** Epoch [n] has been ordered: a session of the epoch before returned the
    decision of its anchor. *)
Definition begun σ (n : nat) : Prop :=
  match n with
  | O => True
  | S m => ∃ e d, epoch_of c m = Some e ∧ anchor_of c m = Some (Decision.slot d)
             ∧ (e, d) ∈ decided_in σ
  end.

(** A change of the chain, with the decision that ordered it. *)
Definition ordered σ (n : nat) (change : MembershipChange.t V) : Prop :=
  ∃ e, epoch_of c n = Some e ∧ epoch_of c (S n) = Some (MembershipChange.next change)
    ∧ anchor_of c n = Some (Decision.slot (MembershipChange.anchor change))
    ∧ (e, MembershipChange.anchor change) ∈ decided_in σ.

(** A session proposes in slots after the anchor of its epoch. What a proposer
    checks of its endpoints, its leader and its quorum size before it starts
    differs between the synchronous and the asynchronous one; sessions start
    without those checks, so the runs of both are among these. *)
Inductive transition (σ : state V R) : state V R → Prop :=
| Start i n e p s values ld eps ds q proposal :
    sessions σ !! i = None →
    epoch_of c n = Some e → begins_before c n s →
    ProposerConfig.cluster (ProposerCore.config p) = Some e →
    Proposal.new (ProposalKey.new Priority.MAX (ProposerCore.replica_id p) (ProposerCore.lane_id p))
      values = Ok proposal →
    (∀ d, d ∈ ds → d ∈ decided σ) →
    consistent_start σ s (ProposerCore.replica_id p, ProposerCore.lane_id p, values) →
    transition σ
      (log_start (set_session σ i
                    (Session p s ld eps q ds Step.ROUND_ONE_PHASE_ZERO proposal None))
                 (s, (ProposerCore.replica_id p, ProposerCore.lane_id p, values)))
| Launch i ses core' reqs :
    sessions σ !! i = Some ses → requests ses = None →
    at_step ses ≤ ProposerConfig.max_steps (ProposerCore.config (core ses)) →
    ProposerCore.phase_requests (core ses) (slot ses) (leader ses) (known ses) (at_step ses)
      (carrying ses) (endpoints ses) = (core', Ok reqs) →
    transition σ (log_sent (set_session σ i (launch_phase ses core' reqs)) reqs)
| Serve k r ensure_available req r' reply :
    recorders σ !! k = Some r → (k, req) ∈ sent σ →
    RecorderCore.record ensure_available req r = (r', Ok reply) →
    transition σ (log_answer (set_recorder σ k r') (k, req, reply))
| Refuse k r ensure_available req r' e :
    recorders σ !! k = Some r → (k, req) ∈ sent σ →
    RecorderCore.record ensure_available req r = (r', Err e) →
    transition σ (set_recorder σ k r')
| Inform k r ds r' outcome :
    recorders σ !! k = Some r → (∀ d, d ∈ ds → d ∈ decided σ) →
    RecorderCore.inform_decisions ds r = (r', outcome) →
    transition σ (set_recorder σ k r')
| Prune k r s :
    recorders σ !! k = Some r →
    transition σ (set_recorder σ k (RecorderCore.prune_through r s))
| Restart k r r' :
    recorders σ !! k = Some r →
    RecorderCore.restore (RecorderCore.config r) (RecorderCore.snapshot r) = Ok r' →
    transition σ (set_recorder σ k r')
| Install k r n change r' outcome :
    recorders σ !! k = Some r → ordered σ n change →
    RecorderCore.install_membership change r = (r', outcome) →
    transition σ (set_recorder σ k r')
| Join k n e limits :
    recorders σ !! k = None → epoch_of c n = Some e → begun σ n →
    RecorderLimits.max_step limits ≤ U64.MAX →
    transition σ (set_recorder σ k (RecorderCore.new (RecorderConfig.mk k e limits)))
| Decide i ses e reqs io replies d :
    sessions σ !! i = Some ses → requests ses = Some reqs →
    ProposerConfig.cluster (ProposerCore.config (core ses)) = Some e →
    (∀ k reply, Arrival k (Ok reply) ∈ events io →
       ∃ req, (k, req) ∈ reqs ∧ (k, req, reply) ∈ answered σ) →
    collect_quorum reqs (quorum ses) (ProposerConfig.cluster (ProposerCore.config (core ses))) io
      = Ok replies →
    advance (slot ses) (leader ses) (at_step ses) (carrying ses) replies = Ok (inl d) →
    transition σ (log_decision (end_session σ i) e d)
| Advance i ses reqs io replies step' proposal' :
    sessions σ !! i = Some ses → requests ses = Some reqs →
    (∀ k reply, Arrival k (Ok reply) ∈ events io →
       ∃ req, (k, req) ∈ reqs ∧ (k, req, reply) ∈ answered σ) →
    collect_quorum reqs (quorum ses) (ProposerConfig.cluster (ProposerCore.config (core ses))) io
      = Ok replies →
    advance (slot ses) (leader ses) (at_step ses) (carrying ses) replies
      = Ok (inr (step', proposal')) →
    transition σ (set_session σ i (continue ses step' proposal'))
| Abandon i ses :
    sessions σ !! i = Some ses →
    transition σ (end_session σ i).

(** Fresh recorders of the first epoch, one per identity, whose step limit is a
    [u64]. *)
Definition initial σ : Prop :=
  (∀ k r, recorders σ !! k = Some r →
     ∃ limits, r = RecorderCore.new (RecorderConfig.mk k (first_epoch c) limits)
               ∧ RecorderLimits.max_step limits ≤ U64.MAX)
  ∧ sessions σ = ∅ ∧ started σ = [] ∧ sent σ = [] ∧ answered σ = [] ∧ decided_in σ = [].

Definition reachable σ : Prop := ∃ σ0, initial σ0 ∧ rtc transition σ0 σ.

(** ** The registers behind the log *)

Definition recorded_at (k : ReplicaId) (s : SlotIndex) (l : option ReplicaId)
    (entry : ReplicaId * RecordRequest.t V * RecordReply.t V) : option (Z * Proposal.t V) :=
  let '(k', req, _) := entry in
  if bool_decide (k' = k ∧ RecordRequest.slot req = s ∧ RecordRequest.round_one_leader req = l)
  then Some (RecordRequest.step req, RecordRequest.proposal req) else None.

(** What recorder [k] recorded in slot [s] for requests naming leader [l]. *)
Definition history σ (s : SlotIndex) (l : option ReplicaId) (k : ReplicaId)
    : list (Z * Proposal.t V) :=
  omap (recorded_at k s l) (answered σ).

Definition slot_registers σ (s : SlotIndex) (l : option ReplicaId) : registers V :=
  Registers (λ k, accepted (history σ s l k)) (λ k, clock (history σ s l k)).

Definition proposed_in σ (s : SlotIndex) (o : ReplicaId * LaneId * list V) : Prop :=
  (s, o) ∈ started σ.

(** Recorder [k] served a request while it was in epoch [e]. *)
Definition active σ (e : ClusterIdentity.t) (k : ReplicaId) : Prop :=
  ∃ req reply, (k, req, reply) ∈ answered σ ∧ RecordReply.cluster reply = e.

(** ... a request of slot [s]. *)
Definition active_in σ (e : ClusterIdentity.t) (s : SlotIndex) (k : ReplicaId) : Prop :=
  ∃ req reply, (k, req, reply) ∈ answered σ ∧ RecordReply.cluster reply = e
    ∧ RecordRequest.slot req = s.

(** A quorum of epoch [e] on slot [s]: the epoch may propose in the slot, and
    each member served the slot in that epoch. *)
Definition epoch_quorum σ (e : ClusterIdentity.t) (s : SlotIndex) (Q : list ReplicaId) : Prop :=
  (∃ n, epoch_of c n = Some e ∧ begins_before c n s) ∧ cluster_quorum e Q
  ∧ ∀ k, k ∈ Q → active_in σ e s k.

(** The quorums slot [s] has had. *)
Definition slot_quorum σ (s : SlotIndex) (Q : list ReplicaId) : Prop :=
  ∃ e, epoch_quorum σ e s Q.

Local Abbreviation ev σ s l := (evidence (slot_quorum σ s) (slot_registers σ s l)).
Local Abbreviation real σ s := (genuine (proposed_in σ s)).

(** ** The invariant *)

(** A recorder above its floor is what the log says, for one leader. *)
Definition linked σ (k : ReplicaId) (r : RecorderCore.t V) (s : SlotIndex) : Prop :=
  ∃ l, register r s = isr_of_history (history σ s l k)
    ∧ (∀ l', l' ≠ l → history σ s l' k = [])
    ∧ (RecorderCore.round_one_leaders r !! s = Some l
       ∨ (RecorderCore.round_one_leaders r !! s = None ∧ history σ s l k = [])).

Record recorder_ok σ (k : ReplicaId) (r : RecorderCore.t V) : Prop := {
  ok_id : RecorderCore.id r = k;
  ok_epoch : ∃ n, epoch_of c n = Some (RecorderCore.cluster r) ∧ begun σ n;
  ok_limit : RecorderLimits.max_step (RecorderCore.limits r) ≤ U64.MAX;
  ok_linked : ∀ s, RecorderCore.pruned_through r < s → linked σ k r s;
  ok_decisions : ∀ i d, RecorderCore.decisions r !! i = Some d →
    d ∈ decided σ ∧ Decision.slot d = i;
  ok_above : ∀ i d, RecorderCore.decisions r !! i = Some d → RecorderCore.pruned_through r < i;
}.

(** What a reply in the log tells, for good. *)
Record reply_ok σ (k : ReplicaId) (req : RecordRequest.t V) (reply : RecordReply.t V) : Prop := {
  ok_sent : (k, req) ∈ sent σ;
  ok_recorder : RecordReply.recorder reply = k;
  ok_first : reply_first reply
    = head (accepted (history σ (RecordRequest.slot req) (RecordRequest.round_one_leader req) k)
                     (reply_step reply));
  ok_first_some : is_Some (reply_first reply);
  ok_prior : reply_prior reply
    = max_proposal_by_key
        (accepted (history σ (RecordRequest.slot req) (RecordRequest.round_one_leader req) k)
                  (reply_step reply - 1));
  ok_clock : reply_step reply
    ≤ clock (history σ (RecordRequest.slot req) (RecordRequest.round_one_leader req) k);
  ok_not_behind : RecordRequest.step req ≤ reply_step reply;
  ok_accepted : RecordRequest.step req = reply_step reply →
    RecordRequest.proposal req
    ∈ accepted (history σ (RecordRequest.slot req) (RecordRequest.round_one_leader req) k)
               (reply_step reply);
  ok_reported : ∀ d, RecordReply.decision reply = Some d → d ∈ decided σ;
}.

Record request_ok σ (req : RecordRequest.t V) : Prop := {
  ok_evidence : ev σ (RecordRequest.slot req) (RecordRequest.round_one_leader req)
                   (RecordRequest.step req) (RecordRequest.proposal req);
  ok_genuine : real σ (RecordRequest.slot req) (RecordRequest.proposal req);
  ok_leader_only : leader_only (RecordRequest.round_one_leader req) (RecordRequest.step req)
                               (RecordRequest.proposal req);
  ok_known : ∀ d, d ∈ RecordRequest.known_decisions req → d ∈ decided σ;
}.

(** The requests a session launched are those of its current phase. *)
Definition of_phase (ses : session V R) (req : RecordRequest.t V) : Prop :=
  RecordRequest.slot req = slot ses ∧ RecordRequest.round_one_leader req = leader ses
  ∧ RecordRequest.step req = at_step ses
  ∧ (Step.phase (at_step ses) ≠ 0 → RecordRequest.proposal req = carrying ses).

Record session_ok σ (ses : session V R) : Prop := {
  ok_config : ∃ n e, ProposerConfig.cluster (ProposerCore.config (core ses)) = Some e
    ∧ epoch_of c n = Some e ∧ begins_before c n (slot ses);
  ok_carrying : ev σ (slot ses) (leader ses) (at_step ses) (carrying ses);
  ok_carrying_genuine : real σ (slot ses) (carrying ses);
  ok_own : at_step ses = 4 →
    Proposal.key (carrying ses)
    = ProposalKey.new Priority.MAX (ProposerCore.replica_id (core ses))
                      (ProposerCore.lane_id (core ses));
  ok_session_known : ∀ d, d ∈ known ses → d ∈ decided σ;
  ok_requests : ∀ reqs k req, requests ses = Some reqs → (k, req) ∈ reqs →
    (k, req) ∈ sent σ ∧ of_phase ses req;
}.

(** A decision in the log has one of the two grounds. *)
Definition decision_ok σ (d : Decision.t V) : Prop :=
  ∃ l p, decidable (slot_quorum σ (Decision.slot d)) l (slot_registers σ (Decision.slot d) l) p
    ∧ Decision.value_ids d = Proposal.value_ids p
    ∧ Decision.proposer d = ProposalKey.proposer_id (Proposal.key p)
    ∧ Decision.value_ids d ≠ [].

(** What recorder [k] served in epoch [m]; once it has left that epoch for
    [n], nothing later than the anchor that ended it. *)
Definition served_in σ (k : ReplicaId) (req : RecordRequest.t V) (reply : RecordReply.t V) : Prop :=
  ∃ r n m, recorders σ !! k = Some r ∧ epoch_of c n = Some (RecorderCore.cluster r)
    ∧ epoch_of c m = Some (RecordReply.cluster reply) ∧ (m ≤ n)%nat ∧ begun σ m
    ∧ ((m < n)%nat → ∃ a, anchor_of c m = Some a ∧ RecordRequest.slot req ≤ a).

Record invariant σ : Prop := {
  inv_recorders : ∀ k r, recorders σ !! k = Some r → recorder_ok σ k r;
  inv_answered : ∀ k req reply, (k, req, reply) ∈ answered σ → reply_ok σ k req reply;
  inv_sent : ∀ k req, (k, req) ∈ sent σ → request_ok σ req;
  inv_sessions : ∀ i ses, sessions σ !! i = Some ses → session_ok σ ses;
  inv_decided : ∀ d, d ∈ decided σ → decision_ok σ d;
  inv_started : ∀ s o o', (s, o) ∈ started σ → (s, o') ∈ started σ → o.1.1 = o'.1.1 → o = o';
  inv_one_leader : ∀ s k l l', history σ s l k ≠ [] → history σ s l' k ≠ [] → l = l';
  inv_served : ∀ k req reply, (k, req, reply) ∈ answered σ → served_in σ k req reply;
  inv_ordered : ∀ e d, (e, d) ∈ decided_in σ → ∃ Q, epoch_quorum σ e (Decision.slot d) Q;
}.

(** ** Facts survive as the logs grow *)

Definition extends σ σ' : Prop :=
  answered σ `prefix_of` answered σ' ∧ started σ ⊆ started σ' ∧ sent σ ⊆ sent σ'
  ∧ decided_in σ ⊆ decided_in σ'.

Lemma history_prefix σ σ' s l k :
  extends σ σ' → ∃ fresh, history σ' s l k = history σ s l k ++ fresh.
Proof. intros ([m Hm]&_). unfold history. rewrite Hm, omap_app. eauto. Qed.

Lemma slot_registers_grow σ σ' s l :
  extends σ σ' → grows_to (slot_registers σ s l) (slot_registers σ' s l).
Proof.
  intros He. split_and!; simpl.
  - intros k t. destruct (history_prefix σ σ' s l k He) as [m ->]. apply accepted_prefix.
  - intros k t Ht. destruct (history_prefix σ σ' s l k He) as [m ->]. by apply accepted_frozen.
  - intros k. destruct (history_prefix σ σ' s l k He) as [m ->]. apply clock_app.
Qed.

Lemma real_extends σ σ' s p : extends σ σ' → real σ s p → real σ' s p.
Proof. intros (_&Hs&_) Hp. by apply Hs. Qed.

Lemma active_in_extends σ σ' e s k : extends σ σ' → active_in σ e s k → active_in σ' e s k.
Proof.
  intros (Ha & _) (req & reply & Hin & ?). exists req, reply. split; [|done].
  by eapply elem_of_prefix.
Qed.

Lemma epoch_quorum_extends σ σ' e s Q :
  extends σ σ' → epoch_quorum σ e s Q → epoch_quorum σ' e s Q.
Proof.
  intros He (? & ? & Hall). split_and!; [done..|]. intros k Hk. by eapply active_in_extends, Hall.
Qed.

Lemma slot_quorum_extends σ σ' s Q : extends σ σ' → slot_quorum σ s Q → slot_quorum σ' s Q.
Proof. intros He (e & ?). exists e. by eapply epoch_quorum_extends. Qed.

Lemma decided_extends σ σ' d : extends σ σ' → d ∈ decided σ → d ∈ decided σ'.
Proof. intros (_&_&_&Hd) Hin. unfold decided in *. set_solver. Qed.

Lemma begun_extends σ σ' n : extends σ σ' → begun σ n → begun σ' n.
Proof. intros (_&_&_&Hd). destruct n; [done|]. intros (e & d & ? & ? & Hin). exists e, d. auto. Qed.

Lemma ev_extends σ σ' s l t p : extends σ σ' → ev σ s l t p → ev σ' s l t p.
Proof.
  intros He Hev. apply (evidence_weaken (slot_quorum σ s)).
  - intros Q. by apply slot_quorum_extends.
  - by eapply evidence_grows, Hev; apply slot_registers_grow.
Qed.

Lemma reply_ok_extends σ σ' k req reply :
  extends σ σ' → reply_ok σ k req reply → reply_ok σ' k req reply.
Proof.
  intros He [Hsent Hk Hf Hfs Hp Hc Hb Ha Hd].
  pose proof (slot_registers_grow σ σ' (RecordRequest.slot req)
                (RecordRequest.round_one_leader req) He) as (P&F&C). simpl in P, F, C.
  specialize (P k). specialize (F k). specialize (C k).
  split; try done.
  - by apply He.
  - destruct Hfs as [x Hx]. rewrite Hx in Hf. rewrite Hx. symmetry.
    eapply head_prefix; [apply P|done].
  - rewrite Hp. by rewrite F by lia.
  - lia.
  - intros Heq. eapply elem_of_prefix; [apply P|auto].
  - intros d Hdd. by eapply decided_extends, Hd.
Qed.

Lemma request_ok_extends σ σ' req : extends σ σ' → request_ok σ req → request_ok σ' req.
Proof.
  intros He [H1 H2 H3 H4]. split; try done.
  - by eapply ev_extends.
  - by eapply real_extends.
  - intros d Hd. by eapply decided_extends, H4.
Qed.

Lemma session_ok_extends σ σ' ses : extends σ σ' → session_ok σ ses → session_ok σ' ses.
Proof.
  intros He [H1 H2 H3 H4 H5 H6]. split; try done.
  - by eapply ev_extends.
  - by eapply real_extends.
  - intros d Hd. by eapply decided_extends, H5.
  - intros reqs k req Hr Hin. destruct (H6 reqs k req Hr Hin). split; [|done]. by apply He.
Qed.

Lemma decision_ok_extends σ σ' d : extends σ σ' → decision_ok σ d → decision_ok σ' d.
Proof.
  intros He (l & p & Hd & ?). exists l, p. split; [|done].
  apply (decidable_weaken (slot_quorum σ (Decision.slot d))).
  - intros Q. by apply slot_quorum_extends.
  - eapply decidable_grows; [|done]. by apply slot_registers_grow.
Qed.

Lemma recorder_ok_extends σ σ' k r :
  extends σ σ' → (∀ s l, history σ' s l k = history σ s l k) →
  recorder_ok σ k r → recorder_ok σ' k r.
Proof.
  intros He Ha [H1 (n & Hn & Hb) H3 H4 H5 H6]. split; try done.
  - exists n. split; [done|]. by eapply begun_extends.
  - intros s Hs. destruct (H4 s Hs) as (l & Hl). exists l. setoid_rewrite Ha. done.
  - intros i d Hd. destruct (H5 i d Hd). split; [by eapply decided_extends|done].
Qed.

(** Recorders keep their epoch, or are new, apart from the one that moves. *)
Definition same_epochs σ σ' : Prop :=
  ∀ k r, recorders σ !! k = Some r →
    ∃ r', recorders σ' !! k = Some r' ∧ RecorderCore.cluster r' = RecorderCore.cluster r.

Lemma served_in_extends σ σ' k req reply :
  extends σ σ' → same_epochs σ σ' → served_in σ k req reply → served_in σ' k req reply.
Proof.
  intros He Hs (r & n & m & Hr & Hn & Hm & Hle & Hb & Ha).
  destruct (Hs _ _ Hr) as (r' & Hr' & Hc). exists r', n, m. rewrite Hc.
  split_and!; try done. by eapply begun_extends.
Qed.

(** Everything but the recorders and the sessions that moved. *)
Lemma invariant_step σ σ' :
  invariant σ → extends σ σ' →
  (∀ k r, recorders σ' !! k = Some r → recorder_ok σ' k r) →
  (∀ k req reply, (k, req, reply) ∈ answered σ' →
     (k, req, reply) ∈ answered σ ∨ reply_ok σ' k req reply) →
  (∀ k req, (k, req) ∈ sent σ' → (k, req) ∈ sent σ ∨ request_ok σ' req) →
  (∀ i ses, sessions σ' !! i = Some ses → sessions σ !! i = Some ses ∨ session_ok σ' ses) →
  (∀ d, d ∈ decided σ' → d ∈ decided σ ∨ decision_ok σ' d) →
  (∀ s o o', (s, o) ∈ started σ' → (s, o') ∈ started σ' → o.1.1 = o'.1.1 → o = o') →
  (∀ s k l l', history σ' s l k ≠ [] → history σ' s l' k ≠ [] → l = l') →
  (∀ k req reply, (k, req, reply) ∈ answered σ' → served_in σ' k req reply) →
  (∀ e d, (e, d) ∈ decided_in σ' → (e, d) ∈ decided_in σ
     ∨ ∃ Q, epoch_quorum σ' e (Decision.slot d) Q) →
  invariant σ'.
Proof.
  intros [I1 I2 I3 I4 I5 I6 I7 I8 I9] He H1 H2 H3 H4 H5 H6 H7 H8 H9. split; try done.
  - intros k req reply [Hin|?]%H2; [|done]. by eapply reply_ok_extends, I2.
  - intros k req [Hin|?]%H3; [|done]. by eapply request_ok_extends, I3.
  - intros i ses [Hin|?]%H4; [|done]. by eapply session_ok_extends, I4.
  - intros d [Hin|?]%H5; [|done]. by eapply decision_ok_extends, I5.
  - intros e d [Hin|?]%H9; [|done]. destruct (I9 _ _ Hin) as (Q & ?). exists Q.
    by eapply epoch_quorum_extends.
Qed.

(** A step that answers nothing and moves no recorder to another epoch. *)
Lemma served_unchanged σ σ' :
  invariant σ → extends σ σ' → same_epochs σ σ' → answered σ' = answered σ →
  ∀ k req reply, (k, req, reply) ∈ answered σ' → served_in σ' k req reply.
Proof.
  intros Hinv He Hs Ha k req reply. rewrite Ha. intros Hin.
  by eapply served_in_extends, (inv_served _ Hinv).
Qed.

(** ** Everything accepted is justified *)

Lemma elem_of_history σ s l k t p :
  (t, p) ∈ history σ s l k →
  ∃ req reply, (k, req, reply) ∈ answered σ ∧ RecordRequest.slot req = s
    ∧ RecordRequest.round_one_leader req = l ∧ RecordRequest.step req = t
    ∧ RecordRequest.proposal req = p.
Proof.
  unfold history. intros ([[k' req] reply] & Hin & Hr)%list_elem_of_omap.
  unfold recorded_at in Hr. destruct (bool_decide _) eqn:Hb; [|done].
  apply bool_decide_eq_true in Hb as (->&?&?). injection Hr as <- <-. eauto 10.
Qed.

Lemma slot_justified σ s l :
  invariant σ → justified (slot_quorum σ s) (proposed_in σ s) l (slot_registers σ s l).
Proof.
  intros Hinv k t p Hp. simpl in Hp.
  apply accepted_recorded, elem_of_history in Hp as (req & reply & Hin & <- & <- & <- & <-).
  destruct (inv_answered σ Hinv _ _ _ Hin) as [Hsent].
  by destruct (inv_sent σ Hinv _ _ Hsent).
Qed.

(** ** What a session learns from a quorum of replies *)

Record answer_ok σ (ses : session V R) (reply : RecordReply.t V) : Prop := {
  an_first : ∃ x, reply_first reply = Some x
    ∧ head (acc (slot_registers σ (slot ses) (leader ses)) (RecordReply.recorder reply)
                (reply_step reply)) = Some x;
  an_prior : reply_prior reply
    = max_proposal_by_key (acc (slot_registers σ (slot ses) (leader ses))
                               (RecordReply.recorder reply) (reply_step reply - 1));
  an_clock : reply_step reply
    ≤ clk (slot_registers σ (slot ses) (leader ses)) (RecordReply.recorder reply);
  an_accepted : Step.phase (at_step ses) ≠ 0 → reply_step reply = at_step ses →
    carrying ses ∈ acc (slot_registers σ (slot ses) (leader ses))
                       (RecordReply.recorder reply) (at_step ses);
  an_reported : ∀ d, RecordReply.decision reply = Some d → d ∈ decided σ;
}.

(** The recorders of a completed phase: a quorum of the session's epoch, each of
    which served the slot in that epoch. *)
Lemma session_quorum σ ses e reqs io replies :
  session_ok σ ses → requests ses = Some reqs →
  ProposerConfig.cluster (ProposerCore.config (core ses)) = Some e →
  (∀ k reply, Arrival k (Ok reply) ∈ events io →
     ∃ req, (k, req) ∈ reqs ∧ (k, req, reply) ∈ answered σ) →
  collect_quorum reqs (quorum ses) (ProposerConfig.cluster (ProposerCore.config (core ses))) io
    = Ok replies →
  epoch_quorum σ e (slot ses) (RecordReply.recorder <$> replies).
Proof.
  intros Hses Hreqs Hcl Hio (Hall & _ & Hq)%collect_quorum_spec. rewrite Hcl in Hq, Hall.
  rewrite Forall_forall in Hall. split_and!; [|done|].
  { destruct (ok_config _ _ Hses) as (n & e' & Hcl' & Hn & Hb). exists n.
    rewrite Hcl in Hcl'. by injection Hcl' as ->. }
  intros k (reply & -> & Hr)%list_elem_of_fmap.
  destruct (Hall reply Hr) as [Harr He]. destruct (Hio _ _ Harr) as (req & Hin & Hans).
  exists req, reply. split_and!; [done|by apply He|].
  by destruct (ok_requests _ _ Hses _ _ _ Hreqs Hin) as [_ (Hs & _)].
Qed.

Lemma session_answers σ ses reqs io replies :
  invariant σ → session_ok σ ses → requests ses = Some reqs →
  (∀ k reply, Arrival k (Ok reply) ∈ events io →
     ∃ req, (k, req) ∈ reqs ∧ (k, req, reply) ∈ answered σ) →
  collect_quorum reqs (quorum ses) (ProposerConfig.cluster (ProposerCore.config (core ses))) io
    = Ok replies →
  slot_quorum σ (slot ses) (RecordReply.recorder <$> replies) ∧ Forall (answer_ok σ ses) replies.
Proof.
  intros Hinv Hses Hreqs Hio Hcol. split.
  { destruct (ok_config _ _ Hses) as (n & e & Hcl & Hn & Hb).
    exists e. by eapply session_quorum. }
  apply collect_quorum_spec in Hcol as (Hall & _). rewrite Forall_forall in Hall.
  apply Forall_forall. intros reply Hr. destruct (Hall reply Hr) as [Harr _].
  destruct (Hio _ _ Harr) as (req & Hin & Hans).
  destruct (ok_requests _ _ Hses _ _ _ Hreqs Hin) as [_ (Hs & Hl & Ht & Hp)].
  destruct (inv_answered σ Hinv _ _ _ Hans) as [_ _ Hf Hfs Hpr Hc _ Ha Hd].
  rewrite Hs, Hl, Ht in *. split; simpl; try done.
  - destruct Hfs as [x Hx]. exists x. by rewrite <-Hf.
  - intros Hph Heq. rewrite <-Hp by done. rewrite <-Heq. by apply Ha.
Qed.

Section learned.
Context (σ : state V R) (ses : session V R) (replies : list (RecordReply.t V)).
Context (Hinv : invariant σ) (Hses : session_ok σ ses).
Context (Hq : slot_quorum σ (slot ses) (RecordReply.recorder <$> replies)).
Context (Hans : Forall (answer_ok σ ses) replies).
Let regs := slot_registers σ (slot ses) (leader ses).

Lemma quorum_member k :
  k ∈ RecordReply.recorder <$> replies →
  ∃ reply, reply ∈ replies ∧ RecordReply.recorder reply = k ∧ answer_ok σ ses reply.
Proof using Hans.
  intros (reply & -> & Hr)%list_elem_of_fmap. exists reply. split_and!; [done..|].
  rewrite Forall_forall in Hans. by apply Hans.
Qed.

Lemma learned_first step p :
  (∀ reply, reply ∈ replies → reply_step reply = step) →
  max_proposal_by_key (omap reply_first replies) = Some p →
  best_first (slot_quorum σ (slot ses)) regs step p.
Proof using Hans Hq.
  intros Hstep Hmax. exists (RecordReply.recorder <$> replies). split_and!; [done| |].
  - apply max_proposal_elem in Hmax as (reply & Hr & Hf)%list_elem_of_omap.
    rewrite Forall_forall in Hans. destruct (Hans reply Hr) as [(x & Hx & Hh)].
    exists (RecordReply.recorder reply). split; [by apply list_elem_of_fmap_2|].
    rewrite Hstep in Hh by done. unfold regs. rewrite Hh. congruence.
  - intros k (reply & Hr & <- & [(x & Hx & Hh)])%quorum_member. exists x.
    rewrite Hstep in Hh by done. split; [done|]. eapply max_proposal_upper; [done|].
    apply list_elem_of_omap. by exists reply.
Qed.

Lemma learned_accepted :
  Step.phase (at_step ses) ≠ 0 →
  (∀ reply, reply ∈ replies → reply_step reply = at_step ses) →
  accepted_by_quorum (slot_quorum σ (slot ses)) regs (at_step ses) (carrying ses).
Proof using Hans Hq.
  intros Hph Hstep. exists (RecordReply.recorder <$> replies). split; [done|].
  intros k (reply & Hr & <- & Ha)%quorum_member. apply (an_accepted _ _ _ Ha Hph). by apply Hstep.
Qed.

(** What the replies report of the step before. *)
Lemma prior_upper q k x :
  (∀ reply, reply ∈ replies → reply_step reply = at_step ses) →
  max_proposal_by_key (omap reply_prior replies) = Some q →
  k ∈ RecordReply.recorder <$> replies → x ∈ acc regs k (at_step ses - 1) →
  ProposalKey.le (Proposal.key x) (Proposal.key q).
Proof using Hans.
  intros Hstep Hmax (reply & Hr & <- & Ha)%quorum_member Hx.
  pose proof (an_prior _ _ _ Ha) as Hp. rewrite (Hstep _ Hr) in Hp. fold regs in Hp.
  destruct (max_proposal_Some _ _ Hx) as [m Hm]. rewrite Hm in Hp.
  etrans; [by eapply max_proposal_upper|]. eapply max_proposal_upper; [done|].
  apply list_elem_of_omap. by exists reply.
Qed.

Lemma prior_elem q :
  (∀ reply, reply ∈ replies → reply_step reply = at_step ses) →
  max_proposal_by_key (omap reply_prior replies) = Some q →
  ∃ k, k ∈ RecordReply.recorder <$> replies ∧ q ∈ acc regs k (at_step ses - 1).
Proof using Hans.
  intros Hstep Hmax. apply max_proposal_elem in Hmax as (reply & Hr & Hf)%list_elem_of_omap.
  exists (RecordReply.recorder reply). split; [by apply list_elem_of_fmap_2|].
  rewrite Forall_forall in Hans. pose proof (an_prior _ _ _ (Hans reply Hr)) as Hp.
  rewrite (Hstep _ Hr), Hf in Hp. by apply max_proposal_elem.
Qed.

Lemma prior_absent k :
  (∀ reply, reply ∈ replies → reply_step reply = at_step ses) →
  max_proposal_by_key (omap reply_prior replies) = None →
  k ∈ RecordReply.recorder <$> replies → acc regs k (at_step ses - 1) = [].
Proof using Hans.
  intros Hstep Hnone%max_proposal_None (reply & Hr & <- & Ha)%quorum_member.
  pose proof (an_prior _ _ _ Ha) as Hp. rewrite (Hstep _ Hr) in Hp.
  destruct (reply_prior reply) as [x|] eqn:Hx; [|by apply max_proposal_None].
  assert (x ∈ omap reply_prior replies) as Hin by (apply list_elem_of_omap; by exists reply).
  rewrite Hnone in Hin. by apply elem_of_nil in Hin.
Qed.

Lemma learned_carried q :
  Step.phase (at_step ses) = 3 →
  (∀ reply, reply ∈ replies → reply_step reply = at_step ses) →
  max_proposal_by_key (omap reply_prior replies) = Some q
  ∨ (max_proposal_by_key (omap reply_prior replies) = None ∧ q = carrying ses) →
  carried (slot_quorum σ (slot ses)) regs (at_step ses + 1) q.
Proof using Hans Hq.
  intros Hph Hstep Hmax. exists (RecordReply.recorder <$> replies).
  replace (at_step ses + 1 - 1) with (at_step ses) by lia.
  replace (at_step ses + 1 - 2) with (at_step ses - 1) by lia. split_and!; [done| | |].
  - intros k (reply & Hr & <- & Ha)%quorum_member. rewrite <-(Hstep _ Hr). apply Ha.
  - intros k x Hk Hx. destruct Hmax as [Hmax|[Hnone _]]; [by eapply prior_upper|].
    rewrite prior_absent in Hx by done. by apply elem_of_nil in Hx.
  - destruct Hmax as [Hmax|[Hnone ->]]; [left; by apply prior_elem|right].
    intros k Hk. split; [by apply prior_absent|].
    apply quorum_member in Hk as (reply & Hr & <- & Ha).
    apply (an_accepted _ _ _ Ha); [|by apply Hstep]. by rewrite Hph.
Qed.

Lemma learned_fast step winner :
  (∀ reply, reply ∈ replies → reply_step reply = step) →
  fast_path_winner step replies (leader ses) = Some winner →
  fast_decided (slot_quorum σ (slot ses)) (leader ses) regs winner.
Proof using Hans Hq.
  intros Hstep. unfold fast_path_winner, Step.ROUND_ONE_PHASE_ZERO.
  destruct (Z.eqb_spec step 4) as [->|]; [simpl|done].
  destruct (head replies) as [r0|] eqn:Hhd; [simpl|done].
  destruct (reply_first r0) as [w|] eqn:Hw; [|done].
  unfold Priority.is_leader_priority.
  destruct (Z.eqb_spec (ProposalKey.priority (Proposal.key w)) Priority.MAX) as [Hp|]; [simpl|done].
  destruct (bool_decide _) eqn:Hl; [simpl|done]. apply bool_decide_eq_true in Hl.
  destruct (forallb _ _) eqn:Hall; [|done]. intros [= <-]. split_and!; [done..|].
  exists (RecordReply.recorder <$> replies). split_and!; [done| |].
  - rewrite Forall_forall in Hans. assert (r0 ∈ replies) as Hr by by apply head_Some_elem_of.
    destruct (Hans r0 Hr) as [(x & Hx & Hh)].
    exists (RecordReply.recorder r0). split; [by apply list_elem_of_fmap_2|].
    rewrite Hstep in Hh by done. unfold regs. congruence.
  - intros k (reply & Hr & <- & [(x & Hx & Hh)])%quorum_member. exists x.
    rewrite Hstep in Hh by done. split; [done|]. rewrite forallb_forall in Hall.
    apply list_elem_of_In, Hall in Hr. rewrite Hx in Hr. by apply bool_decide_eq_true in Hr.
Qed.

Lemma learned_phase_two :
  Step.phase (at_step ses) = 2 →
  (∀ reply, reply ∈ replies → reply_step reply = at_step ses) →
  max_proposal_by_key (omap reply_prior replies) = Some (carrying ses) →
  phase_two_decided (slot_quorum σ (slot ses)) regs (at_step ses) (carrying ses).
Proof using Hans Hq.
  intros Hph Hstep Hmax. split; [done|]. exists (RecordReply.recorder <$> replies).
  split_and!; [done| |].
  - intros k (reply & Hr & <- & Ha)%quorum_member. split.
    + apply (an_accepted _ _ _ Ha); [by rewrite Hph|by apply Hstep].
    + rewrite <-(Hstep _ Hr). apply Ha.
  - intros k x Hk Hx. by eapply prior_upper.
Qed.

Lemma find_decision_reported d : find_decision replies = Some d → d ∈ decided σ.
Proof using Hans.
  clear Hq regs. induction replies as [|reply rest IH]; simpl; [done|].
  apply Forall_cons in Hans as [Ha Hrest]. destruct (RecordReply.decision reply) eqn:Hd.
  - intros [= <-]. by apply Ha.
  - by apply IH.
Qed.

Lemma all_at_step :
  forallb (λ reply, reply_step reply =? at_step ses) replies = true →
  ∀ reply, reply ∈ replies → reply_step reply = at_step ses.
Proof. rewrite forallb_forall. intros Hall r Hr%list_elem_of_In. by apply Z.eqb_eq, Hall. Qed.

Lemma decision_from_proposal p step d :
  Decision.new (slot ses) (Proposal.value_ids p) (ProposalKey.proposer_id (Proposal.key p)) step
    = Ok d →
  decidable (slot_quorum σ (slot ses)) (leader ses) regs p → decision_ok σ d.
Proof.
  unfold Decision.new. destruct (is_empty (Proposal.value_ids p)) eqn:He; [done|].
  intros [= <-] Hd. exists (leader ses), p. simpl. split_and!; [done..|].
  by apply is_empty_false in He.
Qed.

Lemma advance_decision d :
  advance (slot ses) (leader ses) (at_step ses) (carrying ses) replies = Ok (inl d) →
  d ∈ decided σ ∨ decision_ok σ d.
Proof using Hans Hq.
  unfold advance. destruct (find_decision replies) as [d'|] eqn:Hfd.
  { destruct (_ || _); [done|]. intros [= <-]. left. by apply find_decision_reported. }
  destruct (forallb _ replies) eqn:Hall; last first.
  { destruct (max_by_step replies); [|done]. destruct (_ <? _); [|done].
    by destruct (reply_first _). }
  pose proof (all_at_step Hall) as Hstep. unfold phase_outcome.
  intros Hadv. right. destruct (Step.phase (at_step ses) =? 0).
  { destruct (fast_path_winner _ _ _) as [w|] eqn:Hw.
    - destruct (Decision.new _ _ _ _) as [d'|] eqn:Hd; [|done]. injection Hadv as <-.
      eapply decision_from_proposal; [done|]. left. by eapply learned_fast.
    - destruct (max_proposal_by_key _); simpl in Hadv; [|done].
      by destruct (Step.checked_next _). }
  destruct (Step.phase (at_step ses) =? 1); [by destruct (Step.checked_next _)|].
  destruct (Z.eqb_spec (Step.phase (at_step ses)) 2) as [Hph|].
  - destruct (max_proposal_by_key _) as [m|] eqn:Hm; [|by destruct (Step.checked_next _)].
    destruct (bool_decide _) eqn:Hb; [|by destruct (Step.checked_next _)].
    apply bool_decide_eq_true in Hb as <-.
    destruct (Decision.new _ _ _ _) as [d'|] eqn:Hd; [|done]. injection Hadv as <-.
    eapply decision_from_proposal; [done|]. right. eexists. by apply learned_phase_two.
  - destruct (max_proposal_by_key _); by destruct (Step.checked_next _).
Qed.

(** A proposal some recorder of the slot accepted may be carried on. *)
Lemma accepted_carries k step p :
  p ∈ acc regs k step → ev σ (slot ses) (leader ses) step p ∧ real σ (slot ses) p.
Proof using Hinv. intros Hp. by apply (slot_justified σ _ _ Hinv) in Hp as (?&?&_). Qed.

Lemma next_phase step n : Step.phase step = n → 0 ≤ n < 3 → (step + 1) mod 4 = n + 1.
Proof. unfold Step.phase. intros. mod_lia. Qed.

Lemma phase_outcome_carries p :
  (∀ reply, reply ∈ replies → reply_step reply = at_step ses) →
  phase_outcome (slot ses) (leader ses) (at_step ses) (carrying ses) replies = Ok (inr p) →
  ev σ (slot ses) (leader ses) (at_step ses + 1) p ∧ real σ (slot ses) p.
Proof using Hans Hq Hinv Hses.
  intros Hstep. pose proof (ok_carrying _ _ Hses) as (H4 & _).
  pose proof (ok_carrying_genuine _ _ Hses) as Hgen.
  unfold phase_outcome. destruct (Z.eqb_spec (Step.phase (at_step ses)) 0) as [Hph|Hne0].
  { destruct (fast_path_winner _ _ _) as [w|].
    { by destruct (Decision.new _ _ _ _). }
    destruct (max_proposal_by_key _) as [m|] eqn:Hm; [simpl|done]. intros [= <-].
    pose proof (learned_first _ _ Hstep Hm) as Hbf. split.
    - pose proof (next_phase _ _ Hph ltac:(lia)) as Hn.
      split_and!; [lia|lia| |lia|lia]. intros _.
      by replace (at_step ses + 1 - 1) with (at_step ses) by lia.
    - destruct Hbf as (Q & _ & (k & _ & Hh%head_Some_elem_of) & _).
      by eapply accepted_carries. }
  pose proof (learned_accepted Hne0 Hstep) as Hacc.
  assert (∀ n, Step.phase (at_step ses) = n → 0 < n < 3 →
            ev σ (slot ses) (leader ses) (at_step ses + 1) (carrying ses)) as Hkeep.
  { intros n Hph Hn. pose proof (next_phase _ _ Hph ltac:(lia)) as Hm.
    split_and!; [lia|lia|lia| |]; intros _;
      by replace (at_step ses + 1 - 1) with (at_step ses) by lia. }
  destruct (Z.eqb_spec (Step.phase (at_step ses)) 1) as [Hph|Hne1].
  { intros [= <-]. split; [eapply Hkeep; [done|lia]|done]. }
  destruct (Z.eqb_spec (Step.phase (at_step ses)) 2) as [Hph|Hne2].
  { assert (ev σ (slot ses) (leader ses) (at_step ses + 1) (carrying ses))
      by (eapply Hkeep; [done|lia]).
    destruct (max_proposal_by_key _) as [m|]; [|by intros [= <-]].
    destruct (bool_decide _); [by destruct (Decision.new _ _ _ _)|by intros [= <-]]. }
  assert (Step.phase (at_step ses) = 3) as Hph by (unfold Step.phase in *; mod_lia).
  assert (∀ q, carried (slot_quorum σ (slot ses)) regs (at_step ses + 1) q →
            ev σ (slot ses) (leader ses) (at_step ses + 1) q) as Hcar.
  { intros q Hc. unfold Step.phase in Hph.
    assert ((at_step ses + 1) mod 4 = 0) as Hm by mod_lia.
    split_and!; [lia| |lia..]. intros _. right. by exists q. }
  destruct (max_proposal_by_key _) as [m|] eqn:Hm; intros [= <-].
  - split; [apply Hcar, learned_carried; auto|].
    destruct (prior_elem _ Hstep Hm) as (k & _ & Hin). by eapply accepted_carries.
  - split; [apply Hcar, learned_carried; auto|done].
Qed.

Lemma advance_carries step p :
  advance (slot ses) (leader ses) (at_step ses) (carrying ses) replies = Ok (inr (step, p)) →
  ev σ (slot ses) (leader ses) step p ∧ real σ (slot ses) p
  ∧ (step = 4 → at_step ses = 4 ∧ p = carrying ses).
Proof using Hans Hq Hinv Hses.
  pose proof (ok_carrying _ _ Hses) as Hev. pose proof Hev as (H4 & _).
  pose proof (ok_carrying_genuine _ _ Hses) as Hgen.
  unfold advance. destruct (find_decision replies) as [d'|]; [by destruct (_ || _)|].
  destruct (forallb _ replies) eqn:Hall.
  - pose proof (all_at_step Hall) as Hstep.
    destruct (phase_outcome _ _ _ _ _) as [[d|q]|] eqn:Ho; [done| |done].
    destruct (Step.checked_next _) as [n|] eqn:Hn; [|done]. intros [= <- <-].
    apply U64.checked_add_Some in Hn as [-> _].
    apply phase_outcome_carries in Ho as [? ?]; [|done]. split_and!; [done..|lia].
  - destruct (max_by_step replies) as [reply|] eqn:Hm; [|intros [= <- <-]; auto].
    destruct (Z.ltb_spec (at_step ses) (reply_step reply)); [|intros [= <- <-]; auto].
    apply max_by_step_spec in Hm as [Hr _]. rewrite Forall_forall in Hans.
    destruct (Hans reply Hr) as [(x & Hx & Hh)]. rewrite Hx. intros [= <- <-].
    apply head_Some_elem_of in Hh. destruct (accepted_carries _ _ _ Hh).
    split_and!; [done..|lia].
Qed.
End learned.

(** ** Every transition keeps the invariant *)

Lemma same_logs_extend σ σ' :
  answered σ' = answered σ → started σ' = started σ → sent σ' = sent σ →
  decided_in σ' = decided_in σ → extends σ σ'.
Proof. unfold extends. by intros -> -> -> ->. Qed.

Lemma same_recorders σ σ' : recorders σ' = recorders σ → same_epochs σ σ'.
Proof. intros He k r Hr. rewrite He. eauto. Qed.

Lemma set_recorder_epochs σ k r0 r :
  recorders σ !! k = Some r0 → RecorderCore.cluster r = RecorderCore.cluster r0 →
  same_epochs σ (set_recorder σ k r).
Proof.
  intros Hk Hc k' r' Hr'. simpl. destruct (decide (k' = k)) as [->|Hne].
  - rewrite lookup_insert_eq. exists r. split; [done|]. congruence.
  - rewrite lookup_insert_ne by done. eauto.
Qed.

(** A recorder in the place of another, or a new one. *)
Lemma invariant_set_recorder σ k r :
  invariant σ → recorder_ok σ k r →
  (∀ k' req reply, (k', req, reply) ∈ answered σ → served_in (set_recorder σ k r) k' req reply) →
  invariant (set_recorder σ k r).
Proof.
  intros Hinv Hr Hs. assert (extends σ (set_recorder σ k r)) as He by by apply same_logs_extend.
  apply (invariant_step σ); try done; try (by auto); try apply Hinv.
  intros k' r'. simpl. rewrite lookup_insert_Some.
  intros [[<- <-]|[_ Hk'%(inv_recorders _ Hinv)]]; by eapply recorder_ok_extends.
Qed.

Lemma invariant_recorder σ k r0 r :
  invariant σ → recorders σ !! k = Some r0 → RecorderCore.cluster r = RecorderCore.cluster r0 →
  recorder_ok σ k r → invariant (set_recorder σ k r).
Proof.
  intros Hinv Hk Hc Hr. apply invariant_set_recorder; [done..|].
  apply (served_unchanged σ (set_recorder σ k r)); try done.
  by eapply set_recorder_epochs.
Qed.

Lemma prepare_Ok p values ld eps (ds : list (Decision.t V)) q proposal :
  ProposerCore.prepare (R:=R) p values ld eps ds = Ok (q, proposal) →
  Proposal.new (ProposalKey.new Priority.MAX (ProposerCore.replica_id p) (ProposerCore.lane_id p))
    values = Ok proposal.
Proof.
  unfold ProposerCore.prepare. destruct (validate_recorders _ _ _ _) as [n|]; [|done].
  destruct (match ld with Some _ => _ | None => _ end) as [[]|]; [|done].
  destruct (try_each _ ds) as [[]|]; [|done]. unfold Proposal.new.
  destruct (is_empty values); [done|]. by intros [= _ <-].
Qed.

Lemma ev_reprioritized σ s l t p p' :
  t mod 4 = 0 → origin p' = origin p → ev σ s l t p → ev σ s l t p'.
Proof.
  intros Ht Ho (H4 & H0 & _). split_and!; [done| |lia..]. intros Hm.
  destruct (H0 Hm) as [?|(q & ? & ?)]; [by left|right]. exists q. split; [done|congruence].
Qed.

Context `{!PrioritySourceLaws R}.

Lemma launched_request_ok σ ses p :
  session_ok σ ses → sends (core ses) (leader ses) (at_step ses) (carrying ses) p →
  let req := RecordRequest.mk (ProposerCore.replica_id (core ses)) (slot ses) (leader ses)
               (at_step ses) p (known ses) in
  request_ok σ req ∧ of_phase ses req.
Proof using PrioritySourceLaws0.
  intros [Hc Hev Hg Hown Hk Hr]. unfold sends, ProposerCore.randomizes, Step.phase.
  destruct (_ && _) eqn:Hrand.
  - intros (rng & rng' & pr & Hpr & ->). apply andb_true_iff in Hrand as [Hph%Z.eqb_eq _].
    apply next_below_range in Hpr. split; [split; simpl; try done|].
    + by apply (ev_reprioritized _ _ _ _ (carrying ses)).
    + intros _. simpl. split; [lia|]. lia.
    + by split_and!.
  - intros ->. split; [split; simpl; try done|by split_and!]. intros H4. simpl in H4.
    rewrite (Hown H4). simpl. split; [done|]. intros _. rewrite H4 in Hrand. simpl in Hrand.
    apply negb_false_iff, bool_decide_eq_true in Hrand. done.
Qed.

Lemma start_invariant σ i n e p s values ld eps ds q proposal :
  invariant σ → epoch_of c n = Some e → begins_before c n s →
  ProposerConfig.cluster (ProposerCore.config p) = Some e →
  Proposal.new (ProposalKey.new Priority.MAX (ProposerCore.replica_id p) (ProposerCore.lane_id p))
      values = Ok proposal →
  (∀ d, d ∈ ds → d ∈ decided σ) →
  consistent_start σ s (ProposerCore.replica_id p, ProposerCore.lane_id p, values) →
  invariant
    (log_start (set_session σ i
                  (Session p s ld eps q ds Step.ROUND_ONE_PHASE_ZERO proposal None))
               (s, (ProposerCore.replica_id p, ProposerCore.lane_id p, values))).
Proof.
  intros Hinv Hn Hb Hc Hp Hds Hcons. set (σ' := log_start _ _).
  unfold Proposal.new in Hp. destruct (is_empty values); [done|]. injection Hp as Hp.
  assert (extends σ σ') as He.
  { split_and!; simpl; try done. set_solver. }
  apply (invariant_step σ); try done; try apply Hinv; try (by auto).
  - intros k r Hr. eapply recorder_ok_extends; try done. by apply (inv_recorders _ Hinv).
  - intros j ses. simpl. rewrite lookup_insert_Some. intros [[_ <-]|[_ ?]]; [right|by left].
    split; simpl; subst proposal; try done.
    + by exists n, e.
    + split_and!; try done. by left.
    + unfold genuine, proposed_in. simpl. apply elem_of_app. right. left.
  - intros s' o o'. simpl. rewrite !elem_of_app, !list_elem_of_singleton.
    intros [H1|H1] [H2|H2] Heq; simplify_eq; try done.
    + by eapply (inv_started _ Hinv).
    + by apply Hcons.
    + symmetry. by apply Hcons.
Qed.

Lemma launch_invariant σ i ses core' reqs :
  invariant σ → sessions σ !! i = Some ses →
  ProposerCore.phase_requests (core ses) (slot ses) (leader ses) (known ses) (at_step ses)
    (carrying ses) (endpoints ses) = (core', Ok reqs) →
  invariant (log_sent (set_session σ i (launch_phase ses core' reqs)) reqs).
Proof using PrioritySourceLaws0.
  intros Hinv Hi Hreqs. pose proof (inv_sessions _ Hinv _ _ Hi) as Hses.
  apply phase_requests_spec in Hreqs as [[rng' ->] Hreqs]. set (σ' := log_sent _ _).
  assert (extends σ σ') as He.
  { split_and!; simpl; try done. set_solver. }
  assert (∀ k req, (k, req) ∈ reqs → request_ok σ req ∧ of_phase ses req) as Hok.
  { intros k req [j Hj]%list_elem_of_lookup.
    destruct (Forall2_lookup_r _ _ _ _ _ Hreqs Hj) as (k' & _ & p & [= _ ->] & Hs).
    by apply launched_request_ok. }
  apply (invariant_step σ); try done; try apply Hinv; try (by auto).
  - intros k r Hr. eapply recorder_ok_extends; try done. by apply (inv_recorders _ Hinv).
  - intros k req. simpl. intros [?|Hin]%elem_of_app; [by left|right].
    eapply request_ok_extends; [done|]. by eapply Hok.
  - intros j ses'. simpl. rewrite lookup_insert_Some. intros [[_ <-]|[_ ?]]; [right|by left].
    pose proof (session_ok_extends _ _ _ He Hses) as [H1 H2 H3 H4 H5 H6].
    split; simpl; try done. intros reqs' k req [= <-] Hin. split.
    + apply elem_of_app. by right.
    + by eapply Hok.
Qed.

Lemma decide_invariant σ i e d :
  invariant σ → d ∈ decided σ ∨ decision_ok σ d →
  (∃ Q, epoch_quorum σ e (Decision.slot d) Q) →
  invariant (log_decision (end_session σ i) e d).
Proof.
  intros Hinv Hd Hq. set (σ' := log_decision _ _ _).
  assert (extends σ σ') as He.
  { split_and!; simpl; try done. set_solver. }
  apply (invariant_step σ); try done; try apply Hinv; try (by auto).
  - intros k r Hr. eapply recorder_ok_extends; try done. by apply (inv_recorders _ Hinv).
  - intros j ses. simpl. intros [_ ?]%lookup_delete_Some. by left.
  - intros d'. unfold decided. simpl. rewrite fmap_app.
    intros [?| ->%list_elem_of_singleton]%elem_of_app; [by left|].
    destruct Hd; [by left|right]. by eapply decision_ok_extends.
  - apply (served_unchanged σ); try done. by apply same_recorders.
  - intros e' d'. simpl. intros [?|[= -> ->]%list_elem_of_singleton]%elem_of_app; [by left|right].
    destruct Hq as (Q & ?). exists Q. by eapply epoch_quorum_extends.
Qed.

Lemma session_invariant σ i (o : option (session V R)) :
  invariant σ → (∀ ses, o = Some ses → session_ok σ ses) →
  invariant (match o with Some ses => set_session σ i ses | None => end_session σ i end).
Proof.
  intros Hinv Ho. set (σ' := match o with Some _ => _ | None => _ end).
  assert (extends σ σ' ∧ recorders σ' = recorders σ ∧ answered σ' = answered σ
    ∧ sent σ' = sent σ ∧ started σ' = started σ ∧ decided_in σ' = decided_in σ)
    as (He & H1 & H2 & H3 & H4 & H5).
  { unfold σ'. destruct o; (split; [by apply same_logs_extend|done]). }
  apply (invariant_step σ); unfold decided; rewrite ?H1, ?H2, ?H3, ?H4, ?H5; try done; try (by auto).
  - intros k r Hr. eapply recorder_ok_extends; [done| |by apply (inv_recorders _ Hinv)].
    intros s l. unfold history. by rewrite H2.
  - intros j ses. unfold σ'. destruct o as [ses'|]; simpl.
    + rewrite lookup_insert_Some. intros [[_ <-]|[_ ?]]; [right|by left].
      eapply session_ok_extends; [done|]. by apply Ho.
    + intros [_ ?]%lookup_delete_Some. by left.
  - apply Hinv.
  - unfold history. rewrite H2. apply (inv_one_leader _ Hinv).
  - rewrite <-H2. apply (served_unchanged σ); try done. by apply same_recorders.
Qed.

Lemma continue_session_ok σ ses step p :
  session_ok σ ses → ev σ (slot ses) (leader ses) step p → real σ (slot ses) p →
  (step = 4 → at_step ses = 4 ∧ p = carrying ses) →
  session_ok σ (continue ses step p).
Proof.
  intros [H1 H2 H3 H4 H5 H6] Hev Hg Hown. split; simpl; try done.
  - intros Hs. destruct (Hown Hs) as [? ->]. by apply H4.
  - by intros d ?%elem_of_nil.
Qed.

(** ** Recorders move *)

(** Decisions are learned above the floor only. *)
Lemma decisions_above ds (r : RecorderCore.t V) i d :
  RecorderCore.decisions (for_each RecorderCore.inform_decision ds r).1 !! i = Some d →
  RecorderCore.decisions r !! i = Some d ∨ RecorderCore.pruned_through r < i.
Proof.
  revert r. induction ds as [|d0 ds IH]; intros r; simpl; [by left|]. unfold bind at 1.
  destruct (RecorderCore.inform_decision d0 r) as [r1 [[]|e]] eqn:E;
    apply inform_decision_cases in E as [->|(Hr&_&Hp&_&_&->)]; try discriminate Hr; simpl; auto.
  intros [Hi|?]%IH; [|by right]. simpl in Hi.
  apply lookup_insert_Some in Hi as [[<- _]|[_ Hi]]; auto.
Qed.

Lemma recorder_ok_learned σ k r r' :
  learned r r' →
  (∀ i d, RecorderCore.decisions r' !! i = Some d →
     RecorderCore.decisions r !! i = Some d
     ∨ (d ∈ decided σ ∧ Decision.slot d = i ∧ RecorderCore.pruned_through r < i)) →
  recorder_ok σ k r → recorder_ok σ k r'.
Proof.
  intros (Hc & Hs & Hl & Hp & _) Hd [H1 H2 H3 H4 H5 H6].
  split; unfold RecorderCore.id, RecorderCore.cluster, RecorderCore.limits in *;
    rewrite ?Hc, ?Hp; try done.
  - intros s Hs'. unfold linked, register. rewrite Hs, Hl. by apply H4.
  - intros i d [?|(?&?&_)]%Hd; [by eapply H5|done].
  - intros i d [?|(_&_&?)]%Hd; [by eapply H6|done].
Qed.

Lemma inform_invariant σ k r ds :
  invariant σ → recorders σ !! k = Some r → (∀ d, d ∈ ds → d ∈ decided σ) →
  invariant (set_recorder σ k (for_each RecorderCore.inform_decision ds r).1).
Proof.
  intros Hinv Hr Hds. pose proof (inform_all_learned ds r) as Hle.
  eapply invariant_recorder; [done..| |].
  { unfold RecorderCore.cluster. by destruct Hle as (-> & _). }
  eapply recorder_ok_learned; [done| |by apply (inv_recorders _ Hinv)].
  intros i d Hd. destruct (inform_all_decisions _ _ _ _ Hd) as [?|[? Hs]]; [by left|].
  destruct (decisions_above ds r i d) as [?|?]; [done|by left|]. right. auto.
Qed.

Lemma refuse_invariant σ k r ea req r' e :
  invariant σ → recorders σ !! k = Some r → (k, req) ∈ sent σ →
  RecorderCore.record ea req r = (r', Err e) → invariant (set_recorder σ k r').
Proof.
  intros Hinv Hr Hsent [->| ->]%record_Err_state.
  - eapply invariant_recorder; [done..|]. by apply (inv_recorders _ Hinv).
  - apply inform_invariant; [done..|]. by apply (inv_sent _ Hinv _ _ Hsent).
Qed.

Lemma prune_invariant σ k r s :
  invariant σ → recorders σ !! k = Some r →
  invariant (set_recorder σ k (RecorderCore.prune_through r s)).
Proof.
  intros Hinv Hr. eapply invariant_recorder; [done..|].
  destruct (inv_recorders _ Hinv _ _ Hr) as [H1 H2 H3 H4 H5 H6]. split; try done.
  - intros s' Hs. simpl in Hs. unfold linked, register. simpl.
    rewrite !lookup_retain, (proj2 (Z.ltb_lt s s')) by lia. apply H4. lia.
  - intros i d. simpl. rewrite lookup_retain. destruct (s <? i); [by apply H5|done].
  - intros i d. simpl. rewrite lookup_retain. destruct (Z.ltb_spec s i); [|done].
    intros Hd%H6. lia.
Qed.

(** ** A recorder serves a request *)

Lemma history_log_answer σ k req reply s l k' :
  history (log_answer σ (k, req, reply)) s l k'
  = history σ s l k'
    ++ (if bool_decide (k = k' ∧ RecordRequest.slot req = s
                        ∧ RecordRequest.round_one_leader req = l)
        then [(RecordRequest.step req, RecordRequest.proposal req)] else []).
Proof. unfold history. simpl. rewrite omap_app. simpl. by destruct (bool_decide _). Qed.

Lemma history_nonneg σ s l k : invariant σ → Forall (λ sp, 0 ≤ sp.1) (history σ s l k).
Proof.
  intros Hinv. apply Forall_forall. intros [t p] (req & reply & Hin & _ & _ & <- & _)%elem_of_history.
  destruct (inv_answered _ Hinv _ _ _ Hin) as [Hsent].
  destruct (inv_sent _ Hinv _ _ Hsent) as [(?&_)]. simpl. lia.
Qed.

(** The slot of a request a recorder accepts, under the request's leader. *)
Lemma linked_request σ k r (req : RecordRequest.t V) :
  recorder_ok σ k r → RecorderCore.pruned_through r < RecordRequest.slot req →
  RecorderCore.round_one_leaders r !! RecordRequest.slot req = None
  ∨ RecorderCore.round_one_leaders r !! RecordRequest.slot req
    = Some (RecordRequest.round_one_leader req) →
  register r (RecordRequest.slot req)
    = isr_of_history (history σ (RecordRequest.slot req) (RecordRequest.round_one_leader req) k)
  ∧ ∀ l, l ≠ RecordRequest.round_one_leader req → history σ (RecordRequest.slot req) l k = [].
Proof.
  intros Hok Hp Hl. destruct (ok_linked _ _ _ Hok _ Hp) as (l0 & Hreg & Hother & Hb).
  destruct Hb as [Hb|[Hb Hempty]].
  - destruct Hl as [Hl|Hl]; [congruence|]. rewrite Hl in Hb. injection Hb as ->. done.
  - assert (∀ l, history σ (RecordRequest.slot req) l k = []) as Hall.
    { intros l. destruct (decide (l = l0)) as [->|]; auto. }
    rewrite Hempty in Hreg. rewrite Hall. split; [done|]. intros l _. apply Hall.
Qed.

Lemma served_reply_ok σ k r ea req r' reply :
  invariant σ → recorders σ !! k = Some r → (k, req) ∈ sent σ →
  RecorderCore.record ea req r = (r', Ok reply) →
  reply_ok (log_answer (set_recorder σ k r') (k, req, reply)) k req reply.
Proof.
  intros Hinv Hr Hsent Hrec. pose proof (inv_recorders _ Hinv _ _ Hr) as Hok.
  apply record_Ok in Hrec as (Hv & Hp & Hl & _ & mid & _ & Hmid & _ & Hreply).
  destruct (linked_request _ _ _ _ Hok Hp Hl) as [Hreg _].
  assert (U64.fits (RecordRequest.step req)) as Hfit.
  { apply validate_request_step in Hv. pose proof (ok_limit _ _ _ Hok).
    unfold U64.fits. lia. }
  set (σ' := log_answer _ _).
  set (h := history σ (RecordRequest.slot req) (RecordRequest.round_one_leader req) k) in *.
  set (h' := h ++ [(RecordRequest.step req, RecordRequest.proposal req)]).
  rewrite Hreg, record_summary_of_history in Hreply by done. fold h' in Hreply.
  assert (history σ' (RecordRequest.slot req) (RecordRequest.round_one_leader req) k = h') as Hh.
  { unfold σ'. rewrite history_log_answer, bool_decide_true by done. done. }
  assert (accepted h' (clock h') ≠ []) as Hne.
  { apply accepted_clock; [by destruct h|]. apply Forall_app. split.
    - by apply history_nonneg.
    - constructor; [|constructor]. apply Hfit. }
  assert (clock h' = clock h `max` RecordRequest.step req) as Hck by apply clock_snoc.
  split; unfold reply_first, reply_prior, reply_step; rewrite ?Hh, ?Hreply; simpl; try done.
  - by destruct Hok.
  - by destruct (accepted h' (clock h')).
  - lia.
  - intros Heq. rewrite <-Heq. apply accepted_fresh. lia.
  - intros d Hd. pose proof (inform_all_decisions (RecordRequest.known_decisions req) r
      (RecordRequest.slot req) d) as Hall. rewrite Hmid in Hall. destruct (Hall Hd) as [?|[? _]].
    + by eapply (ok_decisions _ _ _ Hok).
    + by apply (inv_sent _ Hinv _ _ Hsent).
Qed.

Lemma served_recorder_ok σ k r ea req r' reply :
  invariant σ → recorders σ !! k = Some r → (k, req) ∈ sent σ →
  RecorderCore.record ea req r = (r', Ok reply) →
  recorder_ok (log_answer (set_recorder σ k r') (k, req, reply)) k r'.
Proof.
  intros Hinv Hr Hsent Hrec. pose proof (inv_recorders _ Hinv _ _ Hr) as Hok.
  apply record_Ok in Hrec as (Hv & Hp & Hl & _ & mid & Hle & Hmid & Hr' & _).
  destruct (linked_request _ _ _ _ Hok Hp Hl) as [Hreg Hother].
  assert (U64.fits (RecordRequest.step req)) as Hfit.
  { apply validate_request_step in Hv. pose proof (ok_limit _ _ _ Hok).
    unfold U64.fits. lia. }
  destruct Hle as (Hc & Hsl & Hld & Hpt & _).
  set (s := RecordRequest.slot req) in *. set (l := RecordRequest.round_one_leader req) in *.
  assert (RecorderCore.config r' = RecorderCore.config r
    ∧ RecorderCore.pruned_through r' = RecorderCore.pruned_through r
    ∧ RecorderCore.decisions r' = RecorderCore.decisions mid
    ∧ RecorderCore.round_one_leaders r' !! s = Some l
    ∧ ∀ s', s' ≠ s → RecorderCore.round_one_leaders r' !! s'
                     = RecorderCore.round_one_leaders r !! s') as (H1 & H2 & H3 & H4 & H5).
  { rewrite Hr'. unfold RecorderCore.bind_leader. rewrite Hld.
    destruct Hl as [Hn|Hs]; [rewrite Hn|rewrite Hs]; simpl; rewrite ?Hld; split_and!; try done.
    - by rewrite lookup_insert_eq.
    - intros s' Hs'. by rewrite lookup_insert_ne by done. }
  split; unfold RecorderCore.id, RecorderCore.cluster, RecorderCore.limits in *; rewrite ?H1;
    try apply Hok.
  - intros s' Hs'. rewrite H2 in Hs'. unfold linked. setoid_rewrite history_log_answer.
    destruct (decide (s' = s)) as [->|Hne].
    + exists l. rewrite bool_decide_true by done. split_and!.
      * unfold register. rewrite Hr'. simpl. rewrite lookup_insert_eq. simpl.
        rewrite Hreg. by apply record_isr_of_history.
      * intros l' Hl'. rewrite bool_decide_false by (intros (_&_&?); done).
        rewrite app_nil_r. by apply Hother.
      * by left.
    + destruct (ok_linked _ _ _ Hok s' Hs') as (l0 & Hreg0 & Hother0 & Hb0). exists l0.
      setoid_rewrite bool_decide_false; [|by intros (_&?&_)..].
      setoid_rewrite app_nil_r. rewrite H5 by done. split_and!; try done.
      unfold register in *. rewrite Hr'. simpl. by rewrite lookup_insert_ne.
  - intros i d. rewrite H3. simpl. intros Hd.
    pose proof (inform_all_decisions (RecordRequest.known_decisions req) r i d) as Hall.
    rewrite Hmid in Hall. destruct (Hall Hd) as [?|[??]].
    + by apply (ok_decisions _ _ _ Hok).
    + split; [by apply (inv_sent _ Hinv _ _ Hsent)|done].
  - intros i d. rewrite H2, H3. intros Hd.
    pose proof (decisions_above (RecordRequest.known_decisions req) r i d) as Hall.
    rewrite Hmid in Hall. destruct (Hall Hd) as [?|?]; [by eapply (ok_above _ _ _ Hok)|done].
Qed.

Lemma served_same_epoch (r r' : RecorderCore.t V) ea req reply :
  RecorderCore.record ea req r = (r', Ok reply) →
  RecorderCore.cluster r' = RecorderCore.cluster r
  ∧ RecordReply.cluster reply = RecorderCore.cluster r.
Proof.
  intros (_ & _ & _ & _ & mid & (Hc & _) & _ & -> & ->)%record_Ok. split; [|done].
  unfold RecorderCore.cluster in *. rewrite <-Hc. unfold RecorderCore.bind_leader.
  by destruct (RecorderCore.round_one_leaders mid !! _).
Qed.

Lemma serve_invariant σ k r ea req r' reply :
  invariant σ → recorders σ !! k = Some r → (k, req) ∈ sent σ →
  RecorderCore.record ea req r = (r', Ok reply) →
  invariant (log_answer (set_recorder σ k r') (k, req, reply)).
Proof.
  intros Hinv Hr Hsent Hrec. pose proof (inv_recorders _ Hinv _ _ Hr) as Hok.
  pose proof (served_recorder_ok _ _ _ _ _ _ _ Hinv Hr Hsent Hrec) as Hok'.
  pose proof (served_reply_ok _ _ _ _ _ _ _ Hinv Hr Hsent Hrec) as Hrep.
  pose proof (served_same_epoch _ _ _ _ _ Hrec) as [Hsame Hcl].
  apply record_Ok in Hrec as (_ & Hp & Hl & _).
  destruct (linked_request _ _ _ _ Hok Hp Hl) as [_ Hother].
  set (σ' := log_answer _ _) in *.
  assert (extends σ σ') as He.
  { split_and!; simpl; try done. by eexists. }
  apply (invariant_step σ); try done; try (by auto); try apply Hinv.
  - intros k' r0. simpl. rewrite lookup_insert_Some. intros [[<- <-]|[Hne Hk]]; [done|].
    eapply recorder_ok_extends; [done| |by apply (inv_recorders _ Hinv)].
    intros s l. unfold σ'. rewrite history_log_answer, bool_decide_false by naive_solver.
    by rewrite app_nil_r.
  - intros k' req' reply'. simpl.
    intros [?|[= -> -> ->]%list_elem_of_singleton]%elem_of_app; [by left|by right].
  - intros s k' l l'. unfold σ'. rewrite !history_log_answer.
    change (history (set_recorder σ k r')) with (history σ).
    assert (∀ l, history σ s l k' ++ (if bool_decide (k = k' ∧ RecordRequest.slot req = s
              ∧ RecordRequest.round_one_leader req = l)
              then [(RecordRequest.step req, RecordRequest.proposal req)] else []) ≠ [] →
            history σ s l k' ≠ [] ∨ (k = k' ∧ RecordRequest.slot req = s
              ∧ RecordRequest.round_one_leader req = l)) as Hor.
    { intros l0. destruct (bool_decide _) eqn:Hb.
      - apply bool_decide_eq_true in Hb. by right.
      - rewrite app_nil_r. by left. }
    intros [H1|(<-&<-&<-)]%Hor [H2|H2]%Hor.
    + by eapply (inv_one_leader _ Hinv).
    + destruct H2 as (<-&<-&<-). destruct (decide (l = RecordRequest.round_one_leader req));
        [done|]. by rewrite Hother in H1.
    + destruct (decide (l' = RecordRequest.round_one_leader req)); [done|].
      by rewrite Hother in H2.
    + by destruct H2 as (_&_&<-).
  - assert (same_epochs σ σ') as Hep by (by eapply set_recorder_epochs).
    intros k' req' reply'. simpl. intros [Hin|[= -> -> ->]%list_elem_of_singleton]%elem_of_app.
    { by eapply served_in_extends, (inv_served _ Hinv). }
    destruct (ok_epoch _ _ _ Hok) as (n & Hn & Hb). exists r', n, n.
    rewrite Hcl, Hsame. split_and!; [by apply lookup_insert_eq|done..|lia].
Qed.

(** ** A recorder enters another epoch *)

(** What it served is above its floor in an active slot, or below the floor. *)
Lemma served_slot_active σ k r req reply :
  invariant σ → recorders σ !! k = Some r → (k, req, reply) ∈ answered σ →
  RecorderCore.pruned_through r < RecordRequest.slot req →
  is_Some (RecorderCore.slots r !! RecordRequest.slot req).
Proof.
  intros Hinv Hr Hin Hp. pose proof (inv_recorders _ Hinv _ _ Hr) as Hok.
  destruct (ok_linked _ _ _ Hok _ Hp) as (l & Hreg & Hother & _).
  assert ((RecordRequest.step req, RecordRequest.proposal req)
          ∈ history σ (RecordRequest.slot req) (RecordRequest.round_one_leader req) k) as Hh.
  { unfold history. apply list_elem_of_omap. exists (k, req, reply). split; [done|].
    unfold recorded_at. by rewrite bool_decide_true. }
  destruct (decide (RecordRequest.round_one_leader req = l)) as [<-|Hne].
  2:{ rewrite (Hother _ Hne) in Hh. by apply elem_of_nil in Hh. }
  apply not_eq_None_Some. intros Hnone. unfold register in Hreg. rewrite Hnone in Hreg. simpl in Hreg.
  assert (4 ≤ clock (history σ (RecordRequest.slot req) (RecordRequest.round_one_leader req) k)) as Hc.
  { etrans; [|by eapply clock_bound]. destruct (inv_answered _ Hinv _ _ _ Hin) as [Hsent].
    by destruct (inv_sent _ Hinv _ _ Hsent) as [(?&_)]. }
  apply (f_equal IntervalSummaryRegister.step) in Hreg. simpl in Hreg. unfold Step.INITIAL in *. lia.
Qed.

(** The guard of [install_membership]: what a recorder served is not later
    than the anchor with which it leaves its epoch. *)
Lemma install_drained σ k r change req reply :
  invariant σ → recorders σ !! k = Some r → (k, req, reply) ∈ answered σ →
  RecorderCore.decisions r !! Decision.slot (MembershipChange.anchor change)
    = Some (MembershipChange.anchor change) →
  (∀ i, is_Some (RecorderCore.slots r !! i) ∨ is_Some (RecorderCore.decisions r !! i) →
        i ≤ Decision.slot (MembershipChange.anchor change)) →
  RecordRequest.slot req ≤ Decision.slot (MembershipChange.anchor change).
Proof.
  intros Hinv Hr Hin Ha Hd.
  destruct (Z.lt_ge_cases (RecorderCore.pruned_through r) (RecordRequest.slot req)) as [Hp|Hp].
  - apply Hd. left. by eapply served_slot_active.
  - pose proof (ok_above _ _ _ (inv_recorders _ Hinv _ _ Hr) _ _ Ha). lia.
Qed.

Context (Hchain : chain_ok c).

Lemma install_invariant σ k r n change r' outcome :
  invariant σ → recorders σ !! k = Some r → ordered σ n change →
  RecorderCore.install_membership change r = (r', outcome) →
  invariant (set_recorder σ k r').
Proof using Hchain.
  intros Hinv Hr (e & He & He' & Han & Hord) Hins.
  pose proof (inv_recorders _ Hinv _ _ Hr) as Hok.
  apply install_membership_cases in Hins as [->|(_ & _ & Hs & Ha & Hd & ->)].
  { by eapply invariant_recorder. }
  destruct Hok as [H1 (n0 & Hn0 & Hb0) H3 H4 H5 H6].
  assert (n0 = n) as ->.
  { apply successor_common_component in Hs as (_ & _ & Hep & _).
    rewrite (epoch_number _ Hchain _ _ He'), (epoch_number _ Hchain _ _ Hn0) in Hep. lia. }
  assert (begun σ (S n)) as Hb by (exists e, (MembershipChange.anchor change); by split_and!).
  apply invariant_set_recorder; [done| |].
  - split; try done. by exists (S n).
  - intros k' req reply Hin. destruct (decide (k' = k)) as [->|Hne].
    + destruct (inv_served _ Hinv _ _ _ Hin) as (r0 & n0 & m & Hr0 & Hn & Hm & Hle & Hbm & Hold).
      rewrite Hr in Hr0. injection Hr0 as <-.
      assert (n0 = n) as -> by (by eapply (epoch_of_inj _ Hchain)).
      eexists _, (S n), m. split_and!; [by apply lookup_insert_eq|done..|lia|done|].
      intros _. destruct (decide (m = n)) as [->|]; [|apply Hold; lia].
      eexists. split; [done|]. by eapply install_drained.
    + destruct (inv_served _ Hinv _ _ _ Hin) as (r0 & n0 & m & Hr0 & Hn & Hm & Hle & Hbm & Hold).
      exists r0, n0, m. split_and!; try done. simpl. by rewrite lookup_insert_ne.
Qed.

Lemma join_invariant σ k n e limits :
  invariant σ → recorders σ !! k = None → epoch_of c n = Some e → begun σ n →
  RecorderLimits.max_step limits ≤ U64.MAX →
  invariant (set_recorder σ k (RecorderCore.new (RecorderConfig.mk k e limits))).
Proof.
  intros Hinv Hk He Hb Hl.
  assert (∀ req reply, (k, req, reply) ∉ answered σ) as Hnew.
  { intros req reply (r & n0 & m & Hr & _)%(inv_served _ Hinv). congruence. }
  apply invariant_set_recorder; [done| |].
  - split; try done; [by exists n|]. intros s _. exists None.
    assert (∀ l, history σ s l k = []) as Hh.
    { intros l. destruct (history σ s l k) as [|[t p] h] eqn:E; [done|].
      assert ((t, p) ∈ history σ s l k) as (req & reply & Hin & _)%elem_of_history
        by (rewrite E; left). by apply Hnew in Hin. }
    rewrite Hh. split_and!; [done|by intros; rewrite Hh|by right].
  - intros k' req reply Hin. assert (k' ≠ k) as Hne by (intros ->; by apply Hnew in Hin).
    destruct (inv_served _ Hinv _ _ _ Hin) as (r0 & n0 & m & Hr0 & Hrest).
    exists r0, n0, m. split; [|done]. simpl. by rewrite lookup_insert_ne.
Qed.

Lemma initial_invariant σ : initial σ → invariant σ.
Proof.
  clear Hchain. intros (Hrec & Hs & Hst & Hse & Ha & Hd).
  assert (∀ s l k, history σ s l k = []) as Hh by (intros; unfold history; by rewrite Ha).
  split; unfold decided; rewrite ?Hs, ?Hst, ?Hse, ?Ha, ?Hd.
  - intros k r (lim & -> & Hlim)%Hrec. split; try done; [by exists O|].
    intros s _. exists None. rewrite Hh. split_and!; [done|by intros; rewrite Hh|by right].
  - by intros ??? ?%elem_of_nil.
  - by intros ?? ?%elem_of_nil.
  - by intros ??; rewrite lookup_empty.
  - by intros ? ?%elem_of_nil.
  - by intros ??? ?%elem_of_nil.
  - intros s k l l'. by rewrite Hh.
  - by intros ??? ?%elem_of_nil.
  - by intros ?? ?%elem_of_nil.
Qed.

Lemma active_in_active σ e s k : active_in σ e s k → active σ e k.
Proof. clear Hchain. intros (req & reply & ? & ? & _). by exists req, reply. Qed.

Lemma transition_invariant σ σ' : transition σ σ' → invariant σ → invariant σ'.
Proof using PrioritySourceLaws0 Hchain.
  intros Ht Hinv. destruct Ht.
  - by eapply start_invariant.
  - by eapply launch_invariant.
  - by eapply serve_invariant.
  - by eapply refuse_invariant.
  - unfold RecorderCore.inform_decisions in *.
    replace r' with (for_each RecorderCore.inform_decision ds r).1 by (by destruct (for_each _ _ _); simplify_eq).
    by apply inform_invariant.
  - by apply prune_invariant.
  - rewrite (restart_same r r') by done. eapply invariant_recorder; [done..|].
    by apply (inv_recorders _ Hinv).
  - by eapply install_invariant.
  - by eapply join_invariant.
  - pose proof (inv_sessions _ Hinv _ _ ltac:(eassumption)) as Hses.
    edestruct session_answers as [??]; [done..|].
    apply decide_invariant; [done|by eapply advance_decision|].
    eexists. erewrite advance_slot by done. by eapply session_quorum.
  - pose proof (inv_sessions _ Hinv _ _ ltac:(eassumption)) as Hses.
    edestruct session_answers as [??]; [done..|].
    apply (session_invariant σ i (Some (continue ses step' proposal'))); [done|].
    intros ? [= <-]. edestruct advance_carries as (?&?&?); [done..|].
    by apply continue_session_ok.
  - by apply (session_invariant σ i None).
Qed.

Lemma reachable_invariant σ : reachable σ → invariant σ.
Proof using PrioritySourceLaws0 Hchain.
  intros (σ0 & H0%initial_invariant & Hrtc). induction Hrtc; [done|].
  apply IHHrtc. by eapply transition_invariant.
Qed.

(** ** The quorums of one slot meet *)

Lemma quorum_inhabited e n Q : epoch_of c n = Some e → cluster_quorum e Q → ∃ k, k ∈ Q.
Proof using Hchain.
  intros He HQ. destruct (neighbours_meet _ Hchain n n e e Q Q He He) as (k & ? & _);
    [lia|done..|]. by exists k.
Qed.

(** An epoch that ended ordered its end with a quorum that served in it. *)
Lemma ended_epoch σ n :
  invariant σ → begun σ (S n) →
  ∃ e Q, epoch_of c n = Some e ∧ cluster_quorum e Q ∧ ∀ k, k ∈ Q → active σ e k.
Proof.
  clear Hchain. intros Hinv (e & d & He & _ & Hin).
  destruct (inv_ordered _ Hinv _ _ Hin) as (Q & _ & HQ & Hall). exists e, Q. split_and!; [done..|].
  intros k Hk. by eapply active_in_active, Hall.
Qed.

Lemma active_begun σ e n k : invariant σ → epoch_of c n = Some e → active σ e k → begun σ n.
Proof using Hchain.
  intros Hinv He (req & reply & Hin & <-).
  destruct (inv_served _ Hinv _ _ _ Hin) as (r & n0 & m & _ & _ & Hm & _ & Hb & _).
  by rewrite (epoch_of_inj _ Hchain _ _ _ He Hm).
Qed.

(** Epochs begin in order. *)
Lemma begun_before σ n m : invariant σ → (n ≤ m)%nat → begun σ m → begun σ n.
Proof using Hchain.
  intros Hinv Hle. induction Hle as [|m Hle IH]; [done|]. intros Hb. apply IH.
  destruct (ended_epoch σ m Hinv Hb) as (e & Q & He & HQ & Hall).
  destruct (quorum_inhabited e m Q He HQ) as [k Hk]. by eapply active_begun, Hall.
Qed.

(** A recorder that has served in a later epoch served nothing after the
    anchor of the earlier one. *)
Lemma served_before_anchor σ k n m e e' s :
  invariant σ → epoch_of c n = Some e → epoch_of c m = Some e' → (n < m)%nat →
  active_in σ e s k → active σ e' k → ∃ a, anchor_of c n = Some a ∧ s ≤ a.
Proof using Hchain.
  intros Hinv Hn Hm Hlt (req & reply & Hin & <- & <-) (req' & reply' & Hin' & <-).
  destruct (inv_served _ Hinv _ _ _ Hin) as (r & j & i & Hr & Hj & Hi & _ & _ & Hold).
  destruct (inv_served _ Hinv _ _ _ Hin') as (r' & j' & i' & Hr' & Hj' & Hi' & Hle & _).
  rewrite Hr in Hr'. injection Hr' as <-.
  rewrite (epoch_of_inj _ Hchain _ _ _ Hn Hi), (epoch_of_inj _ Hchain _ _ _ Hm Hi') in *.
  rewrite (epoch_of_inj _ Hchain _ _ _ Hj Hj') in *. apply Hold. lia.
Qed.

(** Once a quorum of epoch [n] has served slot [s], no quorum of a later epoch
    serves it: that of epoch [S n] shares a recorder, which left epoch [n] with
    nothing after the anchor, and later epochs propose only after it. *)
Lemma slot_epoch_last σ s n m e e' Q Q' :
  invariant σ → epoch_of c n = Some e → epoch_of c m = Some e' → begins_before c m s →
  epoch_quorum σ e s Q → epoch_quorum σ e' s Q' → (m ≤ n)%nat.
Proof using Hchain.
  intros Hinv Hn Hm Hs (_ & HQ & Hall) (_ & HQ' & Hall').
  destruct (decide (m ≤ n)%nat) as [|Hlater]; [done|exfalso].
  assert (∃ e1 P, epoch_of c (S n) = Some e1 ∧ cluster_quorum e1 P ∧ ∀ k, k ∈ P → active σ e1 k)
    as (e1 & P & He1 & HP & Hactive).
  { destruct (decide (m = S n)) as [->|].
    - exists e', Q'. split_and!; [done..|]. intros k Hk. by eapply active_in_active, Hall'.
    - apply ended_epoch; [done|]. apply (begun_before σ _ m); [done|lia|].
      destruct (quorum_inhabited e' m Q' Hm HQ') as [k Hk]. by eapply active_begun, active_in_active, Hall'. }
  destruct (neighbours_meet _ Hchain n (S n) e e1 Q P) as (w & Hw & Hw'); [done..|lia|done|done|].
  destruct (served_before_anchor σ w n (S n) e e1 s) as (a & Ha & Hle); [done..|lia|by apply Hall|
    by apply Hactive|].
  destruct m as [|m]; [lia|]. destruct Hs as (b & Hb & Hlt).
  destruct (decide (n = m)) as [->|]; [simplify_eq; lia|].
  pose proof (anchors_increase _ Hchain n m a b ltac:(lia) Ha Hb). lia.
Qed.

(** A slot has quorums of one epoch only. *)
Lemma slot_one_epoch σ s e e' Q Q' :
  invariant σ → epoch_quorum σ e s Q → epoch_quorum σ e' s Q' → e = e'.
Proof using Hchain.
  intros Hinv HQ HQ'. destruct (HQ) as ((n & Hn & Hs) & _). destruct (HQ') as ((m & Hm & Hs') & _).
  assert (m ≤ n)%nat by (by eapply slot_epoch_last).
  assert (n ≤ m)%nat by (by eapply (slot_epoch_last σ s m n)).
  assert (n = m) as -> by lia. by simplify_eq.
Qed.

Lemma slot_quorums_meet σ s : invariant σ → QuorumSystem (slot_quorum σ s).
Proof using Hchain.
  intros Hinv Q Q' (e & HQ) (e' & HQ').
  assert (e = e') as <- by (by eapply slot_one_epoch).
  destruct HQ as ((n & Hn & _) & HQ & _). destruct HQ' as (_ & HQ' & _).
  eapply (neighbours_meet _ Hchain n n); [done|done|lia|done|done].
Qed.

(** ** Agreement *)

Lemma decidable_quorum (quorums : list ReplicaId → Prop) l (a : registers V) p :
  decidable quorums l a p → ∃ Q, quorums Q ∧ ∀ k, k ∈ Q → ∃ s x, x ∈ acc a k s.
Proof.
  clear Hchain. intros [(_ & _ & Q & HQ & _ & Hall)|(s & _ & Q & HQ & Hall & _)]; exists Q;
    (split; [done|]); intros k Hk.
  - destruct (Hall k Hk) as (x & Hx%head_Some_elem_of & _). by exists 4, x.
  - destruct (Hall k Hk) as [Hx _]. by exists s, p.
Qed.

Lemma accepted_history (h : list (Z * Proposal.t V)) s x : x ∈ accepted h s → h ≠ [].
Proof. clear Hchain. intros Hx ->. by apply elem_of_nil in Hx. Qed.

(** Two decided proposals of one slot were decided under one leader. *)
Lemma decidable_one_leader σ s l l' p p' :
  invariant σ →
  decidable (slot_quorum σ s) l (slot_registers σ s l) p →
  decidable (slot_quorum σ s) l' (slot_registers σ s l') p' → l = l'.
Proof using Hchain.
  intros Hinv (Q & HQ & Hall)%decidable_quorum (Q' & HQ' & Hall')%decidable_quorum.
  destruct (slot_quorums_meet σ s Hinv Q Q' HQ HQ') as (k & Hk & Hk').
  destruct (Hall k Hk) as (t & x & Hx%accepted_history).
  destruct (Hall' k Hk') as (t' & x' & Hx'%accepted_history).
  by eapply (inv_one_leader _ Hinv).
Qed.

Lemma decisions_agree σ d d' :
  invariant σ → d ∈ decided σ → d' ∈ decided σ → Decision.slot d = Decision.slot d' →
  Decision.value_ids d = Decision.value_ids d' ∧ Decision.proposer d = Decision.proposer d'.
Proof using Hchain.
  intros Hinv (l & p & Hd & -> & -> & _)%(inv_decided _ Hinv)
    (l' & p' & Hd' & -> & -> & _)%(inv_decided _ Hinv) Hs.
  rewrite <-Hs in Hd'. assert (l = l') as <- by (by eapply decidable_one_leader).
  pose proof (slot_quorums_meet σ (Decision.slot d) Hinv).
  assert (origin p = origin p') as [= Hid _ Hv].
  { eapply (decidable_agree (slot_quorum σ (Decision.slot d))
              (proposed_in σ (Decision.slot d)) l); try done.
    - intros o o'. by apply (inv_started _ Hinv).
    - by apply slot_justified. }
  done.
Qed.

(** ... and in one epoch. *)
Lemma decisions_one_epoch σ e e' d d' :
  invariant σ → (e, d) ∈ decided_in σ → (e', d') ∈ decided_in σ →
  Decision.slot d = Decision.slot d' → e = e'.
Proof using Hchain.
  intros Hinv (Q & HQ)%(inv_ordered _ Hinv) (Q' & HQ')%(inv_ordered _ Hinv) Hs.
  rewrite <-Hs in HQ'. by eapply slot_one_epoch.
Qed.

Lemma decision_proposed σ d :
  invariant σ → d ∈ decided σ →
  Decision.value_ids d ≠ []
  ∧ ∃ lane, (Decision.slot d, (Decision.proposer d, lane, Decision.value_ids d)) ∈ started σ.
Proof using Hchain.
  intros Hinv (l & p & Hd & Hv & Hp & Hne)%(inv_decided _ Hinv). split; [done|].
  pose proof (slot_quorums_meet σ (Decision.slot d) Hinv).
  exists (ProposalKey.lane_id (Proposal.key p)). rewrite Hv, Hp.
  eapply (decidable_genuine (slot_quorum σ (Decision.slot d))
            (proposed_in σ (Decision.slot d)) l); try done.
  - intros o o'. by apply (inv_started _ Hinv).
  - by apply slot_justified.
Qed.
End system.
