(* ===== verification/Agreement.v ===== *)
(** * Agreement, validity and refinement of the running system

  The properties of every reachable state of [System], along any chain of
  membership changes: all decisions of a slot agree, a decision was proposed,
  the conflict alarm never fires, and the system refines a register machine
  that chooses at most one value per slot. An executable scheduler runs the
  system on concrete inputs. *)
From S2P Require Import Prelude Errors Types Membership Isr Recorder Proposer Consensus Epochs System.

(** ** The abstract machine: one value per slot *)

Module Spec.
Record t {V : Type} : Type := mk {
  proposed : list (SlotIndex * list V);
  chosen : gmap Z (list V);
}.
Arguments t : clear implicits.
Arguments mk {V} _ _.

(** A value is proposed; a proposed value is chosen in a slot without one. *)
Inductive step {V} (s : t V) : t V → Prop :=
| Propose slot values :
    step s (mk (proposed s ++ [(slot, values)]) (chosen s))
| Choose slot values :
    (slot, values) ∈ proposed s → values ≠ [] → chosen s !! slot = None →
    step s (mk (proposed s) (<[slot := values]> (chosen s)))
| Stutter : step s s.
End Spec.

Section abstraction.
Context {V R : Type}.
Implicit Types σ : state V R.

(** The first decision of a slot chooses its value. *)
Definition choose (m : gmap Z (list V)) (d : Decision.t V) : gmap Z (list V) :=
  match m !! Decision.slot d with
  | Some _ => m
  | None => <[Decision.slot d := Decision.value_ids d]> m
  end.

Definition chosen_values (ds : list (Decision.t V)) : gmap Z (list V) := fold_left choose ds ∅.

Definition abstraction σ : Spec.t V :=
  Spec.mk ((λ '(s, (_, _, values)), (s, values)) <$> started σ) (chosen_values (decided σ)).

Lemma chosen_values_snoc (ds : list (Decision.t V)) d : chosen_values (ds ++ [d]) = choose (chosen_values ds) d.
Proof. unfold chosen_values. by rewrite fold_left_app. Qed.

Lemma chosen_values_origin (ds : list (Decision.t V)) s v :
  chosen_values ds !! s = Some v →
  ∃ d, d ∈ ds ∧ Decision.slot d = s ∧ Decision.value_ids d = v.
Proof.
  revert v. induction ds as [|d ds IH] using rev_ind; [done|]. intros v.
  rewrite chosen_values_snoc. unfold choose.
  destruct (chosen_values ds !! Decision.slot d) eqn:E.
  - intros (d' & ? & ?)%IH. exists d'. rewrite elem_of_app. auto.
  - intros [[<- <-]|[_ (d' & ? & ?)%IH]]%lookup_insert_Some.
    + exists d. rewrite elem_of_app, list_elem_of_singleton. auto.
    + exists d'. rewrite elem_of_app. auto.
Qed.

Lemma chosen_values_dom (ds : list (Decision.t V)) d :
  d ∈ ds → is_Some (chosen_values ds !! Decision.slot d).
Proof.
  induction ds as [|d' ds IH] using rev_ind; [by intros ?%elem_of_nil|].
  rewrite chosen_values_snoc. unfold choose.
  intros [Hd%IH| ->%list_elem_of_singleton]%elem_of_app;
    destruct (chosen_values ds !! Decision.slot d') eqn:E; try done.
  - rewrite lookup_insert. case_decide; [by eexists|done].
  - rewrite lookup_insert_eq. by eexists.
Qed.
End abstraction.

(** ** The conflict alarm *)

Section alarm.
Context {V : Type} `{EqDecision V}.
Implicit Types r : RecorderCore.t V.

Lemma inform_decision_conflict d r r' i :
  RecorderCore.inform_decision d r = (r', Err (QuePaxaError.ConflictingDecision i)) →
  ∃ existing, RecorderCore.decisions r !! Decision.slot d = Some existing
    ∧ Decision.value_ids existing ≠ Decision.value_ids d.
Proof.
  unfold RecorderCore.inform_decision, bind, readr, reads, ret, throw, modify.
  destruct (RecorderCore.validate_decision r d) as [[]|e] eqn:Hv.
  - destruct (_ <=? _); [done|].
    destruct (RecorderCore.decisions r !! Decision.slot d) as [ex|]; [|by destruct (_ =? _)].
    destruct (bool_decide _) eqn:Hb; [done|]. intros _. exists ex. split; [done|].
    by apply bool_decide_eq_false in Hb.
  - intros [= _ ->]. unfold RecorderCore.validate_decision in Hv.
    repeat match type of Hv with (if ?b then _ else _) = _ => destruct b; [done|] end. done.
Qed.

(** The decisions [D] of every slot have one value. *)
Definition coherent (D : list (Decision.t V)) : Prop :=
  ∀ d d', d ∈ D → d' ∈ D → Decision.slot d = Decision.slot d' →
  Decision.value_ids d = Decision.value_ids d'.

Definition learned_from (D : list (Decision.t V)) r : Prop :=
  ∀ i d, RecorderCore.decisions r !! i = Some d → d ∈ D ∧ Decision.slot d = i.

Lemma inform_all_no_conflict D ds r r' i :
  coherent D → learned_from D r → ds ⊆ D →
  for_each RecorderCore.inform_decision ds r
    ≠ (r', Err (QuePaxaError.ConflictingDecision i)).
Proof.
  intros Hco. revert r. induction ds as [|d ds IH]; intros r Hr Hds; simpl; [done|].
  assert (d ∈ D) as Hd by (apply Hds; left).
  intros [Herr|(r1 & [] & Hok & Hrest)]%bind_Err.
  - apply inform_decision_conflict in Herr as (ex & Hex & Hne).
    destruct (Hr _ _ Hex) as [Hin Hs]. by apply Hne, Hco.
  - apply (IH r1); [|by set_solver|done]. intros j d' Hd'.
    pose proof (inform_all_decisions [d] r j d') as Hall. simpl in Hall.
    unfold bind in Hall. rewrite Hok in Hall.
    destruct (Hall Hd') as [?|[->%list_elem_of_singleton ?]]; [by apply Hr|done].
Qed.

Lemma record_no_conflict D ea req r r' i :
  coherent D → learned_from D r → RecordRequest.known_decisions req ⊆ D →
  (∀ values j, ea values ≠ Err (QuePaxaError.ConflictingDecision j)) →
  RecorderCore.record ea req r ≠ (r', Err (QuePaxaError.ConflictingDecision i)).
Proof.
  intros Hco Hr Hds Hea Hrec. unfold RecorderCore.record in Hrec.
  apply bind_Err in Hrec as [[= _ Hv]|(s1&[]&[= <- _]&Hrec)].
  { unfold RecorderCore.validate_request, RecorderCore.validate_proposal in Hv.
    split_guards. }
  apply bind_Err in Hrec as [[=]|(s1&x&[= <- <-]&Hrec)].
  destruct (_ <=? _); [done|].
  destruct (match RecorderCore.round_one_leaders r !! _ with Some _ => _ | None => _ end); [done|].
  apply bind_Err in Hrec as [[= _ He]|(s1&[]&[= <- _]&Hrec)]; [by apply Hea in He|].
  apply bind_Err in Hrec as [Hmid|(mid&[]&Hmid&Hrec)].
  { by eapply inform_all_no_conflict in Hmid. }
  apply bind_Err in Hrec as [[=]|(s1&x&[= <- <-]&Hrec)]. destruct (_ && _); [done|].
  apply bind_Err in Hrec as [[=]|(s1&x&[= <- <-]&Hrec)].
  apply bind_Err in Hrec as [Hrec|(s1&sum&_&[=])].
  unfold RecorderCore.record_slot in Hrec. by destruct (IntervalSummaryRegister.record _ _ _).
Qed.
End alarm.

(** ** Properties of the running system *)

Section properties.
Context {V : Type} `{EqDecision V} {R : Type} `{!PrioritySource R, !PrioritySourceLaws R}.
Context (c : chain).
Implicit Types σ : state V R.

Lemma chosen_agrees σ d :
  chain_ok c → invariant c σ → d ∈ decided σ →
  chosen_values (decided σ) !! Decision.slot d = Some (Decision.value_ids d).
Proof.
  intros Hok Hinv Hd. destruct (chosen_values_dom _ _ Hd) as [v Hv]. rewrite Hv.
  apply chosen_values_origin in Hv as (d' & Hd' & Hs & <-).
  by destruct (decisions_agree c Hok σ d' d Hinv Hd' Hd Hs) as [-> _].
Qed.

Lemma decided_in_decided σ e d : (e, d) ∈ decided_in σ → d ∈ decided σ.
Proof. intros Hin. apply list_elem_of_fmap. by exists (e, d). Qed.

(** C2: agreement: in every reachable state, whatever the interleaving of
    proposers, recorders, retries, prunings, restarts and membership changes,
    and even when proposers disagree on the round-one leader, two decisions for
    one slot carry the same values and the same proposer, and both were
    reached in one and the same membership epoch. The callers keep their part of
    the contract ([consistent_start]): a replica starts its proposers for one
    slot with one batch and one lane. *)
Theorem agreement σ e e' d d' :
  chain_ok c → reachable c σ →
  (e, d) ∈ decided_in σ → (e', d') ∈ decided_in σ → Decision.slot d = Decision.slot d' →
  Decision.value_ids d = Decision.value_ids d' ∧ Decision.proposer d = Decision.proposer d'
  ∧ e = e'.
Proof using PrioritySourceLaws0.
  intros Hok Hr%(reachable_invariant _ Hok) Hd Hd' Hs.
  destruct (decisions_agree c Hok σ d d') as [??]; eauto using decided_in_decided.
  split_and!; [done..|]. by eapply (decisions_one_epoch c Hok).
Qed.

(** C10: validity: a decision carries a non-empty batch that its named proposer
    did propose in that slot. *)
Theorem validity σ d :
  chain_ok c → reachable c σ → d ∈ decided σ →
  Decision.value_ids d ≠ []
  ∧ ∃ lane, (Decision.slot d, (Decision.proposer d, lane, Decision.value_ids d)) ∈ started σ.
Proof using PrioritySourceLaws0.
  intros Hok Hr. apply (decision_proposed c Hok). by apply reachable_invariant.
Qed.

Lemma decided_coherent σ : chain_ok c → invariant c σ → coherent (decided σ).
Proof. intros Hok Hinv d d' Hd Hd' Hs. by apply (decisions_agree c Hok σ). Qed.

(** C11: the safety alarm never fires: in a reachable state no recorder answers
    a request of the system, or the announcement of decisions, with
    [ConflictingDecision] (the availability guard not raising it itself), given
    that replicas start their proposers as [consistent_start] says. *)
Theorem no_conflict_alarm σ k r :
  chain_ok c → reachable c σ → recorders σ !! k = Some r →
  (∀ ea req r' s, (k, req) ∈ sent σ →
     (∀ values j, ea values ≠ Err (QuePaxaError.ConflictingDecision j)) →
     RecorderCore.record ea req r ≠ (r', Err (QuePaxaError.ConflictingDecision s)))
  ∧ (∀ ds r' s, ds ⊆ decided σ →
     RecorderCore.inform_decisions ds r ≠ (r', Err (QuePaxaError.ConflictingDecision s))).
Proof using PrioritySourceLaws0.
  intros Hok Hreach Hr. pose proof (reachable_invariant _ Hok _ Hreach) as Hinv.
  pose proof (decided_coherent σ Hok Hinv) as Hco.
  pose proof (inv_recorders _ _ Hinv _ _ Hr) as Hrok. pose proof (ok_decisions _ _ _ _ Hrok) as Hl.
  split.
  - intros ea req r' s Hsent Hea. eapply record_no_conflict; try done. intros d.
    apply (inv_sent _ _ Hinv _ _ Hsent).
  - intros ds r' s Hds. by eapply inform_all_no_conflict.
Qed.

(** C5: refinement: every transition of the system is a step of the machine
    that chooses at most one proposed value per slot, and every decision a
    proposer returns is the value that machine has chosen (under the callers'
    contract [consistent_start]). *)
Theorem system_refines_spec σ σ' :
  chain_ok c → reachable c σ → transition c σ σ' →
  Spec.step (abstraction σ) (abstraction σ')
  ∧ ∀ d, d ∈ decided σ' →
      Spec.chosen (abstraction σ') !! Decision.slot d = Some (Decision.value_ids d).
Proof using PrioritySourceLaws0.
  intros Hok Hreach Ht. pose proof (reachable_invariant _ Hok _ Hreach) as Hinv.
  pose proof (transition_invariant _ Hok _ _ Ht Hinv) as Hinv'. split.
  2:{ intros d Hd. by apply chosen_agrees. }
  destruct Ht; try apply Spec.Stutter.
  - unfold abstraction. simpl. rewrite fmap_app. apply (Spec.Propose (abstraction σ)).
  - unfold abstraction. rewrite decided_log_decision, chosen_values_snoc. unfold choose.
    change (decided (end_session σ i)) with (decided σ). simpl.
    destruct (chosen_values (decided σ) !! Decision.slot d) eqn:E; [apply Spec.Stutter|].
    destruct (decision_proposed c Hok _ d Hinv') as [Hne [lane Hl]].
    { rewrite decided_log_decision. apply elem_of_app. right. left. }
    apply (Spec.Choose (abstraction σ)); [|done..]. simpl. apply list_elem_of_fmap.
    by exists (Decision.slot d, (Decision.proposer d, lane, Decision.value_ids d)).
Qed.
End properties.

(** ** Running the system *)

#[global] Instance request_eq_dec `{EqDecision V} : EqDecision (RecordRequest.t V).
Proof. solve_decision. Defined.

Inductive action (V R : Type) : Type :=
| DoStart (i epoch : nat) (core : ProposerCore.t R) (slot : SlotIndex) (values : list V)
    (leader : option ReplicaId) (endpoints : list ReplicaId) (known : list (Decision.t V))
| DoLaunch (i : nat)
| DoServe (recorder : ReplicaId) (nth_sent : nat)
| DoInform (recorder : ReplicaId) (decisions : list (Decision.t V))
| DoPrune (recorder : ReplicaId) (slot : SlotIndex)
| DoRestart (recorder : ReplicaId)
| DoInstall (recorder : ReplicaId) (epoch : nat) (change : MembershipChange.t V)
| DoJoin (recorder : ReplicaId) (epoch : nat)
| DoCollect (i : nat) (nth_answered : list nat)
| DoAbandon (i : nat).
Arguments DoStart {V R} _ _ _ _ _ _ _ _.
Arguments DoLaunch {V R} _.
Arguments DoServe {V R} _ _.
Arguments DoInform {V R} _ _.
Arguments DoPrune {V R} _ _.
Arguments DoRestart {V R} _.
Arguments DoInstall {V R} _ _ _.
Arguments DoJoin {V R} _ _.
Arguments DoCollect {V R} _ _.
Arguments DoAbandon {V R} _.

Section scheduler.
Context {V : Type} `{EqDecision V} {R : Type} `{!PrioritySource R}.
Context (c : chain).
Implicit Types σ : state V R.

Definition guard_that {A} (b : bool) (k : option A) : option A := if b then k else None.

(** [begun] and [ordered], decided. *)
Definition begunb σ (n : nat) : bool :=
  match n with
  | O => true
  | S m => existsb (λ ed, bool_decide (epoch_of c m = Some ed.1)
                          && bool_decide (anchor_of c m = Some (Decision.slot ed.2))) (decided_in σ)
  end.

Definition orderedb σ (n : nat) (change : MembershipChange.t V) : bool :=
  match epoch_of c n with
  | Some e => bool_decide (epoch_of c (S n) = Some (MembershipChange.next change))
      && bool_decide (anchor_of c n = Some (Decision.slot (MembershipChange.anchor change)))
      && bool_decide ((e, MembershipChange.anchor change) ∈ decided_in σ)
  | None => false
  end.

Definition exec (a : action V R) σ : option (state V R) :=
  match a with
  | DoStart i n p s values ld eps ds =>
      let o := (ProposerCore.replica_id p, ProposerCore.lane_id p, values) in
      guard_that (bool_decide (sessions σ !! i = None)
                  && bool_decide (is_Some (epoch_of c n))
                  && bool_decide (begins_before c n s)
                  && bool_decide (ProposerConfig.cluster (ProposerCore.config p) = epoch_of c n)
                  && forallb (λ d, bool_decide (d ∈ decided σ)) ds
                  && forallb (λ so, negb (so.1 =? s) || negb (so.2.1.1 =? o.1.1)
                                    || bool_decide (so.2 = o)) (started σ))
        match ProposerCore.prepare p values ld eps ds with
        | Ok (q, proposal) =>
            Some (log_start (set_session σ i
              (Session p s ld eps q ds Step.ROUND_ONE_PHASE_ZERO proposal None)) (s, o))
        | Err _ => None
        end
  | DoLaunch i =>
      ses ← sessions σ !! i;
      guard_that (match requests ses with None => true | Some _ => false end
                  && (at_step ses <=? ProposerConfig.max_steps (ProposerCore.config (core ses))))
        match ProposerCore.phase_requests (core ses) (slot ses) (leader ses) (known ses)
                (at_step ses) (carrying ses) (endpoints ses) with
        | (core', Ok reqs) => Some (log_sent (set_session σ i (launch_phase ses core' reqs)) reqs)
        | (_, Err _) => None
        end
  | DoServe k n =>
      r ← recorders σ !! k; kr ← sent σ !! n;
      guard_that (kr.1 =? k)
        match RecorderCore.record (λ _, Ok tt) kr.2 r with
        | (r', Ok reply) => Some (log_answer (set_recorder σ k r') (k, kr.2, reply))
        | (r', Err _) => Some (set_recorder σ k r')
        end
  | DoInform k ds =>
      r ← recorders σ !! k;
      guard_that (forallb (λ d, bool_decide (d ∈ decided σ)) ds)
        (Some (set_recorder σ k (RecorderCore.inform_decisions ds r).1))
  | DoPrune k s =>
      r ← recorders σ !! k; Some (set_recorder σ k (RecorderCore.prune_through r s))
  | DoRestart k =>
      r ← recorders σ !! k;
      match RecorderCore.restore (RecorderCore.config r) (RecorderCore.snapshot r) with
      | Ok r' => Some (set_recorder σ k r')
      | Err _ => None
      end
  | DoInstall k n change =>
      r ← recorders σ !! k;
      guard_that (orderedb σ n change)
        (Some (set_recorder σ k (RecorderCore.install_membership change r).1))
  | DoJoin k n =>
      e ← epoch_of c n;
      guard_that (match recorders σ !! k with None => true | Some _ => false end && begunb σ n)
        (Some (set_recorder σ k (RecorderCore.new (RecorderConfig.mk k e RecorderLimits.default))))
  | DoCollect i ns =>
      ses ← sessions σ !! i; reqs ← requests ses;
      e ← ProposerConfig.cluster (ProposerCore.config (core ses));
      let picked := omap (λ n, answered σ !! n) ns in
      let io := PhaseIo (λ _, false) (λ _, true) true
                        ((λ e, Arrival e.1.1 (Ok e.2)) <$> picked) in
      guard_that (forallb (λ e, bool_decide (e.1 ∈ reqs)) picked)
        match (let? replies := collect_quorum reqs (quorum ses)
                   (ProposerConfig.cluster (ProposerCore.config (core ses))) io in
               advance (slot ses) (leader ses) (at_step ses) (carrying ses) replies) with
        | Ok (inl d) => Some (log_decision (end_session σ i) e d)
        | Ok (inr (step, proposal)) => Some (set_session σ i (continue ses step proposal))
        | Err _ => None
        end
  | DoAbandon i => ses ← sessions σ !! i; Some (end_session σ i)
  end.

Fixpoint run (actions : list (action V R)) σ : option (state V R) :=
  match actions with
  | [] => Some σ
  | a :: actions => σ' ← exec a σ; run actions σ'
  end.

Lemma forallb_decide {A} (P : A → Prop) `{∀ x, Decision (P x)} l :
  forallb (λ x, bool_decide (P x)) l = true → ∀ x, x ∈ l → P x.
Proof.
  rewrite forallb_forall. intros Hall x Hx%list_elem_of_In. by eapply bool_decide_eq_true, Hall.
Qed.

Lemma exec_start_sound i n p s values ld eps ds σ σ' :
  exec (DoStart i n p s values ld eps ds) σ = Some σ' → transition c σ σ'.
Proof.
  simpl. destruct (_ && _) eqn:Hg; [simpl|done].
  destruct (ProposerCore.prepare _ _ _ _ _) as [[q proposal]|] eqn:Hp; [|done]. intros [= <-].
  rewrite !andb_true_iff, !bool_decide_eq_true in Hg. destruct Hg as [[[[[Hi [e He]] Hb] Hc] Hd] Hs].
  apply (Start c σ i n e); try done.
  - by rewrite Hc.
  - by eapply prepare_Ok.
  - by apply (forallb_decide (λ d, d ∈ decided σ)).
  - intros o' Ho' Hid. rewrite forallb_forall in Hs.
    apply list_elem_of_In, Hs in Ho'. rewrite !orb_true_iff in Ho'. simpl in Ho'.
    rewrite Z.eqb_refl, Hid, Z.eqb_refl in Ho'. simpl in Ho'.
    destruct Ho' as [[?|?]|Ho']; [done..|]. by apply bool_decide_eq_true in Ho'.
Qed.

Lemma orderedb_sound σ n change : orderedb σ n change = true → ordered c σ n change.
Proof.
  unfold orderedb. destruct (epoch_of c n) as [e|] eqn:He; [|done].
  rewrite !andb_true_iff, !bool_decide_eq_true. intros [[? ?] ?]. by exists e.
Qed.

Lemma exec_install_sound k n change σ σ' : exec (DoInstall k n change) σ = Some σ' → transition c σ σ'.
Proof.
  simpl. destruct (recorders σ !! k) as [r|] eqn:Hk; [simpl|done].
  destruct (orderedb σ n change) eqn:Ho; [simpl|done]. intros [= <-].
  eapply (Install c σ k r n change); [done|by apply orderedb_sound|apply surjective_pairing].
Qed.

Lemma exec_join_sound k n σ σ' : exec (DoJoin k n) σ = Some σ' → transition c σ σ'.
Proof.
  simpl. destruct (epoch_of c n) as [e|] eqn:He; [simpl|done].
  destruct (_ && _) eqn:Hg; [simpl|done]. intros [= <-]. apply andb_true_iff in Hg as [Hk Hb].
  apply (Join c σ k n e RecorderLimits.default); [by destruct (recorders σ !! k)|done| |].
  - destruct n as [|m]; [done|]. apply existsb_exists in Hb as ([e0 d] & Hin%list_elem_of_In & Hb).
    rewrite !andb_true_iff, !bool_decide_eq_true in Hb. destruct Hb as [? ?]. by exists e0, d.
  - vm_compute. congruence.
Qed.

Lemma exec_collect_sound i ns σ σ' : exec (DoCollect i ns) σ = Some σ' → transition c σ σ'.
Proof.
  simpl. destruct (sessions σ !! i) as [ses|] eqn:Hi; [simpl|done].
  destruct (requests ses) as [reqs|] eqn:Hr; [simpl|done].
  destruct (ProposerConfig.cluster (ProposerCore.config (core ses))) as [e|] eqn:He; [simpl|done].
  set (picked := omap _ ns). destruct (forallb _ picked) eqn:Hp; [simpl|done].
  set (io := PhaseIo _ _ _ _).
  assert (∀ k reply, Arrival k (Ok reply) ∈ events io →
            ∃ req, (k, req) ∈ reqs ∧ (k, req, reply) ∈ answered σ) as Hio.
  { intros k reply ([[k' req] reply'] & [= -> ->] & Hin)%list_elem_of_fmap. exists req.
    split; [by apply (forallb_decide _ _ Hp) in Hin|].
    apply list_elem_of_omap in Hin as (n & _ & Hn). by eapply list_elem_of_lookup_2. }
  destruct (collect_quorum _ _ _ io) as [replies|] eqn:Hc; [|done]. rewrite <-He in Hc.
  simpl. destruct (advance _ _ _ _ replies) as [[d|[step proposal]]|] eqn:Ha; [..|done];
    intros [= <-]; [by eapply Decide | by eapply Advance].
Qed.

Lemma exec_sound a σ σ' : exec a σ = Some σ' → transition c σ σ'.
Proof.
  destruct a as [| i | k n | k ds | k s | k | | | | i];
    [apply exec_start_sound | | | | | | apply exec_install_sound | apply exec_join_sound
    | apply exec_collect_sound |]; simpl.
  - destruct (sessions σ !! i) as [ses|] eqn:Hi; [simpl|done].
    destruct (_ && _) eqn:Hg; [simpl|done]. apply andb_true_iff in Hg as [Hr Hs%Z.leb_le].
    destruct (ProposerCore.phase_requests _ _ _ _ _ _ _) as [core' [reqs|]] eqn:Hp; [|done].
    intros [= <-]. eapply Launch; try done. by destruct (requests ses).
  - destruct (recorders σ !! k) as [r|] eqn:Hk; [simpl|done].
    destruct (sent σ !! n) as [[k' req]|] eqn:Hn; [simpl|done].
    destruct (Z.eqb_spec k' k) as [->|]; [simpl|done]. apply list_elem_of_lookup_2 in Hn.
    destruct (RecorderCore.record _ _ _) as [r' [reply|]] eqn:Hrec; intros [= <-];
      [by eapply Serve | by eapply Refuse].
  - destruct (recorders σ !! k) as [r|] eqn:Hk; [simpl|done].
    destruct (forallb _ ds) eqn:Hds; [simpl|done]. intros [= <-].
    eapply (Inform c σ k r ds); [done|by apply (forallb_decide (λ d, d ∈ decided σ))|]. apply surjective_pairing.
  - destruct (recorders σ !! k) as [r|] eqn:Hk; [simpl|done]. intros [= <-]. by apply Prune.
  - destruct (recorders σ !! k) as [r|] eqn:Hk; [simpl|done].
    destruct (RecorderCore.restore _ _) eqn:Hr; [|done]. intros [= <-]. by eapply Restart.
  - destruct (sessions σ !! i) as [ses|] eqn:Hi; [simpl|done]. intros [= <-].
    by eapply Abandon.
Qed.

Lemma run_reachable actions σ0 σ :
  initial c σ0 → run actions σ0 = Some σ → reachable c σ.
Proof.
  intros H0 Hrun. exists σ0. split; [done|]. clear H0. revert σ0 Hrun.
  induction actions as [|a actions IH]; intros σ0; simpl; [by intros [= ->]|].
  destruct (exec a σ0) as [σ1|] eqn:He; [simpl|done]. intros Hrun.
  eapply rtc_l; [by eapply exec_sound|]. by apply IH.
Qed.
End scheduler.

(** ** A run: two proposers, one slot

  Replica 1 leads and decides on the fast path of recorders 1 and 2. Replica
  2, whose own proposal reached recorder 3 first, goes through the phases with
  recorders 2 and 3 (which restarts on the way) and decides the leader's batch
  in phase two. *)
Section demo.

Definition demo_cluster : ClusterIdentity.t := ClusterIdentity.mk [1; 2; 3] 1 0 None.

Definition demo_proposer (id : ReplicaId) : ProposerCore.t XorShift64.t :=
  ProposerCore.with_cluster (ProposerCore.with_rng id 0 (XorShift64.new 7)) demo_cluster.

Definition demo_recorder (id : ReplicaId) : RecorderCore.t Z :=
  RecorderCore.new (RecorderConfig.mk id demo_cluster RecorderLimits.default).

Definition demo_initial : state Z XorShift64.t :=
  State (<[1 := demo_recorder 1]> (<[2 := demo_recorder 2]> (<[3 := demo_recorder 3]> ∅)))
        ∅ [] [] [] [].

Definition demo_actions : list (action Z XorShift64.t) :=
  [DoStart 0 0 (demo_proposer 1) 1 [10; 11] (Some 1) [1; 2; 3] [];
   DoStart 1 0 (demo_proposer 2) 1 [20] (Some 1) [1; 2; 3] [];
   DoLaunch 0; DoLaunch 1;
   DoServe 3 5; DoServe 1 0; DoServe 2 1;
   DoCollect 0 [1; 2]%nat;
   DoServe 2 4; DoCollect 1 [0; 3]%nat;
   DoLaunch 1; DoServe 2 7; DoServe 3 8; DoCollect 1 [4; 5]%nat;
   DoRestart 3;
   DoLaunch 1; DoServe 2 10; DoServe 3 11; DoCollect 1 [6; 7]%nat].

Definition demo_final : state Z XorShift64.t :=
  default demo_initial (run demo_cluster demo_actions demo_initial).

Definition demo_fast : Decision.t Z := Decision.mk 1 [10; 11] 1 4.
Definition demo_slow : Decision.t Z := Decision.mk 1 [10; 11] 1 6.

Lemma demo_decided : decided demo_final = [demo_fast; demo_slow].
Proof. vm_compute. reflexivity. Qed.

Lemma demo_initial_ok : initial demo_cluster demo_initial.
Proof.
  split_and!; try done. intros k r. simpl. rewrite !lookup_insert_Some, lookup_empty.
  intros H. assert (r = demo_recorder k) as ->.
  { naive_solver. }
  exists RecorderLimits.default. split; [done|]. vm_compute. congruence.
Qed.

Lemma demo_reachable : reachable demo_cluster demo_final.
Proof.
  apply (run_reachable _ demo_actions demo_initial); [apply demo_initial_ok|].
  unfold demo_final. destruct (run demo_cluster demo_actions demo_initial) eqn:E; [done|].
  exfalso. revert E. vm_compute. discriminate.
Qed.

Lemma demo_typed : cluster_typed demo_cluster.
Proof. apply (bool_decide_unpack _). vm_compute. exact I. Qed.

Lemma demo_chain_ok : chain_ok demo_cluster.
Proof. apply single_ok; [apply demo_typed|reflexivity]. Qed.

Lemma validity_witness :
  [10; 11] ≠ [] ∧ ∃ lane, (1, (1, lane, [10; 11])) ∈ started demo_final.
Proof.
  apply (validity demo_cluster demo_final demo_slow).
  - apply demo_chain_ok.
  - apply demo_reachable.
  - rewrite demo_decided. right. left.
Defined.

Lemma no_conflict_alarm_witness :
  ∃ r, recorders demo_final !! 2 = Some r
    ∧ ∀ ds r' s, ds ⊆ decided demo_final →
        RecorderCore.inform_decisions ds r ≠ (r', Err (QuePaxaError.ConflictingDecision s)).
Proof.
  destruct (recorders demo_final !! 2) as [r|] eqn:E.
  - exists r. split; [reflexivity|].
    apply (no_conflict_alarm demo_cluster demo_final 2 r demo_chain_ok demo_reachable E).
  - exfalso. revert E. vm_compute. discriminate.
Defined.

(** The leader's decision, before and after. *)
Definition demo_before : state Z XorShift64.t :=
  default demo_initial (run demo_cluster (take 7 demo_actions) demo_initial).

Definition demo_after : state Z XorShift64.t :=
  default demo_initial (exec demo_cluster (DoCollect 0 [1; 2]%nat) demo_before).

Lemma demo_before_reachable : reachable demo_cluster demo_before.
Proof.
  apply (run_reachable _ (take 7 demo_actions) demo_initial); [apply demo_initial_ok|].
  unfold demo_before. destruct (run demo_cluster (take 7 demo_actions) demo_initial) eqn:E; [done|].
  exfalso. revert E. vm_compute. discriminate.
Qed.

Lemma demo_transition : transition demo_cluster demo_before demo_after.
Proof.
  apply (exec_sound _ (DoCollect 0 [1; 2]%nat)). unfold demo_after.
  destruct (exec demo_cluster (DoCollect 0 [1; 2]%nat) demo_before) eqn:E; [done|].
  exfalso. revert E. vm_compute. discriminate.
Qed.

Lemma system_refines_spec_witness :
  Spec.step (abstraction demo_before) (abstraction demo_after)
  ∧ Spec.chosen (abstraction demo_after) !! 1 = Some [10; 11].
Proof.
  destruct (system_refines_spec demo_cluster demo_before demo_after) as [Hstep Hchosen].
  - apply demo_chain_ok.
  - apply demo_before_reachable.
  - apply demo_transition.
  - split; [exact Hstep|]. apply (Hchosen demo_fast).
    replace (decided demo_after) with [demo_fast] by (vm_compute; reflexivity). left.
Defined.
End demo.

(** ** A run across a membership change

  Recorders 1, 2, 3 are replaced by 4, 5, 6. Slot 1 orders the joint epoch.
  Recorder 3, which served slot 2 for a proposer of the first epoch, may not
  leave that epoch; 1 and 2 do, 4, 5 and 6 join. Two proposers of the joint
  epoch decide slot 2, one on the fast path, one in phase two; that decision
  orders the last epoch, in which 4 and 5 decide slot 3. *)
Section reconfiguration_demo.

Definition joint_epoch : ClusterIdentity.t :=
  match ClusterIdentity.begin_joint demo_cluster [4; 5; 6] 1 with
  | Ok e => e
  | Err _ => demo_cluster
  end.

Definition last_epoch : ClusterIdentity.t :=
  match ClusterIdentity.finalize_joint joint_epoch with Ok e => e | Err _ => joint_epoch end.

Definition moving_chain : chain := Chain demo_cluster [(1, joint_epoch); (2, last_epoch)].

Definition epoch_proposer (e : ClusterIdentity.t) (id : ReplicaId) : ProposerCore.t XorShift64.t :=
  ProposerCore.with_cluster (ProposerCore.with_rng id 0 (XorShift64.new 7)) e.

Definition first_anchor : Decision.t Z := Decision.mk 1 [10] 1 4.
Definition second_anchor : Decision.t Z := Decision.mk 2 [40] 4 4.
Definition second_again : Decision.t Z := Decision.mk 2 [40] 4 6.

Definition to_joint : MembershipChange.t Z := MembershipChange.mk first_anchor joint_epoch 10.
Definition to_last : MembershipChange.t Z := MembershipChange.mk second_anchor last_epoch 40.

Definition moving_actions : list (action Z XorShift64.t) :=
  [DoStart 0 0 (epoch_proposer demo_cluster 1) 1 [10] (Some 1) [1; 2; 3] [];
   DoLaunch 0; DoServe 1 0; DoServe 2 1; DoCollect 0 [0; 1]%nat;
   DoStart 1 0 (epoch_proposer demo_cluster 3) 2 [30] (Some 1) [1; 2; 3] [];
   DoLaunch 1; DoServe 3 5;
   DoInform 1 [first_anchor]; DoInform 2 [first_anchor]; DoInform 3 [first_anchor];
   DoInstall 1 0 to_joint; DoInstall 2 0 to_joint; DoInstall 3 0 to_joint;
   DoJoin 4 1; DoJoin 5 1; DoJoin 6 1;
   DoStart 2 1 (epoch_proposer joint_epoch 4) 2 [40] (Some 4) [1; 2; 3; 4; 5; 6] [];
   DoStart 3 1 (epoch_proposer joint_epoch 2) 2 [20] (Some 4) [1; 2; 3; 4; 5; 6] [];
   DoLaunch 2; DoLaunch 3; DoServe 6 17;
   DoServe 1 6; DoServe 2 7; DoServe 4 9; DoServe 5 10; DoCollect 2 [4; 5; 6; 7]%nat;
   DoServe 1 12; DoServe 2 13; DoServe 4 15; DoCollect 3 [3; 8; 9; 10]%nat;
   DoLaunch 3; DoServe 1 18; DoServe 2 19; DoServe 4 21; DoServe 6 23;
   DoCollect 3 [11; 12; 13; 14]%nat;
   DoLaunch 3; DoServe 1 24; DoServe 2 25; DoServe 4 27; DoServe 6 29;
   DoCollect 3 [15; 16; 17; 18]%nat;
   DoInform 4 [second_anchor]; DoInform 5 [second_anchor];
   DoInstall 4 1 to_last; DoInstall 5 1 to_last;
   DoStart 4 2 (epoch_proposer last_epoch 5) 3 [50] (Some 5) [4; 5; 6] [];
   DoLaunch 4; DoServe 4 30; DoServe 5 31; DoCollect 4 [19; 20]%nat].

Definition moving_final : state Z XorShift64.t :=
  default demo_initial (run moving_chain moving_actions demo_initial).

(** Who is in which epoch at the end, and what was decided where. *)
Lemma moving_epochs :
  ((λ k, RecorderCore.cluster <$> recorders moving_final !! k) <$> [1; 2; 3; 4; 5; 6])
  = [Some joint_epoch; Some joint_epoch; Some demo_cluster;
     Some last_epoch; Some last_epoch; Some joint_epoch].
Proof. vm_compute. reflexivity. Qed.

Lemma moving_decided :
  decided_in moving_final
  = [(demo_cluster, first_anchor); (joint_epoch, second_anchor); (joint_epoch, second_again);
     (last_epoch, Decision.mk 3 [50] 5 4)].
Proof. vm_compute. reflexivity. Qed.

Lemma moving_chain_ok : chain_ok moving_chain.
Proof.
  split.
  - intros n e. destruct n as [|[|[|n]]]; [intros [= <-]..|done];
      apply (bool_decide_unpack _); vm_compute; exact I.
  - reflexivity.
  - intros n e e'. destruct n as [|[|[|n]]]; [intros [= <-] [= <-]; vm_compute; reflexivity..| |];
      done.
  - intros n a a'. destruct n as [|[|n]]; [intros [= <-] [= <-]; lia|done..].
Qed.

Lemma moving_reachable : reachable moving_chain moving_final.
Proof.
  apply (run_reachable _ moving_actions demo_initial); [apply demo_initial_ok|].
  unfold moving_final. destruct (run moving_chain moving_actions demo_initial) eqn:E; [done|].
  exfalso. revert E. vm_compute. discriminate.
Qed.

Lemma agreement_witness :
  Decision.value_ids second_anchor = Decision.value_ids second_again
  ∧ Decision.proposer second_anchor = Decision.proposer second_again ∧ joint_epoch = joint_epoch.
Proof.
  apply (agreement moving_chain moving_final joint_epoch joint_epoch second_anchor second_again).
  - apply moving_chain_ok.
  - apply moving_reachable.
  - rewrite moving_decided. right. left.
  - rewrite moving_decided. right. right. left.
  - reflexivity.
Defined.
End reconfiguration_demo.

(** ** Two lanes of one leader

  The comment on [ProposalKey::new] asks that a (priority, proposer, lane)
  tuple identify at most one value of a slot. That is not enough: the leader
  sends every lane's proposal with the reserved priority. *)
Section lanes.

Definition lanes_cluster : ClusterIdentity.t := ClusterIdentity.mk [1; 2; 3; 4; 5] 2 0 None.

Definition lanes_proposal (lane : LaneId) (values : list Z) : Proposal.t Z :=
  Proposal.mk (ProposalKey.new Priority.MAX 1 lane) values.

Definition lanes_request (step : Z) (p : Proposal.t Z) : RecordRequest.t Z :=
  RecordRequest.mk 1 1 (Some 1) step p [].

(** The recorders [ks] serve one request, in order. *)
Definition poll (req : RecordRequest.t Z) (ks : list ReplicaId)
    (rs : gmap Z (RecorderCore.t Z)) : gmap Z (RecorderCore.t Z) * list (RecordReply.t Z) :=
  fold_left (λ '(rs, replies) k,
    match rs !! k with
    | Some r =>
        match RecorderCore.record (λ _, Ok tt) req r with
        | (r', Ok reply) => (<[k := r']> rs, replies ++ [reply])
        | (r', Err _) => (<[k := r']> rs, replies)
        end
    | None => (rs, replies)
    end) ks (rs, []).

(** A proposer driving [p] at [step] with the recorders [ks]. *)
Definition drive_phase (step : Z) (p : Proposal.t Z) (ks : list ReplicaId)
    (rs : gmap Z (RecorderCore.t Z))
    : gmap Z (RecorderCore.t Z) * Result (Decision.t Z + Z * Proposal.t Z) :=
  let req := lanes_request step p in
  let '(rs, replies) := poll req ks rs in
  (rs, let? replies := collect_quorum ((λ k, (k, req)) <$> ks)
           (ClusterIdentity.quorum_size lanes_cluster) (Some lanes_cluster)
           (PhaseIo (λ _, false) (λ _, true) true
              ((λ reply, Arrival (RecordReply.recorder reply) (Ok reply)) <$> replies)) in
       advance 1 (Some 1) step p replies).

Definition lanes_start : gmap Z (RecorderCore.t Z) :=
  list_to_map ((λ k, (k, RecorderCore.new (RecorderConfig.mk k lanes_cluster RecorderLimits.default)))
               <$> [1; 2; 3; 4; 5]).

Definition lanes_first : Proposal.t Z := lanes_proposal 1 [10].
Definition lanes_second : Proposal.t Z := lanes_proposal 2 [20].

(** Lane one through recorders 1, 2, 3; then lane two through 4, 5, 3. *)
Definition lanes_run1 := drive_phase 4 lanes_first [1; 2; 3] lanes_start.
Definition lanes_run2 := drive_phase 4 lanes_second [4; 5; 3] lanes_run1.1.
Definition lanes_run3 := drive_phase 5 lanes_second [4; 5; 3] lanes_run2.1.
Definition lanes_run4 := drive_phase 6 lanes_second [4; 5; 3] lanes_run3.1.

(** Distinct keys do not suffice: a leader that proposes on two lanes of
    one slot has two proposals with different keys, each naming one value, and
    the two lanes decide different values. Agreement needs one lane per leader
    and slot, which the transition system requires of every replica. *)
Theorem two_lanes_decide_differently :
  Proposal.key lanes_first ≠ Proposal.key lanes_second
  ∧ lanes_run1.2 = Ok (inl (Decision.mk 1 [10] 1 4))
  ∧ lanes_run2.2 = Ok (inr (5, lanes_second))
  ∧ lanes_run3.2 = Ok (inr (6, lanes_second))
  ∧ lanes_run4.2 = Ok (inl (Decision.mk 1 [20] 1 6)).
Proof. split_and!; [discriminate|vm_compute; reflexivity..]. Qed.
End lanes.
