(* ===== verification/Replica.v ===== *)
(** * The replica pipeline (src/replica.rs)

  [ReplicaCore] turns submitted value identifiers into batches for open
  slots and turns decisions into an in-order stream of commits. Value
  identifiers are any countable type (the code asks for [Ord] only to keep
  them in ordered sets, whose order it never uses). Loops over the log carry
  a fuel of one more than the number of log entries, which always suffices
  because every iteration visits another entry. *)
From S2P Require Import Prelude Errors Types.

Module ReplicaConfig.
Record t : Type := mk {
  batch_size : Z;
  pipeline_len : Z;
  max_pending_values : Z;
  max_log_slots : Z;
  max_tracked_value_ids : Z;
}.

Definition default : t := mk 64 1 65536 4096 1048576.
End ReplicaConfig.

Module LogSlot.
Record t {V : Type} : Type := mk {
  proposed : list V;
  decision : option (Decision.t V);
  committed : bool;
}.
Arguments t : clear implicits.
Arguments mk {V} _ _ _.

Definition default {V} : t V := mk [] None false.
End LogSlot.

Module ReplicaSnapshot.
Record t {V : Type} `{Countable V} : Type := mk {
  log : gmap Z (LogSlot.t V);
  pending : list V;
  last_proposed : SlotIndex;
  next_commit : SlotIndex;
  checkpointed_through : SlotIndex;
  seen_value_ids : gset V;
}.
Arguments t V {_ _}.
Arguments mk {V _ _} _ _ _ _ _ _.
End ReplicaSnapshot.

Module ReplicaCore.
Record t {V : Type} `{Countable V} : Type := mk {
  config : ReplicaConfig.t;
  log : gmap Z (LogSlot.t V);
  pending : list V;
  last_proposed : SlotIndex;
  next_commit : SlotIndex;
  checkpointed_through : SlotIndex;
  seen_value_ids : gset V;
}.
Arguments t V {_ _}.
Arguments mk {V _ _} _ _ _ _ _ _ _.

Section ops.
Context {V : Type} `{Countable V}.
Implicit Types self : t V.

Definition set_log self log : t V :=
  mk (config self) log (pending self) (last_proposed self) (next_commit self)
     (checkpointed_through self) (seen_value_ids self).
Definition set_pending self pending : t V :=
  mk (config self) (log self) pending (last_proposed self) (next_commit self)
     (checkpointed_through self) (seen_value_ids self).
Definition set_last_proposed self slot : t V :=
  mk (config self) (log self) (pending self) slot (next_commit self)
     (checkpointed_through self) (seen_value_ids self).
Definition set_next_commit self slot : t V :=
  mk (config self) (log self) (pending self) (last_proposed self) slot
     (checkpointed_through self) (seen_value_ids self).
Definition set_seen self seen : t V :=
  mk (config self) (log self) (pending self) (last_proposed self) (next_commit self)
     (checkpointed_through self) seen.

Definition new (config : ReplicaConfig.t) : t V :=
  mk config {[SlotIdx.GENESIS := LogSlot.mk [] None true]} [] SlotIdx.GENESIS 1
     SlotIdx.GENESIS ∅.

(** The log entries other than genesis. *)
Definition retained_slots (log : gmap Z (LogSlot.t V)) : Z :=
  len (filter (λ slot, slot ≠ SlotIdx.GENESIS) (keys log)).

(** The values an entry holds. *)
Definition entry_values (entry : LogSlot.t V) : list V :=
  LogSlot.proposed entry
  ++ match LogSlot.decision entry with Some d => Decision.value_ids d | None => [] end.

Definition is_decided_commit (o : option (LogSlot.t V)) : bool :=
  match o with
  | Some entry => LogSlot.committed entry && bool_decide (is_Some (LogSlot.decision entry))
  | None => false
  end.

(** The [while slot < next_commit] scan of [restore], over its [n] slots. *)
Fixpoint check_committed (log : gmap Z (LogSlot.t V)) (slot : SlotIndex) (n : nat)
    : Result unit :=
  match n with
  | O => Ok tt
  | S n =>
      reject negb (is_decided_commit (log !! slot))
        with QuePaxaError.InvalidProposal
               "replica snapshot skips a committed slot after its checkpoint" ;;
      let? slot := ok_or (SlotIdx.checked_next slot) QuePaxaError.SlotOverflow in
      check_committed log slot n
  end.

Definition restore (config : ReplicaConfig.t) (snapshot : ReplicaSnapshot.t V) : Result (t V) :=
  let log := ReplicaSnapshot.log snapshot in
  let pending := ReplicaSnapshot.pending snapshot in
  let seen := ReplicaSnapshot.seen_value_ids snapshot in
  let next_commit := ReplicaSnapshot.next_commit snapshot in
  let checkpointed := ReplicaSnapshot.checkpointed_through snapshot in
  reject ReplicaConfig.max_pending_values config <? len pending
    with QuePaxaError.ResourceLimit "pending value IDs"
           (ReplicaConfig.max_pending_values config) ;;
  reject ReplicaConfig.max_log_slots config <? retained_slots log
    with QuePaxaError.ResourceLimit "retained log slots" (ReplicaConfig.max_log_slots config) ;;
  reject ReplicaConfig.max_tracked_value_ids config <? Z.of_nat (size seen)
    with QuePaxaError.ResourceLimit "tracked value IDs"
           (ReplicaConfig.max_tracked_value_ids config) ;;
  reject existsb (λ value_id, negb (bool_decide (value_id ∈ seen)))
                 (pending ++ (values log ≫= entry_values))
    with QuePaxaError.InvalidProposal "replica snapshot contains an untracked value ID" ;;
  reject negb (match log !! SlotIdx.GENESIS with
               | Some slot => LogSlot.committed slot
               | None => false
               end)
         || (next_commit <=? checkpointed)
    with QuePaxaError.InvalidProposal
           "replica snapshot is missing its committed genesis slot" ;;
  let? slot := ok_or (SlotIdx.checked_next checkpointed) QuePaxaError.SlotOverflow in
  let? _ := check_committed log slot (Z.to_nat (next_commit - slot)) in
  reject existsb (λ '(slot, entry), negb (slot =? SlotIdx.GENESIS) && (next_commit <=? slot)
                                    && LogSlot.committed entry) (entries log)
    with QuePaxaError.InvalidProposal "replica snapshot marks a future slot committed" ;;
  Ok (mk config log pending (ReplicaSnapshot.last_proposed snapshot) next_commit checkpointed
         seen).

Definition snapshot self : ReplicaSnapshot.t V :=
  ReplicaSnapshot.mk (log self) (pending self) (last_proposed self) (next_commit self)
                     (checkpointed_through self) (seen_value_ids self).

(** Keeps what is neither seen nor repeated. *)
Fixpoint fresh_values (seen unique : gset V) (value_ids : list V) : list V :=
  match value_ids with
  | [] => []
  | v :: value_ids =>
      if bool_decide (v ∈ seen) || bool_decide (v ∈ unique)
      then fresh_values seen unique value_ids
      else v :: fresh_values seen ({[v]} ∪ unique) value_ids
  end.

Definition enqueue (value_ids : list V) : M (t V) QuePaxaError.t unit :=
  let* self := reads (λ self, self) in
  let value_ids := fresh_values (seen_value_ids self) ∅ value_ids in
  reject* ReplicaConfig.max_pending_values (config self) <? len (pending self) + len value_ids
    with QuePaxaError.ResourceLimit "pending value IDs"
           (ReplicaConfig.max_pending_values (config self)) ;;
  reject* ReplicaConfig.max_tracked_value_ids (config self)
          <? Z.of_nat (size (seen_value_ids self)) + len value_ids
    with QuePaxaError.ResourceLimit "tracked value IDs"
           (ReplicaConfig.max_tracked_value_ids (config self)) ;;
  let* _ := modify (λ self, set_seen self (seen_value_ids self ∪ list_to_set value_ids)) in
  modify (λ self, set_pending self (pending self ++ value_ids)).

Definition ensure_log_capacity self (slot : SlotIndex) : Result unit :=
  reject bool_decide (log self !! slot = None)
         && (ReplicaConfig.max_log_slots (config self) <=? retained_slots (log self))
    with QuePaxaError.ResourceLimit "retained log slots"
           (ReplicaConfig.max_log_slots (config self)) ;;
  Ok tt.

(** [iter().collect::<BTreeSet<_>>().len() != value_ids.len()]. *)
Definition repeats (value_ids : list V) : bool :=
  negb (Z.of_nat (size (list_to_set value_ids : gset V)) =? len value_ids).

Definition note_proposed (slot : SlotIndex) (value_ids : list V) : M (t V) QuePaxaError.t unit :=
  reject* is_empty value_ids with QuePaxaError.EmptyProposal ;;
  reject* repeats value_ids
    with QuePaxaError.InvalidProposal "proposal contains duplicate value IDs" ;;
  let* self := reads (λ self, self) in
  let new_value_ids := list_to_set value_ids ∖ seen_value_ids self in
  reject* ReplicaConfig.max_tracked_value_ids (config self)
          <? Z.of_nat (size (seen_value_ids self)) + Z.of_nat (size new_value_ids)
    with QuePaxaError.ResourceLimit "tracked value IDs"
           (ReplicaConfig.max_tracked_value_ids (config self)) ;;
  let* _ := lift (ensure_log_capacity self slot) in
  let* _ := modify (λ self, set_seen self (seen_value_ids self ∪ new_value_ids)) in
  let* _ := modify (λ self, set_last_proposed self (Z.max (last_proposed self) slot)) in
  modify (λ self,
    let entry := default LogSlot.default (log self !! slot) in
    set_log self (<[slot := LogSlot.mk value_ids (LogSlot.decision entry)
                                       (LogSlot.committed entry)]> (log self))).

Definition is_claimed (entry : LogSlot.t V) : bool :=
  bool_decide (is_Some (LogSlot.decision entry)) || negb (is_empty (LogSlot.proposed entry)).

(** The scan of [next_open_slot]; [None] is an exhausted fuel. *)
Fixpoint open_slot_from (fuel : nat) (log : gmap Z (LogSlot.t V)) (slot : SlotIndex)
    : option (Result SlotIndex) :=
  match fuel with
  | O => None
  | S fuel =>
      if match log !! slot with Some entry => is_claimed entry | None => false end then
        match SlotIdx.checked_next slot with
        | Some slot => open_slot_from fuel log slot
        | None => Some (Err QuePaxaError.SlotOverflow)
        end
      else Some (Ok slot)
  end.

Definition next_open_slot self : Result SlotIndex :=
  default (Err QuePaxaError.SlotOverflow)
          (open_slot_from (S (size (log self))) (log self) (next_commit self)).

Definition inflight_count self : Z :=
  len (filter (λ se, next_commit self ≤ se.1 ∧ LogSlot.committed se.2 = false
                     ∧ LogSlot.proposed se.2 ≠ []) (entries (log self))).

Definition next_proposal : M (t V) QuePaxaError.t (option (SlotIndex * list V)) :=
  let* self := reads (λ self, self) in
  if (ReplicaConfig.pipeline_len (config self) <=? inflight_count self)
     || is_empty (pending self)
  then ret None
  else
  let* slot := lift (next_open_slot self) in
  let take_count :=
    Z.max (Z.min (ReplicaConfig.batch_size (config self)) (len (pending self))) 1 in
  let values := take (Z.to_nat take_count) (pending self) in
  let* _ := modify (λ self, set_pending self (drop (Z.to_nat take_count) (pending self))) in
  let* _ := note_proposed slot values in
  ret (Some (slot, values)).

(** The loop of [commit_ready]; [None] is an exhausted fuel. *)
Fixpoint commit_from (fuel : nat) (committed : list (Decision.t V)) self
    : t V * option (Result (list (Decision.t V))) :=
  match fuel with
  | O => (self, None)
  | S fuel =>
      match log self !! next_commit self with
      | None => (self, Some (Ok committed))
      | Some slot =>
          if LogSlot.committed slot then
            match SlotIdx.checked_next (next_commit self) with
            | Some next => commit_from fuel committed (set_next_commit self next)
            | None => (self, Some (Err QuePaxaError.SlotOverflow))
            end
          else
          match LogSlot.decision slot with
          | None => (self, Some (Ok committed))
          | Some decision =>
              let self :=
                set_log self (<[next_commit self := LogSlot.mk [] (Some decision) true]> (log self)) in
              match SlotIdx.checked_next (next_commit self) with
              | Some next => commit_from fuel (committed ++ [decision]) (set_next_commit self next)
              | None => (self, Some (Err QuePaxaError.SlotOverflow))
              end
          end
      end
  end.

Definition commit_ready : M (t V) QuePaxaError.t (list (Decision.t V)) := λ self,
  let '(self', outcome) := commit_from (S (size (log self))) [] self in
  (self', default (Err QuePaxaError.SlotOverflow) outcome).

(** The block of [apply_decision] that holds the slot's entry: the decision
    is already there, or it is stored and the values it does not carry go back
    to the front of the queue. The boolean says whether to go on. *)
Definition store_decision (decision : Decision.t V) : M (t V) QuePaxaError.t bool :=
  let slot_index := Decision.slot decision in
  let* self := reads (λ self, self) in
  let slot := default LogSlot.default (log self !! slot_index) in
  let* _ := modify (λ self, set_log self (<[slot_index := slot]> (log self))) in
  match LogSlot.decision slot with
  | Some existing =>
      reject* negb (bool_decide (Decision.value_ids existing = Decision.value_ids decision))
        with QuePaxaError.ConflictingDecision slot_index ;;
      ret false
  | None =>
      let requeue :=
        if negb (is_empty (LogSlot.proposed slot))
           && negb (bool_decide (LogSlot.proposed slot = Decision.value_ids decision))
        then filter (λ v, v ∉ Decision.value_ids decision) (LogSlot.proposed slot)
        else [] in
      reject* negb (is_empty (LogSlot.proposed slot))
              && negb (bool_decide (LogSlot.proposed slot = Decision.value_ids decision))
              && (ReplicaConfig.max_pending_values (config self)
                  <? len (pending self) + len requeue)
        with QuePaxaError.ResourceLimit "pending value IDs"
               (ReplicaConfig.max_pending_values (config self)) ;;
      let* _ := modify (λ self, set_pending self (requeue ++ pending self)) in
      let* _ := modify (λ self,
        set_log self (<[slot_index := LogSlot.mk (LogSlot.proposed slot) (Some decision)
                                                 (LogSlot.committed slot)]> (log self))) in
      ret true
  end.

Definition apply_decision (decision : Decision.t V)
    : M (t V) QuePaxaError.t (list (Decision.t V)) :=
  reject* is_empty (Decision.value_ids decision) with QuePaxaError.EmptyDecision ;;
  reject* repeats (Decision.value_ids decision)
    with QuePaxaError.InvalidProposal "decision contains duplicate value IDs" ;;
  let* self := reads (λ self, self) in
  let new_value_ids := list_to_set (Decision.value_ids decision) ∖ seen_value_ids self in
  reject* ReplicaConfig.max_tracked_value_ids (config self)
          <? Z.of_nat (size (seen_value_ids self)) + Z.of_nat (size new_value_ids)
    with QuePaxaError.ResourceLimit "tracked value IDs"
           (ReplicaConfig.max_tracked_value_ids (config self)) ;;
  let* _ := lift (ensure_log_capacity self (Decision.slot decision)) in
  let* stored := store_decision decision in
  if negb stored then ret [] else
  let* _ := modify (λ self, set_seen self (seen_value_ids self ∪ new_value_ids)) in
  commit_ready.

Definition pending_len self : Z := len (pending self).
Definition committed_through self : SlotIndex := U64.saturating_sub (next_commit self) 1.
Definition slot self (index : SlotIndex) : option (LogSlot.t V) := log self !! index.

Definition prune_through self (slot : SlotIndex) : t V :=
  let through := Z.max (Z.min slot (committed_through self)) (checkpointed_through self) in
  mk (config self)
     (filter (λ se, se.1 = SlotIdx.GENESIS ∨ through < se.1 ∨ LogSlot.committed se.2 = false)
             (log self))
     (pending self) (last_proposed self) (next_commit self) through (seen_value_ids self).
End ops.
End ReplicaCore.

(** ** Counting log entries *)

Section counting.
Context {V : Type} `{Countable V}.
Import ReplicaCore.
Implicit Types log : gmap Z (LogSlot.t V).

Lemma retained_slots_dom log : retained_slots log = Z.of_nat (size (dom log ∖ {[SlotIdx.GENESIS]})).
Proof.
  unfold retained_slots, len. f_equal.
  rewrite <-(size_list_to_set (C:=gset Z)) by (apply NoDup_filter, NoDup_keys).
  f_equal. apply set_eq. intros i.
  rewrite elem_of_list_to_set, list_elem_of_filter, elem_of_keys, elem_of_difference,
    elem_of_dom, elem_of_singleton. naive_solver.
Qed.

Lemma retained_slots_insert log i e :
  retained_slots (<[i := e]> log) ≤ retained_slots log + 1.
Proof.
  rewrite !retained_slots_dom, dom_insert_L. set (D := dom log). set (one := {[i]} : gset Z).
  set (G := {[SlotIdx.GENESIS]} : gset Z).
  pose proof (subseteq_size ((one ∪ D) ∖ G) (one ∪ (D ∖ G)) ltac:(set_solver)).
  pose proof (size_union_alt one (D ∖ G)).
  pose proof (subseteq_size (D ∖ G ∖ one) (D ∖ G) ltac:(set_solver)).
  assert (size one = 1%nat) by apply size_singleton. lia.
Qed.

Lemma retained_slots_update log i e :
  is_Some (log !! i) → retained_slots (<[i := e]> log) = retained_slots log.
Proof.
  intros Hi%elem_of_dom. rewrite !retained_slots_dom, dom_insert_L. do 2 f_equal. set_solver.
Qed.

(** The entries from slot [n] on: what bounds the scans of the log. *)
Definition above log (n : Z) : nat := size (filter (λ k, n ≤ k) (dom log)).

Lemma above_le log n : (above log n ≤ size log)%nat.
Proof.
  unfold above. rewrite <-size_dom. apply subseteq_size.
  intros k. rewrite elem_of_filter. naive_solver.
Qed.

Lemma above_next log n : is_Some (log !! n) → (above log (n + 1) < above log n)%nat.
Proof.
  intros Hn%elem_of_dom. unfold above. apply subset_size. split.
  - intros k. rewrite !elem_of_filter. intros [??]. split; [lia|done].
  - intros Hsub. specialize (Hsub n). rewrite !elem_of_filter in Hsub.
    destruct Hsub as [? _]; [by split|lia].
Qed.

Lemma above_update log i e n : is_Some (log !! i) → above (<[i := e]> log) n = above log n.
Proof. intros Hi%elem_of_dom. unfold above. rewrite dom_insert_L. do 2 f_equal. set_solver. Qed.

(** The scan for an open slot always ends, at the first unclaimed slot. *)
Lemma open_slot_from_spec fuel log n :
  (above log n < fuel)%nat →
  ∃ r, open_slot_from fuel log n = Some r
    ∧ ∀ i, r = Ok i → n ≤ i
        ∧ (∀ e, log !! i = Some e → is_claimed e = false)
        ∧ ∀ j, n ≤ j < i → ∃ e, log !! j = Some e ∧ is_claimed e = true.
Proof.
  revert n. induction fuel as [|fuel IH]; intros n Hfuel; [lia|]. simpl.
  destruct (log !! n) as [e|] eqn:Hn; [destruct (is_claimed e) eqn:Hc|].
  - destruct (SlotIdx.checked_next n) as [m|] eqn:Hm.
    + apply U64.checked_add_Some in Hm as [-> _].
      pose proof (above_next log n ltac:(eauto)). destruct (IH (n + 1)) as (r & -> & Hr); [lia|].
      exists r. split; [done|]. intros i Hi. destruct (Hr i Hi) as (?&?&Hbelow).
      split_and!; [lia|done|]. intros j Hj. destruct (decide (j = n)) as [->|]; [by exists e|].
      apply Hbelow. lia.
    + eexists. split; [done|]. done.
  - eexists. split; [done|]. intros i [= <-]. split_and!; [done|naive_solver|lia].
  - eexists. split; [done|]. intros i [= <-]. split_and!; [done|naive_solver|lia].
Qed.
End counting.

(** ** The invariant of a replica *)

Section invariant.
Context {V : Type} `{Countable V}.
Import ReplicaCore.
Implicit Types s : t V.

Record replica_inv s : Prop := {
  ri_genesis : ∃ e, log s !! 0 = Some e ∧ LogSlot.committed e = true;
  ri_checkpoint : 0 ≤ checkpointed_through s < next_commit s;
  ri_fits : next_commit s ≤ U64.MAX;
  ri_committed : ∀ i, checkpointed_through s < i < next_commit s →
    is_decided_commit (log s !! i) = true;
  ri_open : ∀ i e, log s !! i = Some e → next_commit s ≤ i → LogSlot.committed e = false;
  ri_slot : ∀ i e d, log s !! i = Some e → LogSlot.decision e = Some d → Decision.slot d = i;
  ri_pending_seen : ∀ v, v ∈ pending s → v ∈ seen_value_ids s;
  ri_log_seen : ∀ i e v, log s !! i = Some e → v ∈ entry_values e → v ∈ seen_value_ids s;
  ri_pending_len : len (pending s) ≤ ReplicaConfig.max_pending_values (config s);
  ri_log_len : retained_slots (log s) ≤ ReplicaConfig.max_log_slots (config s);
  ri_seen_len : Z.of_nat (size (seen_value_ids s))
                ≤ ReplicaConfig.max_tracked_value_ids (config s);
}.

Definition config_ok (c : ReplicaConfig.t) : Prop :=
  0 ≤ ReplicaConfig.max_pending_values c ∧ 0 ≤ ReplicaConfig.max_log_slots c
  ∧ 0 ≤ ReplicaConfig.max_tracked_value_ids c.

Lemma new_replica_inv c : config_ok c → replica_inv (new c).
Proof.
  intros (?&?&?). split; simpl; try done.
  - eexists. by rewrite lookup_singleton_eq.
  - intros i. unfold SlotIdx.GENESIS. lia.
  - intros i e. rewrite lookup_singleton_Some. intros [<- _]. unfold SlotIdx.GENESIS. lia.
  - intros i e d. rewrite lookup_singleton_Some. by intros [_ <-].
  - by intros v ?%elem_of_nil.
  - intros i e v. rewrite lookup_singleton_Some. by intros [_ <-] ?%elem_of_nil.
Qed.

(** ** Restoring *)

Lemma check_committed_Ok (l : gmap Z (LogSlot.t V)) n i :
  i + Z.of_nat n ≤ U64.MAX →
  (∀ j, i ≤ j < i + Z.of_nat n → is_decided_commit (l !! j) = true) →
  check_committed l i n = Ok tt.
Proof.
  revert i. induction n as [|n IH]; intros i Hmax Hall; simpl; [done|].
  rewrite Hall by lia. simpl. unfold SlotIdx.checked_next.
  rewrite (proj2 (U64.checked_add_Some i 1 (i + 1))) by lia. simpl.
  apply IH; [lia|]. intros j Hj. apply Hall. lia.
Qed.

Lemma restore_replica s : replica_inv s → restore (config s) (snapshot s) = Ok s.
Proof.
  intros [(e0 & Hg & Hg') Hck Hfit Hcom Hopen Hslot Hps Hls Hpl Hll Hsl].
  unfold restore, snapshot; simpl.
  rewrite !(proj2 (Z.ltb_ge _ _)) by done.
  rewrite (proj2 (existsb_false _ _)); last first.
  { intros v [Hv|Hv]%elem_of_app; apply negb_false_iff, bool_decide_eq_true; [by apply Hps|].
    apply list_elem_of_bind in Hv as (e & Hv & [i Hi]%elem_of_values). by eapply Hls. }
  change SlotIdx.GENESIS with 0. rewrite Hg, Hg'. simpl.
  rewrite (proj2 (Z.leb_gt _ _)) by lia. unfold SlotIdx.checked_next.
  rewrite (proj2 (U64.checked_add_Some _ _ (checkpointed_through s + 1))) by lia. simpl.
  rewrite check_committed_Ok; [|lia|]; last first.
  { intros j Hj. apply Hcom. lia. }
  rewrite (proj2 (existsb_false _ _)); [by destruct s|].
  intros [i e] Hi%elem_of_entries. destruct (Z.leb_spec (next_commit s) i).
  - rewrite (Hopen i e) by done. apply andb_false_r.
  - by rewrite andb_false_r.
Qed.

(** ** Each operation *)

Lemma elem_of_fresh_values (seen unique : gset V) l v :
  v ∈ fresh_values seen unique l ↔ (v ∈ l ∧ (v ∉ seen) ∧ (v ∉ unique)).
Proof.
  revert unique. induction l as [|x l IH]; intros unique; simpl.
  - split; [by intros ?%elem_of_nil|]. by intros [?%elem_of_nil _].
  - destruct (bool_decide (x ∈ seen)) eqn:E1; [|destruct (bool_decide (x ∈ unique)) eqn:E2]; simpl;
      rewrite ?bool_decide_eq_true, ?bool_decide_eq_false in *.
    + rewrite IH, elem_of_cons. set_solver.
    + rewrite IH, elem_of_cons. set_solver.
    + rewrite !elem_of_cons, IH. destruct (decide (v = x)) as [->|]; set_solver.
Qed.

Lemma NoDup_fresh_values (seen unique : gset V) l : NoDup (fresh_values seen unique l).
Proof.
  revert unique. induction l as [|x l IH]; intros unique; simpl; [constructor|].
  destruct (_ || _); [done|]. constructor; [|done]. rewrite elem_of_fresh_values. set_solver.
Qed.

Lemma size_add_values (seen : gset V) (l : list V) :
  Z.of_nat (size (seen ∪ list_to_set l)) ≤ Z.of_nat (size seen) + len l.
Proof.
  pose proof (size_union_alt seen (list_to_set l)).
  pose proof (subseteq_size (list_to_set l ∖ seen) (list_to_set l : gset V) ltac:(set_solver)).
  assert (size (list_to_set l : gset V) ≤ length l)%nat; [|unfold len; lia].
  clear. induction l as [|x l IH]; [done|]. simpl.
  pose proof (size_union_alt ({[x]} : gset V) (list_to_set l)).
  pose proof (subseteq_size (list_to_set l ∖ {[x]}) (list_to_set l : gset V) ltac:(set_solver)).
  assert (size ({[x]} : gset V) = 1%nat) by apply size_singleton. lia.
Qed.

Lemma size_add_set (seen extra : gset V) :
  Z.of_nat (size (seen ∪ (extra ∖ seen))) = Z.of_nat (size seen) + Z.of_nat (size (extra ∖ seen)).
Proof.
  rewrite size_union_alt. replace (extra ∖ seen ∖ seen) with (extra ∖ seen) by set_solver. lia.
Qed.

Lemma enqueue_cases l s s' r :
  enqueue l s = (s', r) →
  let fresh := fresh_values (seen_value_ids s) ∅ l in
  (s' = s ∧ is_err r = true)
  ∨ (r = Ok tt
     ∧ len (pending s) + len fresh ≤ ReplicaConfig.max_pending_values (config s)
     ∧ Z.of_nat (size (seen_value_ids s)) + len fresh
       ≤ ReplicaConfig.max_tracked_value_ids (config s)
     ∧ s' = set_pending (set_seen s (seen_value_ids s ∪ list_to_set fresh)) (pending s ++ fresh)).
Proof.
  intros He fresh. unfold enqueue, bind, reads, modify, throw in He. fold fresh in He.
  destruct (Z.ltb_spec (ReplicaConfig.max_pending_values (config s))
              (len (pending s) + len fresh)); [left; by injection He as <- <-|].
  destruct (Z.ltb_spec (ReplicaConfig.max_tracked_value_ids (config s))
              (Z.of_nat (size (seen_value_ids s)) + len fresh));
    [left; by injection He as <- <-|].
  right. injection He as <- <-. done.
Qed.

Lemma enqueue_inv l s : replica_inv s → replica_inv (enqueue l s).1.
Proof.
  intros Hi. destruct (enqueue l s) as [s' r] eqn:E.
  apply enqueue_cases in E as [[-> _]|(_ & Hp & Ht & ->)]; [done|].
  destruct Hi as [Hg Hck Hfit Hcom Hopen Hslot Hps Hls Hpl Hll Hsl]. split; simpl; try done.
  - intros v [Hv|Hv]%elem_of_app; [by apply elem_of_union_l, Hps|].
    by apply elem_of_union_r, elem_of_list_to_set.
  - intros i e v Hi Hv. by eapply elem_of_union_l, Hls.
  - rewrite len_app. lia.
  - pose proof (size_add_values (seen_value_ids s) (fresh_values (seen_value_ids s) ∅ l)). lia.
Qed.

(** Writing a proposal into a slot. *)
Definition with_proposed s (slot : SlotIndex) (value_ids : list V) : t V :=
  let entry := default LogSlot.default (log s !! slot) in
  mk (config s)
     (<[slot := LogSlot.mk value_ids (LogSlot.decision entry) (LogSlot.committed entry)]> (log s))
     (pending s) (Z.max (last_proposed s) slot) (next_commit s) (checkpointed_through s)
     (seen_value_ids s ∪ (list_to_set value_ids ∖ seen_value_ids s)).

Lemma ensure_log_capacity_Ok s slot :
  ensure_log_capacity s slot = Ok tt →
  is_Some (log s !! slot) ∨ retained_slots (log s) + 1 ≤ ReplicaConfig.max_log_slots (config s).
Proof.
  unfold ensure_log_capacity. destruct (bool_decide _) eqn:Hb; simpl.
  - destruct (Z.leb_spec (ReplicaConfig.max_log_slots (config s)) (retained_slots (log s)));
      [done|]. right. lia.
  - intros _. left. apply bool_decide_eq_false in Hb. by apply not_eq_None_Some.
Qed.

Lemma retained_slots_capacity s slot e :
  ensure_log_capacity s slot = Ok tt →
  retained_slots (log s) ≤ ReplicaConfig.max_log_slots (config s) →
  retained_slots (<[slot := e]> (log s)) ≤ ReplicaConfig.max_log_slots (config s).
Proof.
  intros [Hs|Hlt]%ensure_log_capacity_Ok Hle.
  - by rewrite retained_slots_update.
  - pose proof (retained_slots_insert (log s) slot e). lia.
Qed.

Lemma note_proposed_cases slot l s s' r :
  note_proposed slot l s = (s', r) →
  (s' = s ∧ is_err r = true)
  ∨ (r = Ok tt ∧ l ≠ []
     ∧ Z.of_nat (size (seen_value_ids s ∪ (list_to_set l ∖ seen_value_ids s)))
       ≤ ReplicaConfig.max_tracked_value_ids (config s)
     ∧ ensure_log_capacity s slot = Ok tt
     ∧ s' = with_proposed s slot l).
Proof.
  unfold note_proposed, bind, reads, modify, throw, lift.
  destruct (is_empty l) eqn:He; [intros [= <- <-]; by left|].
  destruct (repeats l); [intros [= <- <-]; by left|].
  destruct (Z.ltb_spec (ReplicaConfig.max_tracked_value_ids (config s))
    (Z.of_nat (size (seen_value_ids s)) + Z.of_nat (size (list_to_set l ∖ seen_value_ids s))));
    [intros [= <- <-]; by left|].
  destruct (ensure_log_capacity s slot) as [[]|] eqn:Hc; [|intros [= <- <-]; by left].
  intros [= <- <-]. right. rewrite size_add_set. apply is_empty_false in He. by split_and!.
Qed.

Lemma with_proposed_inv s slot l :
  replica_inv s →
  Z.of_nat (size (seen_value_ids s ∪ (list_to_set l ∖ seen_value_ids s)))
    ≤ ReplicaConfig.max_tracked_value_ids (config s) →
  ensure_log_capacity s slot = Ok tt → replica_inv (with_proposed s slot l).
Proof.
  intros [Hg Hck Hfit Hcom Hopen Hslot Hps Hls Hpl Hll Hsl] Hseen Hcap.
  assert (∀ i e, log (with_proposed s slot l) !! i = Some e →
            (log s !! i = Some e) ∨ (i = slot ∧ LogSlot.proposed e = l
             ∧ LogSlot.decision e = LogSlot.decision (default LogSlot.default (log s !! slot))
             ∧ LogSlot.committed e = LogSlot.committed (default LogSlot.default (log s !! slot))))
    as Hlog.
  { intros i e. simpl. rewrite lookup_insert_Some.
    intros [[<- <-]|[_ ?]]; [by right|by left]. }
  split; simpl; try done.
  - destruct Hg as (e & He & Hc). destruct (decide (slot = 0)) as [->|].
    + eexists. rewrite lookup_insert_eq. split; [done|]. by rewrite He.
    + exists e. by rewrite lookup_insert_ne.
  - intros i Hi. specialize (Hcom i Hi). rewrite lookup_insert. case_decide as Heq; [|done].
    subst. destruct (log s !! i); [done|done].
  - intros i e [He|(-> & _ & _ & Hc)]%Hlog Hle; [by eapply Hopen|]. rewrite Hc.
    destruct (log s !! slot) as [e0|] eqn:E; [by eapply Hopen|done].
  - intros i e d [He|(-> & _ & Hd & _)]%Hlog Hdec; [by eapply Hslot|].
    rewrite Hd in Hdec. destruct (log s !! slot) as [e0|] eqn:E; [by eapply Hslot|done].
  - intros v Hv. by apply elem_of_union_l, Hps.
  - intros i e v [He|(-> & Hp & Hd & _)]%Hlog Hv; [by eapply elem_of_union_l, Hls|].
    unfold entry_values in Hv. rewrite Hp, Hd in Hv. apply elem_of_app in Hv as [Hv|Hv].
    + destruct (decide (v ∈ seen_value_ids s)); [by apply elem_of_union_l|].
      apply elem_of_union_r, elem_of_difference. by rewrite elem_of_list_to_set.
    + apply elem_of_union_l. destruct (log s !! slot) as [e0|] eqn:E; [|by apply elem_of_nil in Hv].
      eapply Hls; [done|]. apply elem_of_app. by right.
  - by apply retained_slots_capacity.
Qed.

Lemma note_proposed_inv slot l s : replica_inv s → replica_inv (note_proposed slot l s).1.
Proof.
  intros Hi. destruct (note_proposed slot l s) as [s' r] eqn:E.
  apply note_proposed_cases in E as [[-> _]|(_ & _ & ? & ? & ->)]; [done|].
  by apply with_proposed_inv.
Qed.

Lemma drop_pending_inv s n : replica_inv s → replica_inv (set_pending s (drop n (pending s))).
Proof.
  intros [Hg Hck Hfit Hcom Hopen Hslot Hps Hls Hpl Hll Hsl]. split; simpl; try done.
  - intros v Hv. apply Hps. rewrite <-(take_drop n (pending s)). apply elem_of_app. by right.
  - unfold len in *. rewrite length_drop. lia.
Qed.

Lemma next_proposal_cases s s' r :
  next_proposal s = (s', r) →
  (s' = s ∧ (r = Ok None ∨ is_err r = true))
  ∨ ∃ slot n, next_open_slot s = Ok slot ∧ (0 < n)%nat
    ∧ note_proposed slot (take n (pending s)) (set_pending s (drop n (pending s)))
      = (s', match r with Ok _ => Ok tt | Err e => Err e end)
    ∧ (is_ok r = true → r = Ok (Some (slot, take n (pending s)))).
Proof.
  unfold next_proposal, bind at 1, reads at 1.
  destruct (_ || _); [intros [= <- <-]; left; auto|].
  unfold bind at 1, lift at 1.
  destruct (next_open_slot s) as [slot|e]; [|intros [= <- <-]; left; auto].
  unfold bind at 1, modify at 1. unfold bind, ret.
  set (n := Z.to_nat _). intros Hn. right. exists slot, n. split; [done|]. split; [lia|].
  destruct (note_proposed _ _ _) as [s1 [[]|e]]; injection Hn as <- <-; done.
Qed.

Lemma next_proposal_inv s : replica_inv s → replica_inv (next_proposal s).1.
Proof.
  intros Hi. destruct (next_proposal s) as [s' r] eqn:E.
  apply next_proposal_cases in E as [[-> _]|(slot & n & _ & _ & Hn & _)]; [done|].
  pose proof (note_proposed_inv slot (take n (pending s)) _ (drop_pending_inv s n Hi)) as Hinv.
  by rewrite Hn in Hinv.
Qed.

Lemma prune_replica_inv s slot : replica_inv s → replica_inv (prune_through s slot).
Proof.
  intros [Hg Hck Hfit Hcom Hopen Hslot Hps Hls Hpl Hll Hsl].
  assert (committed_through s = next_commit s - 1) as Hct.
  { unfold committed_through, U64.saturating_sub. lia. }
  set (s' := prune_through s slot).
  assert (∀ i e, log s' !! i = Some e → log s !! i = Some e) as Hsub.
  { intros i e. simpl. rewrite map_lookup_filter_Some. by intros [? _]. }
  assert (checkpointed_through s ≤ checkpointed_through s' < next_commit s) as Hck'.
  { simpl. rewrite Hct. lia. }
  split; try done.
  - destruct Hg as (e & He & ?). exists e. split; [|done]. simpl.
    apply map_lookup_filter_Some. split; [done|]. by left.
  - simpl in *. lia.
  - intros i Hi. change (next_commit s') with (next_commit s) in Hi.
    specialize (Hcom i ltac:(lia)). destruct (log s !! i) as [e|] eqn:E; [|done].
    assert (log s' !! i = Some e) as ->; [|done]. simpl.
    apply map_lookup_filter_Some. split; [done|]. right. left. simpl. apply Hi.
  - intros i e He%Hsub. by apply Hopen.
  - intros i e d He%Hsub. by apply Hslot.
  - intros i e v He%Hsub. by eapply Hls.
  - etrans; [|done]. change (config s') with (config s). rewrite !retained_slots_dom.
    apply inj_le, subseteq_size. intros i. rewrite !elem_of_difference, !elem_of_dom.
    intros [[e He%Hsub] ?]. split; [by exists e|done].
Qed.

(** ** Applying a decision *)

(** What goes back to the queue when a slot decides another batch. *)
Definition requeued (entry : LogSlot.t V) (d : Decision.t V) : list V :=
  if negb (is_empty (LogSlot.proposed entry))
     && negb (bool_decide (LogSlot.proposed entry = Decision.value_ids d))
  then filter (λ v, v ∉ Decision.value_ids d) (LogSlot.proposed entry) else [].

Definition with_decision s (d : Decision.t V) : t V :=
  let entry := default LogSlot.default (log s !! Decision.slot d) in
  mk (config s)
     (<[Decision.slot d := LogSlot.mk (LogSlot.proposed entry) (Some d)
                                      (LogSlot.committed entry)]> (log s))
     (requeued entry d ++ pending s) (last_proposed s) (next_commit s) (checkpointed_through s)
     (seen_value_ids s ∪ (list_to_set (Decision.value_ids d) ∖ seen_value_ids s)).

Lemma set_log_same s i e : log s !! i = Some e → set_log s (<[i := e]> (log s)) = s.
Proof. intros Hi. unfold set_log. rewrite insert_id by done. by destruct s. Qed.

Lemma store_decision_cases d s s' r :
  store_decision d s = (s', r) →
  (s' = s ∧ (is_err r = true ∨ r = Ok false)
   ∧ (r = Ok false → ∃ e existing, log s !! Decision.slot d = Some e
        ∧ LogSlot.decision e = Some existing
        ∧ Decision.value_ids existing = Decision.value_ids d))
  ∨ (r = Ok true
     ∧ LogSlot.decision (default LogSlot.default (log s !! Decision.slot d)) = None
     ∧ set_seen s' (seen_value_ids s ∪ (list_to_set (Decision.value_ids d) ∖ seen_value_ids s))
       = with_decision s d
     ∧ (len (pending s) ≤ ReplicaConfig.max_pending_values (config s) →
        len (pending s') ≤ ReplicaConfig.max_pending_values (config s))
     ∧ seen_value_ids s' = seen_value_ids s).
Proof.
  unfold store_decision, bind, reads, modify, throw, ret.
  destruct (log s !! Decision.slot d) as [e|] eqn:He; simpl.
  - destruct (LogSlot.decision e) as [existing|] eqn:Hd.
    + rewrite set_log_same by done.
      destruct (bool_decide _) eqn:Hb; simpl; intros [= <- <-]; left; split_and!; auto; [|done].
      intros _. apply bool_decide_eq_true in Hb. by exists e, existing.
    + fold (requeued e d). destruct (_ && (_ <? _)) eqn:Hlim; intros [= <- <-].
      { left. split; [by apply set_log_same|]. by split; [left|]. }
      right. split_and!; try done.
      { unfold with_decision, set_seen. simpl. rewrite He, insert_insert_eq. done. }
      simpl. intros Hp. rewrite len_app.
      unfold requeued in *. destruct (_ && negb _); simpl in Hlim.
      * apply Z.ltb_ge in Hlim. lia.
      * rewrite len_nil. lia.
  - intros [= <- <-]. right. split_and!; try done. unfold with_decision, set_seen. simpl.
    rewrite He, insert_insert_eq. done.
Qed.

Lemma with_decision_inv s d :
  replica_inv s → ensure_log_capacity s (Decision.slot d) = Ok tt →
  Z.of_nat (size (seen_value_ids s
                  ∪ (list_to_set (Decision.value_ids d) ∖ seen_value_ids s)))
    ≤ ReplicaConfig.max_tracked_value_ids (config s) →
  len (pending (with_decision s d)) ≤ ReplicaConfig.max_pending_values (config s) →
  replica_inv (with_decision s d).
Proof.
  intros [Hg Hck Hfit Hcom Hopen Hslot Hps Hls Hpl Hll Hsl] Hcap Hseen Hlen.
  set (e0 := default LogSlot.default (log s !! Decision.slot d)) in *.
  assert (∀ v, v ∈ LogSlot.proposed e0 → v ∈ seen_value_ids s) as Hprop.
  { intros v Hv. unfold e0 in Hv. destruct (log s !! Decision.slot d) as [e|] eqn:E;
      [|by apply elem_of_nil in Hv]. eapply Hls; [done|]. apply elem_of_app. by left. }
  assert (∀ i e, log (with_decision s d) !! i = Some e → log s !! i = Some e
    ∨ (i = Decision.slot d ∧ e = LogSlot.mk (LogSlot.proposed e0) (Some d) (LogSlot.committed e0)))
    as Hlog.
  { intros i e. simpl. rewrite lookup_insert_Some. intros [[<- <-]|[_ ?]]; auto. }
  split; try done.
  - destruct Hg as (e & Hge & Hc). simpl. destruct (decide (Decision.slot d = 0)) as [Hz|].
    + rewrite Hz, lookup_insert_eq, Hge. by eexists.
    + exists e. by rewrite lookup_insert_ne.
  - intros i Hi. specialize (Hcom i Hi). simpl. rewrite lookup_insert.
    case_decide as Hx; [|done]. subst i. unfold e0.
    destruct (log s !! Decision.slot d); [|done]. simpl in *.
    apply andb_true_iff in Hcom as [-> _]. done.
  - intros i e [?|[-> ->]]%Hlog Hle; [by eapply Hopen|]. simpl. unfold e0.
    destruct (log s !! Decision.slot d) eqn:E; [by eapply Hopen|done].
  - intros i e d' [?|[-> ->]]%Hlog; [by eapply Hslot|]. by intros [= <-].
  - intros v [Hv|Hv]%elem_of_app; apply elem_of_union_l; [|by apply Hps].
    apply Hprop. unfold requeued in Hv. destruct (_ && _); [|by apply elem_of_nil in Hv].
    by apply list_elem_of_filter in Hv as [_ ?].
  - intros i e v [?|[-> ->]]%Hlog Hv; [by eapply elem_of_union_l, Hls|].
    apply elem_of_app in Hv as [Hv|Hv]; simpl in Hv; [by apply elem_of_union_l, Hprop|].
    destruct (decide (v ∈ seen_value_ids s)); [by apply elem_of_union_l|].
    apply elem_of_union_r, elem_of_difference. by rewrite elem_of_list_to_set.
  - simpl. by apply retained_slots_capacity.
Qed.

Lemma apply_decision_cases d s s' r :
  replica_inv s → apply_decision d s = (s', r) →
  (s' = s ∧ (is_err r = true
             ∨ (r = Ok [] ∧ is_Some (LogSlot.decision
                  (default LogSlot.default (log s !! Decision.slot d))))))
  ∨ (Decision.value_ids d ≠ []
     ∧ LogSlot.decision (default LogSlot.default (log s !! Decision.slot d)) = None
     ∧ replica_inv (with_decision s d)
     ∧ commit_ready (with_decision s d) = (s', r)).
Proof.
  intros Hinv. unfold apply_decision, bind at 1, reads at 1, throw.
  destruct (is_empty _) eqn:He; [intros [= <- <-]; left; auto|].
  destruct (repeats _); [intros [= <- <-]; left; auto|].
  destruct (Z.ltb_spec (ReplicaConfig.max_tracked_value_ids (config s))
    (Z.of_nat (size (seen_value_ids s))
     + Z.of_nat (size (list_to_set (Decision.value_ids d) ∖ seen_value_ids s)))) as [|Hseen];
    [intros [= <- <-]; left; auto|].
  unfold bind at 1, lift.
  destruct (ensure_log_capacity s (Decision.slot d)) as [[]|] eqn:Hcap;
    [|intros [= <- <-]; left; auto].
  unfold bind at 1. destruct (store_decision d s) as [s1 [[]|e]] eqn:Hst.
  - apply store_decision_cases in Hst as [(_&[?|?]&_)|(_ & Hnone & Heq & Hlen & Hsn)]; [done..|].
    simpl. unfold bind, modify. rewrite Hsn, Heq. intros Hcr. right.
    apply is_empty_false in He. split_and!; try done.
    assert (pending s1 = pending (with_decision s d)) as Hp by (by rewrite <-Heq).
    apply with_decision_inv; try done.
    + by rewrite size_add_set.
    + rewrite <-Hp. apply Hlen, Hinv.
  - apply store_decision_cases in Hst as [(->&_&Hdup)|([=]&_)]. simpl. unfold ret.
    intros [= <- <-]. left. split; [done|right]. split; [done|].
    destruct (Hdup eq_refl) as (e & existing & -> & Hex & _). by exists existing.
  - apply store_decision_cases in Hst as [(->&_&_)|([=]&_)]. intros [= <- <-]. left. auto.
Qed.

(** ** The commit loop *)

Lemma commit_one_inv s e d :
  replica_inv s → log s !! next_commit s = Some e → LogSlot.decision e = Some d →
  next_commit s + 1 ≤ U64.MAX →
  replica_inv (set_next_commit
    (set_log s (<[next_commit s := LogSlot.mk [] (Some d) true]> (log s))) (next_commit s + 1)).
Proof.
  intros [Hg Hck Hfit Hcom Hopen Hslot Hps Hls Hpl Hll Hsl] He Hd Hmax.
  split; simpl; try done.
  - destruct Hg as (e0 & H0 & ?). exists e0. rewrite lookup_insert_ne by lia. done.
  - lia.
  - intros i Hi. rewrite lookup_insert. case_decide; [done|]. apply Hcom. lia.
  - intros i x. rewrite lookup_insert_Some. intros [[<- <-]|[? Hx]] ?; [lia|].
    eapply Hopen; [done|lia].
  - intros i x d'. rewrite lookup_insert_Some. intros [[<- <-]|[? Hx]]; [|by eapply Hslot].
    intros [= <-]. by eapply Hslot.
  - intros i x v. rewrite lookup_insert_Some. intros [[<- <-]|[? Hx]]; [|by eapply Hls].
    intros Hv. eapply Hls; [done|]. unfold entry_values in *. rewrite Hd.
    apply elem_of_app. by right.
  - by rewrite retained_slots_update by eauto.
Qed.

(** Delivering the decided run of slots from the frontier, in order, up to
    the first slot without a decision. *)
Record commits s s' (fresh : list (Decision.t V)) : Prop := {
  cm_inv : replica_inv s';
  cm_slots : Decision.slot <$> fresh = seqZ (next_commit s) (len fresh);
  cm_next : next_commit s' = next_commit s + len fresh;
  cm_pending : pending s' = pending s;
  cm_seen : seen_value_ids s' = seen_value_ids s;
  cm_decisions : ∀ i, LogSlot.decision <$> log s' !! i = LogSlot.decision <$> log s !! i;
  cm_decided : ∀ d, d ∈ fresh →
    ∃ e, log s !! Decision.slot d = Some e ∧ LogSlot.decision e = Some d;
  cm_outside : ∀ i, i < next_commit s ∨ next_commit s' ≤ i → log s' !! i = log s !! i;
  cm_undecided : ∀ i e, log s !! i = Some e → LogSlot.decision e = None → log s' !! i = Some e;
  cm_frontier : ∀ e, log s' !! next_commit s' = Some e → LogSlot.decision e = None;
}.

Lemma commits_none s :
  replica_inv s → (∀ e, log s !! next_commit s = Some e → LogSlot.decision e = None) →
  commits s s [].
Proof.
  intros Hi He. split; try done; [rewrite len_nil; lia|by intros d ?%elem_of_nil].
Qed.

Lemma commits_one s e d s' fresh :
  replica_inv s → log s !! next_commit s = Some e → LogSlot.decision e = Some d →
  commits (set_next_commit
    (set_log s (<[next_commit s := LogSlot.mk [] (Some d) true]> (log s))) (next_commit s + 1))
    s' fresh →
  commits s s' (d :: fresh).
Proof.
  intros Hinv He Hd [Hi Hs Hn Hp Hse Hdec Hel Hout Hun Hend]. simpl in *.
  pose proof (len_nonneg fresh). pose proof (ri_slot s Hinv _ _ _ He Hd) as Hsd.
  split; rewrite ?len_cons; try done.
  - rewrite fmap_cons, Hs, Hsd, (seqZ_cons (next_commit s)) by lia. f_equal. f_equal; lia.
  - lia.
  - intros i. rewrite Hdec. destruct (decide (i = next_commit s)) as [->|].
    + rewrite lookup_insert_eq, He. simpl. by rewrite Hd.
    + by rewrite lookup_insert_ne.
  - intros d' [->|Hd']%elem_of_cons; [exists e; by rewrite Hsd|].
    destruct (Hel d' Hd') as (e' & He' & ?).
    apply lookup_insert_Some in He' as [[Heq <-]|[_ ?]]; [|by exists e'].
    exists e. rewrite <-Heq. simpl in *. split; [done|congruence].
  - intros i Hir. rewrite Hout by lia. rewrite lookup_insert_ne; [done|lia].
  - intros i e' Hi' Hn'. apply Hun; [|done]. rewrite lookup_insert_ne; [done|congruence].
Qed.

Lemma commit_from_spec fuel acc s :
  replica_inv s → (above (log s) (next_commit s) < fuel)%nat →
  (∀ e, log s !! U64.MAX = Some e → LogSlot.decision e = None) →
  ∃ s' fresh, commit_from fuel acc s = (s', Some (Ok (acc ++ fresh))) ∧ commits s s' fresh.
Proof.
  revert acc s. induction fuel as [|fuel IH]; intros acc s Hinv Hfuel Hmax; [lia|]. simpl.
  destruct (log s !! next_commit s) as [e|] eqn:He; last first.
  { exists s, []. rewrite app_nil_r. split; [done|]. apply commits_none; [done|congruence]. }
  rewrite (ri_open s Hinv _ _ He) by lia.
  destruct (LogSlot.decision e) as [d|] eqn:Hd; last first.
  { exists s, []. rewrite app_nil_r. split; [done|]. apply commits_none; [done|congruence]. }
  assert (next_commit s < U64.MAX) as Hlt.
  { pose proof (ri_fits s Hinv). destruct (decide (next_commit s = U64.MAX)) as [Heq|]; [|lia].
    rewrite Heq in He. apply Hmax in He. congruence. }
  unfold SlotIdx.checked_next. simpl.
  rewrite (proj2 (U64.checked_add_Some _ _ (next_commit s + 1))) by lia.
  pose proof (commit_one_inv s e d Hinv He Hd ltac:(lia)) as Hinv1.
  destruct (IH (acc ++ [d]) _ Hinv1) as (s' & fresh & Hc & Hcm).
  { simpl. rewrite above_update by eauto.
    pose proof (above_next (log s) (next_commit s) ltac:(eauto)). lia. }
  { intros e'. simpl. rewrite lookup_insert_ne by lia. apply Hmax. }
  exists s', (d :: fresh). rewrite <-app_assoc in Hc. split; [done|]. by eapply commits_one.
Qed.

(** [commit_ready] always ends when the last slot number is not decided. *)
Lemma commit_ready_spec s :
  replica_inv s → (∀ e, log s !! U64.MAX = Some e → LogSlot.decision e = None) →
  ∃ s' fresh, commit_ready s = (s', Ok fresh) ∧ commits s s' fresh.
Proof.
  intros Hi Hmax. pose proof (above_le (log s) (next_commit s)).
  destruct (commit_from_spec (S (size (log s))) [] s Hi ltac:(lia) Hmax) as (s' & fresh & Hc & ?).
  exists s', fresh. split; [|done]. unfold commit_ready. by rewrite Hc.
Qed.
End invariant.

(** ** Sequences of operations *)

Section pipeline.
Context {V : Type} `{Countable V}.
Import ReplicaCore.
Implicit Types s : t V.

Inductive replica_op : Type :=
| OpEnqueue (value_ids : list V)
| OpNextProposal
| OpNoteProposed (slot : SlotIndex) (value_ids : list V)
| OpApply (decision : Decision.t V)
| OpPruneLog (slot : SlotIndex)
| OpRestart.

Inductive output : Type :=
| Quiet
| Claimed (slot : SlotIndex) (value_ids : list V)
| Delivered (decisions : list (Decision.t V))
| Failed (error : QuePaxaError.t).

Definition serve (op : replica_op) s : t V * output :=
  match op with
  | OpEnqueue l =>
      match enqueue l s with (s', Ok _) => (s', Quiet) | (s', Err e) => (s', Failed e) end
  | OpNextProposal =>
      match next_proposal s with
      | (s', Ok (Some (slot, l))) => (s', Claimed slot l)
      | (s', Ok None) => (s', Quiet)
      | (s', Err e) => (s', Failed e)
      end
  | OpNoteProposed slot l =>
      match note_proposed slot l s with
      | (s', Ok _) => (s', Quiet) | (s', Err e) => (s', Failed e)
      end
  | OpApply d =>
      match apply_decision d s with
      | (s', Ok ds) => (s', Delivered ds) | (s', Err e) => (s', Failed e)
      end
  | OpPruneLog slot => (prune_through s slot, Quiet)
  | OpRestart =>
      match restore (config s) (snapshot s) with
      | Ok s' => (s', Quiet) | Err e => (s, Failed e)
      end
  end.

Fixpoint serve_all (ops : list replica_op) s : t V * list output :=
  match ops with
  | [] => (s, [])
  | op :: ops =>
      let '(s, out) := serve op s in
      let '(s, outs) := serve_all ops s in
      (s, out :: outs)
  end.

Definition delivered (outs : list output) : list (Decision.t V) :=
  outs ≫= λ out, match out with Delivered ds => ds | _ => [] end.

Definition claims (outs : list output) : list SlotIndex :=
  omap (λ out, match out with Claimed slot _ => Some slot | _ => None end) outs.

Definition applied (ops : list replica_op) : list (Decision.t V) :=
  omap (λ op, match op with OpApply d => Some d | _ => None end) ops.

(** Decisions name a slot below the last [u64], as any log that counts its
    slots from one does. *)
Definition op_fits (op : replica_op) : Prop :=
  match op with OpApply d => Decision.slot d < U64.MAX | _ => True end.

(** The invariant of a running pipeline. *)
Record pipeline_inv s : Prop := {
  pi_replica : replica_inv s;
  pi_last : ∀ e, log s !! U64.MAX = Some e → LogSlot.decision e = None;
  pi_committed : ∀ i e, log s !! i = Some e → LogSlot.committed e = true →
    i = 0 ∨ is_Some (LogSlot.decision e);
}.

Lemma new_pipeline_inv c : config_ok c → pipeline_inv (new c).
Proof.
  intros Hc. split; [by apply new_replica_inv|..]; simpl.
  - intros e. by rewrite lookup_singleton_Some; intros [? <-].
  - intros i e. rewrite lookup_singleton_Some. intros [<- _]. by left.
Qed.

Lemma with_proposed_pipeline s slot l :
  pipeline_inv s → replica_inv (with_proposed s slot l) → pipeline_inv (with_proposed s slot l).
Proof.
  intros [Hr Hl Hc] Hr'. split; [done|..]; simpl.
  - intros e. rewrite lookup_insert_Some. intros [[-> <-]|[_ ?]]; [|by apply Hl]. simpl.
    destruct (log s !! U64.MAX) eqn:E; [by apply Hl|done].
  - intros i e. rewrite lookup_insert_Some. intros [[<- <-]|[_ ?]]; [|by apply Hc]. simpl.
    destruct (log s !! slot) eqn:E; [by apply Hc|done].
Qed.

Lemma note_proposed_pipeline s s' slot l r :
  pipeline_inv s → note_proposed slot l s = (s', r) → pipeline_inv s'.
Proof.
  intros Hp [[-> _]|(_ & _ & ? & ? & ->)]%note_proposed_cases; [done|].
  apply with_proposed_pipeline; [done|]. by apply with_proposed_inv; [apply Hp|..].
Qed.

Lemma commits_pipeline s s' fresh : pipeline_inv s → commits s s' fresh → pipeline_inv s'.
Proof.
  intros [Hr Hl Hc] Hcm. pose proof (cm_decisions _ _ _ Hcm) as Hd. split; [apply Hcm|..].
  - intros e He. specialize (Hd U64.MAX). rewrite He in Hd. simpl in Hd.
    destruct (log s !! U64.MAX) as [e0|] eqn:E; [|done]. injection Hd as ->. by apply Hl.
  - intros i e He Hce. destruct (decide (i < next_commit s ∨ next_commit s' ≤ i)) as [Ho|Ho].
    + rewrite (cm_outside _ _ _ Hcm) in He by done. by eapply Hc.
    + right. pose proof (cm_slots _ _ _ Hcm) as Hsl. pose proof (cm_next _ _ _ Hcm) as Hn.
      assert (i ∈ Decision.slot <$> fresh) as (d & -> & Hin)%list_elem_of_fmap.
      { rewrite Hsl. apply elem_of_seqZ. lia. }
      destruct (cm_decided _ _ _ Hcm d Hin) as (e0 & He0 & Hd0).
      specialize (Hd (Decision.slot d)). rewrite He, He0 in Hd. simpl in Hd.
      injection Hd as ->. rewrite Hd0. by eexists.
Qed.

Lemma with_decision_pipeline s d :
  pipeline_inv s → replica_inv (with_decision s d) → Decision.slot d < U64.MAX →
  pipeline_inv (with_decision s d).
Proof.
  intros [Hr Hl Hc] Hr' Hmax. split; [done|..]; simpl.
  - intros e. rewrite lookup_insert_Some. intros [[? _]|[_ ?]]; [lia|by apply Hl].
  - intros i e. rewrite lookup_insert_Some. intros [[<- <-]|[_ ?]]; [|by apply Hc].
    intros _. right. by eexists.
Qed.

(** A decision either changes nothing or is stored and the frontier moves. *)
Lemma apply_pipeline s s' d r :
  pipeline_inv s → Decision.slot d < U64.MAX → apply_decision d s = (s', r) →
  (s' = s ∧ (is_err r = true
             ∨ (r = Ok [] ∧ is_Some (LogSlot.decision
                  (default LogSlot.default (log s !! Decision.slot d))))))
  ∨ ∃ fresh, r = Ok fresh ∧ commits (with_decision s d) s' fresh
    ∧ pipeline_inv (with_decision s d)
    ∧ LogSlot.decision (default LogSlot.default (log s !! Decision.slot d)) = None.
Proof.
  intros Hp Hd Ha. apply apply_decision_cases in Ha as [?|(_ & Hn & Hi & Hc)]; [by left| |apply Hp].
  right. pose proof (with_decision_pipeline s d Hp Hi Hd) as Hp'.
  destruct (commit_ready_spec _ Hi (pi_last _ Hp')) as (s1 & fresh & Hc' & ?).
  rewrite Hc in Hc'. injection Hc' as -> ->. by exists fresh.
Qed.

Lemma serve_pipeline op s s' out :
  pipeline_inv s → op_fits op → serve op s = (s', out) → pipeline_inv s'.
Proof.
  intros Hp Hf. destruct op as [l| |slot l|d|slot|]; simpl.
  - destruct (enqueue l s) as [s1 r] eqn:E. pose proof (enqueue_inv l s (pi_replica _ Hp)) as Hi.
    rewrite E in Hi. simpl in Hi.
    apply enqueue_cases in E as [[-> _]|(_ & _ & _ & ->)]; [destruct r; by intros [= <- <-]|].
    assert (pipeline_inv (set_pending (set_seen s (seen_value_ids s
      ∪ list_to_set (fresh_values (seen_value_ids s) ∅ l)))
      (pending s ++ fresh_values (seen_value_ids s) ∅ l))) by (split; [done|apply Hp..]).
    destruct r; by intros [= <- <-].
  - destruct (next_proposal s) as [s1 r] eqn:E.
    assert (pipeline_inv s1); [|destruct r as [[[]|]|]; by intros [= <- <-]].
    apply next_proposal_cases in E as [[-> _]|(slot & n & _ & _ & Hn & _)]; [done|].
    eapply note_proposed_pipeline; [|done]. split; [|apply Hp..].
    apply drop_pending_inv, Hp.
  - destruct (note_proposed slot l s) as [s1 r] eqn:E. apply note_proposed_pipeline in E; [|done].
    destruct r; by intros [= <- <-].
  - destruct (apply_decision d s) as [s1 r] eqn:E.
    apply apply_pipeline in E as [[-> _]|(fresh & -> & Hc & Hp' & _)]; try done.
    + destruct r; by intros [= <- <-].
    + intros [= <- <-]. by eapply commits_pipeline.
  - intros [= <- <-]. split; [apply prune_replica_inv, Hp|..]; simpl.
    + intros e [? _]%map_lookup_filter_Some. by apply Hp.
    + intros i e [? _]%map_lookup_filter_Some. by apply Hp.
  - rewrite restore_replica by apply Hp. by intros [= <- <-].
Qed.

Lemma serve_all_pipeline ops s : pipeline_inv s → Forall op_fits ops → pipeline_inv (serve_all ops s).1.
Proof.
  revert s. induction ops as [|op ops IH]; intros s Hp; simpl; [done|].
  intros [Hf Hfs]%Forall_cons. destruct (serve op s) as [s1 out] eqn:E.
  apply serve_pipeline in E; [|done..]. specialize (IH s1 E Hfs).
  by destruct (serve_all ops s1).
Qed.

(** ** Commits come in order *)

Lemma serve_frontier op s s' out :
  pipeline_inv s → op_fits op → serve op s = (s', out) →
  next_commit s ≤ next_commit s'
  ∧ Decision.slot <$> delivered [out] = seqZ (next_commit s) (next_commit s' - next_commit s).
Proof.
  intros Hp Hf Hs.
  assert (∀ x, delivered [x] = match x with Delivered ds => ds | _ => [] end) as Hone.
  { intros x. unfold delivered. simpl. by rewrite app_nil_r. }
  rewrite Hone. clear Hone.
  assert (∀ x : t V, next_commit x = next_commit s → next_commit s ≤ next_commit x
    ∧ Decision.slot <$> (@nil (Decision.t V))
      = seqZ (next_commit s) (next_commit x - next_commit s)) as Hquiet.
  { intros x ->. rewrite Z.sub_diag. done. }
  destruct op as [l| |slot l|d|slot|]; simpl in Hs.
  - destruct (enqueue l s) as [s1 r] eqn:E.
    apply enqueue_cases in E as [[-> _]|(-> & _ & _ & ->)]; [destruct r|]; simplify_eq; auto.
  - destruct (next_proposal s) as [s1 r] eqn:E.
    apply next_proposal_cases in E as [[-> _]|(sl & n & _ & _ & Hn & _)].
    + destruct r as [[[]|]|]; simplify_eq; auto.
    + apply note_proposed_cases in Hn as [[-> _]|(_ & _ & _ & _ & ->)];
        destruct r as [[[]|]|]; simplify_eq; auto.
  - destruct (note_proposed slot l s) as [s1 r] eqn:E.
    apply note_proposed_cases in E as [[-> _]|(-> & _ & _ & _ & ->)]; [destruct r|];
      simplify_eq; auto.
  - destruct (apply_decision d s) as [s1 r] eqn:E.
    apply apply_pipeline in E as [[-> [Hr|[-> _]]]|(fresh & -> & Hc & _)]; try done.
    + destruct r; simplify_eq. auto.
    + simplify_eq. auto.
    + simplify_eq. pose proof (cm_next _ _ _ Hc) as Hn. pose proof (cm_slots _ _ _ Hc) as Hsl.
      simpl in Hn, Hsl. pose proof (len_nonneg fresh). split; [lia|].
      rewrite Hsl. f_equal. lia.
  - simplify_eq. auto.
  - rewrite restore_replica in Hs by apply Hp. simplify_eq. auto.
Qed.

Lemma delivered_cons out outs : delivered (out :: outs) = delivered [out] ++ delivered outs.
Proof. unfold delivered. simpl. by rewrite app_nil_r. Qed.

Lemma serve_all_frontier ops s s' outs :
  pipeline_inv s → Forall op_fits ops → serve_all ops s = (s', outs) →
  next_commit s ≤ next_commit s'
  ∧ Decision.slot <$> delivered outs = seqZ (next_commit s) (next_commit s' - next_commit s).
Proof.
  revert s outs. induction ops as [|op ops IH]; intros s outs Hp; simpl.
  { intros _ [= <- <-]. by rewrite Z.sub_diag. }
  intros [Hf Hfs]%Forall_cons. destruct (serve op s) as [s1 out] eqn:E.
  destruct (serve_all ops s1) as [s2 outs2] eqn:E2. intros [= <- <-].
  pose proof (serve_pipeline _ _ _ _ Hp Hf E) as Hp1.
  destruct (serve_frontier _ _ _ _ Hp Hf E) as [Hle Hd].
  destruct (IH s1 outs2 Hp1 Hfs E2) as [Hle2 Hd2]. split; [lia|].
  rewrite delivered_cons, fmap_app, Hd, Hd2.
  replace (next_commit s2 - next_commit s)
    with ((next_commit s1 - next_commit s) + (next_commit s2 - next_commit s1)) by lia.
  rewrite seqZ_app by lia. do 2 f_equal. lia.
Qed.

(** C17: commits are in order, without gaps and exactly once: whatever a fresh
    replica is asked to do (submissions, proposals, decisions in any order and
    repeated, prunings, restarts, errors included), the decisions it hands to
    the state machine are those of slots 1, 2, 3, ... up to its frontier. *)
Theorem commits_in_order c ops s outs :
  config_ok c → Forall op_fits ops → serve_all ops (new c) = (s, outs) →
  Decision.slot <$> delivered outs = seqZ 1 (next_commit s - 1).
Proof.
  intros Hc Hf Hs.
  by destruct (serve_all_frontier _ _ _ _ (new_pipeline_inv c Hc) Hf Hs) as [_ Hd].
Qed.

(** A replica restarts exactly: after any sequence of operations,
    [restore] accepts its snapshot and rebuilds the state it had. *)
Theorem replica_restarts c ops :
  config_ok c → Forall op_fits ops →
  let s := (serve_all ops (new c)).1 in
  restore (config s) (snapshot s) = Ok s.
Proof.
  intros Hc Hf s. apply restore_replica.
  by apply (serve_all_pipeline ops (new c) (new_pipeline_inv c Hc) Hf).
Qed.

(** ** A slot is claimed once *)

Definition taken s (i : SlotIndex) : Prop :=
  i < next_commit s ∨ ∃ e, log s !! i = Some e ∧ is_claimed e = true.

Lemma is_claimed_iff (e : LogSlot.t V) :
  is_claimed e = true ↔ is_Some (LogSlot.decision e) ∨ LogSlot.proposed e ≠ [].
Proof.
  unfold is_claimed. by rewrite orb_true_iff, bool_decide_eq_true, negb_true_iff, is_empty_false.
Qed.

Lemma with_proposed_taken s slot l i :
  l ≠ [] → taken s i ∨ i = slot → taken (with_proposed s slot l) i.
Proof.
  intros Hl Hi. destruct (decide (i = slot)) as [->|Hne].
  - right. eexists. simpl. rewrite lookup_insert_eq. split; [done|]. apply is_claimed_iff. by right.
  - destruct Hi as [[?|(e & He & ?)]|?]; [by left| |done]. right. exists e. simpl.
    by rewrite lookup_insert_ne.
Qed.

Lemma commits_taken s s' fresh i :
  next_commit s ≤ next_commit s' → commits s s' fresh → taken s i → taken s' i.
Proof.
  intros Hle Hc [?|(e & He & Hcl)]; [left; lia|].
  destruct (decide (i < next_commit s')); [by left|]. right. exists e.
  rewrite (cm_outside _ _ _ Hc) by lia. done.
Qed.

Lemma serve_taken op s s' out i :
  pipeline_inv s → op_fits op → serve op s = (s', out) →
  taken s i ∨ i ∈ claims [out] → taken s' i.
Proof.
  intros Hp Hf Hs. pose proof (serve_frontier _ _ _ _ Hp Hf Hs) as [Hle _].
  destruct op as [l| |slot l|d|slot|]; simpl in Hs.
  - destruct (enqueue l s) as [s1 r] eqn:E.
    apply enqueue_cases in E as [[-> _]|(-> & _ & _ & ->)]; [destruct r|]; simplify_eq;
      by intros [?|?%elem_of_nil].
  - destruct (next_proposal s) as [s1 r] eqn:E.
    apply next_proposal_cases in E as [[-> Hr]|(sl & n & _ & _ & Hn & Hok)].
    + destruct r as [[[]|]|], Hr as [Hr|Hr]; simplify_eq; by intros [?|?%elem_of_nil].
    + apply note_proposed_cases in Hn as [[-> Hr]|(Hr & Hl & _ & _ & ->)].
      * destruct r as [o|]; [done|]. simplify_eq. by intros [?|?%elem_of_nil].
      * destruct r as [o|]; [|done]. specialize (Hok eq_refl). injection Hok as ->. simplify_eq.
        intros Hi. apply with_proposed_taken; [done|]. destruct Hi as [?|Hi]; [by left|right].
        by apply list_elem_of_singleton in Hi.
  - destruct (note_proposed slot l s) as [s1 r] eqn:E.
    apply note_proposed_cases in E as [[-> _]|(-> & Hl & _ & _ & ->)]; [destruct r|];
      simplify_eq; intros [?|?%elem_of_nil]; try done.
    apply with_proposed_taken; auto.
  - destruct (apply_decision d s) as [s1 r] eqn:E.
    apply apply_pipeline in E as [[-> _]|(fresh & -> & Hc & _)]; try done.
    + destruct r; simplify_eq; by intros [?|?%elem_of_nil].
    + simplify_eq. intros [Hi|?%elem_of_nil]; [|done]. eapply (commits_taken (with_decision s d)); [done..|].
      destruct Hi as [?|(e & He & Hcl)]; [by left|]. right. simpl.
      destruct (decide (i = Decision.slot d)) as [->|].
      * rewrite lookup_insert_eq. eexists. split; [done|]. apply is_claimed_iff. left. by eexists.
      * exists e. by rewrite lookup_insert_ne.
  - simplify_eq. intros [Hi|?%elem_of_nil]; [|done].
    destruct Hi as [?|(e & He & Hcl)]; [by left|].
    destruct (decide (i < next_commit s)); [by left|]. right. exists e. split; [|done]. simpl.
    apply map_lookup_filter_Some. split; [done|]. right. right. simpl.
    eapply (ri_open _ (pi_replica _ Hp)); [done|lia].
  - rewrite restore_replica in Hs by apply Hp. simplify_eq. by intros [?|?%elem_of_nil].
Qed.

Lemma next_open_slot_free s i : next_open_slot s = Ok i → ¬ taken s i.
Proof.
  unfold next_open_slot. pose proof (above_le (log s) (next_commit s)).
  destruct (open_slot_from_spec (S (size (log s))) (log s) (next_commit s)) as (r & -> & Hr);
    [lia|]. simpl. intros ->. destruct (Hr i eq_refl) as (Hle & Hfree & _).
  intros [?|(e & He & Hc)]; [lia|]. by rewrite (Hfree e He) in Hc.
Qed.

Lemma serve_claims_free op s s' out i :
  serve op s = (s', out) → i ∈ claims [out] → ¬ taken s i.
Proof.
  intros Hs Hi. destruct out as [|slot l| |]; try by apply elem_of_nil in Hi.
  apply list_elem_of_singleton in Hi as ->. destruct op as [l'| |slot' l'|d|slot'|]; simpl in Hs.
  - by destruct (enqueue l' s) as [? []].
  - destruct (next_proposal s) as [s1 r] eqn:E.
    apply next_proposal_cases in E as [[_ [->|Hr]]|(sl & n & Ho & _ & _ & Hok)]; [done|..].
    + by destruct r as [[[]|]|].
    + destruct r as [[[]|]|]; [|done..]. specialize (Hok eq_refl). simplify_eq.
      by apply next_open_slot_free.
  - by destruct (note_proposed slot' l' s) as [? []].
  - by destruct (apply_decision d s) as [? []].
  - done.
  - by destruct (restore _ _).
Qed.

Lemma serve_all_claims ops s s' outs C :
  pipeline_inv s → Forall op_fits ops → serve_all ops s = (s', outs) →
  NoDup C → (∀ i, i ∈ C → taken s i) → NoDup (C ++ claims outs).
Proof.
  revert s outs C. induction ops as [|op ops IH]; intros s outs C Hp; simpl.
  { intros _ [= <- <-]. by rewrite app_nil_r. }
  intros [Hf Hfs]%Forall_cons. destruct (serve op s) as [s1 out] eqn:E.
  destruct (serve_all ops s1) as [s2 outs2] eqn:E2. intros [= <- <-] Hnd Htk.
  pose proof (serve_pipeline _ _ _ _ Hp Hf E) as Hp1.
  change (out :: outs2) with ([out] ++ outs2). unfold claims. rewrite omap_app, app_assoc.
  apply (IH s1 outs2 _ Hp1 Hfs E2).
  - apply NoDup_app. split_and!; [done| |].
    + intros i Hi Hcl. by apply (serve_claims_free _ _ _ _ _ E Hcl), Htk.
    + destruct out; simpl; try constructor; [apply not_elem_of_nil|constructor].
  - intros i Hi. apply (serve_taken op s s1 out i Hp Hf E).
    apply elem_of_app in Hi as [Hi|Hi]; [left; by apply Htk|by right].
Qed.

(** A replica never proposes twice in one slot: the slots that
    [next_proposal] hands out along any sequence of operations are distinct.
    This is what lets the running system assume one batch per replica and
    slot. *)
Theorem slots_claimed_once c ops s outs :
  config_ok c → Forall op_fits ops → serve_all ops (new c) = (s, outs) →
  NoDup (claims outs).
Proof.
  intros Hc Hf Hs.
  apply (serve_all_claims ops (new c) s outs [] (new_pipeline_inv c Hc) Hf Hs); [constructor|].
  by intros i ?%elem_of_nil.
Qed.

(** ** No value is lost *)

(** Where a value may be: queued, in an undecided proposal, or in one of the
    decisions [D] the replica was given. *)
Definition accounted s (D : list (Decision.t V)) (v : V) : Prop :=
  v ∈ pending s
  ∨ (∃ i e, log s !! i = Some e ∧ v ∈ LogSlot.proposed e ∧ LogSlot.decision e = None)
  ∨ ∃ d, d ∈ D ∧ v ∈ Decision.value_ids d.

Definition accounts s (D : list (Decision.t V)) : Prop :=
  ∀ v, v ∈ seen_value_ids s → accounted s D v.

Lemma accounts_mono s D D' : D ⊆ D' → accounts s D → accounts s D'.
Proof.
  intros Hsub Ha v Hv. destruct (Ha v Hv) as [?|[?|(d & ? & ?)]]; [by left|by right; left|].
  right. right. exists d. split; [by apply Hsub|done].
Qed.

Lemma claim_accounts s slot n D :
  next_open_slot s = Ok slot → accounts s D →
  accounts (with_proposed (set_pending s (drop n (pending s))) slot (take n (pending s))) D.
Proof.
  intros Hopen Ha v Hv. simpl in Hv.
  assert (∀ e, log s !! slot = Some e → LogSlot.decision e = None ∧ LogSlot.proposed e = [])
    as Hfree.
  { intros e He. apply next_open_slot_free in Hopen.
    destruct (LogSlot.decision e) eqn:Hd.
    - exfalso. apply Hopen. right. exists e. split; [done|]. apply is_claimed_iff. left.
      by eexists.
    - split; [done|]. destruct (LogSlot.proposed e) eqn:Hpe; [done|]. exfalso. apply Hopen.
      right. exists e. split; [done|]. apply is_claimed_iff. right. by rewrite Hpe. }
  assert (v ∈ take n (pending s) → accounted (with_proposed
    (set_pending s (drop n (pending s))) slot (take n (pending s))) D v) as Htake.
  { intros Ht. right. left. eexists slot, _. simpl. rewrite lookup_insert_eq. split; [done|].
    split; [done|]. simpl. destruct (log s !! slot) eqn:E; [by apply Hfree|done]. }
  destruct (decide (v ∈ take n (pending s))) as [Ht|Hnt]; [by apply Htake|].
  assert (v ∈ seen_value_ids s) as Hvs.
  { apply elem_of_union in Hv as [?|[Hv _]%elem_of_difference]; [done|].
    by apply elem_of_list_to_set in Hv. }
  destruct (Ha v Hvs) as [Hp|[(i & e & He & Hin & Hd)|?]].
  - left. simpl. rewrite <-(take_drop n (pending s)) in Hp.
    by apply elem_of_app in Hp as [?|?].
  - right. left. exists i, e. simpl. split_and!; try done.
    rewrite lookup_insert_ne; [done|]. intros <-. destruct (Hfree e He) as [_ Hpe].
    rewrite Hpe in Hin. by apply elem_of_nil in Hin.
  - by right; right.
Qed.

Lemma decide_accounts s s' d fresh D :
  commits (with_decision s d) s' fresh →
  LogSlot.decision (default LogSlot.default (log s !! Decision.slot d)) = None →
  accounts s D → accounts s' (D ++ [d]).
Proof.
  intros Hc Hnone Ha v Hv. rewrite (cm_seen _ _ _ Hc) in Hv. simpl in Hv.
  destruct (decide (v ∈ Decision.value_ids d)) as [Hd|Hnd].
  { right. right. exists d. split; [|done]. apply elem_of_app. right. left. }
  assert (v ∈ seen_value_ids s) as Hvs.
  { apply elem_of_union in Hv as [?|[Hv _]%elem_of_difference]; [done|].
    by apply elem_of_list_to_set in Hv. }
  destruct (Ha v Hvs) as [Hp|[(i & e & He & Hin & Hde)|(d' & Hd' & ?)]].
  - left. rewrite (cm_pending _ _ _ Hc). simpl. apply elem_of_app. by right.
  - destruct (decide (i = Decision.slot d)) as [->|Hne].
    + left. rewrite (cm_pending _ _ _ Hc). simpl. rewrite He. simpl. apply elem_of_app. left.
      unfold requeued. destruct (LogSlot.proposed e) as [|x l] eqn:Hpe;
        [by apply elem_of_nil in Hin|]. simpl.
      destruct (bool_decide _) eqn:Hb; simpl.
      * apply bool_decide_eq_true in Hb. by rewrite Hb in Hin.
      * by apply list_elem_of_filter.
    + right. left. exists i, e. split_and!; try done. apply (cm_undecided _ _ _ Hc); [|done].
      simpl. by rewrite lookup_insert_ne.
  - right. right. exists d'. split; [|done]. apply elem_of_app. by left.
Qed.

(** Values are proposed through [next_proposal], and it did not fail. *)
Definition proposal_kept (op : replica_op) (out : output) : Prop :=
  match op, out with
  | OpNoteProposed _ _, _ => False
  | OpNextProposal, Failed _ => False
  | _, _ => True
  end.

Lemma serve_accounts op s s' out D :
  pipeline_inv s → op_fits op → serve op s = (s', out) → proposal_kept op out →
  accounts s D → accounts s' (D ++ applied [op]).
Proof.
  intros Hp Hf Hs Hk Ha. destruct op as [l| |slot l|d|slot|]; simpl in Hs; try done;
    try change (applied [_]) with (@nil (Decision.t V)); rewrite ?app_nil_r.
  - destruct (enqueue l s) as [s1 r] eqn:E.
    apply enqueue_cases in E as [[-> _]|(-> & _ & _ & ->)]; [by destruct r; simplify_eq|].
    simplify_eq. intros v. simpl. rewrite elem_of_union, elem_of_list_to_set. intros [Hv|Hv].
    + destruct (Ha v Hv) as [?|[?|?]]; [left; simpl; apply elem_of_app; by left| |].
      * right. by left.
      * right. by right.
    + left. simpl. apply elem_of_app. by right.
  - destruct (next_proposal s) as [s1 r] eqn:E.
    apply next_proposal_cases in E as [[-> _]|(sl & n & Ho & _ & Hn & _)].
    + by destruct r as [[[]|]|]; simplify_eq.
    + apply note_proposed_cases in Hn as [[_ Hr]|(Hr & _ & _ & _ & ->)].
      * destruct r as [o|]; [done|]. by simplify_eq.
      * assert (s' = with_proposed (set_pending s (drop n (pending s))) sl (take n (pending s)))
          as -> by (destruct r as [[[]|]|]; by simplify_eq).
        by apply claim_accounts.
  - destruct (apply_decision d s) as [s1 r] eqn:E.
    apply apply_pipeline in E as [[-> _]|(fresh & -> & Hc & _ & Hnone)]; try done.
    + assert (s' = s) as -> by (destruct r; by simplify_eq).
      eapply accounts_mono; [|done]. set_solver.
    + simplify_eq. by eapply decide_accounts.
  - simplify_eq. intros v Hv. simpl in Hv.
    destruct (Ha v Hv) as [?|[(i & e & He & Hin & Hde)|?]]; [by left| |by right; right].
    right. left. exists i, e. split_and!; try done. simpl. apply map_lookup_filter_Some.
    split; [done|]. simpl. destruct (LogSlot.committed e) eqn:Hce; [|by right; right].
    left. destruct (pi_committed _ Hp _ _ He Hce) as [?|[x Hx]]; [done|congruence].
  - rewrite restore_replica in Hs by apply Hp. by simplify_eq.
Qed.

Lemma applied_cons op ops : applied (op :: ops) = applied [op] ++ applied ops.
Proof. unfold applied. simpl. by destruct op. Qed.

Lemma serve_all_accounts ops s s' outs D :
  pipeline_inv s → Forall op_fits ops → serve_all ops s = (s', outs) →
  Forall2 proposal_kept ops outs → accounts s D → accounts s' (D ++ applied ops).
Proof.
  revert s outs D. induction ops as [|op ops IH]; intros s outs D Hp; cbn [serve_all].
  { intros _ [= <- <-] _. by rewrite app_nil_r. }
  intros [Hf Hfs]%Forall_cons. destruct (serve op s) as [s1 out] eqn:E.
  destruct (serve_all ops s1) as [s2 outs2] eqn:E2. intros [= <- <-] Hk Ha.
  apply Forall2_cons in Hk as [Hk Hks]. rewrite applied_cons, app_assoc.
  apply (IH s1 outs2); try done.
  - by eapply serve_pipeline.
  - by eapply serve_accounts.
Qed.

(** No submitted value is lost: as long as [next_proposal] does not fail,
    every identifier the replica has accepted is still queued, or is in the
    proposal of an undecided slot, or was in a decision the replica was given;
    a batch that loses its slot goes back to the queue. *)
Theorem values_conserved c ops s outs v :
  config_ok c → Forall op_fits ops → serve_all ops (new c) = (s, outs) →
  Forall2 proposal_kept ops outs → v ∈ seen_value_ids s →
  accounted s (applied ops) v.
Proof.
  intros Hc Hf Hs Hk. apply (serve_all_accounts ops (new c) s outs [] (new_pipeline_inv c Hc) Hf Hs Hk).
  intros v'. simpl. set_solver.
Qed.
End pipeline.

(** ** Two ways to lose progress *)

Section replica_findings.
Import ReplicaCore.

Definition tight : ReplicaConfig.t := ReplicaConfig.mk 1 2 10 1 100.

Definition tight_claimed : t Z :=
  (serve_all [OpEnqueue [7; 8]; OpNextProposal] (new tight)).1.

(** [next_proposal] drains the queue before it knows that the log has
    room: when the log is full it fails, the drained batch is neither queued
    nor in the log, and submitting it again is silently ignored. *)
Theorem failed_proposal_loses_batch :
  pending tight_claimed = [8]
  ∧ (next_proposal tight_claimed).2 = Err (QuePaxaError.ResourceLimit "retained log slots" 1)
  ∧ let s := (next_proposal tight_claimed).1 in
    pending s = [] ∧ values (log s) ≫= entry_values = [7]
    ∧ enqueue [8] s = (s, Ok tt).
Proof. vm_compute. split_and!; reflexivity. Qed.

Definition late_decision : Decision.t Z := Decision.mk 1 [7] 1 4.

Definition after_checkpoint : t Z :=
  (serve_all [OpApply late_decision; OpPruneLog 1] (new tight)).1.

(** A decision delivered again after its slot was checkpointed revives the
    slot: the entry is never committed, no pruning removes it, and it holds
    the log's capacity, so the next slot's decision is refused for good. *)
Theorem late_decision_occupies_log :
  next_commit after_checkpoint = 2 ∧ retained_slots (log after_checkpoint) = 0
  ∧ let s := prune_through (apply_decision late_decision after_checkpoint).1 1 in
    (apply_decision late_decision after_checkpoint).2 = Ok []
    ∧ retained_slots (log s) = 1
    ∧ (apply_decision (Decision.mk 2 [9] 1 4) s).2
      = Err (QuePaxaError.ResourceLimit "retained log slots" 1).
Proof. vm_compute. split_and!; reflexivity. Qed.
End replica_findings.

(** ** The properties on a concrete run *)

Section example.
Import ReplicaCore.

Definition roomy : ReplicaConfig.t := ReplicaConfig.mk 2 2 10 10 100.

(** Two batches are claimed; slot 2 is decided first, slot 1 goes to another
    proposer, so its batch is queued and claimed again. *)
Definition ex_ops : list (replica_op (V:=Z)) :=
  [OpEnqueue [7; 8; 9]; OpNextProposal; OpNextProposal; OpApply (Decision.mk 2 [9] 1 4);
   OpApply (Decision.mk 1 [50; 7] 2 6); OpRestart; OpPruneLog 1; OpNextProposal].

Definition ex_outs : list (output (V:=Z)) :=
  [Quiet; Claimed 1 [7; 8]; Claimed 2 [9]; Delivered [];
   Delivered [Decision.mk 1 [50; 7] 2 6; Decision.mk 2 [9] 1 4]; Quiet; Quiet; Claimed 3 [8]].

Definition ex_final : t Z := (serve_all ex_ops (new roomy)).1.

Lemma ex_roomy : config_ok roomy.
Proof. unfold config_ok. simpl. lia. Qed.

Lemma ex_ops_fit : Forall op_fits ex_ops.
Proof. repeat constructor. Qed.

Lemma ex_serve : serve_all ex_ops (new roomy) = (ex_final, ex_outs).
Proof. vm_compute. reflexivity. Qed.

Lemma commits_in_order_witness : Decision.slot <$> delivered ex_outs = seqZ 1 2.
Proof. apply (commits_in_order roomy ex_ops ex_final ex_outs ex_roomy ex_ops_fit ex_serve). Defined.

Lemma replica_restarts_witness :
  restore (config ex_final) (snapshot ex_final) = Ok ex_final ∧ next_commit ex_final = 3.
Proof.
  split; [|vm_compute; reflexivity]. apply (replica_restarts roomy ex_ops ex_roomy ex_ops_fit).
Defined.

Lemma slots_claimed_once_witness : NoDup [1; 2; 3].
Proof.
  change [1; 2; 3] with (claims ex_outs).
  apply (slots_claimed_once roomy ex_ops ex_final ex_outs ex_roomy ex_ops_fit ex_serve).
Defined.

Lemma values_conserved_witness : accounted ex_final (applied ex_ops) 8.
Proof.
  apply (values_conserved roomy ex_ops ex_final ex_outs 8 ex_roomy ex_ops_fit ex_serve).
  - repeat constructor.
  - apply (bool_decide_unpack _). vm_compute. exact I.
Defined.
End example.
