(* ===== verification/Policy.v ===== *)
(** * Leader policies (src/policy.rs)

  A policy orders the replicas of a slot: the first is the round-one leader,
  the others hedge after increasing delays. Durations are numbers of
  nanoseconds; [None] stands for the panic of a duration that overflows. *)
From S2P Require Import Prelude Errors Types Membership.

Module Duration.
(** [u64::MAX] seconds and 999_999_999 nanoseconds. *)
Definition MAX : Z := U64.MAX * 1000000000 + 999999999.
Definition from_secs (s : Z) : Z := s * 1000000000.
(** [Duration * u32]. *)
Definition checked_mul (d n : Z) : option Z := if d * n <=? MAX then Some (d * n) else None.
End Duration.

(** ** Replica lists *)

(** The first replica that occurs more than once. *)
Definition find_duplicate (replicas : list ReplicaId) : option ReplicaId :=
  List.find (λ replica, 1 <? len (filter (λ candidate, candidate = replica) replicas)) replicas.

Definition validate_replicas (replicas : list ReplicaId) : Result unit :=
  reject is_empty replicas with QuePaxaError.EmptyCluster ;;
  reject negb (Z.of_nat (size (list_to_set replicas : gset Z)) =? len replicas)
    with QuePaxaError.DuplicateReplica (default 0 (find_duplicate replicas)) ;;
  Ok tt.

(** [replicas[offset..]] then [replicas[..offset]]. *)
Definition rotated (replicas : list ReplicaId) (offset : Z) : list ReplicaId :=
  drop (Z.to_nat offset) replicas ++ take (Z.to_nat offset) replicas.

(** [iter().position(|candidate| *candidate == replica)]. *)
Fixpoint position (replica : ReplicaId) (replicas : list ReplicaId) : option Z :=
  match replicas with
  | [] => None
  | candidate :: replicas =>
      if candidate =? replica then Some 0 else Z.succ <$> position replica replicas
  end.

(** [remove(position)] then [insert(0, _)]. *)
Definition move_to_front (replica : ReplicaId) (replicas : list ReplicaId) : list ReplicaId :=
  match position replica replicas with
  | Some i => replica :: delete (Z.to_nat i) replicas
  | None => replicas
  end.

(** ** The interface *)

Class HedgingPolicy (P : Type) : Type := {
  leader_sequence : P → SlotIndex → list ReplicaId → option ReplicaId → Result (list ReplicaId);
  delay_for : P → ReplicaId → list ReplicaId → Z → option (Result Z);
}.

(** Whatever the policy, a sequence it returns orders exactly the replicas it
    was given. *)
Class HedgingPolicyLaws (P : Type) `{!HedgingPolicy P} : Prop :=
  leader_sequence_permutes : ∀ p slot replicas previous sequence,
    leader_sequence p slot replicas previous = Ok sequence → sequence ≡ₚ replicas.

(** The default method: the position, as a [u32], times the base delay. *)
Definition position_delay (replica : ReplicaId) (sequence : list ReplicaId) (base_delay : Z)
    : option (Result Z) :=
  match position replica sequence with
  | None => Some (Err (QuePaxaError.UnknownReplica replica))
  | Some position => Ok <$> Duration.checked_mul base_delay (position mod 4294967296)
  end.

(** ** The five policies *)

Module FixedLeaderPolicy.
Inductive t : Type := mk.

Definition leader_sequence (self : t) (slot : SlotIndex) (replicas : list ReplicaId)
    (previous_winner : option ReplicaId) : Result (list ReplicaId) :=
  let? _ := validate_replicas replicas in Ok replicas.
End FixedLeaderPolicy.

#[global] Instance fixed_leader_policy : HedgingPolicy FixedLeaderPolicy.t := {|
  leader_sequence := FixedLeaderPolicy.leader_sequence;
  delay_for := λ _, position_delay;
|}.

Module RoundRobinPolicy.
Record t : Type := mk { epoch_size : Z }.

Definition new (epoch_size : Z) : t := mk (Z.max epoch_size 1).

Definition leader_sequence (self : t) (slot : SlotIndex) (replicas : list ReplicaId)
    (previous_winner : option ReplicaId) : Result (list ReplicaId) :=
  let? _ := validate_replicas replicas in
  let offset := (slot / epoch_size self) mod len replicas in
  Ok (rotated replicas offset).
End RoundRobinPolicy.

#[global] Instance round_robin_policy : HedgingPolicy RoundRobinPolicy.t := {|
  leader_sequence := RoundRobinPolicy.leader_sequence;
  delay_for := λ _, position_delay;
|}.

Module LeaderlessPolicy.
Inductive t : Type := mk.

Definition leader_sequence (self : t) (slot : SlotIndex) (replicas : list ReplicaId)
    (previous_winner : option ReplicaId) : Result (list ReplicaId) :=
  let? _ := validate_replicas replicas in Ok replicas.

Definition delay_for (self : t) (replica : ReplicaId) (sequence : list ReplicaId)
    (base_delay : Z) : option (Result Z) :=
  Some (reject negb (bool_decide (replica ∈ sequence)) with QuePaxaError.UnknownReplica replica ;;
        Ok 0).
End LeaderlessPolicy.

#[global] Instance leaderless_policy : HedgingPolicy LeaderlessPolicy.t := {|
  leader_sequence := LeaderlessPolicy.leader_sequence;
  delay_for := LeaderlessPolicy.delay_for;
|}.

Module LastWinnerPolicy.
Inductive t : Type := mk.

Definition leader_sequence (self : t) (slot : SlotIndex) (replicas : list ReplicaId)
    (previous_winner : option ReplicaId) : Result (list ReplicaId) :=
  let? _ := validate_replicas replicas in
  match previous_winner with
  | None => Ok replicas
  | Some winner =>
      let? offset := ok_or (position winner replicas) (QuePaxaError.UnknownReplica winner) in
      Ok (rotated replicas offset)
  end.
End LastWinnerPolicy.

#[global] Instance last_winner_policy : HedgingPolicy LastWinnerPolicy.t := {|
  leader_sequence := LastWinnerPolicy.leader_sequence;
  delay_for := λ _, position_delay;
|}.

Module AdaptivePolicy.
Record t : Type := mk {
  epoch_size : Z;
  samples : gmap Z (list Z);
  sample_window : Z;
  reexplore_every_epochs : Z;
}.

Definition new (epoch_size : Z) : t := mk (Z.max epoch_size 1) ∅ 16 32.

Definition with_sample_window (self : t) (epochs_per_leader : Z) : t :=
  mk (epoch_size self) (samples self) (Z.max epochs_per_leader 1) (reexplore_every_epochs self).

Definition with_reexploration_interval (self : t) (epochs : Z) : t :=
  mk (epoch_size self) (samples self) (sample_window self) (Z.max epochs 1).

(** [push_back], then [pop_front] while the window is exceeded. *)
Definition push_window (window : Z) (samples : list Z) (sample : Z) : list Z :=
  let samples := samples ++ [sample] in
  drop (Z.to_nat (len samples - window)) samples.

Definition record_epoch (self : t) (leader : ReplicaId) (duration : Z) : t :=
  mk (epoch_size self)
     (<[leader := push_window (sample_window self) (default [] (samples self !! leader)) duration]>
        (samples self))
     (sample_window self) (reexplore_every_epochs self).

(** A [u128] sum of nanoseconds, divided and truncated to [u64] nanoseconds. *)
Definition average_duration (self : t) (replica : ReplicaId) : option Z :=
  samples ← samples self !! replica;
  Some ((foldr Z.add 0 samples / len samples) mod U64.modulus).

(** [Duration::from_secs(u64::MAX / 2)] for a replica without samples. *)
Definition fitness (self : t) (replica : ReplicaId) : Z :=
  default (Duration.from_secs (U64.MAX / 2)) (average_duration self replica).

Definition fitter (self : t) (left right : ReplicaId) : Prop :=
  fitness self left < fitness self right
  ∨ (fitness self left = fitness self right ∧ left ≤ right).

#[global] Instance fitter_dec self left right : Decision (fitter self left right).
Proof. unfold fitter. apply _. Defined.

Definition leader_sequence (self : t) (slot : SlotIndex) (replicas : list ReplicaId)
    (previous_winner : option ReplicaId) : Result (list ReplicaId) :=
  let? _ := validate_replicas replicas in
  let epoch := slot / epoch_size self in
  let warmup_epochs := 2 * len replicas + 1 in
  if epoch <? warmup_epochs then Ok (rotated replicas (epoch mod len replicas))
  else
  let ranked := merge_sort (fitter self) replicas in
  let exploitation_epoch := epoch - warmup_epochs in
  if (0 <? exploitation_epoch) && (exploitation_epoch mod reexplore_every_epochs self =? 0) then
    let candidate := (exploitation_epoch / reexplore_every_epochs self) mod len replicas in
    match replicas !! Z.to_nat candidate with
    | Some replica => Ok (move_to_front replica ranked)
    | None => Ok ranked
    end
  else Ok ranked.
End AdaptivePolicy.

#[global] Instance adaptive_policy : HedgingPolicy AdaptivePolicy.t := {|
  leader_sequence := AdaptivePolicy.leader_sequence;
  delay_for := λ _, position_delay;
|}.

(** ** Lemmas *)

Lemma NoDup_size (l : list Z) : size (list_to_set l : gset Z) = length l ↔ NoDup l.
Proof.
  split; [|apply size_list_to_set].
  induction l as [|x l IH]; [constructor|]. simpl. intros Hs.
  pose proof (size_union_alt ({[x]} : gset Z) (list_to_set l)) as Hu.
  pose proof (subseteq_size (list_to_set l ∖ {[x]}) (list_to_set l : gset Z) ltac:(set_solver)).
  assert (size ({[x]} : gset Z) = 1%nat) by apply size_singleton.
  assert (size (list_to_set l : gset Z) ≤ length l)%nat as Hle.
  { clear. induction l as [|y l IH]; [done|]. simpl.
    pose proof (size_union_alt ({[y]} : gset Z) (list_to_set l)).
    pose proof (subseteq_size (list_to_set l ∖ {[y]}) (list_to_set l : gset Z) ltac:(set_solver)).
    assert (size ({[y]} : gset Z) = 1%nat) by apply size_singleton. lia. }
  constructor; [|apply IH; lia]. intros Hx.
  assert (size (list_to_set l ∖ {[x]} : gset Z) < size (list_to_set l : gset Z))%nat; [|lia].
  apply subset_size. split; [set_solver|]. intros Hsub. specialize (Hsub x).
  rewrite elem_of_list_to_set in Hsub. set_solver.
Qed.

Lemma validate_replicas_Ok replicas :
  validate_replicas replicas = Ok tt ↔ replicas ≠ [] ∧ NoDup replicas.
Proof.
  unfold validate_replicas. rewrite <-NoDup_size. unfold len.
  destruct (is_empty replicas) eqn:He.
  { apply is_empty_spec in He. naive_solver. }
  apply is_empty_false in He.
  destruct (Z.eqb_spec (Z.of_nat (size (list_to_set replicas : gset Z)))
              (Z.of_nat (length replicas))); simpl; split; try done; naive_solver lia.
Qed.

Lemma rotated_perm replicas offset : rotated replicas offset ≡ₚ replicas.
Proof. unfold rotated. by rewrite (comm (++)), take_drop. Qed.

Lemma position_Some replica replicas i :
  position replica replicas = Some i → 0 ≤ i ∧ replicas !! Z.to_nat i = Some replica.
Proof.
  revert i. induction replicas as [|c l IH]; intros i; simpl; [done|].
  destruct (Z.eqb_spec c replica) as [->|]; [by intros [= <-]|].
  destruct (position replica l) as [j|]; [|done]. intros [= <-].
  destruct (IH j eq_refl) as [Hj Hl]. split; [lia|]. by rewrite Z2Nat.inj_succ.
Qed.

Lemma position_elem replica replicas : replica ∈ replicas → is_Some (position replica replicas).
Proof.
  induction replicas as [|c l IH]; [by intros ?%elem_of_nil|]. simpl.
  destruct (Z.eqb_spec c replica) as [->|Hne]; [by eexists|].
  intros [->|Hin]%elem_of_cons; [done|]. apply IH in Hin as [i ->]. by eexists.
Qed.

Lemma move_to_front_perm replica replicas : move_to_front replica replicas ≡ₚ replicas.
Proof.
  unfold move_to_front. destruct (position replica replicas) as [i|] eqn:E; [|done].
  apply position_Some in E as [_ Hl]. symmetry. by apply delete_Permutation.
Qed.

Lemma rotated_head replicas offset :
  0 ≤ offset < len replicas → head (rotated replicas offset) = replicas !! Z.to_nat offset.
Proof.
  intros Ho. unfold rotated, len in *.
  destruct (drop (Z.to_nat offset) replicas) as [|x l] eqn:E.
  - apply (f_equal length) in E. rewrite length_drop in E. simpl in E. lia.
  - simpl. rewrite <-(Nat.add_0_r (Z.to_nat offset)), <-lookup_drop, E. done.
Qed.

#[global] Instance fixed_leader_laws : HedgingPolicyLaws FixedLeaderPolicy.t.
Proof.
  intros p slot reps prev seq. simpl. unfold FixedLeaderPolicy.leader_sequence.
  destruct (validate_replicas reps); [|done]. by intros [= <-].
Qed.

#[global] Instance round_robin_laws : HedgingPolicyLaws RoundRobinPolicy.t.
Proof.
  intros p slot reps prev seq. simpl. unfold RoundRobinPolicy.leader_sequence.
  destruct (validate_replicas reps); [|done]. intros [= <-]. apply rotated_perm.
Qed.

#[global] Instance leaderless_laws : HedgingPolicyLaws LeaderlessPolicy.t.
Proof.
  intros p slot reps prev seq. simpl. unfold LeaderlessPolicy.leader_sequence.
  destruct (validate_replicas reps); [|done]. by intros [= <-].
Qed.

#[global] Instance last_winner_laws : HedgingPolicyLaws LastWinnerPolicy.t.
Proof.
  intros p slot reps prev seq. simpl. unfold LastWinnerPolicy.leader_sequence.
  destruct (validate_replicas reps); [|done]. destruct prev as [w|]; [|by intros [= <-]].
  destruct (position w reps); [|done]. intros [= <-]. apply rotated_perm.
Qed.

#[global] Instance adaptive_laws : HedgingPolicyLaws AdaptivePolicy.t.
Proof.
  intros p slot reps prev seq. simpl. unfold AdaptivePolicy.leader_sequence.
  destruct (validate_replicas reps); [|done].
  destruct (_ <? _); [intros [= <-]; apply rotated_perm|].
  destruct (_ && _); [destruct (reps !! _)|]; intros [= <-];
    rewrite ?move_to_front_perm; apply merge_sort_Permutation.
Qed.

(** ** Properties *)

(** Round robin is fair: in any window of as many epochs as there are
    replicas, each replica is the leader of exactly one epoch, for every slot
    of that epoch. *)
Theorem round_robin_fair size replicas e0 r previous :
  0 ≤ e0 → replicas ≠ [] → NoDup replicas → r ∈ replicas →
  ∃ e, e0 ≤ e < e0 + len replicas
    ∧ (∀ slot, slot / Z.max size 1 = e →
         ∃ rest, leader_sequence (RoundRobinPolicy.new size) slot replicas previous
                 = Ok (r :: rest))
    ∧ ∀ e' slot rest, e0 ≤ e' < e0 + len replicas → slot / Z.max size 1 = e' →
        leader_sequence (RoundRobinPolicy.new size) slot replicas previous = Ok (r :: rest) →
        e' = e.
Proof.
  intros He0 Hne Hnd Hr. simpl. unfold RoundRobinPolicy.leader_sequence.
  rewrite (proj2 (validate_replicas_Ok replicas)) by done. simpl.
  set (n := len replicas). assert (0 < n) as Hn.
  { unfold n, len. destruct replicas; [done|]. simpl. lia. }
  assert (∀ e, ∃ x rest, rotated replicas (e mod n) = x :: rest
            ∧ replicas !! Z.to_nat (e mod n) = Some x) as Hhd.
  { intros e. pose proof (Z.mod_pos_bound e n Hn).
    pose proof (rotated_head replicas (e mod n) ltac:(done)) as Hh.
    destruct (rotated replicas (e mod n)) as [|x rest].
    - simpl in Hh. symmetry in Hh. apply lookup_ge_None in Hh. unfold n, len in *. lia.
    - by exists x, rest. }
  apply list_elem_of_lookup in Hr as [i Hi].
  pose proof (lookup_lt_Some _ _ _ Hi) as Hlt.
  assert (0 ≤ Z.of_nat i < n) as Hin by (unfold n, len; lia).
  exists (e0 + (Z.of_nat i - e0) mod n). set (e := e0 + _).
  pose proof (Z.mod_pos_bound (Z.of_nat i - e0) n Hn).
  assert (e mod n = Z.of_nat i) as Hem.
  { unfold e. rewrite Z.add_mod_idemp_r by lia.
    replace (e0 + (Z.of_nat i - e0)) with (Z.of_nat i) by lia. by apply Z.mod_small. }
  split_and!; [unfold e; lia|unfold e; lia| |].
  - intros slot ->. destruct (Hhd e) as (x & rest & -> & Hx).
    rewrite Hem, Nat2Z.id, Hi in Hx. injection Hx as <-. by exists rest.
  - intros e' slot rest He' -> Heq. destruct (Hhd e') as (x & rest' & Hrot & Hx).
    rewrite Hrot in Heq. injection Heq as -> _.
    pose proof (Z.mod_pos_bound e' n Hn).
    pose proof (NoDup_lookup _ _ _ _ Hnd Hi Hx) as Hii.
    assert (e' mod n = e mod n) as Hmod by lia.
    assert ((e' - e) mod n = 0) as Hz by (rewrite Zminus_mod, Hmod, Z.sub_diag; by apply Z.mod_0_l; lia).
    apply Z.mod_divide in Hz as [k Hk]; [|lia].
    assert (- n < e' - e < n) by (unfold e in *; lia).
    assert (k = 0) by nia. lia.
Qed.

#[global] Instance fitter_trans self : Transitive (AdaptivePolicy.fitter self).
Proof. intros x y z. unfold AdaptivePolicy.fitter. lia. Qed.

#[global] Instance fitter_total self : Total (AdaptivePolicy.fitter self).
Proof. intros x y. unfold AdaptivePolicy.fitter. lia. Qed.

(** After the warm-up the adaptive policy exploits what it measured: except
    in the periodic re-exploration epochs, the sequence is sorted by average
    epoch duration, so the leader is a replica with the best average, and a
    replica without samples never precedes a sampled one. *)
Theorem adaptive_exploits_best (p : AdaptivePolicy.t) slot replicas previous sequence :
  let epoch := slot / AdaptivePolicy.epoch_size p in
  let exploitation := epoch - (2 * len replicas + 1) in
  leader_sequence p slot replicas previous = Ok sequence →
  0 ≤ exploitation →
  exploitation = 0 ∨ exploitation mod AdaptivePolicy.reexplore_every_epochs p ≠ 0 →
  StronglySorted (AdaptivePolicy.fitter p) sequence
  ∧ ∀ l r, AdaptivePolicy.average_duration p l = None →
      (∃ d, AdaptivePolicy.average_duration p r = Some d) → ¬ AdaptivePolicy.fitter p l r.
Proof.
  intros epoch exploitation Hseq Hge Hex. split.
  - revert Hseq. simpl. unfold AdaptivePolicy.leader_sequence.
    destruct (validate_replicas replicas); [|done]. fold epoch.
    destruct (Z.ltb_spec epoch (2 * len replicas + 1)); [lia|]. fold exploitation.
    destruct (Z.ltb_spec 0 exploitation); simpl.
    + destruct (Z.eqb_spec (exploitation mod AdaptivePolicy.reexplore_every_epochs p) 0); [lia|].
      intros [= <-]. apply StronglySorted_merge_sort; apply _.
    + intros [= <-]. apply StronglySorted_merge_sort; apply _.
  - intros l r Hl [d Hd]. unfold AdaptivePolicy.fitter, AdaptivePolicy.fitness.
    rewrite Hl, Hd. simpl. unfold AdaptivePolicy.average_duration in Hd.
    destruct (AdaptivePolicy.samples p !! r) as [ss|]; [|done]. injection Hd as <-.
    pose proof (Z.mod_pos_bound (foldr Z.add 0 ss / len ss) U64.modulus ltac:(done)) as Hb.
    set (x := (foldr Z.add 0 ss / len ss) mod U64.modulus) in *. clearbody x.
    assert (U64.modulus < Duration.from_secs (U64.MAX / 2)) by (vm_compute; reflexivity). lia.
Qed.

Definition policy_samples : AdaptivePolicy.t :=
  AdaptivePolicy.record_epoch (AdaptivePolicy.record_epoch (AdaptivePolicy.new 2) 1 30) 2 10.

Lemma round_robin_fair_witness :
  ∃ e, 5 ≤ e < 8
    ∧ ∃ rest, leader_sequence (RoundRobinPolicy.new 4) (4 * e) [1; 2; 3] None = Ok (2 :: rest).
Proof.
  destruct (round_robin_fair 4 [1; 2; 3] 5 2 None) as (e & He & Hlead & _).
  - lia.
  - discriminate.
  - apply (bool_decide_unpack _). vm_compute. exact I.
  - right. left.
  - exists e. split; [exact He|]. apply Hlead. rewrite Z.mul_comm. by apply Z.div_mul.
Defined.

Lemma adaptive_exploits_best_witness :
  leader_sequence policy_samples 16 [1; 2; 3] None = Ok [2; 1; 3]
  ∧ StronglySorted (AdaptivePolicy.fitter policy_samples) [2; 1; 3].
Proof.
  split; [vm_compute; reflexivity|].
  apply (adaptive_exploits_best policy_samples 16 [1; 2; 3] None [2; 1; 3]).
  - vm_compute. reflexivity.
  - vm_compute. discriminate.
  - right. vm_compute. discriminate.
Defined.
