(* ===== verification/Schedule.v ===== *)
(** * Epoch schedules and tuning (src/runtime/schedule.rs)

  The configuration of a runtime, the local hedging delay, the epoch schedules
  and the statistics from which an auto-scheduled runtime ranks its leaders.
  The theorems: a schedule orders exactly the members; the hedging delay is the
  configured percentile, within its bounds; the ranking is a function of the
  statistics up to two epochs back. Two examples show where replicas with the
  same committed log nevertheless derive different leaders. *)
From S2P Require Import Prelude Errors Types Membership Replica Policy.

Module ProtocolIdentity.
Record t : Type := mk { epoch_size : Z; auto_schedules : bool }.

#[global] Instance eq_dec : EqDecision t.
Proof. solve_decision. Defined.
End ProtocolIdentity.

(** ** The hedging delay *)

Module AdaptiveHedgingConfig.
Record t : Type := mk {
  min_delay : Z;
  max_delay : Z;
  sample_window : Z;
  percentile : Z;
}.

Definition new (min_delay max_delay : Z) : Result t :=
  reject max_delay <? min_delay
    with QuePaxaError.PolicyError "adaptive hedge minimum exceeds its maximum" ;;
  Ok (mk min_delay max_delay 64 90).

Definition with_window (self : t) (sample_window : Z) : Result t :=
  reject sample_window =? 0
    with QuePaxaError.PolicyError "adaptive hedge sample window must be non-zero" ;;
  Ok (mk (min_delay self) (max_delay self) sample_window (percentile self)).

Definition with_percentile (self : t) (percentile : Z) : Result t :=
  reject negb ((1 <=? percentile) && (percentile <=? 100))
    with QuePaxaError.PolicyError "adaptive hedge percentile must be between 1 and 100" ;;
  Ok (mk (min_delay self) (max_delay self) (sample_window self) percentile).

(** What the constructors establish. *)
Definition valid (self : t) : Prop :=
  min_delay self ≤ max_delay self ∧ 1 ≤ sample_window self ∧ 1 ≤ percentile self ≤ 100.
End AdaptiveHedgingConfig.

Module HedgeDelayTuner.
Record t : Type := mk {
  current : Z;
  config : option AdaptiveHedgingConfig.t;
  samples : list Z;
}.

(** [Ord::clamp]. *)
Definition clamp (x lo hi : Z) : Z := if x <? lo then lo else if hi <? x then hi else x.

Definition new (base_delay : Z) (config : option AdaptiveHedgingConfig.t) : t :=
  mk match config with
     | None => base_delay
     | Some adaptive => clamp base_delay (AdaptiveHedgingConfig.min_delay adaptive)
                              (AdaptiveHedgingConfig.max_delay adaptive)
     end config [].

(** [(len * percentile).div_ceil(100).saturating_sub(1).min(len - 1)]. *)
Definition rank (n percentile : Z) : Z :=
  Z.min (U64.saturating_sub ((n * percentile + 99) / 100) 1) (n - 1).

Definition observe (self : t) (elapsed : Z) : t :=
  match config self with
  | None => self
  | Some config =>
      let samples := AdaptivePolicy.push_window (AdaptiveHedgingConfig.sample_window config)
                                                (samples self) elapsed in
      let ordered := merge_sort Z.le samples in
      let index := rank (len ordered) (AdaptiveHedgingConfig.percentile config) in
      mk (clamp (nth (Z.to_nat index) ordered 0) (AdaptiveHedgingConfig.min_delay config)
                (AdaptiveHedgingConfig.max_delay config))
         (Some config) samples
  end.
End HedgeDelayTuner.

(** ** The runtime configuration *)

Module ReplicaRuntimeConfig.
Record t : Type := mk {
  replica_id : ReplicaId;
  lane_id : LaneId;
  cluster : ClusterIdentity.t;
  replica : ReplicaConfig.t;
  epoch_size : Z;
  base_hedge_delay : Z;
  transport_timeout : Z;
  auto_schedules : bool;
  adaptive_hedging : option AdaptiveHedgingConfig.t;
}.

Definition new (replica_id : ReplicaId) (lane_id : LaneId) (members : list ReplicaId)
    (max_faults : Z) (replica : ReplicaConfig.t) (epoch_size base_hedge_delay : Z) : Result t :=
  let? cluster := ClusterIdentity.new members max_faults in
  reject negb (ClusterIdentity.contains cluster replica_id)
    with QuePaxaError.UnknownReplica replica_id ;;
  reject (epoch_size =? 0) || (ReplicaConfig.batch_size replica =? 0)
         || (ReplicaConfig.pipeline_len replica =? 0)
         || (ReplicaConfig.max_pending_values replica =? 0)
         || (ReplicaConfig.max_log_slots replica =? 0)
         || (ReplicaConfig.max_tracked_value_ids replica =? 0)
    with QuePaxaError.InvalidProposal "runtime limits and epoch size must be non-zero" ;;
  Ok (mk replica_id lane_id cluster replica epoch_size base_hedge_delay
         (Duration.from_secs 30) false None).

Definition with_auto_schedules (self : t) : Result t :=
  reject epoch_size self <? ReplicaConfig.pipeline_len (replica self)
    with QuePaxaError.PolicyError
           "auto schedules require epoch_size >= pipeline_len so ranking inputs are final" ;;
  Ok (mk (replica_id self) (lane_id self) (cluster self) (replica self) (epoch_size self)
         (base_hedge_delay self) (transport_timeout self) true (adaptive_hedging self)).

Definition with_transport_timeout (self : t) (timeout : Z) : t :=
  mk (replica_id self) (lane_id self) (cluster self) (replica self) (epoch_size self)
     (base_hedge_delay self) (Z.max timeout 1000000) (auto_schedules self)
     (adaptive_hedging self).

Definition with_adaptive_hedging (self : t) (config : AdaptiveHedgingConfig.t) : t :=
  mk (replica_id self) (lane_id self) (cluster self) (replica self) (epoch_size self)
     (base_hedge_delay self) (transport_timeout self) (auto_schedules self) (Some config).

Definition members (self : t) : list ReplicaId := ClusterIdentity.members (cluster self).
Definition quorum_size (self : t) : Z := ClusterIdentity.quorum_size (cluster self).

Definition install_cluster (self : t) (cluster : ClusterIdentity.t) : t :=
  mk (replica_id self) (lane_id self) cluster (replica self) (epoch_size self)
     (base_hedge_delay self) (transport_timeout self) (auto_schedules self)
     (adaptive_hedging self).

Definition protocol_identity (self : t) : ProtocolIdentity.t :=
  ProtocolIdentity.mk (epoch_size self) (auto_schedules self).

Definition epoch_for (self : t) (slot : SlotIndex) : Z := slot / epoch_size self.
End ReplicaRuntimeConfig.

(** ** Schedules *)

Module EpochSchedule.
Record t : Type := mk { epoch : Z; proposers : list ReplicaId }.

#[global] Instance eq_dec : EqDecision t.
Proof. solve_decision. Defined.

Definition new (epoch : Z) (proposers : list ReplicaId) : Result t :=
  reject is_empty proposers with QuePaxaError.EmptyCluster ;;
  reject negb (Z.of_nat (size (list_to_set proposers : gset Z)) =? len proposers)
    with QuePaxaError.DuplicateReplica (default 0 (find_duplicate proposers)) ;;
  Ok (mk epoch proposers).

Definition from_policy {P} `{!HedgingPolicy P} (config : ReplicaRuntimeConfig.t) (epoch : Z)
    (policy : P) (previous_winner : option ReplicaId) : Result t :=
  let? first_slot := ok_or (U64.checked_mul epoch (ReplicaRuntimeConfig.epoch_size config))
                           QuePaxaError.SlotOverflow in
  let? sequence := leader_sequence policy first_slot (ReplicaRuntimeConfig.members config)
                                   previous_winner in
  new epoch sequence.

(** [proposers[0]]: the constructor rejects an empty order. *)
Definition leader (self : t) : ReplicaId := nth 0 (proposers self) 0.
End EpochSchedule.

Module EpochStat.
Record t : Type := mk {
  leader : ReplicaId;
  slots : Z;
  decided_step_total : Z;
}.
End EpochStat.

Definition RETAINED_STAT_EPOCHS : Z := 64.
Definition AUTO_REEXPLORE_EPOCHS : Z := 32.

(** The order of two averages by cross multiplication; a replica without
    samples is worse than any other. *)
Definition compare_leader_fitness (left right : option (Z * Z)) : comparison :=
  match left, right with
  | Some (slots_a, total_a), Some (slots_b, total_b) => total_a * slots_b ?= total_b * slots_a
  | Some _, None => Lt
  | None, Some _ => Gt
  | None, None => Eq
  end.

Module EpochTuner.
Record t : Type := mk {
  epoch_size : Z;
  members : list ReplicaId;
  auto : bool;
  schedules : gmap Z EpochSchedule.t;
  stats : gmap Z EpochStat.t;
  stats_through : SlotIndex;
}.

Definition new (epoch_size : Z) (members : list ReplicaId) (auto : bool) : t :=
  mk (Z.max epoch_size 1) members auto ∅ ∅ SlotIdx.GENESIS.

Definition restore (epoch_size : Z) (members : list ReplicaId) (auto : bool)
    (schedules : gmap Z EpochSchedule.t) (stats : gmap Z EpochStat.t)
    (stats_through : SlotIndex) : Result t :=
  let tuner := new epoch_size members auto in
  let? _ := try_each (λ '(epoch, stat),
    reject negb (bool_decide (EpochStat.leader stat ∈ members))
           || (EpochStat.slots stat =? 0)
           || (stats_through / EpochTuner.epoch_size tuner <? epoch)
      with QuePaxaError.PolicyError
             "restored epoch statistics are inconsistent with the committed log" ;;
    Ok tt) (entries stats) in
  let? _ := try_each (λ '(epoch, schedule),
    reject negb (epoch =? EpochSchedule.epoch schedule)
      with QuePaxaError.PolicyError "restored epoch schedule key does not match its epoch" ;;
    Ok tt) (entries schedules) in
  Ok (mk (EpochTuner.epoch_size tuner) members auto schedules stats stats_through).

Definition reconfigure (self : t) (members : list ReplicaId) (committed_through : SlotIndex) : t :=
  mk (epoch_size self) members (auto self) ∅ ∅ committed_through.

Definition set_schedules (self : t) schedules : t :=
  mk (epoch_size self) (members self) (auto self) schedules (stats self) (stats_through self).

Definition install (schedule : EpochSchedule.t) : M t QuePaxaError.t bool :=
  let* self := reads (λ self, self) in
  reject* auto self
    with QuePaxaError.PolicyError
           "auto-scheduled runtimes derive schedules from the committed log" ;;
  match schedules self !! EpochSchedule.epoch schedule with
  | Some existing =>
      reject* negb (bool_decide (existing = schedule))
        with QuePaxaError.PolicyError
               ("epoch " +:+ pretty (EpochSchedule.epoch schedule)
                +:+ " already has a different agreed schedule") ;;
      ret false
  | None =>
      let* _ := modify (λ self,
        set_schedules self (<[EpochSchedule.epoch schedule := schedule]> (schedules self))) in
      ret true
  end.

(** Slots and steps per leader over the epochs up to [window_end]. *)
Definition leader_totals (self : t) (window_end : Z) : gmap Z (Z * Z) :=
  fold_left (λ totals '(epoch, stat),
    if epoch <=? window_end then
      let '(slots, steps) := default (0, 0) (totals !! EpochStat.leader stat) in
      <[EpochStat.leader stat := (slots + EpochStat.slots stat,
                                  steps + EpochStat.decided_step_total stat)]> totals
    else totals) (entries (stats self)) ∅.

(** [compare_leader_fitness(..).then(left.cmp(right))] is not [Greater]. *)
Definition ranks_before (totals : gmap Z (Z * Z)) (left right : ReplicaId) : Prop :=
  match compare_leader_fitness (totals !! left) (totals !! right) with
  | Lt => True
  | Eq => left ≤ right
  | Gt => False
  end.

#[global] Instance ranks_before_dec totals left right : Decision (ranks_before totals left right).
Proof. unfold ranks_before. destruct (compare_leader_fitness _ _); apply _. Defined.

Definition derive (self : t) (epoch : Z) : Result EpochSchedule.t :=
  let replica_count := len (members self) in
  let warmup_epochs := 2 * replica_count + 1 in
  if epoch <? warmup_epochs then
    EpochSchedule.new epoch (rotated (members self) (epoch mod replica_count))
  else
  let window_end := epoch - 2 in
  let? required :=
    ok_or ((λ start, U64.saturating_sub start 1) <$>
             (U64.checked_add window_end 1 ≫= λ next, U64.checked_mul next (epoch_size self)))
          QuePaxaError.SlotOverflow in
  reject stats_through self <? required
    with QuePaxaError.PolicyError
           ("epoch " +:+ pretty epoch +:+ " schedule requires committed history through slot "
            +:+ pretty required) ;;
  let totals := leader_totals self window_end in
  let ranked := merge_sort (ranks_before totals) (members self) in
  let exploitation_epoch := epoch - warmup_epochs in
  let ranked :=
    if (0 <? exploitation_epoch) && (exploitation_epoch mod AUTO_REEXPLORE_EPOCHS =? 0) then
      match members self !!
              Z.to_nat ((exploitation_epoch / AUTO_REEXPLORE_EPOCHS) mod replica_count) with
      | Some candidate => move_to_front candidate ranked
      | None => ranked
      end
    else ranked in
  EpochSchedule.new epoch ranked.

Definition ensure_schedule (epoch : Z) : M t QuePaxaError.t EpochSchedule.t :=
  let* self := reads (λ self, self) in
  match schedules self !! epoch with
  | Some schedule => ret schedule
  | None =>
      reject* negb (auto self)
        with QuePaxaError.PolicyError
               ("no agreed schedule is installed for epoch " +:+ pretty epoch) ;;
      let* schedule := lift (derive self epoch) in
      let* _ := modify (λ self, set_schedules self (<[epoch := schedule]> (schedules self))) in
      ret schedule
  end.

(** The statistics of one more slot of an epoch. *)
Definition add_slot (stat : EpochStat.t) (decided_step : Z) : EpochStat.t :=
  EpochStat.mk (EpochStat.leader stat) (U64.saturating_add (EpochStat.slots stat) 1)
               (U64.saturating_add (EpochStat.decided_step_total stat) decided_step).

Definition note_committed (slot : SlotIndex) (decided_step : Z) : M t QuePaxaError.t bool :=
  let* self := reads (λ self, self) in
  if negb (auto self) || (slot <=? stats_through self) then ret false
  else
  reject* negb (bool_decide (Some slot = SlotIdx.checked_next (stats_through self)))
    with QuePaxaError.PolicyError
           "epoch statistics must be recorded in contiguous slot order" ;;
  let epoch := slot / epoch_size self in
  let* schedule := ensure_schedule epoch in
  let leader := EpochSchedule.leader schedule in
  let* _ := modify (λ self,
    let stat := default (EpochStat.mk leader 0 0) (stats self !! epoch) in
    mk (epoch_size self) (members self) (auto self) (schedules self)
       (<[epoch := add_slot stat decided_step]> (stats self)) slot) in
  let* _ := modify (λ self,
    match U64.checked_sub epoch RETAINED_STAT_EPOCHS with
    | Some floor =>
        mk (epoch_size self) (members self) (auto self)
           (retain (λ kept, floor <=? kept) (schedules self))
           (retain (λ kept, floor <=? kept) (stats self)) (stats_through self)
    | None => self
    end) in
  ret true.
End EpochTuner.

(** ** Schedules order the members *)

Lemma epoch_schedule_new_Ok e l s :
  EpochSchedule.new e l = Ok s → s = EpochSchedule.mk e l ∧ l ≠ [] ∧ NoDup l.
Proof.
  unfold EpochSchedule.new. destruct (is_empty l) eqn:He; [done|].
  destruct (Z.eqb_spec (Z.of_nat (size (list_to_set l : gset Z))) (len l)) as [Hs|]; [|done].
  simpl. intros [= <-]. apply is_empty_false in He. split_and!; try done.
  apply NoDup_size. unfold len in Hs. lia.
Qed.

Definition orders (members : list ReplicaId) (e : Z) (s : EpochSchedule.t) : Prop :=
  EpochSchedule.epoch s = e ∧ EpochSchedule.proposers s ≡ₚ members
  ∧ NoDup (EpochSchedule.proposers s) ∧ EpochSchedule.leader s ∈ members.

Lemma new_orders e l s members :
  EpochSchedule.new e l = Ok s → l ≡ₚ members → orders members e s.
Proof.
  intros (-> & Hne & Hnd)%epoch_schedule_new_Ok Hp. split_and!; try done.
  unfold EpochSchedule.leader. simpl. destruct l as [|x l]; [done|]. rewrite <-Hp. left.
Qed.

(** Whatever policy it comes from, an epoch's schedule lists every member
    of the configuration exactly once, and its leader is a member. *)
Theorem policy_schedule_orders_members {P} `{!HedgingPolicy P, !HedgingPolicyLaws P}
    config e (policy : P) previous s :
  EpochSchedule.from_policy config e policy previous = Ok s →
  orders (ReplicaRuntimeConfig.members config) e s.
Proof.
  unfold EpochSchedule.from_policy. destruct (U64.checked_mul _ _) as [slot|]; [|done]. simpl.
  destruct (leader_sequence _ _ _ _) as [l|] eqn:Hl; [|done]. intros Hs.
  eapply new_orders; [done|]. by eapply leader_sequence_permutes.
Qed.

Lemma derive_orders t e s : EpochTuner.derive t e = Ok s → orders (EpochTuner.members t) e s.
Proof.
  unfold EpochTuner.derive. destruct (e <? _).
  { intros Hs. eapply new_orders; [done|]. apply rotated_perm. }
  destruct (ok_or _ _) as [required|]; [|done]. destruct (_ <? required); [done|].
  intros Hs. eapply new_orders; [done|].
  destruct (_ && _); [destruct (EpochTuner.members t !! _)|];
    rewrite ?move_to_front_perm; apply merge_sort_Permutation.
Qed.

(** ** The hedging delay *)

Lemma clamp_bounds x lo hi : lo ≤ hi → lo ≤ HedgeDelayTuner.clamp x lo hi ≤ hi.
Proof.
  intros. unfold HedgeDelayTuner.clamp.
  destruct (Z.ltb_spec x lo); [lia|]. destruct (Z.ltb_spec hi x); lia.
Qed.

Lemma rank_percentile n p :
  1 ≤ n → 1 ≤ p ≤ 100 →
  0 ≤ HedgeDelayTuner.rank n p < n ∧ p * n ≤ 100 * (HedgeDelayTuner.rank n p + 1).
Proof.
  intros Hn Hp. unfold HedgeDelayTuner.rank, U64.saturating_sub.
  assert (n * p + 99 = 100 * ((n * p + 99) / 100) + (n * p + 99) mod 100)
    by (apply Z.div_mod; lia).
  pose proof (Z.mod_pos_bound (n * p + 99) 100). nia.
Qed.

(** The first [i + 1] elements of a sorted list do not exceed the [i]-th. *)
Lemma sorted_count (l : list Z) i x :
  StronglySorted Z.le l → l !! i = Some x →
  Z.of_nat i + 1 ≤ len (filter (λ y, y ≤ x) l).
Proof.
  intros Hs Hi. rewrite <-(take_drop (S i) l), filter_app, len_app.
  assert (filter (λ y, y ≤ x) (take (S i) l) = take (S i) l) as ->.
  { clear -Hs Hi. revert i Hi. induction Hs as [|y l Hs IH Hy]; intros i Hi; [done|].
    destruct i as [|i].
    - simpl in Hi. injection Hi as <-. simpl. by rewrite filter_cons_True.
    - simpl in Hi. rewrite firstn_cons, filter_cons_True.
      + f_equal. by apply IH.
      + rewrite Forall_forall in Hy. by eapply Hy, list_elem_of_lookup_2. }
  pose proof (lookup_lt_Some _ _ _ Hi). pose proof (len_nonneg (filter (λ y, y ≤ x) (drop (S i) l))).
  unfold len at 1. rewrite length_take. lia.
Qed.

Lemma push_window_len w l x : 1 ≤ w → 1 ≤ len (AdaptivePolicy.push_window w l x) ≤ Z.max w 1.
Proof.
  intros Hw. unfold AdaptivePolicy.push_window, len. rewrite length_drop, length_app. simpl. lia.
Qed.

(** After an observation the hedging delay is, clamped to its bounds, a
    retained sample that at least [percentile] percent of the retained samples
    do not exceed; the samples never outgrow the window, and the index into
    the sorted samples is in range. *)
Theorem observe_tracks_percentile (t : HedgeDelayTuner.t) c elapsed :
  HedgeDelayTuner.config t = Some c → AdaptiveHedgingConfig.valid c →
  let t' := HedgeDelayTuner.observe t elapsed in
  let kept := HedgeDelayTuner.samples t' in
  AdaptiveHedgingConfig.min_delay c ≤ HedgeDelayTuner.current t'
    ≤ AdaptiveHedgingConfig.max_delay c
  ∧ len kept ≤ AdaptiveHedgingConfig.sample_window c
  ∧ ∃ v, v ∈ kept
      ∧ HedgeDelayTuner.current t'
        = HedgeDelayTuner.clamp v (AdaptiveHedgingConfig.min_delay c)
                                (AdaptiveHedgingConfig.max_delay c)
      ∧ AdaptiveHedgingConfig.percentile c * len kept ≤ 100 * len (filter (λ y, y ≤ v) kept).
Proof.
  intros Hc (Hmm & Hw & Hp) t' kept. unfold kept, t', HedgeDelayTuner.observe.
  rewrite Hc. simpl. set (l := AdaptivePolicy.push_window _ _ _).
  pose proof (push_window_len _ (HedgeDelayTuner.samples t) elapsed Hw) as Hlen. fold l in Hlen.
  split; [by apply clamp_bounds|]. split; [lia|].
  set (o := merge_sort Z.le l). assert (o ≡ₚ l) as Ho by apply merge_sort_Permutation.
  assert (len o = len l) as Hlo by (unfold len; by rewrite Ho).
  destruct (rank_percentile (len o) (AdaptiveHedgingConfig.percentile c)) as [Hr Hpr]; [lia|done|].
  set (i := HedgeDelayTuner.rank _ _) in *.
  destruct (lookup_lt_is_Some_2 o (Z.to_nat i)) as [v Hv]; [unfold len in *; lia|].
  exists v. split; [|split].
  - rewrite <-Ho. by eapply list_elem_of_lookup_2.
  - f_equal. by apply nth_lookup_Some.
  - pose proof (sorted_count o (Z.to_nat i) v) as Hcnt.
    assert (len (filter (λ y, y ≤ v) l) = len (filter (λ y, y ≤ v) o)) as ->
      by (unfold len; by rewrite Ho).
    rewrite <-Hlo. specialize (Hcnt ltac:(apply StronglySorted_merge_sort; apply _) Hv). lia.
Qed.

(** ** The ranking is a function of its window *)

Lemma sorted_filter (w : Z) (l : list Z) :
  StronglySorted Z.le l → StronglySorted Z.le (filter (λ k, k ≤ w) l).
Proof.
  induction 1 as [|x l Hs IH Hx]; [constructor|]. rewrite filter_cons.
  destruct (decide (x ≤ w)); [|done]. constructor; [done|].
  apply Forall_forall. intros y [_ Hy]%list_elem_of_filter. rewrite Forall_forall in Hx. auto.
Qed.

(** The entries of a map up to a key are determined by those lookups. *)
Lemma entries_upto_eq {A} (m m' : gmap Z A) w :
  (∀ k, k ≤ w → m !! k = m' !! k) →
  filter (λ e, e.1 ≤ w) (entries m) = filter (λ e, e.1 ≤ w) (entries m').
Proof.
  intros Heq.
  assert (∀ n : gmap Z A, (filter (λ e, e.1 ≤ w) (entries n)).*1
            = filter (λ k, k ≤ w) (keys n)) as Hkeys.
  { intros n. unfold keys. induction (entries n) as [|[k x] l IH]; [done|].
    rewrite fmap_cons, !filter_cons. simpl. destruct (decide (k ≤ w)); [|done].
    by rewrite fmap_cons, IH. }
  assert (∀ n : gmap Z A, filter (λ e, e.1 ≤ w) (entries n)
            = omap (λ k, (k,.) <$> n !! k) (filter (λ k, k ≤ w) (keys n))) as Hentries.
  { intros n. rewrite <-Hkeys.
    assert (Forall (λ e, n !! e.1 = Some e.2) (filter (λ e, e.1 ≤ w) (entries n))) as Hall.
    { apply Forall_forall. intros [k x] [_ Hk]%list_elem_of_filter. by apply elem_of_entries. }
    induction Hall as [|[k x] l Hk _ IH]; [done|]. simpl in *. rewrite Hk. simpl. by f_equal. }
  rewrite !Hentries.
  assert (filter (λ k, k ≤ w) (keys m) = filter (λ k, k ≤ w) (keys m')) as ->.
  { apply (StronglySorted_unique Z.le).
    - apply sorted_filter, keys_sorted.
    - apply sorted_filter, keys_sorted.
    - apply NoDup_Permutation; [apply NoDup_filter, NoDup_keys..|].
      intros k. rewrite !list_elem_of_filter, !elem_of_keys.
      split; intros [Hk ?]; (split; [done|]); [by rewrite <-Heq|by rewrite Heq]. }
  assert (Forall (λ k, k ≤ w) (filter (λ k, k ≤ w) (keys m'))) as Hall.
  { apply Forall_forall. by intros k [? _]%list_elem_of_filter. }
  induction Hall as [|k l Hk _ IH]; [done|]. csimpl. rewrite Heq by done. by rewrite IH.
Qed.

Lemma leader_totals_filter t w :
  EpochTuner.leader_totals t w =
  fold_left (λ totals '(_, stat),
      let '(slots, steps) := default (0, 0) (totals !! EpochStat.leader stat) in
      <[EpochStat.leader stat := (slots + EpochStat.slots stat,
                                  steps + EpochStat.decided_step_total stat)]> totals)
    (filter (λ e, e.1 ≤ w) (entries (EpochTuner.stats t))) ∅.
Proof.
  unfold EpochTuner.leader_totals. generalize (∅ : gmap Z (Z * Z)).
  induction (entries (EpochTuner.stats t)) as [|[e stat] l IH]; intros acc; [done|].
  rewrite filter_cons. simpl. destruct (Z.leb_spec e w) as [Hle|Hgt].
  - rewrite decide_True by done. simpl. apply IH.
  - rewrite decide_False by lia. apply IH.
Qed.

(** The derived order of an epoch is a function of the members, the epoch
    size and the statistics up to two epochs back: two tuners that agree on
    those and both have the committed history they need derive the same
    schedule, whatever else they have recorded. *)
Theorem derive_determined_by_window t t' e s s' :
  EpochTuner.members t = EpochTuner.members t' →
  EpochTuner.epoch_size t = EpochTuner.epoch_size t' →
  (∀ k, k ≤ e - 2 → EpochTuner.stats t !! k = EpochTuner.stats t' !! k) →
  EpochTuner.derive t e = Ok s → EpochTuner.derive t' e = Ok s' → s = s'.
Proof.
  intros Hm Hsz Hst. unfold EpochTuner.derive. rewrite Hm, Hsz.
  destruct (e <? _); [congruence|]. destruct (ok_or _ _) as [required|]; [|done].
  destruct (_ <? required); [done|]. destruct (EpochTuner.stats_through t' <? required); [done|].
  rewrite !leader_totals_filter, (entries_upto_eq _ _ _ Hst). congruence.
Qed.

(** ** Where equal logs rank differently *)

(** Committing slots 1, 2, ... with the given decided steps. *)
Fixpoint note_all (steps : list Z) (t : EpochTuner.t) : EpochTuner.t :=
  match steps with
  | [] => t
  | step :: steps => note_all steps (EpochTuner.note_committed (EpochTuner.stats_through t + 1) step t).1
  end.

Definition leader_of (t : EpochTuner.t) (e : Z) : Result ReplicaId :=
  let? s := (EpochTuner.ensure_schedule e t).2 in Ok (EpochSchedule.leader s).

Definition tuner3 (epoch_size : Z) : EpochTuner.t := EpochTuner.new epoch_size [1; 2; 3] true.

(** The decided step is not part of what replicas agree on (a slot one
    proposer decides at step 4 another decides at step 6), yet it feeds the
    ranking: two replicas that committed the same values, one of them having
    learned slot 3 from a slower proposer, elect different leaders. *)
Theorem decided_steps_split_leaders :
  leader_of (note_all [4; 4; 4; 4; 4; 4] (tuner3 1)) 8 = Ok 1
  ∧ leader_of (note_all [4; 4; 6; 4; 4; 4] (tuner3 1)) 8 = Ok 2.
Proof. vm_compute. split; reflexivity. Qed.

(** Epochs of two slots; the early leaders 2 and 3 are slow in epochs 4 and 5,
    and leader 1 is a little slow once. *)
Definition window_steps (n : nat) : list Z :=
  (λ slot, if bool_decide (8 ≤ slot ≤ 11)%nat then 400
           else if bool_decide (slot = 60)%nat then 6 else 4) <$> seq 1 n.

(** The retained window moves with the last committed slot, not with the
    epoch that is derived: a replica that derives epoch 70 when slot 137 is
    committed still counts epoch 4, one that derives it after slot 138 does
    not, and from one and the same log they elect different leaders. *)
Theorem retention_splits_leaders :
  window_steps 138 = window_steps 137 ++ [4]
  ∧ leader_of (note_all (window_steps 137) (tuner3 2)) 70 = Ok 1
  ∧ leader_of (note_all (window_steps 138) (tuner3 2)) 70 = Ok 2.
Proof. vm_compute. split_and!; reflexivity. Qed.

(** ** The properties on concrete values *)

Definition ex_hedging : AdaptiveHedgingConfig.t := AdaptiveHedgingConfig.mk 5 50 3 50.
Definition ex_tuner : HedgeDelayTuner.t :=
  fold_left HedgeDelayTuner.observe [90; 10; 20] (HedgeDelayTuner.new 30 (Some ex_hedging)).

Definition ex_runtime_config : ReplicaRuntimeConfig.t :=
  ReplicaRuntimeConfig.mk 1 0 ex_stable roomy 4 1000 (Duration.from_secs 30) false None.

Lemma policy_schedule_orders_members_witness :
  orders [1; 2; 3] 5 (EpochSchedule.mk 5 [3; 1; 2]).
Proof.
  apply (policy_schedule_orders_members ex_runtime_config 5 (RoundRobinPolicy.new 4) None
    (EpochSchedule.mk 5 [3; 1; 2])).
  vm_compute. reflexivity.
Defined.

Lemma observe_tracks_percentile_witness :
  HedgeDelayTuner.samples (HedgeDelayTuner.observe ex_tuner 2) = [10; 20; 2]
  ∧ HedgeDelayTuner.current (HedgeDelayTuner.observe ex_tuner 2) = 10
  ∧ 5 ≤ HedgeDelayTuner.current (HedgeDelayTuner.observe ex_tuner 2) ≤ 50.
Proof.
  split; [vm_compute; reflexivity|]. split; [vm_compute; reflexivity|].
  apply (observe_tracks_percentile ex_tuner ex_hedging 2).
  - reflexivity.
  - unfold AdaptiveHedgingConfig.valid. simpl. lia.
Defined.

Lemma derive_determined_by_window_witness :
  ∃ s, EpochTuner.derive (note_all [4; 4; 6; 4; 4; 4] (tuner3 1)) 8 = Ok s
    ∧ EpochTuner.derive (note_all [4; 4; 6; 4; 4; 4; 4; 9] (tuner3 1)) 8 = Ok s
    ∧ EpochSchedule.leader s = 2.
Proof.
  destruct (EpochTuner.derive (note_all [4; 4; 6; 4; 4; 4] (tuner3 1)) 8) as [s|] eqn:E1;
    [|exfalso; revert E1; vm_compute; discriminate].
  destruct (EpochTuner.derive (note_all [4; 4; 6; 4; 4; 4; 4; 9] (tuner3 1)) 8) as [s'|] eqn:E2;
    [|exfalso; revert E2; vm_compute; discriminate].
  exists s. split; [reflexivity|]. split.
  - f_equal. symmetry.
    apply (derive_determined_by_window (note_all [4; 4; 6; 4; 4; 4] (tuner3 1))
      (note_all [4; 4; 6; 4; 4; 4; 4; 9] (tuner3 1)) 8 s s').
    + vm_compute. reflexivity.
    + vm_compute. reflexivity.
    + intros k Hk. destruct (decide (k ≤ 0)) as [Hn|Hp].
      * assert (∀ m : gmap Z EpochStat.t, forallb (λ i, 0 <? i) (keys m) = true → m !! k = None)
          as Hnone.
        { intros m Hm. destruct (m !! k) eqn:El; [|reflexivity]. exfalso.
          rewrite forallb_forall in Hm. specialize (Hm k).
          rewrite <-list_elem_of_In in Hm. rewrite elem_of_keys, El in Hm.
          specialize (Hm ltac:(eauto)). apply Z.ltb_lt in Hm. lia. }
        rewrite !Hnone by (vm_compute; reflexivity). reflexivity.
      * assert (k = 1 ∨ k = 2 ∨ k = 3 ∨ k = 4 ∨ k = 5 ∨ k = 6)
          as [->|[->|[->|[->|[->| ->]]]]] by lia; vm_compute; reflexivity.
    + exact E1.
    + exact E2.
  - revert E1. vm_compute. intros [= <-]. reflexivity.
Defined.
