(* ===== verification/Runtime.v ===== *)
(** * The replica runtime (src/runtime.rs)

  [ReplicaRuntime] drives one replica: it claims slots for submitted values,
  waits its hedging delay, runs the proposer, persists, executes and announces
  decisions, checkpoints, transfers state and installs memberships. What lies
  behind the runtime are classes: the state store, the state machine, the
  client notifier, and the recorder endpoints with the clock. The endpoints
  and the clock share one state, the [world] of the runtime, which every call
  may change. *)
From S2P Require Import Prelude Errors Types Membership Isr Recorder Durable Proposer Replica.
From S2P Require Import Policy Schedule.

(** ** Snapshots *)

(** [PendingProposalSnapshot] has one field. *)
Module PendingProposalSnapshot.
Record t {V : Type} : Type := mk { value_ids : list V }.
Arguments t : clear implicits.
Arguments mk {V} _.
End PendingProposalSnapshot.

Module RuntimeSnapshot.
Record t {V : Type} `{Countable V} : Type := mk {
  cluster : ClusterIdentity.t;
  protocol : ProtocolIdentity.t;
  replica : ReplicaSnapshot.t V;
  decisions : gmap Z (Decision.t V);
  schedules : gmap Z EpochSchedule.t;
  pending : gmap Z (PendingProposalSnapshot.t V);
  executed : gset Z;
  notified : gset Z;
  announced_to : gmap Z (gset Z);
  epoch_stats : gmap Z EpochStat.t;
  stats_through : SlotIndex;
}.
Arguments t V {_ _}.
Arguments mk {V _ _} _ _ _ _ _ _ _ _ _ _ _.
End RuntimeSnapshot.

Module StateTransferSnapshot.
Record t {V : Type} `{Countable V} : Type := mk {
  through : SlotIndex;
  checkpointed_value_ids : list V;
  application_checkpoint : list Z;
  runtime : RuntimeSnapshot.t V;
}.
Arguments t V {_ _}.
Arguments mk {V _ _} _ _ _ _.
End StateTransferSnapshot.

(** ** What the runtime is built on *)

Class RuntimeStateStore (V S : Type) `{Countable V} : Type := {
  runtime_load : S → S * Result (option (RuntimeSnapshot.t V));
  runtime_save : S → RuntimeSnapshot.t V → S * Result unit;
}.

(** What a store promises: the laws of the recorder's stores, for this kind
    of snapshot. *)
Class RuntimeStateStoreLaws (V S : Type) `{Countable V} `{!RuntimeStateStore V S}
    (content : S → option (RuntimeSnapshot.t V)) : Prop := {
  runtime_load_content : ∀ s s' o, runtime_load (V:=V) s = (s', Ok o) →
      o = content s ∧ content s' = content s;
  runtime_save_Ok : ∀ s s' snap, runtime_save s snap = (s', Ok tt) → content s' = Some snap;
  runtime_save_Err : ∀ s s' snap e, runtime_save s snap = (s', Err e) →
      content s' = content s ∨ content s' = Some snap;
}.

(** A trait with two default methods, which a state machine without
    checkpoints inherits. *)
Class StateMachine (V E : Type) : Type := {
  execute : E → Decision.t V → E * Result unit;
  export_checkpoint : E → SlotIndex → E * Result (list Z);
  import_checkpoint : E → SlotIndex → list Z → E * Result unit;
}.

Definition default_export_checkpoint {E} (e : E) (through : SlotIndex) : E * Result (list Z) :=
  (e, Err (QuePaxaError.StorageError
             "the state machine does not implement checkpoint export")).
Definition default_import_checkpoint {E} (e : E) (through : SlotIndex) (checkpoint : list Z)
    : E * Result unit :=
  (e, Err (QuePaxaError.StorageError
             "the state machine does not implement checkpoint import")).

Class ClientNotifier (V N : Type) : Type :=
  notify_committed : N → Decision.t V → N * Result unit.

(** The recorder endpoints and the clock. An RPC yields how its worker ended;
    [endpoint_busy] is the endpoint's in-flight flag; [network] is what a
    phase of [propose] sees; [instant_limit] is the last representable
    instant, in nanoseconds. *)
Class RecorderClients (V X : Type) : Type := {
  endpoint_busy : X → ReplicaId → bool;
  rpc_inform : X → ReplicaId → list (Decision.t V) → X * RecorderHandle.worker unit;
  rpc_status : X → ReplicaId → SlotIndex → X * RecorderHandle.worker (option Z);
  rpc_install : X → ReplicaId → MembershipChange.t V → X * RecorderHandle.worker unit;
  network : X → list (ReplicaId * RecordRequest.t V) → X * phase_io V;
  clock_now : X → Z;
  sleep : X → Z → X;
  instant_limit : Z;
}.

(** ** The stores and machines the crate ships *)

Module InMemoryRuntimeStore.
Record t {V : Type} `{Countable V} : Type := mk { snapshot : option (RuntimeSnapshot.t V) }.
Arguments t V {_ _}.
Arguments mk {V _ _} _.

Definition load `{Countable V} (self : t V) : t V * Result (option (RuntimeSnapshot.t V)) :=
  (self, Ok (snapshot self)).
Definition save `{Countable V} (self : t V) (snap : RuntimeSnapshot.t V) : t V * Result unit :=
  (mk (Some snap), Ok tt).
End InMemoryRuntimeStore.

#[global] Instance in_memory_runtime_store `{Countable V}
    : RuntimeStateStore V (InMemoryRuntimeStore.t V) := {|
  runtime_load := InMemoryRuntimeStore.load;
  runtime_save := InMemoryRuntimeStore.save;
|}.

#[global] Instance in_memory_runtime_store_laws `{Countable V}
    : RuntimeStateStoreLaws V (InMemoryRuntimeStore.t V) InMemoryRuntimeStore.snapshot.
Proof.
  split; simpl.
  - by intros s s' o [= <- <-].
  - by intros s s' snap [= <-].
  - done.
Qed.

(** [FileRuntimeStore]: the same sequence of system calls as the recorder's
    file store, with the runtime's crash points. *)
Module FileRuntimeStore.
Section ops.
Context {V : Type} `{Countable V}.
Context (encode : RuntimeSnapshot.t V → Result (list Z)).
Context (decode : list Z → Result (RuntimeSnapshot.t V)).

Record t : Type := mk {
  disk : AtomicFile.disk;
  reached : CrashPoint.t → Result unit;
  next_io : list AtomicFile.io;
}.

Definition runtime_points : AtomicFile.points := {|
  AtomicFile.opened := CrashPoint.RuntimeTemporaryOpened;
  AtomicFile.written := CrashPoint.RuntimeTemporaryWritten;
  AtomicFile.synced := CrashPoint.RuntimeTemporarySynced;
  AtomicFile.renamed := CrashPoint.RuntimeRenamed;
  AtomicFile.directory_synced := CrashPoint.RuntimeDirectorySynced;
|}.

Definition load (self : t) : t * Result (option (RuntimeSnapshot.t V)) :=
  (self,
   match AtomicFile.visible (disk self) with
   | AtomicFile.Bytes bytes => let? snapshot := decode bytes in Ok (Some snapshot)
   | AtomicFile.Missing => Ok None
   | AtomicFile.Torn => Err (QuePaxaError.StorageError "could not read runtime state")
   end).

Definition save (self : t) (snapshot : RuntimeSnapshot.t V) : t * Result unit :=
  match encode snapshot with
  | Err e => (self, Err e)
  | Ok bytes =>
      let io := default FileRecorderStore.io_success (head (next_io self)) in
      let '(disk', r) := AtomicFile.save_file (reached self) runtime_points io bytes
                                              (disk self) in
      (mk disk' (reached self) (tail (next_io self)), r)
  end.
End ops.
Arguments t : clear implicits.
End FileRuntimeStore.

Module NoopStateMachine.
Inductive t : Type := mk.
End NoopStateMachine.

#[global] Instance noop_state_machine {V} : StateMachine V NoopStateMachine.t := {|
  execute := λ e _, (e, Ok tt);
  export_checkpoint := λ e _, (e, Ok []);
  import_checkpoint := λ e _ checkpoint,
    (e, if is_empty checkpoint then Ok tt
        else Err (QuePaxaError.StorageError
                    "the no-op state machine accepts only an empty checkpoint"));
|}.

Module NoopClientNotifier.
Inductive t : Type := mk.
End NoopClientNotifier.

#[global] Instance noop_client_notifier {V} : ClientNotifier V NoopClientNotifier.t :=
  λ n _, (n, Ok tt).

(** ** The runtime *)

Module RuntimePoll.
Inductive t (V : Type) : Type :=
| Idle
| Waiting (slot : SlotIndex) (until : Z)
| Committed (decisions : list (Decision.t V)).
Arguments Idle {V}.
Arguments Waiting {V} _ _.
Arguments Committed {V} _.
End RuntimePoll.

Module PendingProposal.
Record t {V : Type} : Type := mk {
  value_ids : list V;
  ready_at : option Z;
  last_observed_step : option Z;
}.
Arguments t : clear implicits.
Arguments mk {V} _ _ _.
End PendingProposal.

(** [enumerate().any(|(i, v)| values[..i].contains(v))] is [has_duplicate],
    and a [BTreeSet] of the elements is a [gset]. *)
Definition id_set (l : list ReplicaId) : gset Z := list_to_set l.

(** Collects into a set first: smaller when an element repeats. *)
Definition repeats_id (l : list ReplicaId) : bool :=
  negb (Z.of_nat (size (id_set l)) =? len l).

(** [decisions.range(..=through)]. *)
Definition range_through {A} (m : gmap Z A) (through : SlotIndex) : list (Z * A) :=
  filter (λ e, e.1 ≤ through) (entries m).

Module ReplicaRuntime.
Section runtime.
Context {V : Type} `{Countable V} {R : Type} `{!PrioritySource R}.
Context {St E N X : Type}.
Context `{!RuntimeStateStore V St, !StateMachine V E, !ClientNotifier V N, !RecorderClients V X}.

Record t : Type := mk {
  config : ReplicaRuntimeConfig.t;
  replica : ReplicaCore.t V;
  proposer : ProposerCore.t R;
  recorders : list ReplicaId;
  state_store : St;
  state_machine : E;
  notifier : N;
  decisions : gmap Z (Decision.t V);
  tuner : EpochTuner.t;
  pending : gmap Z (PendingProposal.t V);
  executed : gset Z;
  notified : gset Z;
  announced_to : gmap Z (gset Z);
  noop_value : option V;
  hedge_delay : HedgeDelayTuner.t;
  world : X;
}.

(** Field updates. *)
Definition set_config (self : t) x : t :=
  mk x (replica self) (proposer self) (recorders self) (state_store self) (state_machine
     self) (notifier self) (decisions self) (tuner self) (pending self) (executed self)
     (notified self) (announced_to self) (noop_value self) (hedge_delay self) (world self).
Definition set_replica (self : t) x : t :=
  mk (config self) x (proposer self) (recorders self) (state_store self) (state_machine
     self) (notifier self) (decisions self) (tuner self) (pending self) (executed self)
     (notified self) (announced_to self) (noop_value self) (hedge_delay self) (world self).
Definition set_proposer (self : t) x : t :=
  mk (config self) (replica self) x (recorders self) (state_store self) (state_machine self)
     (notifier self) (decisions self) (tuner self) (pending self) (executed self) (notified
     self) (announced_to self) (noop_value self) (hedge_delay self) (world self).
Definition set_recorders (self : t) x : t :=
  mk (config self) (replica self) (proposer self) x (state_store self) (state_machine self)
     (notifier self) (decisions self) (tuner self) (pending self) (executed self) (notified
     self) (announced_to self) (noop_value self) (hedge_delay self) (world self).
Definition set_state_store (self : t) x : t :=
  mk (config self) (replica self) (proposer self) (recorders self) x (state_machine self)
     (notifier self) (decisions self) (tuner self) (pending self) (executed self) (notified
     self) (announced_to self) (noop_value self) (hedge_delay self) (world self).
Definition set_state_machine (self : t) x : t :=
  mk (config self) (replica self) (proposer self) (recorders self) (state_store self) x
     (notifier self) (decisions self) (tuner self) (pending self) (executed self) (notified
     self) (announced_to self) (noop_value self) (hedge_delay self) (world self).
Definition set_notifier (self : t) x : t :=
  mk (config self) (replica self) (proposer self) (recorders self) (state_store self)
     (state_machine self) x (decisions self) (tuner self) (pending self) (executed self)
     (notified self) (announced_to self) (noop_value self) (hedge_delay self) (world self).
Definition set_decisions (self : t) x : t :=
  mk (config self) (replica self) (proposer self) (recorders self) (state_store self)
     (state_machine self) (notifier self) x (tuner self) (pending self) (executed self)
     (notified self) (announced_to self) (noop_value self) (hedge_delay self) (world self).
Definition set_tuner (self : t) x : t :=
  mk (config self) (replica self) (proposer self) (recorders self) (state_store self)
     (state_machine self) (notifier self) (decisions self) x (pending self) (executed self)
     (notified self) (announced_to self) (noop_value self) (hedge_delay self) (world self).
Definition set_pending (self : t) x : t :=
  mk (config self) (replica self) (proposer self) (recorders self) (state_store self)
     (state_machine self) (notifier self) (decisions self) (tuner self) x (executed self)
     (notified self) (announced_to self) (noop_value self) (hedge_delay self) (world self).
Definition set_executed (self : t) x : t :=
  mk (config self) (replica self) (proposer self) (recorders self) (state_store self)
     (state_machine self) (notifier self) (decisions self) (tuner self) (pending self) x
     (notified self) (announced_to self) (noop_value self) (hedge_delay self) (world self).
Definition set_notified (self : t) x : t :=
  mk (config self) (replica self) (proposer self) (recorders self) (state_store self)
     (state_machine self) (notifier self) (decisions self) (tuner self) (pending self)
     (executed self) x (announced_to self) (noop_value self) (hedge_delay self) (world self).
Definition set_announced_to (self : t) x : t :=
  mk (config self) (replica self) (proposer self) (recorders self) (state_store self)
     (state_machine self) (notifier self) (decisions self) (tuner self) (pending self)
     (executed self) (notified self) x (noop_value self) (hedge_delay self) (world self).
Definition set_noop_value (self : t) x : t :=
  mk (config self) (replica self) (proposer self) (recorders self) (state_store self)
     (state_machine self) (notifier self) (decisions self) (tuner self) (pending self)
     (executed self) (notified self) (announced_to self) x (hedge_delay self) (world self).
Definition set_hedge_delay (self : t) x : t :=
  mk (config self) (replica self) (proposer self) (recorders self) (state_store self)
     (state_machine self) (notifier self) (decisions self) (tuner self) (pending self)
     (executed self) (notified self) (announced_to self) (noop_value self) x (world self).
Definition set_world (self : t) x : t :=
  mk (config self) (replica self) (proposer self) (recorders self) (state_store self)
     (state_machine self) (notifier self) (decisions self) (tuner self) (pending self)
     (executed self) (notified self) (announced_to self) (noop_value self) (hedge_delay
     self) x.

Abbreviation MR := (M t QuePaxaError.t).

(** ** Snapshots and validation *)

Definition runtime_snapshot (self : t) : RuntimeSnapshot.t V :=
  RuntimeSnapshot.mk (ReplicaRuntimeConfig.cluster (config self))
    (ReplicaRuntimeConfig.protocol_identity (config self))
    (ReplicaCore.snapshot (replica self))
    (decisions self)
    (EpochTuner.schedules (tuner self))
    ((λ p, PendingProposalSnapshot.mk (PendingProposal.value_ids p)) <$> pending self)
    (executed self) (notified self) (announced_to self)
    (EpochTuner.stats (tuner self)) (EpochTuner.stats_through (tuner self)).

Definition persist : MR unit := λ self,
  let '(store, r) := runtime_save (state_store self) (runtime_snapshot self) in
  (set_state_store self store, r).

Definition validate_schedule (config : ReplicaRuntimeConfig.t) (schedule : EpochSchedule.t)
    : Result unit :=
  reject repeats_id (EpochSchedule.proposers schedule)
    with QuePaxaError.PolicyError "an epoch schedule contains duplicate proposers" ;;
  reject negb (bool_decide (id_set (EpochSchedule.proposers schedule)
                            = id_set (ReplicaRuntimeConfig.members config)))
    with QuePaxaError.PolicyError
           "an epoch schedule must contain every configured replica exactly once" ;;
  Ok tt.

Definition validate_decision (config : ReplicaRuntimeConfig.t) (decision : Decision.t V)
    : Result unit :=
  reject is_empty (Decision.value_ids decision) with QuePaxaError.EmptyDecision ;;
  reject negb (ClusterIdentity.contains (ReplicaRuntimeConfig.cluster config)
                                        (Decision.proposer decision))
    with QuePaxaError.InvalidSender (Decision.proposer decision) ;;
  reject has_duplicate (Decision.value_ids decision)
    with QuePaxaError.InvalidProposal "decision contains duplicate value IDs" ;;
  Ok tt.

Definition validate_restored_state (self : t) : Result unit :=
  let? _ := try_each (validate_schedule (config self)) (values (EpochTuner.schedules (tuner self))) in
  let? _ := try_each (validate_decision (config self)) (values (decisions self)) in
  let? _ := try_each (λ slot,
    reject bool_decide (is_Some (decisions self !! slot))
      with QuePaxaError.InvalidProposal
        "runtime snapshot has both a decision and a pending proposal for one slot" ;;
    reject slot <=? ReplicaCore.committed_through (replica self)
      with QuePaxaError.InvalidProposal
        "runtime snapshot has a pending proposal in the committed prefix" ;;
    Ok tt) (keys (pending self)) in
  let decision_slots := dom (decisions self) in
  reject negb (bool_decide (executed self ⊆ decision_slots))
         || negb (bool_decide (notified self ⊆ decision_slots))
         || negb (bool_decide (notified self ⊆ executed self))
    with QuePaxaError.InvalidProposal
      "runtime snapshot has execution or notification metadata without a decision" ;;
  try_each (λ '(slot, recipients),
    reject negb (bool_decide (slot ∈ decision_slots))
           || negb (bool_decide (recipients ⊆ id_set (ReplicaRuntimeConfig.members (config self))))
      with QuePaxaError.InvalidProposal
        "runtime snapshot has invalid decision dissemination metadata" ;;
    Ok tt) (entries (announced_to self)).

(** The components [restore_runtime_snapshot] rebuilds. *)
Definition validate_runtime_components (config : ReplicaRuntimeConfig.t)
    (replica : ReplicaCore.t V) (decisions : gmap Z (Decision.t V)) (tuner : EpochTuner.t)
    (pending : gmap Z (PendingProposal.t V)) (executed notified : gset Z)
    (announced_to : gmap Z (gset Z)) : Result unit :=
  let members := id_set (ReplicaRuntimeConfig.members config) in
  let? _ := try_each (λ schedule,
    reject repeats_id (EpochSchedule.proposers schedule)
           || negb (bool_decide (id_set (EpochSchedule.proposers schedule) = members))
      with QuePaxaError.PolicyError
        "an epoch schedule must contain every configured replica exactly once" ;;
    Ok tt) (values (EpochTuner.schedules tuner)) in
  let? _ := try_each (λ '(slot, decision),
    reject is_empty (Decision.value_ids decision)
           || negb (ClusterIdentity.contains (ReplicaRuntimeConfig.cluster config)
                                             (Decision.proposer decision))
      with QuePaxaError.InvalidProposal "runtime snapshot contains an invalid decision" ;;
    reject has_duplicate (Decision.value_ids decision)
      with QuePaxaError.InvalidProposal "decision contains duplicate value IDs" ;;
    reject negb (slot =? Decision.slot decision)
           || match ReplicaCore.slot replica slot ≫= LogSlot.decision with
              | Some stored => negb (bool_decide (Decision.value_ids stored
                                                  = Decision.value_ids decision))
              | None => true
              end
      with QuePaxaError.InvalidProposal "runtime decision does not match the replica log" ;;
    Ok tt) (entries decisions) in
  let? _ := try_each (λ slot,
    reject bool_decide (is_Some (decisions !! slot))
           || (slot <=? ReplicaCore.committed_through replica)
           || match ReplicaCore.slot replica slot with
              | Some entry => bool_decide (is_Some (LogSlot.decision entry))
                              || is_empty (LogSlot.proposed entry)
              | None => true
              end
      with QuePaxaError.InvalidProposal "runtime snapshot has an invalid pending proposal" ;;
    Ok tt) (keys pending) in
  let decision_slots := dom decisions in
  reject negb (bool_decide (executed ⊆ decision_slots))
         || negb (bool_decide (notified ⊆ decision_slots))
         || negb (bool_decide (notified ⊆ executed))
    with QuePaxaError.InvalidProposal
      "runtime snapshot has execution or notification metadata without a decision" ;;
  try_each (λ '(slot, recipients),
    reject negb (bool_decide (slot ∈ decision_slots)) || negb (bool_decide (recipients ⊆ members))
      with QuePaxaError.InvalidProposal
        "runtime snapshot has invalid decision dissemination metadata" ;;
    Ok tt) (entries announced_to).

Definition validate_recorders (config : ReplicaRuntimeConfig.t) (recorders : list ReplicaId)
    : Result unit :=
  reject repeats_id recorders
    with QuePaxaError.DuplicateReplica (default 0 (find_duplicate recorders)) ;;
  reject negb (bool_decide (id_set recorders = id_set (ReplicaRuntimeConfig.members config)))
    with QuePaxaError.PolicyError
           "runtime recorder handles must match the configured membership exactly" ;;
  Ok tt.

Definition validate_recorders_for_cluster (cluster : ClusterIdentity.t)
    (recorders : list ReplicaId) : Result unit :=
  reject repeats_id recorders
    with QuePaxaError.InvalidReconfiguration
           "replacement recorder handles contain duplicate identities" ;;
  reject negb (bool_decide (id_set recorders = id_set (ClusterIdentity.members cluster)))
    with QuePaxaError.ConfigurationMismatch ;;
  Ok tt.

(** A proposal of a snapshot, not yet armed. *)
Definition unarmed (proposal : PendingProposalSnapshot.t V) : PendingProposal.t V :=
  PendingProposal.mk (PendingProposalSnapshot.value_ids proposal) None None.

Definition restore_tuner (config : ReplicaRuntimeConfig.t) (snapshot : RuntimeSnapshot.t V)
    : Result EpochTuner.t :=
  EpochTuner.restore (ReplicaRuntimeConfig.epoch_size config)
    (ReplicaRuntimeConfig.members config) (ReplicaRuntimeConfig.auto_schedules config)
    (RuntimeSnapshot.schedules snapshot) (RuntimeSnapshot.epoch_stats snapshot)
    (RuntimeSnapshot.stats_through snapshot).

(** The configuration a snapshot was written under. *)
Definition same_configuration (config : ReplicaRuntimeConfig.t)
    (snapshot : RuntimeSnapshot.t V) : bool :=
  bool_decide (RuntimeSnapshot.cluster snapshot = ReplicaRuntimeConfig.cluster config)
  && bool_decide (RuntimeSnapshot.protocol snapshot
                  = ReplicaRuntimeConfig.protocol_identity config).

Definition restore_runtime_snapshot (config : ReplicaRuntimeConfig.t)
    (snapshot : RuntimeSnapshot.t V)
    : Result (ReplicaCore.t V * EpochTuner.t * gmap Z (PendingProposal.t V)) :=
  reject negb (same_configuration config snapshot) with QuePaxaError.ConfigurationMismatch ;;
  let? replica := ReplicaCore.restore (ReplicaRuntimeConfig.replica config)
                                      (RuntimeSnapshot.replica snapshot) in
  let? tuner := restore_tuner config snapshot in
  let pending := unarmed <$> RuntimeSnapshot.pending snapshot in
  let? _ := validate_runtime_components config replica (RuntimeSnapshot.decisions snapshot)
              tuner pending (RuntimeSnapshot.executed snapshot)
              (RuntimeSnapshot.notified snapshot) (RuntimeSnapshot.announced_to snapshot) in
  Ok (replica, tuner, pending).

Definition new (config : ReplicaRuntimeConfig.t) (proposer : ProposerCore.t R)
    (recorders : list ReplicaId) (store : St) (machine : E) (notifier : N) (world : X)
    : Result t :=
  let? _ := validate_recorders config recorders in
  reject negb (ProposerCore.replica_id proposer =? ReplicaRuntimeConfig.replica_id config)
         || negb (ProposerCore.lane_id proposer =? ReplicaRuntimeConfig.lane_id config)
    with QuePaxaError.InvalidProposal
      "runtime proposer identity does not match the runtime configuration" ;;
  let proposer := ProposerCore.configure_cluster proposer (ReplicaRuntimeConfig.cluster config) in
  let '(store, loaded) := runtime_load store in
  let? snapshot := loaded in
  let hedge_delay := HedgeDelayTuner.new (ReplicaRuntimeConfig.base_hedge_delay config)
                                         (ReplicaRuntimeConfig.adaptive_hedging config) in
  let? runtime :=
    match snapshot with
    | Some snapshot =>
        reject negb (same_configuration config snapshot)
          with QuePaxaError.ConfigurationMismatch ;;
        let? replica := ReplicaCore.restore (ReplicaRuntimeConfig.replica config)
                                            (RuntimeSnapshot.replica snapshot) in
        let? tuner := restore_tuner config snapshot in
        Ok (mk config replica proposer recorders store machine notifier
               (RuntimeSnapshot.decisions snapshot) tuner
               (unarmed <$> RuntimeSnapshot.pending snapshot)
               (RuntimeSnapshot.executed snapshot) (RuntimeSnapshot.notified snapshot)
               (RuntimeSnapshot.announced_to snapshot) None hedge_delay world)
    | None =>
        Ok (mk config (ReplicaCore.new (ReplicaRuntimeConfig.replica config)) proposer recorders
               store machine notifier ∅
               (EpochTuner.new (ReplicaRuntimeConfig.epoch_size config)
                  (ReplicaRuntimeConfig.members config)
                  (ReplicaRuntimeConfig.auto_schedules config))
               ∅ ∅ ∅ ∅ None hedge_delay world)
    end in
  let? _ := validate_restored_state runtime in
  Ok runtime.

Definition with_noop_value (self : t) (value : V) : t := set_noop_value self (Some value).
Definition current_hedge_delay (self : t) : Z := HedgeDelayTuner.current (hedge_delay self).
Definition decision (self : t) (slot : SlotIndex) : option (Decision.t V) := decisions self !! slot.

(** ** Effects *)

(** One auxiliary RPC: a busy endpoint is not called. *)
Definition aux_call {A} (x : X) (k : ReplicaId) (rpc : X → X * RecorderHandle.worker A)
    : X * Result A :=
  let handle := RecorderHandle.mk k (endpoint_busy x k) in
  let '(x, outcome) :=
    if RecorderHandle.is_idle handle then rpc x else (x, RecorderHandle.NotStarted) in
  (x, (RecorderHandle.call_with_timeout handle outcome).2).

Definition on_replica {A} : M (ReplicaCore.t V) QuePaxaError.t A → MR A := zoom replica set_replica.
Definition on_tuner {A} : M EpochTuner.t QuePaxaError.t A → MR A := zoom tuner set_tuner.
Definition run_machine {A} (f : E → E * Result A) : MR A := zoom state_machine set_state_machine f.
Definition run_notifier (d : Decision.t V) : MR unit :=
  zoom notifier set_notifier (λ n, notify_committed n d).

(** ** Submission and schedules *)

Definition submit (value_ids : list V) : MR unit :=
  on_replica (ReplicaCore.enqueue value_ids) ;* persist.

Definition install_epoch_schedule (schedule : EpochSchedule.t) : MR unit :=
  let* _ := readr (λ self, validate_schedule (config self) schedule) in
  let* installed := on_tuner (EpochTuner.install schedule) in
  if installed : bool then persist else ret tt.

Definition install_policy_epoch {P} `{!HedgingPolicy P} (epoch : Z) (policy : P)
    (previous_winner : option ReplicaId) : MR EpochSchedule.t :=
  let* schedule := readr (λ self,
    EpochSchedule.from_policy (config self) epoch policy previous_winner) in
  install_epoch_schedule schedule ;* ret schedule.

Definition ensure_schedule_for (slot : SlotIndex) : MR EpochSchedule.t :=
  let* epoch := reads (λ self, ReplicaRuntimeConfig.epoch_for (config self) slot) in
  on_tuner (EpochTuner.ensure_schedule epoch).

(** ** Announcing decisions to the recorders *)

(** One round of the inner loop: tell recorder [k] unless it has been told.
    The boolean says whether an acknowledgement was noted. *)
Definition announce (slot : SlotIndex) (decision : Decision.t V) (acc : t * bool) (k : ReplicaId)
    : t * bool :=
  let '(self, changed) := acc in
  if match announced_to self !! slot with
     | Some announced => bool_decide (k ∈ announced)
     | None => false
     end
  then acc
  else
  let '(x, r) := aux_call (world self) k (λ x, rpc_inform x k [decision]) in
  let self := set_world self x in
  match r with
  | Ok _ =>
      (set_announced_to self
         (<[slot := {[k]} ∪ default ∅ (announced_to self !! slot)]> (announced_to self)), true)
  | Err _ => (self, changed)
  end.

Definition announce_all (self : t) : t * bool :=
  fold_left (λ acc sd, fold_left (announce sd.1 sd.2) (recorders self) acc)
            (entries (decisions self)) (self, false).

Definition flush_decision_notifications : MR unit := λ self,
  let '(self, changed) := announce_all self in
  if changed then persist self else (self, Ok tt).

Definition ensure_fully_announced (self : t) (through : SlotIndex) : Result unit :=
  let members := id_set (ReplicaRuntimeConfig.members (config self)) in
  let slots := (range_through (decisions self) through).*1 in
  reject existsb (λ slot, match announced_to self !! slot with
                          | Some recipients => negb (bool_decide (recipients = members))
                          | None => true
                          end) slots
    with QuePaxaError.QuorumNotReached (Z.of_nat (size members))
           match (λ recipients : gset Z, Z.of_nat (size recipients))
                   <$> omap (λ slot, announced_to self !! slot) slots with
           | [] => 0
           | n :: ns => fold_left Z.min ns n
           end ;;
  Ok tt.

(** ** Executing committed decisions *)

(** The statistics loop: [stats_changed |= note_committed(..)?]. *)
Fixpoint note_stats (ds : list (Decision.t V)) (changed : bool) : MR bool :=
  match ds with
  | [] => ret changed
  | d :: ds =>
      let* noted := on_tuner (EpochTuner.note_committed (Decision.slot d)
                                                        (Decision.decided_step d)) in
      note_stats ds (changed || noted)
  end.

(** One iteration of the delivery loop; returns whether the decision was
    reported to the client. *)
Definition deliver_one (d : Decision.t V) : MR bool :=
  let slot := Decision.slot d in
  let* done := reads (λ self, bool_decide (slot ∈ executed self)) in
  let* _ :=
    if done : bool then ret tt
    else run_machine (λ e, execute e d) ;*
         modify (λ self, set_executed self ({[slot]} ∪ executed self)) ;*
         persist in
  let* told := reads (λ self, bool_decide (slot ∈ notified self)) in
  if told : bool then ret false
  else run_notifier d ;*
       modify (λ self, set_notified self ({[slot]} ∪ notified self)) ;*
       persist ;*
       ret true.

Fixpoint deliver (ds delivered : list (Decision.t V)) : MR (list (Decision.t V)) :=
  match ds with
  | [] => ret delivered
  | d :: ds =>
      let* reported := deliver_one d in
      deliver ds (if reported : bool then delivered ++ [d] else delivered)
  end.

Definition dispatch_committed : MR (list (Decision.t V)) :=
  let* ds := reads (λ self,
    (range_through (decisions self) (ReplicaCore.committed_through (replica self))).*2) in
  let* stats_changed := note_stats ds false in
  let* _ := if stats_changed : bool then persist else ret tt in
  deliver ds [].

Definition store_accepted (d : Decision.t V) (self : t) : t :=
  let slot := Decision.slot d in
  let self := set_pending self (delete slot (pending self)) in
  let self := set_announced_to self
                (<[slot := default ∅ (announced_to self !! slot)]> (announced_to self)) in
  set_decisions self (<[slot := d]> (decisions self)).

Definition accept_decision (d : Decision.t V) : MR (list (Decision.t V)) :=
  let slot := Decision.slot d in
  let* _ := readr (λ self, validate_decision (config self) d) in
  let* self := reads (λ self, self) in
  if slot <=? ReplicaCore.checkpointed_through (replica self) then ret []
  else
  let* _ :=
    match decisions self !! slot with
    | Some existing =>
        reject* negb (bool_decide (Decision.value_ids existing = Decision.value_ids d))
          with QuePaxaError.ConflictingDecision slot ;;
        ret tt
    | None =>
        on_replica (ReplicaCore.apply_decision d) ;*
        modify (store_accepted d) ;*
        persist
    end in
  let* delivered := dispatch_committed in
  flush_decision_notifications ;* ret delivered.

Definition receive_decision (d : Decision.t V) : MR (list (Decision.t V)) := accept_decision d.

Definition recover : MR (list (Decision.t V)) :=
  let* delivered := dispatch_committed in
  flush_decision_notifications ;* ret delivered.

(** ** Arming proposals *)

(** The [while let] loop over [next_proposal]: every turn claims a slot and
    takes at least one queued value. *)
Fixpoint arm_proposals (fuel : nat) (changed : bool) : MR bool :=
  match fuel with
  | O => ret changed
  | S fuel =>
      let* claimed := on_replica ReplicaCore.next_proposal in
      match claimed with
      | None => ret changed
      | Some (slot, value_ids) =>
          modify (λ self, set_pending self
            (<[slot := PendingProposal.mk value_ids None None]> (pending self))) ;*
          arm_proposals fuel true
      end
  end.

Definition arm_gap_noop : MR bool :=
  let* self := reads (λ self, self) in
  match noop_value self with
  | None => ret false
  | Some noop =>
      if negb (bool_decide (pending self = ∅)) then ret false
      else
      let* gap := lift (ok_or (SlotIdx.checked_next (ReplicaCore.committed_through (replica self)))
                              QuePaxaError.SlotOverflow) in
      let later_decision_exists := existsb (λ slot, gap <? slot) (keys (decisions self)) in
      let gap_is_open :=
        bool_decide (decisions self !! gap = None)
        && match ReplicaCore.slot (replica self) gap with
           | Some entry => bool_decide (LogSlot.decision entry = None)
                           && is_empty (LogSlot.proposed entry)
           | None => true
           end in
      if negb later_decision_exists || negb gap_is_open then ret false
      else
      on_replica (ReplicaCore.note_proposed gap [noop]) ;*
      modify (λ self, set_pending self
        (<[gap := PendingProposal.mk [noop] None None]> (pending self))) ;*
      ret true
  end.

(** [Instant::checked_add]. *)
Definition instant_add (now delay : Z) : option Z :=
  if now + delay <=? instant_limit (V:=V) (X:=X) then Some (now + delay) else None.

(** [expect] panics when the schedule leaves the local replica out: a panic
    is an error that carries its message. *)
Definition deadline_for (self : t) (schedule : EpochSchedule.t) (now : Z) : Result Z :=
  let? position := ok_or (position (ReplicaRuntimeConfig.replica_id (config self))
                                   (EpochSchedule.proposers schedule))
                     (QuePaxaError.PolicyError "validated schedules include the local replica") in
  reject 2 ^ 32 <=? position
    with QuePaxaError.PolicyError "hedging schedule is too large for a duration" ;;
  let? delay := ok_or (Duration.checked_mul (current_hedge_delay self) position)
                      (QuePaxaError.PolicyError "hedging delay overflowed") in
  ok_or (instant_add now delay) (QuePaxaError.PolicyError "hedging deadline overflowed").

Fixpoint deadlines_for (now : Z) (slots : list SlotIndex) : MR (list (SlotIndex * Z)) :=
  match slots with
  | [] => ret []
  | slot :: slots =>
      let* schedule := ensure_schedule_for slot in
      let* deadline := readr (λ self, deadline_for self schedule now) in
      let* rest := deadlines_for now slots in
      ret ((slot, deadline) :: rest)
  end.

Definition set_ready_at (deadline : Z) (p : PendingProposal.t V) : PendingProposal.t V :=
  PendingProposal.mk (PendingProposal.value_ids p) (Some deadline)
                     (PendingProposal.last_observed_step p).

Definition assign_deadlines (now : Z) : MR unit :=
  let* slots := reads (λ self,
    (filter (λ e, PendingProposal.ready_at e.2 = None) (entries (pending self))).*1) in
  let* deadlines := deadlines_for now slots in
  modify (λ self, set_pending self
    (fold_left (λ pending sd, alter (set_ready_at sd.2) sd.1 pending) deadlines (pending self))).

Definition arm_available (now : Z) : MR Z :=
  let* queued := reads (λ self, ReplicaCore.pending (replica self)) in
  let* changed := arm_proposals (S (length queued)) false in
  let* gap := arm_gap_noop in
  let* _ := if changed || gap then persist else ret tt in
  assign_deadlines now ;*
  reads (λ self, count (pending self)).

(** ** Polling *)

(** [min_by_key]: the first slot with the earliest deadline. *)
Definition next_deadline (self : t) : option (SlotIndex * Z) :=
  fold_left (λ best e,
    match PendingProposal.ready_at e.2 with
    | None => best
    | Some deadline =>
        match best with
        | Some (_, earliest) => if deadline <? earliest then Some (e.1, deadline) else best
        | None => Some (e.1, deadline)
        end
    end) (entries (pending self)) None.

(** The highest step of the slot over the idle endpoints that answer. *)
Fixpoint probe (slot : SlotIndex) (recorders : list ReplicaId) (highest : option Z) (x : X)
    : X * option Z :=
  match recorders with
  | [] => (x, highest)
  | k :: recorders =>
      if endpoint_busy x k then probe slot recorders highest x
      else
      let '(x, r) := aux_call x k (λ x, rpc_status x k slot) in
      let highest :=
        match r with
        | Ok (Some step) =>
            Some match highest with Some current => Z.max current step | None => step end
        | _ => highest
        end in
      probe slot recorders highest x
  end.

Definition probe_slot_step (slot : SlotIndex) : MR (option Z) := λ self,
  let '(x, highest) := probe slot (recorders self) None (world self) in
  (set_world self x, Ok highest).

Definition observes_progress (observed last_observed : option Z) : bool :=
  match observed, last_observed with
  | Some step, None => Step.ROUND_ONE_PHASE_ZERO <=? step
  | Some step, Some previous => previous <? step
  | None, _ => false
  end.

Definition defer_for_progress (slot : SlotIndex) (schedule : EpochSchedule.t) (now : Z)
    : MR bool :=
  let* self := reads (λ self, self) in
  let hedge_delay := current_hedge_delay self in
  if hedge_delay =? 0 then ret false
  else if bool_decide (head (EpochSchedule.proposers schedule)
                       = Some (ReplicaRuntimeConfig.replica_id (config self)))
  then ret false
  else
  let* observed := probe_slot_step slot in
  match pending self !! slot with
  | None => ret false
  | Some p =>
      if observes_progress observed (PendingProposal.last_observed_step p) then
        match instant_add now hedge_delay with
        | Some deadline =>
            modify (λ self, set_pending self
              (<[slot := PendingProposal.mk (PendingProposal.value_ids p) (Some deadline)
                                            observed]> (pending self))) ;*
            ret true
        | None => ret false
        end
      else ret false
  end.

(** [self.proposer.propose(..)] and the observation of its duration. The
    fuel is the proposer's; [None] is an exhausted one. *)
Definition propose (fuel : nat) (slot : SlotIndex) (value_ids : list V) (leader : ReplicaId)
    : MR (option (Decision.t V)) := λ self,
  let started := clock_now (V:=V) (world self) in
  let '(proposer, x, outcome) :=
    ProposerCore.propose network fuel (proposer self) (world self) slot value_ids (Some leader)
                         (recorders self) [] in
  let self := set_world (set_proposer self proposer) x in
  match outcome with
  | None => (self, Ok None)
  | Some (Err e) => (self, Err e)
  | Some (Ok d) =>
      (set_hedge_delay self (HedgeDelayTuner.observe (hedge_delay self)
         (Z.max 0 (clock_now (V:=V) x - started))), Ok (Some d))
  end.

(** The loop of [poll]; every turn that does not return defers one ready
    proposal past [now]. [None] is an exhausted fuel. *)
Fixpoint poll_loop (propose_fuel fuel : nat) (now : Z) : MR (option (RuntimePoll.t V)) :=
  match fuel with
  | O => ret None
  | S fuel =>
      let* self := reads (λ self, self) in
      match next_deadline self with
      | None => ret (Some RuntimePoll.Idle)
      | Some (slot, deadline) =>
          if now <? deadline then ret (Some (RuntimePoll.Waiting slot deadline))
          else
          let* schedule := ensure_schedule_for slot in
          let* deferred := defer_for_progress slot schedule now in
          if deferred : bool then poll_loop propose_fuel fuel now
          else
          let value_ids := match pending self !! slot with
                           | Some p => PendingProposal.value_ids p
                           | None => []
                           end in
          let* decided := propose propose_fuel slot value_ids (EpochSchedule.leader schedule) in
          match decided with
          | None => ret None
          | Some d =>
              let* committed := accept_decision d in
              ret (Some (RuntimePoll.Committed committed))
          end
      end
  end.

Definition poll (propose_fuel : nat) (now : Z) : MR (option (RuntimePoll.t V)) :=
  flush_decision_notifications ;*
  arm_available now ;*
  let* self := reads (λ self, self) in
  poll_loop propose_fuel (S (size (pending self))) now.

Definition run_once (propose_fuel : nat) : MR (option (RuntimePoll.t V)) :=
  let* now := reads (λ self, clock_now (V:=V) (world self)) in
  let* outcome := poll propose_fuel now in
  match outcome with
  | Some (RuntimePoll.Waiting _ until) =>
      modify (λ self,
        let delay := Z.max 0 (until - clock_now (V:=V) (world self)) in
        if delay =? 0 then self else set_world self (sleep (V:=V) (world self) delay)) ;*
      let* now := reads (λ self, clock_now (V:=V) (world self)) in
      poll propose_fuel now
  | _ => ret outcome
  end.

(** ** Checkpoints and state transfer *)

Definition forget_through (slot : SlotIndex) (self : t) : t :=
  let self := set_replica self (ReplicaCore.prune_through (replica self) slot) in
  let self := set_decisions self (retain (λ index, slot <? index) (decisions self)) in
  let self := set_executed self (filter (λ index, slot < index) (executed self)) in
  let self := set_notified self (filter (λ index, slot < index) (notified self)) in
  set_announced_to self (retain (λ index, slot <? index) (announced_to self)).

Definition checkpoint_through (slot : SlotIndex) : MR unit :=
  flush_decision_notifications ;*
  let* self := reads (λ self, self) in
  reject* ReplicaCore.committed_through (replica self) <? slot
    with QuePaxaError.InvalidProposal
           "cannot checkpoint beyond the contiguous committed prefix" ;;
  reject* existsb (λ index, index <=? slot) (keys (pending self))
    with QuePaxaError.InvalidProposal
           "cannot checkpoint a slot with a pending local proposal" ;;
  let* _ := readr (λ self, ensure_fully_announced self slot) in
  modify (forget_through slot) ;*
  persist.

(** [ord] is the order of [V: Ord]: the value IDs are collected through a
    [BTreeSet]. *)
Definition create_state_transfer (ord : relation V) `{!RelDecision ord} (slot : SlotIndex)
    : MR (StateTransferSnapshot.t V) :=
  flush_decision_notifications ;*
  let* _ := readr (λ self, ensure_fully_announced self slot) in
  let* checkpointed_value_ids := reads (λ self,
    merge_sort ord (remove_dups
      ((range_through (decisions self) slot).*2 ≫= Decision.value_ids))) in
  let* application_checkpoint := run_machine (λ e, export_checkpoint e slot) in
  checkpoint_through slot ;*
  reads (λ self, StateTransferSnapshot.mk slot checkpointed_value_ids application_checkpoint
                                          (runtime_snapshot self)).

Definition install_state_transfer (transfer : StateTransferSnapshot.t V) : MR unit :=
  let snapshot := StateTransferSnapshot.runtime transfer in
  reject* negb (StateTransferSnapshot.through transfer
                =? ReplicaSnapshot.checkpointed_through (RuntimeSnapshot.replica snapshot))
    with QuePaxaError.InvalidProposal
           "state-transfer checkpoint does not match the runtime pruning floor" ;;
  let* restored := readr (λ self, restore_runtime_snapshot (config self) snapshot) in
  run_machine (λ e, import_checkpoint e (StateTransferSnapshot.through transfer)
                      (StateTransferSnapshot.application_checkpoint transfer)) ;*
  zoom state_store set_state_store (λ s, runtime_save s snapshot) ;*
  modify (λ self,
    let '(replica, tuner, pending) := restored in
    let self := set_replica self replica in
    let self := set_decisions self (RuntimeSnapshot.decisions snapshot) in
    let self := set_tuner self tuner in
    let self := set_pending self pending in
    let self := set_executed self (RuntimeSnapshot.executed snapshot) in
    let self := set_notified self (RuntimeSnapshot.notified snapshot) in
    set_announced_to self (RuntimeSnapshot.announced_to snapshot)).

(** ** Membership changes *)

(** Every recorder of the next epoch acknowledges, in order. *)
Fixpoint install_recorders (change : MembershipChange.t V) (recorders : list ReplicaId) : MR unit :=
  match recorders with
  | [] => ret tt
  | k :: recorders =>
      zoom world set_world (λ x, aux_call x k (λ x, rpc_install x k change)) ;*
      install_recorders change recorders
  end.

Definition activate (change : MembershipChange.t V) (next_recorders : list ReplicaId) (self : t)
    : t :=
  let next := MembershipChange.next change in
  let active := id_set (ClusterIdentity.members next) in
  let self := set_announced_to self
                ((λ recipients : gset Z, recipients ∩ active) <$> announced_to self) in
  let self := set_config self (ReplicaRuntimeConfig.install_cluster (config self) next) in
  let self := set_proposer self (ProposerCore.configure_cluster (proposer self) next) in
  let self := set_recorders self next_recorders in
  set_tuner self (EpochTuner.reconfigure (tuner self) (ClusterIdentity.members next)
                    (Decision.slot (MembershipChange.anchor change))).

(** The rollback after a failed save. *)
Definition deactivate (before self : t) : t :=
  let self := set_config self (config before) in
  let self := set_proposer self (ProposerCore.configure_cluster (proposer self)
                                   (ReplicaRuntimeConfig.cluster (config self))) in
  let self := set_recorders self (recorders before) in
  let self := set_tuner self (tuner before) in
  set_announced_to self (announced_to before).

Definition install_membership (change : MembershipChange.t V) (next_recorders : list ReplicaId)
    : MR unit :=
  let next := MembershipChange.next change in
  let anchor := MembershipChange.anchor change in
  let* _ := lift (MembershipChange.validate_binding change) in
  let* self := reads (λ self, self) in
  if bool_decide (next = ReplicaRuntimeConfig.cluster (config self)) then
    lift (validate_recorders_for_cluster next next_recorders) ;*
    modify (λ self, set_recorders self next_recorders)
  else
  reject* negb (ClusterIdentity.is_successor_of next (ReplicaRuntimeConfig.cluster (config self)))
    with QuePaxaError.InvalidReconfiguration
           "membership transition does not follow the runtime configuration epoch" ;;
  reject* negb (ReplicaCore.committed_through (replica self) =? Decision.slot anchor)
          || negb (bool_decide (decisions self !! Decision.slot anchor = Some anchor))
          || negb (bool_decide (pending self = ∅))
          || existsb (λ slot, Decision.slot anchor <? slot) (keys (ReplicaCore.log (replica self)))
    with QuePaxaError.InvalidReconfiguration
           "membership changes require an exact committed anchor and a drained pipeline" ;;
  flush_decision_notifications ;*
  let* _ := readr (λ self, ensure_fully_announced self (Decision.slot anchor)) in
  lift (validate_recorders_for_cluster next next_recorders) ;*
  install_recorders change next_recorders ;*
  λ self,
    match persist (activate change next_recorders self) with
    | (self', Err e) => (deactivate self self', Err e)
    | (self', Ok _) => (self', Ok tt)
    end.
End runtime.
Arguments t V {_ _} R St E N X.
End ReplicaRuntime.
