(* ===== verification/RuntimeSteps.v ===== *)
(** * The runtime as a step relation

  Every operation of [Runtime] is a sequence of elementary steps: claiming a
  slot, accepting, executing or announcing a decision, saving, and so on. A
  step carries the conditions under which the code takes it, so that the
  invariants of the runtime are proved by induction on steps, once, and hold
  for every operation on every path, errors included. *)
From S2P Require Import Prelude Errors Types Membership Isr Recorder Durable Proposer Replica.
From S2P Require Import Policy Schedule Runtime.
Import ReplicaRuntime.

(** ** What [propose] decides is about the slot it was asked for *)

Lemma drive_slot {R} `{!PrioritySource R} {V} `{EqDecision V} {X} network fuel
    (self : ProposerCore.t R) (x : X) slot leader recorders quorum known step
    (p : Proposal.t V) self' x' d :
  ProposerCore.drive network fuel self x slot leader recorders quorum known step p
    = (self', x', Some (Ok d)) → Decision.slot d = slot.
Proof.
  revert self x known step p. induction fuel as [|fuel IH]; intros self x known step p; simpl;
    destruct (_ <? step); try done.
  destruct (ProposerCore.phase_requests _ _ _ _ _ _ _) as [self1 [requests|]]; [|done].
  destruct (network x requests) as [x1 io]. destruct (collect_quorum _ _ _ _) as [replies|]; [|done].
  destruct (advance _ _ _ _ _) as [[d'|[step' p']]|] eqn:Ha; [|apply IH|done].
  intros [= _ _ <-]. by eapply advance_slot.
Qed.

Lemma propose_slot {R} `{!PrioritySource R} {V} `{EqDecision V} {X} network fuel
    (self : ProposerCore.t R) (x : X) slot (value_ids : list V) leader recorders known self' x' d :
  ProposerCore.propose network fuel self x slot value_ids leader recorders known
    = (self', x', Some (Ok d)) → Decision.slot d = slot.
Proof.
  unfold ProposerCore.propose. destruct (ProposerCore.prepare _ _ _ _ _) as [[quorum p]|]; [|done].
  apply drive_slot.
Qed.

Section steps.
Context {V : Type} `{Countable V} {R : Type} `{!PrioritySource R}.
Context {St E N X : Type}.
Context `{!RuntimeStateStore V St, !StateMachine V E, !ClientNotifier V N, !RecorderClients V X}.
Implicit Types s : t V R St E N X.

(** ** Elementary steps *)

(** A change of the world that tells nobody anything: a failed or read-only
    RPC, the phases of a proposal, the passing of time. *)
Inductive drift (x : X) : X → Prop :=
| DriftInform k ds : drift x (rpc_inform x k ds).1
| DriftStatus k slot : drift x (rpc_status (V:=V) x k slot).1
| DriftNetwork requests : drift x (network (V:=V) x requests).1
| DriftSleep delay : drift x (sleep (V:=V) x delay).

(** The timing of a pending proposal changed, and nothing else. *)
Definition retimed (pd pd' : gmap Z (PendingProposal.t V)) : Prop :=
  ∀ i, PendingProposal.value_ids <$> pd' !! i = PendingProposal.value_ids <$> pd !! i.

(** All retained decisions below [slot] are in [done]. *)
Definition up_to s (slot : SlotIndex) (done : gset Z) : Prop :=
  ∀ i, i < slot → is_Some (decisions s !! i) → i ∈ done.

Inductive tick s : t V R St E N X → Prop :=
| TickSave : tick s (persist s).1
| TickWorld x : rtc drift (world s) x → tick s (set_world s x)
| TickPropose p h : tick s (set_hedge_delay (set_proposer s p) h)
| TickEnqueue l : tick s (set_replica s (ReplicaCore.enqueue l (replica s)).1)
| TickClaim slot l rp :
    ReplicaCore.next_proposal (replica s) = (rp, Ok (Some (slot, l))) →
    tick s (set_pending (set_replica s rp)
              (<[slot := PendingProposal.mk l None None]> (pending s)))
| TickClaimFail rp e :
    ReplicaCore.next_proposal (replica s) = (rp, Err e) → tick s (set_replica s rp)
| TickNoop gap noop rp :
    ReplicaCore.committed_through (replica s) < gap →
    (∀ entry, ReplicaCore.log (replica s) !! gap = Some entry →
       LogSlot.decision entry = None ∧ LogSlot.proposed entry = []) →
    ReplicaCore.note_proposed gap [noop] (replica s) = (rp, Ok tt) →
    tick s (set_pending (set_replica s rp)
              (<[gap := PendingProposal.mk [noop] None None]> (pending s)))
| TickRetime pd : retimed (pending s) pd → tick s (set_pending s pd)
| TickInstall schedule :
    validate_schedule (config s) schedule = Ok tt →
    tick s (set_tuner s (EpochTuner.install schedule (tuner s)).1)
| TickSchedule epoch : tick s (set_tuner s (EpochTuner.ensure_schedule epoch (tuner s)).1)
| TickNote slot step : tick s (set_tuner s (EpochTuner.note_committed slot step (tuner s)).1)
| TickAccept d rp fresh :
    validate_decision (config s) d = Ok tt →
    ReplicaCore.checkpointed_through (replica s) < Decision.slot d →
    Decision.slot d < U64.MAX ∨ is_Some (pending s !! Decision.slot d) →
    decisions s !! Decision.slot d = None →
    ReplicaCore.apply_decision d (replica s) = (rp, Ok fresh) →
    tick s (store_accepted d (set_replica s rp))
| TickRefuse d rp e :
    Decision.slot d < U64.MAX ∨ is_Some (pending s !! Decision.slot d) →
    ReplicaCore.apply_decision d (replica s) = (rp, Err e) → tick s (set_replica s rp)
| TickAnnounce slot d k x :
    decisions s !! slot = Some d → k ∈ recorders s →
    rpc_inform (world s) k [d] = (x, RecorderHandle.Answered (Ok tt)) →
    tick s (set_announced_to (set_world s x)
              (<[slot := {[k]} ∪ default ∅ (announced_to s !! slot)]> (announced_to s)))
| TickExecute d e :
    decisions s !! Decision.slot d = Some d →
    Decision.slot d ≤ ReplicaCore.committed_through (replica s) →
    Decision.slot d ∉ executed s → up_to s (Decision.slot d) (executed s) →
    execute (state_machine s) d = (e, Ok tt) →
    tick s (set_executed (set_state_machine s e) ({[Decision.slot d]} ∪ executed s))
| TickExecuteFail d e err :
    execute (state_machine s) d = (e, Err err) → tick s (set_state_machine s e)
| TickNotify d n :
    decisions s !! Decision.slot d = Some d → Decision.slot d ∈ executed s →
    Decision.slot d ∉ notified s → up_to s (Decision.slot d) (notified s) →
    notify_committed (notifier s) d = (n, Ok tt) →
    tick s (set_notified (set_notifier s n) ({[Decision.slot d]} ∪ notified s))
| TickNotifyFail d n err :
    notify_committed (notifier s) d = (n, Err err) → tick s (set_notifier s n)
| TickExport slot : tick s (set_state_machine s (export_checkpoint (state_machine s) slot).1)
| TickForget slot :
    slot ≤ ReplicaCore.committed_through (replica s) →
    (∀ i, is_Some (pending s !! i) → slot < i) →
    ensure_fully_announced s slot = Ok tt →
    tick s (forget_through slot s).

(** Decisions are kept under their own slot. *)
Definition keyed s : Prop := ∀ i d, decisions s !! i = Some d → Decision.slot d = i.

Lemma tick_keyed s s' : keyed s → tick s s' → keyed s'.
Proof.
  intros Hk. destruct 1; try done; unfold keyed; simpl.
  - unfold persist. by destruct (runtime_save _ _).
  - intros i d'. rewrite lookup_insert_Some. intros [[<- <-]|[_ ?]]; [done|by apply Hk].
  - intros i d. rewrite lookup_retain. case_match; [apply Hk|done].
Qed.

Lemma ticks_keyed s s' : keyed s → rtc tick s s' → keyed s'.
Proof. intros Hk Ht. induction Ht as [|? ? ? Ht _ IH]; [done|]. by apply IH, (tick_keyed _ _ Hk). Qed.

(** [ticks m]: every run of [m] is a sequence of steps. *)
Definition ticks {A} (m : M (t V R St E N X) QuePaxaError.t A) : Prop :=
  ∀ s, keyed s → rtc tick s (m s).1.

Lemma ticks_bind {A B} (m : M _ _ A) (k : A → M _ _ B) :
  ticks m → (∀ a, ticks (k a)) → ticks (bind m k).
Proof.
  intros Hm Hk s Hs. unfold bind. specialize (Hm s Hs).
  destruct (m s) as [s1 [a|e]]; simpl in Hm; [|done].
  etrans; [exact Hm|]. apply Hk. by eapply ticks_keyed.
Qed.

Lemma ticks_still {A} (m : M _ _ A) : (∀ s, (m s).1 = s) → ticks m.
Proof. intros Hm s _. by rewrite Hm. Qed.

Lemma ticks_persist : ticks persist.
Proof. intros s _. apply rtc_once, TickSave. Qed.

Lemma ticks_on_replica {A} (m : M (ReplicaCore.t V) QuePaxaError.t A) :
  (∀ s, tick s (set_replica s (m (replica s)).1)) → ticks (on_replica m).
Proof.
  intros Hm s _. unfold on_replica, zoom. specialize (Hm s).
  destruct (m (replica s)) as [rp r]. by apply rtc_once.
Qed.

Lemma ticks_on_tuner {A} (m : M EpochTuner.t QuePaxaError.t A) :
  (∀ s, tick s (set_tuner s (m (tuner s)).1)) → ticks (on_tuner m).
Proof.
  intros Hm s _. unfold on_tuner, zoom. specialize (Hm s).
  destruct (m (tuner s)) as [tn r]. by apply rtc_once.
Qed.

Lemma persist_frame s : ∃ st, (persist s).1 = set_state_store s st.
Proof. unfold persist. destruct (runtime_save _ _) as [st r]. by exists st. Qed.

(** ** The endpoints *)

Lemma aux_call_cases {A} (x : X) k (rpc : X → X * RecorderHandle.worker A) x' r :
  aux_call x k rpc = (x', r) →
  (x' = x ∨ x' = (rpc x).1)
  ∧ ∀ a, r = Ok a → rpc x = (x', RecorderHandle.Answered (Ok a)).
Proof.
  unfold aux_call, RecorderHandle.is_idle. simpl.
  destruct (endpoint_busy x k); simpl.
  - intros [= <- <-]. split; [by left|done].
  - destruct (rpc x) as [x1 o]. intros [= <- <-]. split; [by right|].
    intros a Ha. destruct o as [|res| |]; simpl in Ha; try done. by subst.
Qed.

Lemma set_world_same s : set_world s (world s) = s.
Proof. by destruct s. Qed.

(** ** Announcements *)

Lemma announce_ticks slot d s b k :
  decisions s !! slot = Some d → k ∈ recorders s →
  rtc tick s (announce slot d (s, b) k).1
  ∧ decisions (announce slot d (s, b) k).1 = decisions s
  ∧ recorders (announce slot d (s, b) k).1 = recorders s.
Proof.
  intros Hd Hk. unfold announce. case_match; [by split_and!|].
  destruct (aux_call _ _ _) as [x r] eqn:Hcall. apply aux_call_cases in Hcall as [Hx Hok].
  destruct r as [[]|e]; simpl; (split; [|done]).
  - apply rtc_once. by apply (TickAnnounce s slot d k x), Hok.
  - apply rtc_once, TickWorld. destruct Hx as [->| ->]; [done|]. apply rtc_once, DriftInform.
Qed.

Lemma announce_each slot d ks s b :
  decisions s !! slot = Some d → ks ⊆ recorders s →
  let s' := (fold_left (announce slot d) ks (s, b)).1 in
  rtc tick s s' ∧ decisions s' = decisions s ∧ recorders s' = recorders s.
Proof.
  revert s b. induction ks as [|k ks IH]; intros s b Hd Hks; cbn [fold_left]; [by split_and!|].
  destruct (announce_ticks slot d s b k Hd) as (Ht & Hds & Hrs); [apply Hks; left|].
  destruct (announce slot d (s, b) k) as [s1 b1]; simpl in *.
  destruct (IH s1 b1) as (Ht' & Hds' & Hrs'); [congruence|rewrite Hrs; set_solver|].
  rewrite Hds', Hrs'. split_and!; [|done..]. by etrans.
Qed.

Lemma announce_all_ticks s : rtc tick s (announce_all s).1.
Proof.
  unfold announce_all. set (rs := recorders s).
  assert (∀ l s0 b, l ⊆ entries (decisions s0) → recorders s0 = rs →
    rtc tick s0 (fold_left (λ acc sd, fold_left (announce sd.1 sd.2) rs acc) l (s0, b)).1)
    as Hall; last by apply Hall.
  induction l as [|[slot d] l IH]; intros s0 b Hl Hrs; cbn [fold_left fst snd]; [done|].
  assert (decisions s0 !! slot = Some d) as Hd.
  { apply elem_of_entries, Hl. left. }
  destruct (announce_each slot d rs s0 b Hd) as (Ht & Hds & Hrs'); [by rewrite Hrs|].
  destruct (fold_left (announce slot d) rs (s0, b)) as [s1 b1]; simpl in *.
  etrans; [exact Ht|]. apply IH; [|congruence]. rewrite Hds. set_solver.
Qed.

Lemma ticks_flush : ticks flush_decision_notifications.
Proof.
  intros s Hk. unfold flush_decision_notifications. pose proof (announce_all_ticks s) as Ht.
  destruct (announce_all s) as [s1 changed]. simpl in Ht. destruct changed; [|done].
  etrans; [exact Ht|]. apply rtc_once, TickSave.
Qed.

(** Announcing leaves the log and its delivery alone. *)
Definition talks s s' : Prop :=
  ∃ x st an, s' = set_announced_to (set_state_store (set_world s x) st) an.

#[local] Instance talks_preorder : PreOrder talks.
Proof.
  split; [intros s; exists (world s), (state_store s), (announced_to s); by destruct s|].
  intros s1 s2 s3 (x & st & an & ->) (x' & st' & an' & ->). by exists x', st', an'.
Qed.

Lemma announce_talks slot d ks acc : talks acc.1 (fold_left (announce slot d) ks acc).1.
Proof.
  revert acc. induction ks as [|k ks IH]; intros [s b]; cbn [fold_left]; [done|].
  etrans; [|apply IH]. unfold announce. case_match; [done|].
  destruct (aux_call _ _ _) as [x [u|e]]; simpl; eexists x, (state_store s), _; [done|].
  by instantiate (1 := announced_to s); destruct s.
Qed.

Lemma announce_all_talks rs l acc :
  talks acc.1 (fold_left (λ acc sd, fold_left (announce sd.1 sd.2) rs acc) l acc).1.
Proof.
  revert acc. induction l as [|[slot d] l IH]; intros acc; cbn [fold_left fst snd]; [done|].
  etrans; [apply announce_talks|apply IH].
Qed.

Lemma flush_talks s : talks s (flush_decision_notifications s).1.
Proof.
  unfold flush_decision_notifications.
  pose proof (announce_all_talks (recorders s) (entries (decisions s)) (s, false)) as Hp.
  unfold announce_all. destruct (fold_left _ _ _) as [s1 []]; simpl in Hp; [|done].
  etrans; [exact Hp|]. destruct (persist_frame s1) as [st ->].
  exists (world s1), st, (announced_to s1). by destruct s1.
Qed.

(** ** Delivery *)

Lemma ticks_note_stats ds changed : ticks (note_stats ds changed).
Proof.
  revert changed. induction ds as [|d ds IH]; intros changed; simpl; [by apply ticks_still|].
  apply ticks_bind; [|intros noted; apply IH]. apply ticks_on_tuner. intros s. apply TickNote.
Qed.

(** What the delivery loop reads and leaves alone. *)
Definition delivers s s' : Prop :=
  rtc tick s s' ∧ decisions s' = decisions s ∧ replica s' = replica s
  ∧ executed s ⊆ executed s' ∧ notified s ⊆ notified s'.

#[local] Instance delivers_preorder : PreOrder delivers.
Proof.
  split; [by intros s; split_and!|].
  intros s1 s2 s3 (Ht & Hd & Hr & He & Hn) (Ht' & Hd' & Hr' & He' & Hn').
  split_and!; [by etrans|congruence|congruence|by etrans..].
Qed.

Lemma delivers_persist s : delivers s (persist s).1.
Proof.
  split; [apply rtc_once, TickSave|]. unfold persist. by destruct (runtime_save _ _).
Qed.

(** The two halves of an iteration. *)
Lemma execute_half s d :
  decisions s !! Decision.slot d = Some d →
  Decision.slot d ≤ ReplicaCore.committed_through (replica s) →
  Decision.slot d ∉ executed s → up_to s (Decision.slot d) (executed s) →
  let '(s', r) := (run_machine (λ e, execute e d) ;*
     modify (λ self, set_executed self ({[Decision.slot d]} ∪ executed self)) ;*
     persist) s in
  delivers s s' ∧ (r = Ok tt → Decision.slot d ∈ executed s').
Proof.
  intros Hd Hc Hn Hup. unfold run_machine, zoom, bind, modify.
  destruct (execute (state_machine s) d) as [e [[]|err]] eqn:He.
  - set (s1 := set_executed _ _). change (set_executed (set_state_machine s e) _) with s1.
    assert (delivers s s1) as Hs1.
    { split; [apply rtc_once; exact (TickExecute s d e Hd Hc Hn Hup He)|]. unfold s1. simpl. split_and!; try done. set_solver. }
    pose proof (delivers_persist s1) as Hp.
    assert (executed (persist s1).1 = executed s1) as Hex
      by (unfold persist; by destruct (runtime_save _ _)).
    destruct (persist s1) as [s2 r]. split; [by etrans|]. intros _. simpl in Hex. rewrite Hex.
    unfold s1. simpl. set_solver.
  - split; [|done]. split; [by eapply rtc_once, TickExecuteFail|done].
Qed.

Lemma notify_half s d :
  decisions s !! Decision.slot d = Some d → Decision.slot d ∈ executed s →
  Decision.slot d ∉ notified s → up_to s (Decision.slot d) (notified s) →
  let '(s', r) := (run_notifier d ;*
     modify (λ self, set_notified self ({[Decision.slot d]} ∪ notified self)) ;*
     persist ;* ret true) s in
  delivers s s' ∧ (is_ok r = true → Decision.slot d ∈ notified s').
Proof.
  intros Hd Hc Hn Hup. unfold run_notifier, zoom, bind, modify.
  destruct (notify_committed (notifier s) d) as [n [[]|err]] eqn:He.
  - set (s1 := set_notified _ _). change (set_notified (set_notifier s n) _) with s1.
    assert (delivers s s1) as Hs1.
    { split; [apply rtc_once; exact (TickNotify s d n Hd Hc Hn Hup He)|]. unfold s1. simpl. split_and!; try done. set_solver. }
    pose proof (delivers_persist s1) as Hp.
    assert (notified (persist s1).1 = notified s1) as Hex
      by (unfold persist; by destruct (runtime_save _ _)).
    destruct (persist s1) as [s2 [u|e]]; (split; [by etrans|]); [|done].
    intros _. simpl in *. rewrite Hex. unfold s1. simpl. set_solver.
  - split; [|done]. split; [by eapply rtc_once, TickNotifyFail|done].
Qed.

Lemma elem_of_range {A} (m : gmap Z A) w i x :
  (i, x) ∈ range_through m w ↔ m !! i = Some x ∧ i ≤ w.
Proof. unfold range_through. rewrite list_elem_of_filter, elem_of_entries. naive_solver. Qed.

(** The range is visited in increasing slot order. *)
Lemma range_before {A} (m : gmap Z A) w pre i x post j y :
  range_through m w = pre ++ (i, x) :: post → m !! j = Some y → j < i → (j, y) ∈ pre.
Proof.
  intros Hr Hj Hlt.
  assert (StronglySorted key_le (range_through m w)) as Hs.
  { unfold range_through. induction (entries_sorted m) as [|e l Hs IH He]; [constructor|].
    rewrite filter_cons. case_decide; [|done]. constructor; [done|].
    apply Forall_forall. intros e' [_ He']%list_elem_of_filter. rewrite Forall_forall in He. auto. }
  assert (i ≤ w) as Hi.
  { apply (elem_of_range m w i x). rewrite Hr. apply elem_of_app. right. left. }
  assert ((j, y) ∈ range_through m w) as Hin by (apply elem_of_range; split; [done|lia]).
  rewrite Hr in Hin, Hs. apply elem_of_app in Hin as [?|[Heq|Hin]%elem_of_cons]; [done| |].
  - injection Heq as -> _. lia.
  - clear -Hs Hin Hlt. induction pre as [|e pre IH]; simpl in Hs; inversion Hs as [|? ? Hs' Hf];
      subst; [|by apply list_elem_of_further, IH].
    rewrite Forall_forall in Hf. specialize (Hf _ Hin). unfold key_le in Hf. simpl in Hf. lia.
Qed.

Lemma deliver_one_spec s d :
  decisions s !! Decision.slot d = Some d →
  Decision.slot d ≤ ReplicaCore.committed_through (replica s) →
  up_to s (Decision.slot d) (executed s) → up_to s (Decision.slot d) (notified s) →
  let '(s', r) := deliver_one d s in
  delivers s s'
  ∧ (is_ok r = true → Decision.slot d ∈ executed s' ∧ Decision.slot d ∈ notified s').
Proof.
  intros Hd Hc Hx Hn. unfold deliver_one. unfold bind at 1, reads at 1.
  assert (∀ s1, delivers s s1 → Decision.slot d ∈ executed s1 →
    let '(s', r) := (let* told := reads (λ self, bool_decide (Decision.slot d ∈ notified self)) in
      if told : bool then ret false
      else run_notifier d ;*
           modify (λ self, set_notified self ({[Decision.slot d]} ∪ notified self)) ;*
           persist ;* ret true) s1 in
    delivers s s' ∧ (is_ok r = true → Decision.slot d ∈ executed s' ∧ Decision.slot d ∈ notified s'))
    as Hnotify.
  { intros s1 Hs1 Hex. unfold bind at 1, reads at 1.
    destruct (bool_decide (Decision.slot d ∈ notified s1)) eqn:Hb.
    { apply bool_decide_eq_true in Hb. done. }
    apply bool_decide_eq_false in Hb. pose proof Hs1 as (_ & Hds & _ & _ & Hns).
    pose proof (notify_half s1 d) as Hh. rewrite Hds in Hh. specialize (Hh Hd Hex Hb).
    destruct (bind _ _ s1) as [s2 r].
    destruct Hh as [Hdel Hin]; [intros i Hi Hi'; rewrite Hds in Hi'; by apply Hns, Hn|].
    split; [by etrans|]. intros Hr. split; [|by apply Hin]. by apply Hdel. }
  destruct (bool_decide (Decision.slot d ∈ executed s)) eqn:Hb.
  - apply bool_decide_eq_true in Hb. unfold bind at 1, ret at 1. by apply Hnotify.
  - apply bool_decide_eq_false in Hb. pose proof (execute_half s d Hd Hc Hb Hx) as Hh.
    unfold bind at 1. destruct (bind _ _ s) as [s1 [[]|e]]; destruct Hh as [Hdel Hin].
    + by apply Hnotify; [|apply Hin].
    + by split.
Qed.

Lemma deliver_spec s ds pre delivered :
  keyed s →
  range_through (decisions s) (ReplicaCore.committed_through (replica s)) = pre ++ ds →
  (∀ i d, (i, d) ∈ pre → i ∈ executed s ∧ i ∈ notified s) →
  let '(s', r) := deliver ds.*2 delivered s in
  delivers s s'
  ∧ (is_ok r = true → ∀ i d, (i, d) ∈ pre ++ ds → i ∈ executed s' ∧ i ∈ notified s').
Proof.
  revert s pre delivered. induction ds as [|[i d] ds IH]; intros s pre delivered Hk Hr Hpre.
  { simpl. split; [done|]. intros _ i d. rewrite app_nil_r. apply Hpre. }
  cbn [fmap list_fmap snd deliver]. unfold bind at 1.
  assert ((i, d) ∈ range_through (decisions s) (ReplicaCore.committed_through (replica s)))
    as [Hd Hc]%elem_of_range by (rewrite Hr; apply elem_of_app; right; left).
  pose proof (Hk i d Hd) as Hi. subst i.
  pose proof (deliver_one_spec s d Hd Hc) as Hone.
  destruct (deliver_one d s) as [s1 [reported|e]].
  - destruct Hone as [Hdel Hin].
    { intros j Hj [d' Hd']. by apply (Hpre j d'), (range_before _ _ _ _ _ _ _ _ Hr Hd' Hj). }
    { intros j Hj [d' Hd']. by apply (Hpre j d'), (range_before _ _ _ _ _ _ _ _ Hr Hd' Hj). }
    destruct (Hin eq_refl) as [Hex Hno]. pose proof Hdel as (Ht & Hds & Hrp & Hxs & Hns).
    specialize (IH s1 (pre ++ [(Decision.slot d, d)])
                  (if reported then delivered ++ [d] else delivered)).
    rewrite Hds, Hrp, <-!app_assoc in IH. simpl in IH.
    destruct (deliver ds.*2 _ s1) as [s2 r]. destruct IH as [Hdel' Hin'].
    + by eapply ticks_keyed.
    + done.
    + intros j d' [Hj|Hj]%elem_of_app; [destruct (Hpre j d' Hj); split; [by apply Hxs|by apply Hns]|].
      apply list_elem_of_singleton in Hj. by injection Hj as -> ->.
    + split; [by etrans|done].
  - destruct Hone as [Hdel _]; [..|by split].
    + intros j Hj [d' Hd']. by apply (Hpre j d'), (range_before _ _ _ _ _ _ _ _ Hr Hd' Hj).
    + intros j Hj [d' Hd']. by apply (Hpre j d'), (range_before _ _ _ _ _ _ _ _ Hr Hd' Hj).
Qed.

Lemma note_stats_frame ds changed s : ∃ tn, (note_stats ds changed s).1 = set_tuner s tn.
Proof.
  revert changed s. induction ds as [|d ds IH]; intros changed s; simpl.
  { exists (tuner s). by destruct s. }
  unfold bind, on_tuner, zoom. destruct (EpochTuner.note_committed _ _ _) as [tn [noted|e]]; simpl.
  - destruct (IH (changed || noted) (set_tuner s tn)) as [tn' ->]. by exists tn'.
  - by exists tn.
Qed.

(** After an undisturbed dispatch every committed decision that is retained
    has been executed and reported. *)
Lemma dispatch_spec s :
  keyed s →
  let '(s', r) := dispatch_committed s in
  rtc tick s s' ∧ decisions s' = decisions s ∧ replica s' = replica s
  ∧ (is_ok r = true → ∀ i, is_Some (decisions s !! i) →
       i ≤ ReplicaCore.committed_through (replica s) → i ∈ executed s' ∧ i ∈ notified s').
Proof.
  intros Hk. unfold dispatch_committed. unfold bind at 1, reads at 1.
  set (L := range_through _ _). unfold bind at 1.
  pose proof (ticks_note_stats L.*2 false s Hk) as Ht.
  destruct (note_stats_frame L.*2 false s) as [tn Htn].
  destruct (note_stats L.*2 false s) as [s1 [changed|e]]; simpl in *; subst s1; [|by split_and!].
  set (s1 := set_tuner s tn) in *.
  assert (∃ s2 r2, (if changed then persist else ret tt) s1 = (s2, r2) ∧ rtc tick s1 s2
    ∧ decisions s2 = decisions s ∧ replica s2 = replica s) as (s2 & r2 & Hp & Ht2 & Hd2 & Hr2).
  { destruct changed; [|by eexists _, _]. destruct (persist_frame s1) as [st Hst].
    pose proof (TickSave s1) as Hts. destruct (persist s1) as [s2 r2]; simpl in *. subst s2.
    eexists _, _. split; [done|]. split; [by apply rtc_once|done]. }
  unfold bind at 1. rewrite Hp. destruct r2 as [[]|e]; [|split_and!; try done; by etrans].
  pose proof (deliver_spec s2 L [] []) as Hdel. rewrite Hd2, Hr2 in Hdel.
  destruct (deliver L.*2 [] s2) as [s3 r3]. destruct Hdel as [(Ht3 & Hd3 & Hr3 & _) Hall].
  - eapply ticks_keyed, Ht2. by eapply ticks_keyed.
  - done.
  - by intros i d ?%elem_of_nil.
  - split_and!; [|congruence..|].
    + etrans; [exact Ht|]. by etrans.
    + intros Hok i [d Hd] Hi. apply (Hall Hok i d). by apply elem_of_range.
Qed.

Lemma ticks_dispatch : ticks dispatch_committed.
Proof.
  intros s Hk. pose proof (dispatch_spec s Hk) as Hd.
  destruct (dispatch_committed s) as [s' r]. by destruct Hd.
Qed.

Lemma ticks_recover : ticks recover.
Proof.
  apply ticks_bind; [apply ticks_dispatch|]. intros ds.
  apply ticks_bind; [apply ticks_flush|]. intros _. by apply ticks_still.
Qed.

(** Delivery does not change the log. *)
Lemma recover_replica s : keyed s → replica (recover s).1 = replica s.
Proof.
  intros Hk. unfold recover, bind. pose proof (dispatch_spec s Hk) as Hd.
  destruct (dispatch_committed s) as [s1 [ds|e]]; destruct Hd as (_ & _ & Hr & _); [|done].
  destruct (flush_talks s1) as (x & st & an & Hf).
  destruct (flush_decision_notifications s1) as [s2 [u|e]]; simpl in *; by subst s2.
Qed.

Lemma accept_ticks d s :
  keyed s → Decision.slot d < U64.MAX ∨ is_Some (pending s !! Decision.slot d) →
  rtc tick s (accept_decision d s).1.
Proof.
  intros Hk Hfit. unfold accept_decision. unfold bind at 1, readr at 1.
  destruct (validate_decision (config s) d) as [[]|e] eqn:Hv; [|done].
  unfold bind at 1, reads at 1. destruct (Z.leb_spec (Decision.slot d)
    (ReplicaCore.checkpointed_through (replica s))) as [|Hchk]; [done|].
  assert (∀ m : M (t V R St E N X) QuePaxaError.t unit, rtc tick s (m s).1 →
    rtc tick s ((let* _ := m in let* delivered := dispatch_committed in
      flush_decision_notifications ;* ret delivered) s).1) as Hrest.
  { intros m Hm. unfold bind at 1. destruct (m s) as [s1 [u|e]]; simpl in Hm; [|done].
    etrans; [exact Hm|]. apply ticks_recover. by eapply ticks_keyed. }
  apply Hrest. destruct (decisions s !! Decision.slot d) as [existing|] eqn:Hd.
  { by destruct (negb _). }
  unfold bind at 1, on_replica, zoom.
  destruct (ReplicaCore.apply_decision d (replica s)) as [rp [fresh|e]] eqn:Ha.
  - unfold bind, modify. etrans; [apply rtc_once; exact (TickAccept s d rp fresh Hv Hchk Hfit Hd Ha)|].
    apply rtc_once, TickSave.
  - apply rtc_once. exact (TickRefuse s d rp e Hfit Ha).
Qed.

(** ** Arming *)

Lemma set_replica_same s : set_replica s (replica s) = s.
Proof. by destruct s. Qed.

Lemma next_proposal_None (rp rp' : ReplicaCore.t V) :
  ReplicaCore.next_proposal rp = (rp', Ok None) → rp' = rp.
Proof.
  intros [[-> _]|(slot & n & _ & _ & _ & Hr)]%next_proposal_cases; [done|].
  by specialize (Hr eq_refl).
Qed.

Lemma ticks_arm_proposals fuel changed : ticks (arm_proposals fuel changed).
Proof.
  revert changed. induction fuel as [|fuel IH]; intros changed s Hk; simpl; [done|].
  unfold bind at 1, on_replica, zoom.
  destruct (ReplicaCore.next_proposal (replica s)) as [rp [[[slot l]|]|e]] eqn:Hn.
  - unfold bind, modify. set (s1 := set_pending _ _).
    assert (rtc tick s s1) as Ht by (apply rtc_once; exact (TickClaim s slot l rp Hn)).
    etrans; [exact Ht|]. apply IH. by eapply ticks_keyed.
  - apply next_proposal_None in Hn as ->. by rewrite set_replica_same.
  - apply rtc_once. by eapply TickClaimFail.
Qed.

Lemma ticks_arm_gap : ticks arm_gap_noop.
Proof.
  intros s Hk. unfold arm_gap_noop. unfold bind at 1, reads at 1.
  destruct (noop_value s) as [noop|]; [|done]. destruct (negb (bool_decide _)); [done|].
  unfold bind at 1, lift at 1.
  destruct (SlotIdx.checked_next _) as [gap|] eqn:Hgap; simpl; [|done].
  apply U64.checked_add_Some in Hgap as [-> _].
  destruct (existsb _ _); simpl; [|done]. destruct (negb _) eqn:Ho; [done|].
  apply negb_false_iff, andb_true_iff in Ho as [_ Ho].
  unfold bind at 1, on_replica, zoom.
  destruct (ReplicaCore.note_proposed _ [noop] (replica s)) as [rp r] eqn:Hn.
  pose proof Hn as Hcases. apply note_proposed_cases in Hcases as [[-> Hr]|(-> & _)].
  - destruct r; [done|]. simpl. by rewrite set_replica_same.
  - unfold bind, modify, ret. simpl. apply rtc_once. apply TickNoop; [lia| |done].
    intros entry He. unfold ReplicaCore.slot in Ho. rewrite He in Ho.
    by apply andb_true_iff in Ho as [Hd%bool_decide_eq_true Hp%is_empty_spec].
Qed.

Lemma ticks_ensure_schedule slot : ticks (ensure_schedule_for slot).
Proof.
  apply ticks_bind; [by apply ticks_still|]. intros epoch. apply ticks_on_tuner. intros s.
  apply TickSchedule.
Qed.

Lemma ticks_deadlines now slots : ticks (deadlines_for now slots).
Proof.
  induction slots as [|slot slots IH]; simpl; [by apply ticks_still|].
  apply ticks_bind; [apply ticks_ensure_schedule|]. intros schedule.
  apply ticks_bind; [by apply ticks_still|]. intros deadline.
  apply ticks_bind; [done|]. intros rest. by apply ticks_still.
Qed.

Lemma retimed_alter deadlines (pd : gmap Z (PendingProposal.t V)) :
  retimed pd (fold_left (λ pending sd, alter (set_ready_at sd.2) sd.1 pending) deadlines pd).
Proof.
  revert pd. induction deadlines as [|[slot deadline] l IH]; intros pd i; simpl; [done|].
  rewrite IH, lookup_alter. case_decide as Heq; [subst|done]. by destruct (pd !! i).
Qed.

Lemma ticks_assign now : ticks (assign_deadlines now).
Proof.
  apply ticks_bind; [by apply ticks_still|]. intros slots.
  apply ticks_bind; [apply ticks_deadlines|]. intros deadlines s _.
  apply rtc_once. exact (TickRetime s _ (retimed_alter deadlines (pending s))).
Qed.

Lemma ticks_arm_available now : ticks (arm_available now).
Proof.
  apply ticks_bind; [by apply ticks_still|]. intros queued.
  apply ticks_bind; [apply ticks_arm_proposals|]. intros changed.
  apply ticks_bind; [apply ticks_arm_gap|]. intros gap.
  apply ticks_bind; [destruct (changed || gap); [apply ticks_persist|by apply ticks_still]|].
  intros _. apply ticks_bind; [apply ticks_assign|]. intros _. by apply ticks_still.
Qed.

(** ** Polling *)

Lemma next_deadline_Some s slot deadline :
  next_deadline s = Some (slot, deadline) →
  ∃ p, pending s !! slot = Some p ∧ PendingProposal.ready_at p = Some deadline.
Proof.
  unfold next_deadline.
  assert (∀ l best, l ⊆ entries (pending s) →
    (∀ i t, best = Some (i, t) → ∃ p, pending s !! i = Some p
       ∧ PendingProposal.ready_at p = Some t) →
    ∀ i t, fold_left (λ best e,
      match PendingProposal.ready_at e.2 with
      | None => best
      | Some deadline =>
          match best with
          | Some (_, earliest) => if deadline <? earliest then Some (e.1, deadline) else best
          | None => Some (e.1, deadline)
          end
      end) l best = Some (i, t) →
    ∃ p, pending s !! i = Some p ∧ PendingProposal.ready_at p = Some t) as Hall.
  { induction l as [|[j p] l IH]; intros best Hl Hbest i t; simpl; [apply Hbest|].
    assert (pending s !! j = Some p) as Hj by (apply elem_of_entries, Hl; left).
    apply IH; [set_solver|]. destruct (PendingProposal.ready_at p) as [r|] eqn:Hr; [|done].
    destruct best as [[b e]|]; [destruct (r <? e)|].
    - intros ? ? [= <- <-]. by exists p.
    - apply Hbest.
    - intros ? ? [= <- <-]. by exists p. }
  apply Hall; [done|]. done.
Qed.

Lemma probe_drift slot ks highest x : rtc drift x (probe slot ks highest x).1.
Proof.
  revert highest x. induction ks as [|k ks IH]; intros highest x; simpl; [done|].
  destruct (endpoint_busy x k); [apply IH|].
  destruct (aux_call x k _) as [x1 r] eqn:Hc. apply aux_call_cases in Hc as [Hx _].
  etrans; [|apply IH]. destruct Hx as [->| ->]; [done|]. apply rtc_once, DriftStatus.
Qed.

Lemma probe_step_frame slot s :
  ∃ x o, probe_slot_step slot s = (set_world s x, Ok o) ∧ rtc drift (world s) x.
Proof.
  unfold probe_slot_step. pose proof (probe_drift slot (recorders s) None (world s)) as Hd.
  destruct (probe _ _ _ _) as [x o]. by exists x, o.
Qed.

(** Deferring a proposal changes the world and that proposal's timing. *)
Lemma defer_spec slot schedule now s :
  let '(s', r) := defer_for_progress slot schedule now s in
  rtc tick s s' ∧ (r = Ok false → pending s' = pending s) ∧ is_ok r = true.
Proof.
  unfold defer_for_progress. unfold bind at 1, reads at 1.
  destruct (_ =? 0); [by split|]. destruct (bool_decide _); [by split|].
  destruct (probe_step_frame slot s) as (x & o & Hp & Hdr). unfold bind at 1. rewrite Hp.
  assert (rtc tick s (set_world s x)) as Hw by (by apply rtc_once, TickWorld).
  destruct (pending s !! slot) as [p|] eqn:Hpend; [|by split_and!].
  destruct (observes_progress _ _); [|by split_and!].
  destruct (instant_add _ _) as [deadline|]; [|by split_and!].
  unfold bind, modify, ret. simpl. split_and!; [|done..]. etrans; [exact Hw|].
  apply rtc_once. refine (TickRetime (set_world s x) _ _). intros i. simpl.
  rewrite lookup_insert. case_decide as Heq; [subst; by rewrite Hpend|done].
Qed.

Lemma drive_drift fuel (self : ProposerCore.t R) (x : X) slot leader rs quorum
    (known : list (Decision.t V)) step (p : Proposal.t V) :
  rtc drift x (ProposerCore.drive network fuel self x slot leader rs quorum known step p).1.2.
Proof.
  revert self x known step p. induction fuel as [|fuel IH]; intros self x known step p; simpl;
    destruct (_ <? step); try done.
  destruct (ProposerCore.phase_requests _ _ _ _ _ _ _) as [self1 [requests|]]; [|done].
  destruct (network x requests) as [x1 io] eqn:Hn.
  assert (rtc drift x x1) as Hx.
  { apply rtc_once. change x1 with (x1, io).1. rewrite <-Hn. apply DriftNetwork. }
  destruct (collect_quorum _ _ _ _) as [replies|]; [|done].
  destruct (advance _ _ _ _ _) as [[d'|[step' p']]|]; [done| |done].
  etrans; [exact Hx|apply IH].
Qed.

Lemma propose_spec fuel slot value_ids leader s :
  let '(s', r) := propose fuel slot value_ids leader s in
  rtc tick s s' ∧ pending s' = pending s
  ∧ ∀ d, r = Ok (Some d) → Decision.slot d = slot.
Proof.
  unfold propose. set (st := clock_now _).
  pose proof (propose_slot (network (V:=V)) fuel (proposer s) (world s) slot value_ids
    (Some leader) (recorders s) []) as Hslot.
  assert (rtc drift (world s) (ProposerCore.propose network fuel (proposer s) (world s) slot
    value_ids (Some leader) (recorders s) []).1.2) as Hdr.
  { unfold ProposerCore.propose. destruct (ProposerCore.prepare _ _ _ _ _) as [[q p]|]; [|done].
    apply drive_drift. }
  destruct (ProposerCore.propose _ _ _ _ _ _ _ _ _) as [[pr x] o]. simpl in Hdr.
  assert (∀ h, rtc tick s (set_hedge_delay (set_world (set_proposer s pr) x) h)) as Ht.
  { intros h. etrans; [apply rtc_once; exact (TickPropose s pr h)|].
    apply rtc_once. exact (TickWorld (set_hedge_delay (set_proposer s pr) h) x Hdr). }
  destruct o as [[d|e]|]; (split; [|split; [done|]]).
  - apply Ht.
  - intros d' [= <-]. by eapply Hslot.
  - specialize (Ht (hedge_delay s)). by destruct s.
  - done.
  - specialize (Ht (hedge_delay s)). by destruct s.
  - done.
Qed.

Lemma ensure_schedule_frame slot s : ∃ tn, (ensure_schedule_for slot s).1 = set_tuner s tn.
Proof.
  unfold ensure_schedule_for, bind, reads, on_tuner, zoom.
  destruct (EpochTuner.ensure_schedule _ _) as [tn r]. by exists tn.
Qed.

Lemma ticks_poll_loop pf fuel now : ticks (poll_loop pf fuel now).
Proof.
  induction fuel as [|fuel IH]; intros s Hk; simpl; [done|].
  unfold bind at 1, reads at 1. destruct (next_deadline s) as [[slot deadline]|] eqn:Hn; [|done].
  destruct (now <? deadline); [done|]. unfold bind at 1.
  pose proof (ticks_ensure_schedule slot s Hk) as Ht1.
  destruct (ensure_schedule_frame slot s) as [tn Htn].
  destruct (ensure_schedule_for slot s) as [s1 [schedule|e]]; simpl in Ht1, Htn; subst s1; [|done].
  set (s1 := set_tuner s tn) in *. unfold bind at 1.
  pose proof (defer_spec slot schedule now s1) as Hd.
  destruct (defer_for_progress slot schedule now s1) as [s2 [deferred|e]]; [|by destruct Hd as (_&_&?)].
  destruct Hd as (Ht2 & Hp2 & _). assert (rtc tick s s2) as Ht12 by (by etrans).
  destruct deferred; [etrans; [exact Ht12|]; apply IH; by eapply ticks_keyed|].
  specialize (Hp2 eq_refl). unfold bind at 1.
  set (vs := match pending s !! slot with Some _ => _ | None => _ end).
  pose proof (propose_spec pf slot vs (EpochSchedule.leader schedule) s2) as Hpr.
  destruct (propose pf slot vs (EpochSchedule.leader schedule) s2) as [s3 [[d|]|e]];
    destruct Hpr as (Ht3 & Hp3 & Hd); (assert (rtc tick s s3) as Ht by (by etrans)); try done.
  unfold bind. pose proof (accept_ticks d s3) as Ha.
  destruct (accept_decision d s3) as [s4 [ds|e]]; simpl in *; (etrans; [exact Ht|]);
    (apply Ha; [by eapply ticks_keyed|]); right; rewrite (Hd d eq_refl), Hp3, Hp2;
    destruct (next_deadline_Some _ _ _ Hn) as (p & Hp & _); by exists p.
Qed.

Lemma ticks_poll pf now : ticks (poll pf now).
Proof.
  apply ticks_bind; [apply ticks_flush|]. intros _.
  apply ticks_bind; [apply ticks_arm_available|]. intros _.
  apply ticks_bind; [by apply ticks_still|]. intros self. apply ticks_poll_loop.
Qed.

Lemma ticks_run_once pf : ticks (run_once pf).
Proof.
  apply ticks_bind; [by apply ticks_still|]. intros now.
  apply ticks_bind; [apply ticks_poll|]. intros [[|slot until|ds]|]; try by apply ticks_still.
  apply ticks_bind.
  - intros s Hk. unfold modify. simpl. destruct (_ =? 0); [done|].
    apply rtc_once, TickWorld, rtc_once, DriftSleep.
  - intros _. apply ticks_bind; [by apply ticks_still|]. intros now'. apply ticks_poll.
Qed.

(** ** Submission, schedules, checkpoints *)

Lemma ticks_submit l : ticks (submit l).
Proof.
  apply ticks_bind; [|intros _; apply ticks_persist]. apply ticks_on_replica. intros s.
  apply TickEnqueue.
Qed.

Lemma ticks_install_schedule schedule : ticks (install_epoch_schedule schedule).
Proof.
  intros s Hk. unfold install_epoch_schedule. unfold bind at 1, readr at 1.
  destruct (validate_schedule (config s) schedule) as [[]|e] eqn:Hv; [|done].
  unfold bind at 1, on_tuner, zoom. pose proof (TickInstall s schedule Hv) as Ht.
  destruct (EpochTuner.install schedule (tuner s)) as [tn [[]|e]]; simpl in *;
    [|by apply rtc_once..].
  etrans; [by apply rtc_once|]. apply rtc_once, TickSave.
Qed.

Lemma ticks_checkpoint slot : ticks (checkpoint_through slot).
Proof.
  apply ticks_bind; [apply ticks_flush|]. intros _ s Hk. unfold bind at 1, reads at 1.
  destruct (Z.ltb_spec (ReplicaCore.committed_through (replica s)) slot) as [|Hc]; [done|].
  destruct (existsb _ _) eqn:He; [done|]. unfold bind at 1, readr at 1.
  destruct (ensure_fully_announced s slot) as [[]|e] eqn:Ha; [|done].
  unfold bind, modify. etrans; [apply rtc_once, (TickForget s slot); [done| |done]|].
  - intros i Hi. apply existsb_false with (x:=i) in He; [by apply Z.leb_gt in He|].
    by apply elem_of_keys.
  - apply rtc_once, TickSave.
Qed.

Lemma ticks_create_transfer ord `{!RelDecision ord} slot : ticks (create_state_transfer ord slot).
Proof.
  apply ticks_bind; [apply ticks_flush|]. intros _.
  apply ticks_bind; [by apply ticks_still|]. intros _.
  apply ticks_bind; [by apply ticks_still|]. intros ids.
  apply ticks_bind.
  { intros s Hk. unfold run_machine, zoom. pose proof (TickExport s slot) as Ht.
    destruct (export_checkpoint _ _) as [e r]. by apply rtc_once. }
  intros checkpoint. apply ticks_bind; [apply ticks_checkpoint|]. intros _. by apply ticks_still.
Qed.
End steps.
