(* ===== verification/RuntimeInvariant.v ===== *)
(** * What every reachable runtime satisfies

  The invariant of [Runtime], proved by induction on the steps of
  [RuntimeSteps]: the retained decisions are those of the replica's log above
  the checkpoint, pending proposals are the undecided claims, execution and
  notification metadata refer to committed decisions, and the schedules and
  statistics fit the membership. Slot numbers are 64 bits wide; the invariant
  holds as long as the last slot number has not been claimed. *)
From S2P Require Import Prelude Errors Types Membership Isr Recorder Durable Proposer Replica.
From S2P Require Import Policy Schedule Runtime RuntimeSteps.
Import ReplicaRuntime.

(** ** What the replica's operations leave alone *)

Section frames.
Context {V : Type} `{Countable V}.
Implicit Types rp : ReplicaCore.t V.

Definition same_frame rp rp' : Prop :=
  ReplicaCore.config rp' = ReplicaCore.config rp
  ∧ ReplicaCore.checkpointed_through rp' = ReplicaCore.checkpointed_through rp
  ∧ ReplicaCore.last_proposed rp' = ReplicaCore.last_proposed rp.

#[local] Instance same_frame_preorder : PreOrder same_frame.
Proof.
  split; [by intros rp; split_and!|]. intros ? ? ? (?&?&?) (?&?&?). split_and!; congruence.
Qed.

Lemma commit_from_frame fuel acc rp : same_frame rp (ReplicaCore.commit_from fuel acc rp).1.
Proof.
  revert acc rp. induction fuel as [|fuel IH]; intros acc rp; simpl; [done|].
  destruct (ReplicaCore.log rp !! _) as [e|]; [|done].
  destruct (LogSlot.committed e).
  - destruct (SlotIdx.checked_next _); [|done]. etrans; [|apply IH]. by split_and!.
  - destruct (LogSlot.decision e); [|done].
    destruct (SlotIdx.checked_next _); [|by split_and!]. etrans; [|apply IH]. by split_and!.
Qed.

Lemma apply_decision_frame d rp : same_frame rp (ReplicaCore.apply_decision d rp).1.
Proof.
  unfold ReplicaCore.apply_decision, bind, reads, modify, lift, throw, ret.
  destruct (is_empty _); [done|]. destruct (ReplicaCore.repeats _); [done|].
  destruct (_ <? _); [done|]. destruct (ReplicaCore.ensure_log_capacity _ _); [|done].
  assert (same_frame rp (ReplicaCore.store_decision d rp).1) as Hs.
  { unfold ReplicaCore.store_decision, bind, reads, modify, throw, ret.
    destruct (LogSlot.decision _); [by destruct (negb _)|].
    destruct (_ && (_ <? _)); by split_and!. }
  destruct (ReplicaCore.store_decision d rp) as [rp1 [[]|e]]; simpl in *; [|done..].
  etrans; [exact Hs|]. unfold ReplicaCore.commit_ready.
  set (rp2 := ReplicaCore.set_seen _ _).
  pose proof (commit_from_frame (S (size (ReplicaCore.log rp2))) [] rp2) as Hc.
  destruct (ReplicaCore.commit_from _ _ _) as [rp3 o]. simpl in *. etrans; [|exact Hc]. by split_and!.
Qed.

Lemma note_proposed_last slot l rp :
  ReplicaCore.last_proposed rp ≤ ReplicaCore.last_proposed (ReplicaCore.note_proposed slot l rp).1.
Proof.
  destruct (ReplicaCore.note_proposed slot l rp) as [rp' r] eqn:E.
  apply note_proposed_cases in E as [[-> _]|(_ & _ & _ & _ & ->)]; [done|]. simpl. lia.
Qed.

Lemma next_proposal_last rp :
  ReplicaCore.last_proposed rp ≤ ReplicaCore.last_proposed (ReplicaCore.next_proposal rp).1.
Proof.
  destruct (ReplicaCore.next_proposal rp) as [rp' r] eqn:E.
  apply next_proposal_cases in E as [[-> _]|(slot & n & _ & _ & Hn & _)]; [done|].
  pose proof (note_proposed_last slot (take n (ReplicaCore.pending rp))
    (ReplicaCore.set_pending rp (drop n (ReplicaCore.pending rp)))) as Hl. by rewrite Hn in Hl.
Qed.

Lemma enqueue_same l rp :
  let rp' := (ReplicaCore.enqueue l rp).1 in
  same_frame rp rp' ∧ ReplicaCore.log rp' = ReplicaCore.log rp
  ∧ ReplicaCore.next_commit rp' = ReplicaCore.next_commit rp.
Proof.
  destruct (ReplicaCore.enqueue l rp) as [rp' r] eqn:E.
  apply enqueue_cases in E as [[-> _]|(_ & _ & _ & ->)]; by split_and!.
Qed.

(** The committed prefix ends just before the next commit. *)
Lemma committed_through_inv rp :
  replica_inv rp → ReplicaCore.committed_through rp = ReplicaCore.next_commit rp - 1.
Proof.
  intros Hi. unfold ReplicaCore.committed_through, U64.saturating_sub.
  pose proof (ri_checkpoint _ Hi). lia.
Qed.
End frames.

(** ** Schedules and statistics *)

Record tuner_ok (cfg : ReplicaRuntimeConfig.t) (tn : EpochTuner.t) : Prop := {
  to_members : EpochTuner.members tn = ReplicaRuntimeConfig.members cfg;
  to_epoch_size : EpochTuner.epoch_size tn = Z.max (ReplicaRuntimeConfig.epoch_size cfg) 1;
  to_auto : EpochTuner.auto tn = ReplicaRuntimeConfig.auto_schedules cfg;
  to_schedules : ∀ e sch, EpochTuner.schedules tn !! e = Some sch →
    EpochSchedule.epoch sch = e ∧ validate_schedule cfg sch = Ok tt;
  to_stats : ∀ e stat, EpochTuner.stats tn !! e = Some stat →
    EpochStat.leader stat ∈ ReplicaRuntimeConfig.members cfg
    ∧ 0 < EpochStat.slots stat
    ∧ e ≤ EpochTuner.stats_through tn / EpochTuner.epoch_size tn;
}.

Lemma new_tuner_ok cfg :
  tuner_ok cfg (EpochTuner.new (ReplicaRuntimeConfig.epoch_size cfg)
                  (ReplicaRuntimeConfig.members cfg) (ReplicaRuntimeConfig.auto_schedules cfg)).
Proof. split; simpl; done. Qed.

Lemma install_tuner_ok cfg tn schedule :
  validate_schedule cfg schedule = Ok tt → tuner_ok cfg tn →
  tuner_ok cfg (EpochTuner.install schedule tn).1.
Proof.
  intros Hv Ht. unfold EpochTuner.install, bind, reads, throw, ret, modify.
  destruct (EpochTuner.auto tn); [done|].
  destruct (EpochTuner.schedules tn !! _); [by destruct (negb _)|].
  destruct Ht as [Hm Hs Ha Hsch Hst]. split; try done. intros e sch. simpl.
  rewrite lookup_insert_Some. intros [[<- <-]|[_ ?]]; [done|by apply Hsch].
Qed.

Lemma orders_valid cfg e sch :
  orders (ReplicaRuntimeConfig.members cfg) e sch → validate_schedule cfg sch = Ok tt.
Proof.
  intros (_ & Hp & Hnd & _). unfold validate_schedule, repeats_id, id_set.
  rewrite size_list_to_set by done. rewrite Z.eqb_refl. simpl.
  rewrite bool_decide_true; [done|]. by rewrite Hp.
Qed.

(** The leader of a valid schedule is a member. *)
Lemma valid_leader cfg sch :
  ReplicaRuntimeConfig.members cfg ≠ [] → validate_schedule cfg sch = Ok tt →
  EpochSchedule.leader sch ∈ ReplicaRuntimeConfig.members cfg.
Proof.
  intros Hne. unfold validate_schedule. destruct (repeats_id _); [done|].
  destruct (negb (bool_decide _)) eqn:Hb; [done|]. intros _.
  apply negb_false_iff, bool_decide_eq_true in Hb. unfold id_set in Hb.
  unfold EpochSchedule.leader. destruct (EpochSchedule.proposers sch) as [|x l].
  - destruct (ReplicaRuntimeConfig.members cfg) as [|y m]; [done|]. exfalso.
    assert (y ∈ (list_to_set (y :: m) : gset Z)) as Hy by set_solver. rewrite <-Hb in Hy. set_solver.
  - simpl. apply (elem_of_list_to_set (C:=gset Z)). rewrite <-Hb. set_solver.
Qed.

Lemma ensure_schedule_ok cfg tn e :
  tuner_ok cfg tn →
  let '(tn', r) := EpochTuner.ensure_schedule e tn in
  tuner_ok cfg tn' ∧ EpochTuner.stats tn' = EpochTuner.stats tn
  ∧ EpochTuner.stats_through tn' = EpochTuner.stats_through tn
  ∧ ∀ sch, r = Ok sch → validate_schedule cfg sch = Ok tt.
Proof.
  intros Ht. unfold EpochTuner.ensure_schedule, bind, reads, throw, ret, modify, lift.
  destruct (EpochTuner.schedules tn !! e) as [sch|] eqn:He.
  { split_and!; try done. intros ? [= <-]. by eapply (to_schedules cfg tn Ht). }
  destruct (negb _); [by split_and!|].
  destruct (EpochTuner.derive tn e) as [sch|err] eqn:Hd; [|by split_and!].
  apply derive_orders in Hd. rewrite (to_members cfg tn Ht) in Hd.
  pose proof (orders_valid _ _ _ Hd) as Hv. destruct Hd as [Hep _]. split_and!; try done.
  - destruct Ht as [Hm Hs Ha Hsch Hst]. split; try done. intros i sch'. simpl.
    rewrite lookup_insert_Some. intros [[<- <-]|[_ ?]]; [done|by apply Hsch].
  - intros ? [= <-]. done.
Qed.

Lemma retain_tuner_ok cfg tn p q :
  tuner_ok cfg tn →
  tuner_ok cfg (EpochTuner.mk (EpochTuner.epoch_size tn) (EpochTuner.members tn)
    (EpochTuner.auto tn) (retain p (EpochTuner.schedules tn)) (retain q (EpochTuner.stats tn))
    (EpochTuner.stats_through tn)).
Proof.
  intros [Hm Hs Ha Hsch Hst]. split; simpl; try done.
  - intros e sch. rewrite lookup_retain. case_match; [apply Hsch|done].
  - intros e stat. rewrite lookup_retain. case_match; [apply Hst|done].
Qed.

Lemma note_committed_ok cfg tn slot step :
  ReplicaRuntimeConfig.members cfg ≠ [] → tuner_ok cfg tn →
  tuner_ok cfg (EpochTuner.note_committed slot step tn).1.
Proof.
  intros Hne Ht. unfold EpochTuner.note_committed. unfold bind at 1, reads at 1.
  destruct (_ || _); [done|]. destruct (negb _) eqn:Hn; [done|].
  apply negb_false_iff, bool_decide_eq_true in Hn. symmetry in Hn.
  apply U64.checked_add_Some in Hn as [Hslot _].
  unfold bind at 1. set (e := slot / EpochTuner.epoch_size tn).
  pose proof (ensure_schedule_ok cfg tn e Ht) as He.
  destruct (EpochTuner.ensure_schedule e tn) as [tn1 [sch|err]]; [|by destruct He].
  destruct He as (Ht1 & Hst & Hth & Hv). pose proof (valid_leader _ _ Hne (Hv sch eq_refl)) as Hl.
  unfold bind at 1, modify at 1. set (tn2 := EpochTuner.mk _ _ _ _ _ _).
  assert (tuner_ok cfg tn2) as Ht2.
  { destruct Ht1 as [Hm Hs Ha Hsch Hstat]. destruct Ht as [_ Hs0 _ _ Hstat0]. split; try done.
    intros i stat. unfold tn2. simpl. rewrite Hs, <-Hs0.
    assert (0 < EpochTuner.epoch_size tn) by lia. intros Hi.
    apply lookup_insert_Some in Hi as [[<- <-]|[_ Hi]].
    - rewrite Hst. destruct (EpochTuner.stats tn !! e) as [old|] eqn:Ho; simpl.
      + destruct (Hstat0 e old Ho) as (? & ? & _). split_and!; [done| |done].
        unfold U64.saturating_add, U64.MAX. lia.
      + split_and!; [done..|]. done.
    - rewrite Hst in Hi. destruct (Hstat0 i stat Hi) as (? & ? & ?). split_and!; [done..|].
      etrans; [done|]. apply Z.div_le_mono; lia. }
  unfold bind at 1, modify at 1, ret. simpl.
  destruct (U64.checked_sub _ _); [|done]. by apply (retain_tuner_ok cfg tn2).
Qed.

(** ** The invariant *)

Section invariant.
Context {V : Type} `{Countable V}.

(** Stated of the parts it relates, so that the other fields of a runtime do
    not matter. *)
Record parts_ok (cfg : ReplicaRuntimeConfig.t) (rp : ReplicaCore.t V) (rs : list ReplicaId)
    (ds : gmap Z (Decision.t V)) (tn : EpochTuner.t) (pd : gmap Z (PendingProposal.t V))
    (ex nt : gset Z) (an : gmap Z (gset Z)) : Prop := {
  po_members : ReplicaRuntimeConfig.members cfg ≠ [];
  po_pipeline : pipeline_inv rp;
  po_config : ReplicaCore.config rp = ReplicaRuntimeConfig.replica cfg;
  po_floor : ∀ i e, ReplicaCore.log rp !! i = Some e →
    i ≤ ReplicaCore.checkpointed_through rp → i = 0;
  po_decisions : ∀ i, ReplicaCore.checkpointed_through rp < i →
    ds !! i = ReplicaCore.log rp !! i ≫= LogSlot.decision;
  po_valid : ∀ i d, ds !! i = Some d →
    ReplicaCore.checkpointed_through rp < i ∧ validate_decision cfg d = Ok tt;
  po_pending : ∀ i p, pd !! i = Some p →
    ReplicaCore.next_commit rp ≤ i ≤ ReplicaCore.last_proposed rp
    ∧ ∃ e, ReplicaCore.log rp !! i = Some e ∧ LogSlot.decision e = None
        ∧ LogSlot.proposed e = PendingProposal.value_ids p ∧ LogSlot.proposed e ≠ [];
  po_executed : ∀ i, i ∈ ex → is_Some (ds !! i) ∧ i < ReplicaCore.next_commit rp;
  po_notified : nt ⊆ ex;
  po_announced : ∀ i recipients, an !! i = Some recipients →
    is_Some (ds !! i) ∧ recipients ⊆ id_set (ReplicaRuntimeConfig.members cfg);
  po_recorders : id_set rs = id_set (ReplicaRuntimeConfig.members cfg);
  po_tuner : tuner_ok cfg tn;
}.

(** A replica that differs in its queue only. *)
Lemma parts_replica cfg rp rp' rs ds tn pd ex nt an :
  parts_ok cfg rp rs ds tn pd ex nt an → pipeline_inv rp' → same_frame rp rp' →
  ReplicaCore.log rp' = ReplicaCore.log rp →
  ReplicaCore.next_commit rp' = ReplicaCore.next_commit rp →
  parts_ok cfg rp' rs ds tn pd ex nt an.
Proof.
  intros [Hm Hp Hc Hf Hd Hv Hpe Hx Hn Ha Hr Ht] Hp' (Hc' & Hk' & Hl') Hlog Hnc.
  split; rewrite ?Hlog, ?Hnc, ?Hc', ?Hk', ?Hl'; done.
Qed.

(** A slot is claimed: the log gains a proposal at an open slot. *)
Lemma parts_claim cfg rp rs ds tn pd ex nt an slot l :
  parts_ok cfg rp rs ds tn pd ex nt an → pipeline_inv (with_proposed rp slot l) → l ≠ [] →
  ReplicaCore.next_commit rp ≤ slot →
  (∀ e, ReplicaCore.log rp !! slot = Some e → LogSlot.decision e = None) →
  parts_ok cfg (with_proposed rp slot l) rs ds tn
    (<[slot := PendingProposal.mk l None None]> pd) ex nt an.
Proof.
  intros [Hm Hp Hc Hf Hd Hv Hpe Hx Hn Ha Hr Ht] Hp' Hl Hslot Hopen.
  pose proof (ri_checkpoint _ (pi_replica _ Hp)) as Hck.
  split; simpl; try done.
  - intros i e. rewrite lookup_insert_Some. intros [[<- _]|[_ He]]; [lia|by eapply Hf].
  - intros i Hi. rewrite Hd by done. rewrite lookup_insert. case_decide as Heq; [subst|done]. simpl.
    destruct (ReplicaCore.log rp !! i) as [e|] eqn:E; done.
  - intros i p. rewrite lookup_insert_Some. intros [[<- <-]|[Hne Hi]].
    + split; [lia|]. eexists. rewrite lookup_insert_eq. split; [done|]. simpl. split_and!; try done.
      destruct (ReplicaCore.log rp !! slot) as [e|] eqn:E; [by apply Hopen|done].
    + destruct (Hpe i p Hi) as (? & e & ? & ?). split; [lia|]. exists e.
      by rewrite lookup_insert_ne.
Qed.

(** A decision is stored and the run it completes is committed. *)
Lemma parts_accept cfg rp rp' rs ds tn pd ex nt an d fresh :
  parts_ok cfg rp rs ds tn pd ex nt an → validate_decision cfg d = Ok tt →
  ReplicaCore.checkpointed_through rp < Decision.slot d → Decision.slot d < U64.MAX →
  ds !! Decision.slot d = None →
  ReplicaCore.apply_decision d rp = (rp', Ok fresh) →
  parts_ok cfg rp' rs (<[Decision.slot d := d]> ds) tn (delete (Decision.slot d) pd) ex nt
    (<[Decision.slot d := default ∅ (an !! Decision.slot d)]> an)
  ∧ ReplicaCore.next_commit rp ≤ Decision.slot d
  ∧ ReplicaCore.next_commit rp ≤ ReplicaCore.next_commit rp'.
Proof.
  intros [Hm Hp Hc Hf Hd Hv Hpe Hx Hn Ha Hr Ht] Hval Hck Hmax Hnone Happ.
  pose proof (apply_decision_frame d rp) as Hfr. rewrite Happ in Hfr. simpl in Hfr.
  destruct Hfr as (Hc' & Hk' & Hl').
  pose proof (Hd (Decision.slot d) Hck) as Hlog. rewrite Hnone in Hlog.
  apply apply_pipeline in Happ as [[_ [?|[_ [d' Hd']]]]|(fresh' & [= <-] & Hcm & Hpw & _)];
    [done| | |done..].
  { exfalso. destruct (ReplicaCore.log rp !! Decision.slot d); simpl in *; congruence. }
  pose proof (pi_replica _ Hp) as Hri.
  assert (ReplicaCore.next_commit rp ≤ Decision.slot d) as Hge.
  { destruct (Z.le_gt_cases (ReplicaCore.next_commit rp) (Decision.slot d)); [done|exfalso].
    pose proof (ri_committed _ Hri (Decision.slot d) ltac:(lia)) as Hdc.
    unfold ReplicaCore.is_decided_commit in Hdc.
    destruct (ReplicaCore.log rp !! Decision.slot d) as [e|]; [|done]. simpl in Hlog.
    rewrite <-Hlog in Hdc. by rewrite andb_false_r in Hdc. }
  pose proof (cm_next _ _ _ Hcm) as Hnext. simpl in Hnext. pose proof (len_nonneg fresh).
  assert (ReplicaCore.next_commit rp ≤ ReplicaCore.next_commit rp') as Hle by lia.
  split; [|done].
  pose proof (cm_decisions _ _ _ Hcm) as Hdec.
  split; try done.
  - by eapply commits_pipeline.
  - congruence.
  - intros i e He Hi. rewrite Hk' in Hi. specialize (Hdec i). rewrite He in Hdec. simpl in Hdec.
    rewrite lookup_insert_ne in Hdec by lia.
    destruct (ReplicaCore.log rp !! i) as [e0|] eqn:E0; [|done]. by eapply Hf.
  - intros i Hi. rewrite Hk' in Hi. specialize (Hdec i). simpl in Hdec.
    rewrite lookup_insert. rewrite lookup_insert in Hdec. case_decide as Heq.
    + subst i. destruct (ReplicaCore.log rp' !! Decision.slot d); [|done]. simpl in *. congruence.
    + rewrite Hd by done. destruct (ReplicaCore.log rp' !! i), (ReplicaCore.log rp !! i);
        simpl in *; congruence.
  - intros i d'. rewrite Hk', lookup_insert_Some. intros [[<- <-]|[_ Hi]]; [done|by apply Hv].
  - intros i p. rewrite lookup_delete_Some. intros [Hne Hi].
    destruct (Hpe i p Hi) as ([Hi1 Hi2] & e & He & Hed & ?).
    assert (ReplicaCore.log (with_decision rp d) !! i = Some e) as Hw
      by (simpl; by rewrite lookup_insert_ne).
    split; [|exists e; split; [by apply (cm_undecided _ _ _ Hcm)|done]].
    rewrite Hl'. split; [|done].
    destruct (Z.le_gt_cases (ReplicaCore.next_commit rp') i) as [|Hlt]; [done|exfalso].
    assert (i ∈ Decision.slot <$> fresh) as (d' & -> & Hin)%list_elem_of_fmap.
    { rewrite (cm_slots _ _ _ Hcm). apply elem_of_seqZ. simpl. lia. }
    destruct (cm_decided _ _ _ Hcm d' Hin) as (e' & He' & Hde'). congruence.
  - intros i Hi. destruct (Hx i Hi) as [Hs ?]. split; [|lia].
    rewrite lookup_insert. case_decide; [by eexists|done].
  - intros i recipients. rewrite lookup_insert_Some. intros [[<- <-]|[Hne Hi]].
    + rewrite lookup_insert_eq. split; [by eexists|].
      destruct (an !! Decision.slot d) as [rc|] eqn:E; simpl; [by eapply Ha|set_solver].
    + rewrite lookup_insert_ne by done. by eapply Ha.
Qed.

(** A checkpointed prefix is dropped. *)
Lemma parts_forget cfg rp rs ds tn pd ex nt an slot :
  parts_ok cfg rp rs ds tn pd ex nt an → slot ≤ ReplicaCore.committed_through rp →
  (∀ i, is_Some (pd !! i) → slot < i) →
  parts_ok cfg (ReplicaCore.prune_through rp slot) rs (retain (λ index, slot <? index) ds) tn pd
    (filter (λ index, slot < index) ex) (filter (λ index, slot < index) nt)
    (retain (λ index, slot <? index) an).
Proof.
  intros [Hm Hp Hc Hf Hd Hv Hpe Hx Hn Ha Hr Ht] Hslot Hpend.
  pose proof (pi_replica _ Hp) as Hri. rewrite (committed_through_inv _ Hri) in Hslot.
  pose proof (ri_checkpoint _ Hri) as Hck.
  set (rp' := ReplicaCore.prune_through rp slot).
  assert (pipeline_inv rp') as Hp' by (apply (serve_pipeline (OpPruneLog slot) rp rp' Quiet); done).
  assert (ReplicaCore.checkpointed_through rp'
          = Z.max slot (ReplicaCore.checkpointed_through rp)) as Hk'.
  { unfold rp'. simpl. rewrite (committed_through_inv _ Hri). lia. }
  assert (∀ i, ReplicaCore.checkpointed_through rp' < i →
            ReplicaCore.log rp' !! i = ReplicaCore.log rp !! i) as Hlog.
  { intros i Hi. unfold rp'. simpl. destruct (ReplicaCore.log rp !! i) as [e|] eqn:E.
    - apply map_lookup_filter_Some. split; [done|]. right. left. simpl.
      rewrite (committed_through_inv _ Hri). lia.
    - by rewrite map_lookup_filter, E. }
  split; try done.
  - intros i e He Hi. rewrite Hk' in Hi. unfold rp' in He. simpl in He.
    apply map_lookup_filter_Some in He as [He [?|[Hlt|Hun]]]; simpl in *; [done| |].
    { rewrite (committed_through_inv _ Hri) in Hlt. lia. }
    destruct (Z.le_gt_cases i (ReplicaCore.checkpointed_through rp)); [by eapply Hf|].
    pose proof (ri_committed _ Hri i ltac:(lia)) as Hdc. unfold ReplicaCore.is_decided_commit in Hdc.
    by rewrite He, Hun in Hdc.
  - intros i Hi. rewrite Hlog by done. rewrite lookup_retain, (proj2 (Z.ltb_lt _ _)) by lia.
    apply Hd. lia.
  - intros i d. rewrite lookup_retain. destruct (Z.ltb_spec slot i); [|done]. intros Hi.
    destruct (Hv i d Hi). split; [lia|done].
  - intros i p Hi. destruct (Hpe i p Hi) as ([Hi1 Hi2] & e & He & ?). split; [done|].
    exists e. rewrite Hlog; [done|]. lia.
  - intros i [Hlt Hi]%elem_of_filter. rewrite lookup_retain, (proj2 (Z.ltb_lt _ _)) by done.
    by apply Hx.
  - intros i. rewrite !elem_of_filter. set_solver.
  - intros i recipients. rewrite !lookup_retain. destruct (slot <? i); [|done]. apply Ha.
Qed.
End invariant.

Section reachable.
Context {V : Type} `{Countable V} {R : Type} `{!PrioritySource R}.
Context {St E N X : Type}.
Context `{!RuntimeStateStore V St, !StateMachine V E, !ClientNotifier V N, !RecorderClients V X}.
Implicit Types s : t V R St E N X.

Definition runtime_ok s : Prop :=
  parts_ok (config s) (replica s) (recorders s) (decisions s) (tuner s) (pending s)
           (executed s) (notified s) (announced_to s).

(** The highest slot claimed so far: it never goes back. *)
Definition last_claim s : Z := ReplicaCore.last_proposed (replica s).

Lemma tick_last_claim s s' : tick s s' → last_claim s ≤ last_claim s'.
Proof.
  unfold last_claim. destruct 1 as [| | | |slot l rp Hn|rp e Hn|gap noop rp _ _ Hn| | | | |
    d rp fresh _ _ _ _ Ha|d rp e _ Ha| | | | | | |]; simpl; try done.
  - destruct (persist_frame s) as [st ->]. done.
  - destruct (enqueue_same l (replica s)) as ((_ & _ & ->) & _). done.
  - pose proof (next_proposal_last (replica s)) as Hl. by rewrite Hn in Hl.
  - pose proof (next_proposal_last (replica s)) as Hl. by rewrite Hn in Hl.
  - pose proof (note_proposed_last gap [noop] (replica s)) as Hl. by rewrite Hn in Hl.
  - destruct (apply_decision_frame d (replica s)) as (_ & _ & Hl). rewrite Ha in Hl. simpl in Hl. lia.
  - destruct (apply_decision_frame d (replica s)) as (_ & _ & Hl). rewrite Ha in Hl. simpl in Hl. lia.
Qed.

Lemma ticks_last_claim s s' : rtc tick s s' → last_claim s ≤ last_claim s'.
Proof. induction 1 as [|? ? ? Ht _ IH]; [done|]. apply tick_last_claim in Ht. lia. Qed.

Lemma runtime_ok_keyed s : runtime_ok s → keyed s.
Proof.
  intros Hok i d Hd. destruct (po_valid _ _ _ _ _ _ _ _ _ Hok i d Hd) as [Hi _].
  pose proof (po_decisions _ _ _ _ _ _ _ _ _ Hok i Hi) as Hl. rewrite Hd in Hl.
  destruct (ReplicaCore.log (replica s) !! i) as [e|] eqn:He; [|done]. simpl in Hl.
  by eapply (ri_slot _ (pi_replica _ (po_pipeline _ _ _ _ _ _ _ _ _ Hok))).
Qed.

(** A committed slot above the checkpoint is retained. *)
Lemma committed_retained s i :
  runtime_ok s → ReplicaCore.checkpointed_through (replica s) < i
                 < ReplicaCore.next_commit (replica s) →
  is_Some (decisions s !! i).
Proof.
  intros Hok Hi. rewrite (po_decisions _ _ _ _ _ _ _ _ _ Hok i) by lia.
  pose proof (ri_committed _ (pi_replica _ (po_pipeline _ _ _ _ _ _ _ _ _ Hok)) i Hi) as Hdc.
  unfold ReplicaCore.is_decided_commit in Hdc.
  destruct (ReplicaCore.log (replica s) !! i) as [e|]; [|done]. simpl.
  by apply andb_true_iff in Hdc as [_ Hdc%bool_decide_eq_true].
Qed.

(** Claiming the slot [next_proposal] chose. *)
Lemma claim_ok s slot l rp :
  runtime_ok s → ReplicaCore.next_proposal (replica s) = (rp, Ok (Some (slot, l))) →
  parts_ok (config s) rp (recorders s) (decisions s) (tuner s)
    (<[slot := PendingProposal.mk l None None]> (pending s)) (executed s) (notified s)
    (announced_to s).
Proof.
  intros Hok Hn. pose proof (po_pipeline _ _ _ _ _ _ _ _ _ Hok) as Hp.
  pose proof (serve_pipeline OpNextProposal (replica s) rp (Claimed slot l) Hp I) as Hp'.
  simpl in Hp'. rewrite Hn in Hp'. specialize (Hp' eq_refl).
  apply next_proposal_cases in Hn as [[_ [?|?]]|(sl & n & Ho & _ & Hnote & Heq)]; [done..|].
  specialize (Heq eq_refl). injection Heq as <- ->.
  apply note_proposed_cases in Hnote as [[_ ?]|(_ & Hl & _ & _ & ->)]; [done|].
  pose proof (next_open_slot_free _ _ Ho) as Hfree. unfold taken in Hfree.
  apply (parts_claim _ (ReplicaCore.set_pending (replica s) _)); try done.
  - eapply parts_replica; [done| | | |]; try done.
    destruct Hp as [Hr Hlast Hcom]. split; [by apply drop_pending_inv|done..].
  - simpl. destruct (Z.le_gt_cases (ReplicaCore.next_commit (replica s)) slot); [done|].
    exfalso. apply Hfree. by left.
  - simpl. intros e He. destruct (LogSlot.decision e) as [d|] eqn:Hd; [|done].
    exfalso. apply Hfree. right. exists e. split; [done|]. apply is_claimed_iff. left. by eexists.
Qed.

Lemma tick_ok s s' : runtime_ok s → tick s s' → last_claim s' < U64.MAX → runtime_ok s'.
Proof.
  intros Hok Ht Hmax. pose proof (tick_last_claim s s' Ht) as Hmono.
  pose proof (po_pipeline _ _ _ _ _ _ _ _ _ Hok) as Hp.
  assert (∀ d : Decision.t V, Decision.slot d < U64.MAX ∨ is_Some (pending s !! Decision.slot d) →
            Decision.slot d < U64.MAX) as Hfit.
  { intros d [?|[p Hi]]; [done|]. destruct (po_pending _ _ _ _ _ _ _ _ _ Hok _ _ Hi) as [? _].
    unfold last_claim in *. lia. }
  destruct Ht as [| | |l|slot l rp Hn|rp e Hn|gap noop rp Hgap Hopen Hn|pd Hre|sch Hv|epoch|slot step|
    d rp fresh Hv Hck Hf Hd Ha|d rp e Hf Ha|slot d k x Hd Hk Hrpc|d e Hd Hc Hnx Hup He| |
    d n Hd Hx Hnn Hup Hno| | |slot Hslot Hpend Hann]; try done.
  - destruct (persist_frame s) as [st ->]. exact Hok.
  - destruct (enqueue_same l (replica s)) as (Hfr & Hlog & Hnc).
    eapply parts_replica; [exact Hok| |done..].
    pose proof (serve_pipeline (OpEnqueue l) (replica s)) as Hs. simpl in Hs. simpl.
    destruct (ReplicaCore.enqueue l (replica s)) as [rp [u|e]]; by eapply Hs.
  - exact (claim_ok s slot l rp Hok Hn).
  - pose proof (serve_pipeline OpNextProposal (replica s) rp (Failed e) Hp I) as Hp'.
    simpl in Hp'. rewrite Hn in Hp'. specialize (Hp' eq_refl).
    apply next_proposal_cases in Hn as [[-> _]|(sl & n & _ & _ & Hnote & _)]; [exact Hok|].
    apply note_proposed_cases in Hnote as [[-> _]|([=] & _)].
    by eapply parts_replica; [exact Hok| |..].
  - apply note_proposed_cases in Hn as [[_ ?]|(_ & Hl & Hsz & Hcap & ->)]; [done|].
    apply parts_claim; try done.
    + apply with_proposed_pipeline; [done|]. by apply with_proposed_inv; [apply Hp|..].
    + rewrite (committed_through_inv _ (pi_replica _ Hp)) in Hgap. lia.
    + intros e He. by apply Hopen.
  - destruct Hok as [Hm Hp' Hc Hfl Hd Hv Hpe Hx Hno Han Hr Htu]. split; try done.
    intros i p Hi. specialize (Hre i). simpl in Hi. rewrite Hi in Hre. simpl in Hre.
    destruct (pending s !! i) as [p0|] eqn:Eq; [|done]. injection Hre as Hre. rewrite Hre.
    by apply Hpe.
  - destruct Hok as [Hm Hp' Hc Hfl Hd Hv' Hpe Hx Hno Han Hr Htu]. split; try done.
    by apply install_tuner_ok.
  - destruct Hok as [Hm Hp' Hc Hfl Hd Hv' Hpe Hx Hno Han Hr Htu]. split; try done. simpl.
    pose proof (ensure_schedule_ok (config s) (tuner s) epoch Htu) as He.
    destruct (EpochTuner.ensure_schedule epoch (tuner s)) as [tn r]. by destruct He.
  - destruct Hok as [Hm Hp' Hc Hfl Hd Hv' Hpe Hx Hno Han Hr Htu]. split; try done.
    by apply note_committed_ok.
  - by apply (parts_accept _ _ _ _ _ _ _ _ _ _ _ _ Hok Hv Hck (Hfit d Hf) Hd Ha).
  - apply apply_pipeline in Ha as [[-> _]|(? & ? & _)]; [exact Hok|done..|by apply Hfit].
  - destruct Hok as [Hm Hp' Hc Hfl Hde Hv' Hpe Hx Hno Han Hr Htu]. split; try done. simpl.
    intros i rc. rewrite lookup_insert_Some. intros [[<- <-]|[_ Hi]]; [|by eapply Han].
    split; [by eexists|]. apply union_subseteq. split.
    + apply singleton_subseteq_l. rewrite <-Hr. by apply elem_of_list_to_set.
    + destruct (announced_to s !! slot) as [rc|] eqn:Eq; simpl; [by eapply Han|set_solver].
  - destruct Hok as [Hm Hp' Hcf Hfl Hde Hv' Hpe Hx Hno Han Hr Htu]. split; try done; simpl.
    + intros i [->%elem_of_singleton|Hi]%elem_of_union; [|by apply Hx].
      rewrite (committed_through_inv _ (pi_replica _ Hp)) in Hc. split; [by eexists|lia].
    + set_solver.
  - destruct Hok as [Hm Hp' Hcf Hfl Hde Hv' Hpe Hex Hnt Han Hr Htu]. split; try done; simpl.
    set_solver.
  - by apply parts_forget.
Qed.

Lemma ticks_ok s s' : runtime_ok s → rtc tick s s' → last_claim s' < U64.MAX → runtime_ok s'.
Proof.
  intros Hok Ht. induction Ht as [|s1 s2 s3 Ht Hts IH]; [done|]. intros Hmax.
  pose proof (ticks_last_claim _ _ Hts). apply IH; [|done]. eapply tick_ok; [done..|lia].
Qed.

(** A runtime that starts on an empty store. *)
Lemma fresh_ok cfg proposer rs st (e : E) (n : N) (x : X) st' s :
  config_ok (ReplicaRuntimeConfig.replica cfg) → ReplicaRuntimeConfig.members cfg ≠ [] →
  runtime_load (V:=V) st = (st', Ok None) →
  new (R:=R) cfg proposer rs st e n x = Ok s → runtime_ok s ∧ executed s = ∅ ∧ state_machine s = e.
Proof.
  intros Hc Hm Hl. unfold new. rewrite Hl. unfold validate_recorders.
  destruct (repeats_id _); simpl; [done|].
  destruct (negb (bool_decide _)) eqn:Hr; simpl; [done|].
  apply negb_false_iff, bool_decide_eq_true in Hr. destruct (_ || _); simpl; [done|].
  set (s0 := ReplicaRuntime.mk _ _ _ _ _ _ _ _ _ _ _ _ _ _ _ _).
  destruct (validate_restored_state s0) as [u|]; simpl; [|done]. intros [= <-].
  split; [|done]. split; simpl; try done.
  - by apply new_pipeline_inv.
  - intros i e' He _. by apply lookup_singleton_Some in He as [<- _].
  - intros i Hi. rewrite lookup_empty, lookup_singleton_ne by (unfold SlotIdx.GENESIS in *; lia). done.
Qed.

(** ** Operations *)

Context (ord : relation V) `{!RelDecision ord}.

(** The entry points of a running runtime, but for the two that replace its
    configuration or its whole state: those are [install_membership]
    ([Reconfigure]) and [install_state_transfer] ([Restart]), and [RuntimeLife]
    puts all together. *)
Inductive runtime_op : Type :=
| OpSubmit (value_ids : list V)
| OpSchedule (schedule : EpochSchedule.t)
| OpReceive (d : Decision.t V)
| OpRecover
| OpArm (now : Z)
| OpPoll (propose_fuel : nat) (now : Z)
| OpRunOnce (propose_fuel : nat)
| OpFlush
| OpCheckpoint (slot : SlotIndex)
| OpTransfer (slot : SlotIndex).

(** The last slot number cannot be received: committing it overflows. *)
Definition op_fits (op : runtime_op) : Prop :=
  match op with OpReceive d => Decision.slot d < U64.MAX | _ => True end.

Definition run_op (op : runtime_op) s : t V R St E N X :=
  match op with
  | OpSubmit l => (submit l s).1
  | OpSchedule schedule => (install_epoch_schedule schedule s).1
  | OpReceive d => (receive_decision d s).1
  | OpRecover => (recover s).1
  | OpArm now => (arm_available now s).1
  | OpPoll fuel now => (poll fuel now s).1
  | OpRunOnce fuel => (run_once fuel s).1
  | OpFlush => (flush_decision_notifications s).1
  | OpCheckpoint slot => (checkpoint_through slot s).1
  | OpTransfer slot => (create_state_transfer ord slot s).1
  end.

Definition run_ops (ops : list runtime_op) s : t V R St E N X := fold_left (λ s op, run_op op s) ops s.

Lemma run_op_ticks op s : keyed s → op_fits op → rtc tick s (run_op op s).
Proof.
  destruct op as [l|sch|d| |now|pf now|pf| |slot|slot]; simpl; intros Hk Hf.
  - by apply ticks_submit.
  - by apply ticks_install_schedule.
  - apply accept_ticks; [done|by left].
  - by apply ticks_recover.
  - by apply ticks_arm_available.
  - by apply ticks_poll.
  - by apply ticks_run_once.
  - by apply ticks_flush.
  - by apply ticks_checkpoint.
  - by apply ticks_create_transfer.
Qed.

Lemma run_ops_ticks ops s : keyed s → Forall op_fits ops → rtc tick s (run_ops ops s).
Proof.
  intros Hk Hf. revert s Hk. induction Hf as [|op ops Hop _ IH]; intros s Hk; simpl; [done|].
  pose proof (run_op_ticks op s Hk Hop) as Ht. etrans; [exact Ht|]. apply IH. by eapply ticks_keyed.
Qed.

Lemma run_ops_ok ops s :
  runtime_ok s → Forall op_fits ops → last_claim (run_ops ops s) < U64.MAX →
  runtime_ok (run_ops ops s).
Proof.
  intros Hok Hf. eapply ticks_ok; [exact Hok|]. by apply run_ops_ticks; [apply runtime_ok_keyed|].
Qed.
End reachable.
