(* ===== verification/Delivery.v ===== *)
(** * Execution in log order

  What the application behind a runtime sees. The state machine is wrapped in
  one that keeps the list of the decisions it executed; along any sequence of
  operations, failures of the application, the store and the endpoints
  included, that list is strictly increasing in slots, holds decisions of the
  log, and has no gap above the checkpoint. *)
From S2P Require Import Prelude Errors Types Membership Isr Recorder Durable Proposer Replica.
From S2P Require Import Policy Schedule Runtime RuntimeSteps RuntimeInvariant.
Import ReplicaRuntime.

(** ** A state machine and a notifier that remember *)

#[export] Instance logged_machine {V E} `{!StateMachine V E}
    : StateMachine V (E * list (Decision.t V)) := {|
  execute := λ '(e, l) d,
    let '(e, r) := execute e d in ((e, if is_ok r then l ++ [d] else l), r);
  export_checkpoint := λ '(e, l) slot,
    let '(e, r) := export_checkpoint e slot in ((e, l), r);
  import_checkpoint := λ '(e, l) slot bytes,
    let '(e, r) := import_checkpoint e slot bytes in ((e, l), r);
|}.

Section delivery.
Context {V : Type} `{Countable V} {R : Type} `{!PrioritySource R}.
Context {St E N X : Type}.
Context `{!RuntimeStateStore V St, !StateMachine V E, !ClientNotifier V N, !RecorderClients V X}.
Implicit Types s : t V R St (E * list (Decision.t V)) N X.

(** The decisions executed so far, oldest first. *)
Definition history s : list (Decision.t V) := (state_machine s).2.
Definition history_slots s : list Z := Decision.slot <$> history s.

(** [im] are the slots that an installed state transfer marked executed: they
    are in the application checkpoint it carried. *)
Record in_order (im : gset Z) s : Prop := {
  io_sorted : StronglySorted Z.lt (history_slots s);
  io_known : ∀ d, d ∈ history s →
    Decision.slot d ≤ ReplicaCore.checkpointed_through (replica s)
    ∨ (Decision.slot d ∈ executed s ∧ decisions s !! Decision.slot d = Some d);
  io_logged : ∀ i, i ∈ executed s → i ∈ history_slots s ∨ i ∈ im;
  io_prefix : ∀ i j, i ∈ executed s → is_Some (decisions s !! j) → j < i → j ∈ executed s;
}.

Lemma sorted_snoc (l : list Z) x :
  StronglySorted Z.lt l → (∀ y, y ∈ l → y < x) → StronglySorted Z.lt (l ++ [x]).
Proof.
  intros Hs Hx. induction Hs as [|y l Hs IH Hy]; simpl.
  - repeat constructor.
  - constructor; [apply IH; set_solver|]. apply Forall_app. split; [done|].
    apply Forall_singleton, Hx. left.
Qed.

(** A step that touches none of the parts involved. *)
Lemma in_order_frame im s s' :
  history s' = history s → replica s' = replica s → executed s' = executed s →
  decisions s' = decisions s → in_order im s → in_order im s'.
Proof.
  intros Hh Hr Hx Hd [Hs Hk Hl Hp].
  by split; unfold history_slots in *; rewrite ?Hh, ?Hr, ?Hx, ?Hd in *.
Qed.

(** A step of the replica that keeps its checkpoint. *)
Lemma in_order_replica im s rp pd :
  ReplicaCore.checkpointed_through rp = ReplicaCore.checkpointed_through (replica s) →
  in_order im s → in_order im (set_pending (set_replica s rp) pd).
Proof. intros Hc [Hs Hk Hl Hp]. split; simpl; rewrite ?Hc; done. Qed.

Lemma next_proposal_checkpoint (rp rp' : ReplicaCore.t V) r :
  ReplicaCore.next_proposal rp = (rp', r) →
  ReplicaCore.checkpointed_through rp' = ReplicaCore.checkpointed_through rp.
Proof.
  intros [[-> _]|(slot & n & _ & _ & Hn & _)]%next_proposal_cases; [done|].
  by apply note_proposed_cases in Hn as [[-> _]|(_ & _ & _ & _ & ->)].
Qed.

(** The decision to execute next lies above everything executed. *)
Lemma above_history im s d :
  runtime_ok s → in_order im s → decisions s !! Decision.slot d = Some d →
  Decision.slot d ∉ executed s → ∀ i, i ∈ history_slots s → i < Decision.slot d.
Proof.
  intros Hok Hio Hd Hn i (d' & -> & Hd')%list_elem_of_fmap.
  destruct (po_valid _ _ _ _ _ _ _ _ _ Hok _ _ Hd) as [Hck _].
  destruct (io_known _ _ Hio d' Hd') as [|[Hx _]]; [lia|].
  destruct (Z.lt_trichotomy (Decision.slot d') (Decision.slot d)) as [|[Heq|Hgt]]; [done|..].
  - by rewrite Heq in Hx.
  - destruct Hn. by eapply (io_prefix _ _ Hio); [|eexists|].
Qed.

Lemma execute_in_order im s d e :
  runtime_ok s → in_order im s → decisions s !! Decision.slot d = Some d →
  Decision.slot d ∉ executed s → up_to s (Decision.slot d) (executed s) →
  execute (state_machine s) d = (e, Ok tt) →
  in_order im (set_executed (set_state_machine s e) ({[Decision.slot d]} ∪ executed s)).
Proof.
  intros Hok Hio Hd Hn Hup He. pose proof (above_history im s d Hok Hio Hd Hn) as Habove.
  assert (e.2 = history s ++ [d]) as Hh.
  { unfold history. destruct (state_machine s) as [e0 l]. simpl in *.
    destruct (execute e0 d) as [e1 r]. by injection He as <- ->. }
  destruct Hio as [Hs Hk Hl Hp]. split; unfold history_slots, history in *; simpl; rewrite ?Hh.
  - rewrite fmap_app. by apply sorted_snoc.
  - intros d' [Hd'|Hd']%elem_of_app.
    + destruct (Hk d' Hd') as [|[]]; [by left|]. right. split; [set_solver|done].
    + apply list_elem_of_singleton in Hd' as ->. right. split; [set_solver|done].
  - intros i [->%elem_of_singleton|Hi]%elem_of_union; rewrite fmap_app, elem_of_app.
    + left. right. by left.
    + destruct (Hl i Hi); [left; by left|by right].
  - intros i j [->%elem_of_singleton|Hi]%elem_of_union Hj Hlt; apply elem_of_union; right.
    + by apply Hup.
    + by eapply Hp.
Qed.

Lemma accept_in_order im s d rp fresh :
  runtime_ok s → in_order im s → validate_decision (config s) d = Ok tt →
  ReplicaCore.checkpointed_through (replica s) < Decision.slot d → Decision.slot d < U64.MAX →
  decisions s !! Decision.slot d = None →
  ReplicaCore.apply_decision d (replica s) = (rp, Ok fresh) →
  in_order im (store_accepted d (set_replica s rp)).
Proof.
  intros Hok [Hs Hk Hl Hp] Hv Hck Hmax Hd Ha.
  destruct (parts_accept _ _ _ _ _ _ _ _ _ _ _ _ Hok Hv Hck Hmax Hd Ha) as (_ & Hge & _).
  pose proof (apply_decision_frame d (replica s)) as Hfr. rewrite Ha in Hfr.
  destruct Hfr as (_ & Hc & _). simpl in Hc.
  split; simpl; try done.
  - intros d' Hd'. rewrite Hc. destruct (Hk d' Hd') as [|[Hx Hds]]; [by left|right].
    split; [done|]. rewrite lookup_insert_ne; [done|]. intros Heq. by rewrite <-Heq, Hd in Hds.
  - intros i j Hi Hj Hlt. destruct (po_executed _ _ _ _ _ _ _ _ _ Hok i Hi) as [_ Hic].
    rewrite lookup_insert_ne in Hj by lia. by eapply Hp.
Qed.

Lemma forget_in_order im s slot :
  slot ≤ ReplicaCore.committed_through (replica s) → in_order im s → in_order im (forget_through slot s).
Proof.
  intros Hslot [Hs Hk Hl Hp]. split; simpl; try done.
  - intros d Hd. rewrite elem_of_filter, lookup_retain.
    destruct (Z.ltb_spec slot (Decision.slot d)).
    + destruct (Hk d Hd) as [|[]]; [left; lia|by right].
    + left. lia.
  - intros i [_ Hi]%elem_of_filter. by apply Hl.
  - intros i j [Hi Hx]%elem_of_filter. rewrite lookup_retain, elem_of_filter.
    destruct (Z.ltb_spec slot j); [|by intros []%is_Some_None].
    intros Hj Hlt. split; [done|]. by eapply Hp.
Qed.

Lemma tick_in_order im s s' :
  runtime_ok s → tick s s' → last_claim s' < U64.MAX → in_order im s → in_order im s'.
Proof.
  intros Hok Ht Hmax Hio. pose proof (tick_last_claim s s' Ht) as Hmono.
  destruct Ht as [| | |l|slot l rp Hn|rp e Hn|gap noop rp Hgap Hopen Hn|pd Hre|sch Hv|epoch|slot step|
    d rp fresh Hv Hck Hf Hd Ha|d rp e Hf Ha|slot d k x Hd Hk Hrpc|d e Hd Hc Hnx Hup He|d e err He|
    d n Hd Hx Hnn Hup Hno| |slot|slot Hslot Hpend Hann];
    try (by apply (in_order_frame im s)).
  - destruct (persist_frame s) as [st ->]. by apply (in_order_frame im s).
  - apply (in_order_replica im s _ (pending s)); [|done].
    by destruct (enqueue_same l (replica s)) as ((_ & Hck & _) & _).
  - apply in_order_replica; [by eapply next_proposal_checkpoint|done].
  - apply (in_order_replica im s _ (pending s)); [by eapply next_proposal_checkpoint|done].
  - apply in_order_replica; [|done].
    apply note_proposed_cases in Hn as [[_ ?]|(_ & _ & _ & _ & ->)]; done.
  - apply (accept_in_order im s d rp fresh); try done. destruct Hf as [|[p Hp]]; [done|].
    destruct (po_pending _ _ _ _ _ _ _ _ _ Hok _ _ Hp) as [? _]. unfold last_claim in *. lia.
  - apply (in_order_replica im s _ (pending s)); [|done].
    pose proof (apply_decision_frame d (replica s)) as Hfr. rewrite Ha in Hfr. by destruct Hfr as (_&?&_).
  - by apply execute_in_order.
  - apply (in_order_frame im s); try done. unfold history. simpl.
    destruct (state_machine s) as [e0 l]. simpl in *. destruct (execute e0 d) as [e1 r].
    by injection He as <- ->.
  - apply (in_order_frame im s); try done. unfold history. simpl.
    destruct (state_machine s) as [e0 l]. simpl. by destruct (export_checkpoint e0 slot).
  - by apply forget_in_order.
Qed.

Lemma ticks_in_order im s s' :
  runtime_ok s → rtc tick s s' → last_claim s' < U64.MAX → in_order im s → in_order im s'.
Proof.
  intros Hok Ht. induction Ht as [|s1 s2 s3 Ht Hts IH]; [done|]. intros Hmax Hio.
  pose proof (ticks_last_claim _ _ Hts).
  apply IH; [eapply tick_ok|..|eapply tick_in_order]; try done; lia.
Qed.

(** ** An undisturbed delivery is complete *)

(** Every committed slot above the checkpoint was executed and reported. *)
Definition all_delivered s : Prop :=
  ∀ i, ReplicaCore.checkpointed_through (replica s) < i
       ≤ ReplicaCore.committed_through (replica s) →
  i ∈ history_slots s ∧ i ∈ executed s ∧ i ∈ notified s.

Lemma recover_complete s s' ds :
  runtime_ok s → in_order ∅ s → last_claim s' < U64.MAX → recover s = (s', Ok ds) → all_delivered s'.
Proof.
  intros Hok Hio Hmax Hr.
  pose proof (ticks_recover s (runtime_ok_keyed _ Hok)) as Ht. rewrite Hr in Ht. simpl in Ht.
  pose proof (ticks_in_order _ _ _ Hok Ht Hmax Hio) as Hio'.
  unfold recover, bind at 1 in Hr. pose proof (dispatch_spec s (runtime_ok_keyed _ Hok)) as Hd.
  destruct (dispatch_committed s) as [s1 [ds1|]]; [|done]. destruct Hd as (_ & _ & Hrp & Hall).
  pose proof (flush_talks s1) as (x & st & an & Hfl). unfold bind in Hr.
  destruct (flush_decision_notifications s1) as [s2 [u|]]; [|done]. injection Hr as <- _.
  simpl in *. subst s2. intros i. simpl. rewrite Hrp. intros [Hck Hc].
  pose proof (pi_replica _ (po_pipeline _ _ _ _ _ _ _ _ _ Hok)) as Hri.
  destruct (Hall eq_refl i) as [Hx Hn]; [|done|].
  - apply committed_retained; [done|]. rewrite (committed_through_inv _ Hri) in Hc. lia.
  - split_and!; [by destruct (io_logged _ _ Hio' i Hx)|done..].
Qed.

Lemma accept_complete s d s' ds :
  runtime_ok s → in_order ∅ s → Decision.slot d < U64.MAX → last_claim s' < U64.MAX →
  ReplicaCore.checkpointed_through (replica s) < Decision.slot d →
  receive_decision d s = (s', Ok ds) → all_delivered s'.
Proof.
  intros Hok Hio Hfit Hmax Hck Hr. unfold receive_decision, accept_decision in Hr.
  unfold bind at 1, readr at 1 in Hr.
  destruct (validate_decision (config s) d) as [[]|e] eqn:Hv; [|done].
  unfold bind at 1, reads at 1 in Hr.
  destruct (Z.leb_spec (Decision.slot d) (ReplicaCore.checkpointed_through (replica s))); [lia|].
  assert (∀ s1, rtc tick s s1 → recover s1 = (s', Ok ds) → all_delivered s') as Hrest.
  { intros s1 Ht Hrec.
    assert (last_claim s1 < U64.MAX).
    { pose proof (ticks_recover s1) as Ht1. rewrite Hrec in Ht1. simpl in Ht1.
      pose proof (ticks_last_claim _ _ (Ht1 (ticks_keyed _ _ (runtime_ok_keyed _ Hok) Ht))). lia. }
    apply (recover_complete s1 s' ds); try done; [by eapply ticks_ok|by eapply ticks_in_order]. }
  destruct (decisions s !! Decision.slot d) as [existing|] eqn:Hd.
  { destruct (negb _) in Hr; [done|]. by apply (Hrest s). }
  unfold bind at 1 in Hr.
  destruct (bind (on_replica _) _ s) as [s1 [[]|e]] eqn:Hs1; [|done].
  apply (Hrest s1); [|done].
  unfold bind, on_replica, zoom, modify in Hs1.
  destruct (ReplicaCore.apply_decision d (replica s)) as [rp [fresh|e]] eqn:Ha; [|done].
  etrans; [apply rtc_once; exact (TickAccept s d rp fresh Hv Hck (or_introl Hfit) Hd Ha)|].
  pose proof (TickSave (store_accepted d (set_replica s rp))) as Ht. rewrite Hs1 in Ht.
  by apply rtc_once.
Qed.

(** ** Sessions that start on an empty store *)

Section session.
Context (ord : relation V) `{!RelDecision ord}.
Context (cfg : ReplicaRuntimeConfig.t) (proposer : ProposerCore.t R) (rs : list ReplicaId).
Context (st st' : St) (e : E) (n : N) (x : X) (s0 : t V R St (E * list (Decision.t V)) N X).
Hypothesis Hcfg : config_ok (ReplicaRuntimeConfig.replica cfg).
Hypothesis Hmembers : ReplicaRuntimeConfig.members cfg ≠ [].
Hypothesis Hempty : runtime_load (V:=V) st = (st', Ok None).
Hypothesis Hnew : new cfg proposer rs st (e, []) n x = Ok s0.
Context (ops : list (runtime_op (V:=V))).
Hypothesis Hops : Forall op_fits ops.
Hypothesis Hmax : last_claim (run_ops ord ops s0) < U64.MAX.

Lemma session_ok : runtime_ok (run_ops ord ops s0) ∧ in_order ∅ (run_ops ord ops s0).
Proof using All.
  destruct (fresh_ok _ _ _ _ _ _ _ _ _ Hcfg Hmembers Hempty Hnew) as (Hok & Hx & He).
  pose proof (run_ops_ticks ord ops s0 (runtime_ok_keyed _ Hok) Hops) as Ht.
  split; [by eapply ticks_ok|]. eapply ticks_in_order; [done..|].
  split; unfold history_slots, history; rewrite ?He, ?Hx; simpl.
  - constructor.
  - by intros d ?%elem_of_nil.
  - by intros i ?%elem_of_empty.
  - by intros i j ?%elem_of_empty.
Qed.

(** When the runtime takes in a decision above its checkpoint and answers
    Ok, every committed slot above the checkpoint has been executed by the
    application and reported to the client. *)
Theorem receive_delivers_committed (d : Decision.t V) (ds : list (Decision.t V)) s' :
  Decision.slot d < U64.MAX → last_claim s' < U64.MAX →
  ReplicaCore.checkpointed_through (replica (run_ops ord ops s0)) < Decision.slot d →
  receive_decision d (run_ops ord ops s0) = (s', Ok ds) →
  all_delivered s'.
Proof using All.
  destruct session_ok as [Hok Hio]. intros ? ? ? ?. by apply (accept_complete _ d s' ds Hok Hio).
Qed.
End session.
End delivery.
