(* ===== verification/Restart.v ===== *)
(** * Stopping and starting a runtime

  Over a store that keeps its contract, what lies on disk is always the
  snapshot of a runtime that satisfied the invariant, whatever operation was
  interrupted and whichever saves failed; [new] accepts it and resumes exactly
  that runtime. A state transfer is a snapshot too, and the runtime that
  installs one ends in the state of the runtime that created it. *)
From S2P Require Import Prelude Errors Types Membership Isr Recorder Durable Proposer Replica.
From S2P Require Import Policy Schedule Runtime RuntimeSteps RuntimeInvariant.
Import ReplicaRuntime.

Section restart.
Context {V : Type} `{Countable V} {R : Type} `{!PrioritySource R}.
Context {St E N X : Type}.
Context `{!RuntimeStateStore V St, !StateMachine V E, !ClientNotifier V N, !RecorderClients V X}.
Implicit Types s : t V R St E N X.

(** ** What [new] checks *)

(** The proposals of a snapshot, as [new] rebuilds them. *)
Definition rearmed s : gmap Z (PendingProposal.t V) :=
  (λ p, PendingProposal.mk (PendingProposal.value_ids p) None None) <$> pending s.

Lemma validate_pieces cfg (rp : ReplicaCore.t V) rs (ds : gmap Z (Decision.t V)) tn
    (pd : gmap Z (PendingProposal.t V)) ex nt an :
  parts_ok cfg rp rs ds tn pd ex nt an →
  Forall (λ sch, validate_schedule cfg sch = Ok tt) (values (EpochTuner.schedules tn))
  ∧ Forall (λ d, validate_decision cfg d = Ok tt) (values ds)
  ∧ (∀ i, i ∈ keys pd → ds !! i = None ∧ ReplicaCore.committed_through rp < i)
  ∧ ex ⊆ dom ds ∧ nt ⊆ dom ds ∧ nt ⊆ ex
  ∧ (∀ i rc, (i, rc) ∈ entries an →
       i ∈ dom ds ∧ rc ⊆ id_set (ReplicaRuntimeConfig.members cfg)).
Proof.
  intros [Hm Hp Hc Hf Hd Hv Hpe Hx Hn Ha Hr Ht].
  assert (ex ⊆ dom ds) as Hex by (intros i Hi; apply elem_of_dom; by apply Hx).
  split_and!; [| | |done|set_solver|done|].
  - apply Forall_forall. intros sch (i & Hi)%elem_of_values. by eapply (to_schedules _ _ Ht).
  - apply Forall_forall. intros d (i & Hi)%elem_of_values. by eapply Hv.
  - intros i [p Hi]%elem_of_keys. destruct (Hpe i p Hi) as ([Hi1 _] & e & He & Hed & _).
    pose proof (ri_checkpoint _ (pi_replica _ Hp)).
    rewrite (committed_through_inv _ (pi_replica _ Hp)). split; [|lia].
    rewrite Hd by lia. by rewrite He.
  - intros i rc Hi%elem_of_entries. destruct (Ha i rc Hi). by rewrite elem_of_dom.
Qed.

Lemma valid_restored s : runtime_ok s → validate_restored_state s = Ok tt.
Proof.
  intros Hok. destruct (validate_pieces _ _ _ _ _ _ _ _ _ Hok) as
    (Hsch & Hds & Hpd & Hx & Hn & Hnx & Han). unfold validate_restored_state.
  rewrite (proj2 (try_each_Ok _ _) Hsch). simpl. rewrite (proj2 (try_each_Ok _ _) Hds). simpl.
  rewrite (proj2 (try_each_Ok _ (keys (pending s)))).
  - simpl. rewrite !bool_decide_true by done. simpl. apply try_each_Ok, Forall_forall.
    intros [i rc] Hi. destruct (Han i rc Hi). by rewrite !bool_decide_true.
  - apply Forall_forall. intros i Hi. destruct (Hpd i Hi) as [-> Hc].
    rewrite bool_decide_false by (by intros []%is_Some_None). simpl.
    by rewrite (proj2 (Z.leb_gt _ _) Hc).
Qed.

Lemma valid_components s :
  runtime_ok s →
  validate_runtime_components (config s) (replica s) (decisions s) (tuner s) (pending s)
    (executed s) (notified s) (announced_to s) = Ok tt.
Proof.
  intros Hok. destruct (validate_pieces _ _ _ _ _ _ _ _ _ Hok) as
    (Hsch & Hds & Hpd & Hx & Hn & Hnx & Han). unfold validate_runtime_components.
  rewrite (proj2 (try_each_Ok _ (values (EpochTuner.schedules (tuner s))))); simpl;
    [rewrite (proj2 (try_each_Ok _ (entries (decisions s)))); simpl;
     [rewrite (proj2 (try_each_Ok _ (keys (pending s)))); simpl|]|].
  - rewrite !bool_decide_true by done. simpl. apply try_each_Ok, Forall_forall.
    intros [i rc] Hi. destruct (Han i rc Hi). by rewrite !bool_decide_true.
  - apply Forall_forall. intros i Hi. destruct (Hpd i Hi) as [-> Hc].
    apply elem_of_keys in Hi as [p Hp].
    destruct (po_pending _ _ _ _ _ _ _ _ _ Hok i p Hp) as (_ & e & He & Hed & _ & Hne).
    rewrite bool_decide_false by (by intros []%is_Some_None). simpl.
    rewrite (proj2 (Z.leb_gt _ _) Hc). unfold ReplicaCore.slot. rewrite He, Hed. simpl.
    by destruct (LogSlot.proposed e).
  - apply Forall_forall. intros [i d] Hi%elem_of_entries.
    rewrite (runtime_ok_keyed _ Hok i d Hi), Z.eqb_refl.
    destruct (po_valid _ _ _ _ _ _ _ _ _ Hok i d Hi) as [Hck Hv].
    pose proof (po_decisions _ _ _ _ _ _ _ _ _ Hok i Hck) as Hl. rewrite Hi in Hl.
    unfold ReplicaCore.slot. rewrite <-Hl. unfold validate_decision in Hv.
    destruct (is_empty _); [done|]. destruct (negb (ClusterIdentity.contains _ _)); [done|].
    destruct (has_duplicate _); [done|]. simpl. by rewrite bool_decide_true.
  - eapply Forall_impl; [exact Hsch|]. intros sch Hv. unfold validate_schedule in Hv.
    destruct (repeats_id _); [done|]. by destruct (negb (bool_decide _)).
Qed.

Lemma restore_tuner_ok s :
  runtime_ok s → restore_tuner (config s) (runtime_snapshot s) = Ok (tuner s).
Proof.
  intros Hok. destruct (po_tuner _ _ _ _ _ _ _ _ _ Hok) as [Hm Hs Ha Hsch Hst].
  unfold restore_tuner, EpochTuner.restore, EpochTuner.new. simpl.
  rewrite (proj2 (try_each_Ok _ (entries (EpochTuner.stats (tuner s))))); simpl;
    [rewrite (proj2 (try_each_Ok _ (entries (EpochTuner.schedules (tuner s))))); simpl|].
  - rewrite <-Hm, <-Hs, <-Ha. by destruct (tuner s).
  - apply Forall_forall. intros [i sch] Hi%elem_of_entries. destruct (Hsch i sch Hi) as [-> _].
    by rewrite Z.eqb_refl.
  - apply Forall_forall. intros [i stat] Hi%elem_of_entries.
    destruct (Hst i stat Hi) as (Hl & Hpos & Hle). rewrite Hs in Hle.
    rewrite bool_decide_true by done. simpl.
    rewrite (proj2 (Z.eqb_neq _ _)) by lia. by rewrite (proj2 (Z.ltb_ge _ _)).
Qed.

Lemma restore_replica_ok s :
  runtime_ok s →
  ReplicaCore.restore (ReplicaRuntimeConfig.replica (config s))
    (RuntimeSnapshot.replica (runtime_snapshot s)) = Ok (replica s).
Proof.
  intros Hok. rewrite <-(po_config _ _ _ _ _ _ _ _ _ Hok).
  apply restore_replica, Hok.
Qed.

Lemma same_configuration_refl s : same_configuration (config s) (runtime_snapshot s) = true.
Proof. unfold same_configuration. simpl. by rewrite !bool_decide_true. Qed.

Lemma unarmed_rearmed s : unarmed <$> RuntimeSnapshot.pending (runtime_snapshot s) = rearmed s.
Proof. simpl. unfold rearmed. rewrite <-map_fmap_compose. done. Qed.

(** The runtime [new] rebuilds from the snapshot of [s]. *)
Definition resumed s (proposer : ProposerCore.t R) (rs : list ReplicaId) (st : St) (e : E) (n : N)
    (x : X) : t V R St E N X :=
  ReplicaRuntime.mk (config s) (replica s)
    (ProposerCore.configure_cluster proposer (ReplicaRuntimeConfig.cluster (config s)))
    rs st e n (decisions s) (tuner s) (rearmed s) (executed s) (notified s) (announced_to s) None
    (HedgeDelayTuner.new (ReplicaRuntimeConfig.base_hedge_delay (config s))
                         (ReplicaRuntimeConfig.adaptive_hedging (config s))) x.

Lemma rearmed_ok cfg (rp : ReplicaCore.t V) rs rs' (ds : gmap Z (Decision.t V)) tn
    (pd : gmap Z (PendingProposal.t V)) ex nt an :
  parts_ok cfg rp rs ds tn pd ex nt an → id_set rs' = id_set (ReplicaRuntimeConfig.members cfg) →
  parts_ok cfg rp rs' ds tn
    ((λ p, PendingProposal.mk (PendingProposal.value_ids p) None None) <$> pd) ex nt an.
Proof.
  intros [Hm Hp Hc Hf Hd Hv Hpe Hx Hn Ha Hr Ht] Hrs. split; try done.
  intros i p. rewrite lookup_fmap_Some. intros (p0 & <- & Hi). exact (Hpe i p0 Hi).
Qed.

Section start.
Context (proposer : ProposerCore.t R) (rs : list ReplicaId) (st st' : St) (e : E) (n : N) (x : X).

(** What the caller of [new] has to provide for configuration [cfg]: a
    recorder handle for every member, and the proposer of this replica. *)
Definition fits_config (cfg : ReplicaRuntimeConfig.t) : Prop :=
  validate_recorders cfg rs = Ok tt
  ∧ ProposerCore.replica_id proposer = ReplicaRuntimeConfig.replica_id cfg
  ∧ ProposerCore.lane_id proposer = ReplicaRuntimeConfig.lane_id cfg.

Lemma valid_recorders_set cfg :
  validate_recorders cfg rs = Ok tt → id_set rs = id_set (ReplicaRuntimeConfig.members cfg).
Proof.
  unfold validate_recorders. destruct (repeats_id _); [done|].
  destruct (negb (bool_decide _)) eqn:Hb; [done|]. intros _.
  by apply negb_false_iff, bool_decide_eq_true in Hb.
Qed.

Lemma new_resumes s :
  runtime_ok s → fits_config (config s) →
  runtime_load st = (st', Ok (Some (runtime_snapshot s))) →
  new (config s) proposer rs st e n x = Ok (resumed s proposer rs st' e n x)
  ∧ runtime_ok (resumed s proposer rs st' e n x)
  ∧ runtime_snapshot (resumed s proposer rs st' e n x) = runtime_snapshot s.
Proof.
  intros Hok (Hrs & Hid & Hlane) Hl.
  assert (runtime_ok (resumed s proposer rs st' e n x)) as Hok'.
  { exact (rearmed_ok _ _ _ _ _ _ _ _ _ _ Hok (valid_recorders_set _ Hrs)). }
  split_and!; [|done|].
  - unfold new. rewrite Hrs, Hid, Hlane, !Z.eqb_refl, Hl. cbn iota beta.
    rewrite same_configuration_refl, (restore_replica_ok s Hok), (restore_tuner_ok s Hok).
    rewrite unarmed_rearmed. pose proof (valid_restored _ Hok') as Hv. unfold resumed in *.
    simpl in *. by rewrite Hv.
  - unfold runtime_snapshot. simpl. f_equal. unfold rearmed. by rewrite <-map_fmap_compose.
Qed.
End start.

(** ** What lies on disk *)

Context (content : St → option (RuntimeSnapshot.t V)) `{!RuntimeStateStoreLaws V St content}.

Lemma tick_config s s' : tick s s' → config s' = config s.
Proof. destruct 1; try done. by destruct (persist_frame s) as [st ->]. Qed.

Lemma ticks_config s s' : rtc tick s s' → config s' = config s.
Proof. induction 1 as [|? ? ? Ht _ IH]; [done|]. by rewrite IH, (tick_config _ _ Ht). Qed.

Lemma tick_store s s' : tick s s' → state_store s' = state_store s ∨ s' = (persist s).1.
Proof. destruct 1; try (by left). by right. Qed.

Lemma persist_content s :
  content (state_store (persist s).1) = content (state_store s)
  ∨ content (state_store (persist s).1) = Some (runtime_snapshot s).
Proof.
  unfold persist. destruct (runtime_save (state_store s) (runtime_snapshot s)) as [st [[]|e]] eqn:Hs; simpl.
  - right. by eapply runtime_save_Ok.
  - by eapply runtime_save_Err.
Qed.

(** What [new] returns when it returns a runtime. *)
Lemma new_shape cfg proposer rs st e n x s :
  new cfg proposer rs st e n x = Ok s →
  fits_config proposer rs cfg ∧ config s = cfg
  ∧ ∃ st' o, runtime_load st = (st', Ok o) ∧ state_store s = st'.
Proof.
  unfold new. destruct (validate_recorders cfg rs) as [[]|] eqn:Hrs; [|done].
  destruct (negb _ || negb _) eqn:Hid; [done|].
  apply orb_false_iff in Hid as [Hid%negb_false_iff%Z.eqb_eq Hl%negb_false_iff%Z.eqb_eq].
  destruct (runtime_load st) as [st' [o|]]; [|done].
  intros Hs. split; [done|]. revert Hs. destruct o as [snap|].
  - destruct (negb _); [done|]. destruct (ReplicaCore.restore _ _); [|done].
    destruct (restore_tuner _ _); [|done]. destruct (validate_restored_state _); [|done].
    intros [= <-]. split; [done|]. by eexists _, _.
  - destruct (validate_restored_state _); [|done]. intros [= <-]. split; [done|]. by eexists _, _.
Qed.

(** ** Acknowledged decisions are on disk *)

(** The decision is retained, in memory and on disk. *)
Definition kept (d : Decision.t V) s : Prop :=
  decisions s !! Decision.slot d = Some d
  ∧ ∃ snap, content (state_store s) = Some snap
      ∧ RuntimeSnapshot.decisions snap !! Decision.slot d = Some d.

Lemma tick_checkpoint s s' :
  tick s s' →
  ReplicaCore.checkpointed_through (replica s) ≤ ReplicaCore.checkpointed_through (replica s').
Proof.
  destruct 1 as [| | |l|slot l rp Hn|rp e Hn|gap noop rp _ _ Hn| | | | |
    d rp fresh _ _ _ _ Ha|d rp e _ Ha| | | | | | |]; simpl; try done.
  - by destruct (persist_frame s) as [st ->].
  - destruct (enqueue_same l (replica s)) as ((_ & Hc & _) & _). lia.
  - apply next_proposal_cases in Hn as [[-> _]|(sl & k & _ & _ & Hn & _)]; [done|].
    by apply note_proposed_cases in Hn as [[-> _]|(_ & _ & _ & _ & ->)].
  - apply next_proposal_cases in Hn as [[-> _]|(sl & k & _ & _ & Hn & _)]; [done|].
    by apply note_proposed_cases in Hn as [[-> _]|(_ & _ & _ & _ & ->)].
  - by apply note_proposed_cases in Hn as [[-> _]|(_ & _ & _ & _ & ->)].
  - pose proof (apply_decision_frame d (replica s)) as Hf. rewrite Ha in Hf.
    destruct Hf as (_ & Hc & _). simpl in Hc. lia.
  - pose proof (apply_decision_frame d (replica s)) as Hf. rewrite Ha in Hf.
    destruct Hf as (_ & Hc & _). simpl in Hc. lia.
  - lia.
Qed.

Lemma tick_kept d s s' :
  tick s s' → ReplicaCore.checkpointed_through (replica s') < Decision.slot d →
  kept d s → kept d s'.
Proof.
  intros Ht Hck [Hd Hst].
  assert (decisions s' !! Decision.slot d = Some d) as Hd'.
  { destruct Ht as [| | | | | | | | | | |d' rp fresh Hv Hc Hf Hn Ha| | | | | | | |slot Hslot]; try done.
    - by destruct (persist_frame s) as [st ->].
    - simpl. rewrite lookup_insert_ne; [done|]. congruence.
    - simpl in *. rewrite lookup_retain. by rewrite (proj2 (Z.ltb_lt _ _)) by lia. }
  split; [done|]. destruct (tick_store _ _ Ht) as [->| ->]; [done|].
  destruct (persist_content s) as [->| ->]; [done|]. by eexists.
Qed.

Lemma ticks_kept d s s' :
  rtc tick s s' → ReplicaCore.checkpointed_through (replica s') < Decision.slot d →
  kept d s → kept d s'.
Proof.
  intros Ht Hck. induction Ht as [|s1 s2 s3 Ht Hts IH]; [done|]. intros Hk. apply IH; [done|].
  eapply tick_kept; [done| |done].
  assert (ReplicaCore.checkpointed_through (replica s2)
          ≤ ReplicaCore.checkpointed_through (replica s3)); [|lia].
  clear -Hts. induction Hts as [|? ? ? Ht _ IH]; [done|]. apply tick_checkpoint in Ht. lia.
Qed.

(** When the runtime answers Ok to a decision it did not have, the
    decision is in the snapshot the store holds: a crash cannot lose it. *)
Theorem accepted_decision_is_durable d s s' ds :
  runtime_ok s → ReplicaCore.checkpointed_through (replica s) < Decision.slot d →
  decisions s !! Decision.slot d = None →
  receive_decision d s = (s', Ok ds) →
  ∃ snap, content (state_store s') = Some snap
    ∧ RuntimeSnapshot.decisions snap !! Decision.slot d = Some d.
Proof.
  intros Hok Hck Hd Hr. unfold receive_decision, accept_decision in Hr.
  unfold bind at 1, readr at 1 in Hr.
  destruct (validate_decision (config s) d) as [[]|e] eqn:Hv; [|done].
  unfold bind at 1, reads at 1 in Hr.
  destruct (Z.leb_spec (Decision.slot d) (ReplicaCore.checkpointed_through (replica s))); [lia|].
  rewrite Hd in Hr. unfold bind at 1 in Hr.
  destruct (bind (on_replica _) _ s) as [s1 [[]|e]] eqn:Hs1; [|done].
  change (recover s1 = (s', Ok ds)) in Hr.
  unfold bind, on_replica, zoom, modify, persist in Hs1.
  pose proof (apply_decision_frame d (replica s)) as (_ & Hfr & _).
  destruct (ReplicaCore.apply_decision d (replica s)) as [rp [fresh|e]]; [|done].
  set (s2 := store_accepted d (set_replica s rp)) in Hs1.
  assert (keyed s2) as Hk2.
  { intros i d'. simpl. rewrite lookup_insert_Some. intros [[<- <-]|[_ ?]]; [done|].
    by apply (runtime_ok_keyed _ Hok). }
  destruct (runtime_save _ _) as [st r] eqn:Hsave. injection Hs1 as <- ->.
  apply runtime_save_Ok in Hsave.
  assert (kept d (set_state_store s2 st)) as Hkept.
  { split; [by apply lookup_insert_eq|]. eexists. split; [exact Hsave|]. by apply lookup_insert_eq. }
  pose proof (ticks_recover (set_state_store s2 st) Hk2) as Ht.
  pose proof (recover_replica (set_state_store s2 st) Hk2) as Hrp. rewrite Hr in Ht, Hrp.
  apply (ticks_kept d _ _ Ht); [|done]. simpl in Hrp, Hfr |- *. rewrite Hrp. simpl. lia.
Qed.

(** ** State transfer *)

(** Two replicas of one deployment: their configurations differ in the
    identity and the timing of the replica only. *)
Definition alike (cfg cfg' : ReplicaRuntimeConfig.t) : Prop :=
  ReplicaRuntimeConfig.cluster cfg' = ReplicaRuntimeConfig.cluster cfg
  ∧ ReplicaRuntimeConfig.replica cfg' = ReplicaRuntimeConfig.replica cfg
  ∧ ReplicaRuntimeConfig.epoch_size cfg' = ReplicaRuntimeConfig.epoch_size cfg
  ∧ ReplicaRuntimeConfig.auto_schedules cfg' = ReplicaRuntimeConfig.auto_schedules cfg.

Lemma alike_parts cfg cfg' (rp : ReplicaCore.t V) rs (ds : gmap Z (Decision.t V)) tn pd ex nt an :
  alike cfg cfg' → parts_ok cfg rp rs ds tn pd ex nt an → parts_ok cfg' rp rs ds tn pd ex nt an.
Proof.
  intros (Hcl & Hrc & Hes & Hau) [Hm Hp Hc Hf Hd Hv Hpe Hx Hn Ha Hr [Ht1 Ht2 Ht3 Ht4 Ht5]].
  assert (ReplicaRuntimeConfig.members cfg' = ReplicaRuntimeConfig.members cfg) as Hmem.
  { unfold ReplicaRuntimeConfig.members. by rewrite Hcl. }
  assert (∀ sch, validate_schedule cfg' sch = validate_schedule cfg sch) as Hsch.
  { intros sch. unfold validate_schedule. by rewrite Hmem. }
  assert (∀ d : Decision.t V, validate_decision cfg' d = validate_decision cfg d) as Hdec.
  { intros d. unfold validate_decision. by rewrite Hcl. }
  split; rewrite ?Hmem, ?Hrc; try done.
  - intros i d. rewrite Hdec. apply Hv.
  - split; rewrite ?Hmem, ?Hes, ?Hau; try done. intros i sch. rewrite Hsch. apply Ht4.
Qed.

(** The state a runtime has after installing what [s'] exported. *)
Definition transferred s s' : t V R St E N X :=
  ReplicaRuntime.mk (config s) (replica s') (proposer s) (recorders s) (state_store s)
    (state_machine s) (notifier s) (decisions s') (tuner s') (rearmed s') (executed s')
    (notified s') (announced_to s') (noop_value s) (hedge_delay s) (world s).

Lemma transferred_ok s s' :
  runtime_ok s → runtime_ok s' → alike (config s') (config s) →
  runtime_ok (transferred s s')
  ∧ runtime_snapshot (transferred s s') = runtime_snapshot s'.
Proof.
  intros Hok Hok' Hal. split.
  - pose proof Hal as (Hcl & _). apply (alike_parts _ _ _ _ _ _ _ _ _ _ Hal).
    apply (rearmed_ok _ _ (recorders s') _ _ _ _ _ _ _ Hok').
    etrans; [apply (po_recorders _ _ _ _ _ _ _ _ _ Hok)|].
    unfold ReplicaRuntimeConfig.members. by rewrite Hcl.
  - destruct Hal as (Hcl & _ & Hes & Hau). unfold runtime_snapshot, ReplicaRuntimeConfig.protocol_identity.
    simpl. rewrite Hcl, Hes, Hau. f_equal. unfold rearmed. by rewrite <-map_fmap_compose.
Qed.

(** A replica of the deployment accepts the snapshot of another. *)
Lemma alike_restores s s' :
  runtime_ok s → runtime_ok s' → alike (config s') (config s) →
  restore_runtime_snapshot (config s) (runtime_snapshot s') = Ok (replica s', tuner s', rearmed s').
Proof.
  intros Hok Hok' Hal. unfold restore_runtime_snapshot. rewrite unarmed_rearmed.
  pose proof (same_configuration_refl (transferred s s')) as Hsc.
  destruct (transferred_ok s s' Hok Hok' Hal) as [Hok3 Hs3].
  pose proof (restore_replica_ok _ Hok3) as Hr3. pose proof (restore_tuner_ok _ Hok3) as Ht3.
  pose proof (valid_components _ Hok3) as Hv3. rewrite Hs3 in Hsc, Hr3, Ht3. simpl in Hsc, Hr3, Ht3, Hv3.
  rewrite Hsc. simpl. rewrite Hr3. simpl. rewrite Ht3. simpl. by rewrite Hv3.
Qed.

Context (ord : relation V) `{!RelDecision ord}.

Lemma flush_replica s s' u :
  flush_decision_notifications s = (s', u) → replica s' = replica s.
Proof. intros Hf. destruct (flush_talks s) as (x & st & an & Hr). rewrite Hf in Hr. simpl in Hr. by subst s'. Qed.

Lemma checkpoint_replica slot s s' u :
  checkpoint_through slot s = (s', Ok u) →
  slot ≤ ReplicaCore.committed_through (replica s)
  ∧ replica s' = ReplicaCore.prune_through (replica s) slot.
Proof.
  unfold checkpoint_through, bind at 1.
  destruct (flush_decision_notifications s) as [s1 [[]|e]] eqn:Hf; [|done].
  apply flush_replica in Hf. unfold bind at 1, reads at 1.
  destruct (Z.ltb_spec (ReplicaCore.committed_through (replica s1)) slot) as [|Hc]; [done|].
  destruct (existsb _ _); [done|]. unfold bind at 1, readr at 1.
  destruct (ensure_fully_announced s1 slot) as [[]|]; [|done].
  unfold bind, modify, persist. destruct (runtime_save _ _) as [st r]. intros [= <- ->].
  simpl. by rewrite <-Hf.
Qed.

(** A transfer carries the snapshot of the runtime that created it. *)
Lemma transfer_created slot s s' tr :
  create_state_transfer ord slot s = (s', Ok tr) →
  StateTransferSnapshot.runtime tr = runtime_snapshot s'
  ∧ StateTransferSnapshot.through tr = slot
  ∧ slot ≤ ReplicaCore.committed_through (replica s)
  ∧ replica s' = ReplicaCore.prune_through (replica s) slot.
Proof.
  unfold create_state_transfer, bind at 1.
  destruct (flush_decision_notifications s) as [s1 [[]|e]] eqn:Hf; [|done].
  apply flush_replica in Hf. rewrite <-Hf. unfold bind at 1, readr at 1.
  destruct (ensure_fully_announced s1 slot) as [[]|]; [|done].
  unfold bind at 1, reads at 1. unfold bind at 1, run_machine, zoom.
  destruct (export_checkpoint (state_machine s1) slot) as [e [bytes|]]; [|done].
  unfold bind at 1. destruct (checkpoint_through slot _) as [s2 [[]|err]] eqn:Hc; [|done].
  apply checkpoint_replica in Hc as [Hc Hr]. intros [= <- <-]. by split_and!.
Qed.

(** A transfer asked for below the pruning floor is created, but no
    runtime accepts it: it names the slot asked for, its snapshot the floor. *)
Theorem transfer_below_floor_rejected slot s s' tr s2 :
  slot < ReplicaCore.checkpointed_through (replica s) →
  create_state_transfer ord slot s = (s', Ok tr) →
  install_state_transfer tr s2
  = (s2, Err (QuePaxaError.InvalidProposal
                "state-transfer checkpoint does not match the runtime pruning floor")).
Proof.
  intros Hslot Hcr. destruct (transfer_created _ _ _ _ Hcr) as (Hrt & Hth & _ & Hrp).
  unfold install_state_transfer. rewrite Hth, Hrt. simpl. rewrite Hrp. simpl.
  rewrite (proj2 (Z.eqb_neq _ _)); [done|]. lia.
Qed.

(** A state transfer created by one replica is accepted by any replica of
    the deployment that has the same cluster, limits and protocol, provided
    the application imports the checkpoint and the store saves: the installed
    state is that of the creator, it is durable, and the invariant holds. *)
Theorem state_transfer_installs slot s s' tr s2 e st :
  runtime_ok s → last_claim s' < U64.MAX →
  ReplicaCore.checkpointed_through (replica s) ≤ slot →
  create_state_transfer ord slot s = (s', Ok tr) →
  runtime_ok s2 → alike (config s) (config s2) →
  import_checkpoint (state_machine s2) slot (StateTransferSnapshot.application_checkpoint tr)
    = (e, Ok tt) →
  runtime_save (state_store s2) (StateTransferSnapshot.runtime tr) = (st, Ok tt) →
  ∃ s2', install_state_transfer tr s2 = (s2', Ok tt) ∧ runtime_ok s2'
    ∧ runtime_snapshot s2' = runtime_snapshot s' ∧ content (state_store s2') = Some (runtime_snapshot s').
Proof.
  intros Hok Hmax Hslot Hcr Hok2 Hal Him Hsave.
  pose proof (ticks_create_transfer ord slot s (runtime_ok_keyed _ Hok)) as Ht. rewrite Hcr in Ht.
  pose proof (ticks_ok _ _ Hok Ht Hmax) as Hok'.
  pose proof (ticks_config _ _ Ht) as Hcfg. simpl in Hcfg.
  destruct (transfer_created _ _ _ _ Hcr) as (Hrt & Hth & Hcm & Hrp).
  rewrite <-Hcfg in Hal. rewrite Hrt in Hsave.
  destruct (transferred_ok (set_state_store (set_state_machine s2 e) st) s' Hok2 Hok' Hal)
    as [Hfin Hsnap].
  exists (transferred (set_state_store (set_state_machine s2 e) st) s').
  split_and!; [|done|done|by eapply runtime_save_Ok].
  unfold install_state_transfer. rewrite Hth, Hrt.
  assert (ReplicaSnapshot.checkpointed_through (RuntimeSnapshot.replica (runtime_snapshot s')) = slot)
    as -> by (simpl; rewrite Hrp; simpl; lia).
  rewrite Z.eqb_refl. cbn [negb]. unfold bind at 1, readr at 1.
  rewrite (alike_restores s2 s') by done.
  unfold bind at 1, run_machine, zoom at 1. rewrite Him. unfold bind, zoom. simpl. by rewrite Hsave.
Qed.
End restart.
