(* ===== verification/Checkpoint.v ===== *)
(** * Checkpoints forget only what every recorder knows

  The runtime drops a decision when it has been acknowledged by every member.
  What an acknowledgement is worth is an interface, [RecorderClientsLaws]: an
  endpoint that answered Ok to a decision knows it from then on. The theorem is
  proved against the interface, and an in-process cluster of [RecorderCore]
  recorders, with endpoints that may be down, implements it. *)
From S2P Require Import Prelude Errors Types Membership Isr Recorder Durable Proposer Replica.
From S2P Require Import Policy Schedule Runtime RuntimeSteps RuntimeInvariant.
Import ReplicaRuntime.

Class RecorderClientsLaws (V X : Type) `{!RecorderClients V X}
    (knows : X → ReplicaId → Decision.t V → Prop) : Prop := {
  inform_tells : ∀ x x' k d, rpc_inform x k [d] = (x', RecorderHandle.Answered (Ok tt)) →
    knows x' k d;
  inform_keeps : ∀ x k ds k' d', knows x k' d' → knows (rpc_inform x k ds).1 k' d';
  status_keeps : ∀ x k slot k' d', knows x k' d' → knows (rpc_status (V:=V) x k slot).1 k' d';
  network_keeps : ∀ x requests k' d', knows x k' d' → knows (network (V:=V) x requests).1 k' d';
  sleep_keeps : ∀ x delay k' d', knows x k' d' → knows (sleep (V:=V) x delay) k' d';
}.

Section checkpoints.
Context {V : Type} `{Countable V} {R : Type} `{!PrioritySource R}.
Context {St E N X : Type}.
Context `{!RuntimeStateStore V St, !StateMachine V E, !ClientNotifier V N, !RecorderClients V X}.
Context (knows : X → ReplicaId → Decision.t V → Prop) `{!RecorderClientsLaws V X knows}.
Implicit Types s : t V R St E N X.

Lemma drift_keeps x x' k d : rtc (drift (V:=V)) x x' → knows x k d → knows x' k d.
Proof.
  induction 1 as [|x1 x2 x3 Hd _ IH]; [done|]. intros Hk. apply IH.
  destruct Hd; [by apply inform_keeps|by apply status_keeps|by apply network_keeps|by apply sleep_keeps].
Qed.

(** Whoever is noted to have acknowledged a decision knows it. *)
Definition told s : Prop :=
  ∀ i rc k d, announced_to s !! i = Some rc → k ∈ rc → decisions s !! i = Some d →
    knows (world s) k d.

Lemma tick_told s s' : runtime_ok s → tick s s' → told s → told s'.
Proof.
  intros Hok Ht Hs. destruct Ht as [|x Hx| | | | | | | | | |d rp fresh Hv Hc Hf Hn Ha| |slot d k x Hd Hk Hrpc
    | | | | | |slot Hslot]; try done.
  - by destruct (persist_frame s) as [st ->].
  - intros i rc k d Hi Hk Hd. apply (drift_keeps (world s)); [done|]. by eapply Hs.
  - intros i rc k d'. simpl. rewrite !lookup_insert_Some. intros [[<- <-]|[Hne Hi]] Hk.
    + destruct (announced_to s !! Decision.slot d) as [rc|] eqn:Hrc; simpl in Hk; [|set_solver].
      destruct (po_announced _ _ _ _ _ _ _ _ _ Hok _ _ Hrc) as [[d0 Hd0] _]. congruence.
    + intros [[? _]|[_ Hd']]; [done|]. by eapply Hs.
  - assert (∀ k' d', knows (world s) k' d' → knows x k' d') as Hkeep.
    { intros k' d' Hk'. pose proof (inform_keeps (world s) k [d] k' d' Hk') as Hx. by rewrite Hrpc in Hx. }
    intros i rc k' d'. simpl. rewrite lookup_insert_Some. intros [[<- <-]|[Hne Hi]] Hk' Hd'.
    + rewrite Hd in Hd'. injection Hd' as <-.
      apply elem_of_union in Hk' as [->%elem_of_singleton|Hk']; [by eapply inform_tells|].
      destruct (announced_to s !! slot) as [rc|] eqn:Hrc; simpl in Hk'; [|set_solver].
      by eapply Hkeep, Hs.
    + by eapply Hkeep, Hs.
  - intros i rc k d. simpl. rewrite !lookup_retain. case_match; [|done]. apply Hs.
Qed.

Lemma ticks_told s s' : runtime_ok s → rtc tick s s' → last_claim s' < U64.MAX → told s → told s'.
Proof.
  intros Hok Ht. induction Ht as [|s1 s2 s3 Ht Hts IH]; [done|]. intros Hmax Hs.
  pose proof (ticks_last_claim _ _ Hts).
  apply IH; [eapply tick_ok; [done..|lia]|done|by eapply tick_told].
Qed.

Lemma fully_announced s slot i d :
  ensure_fully_announced s slot = Ok tt → decisions s !! i = Some d → i ≤ slot →
  announced_to s !! i = Some (id_set (ReplicaRuntimeConfig.members (config s))).
Proof.
  unfold ensure_fully_announced. destruct (existsb _ _) eqn:He; [done|]. intros _ Hd Hi.
  apply existsb_false with (x:=i) in He.
  - destruct (announced_to s !! i) as [rc|]; [|done].
    by apply negb_false_iff, bool_decide_eq_true in He as ->.
  - apply list_elem_of_fmap. exists (i, d). split; [done|]. by apply elem_of_range.
Qed.

Lemma checkpoint_told s slot s' :
  runtime_ok s → told s → last_claim s' < U64.MAX → checkpoint_through slot s = (s', Ok tt) →
  ∀ i d k, decisions s !! i = Some d → i ≤ slot →
    k ∈ ReplicaRuntimeConfig.members (config s) → knows (world s') k d.
Proof.
  intros Hok Hs Hmax Hcp i d k Hd Hi Hk.
  pose proof (ticks_checkpoint slot s (runtime_ok_keyed _ Hok)) as Htc. rewrite Hcp in Htc.
  unfold checkpoint_through, bind at 1 in Hcp.
  pose proof (ticks_flush s (runtime_ok_keyed _ Hok)) as Htf.
  pose proof (flush_talks s) as (x & st & an & Hfl).
  destruct (flush_decision_notifications s) as [s1 [[]|e]]; [|done]. simpl in *.
  assert (replica s1 = replica s ∧ decisions s1 = decisions s ∧ config s1 = config s)
    as (Hrp & Hds & Hcf) by by rewrite Hfl.
  assert (told s1) as Hs1.
  { apply (ticks_told s); try done. unfold last_claim. rewrite Hrp.
    pose proof (ticks_last_claim _ _ Htc). unfold last_claim in *. lia. }
  unfold bind at 1, reads at 1 in Hcp. destruct (_ <? slot); [done|].
  destruct (existsb _ _); [done|]. unfold bind at 1, readr at 1 in Hcp.
  destruct (ensure_fully_announced s1 slot) as [[]|] eqn:Ha; [|done].
  rewrite <-Hds in Hd. pose proof (fully_announced s1 slot i d Ha Hd Hi) as Hrc.
  assert (world s' = world s1) as ->.
  { unfold bind, modify, persist in Hcp. destruct (runtime_save _ _). by injection Hcp as <- _. }
  apply (Hs1 i _ k d Hrc); [|done]. rewrite Hcf. by apply elem_of_list_to_set.
Qed.

(** C15: when a checkpoint succeeds, every decision it drops is known to the
    recorder of every member, whatever operations, failures and timeouts came
    before. *)
Theorem checkpoint_drops_only_known (ord : relation V) `{!RelDecision ord} cfg proposer rs st st'
    (e : E) (n : N) (x : X) s0 ops s' slot :
  config_ok (ReplicaRuntimeConfig.replica cfg) → ReplicaRuntimeConfig.members cfg ≠ [] →
  runtime_load (V:=V) st = (st', Ok None) → new (R:=R) cfg proposer rs st e n x = Ok s0 →
  Forall op_fits ops → last_claim s' < U64.MAX →
  checkpoint_through slot (run_ops ord ops s0) = (s', Ok tt) →
  ∀ i d k, decisions (run_ops ord ops s0) !! i = Some d → i ≤ slot →
    k ∈ ReplicaRuntimeConfig.members (config (run_ops ord ops s0)) → knows (world s') k d.
Proof.
  intros Hc Hm Hl Hnew Hops Hmax Hcp.
  destruct (fresh_ok _ _ _ _ _ _ _ _ _ Hc Hm Hl Hnew) as (Hok & Hx & _).
  pose proof (run_ops_ticks ord ops s0 (runtime_ok_keyed _ Hok) Hops) as Ht.
  set (s := run_ops ord ops s0) in *.
  assert (last_claim s < U64.MAX) as Hmax1.
  { pose proof (ticks_checkpoint slot s (ticks_keyed _ _ (runtime_ok_keyed _ Hok) Ht)) as Htc.
    rewrite Hcp in Htc. pose proof (ticks_last_claim _ _ Htc). simpl in *. lia. }
  apply (checkpoint_told s slot); try done; [by eapply ticks_ok|].
  apply (ticks_told s0); try done. intros i rc k d Hrc.
  destruct (po_announced _ _ _ _ _ _ _ _ _ Hok _ _ Hrc) as [[d0 Hd0] _].
  revert Hnew. unfold new. rewrite Hl. destruct (validate_recorders _ _); [|done].
  destruct (_ || _); [done|]. destruct (validate_restored_state _); [|done].
  intros [= Heq]. by rewrite <-Heq in Hd0.
Qed.
End checkpoints.
