(* ===== verification/Polling.v ===== *)
(** * [poll] returns

  The loop of [poll] goes round only when it defers a proposal that was ready:
  its deadline then lies in the future, so there are at most as many turns as
  pending proposals, and against recorders whose replies are not behind their
  requests each call to the proposer returns too. *)
From S2P Require Import Prelude Errors Types Membership Isr Recorder Durable Proposer Replica.
From S2P Require Import Policy Schedule Runtime RuntimeSteps RuntimeInvariant.
Import ReplicaRuntime.

Section polling.
Context {V : Type} `{Countable V} {R : Type} `{!PrioritySource R}.
Context {St E N X : Type}.
Context `{!RuntimeStateStore V St, !StateMachine V E, !ClientNotifier V N, !RecorderClients V X}.
Implicit Types s : t V R St E N X.

(** ** What arming leaves alone *)

Definition drives (pr : ProposerCore.t R) (h : HedgeDelayTuner.t) s : Prop :=
  proposer s = pr ∧ hedge_delay s = h.

Lemma drives_zoom {T A} (get : _ → T) (set : t V R St E N X → T → t V R St E N X)
    (m : M T QuePaxaError.t A) pr h :
  (∀ s x, drives pr h s → drives pr h (set s x)) → preserves (drives pr h) (zoom get set m).
Proof. intros Hs s Hd. unfold zoom. destruct (m (get s)). by apply Hs. Qed.

Lemma drives_persist pr h : preserves (drives pr h) (persist (V:=V) (R:=R)).
Proof. intros s Hd. destruct (persist_frame s) as [st ->]. done. Qed.

Lemma drives_arm_proposals fuel changed pr h : preserves (drives pr h) (arm_proposals fuel changed).
Proof.
  revert changed. induction fuel as [|fuel IH]; intros changed; simpl; [by intros s|].
  apply preserves_bind; [by apply drives_zoom|]. intros [[slot l]|]; [|by intros s].
  apply preserves_bind; [by intros s|]. intros _. apply IH.
Qed.

Lemma drives_arm_gap pr h : preserves (drives pr h) arm_gap_noop.
Proof.
  apply preserves_bind; [by intros s|]. intros s0. destruct (noop_value s0); [|by intros s].
  destruct (negb _); [by intros s|]. apply preserves_bind; [by intros s|]. intros gap.
  cbv zeta. destruct (negb _ || negb _); [by intros s|].
  apply preserves_bind; [by apply drives_zoom|]. intros _.
  apply preserves_bind; [by intros s|]. by intros _ s.
Qed.

Lemma drives_schedule slot pr h : preserves (drives pr h) (ensure_schedule_for slot).
Proof. apply preserves_bind; [by intros s|]. intros epoch. by apply drives_zoom. Qed.

Lemma drives_deadlines now slots pr h : preserves (drives pr h) (deadlines_for now slots).
Proof.
  induction slots as [|slot slots IH]; simpl; [by intros s|].
  apply preserves_bind; [apply drives_schedule|]. intros schedule.
  apply preserves_bind; [by intros s|]. intros deadline.
  apply preserves_bind; [done|]. intros rest. by intros s.
Qed.

Lemma drives_arm now pr h : preserves (drives pr h) (arm_available now).
Proof.
  apply preserves_bind; [by intros s|]. intros queued.
  apply preserves_bind; [apply drives_arm_proposals|]. intros changed.
  apply preserves_bind; [apply drives_arm_gap|]. intros gap.
  apply preserves_bind; [destruct (changed || gap); [apply drives_persist|by intros s]|]. intros _.
  apply preserves_bind; [|by intros _ s].
  apply preserves_bind; [by intros s|]. intros slots.
  apply preserves_bind; [apply drives_deadlines|]. by intros deadlines s.
Qed.

(** The [while let] loop of [arm_available] ends on its own: every turn takes
    values off the queue, so more fuel than queued values changes nothing. *)
Lemma arm_proposals_fuel fuel fuel' changed s :
  (length (ReplicaCore.pending (replica s)) < fuel)%nat →
  (length (ReplicaCore.pending (replica s)) < fuel')%nat →
  arm_proposals fuel changed s = arm_proposals fuel' changed s.
Proof.
  revert fuel' changed s. induction fuel as [|fuel IH]; intros [|fuel'] changed s Hf Hf'; try lia.
  cbn [arm_proposals]. unfold bind at 1 3, on_replica, zoom.
  destruct (ReplicaCore.next_proposal (replica s)) as [rp [[[slot l]|]|e]] eqn:Hn; try done.
  unfold bind, modify.
  assert (length (ReplicaCore.pending rp) < length (ReplicaCore.pending (replica s)))%nat.
  { apply next_proposal_cases in Hn as [[_ [?|?]]|(sl & n & _ & _ & Hnote & _)]; [done..|].
    apply note_proposed_cases in Hnote as [[_ ?]|(_ & Hl & _ & _ & ->)]; [done|]. simpl.
    rewrite length_drop. destruct n; [done|].
    destruct (ReplicaCore.pending (replica s)); [done|]. simpl. lia. }
  apply IH; simpl; lia.
Qed.

(** ** The loop *)

(** The proposals whose deadline has passed. *)
Definition is_ready (now : Z) (e : Z * PendingProposal.t V) : Prop :=
  match PendingProposal.ready_at e.2 with Some deadline => deadline ≤ now | None => False end.

#[local] Instance is_ready_dec now e : Decision (is_ready now e).
Proof. unfold is_ready. destruct (PendingProposal.ready_at e.2); apply _. Defined.

Definition ready_count now s : nat := size (filter (is_ready now) (pending s)).

(** A deferral takes one proposal off the ready ones. *)
Lemma defer_counts slot schedule now s s' :
  0 ≤ current_hedge_delay s →
  (∃ p t, pending s !! slot = Some p ∧ PendingProposal.ready_at p = Some t ∧ t ≤ now) →
  defer_for_progress slot schedule now s = (s', Ok true) → (ready_count now s' < ready_count now s)%nat.
Proof.
  intros Hh (p & t & Hp & Hr & Ht). unfold defer_for_progress. unfold bind at 1, reads at 1.
  destruct (Z.eqb_spec (current_hedge_delay s) 0) as [|Hne]; [done|].
  destruct (bool_decide _); [done|].
  destruct (probe_step_frame slot s) as (x & o & Hps & _). unfold bind at 1. rewrite Hps, Hp.
  destruct (observes_progress _ _); [|done].
  unfold instant_add. destruct (_ <=? _); [|done]. intros [= <-].
  unfold ready_count. simpl.
  rewrite map_filter_insert_False.
  - assert (filter (is_ready now) (pending s) !! slot = Some p) as Hin.
    { apply map_lookup_filter_Some. split; [done|]. unfold is_ready. simpl. by rewrite Hr. }
    rewrite map_filter_delete, map_size_delete_Some by by eexists.
    assert (size (filter (is_ready now) (pending s)) ≠ 0%nat); [|lia].
    intros Hz%map_size_empty_iff. by rewrite Hz in Hin.
  - unfold is_ready. simpl. lia.
Qed.

Lemma drives_defer slot schedule now pr h : preserves (drives pr h) (defer_for_progress slot schedule now).
Proof.
  intros s Hd. unfold defer_for_progress. unfold bind at 1, reads at 1.
  destruct (_ =? 0); [done|]. destruct (bool_decide _); [done|].
  destruct (probe_step_frame slot s) as (x & o & Hps & _). unfold bind at 1. rewrite Hps.
  destruct (pending s !! slot); [|done]. destruct (observes_progress _ _); [|done].
  by destruct (instant_add _ _).
Qed.

(** The proposer's own fuel. *)
Definition enough (pf : nat) (pr : ProposerCore.t R) : Prop :=
  ProposerConfig.max_steps (ProposerCore.config pr) < Step.ROUND_ONE_PHASE_ZERO + Z.of_nat pf.

Lemma propose_returns pf slot l leader s s' :
  never_behind (network (V:=V) (X:=X)) → enough pf (proposer s) →
  propose pf slot l leader s ≠ (s', Ok None).
Proof.
  intros Hnb Hpf. unfold propose, ProposerCore.propose.
  destruct (ProposerCore.prepare _ _ _ _ _) as [[quorum p]|e]; [|done].
  pose proof (drive_terminates (network (V:=V)) (proposer s) pf (world s) slot (Some leader)
    (recorders s) quorum [] Step.ROUND_ONE_PHASE_ZERO p Hnb Hpf) as [o Ho].
  destruct (ProposerCore.drive _ _ _ _ _ _ _ _ _ _ _) as [[pr x] o']. simpl in Ho. subst o'.
  by destruct o.
Qed.

Lemma poll_loop_returns pf fuel now pr h s s' :
  never_behind (network (V:=V) (X:=X)) → enough pf pr → 0 ≤ HedgeDelayTuner.current h →
  drives pr h s → (ready_count now s < fuel)%nat → poll_loop pf fuel now s ≠ (s', Ok None).
Proof.
  intros Hnb Hpf Hh. revert s. induction fuel as [|fuel IH]; intros s Hd Hf; [lia|].
  cbn [poll_loop]. unfold bind at 1, reads at 1.
  destruct (next_deadline s) as [[slot deadline]|] eqn:Hn; [|done].
  destruct (Z.ltb_spec now deadline) as [|Hready]; [done|]. unfold bind at 1.
  pose proof (drives_schedule slot pr h s Hd) as Hd1.
  destruct (ensure_schedule_frame slot s) as [tn Htn].
  destruct (ensure_schedule_for slot s) as [s1 [schedule|e]]; simpl in Hd1, Htn; [|done].
  assert (pending s1 = pending s) as Hp1 by by rewrite Htn. clear Htn.
  apply next_deadline_Some in Hn as (p & Hp & Hr). unfold bind at 1.
  pose proof (drives_defer slot schedule now pr h s1 Hd1) as Hd2.
  pose proof (defer_counts slot schedule now s1) as Hcount.
  destruct (defer_for_progress slot schedule now s1) as [s2 [[]|e]] eqn:Hdf; [| |done].
  - apply IH; [done|]. assert (ready_count now s1 = ready_count now s) as Heq
      by (unfold ready_count; by rewrite Hp1).
    destruct Hd1 as [_ Hh1].
    assert (ready_count now s2 < ready_count now s1)%nat; [|lia]. apply Hcount; [|exists p|done].
    + unfold current_hedge_delay. by rewrite Hh1.
    + rewrite Hp1. eauto.
  - unfold bind at 1. destruct Hd2 as [Hpr2 _]. simpl in Hpr2.
    set (l := match pending s !! slot with Some _ => _ | None => _ end).
    pose proof (propose_returns pf slot l (EpochSchedule.leader schedule) s2) as Hret.
    destruct (propose pf slot l (EpochSchedule.leader schedule) s2) as [s3 [[d|]|e]]; [|..|done].
    + unfold bind. by destruct (accept_decision d s3) as [s4 [ds|e]].
    + destruct (Hret s3); [done|by rewrite Hpr2|done].
Qed.

(** C39: [poll] always returns: whatever is pending and whatever the recorders,
    the application and the store answer, as long as replies are not behind
    their requests, one turn per pending proposal and the proposer's own step
    limit are enough. *)
Theorem poll_returns pf now s s' :
  never_behind (network (V:=V) (X:=X)) → enough pf (proposer s) →
  0 ≤ current_hedge_delay s → poll pf now s ≠ (s', Ok None).
Proof.
  intros Hnb Hpf Hh. unfold poll, bind at 1.
  pose proof (flush_talks s) as (x & st & an & Hfl).
  destruct (flush_decision_notifications s) as [s1 [u|e]]; [|done]. simpl in *.
  assert (proposer s1 = proposer s ∧ hedge_delay s1 = hedge_delay s) as [Hpr Hhd] by by rewrite Hfl.
  unfold bind at 1. pose proof (drives_arm now (proposer s) (hedge_delay s) s1) as Hd.
  destruct (arm_available now s1) as [s2 [k|e]]; [|done]. simpl in Hd.
  unfold bind at 1, reads at 1.
  apply (poll_loop_returns pf (S (size (pending s2))) now (proposer s) (hedge_delay s)); try done.
  - by apply Hd.
  - apply le_n_S, map_size_filter.
Qed.
End polling.
