(* ===== verification/Reconfigure.v ===== *)
(** * Membership changes of a runtime

  [install_membership] runs only on a drained pipeline whose whole prefix has
  been acknowledged, changes everything or nothing of the configuration, and
  keeps the invariant when the next epoch has the proposers of all retained
  decisions, as every joint epoch does. *)
From S2P Require Import Prelude Errors Types Membership Isr Recorder Durable Proposer Replica.
From S2P Require Import Policy Schedule Runtime RuntimeSteps RuntimeInvariant Checkpoint.
Import ReplicaRuntime.

Section reconfigure.
Context {V : Type} `{Countable V} {R : Type} `{!PrioritySource R}.
Context {St E N X : Type}.
Context `{!RuntimeStateStore V St, !StateMachine V E, !ClientNotifier V N, !RecorderClients V X}.
Implicit Types s : t V R St E N X.
Implicit Types change : MembershipChange.t V.

(** ** The steps of the operation *)

Lemma valid_recorders_for cl rs :
  validate_recorders_for_cluster cl rs = Ok tt → id_set rs = id_set (ClusterIdentity.members cl).
Proof.
  unfold validate_recorders_for_cluster. destruct (repeats_id _); [done|].
  destruct (negb (bool_decide _)) eqn:Hb; [done|]. intros _.
  by apply negb_false_iff, bool_decide_eq_true in Hb.
Qed.

(** Installing at the recorders changes the world and nothing else. *)
Lemma install_recorders_frame change rs s : ∃ x, (install_recorders change rs s).1 = set_world s x.
Proof.
  revert s. induction rs as [|k rs IH]; intros s; simpl; [exists (world s); by destruct s|].
  unfold bind, zoom. destruct (aux_call _ _ _) as [x [u|e]]; simpl; [|by exists x].
  destruct (IH (set_world s x)) as [x' ->]. by exists x'.
Qed.

(** What the last step does, from the state [s2] in which the recorders have
    acknowledged. *)
Definition switched change rs s2 (r : Result unit) s' : Prop :=
  match r with
  | Ok _ => ∃ st, s' = set_state_store (activate change rs s2) st
                  ∧ runtime_save (state_store s2) (runtime_snapshot (activate change rs s2))
                    = (st, Ok tt)
  | Err e => ∃ st, s' = deactivate s2 (set_state_store (activate change rs s2) st)
                   ∧ runtime_save (state_store s2) (runtime_snapshot (activate change rs s2))
                     = (st, Err e)
  end.

(** The preconditions the code checks, and how far a call gets. *)
Lemma runtime_install_cases change rs s s' r :
  install_membership change rs s = (s', r) →
  let next := MembershipChange.next change in
  let anchor := MembershipChange.anchor change in
  (s' = s ∧ is_ok r = false)
  ∨ (s' = set_recorders s rs ∧ r = Ok tt ∧ next = ReplicaRuntimeConfig.cluster (config s)
     ∧ validate_recorders_for_cluster next rs = Ok tt)
  ∨ (ClusterIdentity.is_successor_of next (ReplicaRuntimeConfig.cluster (config s)) = true
     ∧ ReplicaCore.committed_through (replica s) = Decision.slot anchor
     ∧ decisions s !! Decision.slot anchor = Some anchor ∧ pending s = ∅
     ∧ ∃ s1, (flush_decision_notifications s).1 = s1
       ∧ ((is_ok r = false ∧ ∃ x, s' = set_world s1 x)
          ∨ (ensure_fully_announced s1 (Decision.slot anchor) = Ok tt
             ∧ validate_recorders_for_cluster next rs = Ok tt
             ∧ ∃ x, install_recorders change rs s1 = (set_world s1 x, Ok tt)
                ∧ switched change rs (set_world s1 x) r s'))).
Proof.
  unfold install_membership. unfold bind at 1, lift at 1.
  destruct (MembershipChange.validate_binding change) as [[]|e]; [|intros [= <- <-]; by left].
  unfold bind at 1, reads at 1. simpl.
  destruct (bool_decide_reflect (MembershipChange.next change = ReplicaRuntimeConfig.cluster (config s)))
    as [Heq|Hne].
  { unfold bind, lift, modify. destruct (validate_recorders_for_cluster _ rs) as [[]|e] eqn:Hv;
      intros [= <- <-]; [right; left|by left]. by split_and!. }
  destruct (ClusterIdentity.is_successor_of _ _) eqn:Hsucc; simpl; [|intros [= <- <-]; by left].
  destruct (_ || _) eqn:Hdr; [intros [= <- <-]; by left|].
  apply orb_false_iff in Hdr as [[[Hc Hd]%orb_false_iff Hp]%orb_false_iff _].
  apply negb_false_iff, Z.eqb_eq in Hc. apply negb_false_iff, bool_decide_eq_true in Hd, Hp.
  intros Hrun. right. right. split_and!; try done. eexists. split; [done|]. revert Hrun.
  unfold bind at 1. destruct (flush_decision_notifications s) as [s1 [[]|e]]; simpl;
    [|intros [= <- <-]; left; split; [done|]; exists (world s1); by destruct s1].
  unfold bind at 1, readr at 1.
  destruct (ensure_fully_announced s1 _) as [[]|e];
    [|intros [= <- <-]; left; split; [done|]; exists (world s1); by destruct s1].
  unfold bind at 1, lift at 1.
  destruct (validate_recorders_for_cluster _ rs) as [[]|e];
    [|intros [= <- <-]; left; split; [done|]; exists (world s1); by destruct s1].
  unfold bind at 1. destruct (install_recorders_frame change rs s1) as [x Hx].
  destruct (install_recorders change rs s1) as [s2 [[]|e]]; simpl in Hx; subst s2;
    [|intros [= <- <-]; left; by eauto].
  unfold persist. destruct (runtime_save _ _) as [st [[]|e]] eqn:Hs; intros [= <- <-]; right;
    split_and!; try done; exists x; (split; [done|]); simpl; by exists st.
Qed.

(** ** All or nothing *)

(** Everything but the configuration, and what goes with it. *)
Definition same_log s s' : Prop :=
  replica s' = replica s ∧ decisions s' = decisions s ∧ pending s' = pending s
  ∧ executed s' = executed s ∧ notified s' = notified s ∧ state_machine s' = state_machine s.

Lemma install_same_log change rs s s' r :
  install_membership change rs s = (s', r) → same_log s s'.
Proof.
  intros [[-> _]|[(-> & _)|(_ & _ & _ & _ & s1 & Hs1 & Hrest)]]%runtime_install_cases;
    [by split_and!..|].
  pose proof (flush_talks s) as (y & st0 & an & Hfl). rewrite Hs1 in Hfl. clear Hs1. subst s1.
  destruct Hrest as [(_ & x & ->)|(_ & _ & x & _ & Hsw)]; [by split_and!|].
  by destruct r; destruct Hsw as (st & -> & _); split_and!.
Qed.

(** The proposer runs in the configured cluster: [new] and every later
    [install_membership] put it there. *)
Definition proposer_configured s : Prop :=
  ProposerCore.configure_cluster (proposer s) (ReplicaRuntimeConfig.cluster (config s)) = proposer s.

Lemma reconfigure_twice (p : ProposerCore.t R) cl cl' :
  ProposerCore.configure_cluster (ProposerCore.configure_cluster p cl') cl
  = ProposerCore.configure_cluster p cl.
Proof. done. Qed.

(** C40: a membership change is all or nothing in memory: on every path the
    log, the decisions and their delivery stay as they are; when the call
    answers Ok the runtime runs in the next epoch with exactly its recorders;
    when it fails, in whatever step, configuration, recorders, schedules and
    proposer are those of the old epoch. *)
Theorem membership_change_all_or_nothing change rs s s' r :
  proposer_configured s →
  install_membership change rs s = (s', r) →
  same_log s s'
  ∧ match r with
    | Ok _ =>
        config s' = ReplicaRuntimeConfig.install_cluster (config s) (MembershipChange.next change)
        ∧ recorders s' = rs
        ∧ id_set rs = id_set (ClusterIdentity.members (MembershipChange.next change))
        ∧ proposer_configured s'
    | Err _ =>
        config s' = config s ∧ recorders s' = recorders s ∧ tuner s' = tuner s
        ∧ proposer s' = proposer s
    end.
Proof.
  intros Hpc Hi. split; [by eapply install_same_log|].
  apply runtime_install_cases in Hi
    as [[-> Hr]|[(-> & -> & Hn & Hv)|(Hsucc & _ & _ & _ & s1 & Hs1 & Hrest)]]; [by destruct r|..].
  - rewrite Hn. split_and!; try done.
    + simpl. by destruct (config s).
    + rewrite <-Hn. by apply valid_recorders_for.
  - pose proof (flush_talks s) as (y & st0 & an & Hfl). rewrite Hs1 in Hfl. clear Hs1. subst s1.
    destruct Hrest as [(Hr & x & ->)|(_ & Hv & x & _ & Hsw)]; [by destruct r|].
    destruct r as [u|e]; destruct Hsw as (st & -> & _); split_and!; try done.
    by apply valid_recorders_for.
Qed.

(** A change is installed only after the anchor is the last committed
    decision, nothing is pending, and every member of the old epoch has
    acknowledged every retained decision up to the anchor. *)
Theorem membership_change_waits_for_everyone change rs s s' u :
  MembershipChange.next change ≠ ReplicaRuntimeConfig.cluster (config s) →
  install_membership change rs s = (s', Ok u) →
  let anchor := MembershipChange.anchor change in
  ReplicaCore.committed_through (replica s) = Decision.slot anchor
  ∧ decisions s !! Decision.slot anchor = Some anchor ∧ pending s = ∅
  ∧ ∀ i d, decisions s !! i = Some d → i ≤ Decision.slot anchor →
      announced_to (flush_decision_notifications s).1 !! i
      = Some (id_set (ReplicaRuntimeConfig.members (config s))).
Proof.
  intros Hne [[_ ?]|[(_ & _ & ? & _)|(Hsucc & Hc & Hd & Hp & s1 & Hs1 & Hrest)]]%runtime_install_cases;
    [done..|]. simpl. split_and!; try done. intros i d Hi Hle. rewrite Hs1.
  pose proof (flush_talks s) as (y & st0 & an & Hfl). rewrite Hs1 in Hfl.
  destruct Hrest as [(? & _)|(Ha & _)]; [done|].
  assert (config s1 = config s ∧ decisions s1 = decisions s) as [Hcf Hds] by by rewrite Hfl.
  rewrite <-Hcf. apply (fully_announced s1 _ i d Ha); [by rewrite Hds|done].
Qed.

(** ** Changes that keep the invariant *)

(** The next epoch has the proposers of all retained decisions. A joint epoch
    always has; one that drops a member has when the decisions of that member
    were checkpointed before. *)
Definition keeps_proposers s (next : ClusterIdentity.t) : Prop :=
  ∀ i d, decisions s !! i = Some d → ClusterIdentity.contains next (Decision.proposer d) = true.

Lemma joint_keeps_proposers s next :
  runtime_ok s → ClusterIdentity.is_joint next = true →
  ClusterIdentity.is_successor_of next (ReplicaRuntimeConfig.cluster (config s)) = true →
  keeps_proposers s next.
Proof.
  intros Hok Hj Hsucc i d Hi. apply (joint_successor_members _ _ Hsucc Hj).
  destruct (po_valid _ _ _ _ _ _ _ _ _ Hok i d Hi) as [_ Hval].
  unfold validate_decision in Hval. destruct (is_empty _); [done|].
  by destruct (ClusterIdentity.contains _ _).
Qed.

Lemma activate_ok change rs s :
  runtime_ok s → id_set rs = id_set (ClusterIdentity.members (MembershipChange.next change)) →
  ClusterIdentity.members (MembershipChange.next change) ≠ [] →
  keeps_proposers s (MembershipChange.next change) → runtime_ok (activate change rs s).
Proof.
  intros [Hm Hp Hc Hf Hd Hv Hpe Hx Hn Ha Hr [Ht1 Ht2 Ht3 Ht4 Ht5]] Hrs Hne Hkeep.
  split; simpl; try done.
  - intros i d Hi. destruct (Hv i d Hi) as [Hck Hval]. split; [done|].
    unfold validate_decision in *. simpl. destruct (is_empty _); [done|].
    rewrite (Hkeep i d Hi). by destruct (ClusterIdentity.contains _ _) in Hval.
  - intros i rc. rewrite lookup_fmap_Some. intros (rc0 & <- & Hi).
    destruct (Ha i rc0 Hi) as [Hs _]. split; [done|]. unfold ReplicaRuntimeConfig.members. simpl.
    set_solver.
Qed.

(** Whatever comes of an installation that keeps the proposers, the invariant
    holds after it; and so it does of the state whose snapshot it tries to
    save, which is in the next epoch. *)
Lemma install_keeps_invariant change rs s s' r :
  runtime_ok s → last_claim s < U64.MAX → keeps_proposers s (MembershipChange.next change) →
  install_membership change rs s = (s', r) →
  runtime_ok s' ∧ replica s' = replica s
  ∧ (state_store s' = state_store s
     ∨ ∃ s1, rtc tick s s1 ∧ replica s1 = replica s
         ∧ (state_store s' = state_store s1
            ∨ ∃ s2 o, runtime_ok s2 ∧ runtime_save (state_store s1) (runtime_snapshot s2) = (state_store s', o)
                ∧ config s2 = ReplicaRuntimeConfig.install_cluster (config s) (MembershipChange.next change))).
Proof.
  intros Hok Hmax Hkeep
    [[-> Hr]|[(-> & -> & Hn & Hv)|(Hsucc & _ & Hanc & _ & s1 & Hs1 & Hrest)]]%runtime_install_cases.
  - split_and!; [done..|by left].
  - split_and!; [|done|by left]. pose proof Hok as [Hm Hp Hc Hf Hd Hv' Hpe Hx Hnt Ha Hr Htu]. split; try done.
    simpl. unfold ReplicaRuntimeConfig.members. rewrite <-Hn. by apply valid_recorders_for.
  - pose proof (flush_talks s) as (y & st0 & an & Hfl).
    pose proof (ticks_flush s (runtime_ok_keyed _ Hok)) as Ht. rewrite Hs1 in Hfl, Ht.
    assert (replica s1 = replica s ∧ config s1 = config s ∧ decisions s1 = decisions s)
      as (Hrp & Hcf & Hds) by (by rewrite Hfl).
    assert (runtime_ok s1) as Hok1.
    { eapply ticks_ok; [done..|]. unfold last_claim in *. by rewrite Hrp. }
    destruct Hrest as [(Hr & x & ->)|(_ & Hv & x & _ & Hsw)].
    { split_and!; [exact Hok1|done|]. right. exists s1. split_and!; [done..|by left]. }
    assert (runtime_ok (activate change rs (set_world s1 x))) as Hact.
    { apply activate_ok; [exact Hok1|by apply valid_recorders_for| |].
      - intros Hnil. apply Hkeep in Hanc. unfold ClusterIdentity.contains in Hanc.
        rewrite Hnil in Hanc. by apply bool_decide_eq_true, elem_of_nil in Hanc.
      - unfold keeps_proposers. simpl. by rewrite Hds. }
    assert (∃ st o, runtime_save (state_store s1) (runtime_snapshot (activate change rs (set_world s1 x)))
              = (st, o) ∧ state_store s' = st ∧ runtime_ok s' ∧ replica s' = replica s1)
      as (st & o & Hsave & Hst & Hok' & Hrp').
    { destruct r as [u|e]; simpl in Hsw; destruct Hsw as (st & -> & Hsave); exists st; eexists;
        (split; [exact Hsave|]); split_and!; try done; exact Hok1. }
    split_and!; [done|congruence|]. right. exists s1. split_and!; [done..|right].
    eexists _, o. split; [exact Hact|]. rewrite Hst. split; [done|]. simpl. by rewrite Hcf.
Qed.

(** A runtime that enters a joint epoch satisfies the invariant again, so
    every theorem about reachable runtimes applies in the new epoch. *)
Theorem joint_epoch_keeps_invariant change rs s s' r :
  runtime_ok s → ClusterIdentity.is_joint (MembershipChange.next change) = true →
  ClusterIdentity.is_successor_of (MembershipChange.next change)
    (ReplicaRuntimeConfig.cluster (config s)) = true →
  install_membership change rs s = (s', r) →
  last_claim s < U64.MAX → runtime_ok s'.
Proof.
  intros Hok Hj Hs Hi Hmax. eapply install_keeps_invariant; [done..| |done].
  by apply joint_keeps_proposers.
Qed.
End reconfigure.
