(* ===== verification/RuntimeLife.v ===== *)
(** * The life of a runtime, all entry points together

  A runtime starts on an empty store, runs its operations, installs membership
  changes and state transfers, and is stopped and started again on what its
  store holds. [life] collects the states it can be in, also inside an
  operation; every one of them satisfies the invariant and can be restarted.
  [session] follows one process and what its application executes. *)
From S2P Require Import Prelude Errors Types Membership Isr Recorder Durable Proposer Replica.
From S2P Require Import Policy Schedule Runtime RuntimeSteps RuntimeInvariant Delivery Restart.
From S2P Require Import Checkpoint Reconfigure.
Import ReplicaRuntime.

Section life.
Context {V : Type} `{Countable V} {R : Type} `{!PrioritySource R}.
Context {St E N X : Type}.
Context `{!RuntimeStateStore V St, !StateMachine V E, !ClientNotifier V N, !RecorderClients V X}.
Context (content : St → option (RuntimeSnapshot.t V)) `{!RuntimeStateStoreLaws V St content}.
Context (ord : relation V) `{!RelDecision ord}.
Implicit Types s d : t V R St E N X.

(** ** What lies on disk *)

(** Configurations of one deployment: the limits and the protocol are the same,
    the membership may have changed. *)
Definition deployed (cfg cfg' : ReplicaRuntimeConfig.t) : Prop :=
  ReplicaRuntimeConfig.replica cfg' = ReplicaRuntimeConfig.replica cfg
  ∧ ReplicaRuntimeConfig.epoch_size cfg' = ReplicaRuntimeConfig.epoch_size cfg
  ∧ ReplicaRuntimeConfig.auto_schedules cfg' = ReplicaRuntimeConfig.auto_schedules cfg.

#[local] Instance deployed_equiv : Equivalence deployed.
Proof.
  split; [by intros ?|by intros ?? (?&?&?)|].
  intros ??? (?&?&?) (?&?&?). split_and!; congruence.
Qed.

(** Nothing, or the snapshot of a runtime of the deployment that satisfied the
    invariant. *)
Definition restorable (cfg : ReplicaRuntimeConfig.t) (st : St) : Prop :=
  content st = None
  ∨ ∃ s, content st = Some (runtime_snapshot s) ∧ runtime_ok s ∧ deployed (config s) cfg.

Lemma restorable_deployed cfg cfg' st : deployed cfg cfg' → restorable cfg st → restorable cfg' st.
Proof. intros Hd [?|(s & ? & ? & ?)]; [by left|]. right. exists s. split_and!; [done..|by etrans]. Qed.

Lemma save_restorable cfg st st' o s :
  runtime_save st (runtime_snapshot s) = (st', o) → runtime_ok s → deployed (config s) cfg →
  restorable cfg st → restorable cfg st'.
Proof.
  intros Hs Hok Hd Hr. assert (content st' = content st ∨ content st' = Some (runtime_snapshot s)) as Hc.
  { destruct o as [[]|]; [right; by eapply runtime_save_Ok|by eapply runtime_save_Err]. }
  unfold restorable. destruct Hc as [->| ->]; [done|]. right. by exists s.
Qed.

Lemma tick_restorable s s' :
  runtime_ok s → tick s s' → restorable (config s) (state_store s) →
  restorable (config s') (state_store s').
Proof.
  intros Hok Ht Hd. rewrite (tick_config _ _ Ht). destruct (tick_store _ _ Ht) as [->| ->]; [done|].
  unfold persist. destruct (runtime_save _ _) as [st r] eqn:Hs. by eapply save_restorable.
Qed.

Lemma ticks_restorable s s' :
  runtime_ok s → rtc tick s s' → last_claim s' < U64.MAX → restorable (config s) (state_store s) →
  restorable (config s') (state_store s').
Proof.
  intros Hok Ht. induction Ht as [|s1 s2 s3 Ht Hts IH]; [done|]. intros Hmax Hd.
  pose proof (ticks_last_claim _ _ Hts). assert (last_claim s2 < U64.MAX) by lia.
  apply IH; [by eapply tick_ok|done|by eapply tick_restorable].
Qed.

(** ** Starting *)

(** A configuration of the deployment whose membership is that of the stored
    snapshot resumes it. *)
Lemma redeployed_resumes cfg s :
  runtime_ok s → deployed (config s) cfg →
  ReplicaRuntimeConfig.cluster cfg = ReplicaRuntimeConfig.cluster (config s) →
  let s1 := set_config s cfg in
  runtime_ok s1 ∧ runtime_snapshot s1 = runtime_snapshot s.
Proof.
  intros Hok (Hr & He & Ha) Hc. split.
  - by eapply (alike_parts (config s) cfg); [split_and!|exact Hok].
  - unfold runtime_snapshot, ReplicaRuntimeConfig.protocol_identity. simpl. by rewrite Hc, He, Ha.
Qed.

(** What a start leaves, given what the store held. *)
Definition resumes (st : St) s : Prop :=
  match content st with
  | Some snap => runtime_snapshot s = snap
  | None => decisions s = ∅ ∧ pending s = ∅
  end.

Lemma start_ok cfg proposer rs st e n x s :
  config_ok (ReplicaRuntimeConfig.replica cfg) → ReplicaRuntimeConfig.members cfg ≠ [] →
  restorable cfg st → new cfg proposer rs st e n x = Ok s →
  runtime_ok s ∧ config s = cfg ∧ restorable cfg (state_store s) ∧ resumes st s.
Proof.
  intros Hcfg Hmembers Hd Hnew.
  destruct (new_shape _ _ _ _ _ _ _ _ Hnew) as (Hfit & Hc & st' & o & Hl & Hst).
  destruct (runtime_load_content _ _ _ Hl) as [Ho Hcont].
  assert (restorable cfg (state_store s)) as Hd'.
  { unfold restorable. by rewrite Hst, Hcont. }
  unfold resumes. destruct Hd as [Hd|(s1 & Hd & Hok & Hc1)]; rewrite Hd in Ho |- *; subst o.
  - destruct (fresh_ok _ _ _ _ _ _ _ _ _ Hcfg Hmembers Hl Hnew) as (Hok & _). split_and!; try done;
      revert Hnew; unfold new; rewrite Hl; destruct (validate_recorders _ _); [|done| |done];
      (destruct (_ || _); [done|]); (destruct (validate_restored_state _); [|done]); by intros [= <-].
  - assert (ReplicaRuntimeConfig.cluster cfg = ReplicaRuntimeConfig.cluster (config s1)) as Hcl.
    { revert Hnew. unfold new. rewrite Hl. destruct (validate_recorders _ _); [|done].
      destruct (_ || _); [done|]. unfold same_configuration. simpl.
      destruct (bool_decide_reflect (ReplicaRuntimeConfig.cluster (config s1)
                                     = ReplicaRuntimeConfig.cluster cfg)); done. }
    destruct (redeployed_resumes cfg s1 Hok Hc1 Hcl) as [Hok1 Hs1]. rewrite <-Hs1 in Hl |- *.
    destruct (new_resumes proposer rs st st' e n x _ Hok1 Hfit Hl) as (Heq & Hok' & Hsnap).
    simpl in Heq. rewrite Hnew in Heq. by injection Heq as ->.
Qed.

(** ** Installing a state transfer *)

(** What it leaves of the snapshot of a runtime [d] of the deployment. *)
Lemma install_transfer_shape tr s d s' r :
  runtime_ok s → runtime_ok d → alike (config d) (config s) →
  StateTransferSnapshot.runtime tr = runtime_snapshot d →
  install_state_transfer tr s = (s', r) →
  s' = s
  ∨ StateTransferSnapshot.through tr = ReplicaCore.checkpointed_through (replica d)
    ∧ ∃ e, (import_checkpoint (state_machine s) (StateTransferSnapshot.through tr)
             (StateTransferSnapshot.application_checkpoint tr)).1 = e
    ∧ (s' = set_state_machine s e
       ∨ ∃ st o, runtime_save (state_store s) (runtime_snapshot d) = (st, o)
           ∧ (s' = set_state_store (set_state_machine s e) st
              ∨ s' = transferred (set_state_store (set_state_machine s e) st) d)).
Proof.
  intros Hok Hokd Hal Htr. unfold install_state_transfer. rewrite Htr.
  destruct (negb _) eqn:Hth; [intros [= <- _]; by left|].
  apply negb_false_iff, Z.eqb_eq in Hth. unfold bind at 1, readr.
  rewrite (alike_restores s d Hok Hokd Hal). unfold bind at 1, run_machine, zoom at 1.
  destruct (import_checkpoint _ _ _) as [e [u|err]]; intros Hs; right;
    (split; [done|]); exists e; (split; [done|]).
  - unfold bind, zoom, modify in Hs. right. simpl in Hs.
    destruct (runtime_save (state_store s) (runtime_snapshot d)) as [st o] eqn:Hsave.
    exists st, o. split; [done|]. destruct o; injection Hs as <- _; [by right|by left].
  - left. by injection Hs as <- _.
Qed.

(** ** All a runtime can be *)

(** A runtime of the deployment between two steps. [LifeStep] are the steps
    inside an operation, between which it may be stopped; a membership change
    keeps the proposers of the retained decisions; a state transfer carries the
    snapshot of another runtime in the same epoch; a restart is with the
    deployment's limits and protocol. *)
Inductive life : t V R St E N X → Prop :=
| LifeStart cfg proposer rs st e n x s :
    config_ok (ReplicaRuntimeConfig.replica cfg) → ReplicaRuntimeConfig.members cfg ≠ [] →
    content st = None → new cfg proposer rs st e n x = Ok s → last_claim s < U64.MAX → life s
| LifeOp op s :
    life s → op_fits op → last_claim (run_op ord op s) < U64.MAX → life (run_op ord op s)
| LifeStep s s' : life s → tick s s' → last_claim s' < U64.MAX → life s'
| LifeInstall change rs s s' r :
    life s → keeps_proposers s (MembershipChange.next change) →
    install_membership change rs s = (s', r) → life s'
| LifeTransfer tr s d s' r :
    life s → life d → StateTransferSnapshot.runtime tr = runtime_snapshot d →
    alike (config d) (config s) → install_state_transfer tr s = (s', r) → life s'
| LifeRestart cfg proposer rs e n x s s' :
    life s → deployed (config s) cfg → ReplicaRuntimeConfig.members cfg ≠ [] →
    new cfg proposer rs (state_store s) e n x = Ok s' → last_claim s' < U64.MAX → life s'.

Record life_inv s : Prop := {
  li_ok : runtime_ok s;
  li_claim : last_claim s < U64.MAX;
  li_limits : config_ok (ReplicaRuntimeConfig.replica (config s));
  li_store : restorable (config s) (state_store s);
}.

Lemma ticks_life_inv s s' : rtc tick s s' → last_claim s' < U64.MAX → life_inv s → life_inv s'.
Proof.
  intros Ht Hmax [Hok Hcl Hlim Hst]. pose proof (ticks_config _ _ Ht) as Hc.
  split; [by eapply ticks_ok|done|by rewrite Hc|by eapply ticks_restorable].
Qed.

Lemma install_life_inv change rs s s' r :
  keeps_proposers s (MembershipChange.next change) → install_membership change rs s = (s', r) →
  life_inv s → life_inv s'.
Proof.
  intros Hk Hi [Hok Hcl Hlim Hst].
  destruct (install_keeps_invariant change rs s s' r Hok Hcl Hk Hi) as (Hok' & Hrp & Hstore).
  assert (deployed (config s) (config s')) as Hdep.
  { apply runtime_install_cases in Hi
      as [[-> _]|[(-> & _)|(_ & _ & _ & _ & s1 & Hs1 & Hrest)]]; [reflexivity..|].
    destruct (flush_talks s) as (y & st0 & an & Hfl). rewrite Hs1 in Hfl.
    assert (config s1 = config s) as Hcf by (by rewrite Hfl). rewrite <-Hcf.
    destruct Hrest as [(_ & x & ->)|(_ & _ & x & _ & Hsw)]; [by split_and!|].
    by destruct r; destruct Hsw as (st & -> & _); split_and!. }
  split; [done|unfold last_claim in *; by rewrite Hrp|by rewrite (proj1 Hdep)|].
  destruct Hstore as [->|(s1 & Ht & Hrp1 & Hs1)]; [by eapply restorable_deployed|].
  assert (restorable (config s') (state_store s1)) as Hr1.
  { eapply restorable_deployed, (ticks_restorable s s1); [by rewrite (ticks_config _ _ Ht)|done..| |done].
    unfold last_claim in *. by rewrite Hrp1. }
  destruct Hs1 as [->|(s2 & o & Hok2 & Hsave & Hc2)]; [done|].
  eapply save_restorable; [done..| |done]. etrans; [|exact Hdep]. by rewrite Hc2.
Qed.

Lemma transfer_life_inv tr s d s' r :
  StateTransferSnapshot.runtime tr = runtime_snapshot d → alike (config d) (config s) →
  install_state_transfer tr s = (s', r) → life_inv s → life_inv d → life_inv s'.
Proof.
  intros Htr Hal Hi [Hok Hcl Hlim Hst] [Hokd Hcld _ _].
  assert (deployed (config d) (config s)) as Hdep by (by destruct Hal as (_&?&?&?)).
  destruct (install_transfer_shape tr s d s' r) as [->|(_ & e & _ & [->|(st & o & Hs & Hs')])]; try done.
  assert (restorable (config s) st) as Hst' by (by eapply save_restorable).
  destruct Hs' as [->| ->]; [done|].
  by destruct (transferred_ok (set_state_store (set_state_machine s e) st) d Hok Hokd Hal) as [? _].
Qed.

Lemma life_invariant s : life s → life_inv s.
Proof.
  induction 1 as [cfg proposer rs st e n x s Hlim Hm Hc Hnew Hmax|op s _ IH Hf Hmax|s s' _ IH Ht Hmax
    |change rs s s' r _ IH Hk Hi|tr s d s' r _ IHs _ IHd Htr Hal Hi|cfg proposer rs e n x s s' _ IH Hd Hm Hnew Hmax].
  - destruct (start_ok _ _ _ _ _ _ _ _ Hlim Hm (or_introl Hc) Hnew) as (?&Hcf&Hr&_).
    split; [done..|by rewrite Hcf|by rewrite Hcf].
  - eapply ticks_life_inv; [|done..]. by apply run_op_ticks; [apply runtime_ok_keyed, IH|].
  - eapply ticks_life_inv; [by apply rtc_once|done..].
  - by eapply install_life_inv.
  - by eapply transfer_life_inv.
  - assert (config_ok (ReplicaRuntimeConfig.replica cfg)) as Hlim
      by (rewrite (proj1 Hd); apply IH).
    destruct (start_ok cfg proposer rs (state_store s) e n x s' Hlim Hm) as (?&Hcf&Hr&_);
      [by eapply restorable_deployed, IH|done|].
    split; [done..|by rewrite Hcf|by rewrite Hcf].
Qed.

Lemma run_op_claim ops op s :
  runtime_ok s → op_fits op → Forall op_fits ops → last_claim (run_ops ord (op :: ops) s) < U64.MAX →
  last_claim (run_op ord op s) < U64.MAX.
Proof.
  intros Hok Hf Hfs Hmax. pose proof (run_op_ticks ord op s (runtime_ok_keyed _ Hok) Hf) as Ht.
  pose proof (ticks_last_claim _ _ (run_ops_ticks ord ops (run_op ord op s)
    (ticks_keyed _ _ (runtime_ok_keyed _ Hok) Ht) Hfs)) as Hle. simpl in Hmax. lia.
Qed.

Lemma life_ops ops s :
  life s → Forall op_fits ops → last_claim (run_ops ord ops s) < U64.MAX → life (run_ops ord ops s).
Proof.
  intros Hl Hf. revert s Hl. induction Hf as [|op ops Hop Hf IH]; intros s Hl Hmax; [done|].
  apply IH; [|done]. apply LifeOp; [done..|]. apply (run_op_claim ops); [|done..].
  by apply life_invariant.
Qed.

(** C38: every entry point of a runtime keeps it well formed, on every path,
    errors and restarts included: the retained decisions are those of the log
    above the checkpoint, pending proposals are the undecided claims of the log,
    executed and reported slots are committed, and schedules, statistics and
    acknowledgements fit the membership. The entry points are the operations of
    [runtime_op], [install_membership] for a change whose members include the
    proposers of the retained decisions (every joint epoch does; without that
    it is refuted, [reconfigured_runtime_cannot_restart]), and
    [install_state_transfer] of a transfer that a runtime of the deployment made
    in the same epoch; slots stay below the last [u64]. *)
Theorem runtime_well_formed s : life s → runtime_ok s.
Proof. intros Hl. apply life_invariant, Hl. Qed.

(** The membership the store names: that of the last snapshot written. *)
Definition stored_cluster s : ClusterIdentity.t :=
  match content (state_store s) with
  | Some snap => RuntimeSnapshot.cluster snap
  | None => ReplicaRuntimeConfig.cluster (config s)
  end.

(** C9: at any point of its life, between any two steps, a runtime can be
    stopped and started again on what its store holds: as long as the store can
    be read, [new], with the limits and protocol of the deployment and the
    membership the store names, accepts the snapshot, resumes exactly the state
    it describes, and the invariant holds again. The life includes membership
    changes whose members include the proposers of the retained decisions
    (otherwise [new] rejects the snapshot,
    [reconfigured_runtime_cannot_restart]), state transfers made by runtimes of
    the deployment, failed saves and earlier restarts. *)
Theorem runtime_restarts cfg proposer rs e n x s st' o :
  life s → deployed (config s) cfg → ReplicaRuntimeConfig.cluster cfg = stored_cluster s →
  fits_config proposer rs cfg → runtime_load (state_store s) = (st', Ok o) →
  ∃ s', new cfg proposer rs (state_store s) e n x = Ok s' ∧ runtime_ok s' ∧ resumes (state_store s) s'.
Proof.
  intros [Hok _ Hlim Hst]%life_invariant Hdep Hcl Hfit Hl. unfold stored_cluster in Hcl.
  destruct (runtime_load_content _ _ _ Hl) as [Ho _]. unfold resumes.
  destruct Hst as [Hd|(s1 & Hd & Hok1 & Hc1)]; rewrite Hd in Ho, Hcl |- *; subst o.
  - assert (∃ s', new cfg proposer rs (state_store s) e n x = Ok s') as [s' Hnew].
    { destruct Hfit as (Hrs & Hid & Hlane). unfold new.
      rewrite Hrs, Hid, Hlane, !Z.eqb_refl, Hl. simpl. by eexists. }
    exists s'. split; [done|].
    destruct (start_ok cfg proposer rs (state_store s) e n x s') as (?&_&_&Hres);
      [by rewrite (proj1 Hdep)|unfold ReplicaRuntimeConfig.members; rewrite Hcl; apply Hok
      |by left|done|]. unfold resumes in Hres. by rewrite Hd in Hres.
  - destruct (redeployed_resumes cfg s1 Hok1) as [Hok1' Hs1]; [by etrans|done|].
    rewrite <-Hs1 in Hl |- *. eexists.
    by apply (new_resumes proposer rs _ st' e n x (set_config s1 cfg) Hok1' Hfit Hl).
Qed.
End life.

(** ** What the application executes *)

Section session.
Context {V : Type} `{Countable V} {R : Type} `{!PrioritySource R}.
Context {St E N X : Type}.
Context `{!RuntimeStateStore V St, !StateMachine V E, !ClientNotifier V N, !RecorderClients V X}.
Context (content : St → option (RuntimeSnapshot.t V)) `{!RuntimeStateStoreLaws V St content}.
Context (ord : relation V) `{!RelDecision ord}.
Abbreviation runtime := (t V R St (E * list (Decision.t V)) N X).
Implicit Types (s d : runtime) (im : gset Z).

(** One process from an empty store on, and the slots that the transfers it
    installed mark as executed: they are in the application checkpoints it
    imported. A transfer reaches past everything the process has executed. *)
Inductive session : gset Z → runtime → Prop :=
| SessionStart cfg proposer rs st e n x s :
    config_ok (ReplicaRuntimeConfig.replica cfg) → ReplicaRuntimeConfig.members cfg ≠ [] →
    content st = None → new cfg proposer rs st (e, []) n x = Ok s → last_claim s < U64.MAX →
    session ∅ s
| SessionOp im op s :
    session im s → op_fits op → last_claim (run_op ord op s) < U64.MAX →
    session im (run_op ord op s)
| SessionInstall im change rs s s' r :
    session im s → keeps_proposers s (MembershipChange.next change) →
    install_membership change rs s = (s', r) → session im s'
| SessionTransfer im im' tr s d s' r :
    session im s → session im' d → StateTransferSnapshot.runtime tr = runtime_snapshot d →
    alike (config d) (config s) →
    (∀ i, i ∈ history_slots s → i ≤ StateTransferSnapshot.through tr) →
    install_state_transfer tr s = (s', r) → session (im ∪ executed d) s'.

Lemma session_life im s : session im s → life content ord s.
Proof.
  induction 1 as [| | |im im' tr s d s' r _ IHs _ IHd Htr Hal _ Hi];
    [by eapply LifeStart|by apply LifeOp|by eapply LifeInstall|].
  exact (LifeTransfer content ord tr s d s' r IHs IHd Htr Hal Hi).
Qed.

Lemma session_runs im ops s :
  session im s → Forall op_fits ops → last_claim (run_ops ord ops s) < U64.MAX →
  session im (run_ops ord ops s).
Proof.
  intros Hs Hf. revert s Hs. induction Hf as [|op ops Hop Hf IH]; intros s Hs Hmax; [done|].
  apply IH; [|done]. apply SessionOp; [done..|]. apply (run_op_claim ord ops); [|done..].
  apply (life_invariant _ _ _ (session_life _ _ Hs)).
Qed.

Lemma in_order_more im im' s : im ⊆ im' → in_order im s → in_order im' s.
Proof. intros Him [Hs Hk Hl Hp]. split; try done. intros i [?|?]%Hl; [by left|right; set_solver]. Qed.

Lemma transfer_in_order im im' tr s d s' r :
  runtime_ok s → runtime_ok d → in_order im s → in_order im' d →
  StateTransferSnapshot.runtime tr = runtime_snapshot d → alike (config d) (config s) →
  (∀ i, i ∈ history_slots s → i ≤ StateTransferSnapshot.through tr) →
  install_state_transfer tr s = (s', r) → in_order (im ∪ executed d) s'.
Proof.
  intros Hok Hokd Hio Hiod Htr Hal Hpast Hi. assert (in_order (im ∪ executed d) s) as Hio'
    by (eapply in_order_more, Hio; set_solver).
  destruct (install_transfer_shape tr s d s' r) as [->|(Hth & e & He & Hs')]; [done..|].
  assert (e.2 = history s) as Hh.
  { subst e. unfold history. destruct (state_machine s) as [e0 l]. simpl. by destruct (import_checkpoint e0 _ _). }
  destruct Hs' as [->|(st & o & _ & [->| ->])]; [by apply (in_order_frame _ s)..|].
  split; unfold history_slots, history in *; simpl; rewrite ?Hh.
  - apply Hio.
  - intros d' Hd'. left. rewrite <-Hth. apply Hpast. by apply list_elem_of_fmap_2.
  - intros i Hx. right. set_solver.
  - apply Hiod.
Qed.

Lemma start_in_order cfg proposer rs st e n x s :
  config_ok (ReplicaRuntimeConfig.replica cfg) → ReplicaRuntimeConfig.members cfg ≠ [] →
  content st = None → new cfg proposer rs st (e, []) n x = Ok s → in_order ∅ s.
Proof.
  intros Hlim Hm Hc Hnew. destruct (new_shape _ _ _ _ _ _ _ _ Hnew) as (_ & _ & st' & o & Hl & _).
  destruct (runtime_load_content _ _ _ Hl) as [-> _]. rewrite Hc in Hl.
  destruct (fresh_ok _ _ _ _ _ _ _ _ _ Hlim Hm Hl Hnew) as (_ & Hx & He).
  split; unfold history_slots, history; rewrite ?He, ?Hx; simpl;
    [constructor|by intros d ?%elem_of_nil|by intros i ?%elem_of_empty|by intros i j ?%elem_of_empty].
Qed.

Lemma session_in_order im s : session im s → in_order im s.
Proof.
  induction 1 as [cfg proposer rs st e n x s Hlim Hm Hc Hnew Hmax|im op s Hs IH Hf Hmax
    |im change rs s s' r Hs IH Hk Hi|im im' tr s d s' r Hs IHs Hd IHd Htr Hal Hpast Hi].
  - by eapply start_in_order.
  - pose proof (life_invariant _ _ _ (session_life _ _ Hs)) as Hl.
    eapply ticks_in_order; [apply Hl| |done..]. by apply run_op_ticks; [apply runtime_ok_keyed, Hl|].
  - destruct (install_same_log _ _ _ _ _ Hi) as (Hr & Hd & _ & Hx & _ & He).
    apply (in_order_frame _ s); try done. unfold history. by rewrite He.
  - eapply transfer_in_order; try done;
      [apply (life_invariant _ _ _ (session_life _ _ Hs))|apply (life_invariant _ _ _ (session_life _ _ Hd))].
Qed.

End session.
