(* ===== verification/LocalCluster.v ===== *)
(** * An in-process cluster behind a runtime

  The endpoints of a runtime as recorders in the same process: every call runs
  [RecorderCore] directly, unless the endpoint is down. It implements the
  promise that checkpoints rely on, and it is the world in which the concrete
  runs of this file are evaluated. *)
From S2P Require Import Prelude Errors Types Membership Isr Recorder Durable Proposer Replica.
From S2P Require Import Policy Schedule Runtime RuntimeSteps RuntimeInvariant Delivery Restart.
From S2P Require Import Checkpoint.
Import ReplicaRuntime.

Module Local.
Section cluster.
Context {V : Type} `{EqDecision V}.

Record t : Type := mk {
  recorders : gmap Z (RecorderCore.t V);
  down : list ReplicaId;
  now : Z;
}.

Definition unreachable {A} : RecorderHandle.worker A :=
  RecorderHandle.Answered (Err (QuePaxaError.TransportError "connection refused")).

(** Serves a call on recorder [k]. *)
Definition serve {A} (x : t) (k : ReplicaId) (m : M (RecorderCore.t V) QuePaxaError.t A)
    : t * RecorderHandle.worker A :=
  if bool_decide (k ∈ down x) then (x, unreachable)
  else match recorders x !! k with
       | None => (x, unreachable)
       | Some r => let '(r, a) := m r in
                   (mk (<[k := r]> (recorders x)) (down x) (now x), RecorderHandle.Answered a)
       end.

Definition answer {A} (w : RecorderHandle.worker A) : Result A :=
  match w with
  | RecorderHandle.Answered r => r
  | _ => Err (QuePaxaError.TransportError "no answer")
  end.

(** Every request of a phase reaches its recorder, in order; all payloads are
    available. *)
Fixpoint phase (x : t) (requests : list (ReplicaId * RecordRequest.t V)) : t * list (event V) :=
  match requests with
  | [] => (x, [])
  | (k, request) :: requests =>
      let '(x, w) := serve x k (RecorderCore.record (λ _, Ok tt) request) in
      let '(x, events) := phase x requests in
      (x, Arrival k (answer w) :: events)
  end.

#[export] Instance clients : RecorderClients V t := {|
  endpoint_busy := λ _ _, false;
  rpc_inform := λ x k ds, serve x k (RecorderCore.inform_decisions ds);
  rpc_status := λ x k slot, serve x k (reads (λ r, RecorderCore.status r slot));
  rpc_install := λ x k change, serve x k (RecorderCore.install_membership change);
  network := λ x requests,
    let '(x, events) := phase x requests in
    (x, {| busy := λ _, false; spawns := λ _, true; deadline_fits := true; events := events |});
  clock_now := now;
  sleep := λ x delay, mk (recorders x) (down x) (now x + delay);
  instant_limit := U64.MAX;
|}.

(** A recorder knows a decision when it retains one with the same values or
    has pruned the slot. *)
Definition recorder_knows (r : RecorderCore.t V) (d : Decision.t V) : Prop :=
  Decision.slot d ≤ RecorderCore.pruned_through r
  ∨ ∃ d', RecorderCore.decisions r !! Decision.slot d = Some d'
      ∧ Decision.value_ids d' = Decision.value_ids d.

Definition knows (x : t) (k : ReplicaId) (d : Decision.t V) : Prop :=
  ∃ r, recorders x !! k = Some r ∧ recorder_knows r d.

Lemma advances_knows r r' d : advances r r' → recorder_knows r d → recorder_knows r' d.
Proof.
  intros [Hp Ha] [Hd|(d' & Hd & Hv)]; [left; lia|].
  destruct (Z.le_gt_cases (Decision.slot d) (RecorderCore.pruned_through r')); [by left|].
  right. exists d'. destruct (Ha (Decision.slot d)) as (_ & Hk & _); [lia|]. by split; [apply Hk|].
Qed.

Lemma serve_keeps {A} (x : t) k (m : M _ _ A) k' d :
  (∀ r, advances r (m r).1) → knows x k' d → knows (serve x k m).1 k' d.
Proof.
  intros Hm (r & Hr & Hd). unfold serve. case_bool_decide; [by exists r|].
  destruct (recorders x !! k) as [r1|] eqn:Hr1; [|by exists r].
  specialize (Hm r1). destruct (m r1) as [r2 a]. simpl in *. unfold knows. simpl.
  destruct (decide (k = k')) as [->|Hne].
  - exists r2. rewrite lookup_insert_eq. split; [done|]. simplify_eq. by eapply advances_knows.
  - exists r. by rewrite lookup_insert_ne.
Qed.

Lemma phase_keeps (x : t) requests k' d : knows x k' d → knows (phase x requests).1 k' d.
Proof.
  revert x. induction requests as [|[k req] requests IH]; intros x Hk; simpl; [done|].
  pose proof (serve_keeps x k (RecorderCore.record (λ _, Ok tt) req) k' d) as Hs.
  destruct (serve _ _ _) as [x1 w]. specialize (IH x1). destruct (phase x1 requests) as [x2 ev].
  simpl in *. apply IH, Hs; [|done]. intros r. apply record_advances.
Qed.

Lemma inform_Ok_knows (d : Decision.t V) r r' :
  RecorderCore.inform_decisions [d] r = (r', Ok tt) → recorder_knows r' d.
Proof.
  unfold RecorderCore.inform_decisions. cbn [for_each]. unfold bind at 1.
  destruct (RecorderCore.inform_decision d r) as [r1 [[]|e]] eqn:Hi; [|done]. intros [= <-].
  revert Hi. unfold RecorderCore.inform_decision, bind, readr, reads, ret, throw, modify.
  destruct (RecorderCore.validate_decision r d) as [[]|]; [|done].
  destruct (Z.leb_spec (Decision.slot d) (RecorderCore.pruned_through r)).
  { intros [= <-]. by left. }
  destruct (RecorderCore.decisions r !! Decision.slot d) as [d'|] eqn:Hd.
  - destruct (bool_decide_reflect (Decision.value_ids d' = Decision.value_ids d)); [|done].
    intros [= <-]. right. by exists d'.
  - destruct (_ =? _); [done|]. intros [= <-]. right. exists d. split; [|done].
    simpl. by rewrite lookup_insert_eq.
Qed.

#[export] Instance clients_laws : RecorderClientsLaws V t knows.
Proof.
  split; simpl.
  - intros x x' k d. unfold serve. case_bool_decide; [done|].
    destruct (recorders x !! k) as [r|] eqn:Hr; [|done].
    destruct (RecorderCore.inform_decisions [d] r) as [r' a] eqn:Hi. intros [= <- ->].
    exists r'. simpl. rewrite lookup_insert_eq. split; [done|]. by eapply inform_Ok_knows.
  - intros x k ds k' d'. apply serve_keeps. intros r. apply learned_advances, inform_all_learned.
  - intros x k slot k' d'. apply serve_keeps. done.
  - intros x requests k' d' Hk. pose proof (phase_keeps x requests k' d' Hk) as Hp.
    by destruct (phase x requests).
  - intros x delay k' d' Hk. exact Hk.
Qed.

(** Replies are not behind the requests they answer. *)
Lemma record_step_ge (r : IntervalSummaryRegister.t V) st p :
  st ≤ RecordSummary.step (IntervalSummaryRegister.record r st p).2.
Proof.
  unfold IntervalSummaryRegister.record. simpl.
  destruct (Z.eqb_spec st (IntervalSummaryRegister.step r)); simpl; [lia|].
  destruct (Z.ltb_spec (IntervalSummaryRegister.step r) st); simpl; lia.
Qed.

Lemma phase_never_behind (x : t) requests k reply :
  Arrival k (Ok reply) ∈ (phase x requests).2 →
  ∃ request, (k, request) ∈ requests ∧ RecordRequest.step request ≤ reply_step reply.
Proof.
  revert x. induction requests as [|[k0 req] requests IH]; intros x; simpl; [by intros ?%elem_of_nil|].
  destruct (serve x k0 _) as [x1 w] eqn:Hw. specialize (IH x1).
  destruct (phase x1 requests) as [x2 ev]. simpl in *.
  intros [[= -> Ha]|Hin]%elem_of_cons.
  - exists req. split; [left|]. revert Hw. unfold serve. case_bool_decide; [intros [= <- <-]; done|].
    destruct (recorders x !! k0) as [r|]; [|intros [= <- <-]; done].
    destruct (RecorderCore.record _ req r) as [r' a] eqn:Hr. intros [= <- <-]. simpl in Ha. subst a.
    apply record_Ok in Hr as (_ & _ & _ & _ & mid & _ & _ & _ & ->). apply record_step_ge.
  - destruct (IH Hin) as (request & ? & ?). exists request. split; [by right|done].
Qed.

Lemma clients_never_behind : never_behind (network (V:=V) (X:=t)).
Proof.
  intros x requests k reply. simpl. pose proof (phase_never_behind x requests k reply) as Hp.
  by destruct (phase x requests).
Qed.
End cluster.
Arguments t : clear implicits.
End Local.

(** ** A store whose saves may fail *)

Module Flaky.
Record t {V : Type} `{Countable V} : Type := mk {
  held : option (RuntimeSnapshot.t V);
  failures : list bool;
}.
Arguments t V {_ _}.
Arguments mk {V _ _} _ _.

Definition load `{Countable V} (self : t V) : t V * Result (option (RuntimeSnapshot.t V)) :=
  (self, Ok (held self)).
Definition save `{Countable V} (self : t V) (snap : RuntimeSnapshot.t V) : t V * Result unit :=
  match failures self with
  | true :: failures => (mk (held self) failures, Err (QuePaxaError.StorageError "disk full"))
  | _ => (mk (Some snap) (tail (failures self)), Ok tt)
  end.

#[export] Instance store `{Countable V} : RuntimeStateStore V (t V) := {|
  runtime_load := load;
  runtime_save := save;
|}.

#[export] Instance store_laws `{Countable V} : RuntimeStateStoreLaws V (t V) held.
Proof.
  split; simpl; unfold load, save.
  - by intros s s' o [= <- <-].
  - intros s s' snap. destruct (failures s) as [|[] l]; by intros [= <-].
  - intros s s' snap e. destruct (failures s) as [|[] l]; intros [= <-]; by left.
Qed.
End Flaky.
