(* ===== verification/RuntimeRuns.v ===== *)
(** * Runtimes on concrete inputs

  Whole runs, evaluated: a runtime with its proposer, its store and three
  in-process recorders. They instantiate the theorems about runtimes, and show
  what the runtime does in corner cases its theorems leave out: a claim whose
  save failed, a membership that drops a proposer or the local replica, and a
  state transfer below the pruning floor. *)
From S2P Require Import Prelude Errors Types Membership Isr Recorder Durable Proposer Replica.
From S2P Require Import Policy Schedule Runtime RuntimeSteps RuntimeInvariant Delivery Restart.
From S2P Require Import Checkpoint Polling Reconfigure RuntimeLife LocalCluster.
Import ReplicaRuntime.
Import (hints) Local Flaky.

Abbreviation rt := (ReplicaRuntime.t Z XorShift64.t (Flaky.t Z)
  (NoopStateMachine.t * list (Decision.t Z)) NoopClientNotifier.t (Local.t Z)).
Abbreviation rt_op := (runtime_op (V:=Z)).

(** ** The setting *)

Definition run_config (k : ReplicaId) : ReplicaRuntimeConfig.t :=
  ReplicaRuntimeConfig.mk k 0 ex_stable (ReplicaConfig.mk 2 4 16 16 64) 8 0
    (Duration.from_secs 30) false None.

Definition run_recorder (k : ReplicaId) : RecorderCore.t Z :=
  RecorderCore.new (RecorderConfig.mk k ex_stable RecorderLimits.default).
Definition run_recorders : gmap Z (RecorderCore.t Z) :=
  {[1 := run_recorder 1; 2 := run_recorder 2; 3 := run_recorder 3]}.

Definition run_proposer (k : ReplicaId) : ProposerCore.t XorShift64.t :=
  ProposerCore.with_rng k 0 (XorShift64.new 7).
Definition run_schedule : rt_op := OpSchedule (EpochSchedule.mk 0 [1; 2; 3]).

(** Replica [k] started on a store, among recorders of which some are down. *)
Definition boot (k : ReplicaId) (store : Flaky.t Z) (recorders : gmap Z (RecorderCore.t Z))
    (down : list ReplicaId) : Result rt :=
  new (run_config k) (run_proposer k) [1; 2; 3] store (NoopStateMachine.mk, [])
      NoopClientNotifier.mk (Local.mk recorders down 0).

Definition first_boot (failures : list bool) (down : list ReplicaId) : Result rt :=
  boot 1 (Flaky.mk None failures) run_recorders down.

Definition run_ops_on (r : Result rt) (ops : list rt_op) : Result rt :=
  let? s := r in Ok (run_ops Z.le ops s).

(** ** A claim whose save failed

  [arm_available] saves when it has just claimed a slot. When that save fails
  the claim stays in memory, and the next poll, which claims nothing new, does
  not save: it proposes a batch of which the disk knows nothing. *)

(** Replica 1 cannot save its claim of slot 1 for [10]; it proposes it all the
    same, to recorders 2 and 3, and stops before anything was saved. *)
Definition unsaved_before : Result rt :=
  run_ops_on (first_boot [false; false; true; true] [1])
    [run_schedule; OpSubmit [10]; OpPoll 3 0; OpPoll 3 0].

(** Replica 2 learns from them that slot 1 is decided, executes it, and stops
    before it tells a recorder. *)
Definition unsaved_witness : Result rt :=
  let? s := unsaved_before in
  run_ops_on (boot 2 (Flaky.mk None [false; false; false; false; false; true])
                   (Local.recorders (world s)) [1])
    [run_schedule; OpSubmit [20]; OpPoll 3 0].

(** Replica 1 restarts, claims slot 1 for [10; 11], and reaches recorders 1
    and 2. *)
Definition unsaved_after : Result rt :=
  let? s := unsaved_before in
  let? w := unsaved_witness in
  run_ops_on (boot 1 (Flaky.mk (Flaky.held (state_store s)) []) (Local.recorders (world w)) [3])
    [OpSubmit [11]; OpPoll 3 0].

(** After a failed save the runtime proposes a claim that is not on disk;
    restarted, it claims the same slot again with another batch, under the
    same proposal key, and two replicas execute different batches for it. *)
Theorem unsaved_claim_breaks_agreement :
  ∃ s w s', unsaved_before = Ok s ∧ unsaved_witness = Ok w ∧ unsaved_after = Ok s'
    ∧ RuntimeSnapshot.pending <$> Flaky.held (state_store s) = Some ∅
    ∧ history w = [Decision.mk 1 [10] 1 4]
    ∧ history s' = [Decision.mk 1 [10; 11] 1 4].
Proof.
  eexists _, _, _. split; [vm_compute; reflexivity|]. split; [vm_compute; reflexivity|].
  split; [vm_compute; reflexivity|]. split_and!; vm_compute; reflexivity.
Qed.

(** ** A membership that drops a proposer

  The anchor decisions of two changes, from [1; 2; 3] through the joint epoch
  to [2; 3; 4]. Replica 1 proposed the first. Recorder 4 joins with the
  decision it missed. *)

Definition joining_recorders : gmap Z (RecorderCore.t Z) :=
  <[4 := (RecorderCore.inform_decisions [rp_first]
            (RecorderCore.new (RecorderConfig.mk 4 rp_stable RecorderLimits.default))).1]>
    run_recorders.

Definition to_joint : MembershipChange.t Z := MembershipChange.mk rp_first rp_joint 99.
Definition to_final : MembershipChange.t Z := MembershipChange.mk rp_second rp_final 100.

Definition install (change : MembershipChange.t Z) (rs : list ReplicaId) (r : Result rt)
    : Result rt :=
  let? s := r in
  match install_membership change rs s with
  | (s, Ok _) => Ok s
  | (_, Err e) => Err e
  end.

Definition anchored (k : ReplicaId) : Result rt :=
  run_ops_on (boot k (Flaky.mk None []) joining_recorders []) [run_schedule; OpReceive rp_first].

Definition reconfigured (k : ReplicaId) : Result rt :=
  install to_final [2; 3; 4]
    (run_ops_on (install to_joint [1; 2; 3; 4] (anchored k)) [OpReceive rp_second]).

(** After a finalized reconfiguration the runtime cannot restart while it
    retains a decision of a removed proposer: [new] re-validates retained
    decisions against the current membership. *)
Theorem reconfigured_runtime_cannot_restart :
  ∃ s, reconfigured 2 = Ok s
    ∧ ReplicaRuntimeConfig.cluster (config s) = rp_final
    ∧ new (config s) (run_proposer 2) [2; 3; 4] (state_store s) (state_machine s) (notifier s)
          (world s)
      = Err (QuePaxaError.InvalidSender 1).
Proof. eexists. split; [vm_compute; reflexivity|]. split_and!; vm_compute; reflexivity. Qed.

(** In the runtime of a replica that the new membership leaves out, arming
    a proposal runs into the [expect] of [deadline_for]: no valid schedule
    lists the local replica any more, and the process panics. *)
Theorem removed_replica_panics :
  ∃ s, reconfigured 1 = Ok s
    ∧ (arm_available 0 (run_ops Z.le [OpSchedule (EpochSchedule.mk 0 [2; 3; 4]); OpSubmit [50]] s)).2
      = Err (QuePaxaError.PolicyError "validated schedules include the local replica").
Proof. eexists. split; [vm_compute; reflexivity|vm_compute; reflexivity]. Qed.

(** ** The theorems on concrete runs *)

(** What a call that succeeded returned. *)
Definition get {A} (r : Result A) (Hr : is_ok r = true) : A :=
  match r as r return is_ok r = true → A with
  | Ok a => λ _, a
  | Err _ => λ Hr, match diff_false_true Hr with end
  end Hr.

Lemma get_ok {A} (r : Result A) Hr : r = Ok (get r Hr).
Proof. by destruct r. Qed.

Lemma start_boots : is_ok (first_boot [] []) = true.
Proof. vm_compute. reflexivity. Qed.
Definition start : rt := get _ start_boots.
Lemma start_eq : first_boot [] [] = Ok start.
Proof. apply get_ok. Qed.

(** Three values in two batches, decided by polling, and a checkpoint. *)
Definition session_ops : list rt_op :=
  [run_schedule; OpSubmit [10; 11; 12]; OpPoll 3 0; OpPoll 3 0; OpCheckpoint 1].
Definition session : rt := run_ops Z.le session_ops start.

Lemma config_fits k : config_ok (ReplicaRuntimeConfig.replica (run_config k)).
Proof. vm_compute. split_and!; discriminate. Qed.
Lemma members_there k : ReplicaRuntimeConfig.members (run_config k) ≠ [].
Proof. discriminate. Qed.
Lemma ops_fit (ops : list rt_op) :
  forallb (λ op, match op with OpReceive d => Decision.slot d <? U64.MAX | _ => true end) ops = true →
  Forall op_fits ops.
Proof.
  intros Hb. apply Forall_forall. intros op Hop. apply list_elem_of_In in Hop.
  rewrite forallb_forall in Hb. specialize (Hb op Hop). destruct op; try done. by apply Z.ltb_lt.
Qed.

Lemma empty_store : runtime_load (V:=Z) (Flaky.mk None []) = (Flaky.mk None [], Ok None).
Proof. reflexivity. Qed.

Lemma first_start_ok : runtime_ok start.
Proof.
  exact (proj1 (fresh_ok _ _ _ _ _ _ _ _ _ (config_fits 1) (members_there 1) empty_store start_eq)).
Qed.

Lemma run_from_start_ok ops :
  forallb (λ op, match op with OpReceive d => Decision.slot d <? U64.MAX | _ => true end) ops = true →
  last_claim (run_ops Z.le ops start) < U64.MAX → runtime_ok (run_ops Z.le ops start).
Proof. intros Hops Hmax. apply run_ops_ok; [apply first_start_ok|by apply ops_fit|done]. Qed.

(** A decision from another replica. *)
Definition received : Decision.t Z := Decision.mk 1 [20] 2 4.

Lemma receive_delivers_committed_witness :
  ∃ s' ds, receive_decision received (run_ops Z.le [run_schedule] start) = (s', Ok ds)
    ∧ history_slots s' = [1] ∧ all_delivered s'.
Proof.
  eexists _, _. split; [vm_compute; reflexivity|]. split; [vm_compute; reflexivity|].
  eapply (receive_delivers_committed Z.le (run_config 1) (run_proposer 1) [1; 2; 3]
    (Flaky.mk None []) (Flaky.mk None []) NoopStateMachine.mk NoopClientNotifier.mk
    (Local.mk run_recorders [] 0) start).
  - apply config_fits.
  - apply members_there.
  - reflexivity.
  - apply start_eq.
  - apply (ops_fit [run_schedule]). reflexivity.
  - vm_compute. reflexivity.
  - instantiate (1 := received). vm_compute. reflexivity.
  - vm_compute. reflexivity.
  - vm_compute. reflexivity.
  - vm_compute. reflexivity.
Defined.

Lemma accepted_decision_is_durable_witness :
  ∃ s' ds, receive_decision received start = (s', Ok ds)
    ∧ ∃ snap, Flaky.held (state_store s') = Some snap
        ∧ RuntimeSnapshot.decisions snap !! 1 = Some received.
Proof.
  eexists _, _. split; [vm_compute; reflexivity|].
  eapply (accepted_decision_is_durable (V:=Z) Flaky.held received start).
  - apply first_start_ok.
  - vm_compute. reflexivity.
  - vm_compute. reflexivity.
  - vm_compute. reflexivity.
Defined.

(** Replica 1 hands its state at slot 1 to replica 2, which is new. *)
Definition donor : rt :=
  run_ops Z.le [run_schedule; OpSubmit [10; 11; 12]; OpPoll 3 0; OpPoll 3 0] start.

Lemma donor_ok : runtime_ok donor.
Proof. apply run_from_start_ok; [reflexivity|vm_compute; reflexivity]. Qed.

Definition second_boot : Result rt := boot 2 (Flaky.mk None []) run_recorders [].
Lemma second_boots : is_ok second_boot = true.
Proof. vm_compute. reflexivity. Qed.
Definition newcomer : rt := get _ second_boots.

Lemma newcomer_ok : runtime_ok newcomer.
Proof.
  exact (proj1 (fresh_ok _ _ _ _ _ _ _ _ _ (config_fits 2) (members_there 2) empty_store
                  (get_ok second_boot second_boots))).
Qed.

(** The state and the answer of a call that succeeded. *)
Definition answers {S A} (c : S * Result A) : Prop := is_ok c.2 = true.
Lemma answers_eq {S A} (c : S * Result A) (Hc : answers c) : c = (c.1, Ok (get c.2 Hc)).
Proof. unfold answers in Hc. destruct c as [s [a|e]]; done. Qed.

Definition export := create_state_transfer Z.le 1 donor.
Lemma exports : answers export.
Proof. vm_compute. reflexivity. Qed.
Definition transfer : StateTransferSnapshot.t Z := get _ exports.

Lemma state_transfer_installs_witness :
  ∃ s2', install_state_transfer transfer newcomer = (s2', Ok tt) ∧ runtime_ok s2'
    ∧ runtime_snapshot s2' = runtime_snapshot export.1
    ∧ Flaky.held (state_store s2') = Some (runtime_snapshot export.1).
Proof.
  eapply (state_transfer_installs (V:=Z) Flaky.held Z.le 1 donor export.1 transfer newcomer).
  - apply donor_ok.
  - vm_compute. reflexivity.
  - vm_compute. discriminate.
  - apply (answers_eq export exports).
  - apply newcomer_ok.
  - vm_compute. split_and!; reflexivity.
  - vm_compute. reflexivity.
  - vm_compute. reflexivity.
Defined.

(** After the checkpoint at slot 1 a transfer at slot 0 is useless. *)
Definition low_export := create_state_transfer Z.le 0 session.
Lemma low_exports : answers low_export.
Proof. vm_compute. reflexivity. Qed.

Lemma transfer_below_floor_rejected_witness :
  (install_state_transfer (get _ low_exports) newcomer).2
  = Err (QuePaxaError.InvalidProposal
           "state-transfer checkpoint does not match the runtime pruning floor").
Proof.
  rewrite (transfer_below_floor_rejected (V:=Z) Z.le 0 session low_export.1
    (get _ low_exports) newcomer).
  - reflexivity.
  - vm_compute. reflexivity.
  - apply (answers_eq low_export low_exports).
Defined.

(** What slot 1 decided, known to all three recorders after the checkpoint. *)
Definition checkpointed := checkpoint_through 1 donor.

Lemma checkpoint_drops_only_known_witness :
  checkpointed.2 = Ok tt
  ∧ Local.knows (world checkpointed.1) 3 (Decision.mk 1 [10; 11] 1 4).
Proof.
  split; [vm_compute; reflexivity|].
  apply (checkpoint_drops_only_known (V:=Z) Local.knows Z.le (run_config 1) (run_proposer 1) [1; 2; 3]
    (Flaky.mk None []) (Flaky.mk None []) (NoopStateMachine.mk, []) NoopClientNotifier.mk
    (Local.mk run_recorders [] 0) start
    [run_schedule; OpSubmit [10; 11; 12]; OpPoll 3 0; OpPoll 3 0] checkpointed.1 1 (config_fits 1)
    (members_there 1) empty_store start_eq) with (i := 1).
  - apply ops_fit. reflexivity.
  - vm_compute. reflexivity.
  - vm_compute. reflexivity.
  - vm_compute. reflexivity.
  - lia.
  - vm_compute. repeat constructor.
Defined.

Lemma poll_returns_witness :
  (poll 1025 0 (run_ops Z.le [run_schedule; OpSubmit [10]] start)).2
    = Ok (Some (RuntimePoll.Committed [Decision.mk 1 [10] 1 4]))
  ∧ ∀ s', poll 1025 0 (run_ops Z.le [run_schedule; OpSubmit [10]] start) ≠ (s', Ok None).
Proof.
  split; [vm_compute; reflexivity|]. intros s'. apply poll_returns.
  - apply Local.clients_never_behind.
  - vm_compute. reflexivity.
  - vm_compute. discriminate.
Defined.

(** The change into the joint epoch. *)
Definition joining_boot : Result rt := boot 2 (Flaky.mk None []) joining_recorders [].
Lemma joining_boots : is_ok joining_boot = true.
Proof. vm_compute. reflexivity. Qed.
Definition before_joint : rt :=
  run_ops Z.le [run_schedule; OpReceive rp_first] (get _ joining_boots).
Definition joint_change := install_membership to_joint [1; 2; 3; 4] before_joint.
Lemma joint_changes : answers joint_change.
Proof. vm_compute. reflexivity. Qed.

Lemma membership_change_all_or_nothing_witness :
  config joint_change.1 = ReplicaRuntimeConfig.install_cluster (config before_joint) rp_joint
  ∧ decisions joint_change.1 = decisions before_joint.
Proof.
  pose proof (membership_change_all_or_nothing to_joint [1; 2; 3; 4] before_joint joint_change.1
    (Ok (get _ joint_changes))) as [Hlog Hok].
  - vm_compute. reflexivity.
  - apply (answers_eq joint_change joint_changes).
  - split; [apply Hok|apply Hlog].
Defined.

Lemma membership_change_waits_for_everyone_witness :
  ReplicaCore.committed_through (replica before_joint) = 1
  ∧ announced_to (flush_decision_notifications before_joint).1 !! 1 = Some (id_set [1; 2; 3]).
Proof.
  pose proof (membership_change_waits_for_everyone to_joint [1; 2; 3; 4] before_joint joint_change.1
    (get _ joint_changes)) as (Hc & _ & _ & Ha).
  - vm_compute. discriminate.
  - apply (answers_eq joint_change joint_changes).
  - split; [exact Hc|]. apply (Ha 1 rp_first); vm_compute; [reflexivity|discriminate].
Defined.

Lemma before_joint_ok : runtime_ok before_joint.
Proof.
  apply run_ops_ok; [|by apply ops_fit|vm_compute; reflexivity].
  exact (proj1 (fresh_ok _ _ _ _ _ _ _ _ _ (config_fits 2) (members_there 2) empty_store
                  (get_ok joining_boot joining_boots))).
Qed.

Lemma joint_epoch_keeps_invariant_witness : runtime_ok joint_change.1.
Proof.
  apply (joint_epoch_keeps_invariant to_joint [1; 2; 3; 4] before_joint joint_change.1
    (Ok (get _ joint_changes))).
  - apply before_joint_ok.
  - reflexivity.
  - vm_compute. reflexivity.
  - apply (answers_eq joint_change joint_changes).
  - vm_compute. reflexivity.
Defined.

(** ** A whole life

  Replica 2 enters the joint epoch, learns slot 2, checkpoints slot 1, whose
  proposer is leaving, and enters the final epoch: now it can be restarted. *)

Abbreviation alive := (life (V:=Z) Flaky.held Z.le).
Abbreviation one_session := (RuntimeLife.session (V:=Z) Flaky.held Z.le).

Definition in_joint : rt := run_ops Z.le [OpReceive rp_second; OpCheckpoint 1] joint_change.1.
Definition final_change := install_membership to_final [2; 3; 4] in_joint.
Definition in_final : rt := final_change.1.
Lemma final_changes : answers final_change.
Proof. vm_compute. reflexivity. Qed.

Lemma before_joint_session : one_session ∅ before_joint.
Proof.
  apply (session_runs Flaky.held Z.le); [|by apply ops_fit|vm_compute; reflexivity].
  eapply SessionStart; [apply (config_fits 2)|apply (members_there 2)| |
    apply (get_ok joining_boot joining_boots)|]; vm_compute; reflexivity.
Qed.

Lemma in_joint_session : one_session ∅ in_joint.
Proof.
  apply (session_runs Flaky.held Z.le); [|by apply ops_fit|vm_compute; reflexivity].
  apply (SessionInstall Flaky.held Z.le ∅ to_joint [1; 2; 3; 4] before_joint joint_change.1
           (Ok (get _ joint_changes)));
    [apply before_joint_session| |apply (answers_eq joint_change joint_changes)].
  apply joint_keeps_proposers; [apply before_joint_ok|vm_compute; reflexivity..].
Qed.

Lemma in_joint_retained : decisions in_joint = {[2 := rp_second]}.
Proof. vm_compute. reflexivity. Qed.

Lemma in_final_session : one_session ∅ in_final.
Proof.
  apply (SessionInstall Flaky.held Z.le ∅ to_final [2; 3; 4] in_joint in_final (Ok (get _ final_changes)));
    [apply in_joint_session| |apply (answers_eq final_change final_changes)].
  intros i d. rewrite in_joint_retained. intros [_ <-]%lookup_singleton_Some. vm_compute. reflexivity.
Qed.

Lemma in_final_alive : alive in_final.
Proof. eapply session_life, in_final_session. Qed.

Lemma runtime_well_formed_witness :
  ReplicaRuntimeConfig.cluster (config in_final) = rp_final ∧ runtime_ok in_final.
Proof.
  split; [vm_compute; reflexivity|].
  apply (runtime_well_formed (V:=Z) Flaky.held Z.le in_final in_final_alive).
Defined.

(** It starts again in the final epoch with what it had. *)
Lemma runtime_restarts_witness :
  ∃ s', new (config in_final) (run_proposer 2) [2; 3; 4] (state_store in_final)
            (state_machine in_final) (notifier in_final) (world in_final) = Ok s'
    ∧ runtime_ok s' ∧ resumes Flaky.held (state_store in_final) s'.
Proof.
  eapply (runtime_restarts (V:=Z) Flaky.held Z.le (config in_final)).
  - exact in_final_alive.
  - split_and!; reflexivity.
  - vm_compute. reflexivity.
  - split_and!; vm_compute; reflexivity.
  - vm_compute. reflexivity.
Defined.

(** ** A transfer from a replica that is ahead of it

  The donor has executed slot 2 when it exports its state at slot 1. The
  newcomer takes over what the donor has executed, and goes on with slot 3. *)

Lemma first_session ops :
  forallb (λ op, match op with OpReceive d => Decision.slot d <? U64.MAX | _ => true end) ops = true →
  last_claim (run_ops Z.le ops start) < U64.MAX → one_session ∅ (run_ops Z.le ops start).
Proof.
  intros Hops Hmax. apply (session_runs Flaky.held Z.le); [|by apply ops_fit|done].
  eapply SessionStart; [apply (config_fits 1)|apply (members_there 1)| |apply start_eq|];
    vm_compute; reflexivity.
Qed.

Definition donor_ops : list rt_op :=
  [run_schedule; OpSubmit [10; 11; 12]; OpPoll 3 0; OpPoll 3 0; OpTransfer 1].
Definition exporter : rt := run_ops Z.le donor_ops start.
Definition installation := install_state_transfer transfer newcomer.
Lemma installation_answers : answers installation.
Proof. vm_compute. reflexivity. Qed.
Definition third : Decision.t Z := Decision.mk 3 [13] 1 4.
Definition caught_up : rt := run_ops Z.le [OpReceive third] installation.1.

Lemma transfer_exported : StateTransferSnapshot.runtime transfer = runtime_snapshot exporter.
Proof. vm_compute. reflexivity. Qed.

Lemma caught_up_session : one_session (∅ ∪ executed exporter) caught_up.
Proof.
  apply (session_runs Flaky.held Z.le); [|by apply ops_fit|vm_compute; reflexivity].
  apply (SessionTransfer Flaky.held Z.le ∅ ∅ transfer newcomer exporter installation.1
           (Ok (get _ installation_answers))).
  - eapply SessionStart; [apply (config_fits 2)|apply (members_there 2)| |
      apply (get_ok second_boot second_boots)|]; vm_compute; reflexivity.
  - apply first_session; vm_compute; reflexivity.
  - exact transfer_exported.
  - vm_compute. split_and!; reflexivity.
  - assert (history_slots newcomer = []) as -> by (vm_compute; reflexivity).
    by intros i ?%elem_of_nil.
  - apply (answers_eq installation installation_answers).
Qed.


(** A slot the donor has executed above the transferred checkpoint is never
    executed by the replica that installs the transfer, not even when its
    decision arrives again: an application checkpoint that covers [through] and
    nothing more misses it. *)
Theorem transferred_slot_is_not_executed :
  installation.2 = Ok tt
  ∧ StateTransferSnapshot.through transfer = 1
  ∧ history_slots caught_up = [3]
  ∧ history_slots (run_ops Z.le [OpReceive (Decision.mk 2 [12] 1 4); OpRecover] caught_up) = [3]
  ∧ decisions caught_up !! 2 = Some (Decision.mk 2 [12] 1 4).
Proof. split_and!; vm_compute; reflexivity. Qed.
