(* ===== verification/Codec.v ===== *)
(** * Versioned, checksummed snapshots (src/network/codec.rs)

  The bytes of a value come from postcard and the checksum from SHA-256: both
  are arguments, the first with the one law the crate relies on. What the
  crate adds, the envelope with its version, checksum and size limit, is
  modelled; a snapshot that decodes is the one that was encoded. The file
  behind a snapshot is that of [Durable], with what survives a crash. *)
From S2P Require Import Prelude Errors Types Recorder Durable Runtime.

(** ** Serialization *)

(** [postcard::to_allocvec] and [postcard::from_bytes]; the error is the text
    that [format!] shows. *)
Class Postcard (T : Type) : Type := {
  to_allocvec : T → result string (list Z);
  from_bytes : list Z → result string T;
}.

Class PostcardLaws (T : Type) `{!Postcard T} : Prop := {
  from_to_allocvec : ∀ x bytes, to_allocvec x = Ok bytes → from_bytes bytes = Ok x;
  to_allocvec_nonempty : ∀ x, to_allocvec x ≠ Ok [];
}.

(** [map_err(|error| StorageError(format!("<what>: {error}")))]. *)
Definition storage_err {A} (what : string) (r : result string A) : Result A :=
  match r with
  | Ok a => Ok a
  | Err error => Err (QuePaxaError.StorageError (what +:+ ": " +:+ error))
  end.

Lemma storage_err_Ok {A} what (r : result string A) a : storage_err what r = Ok a ↔ r = Ok a.
Proof. unfold storage_err. destruct r; split; congruence. Qed.

Module StorageEnvelope.
Record t : Type := mk { version : Z; checksum : list Z; payload : list Z }.
End StorageEnvelope.

(** ** The snapshot codecs *)

Definition STORAGE_VERSION : Z := 5.
Definition DEFAULT_MAX_SNAPSHOT : Z := 64 * 1024 * 1024.

Section codec.
Context {T : Type} `{!Postcard T} `{!Postcard StorageEnvelope.t}.
Context (digest : list Z → list Z).

Definition encode_snapshot (snapshot : T) (max_bytes : Z) : Result (list Z) :=
  let? payload := storage_err "snapshot payload encoding failed" (to_allocvec snapshot) in
  let? bytes := storage_err "snapshot encoding failed"
    (to_allocvec (StorageEnvelope.mk STORAGE_VERSION (digest payload) payload)) in
  reject max_bytes <? len bytes
    with QuePaxaError.StorageError
           ("encoded snapshot is " +:+ pretty (len bytes)
            +:+ " bytes, exceeding the configured limit " +:+ pretty max_bytes) ;;
  Ok bytes.

Definition decode_snapshot (bytes : list Z) (max_bytes : Z) : Result T :=
  reject is_empty bytes || (max_bytes <? len bytes)
    with QuePaxaError.StorageError
           ("snapshot size " +:+ pretty (len bytes) +:+ " is outside the accepted range") ;;
  let? envelope := storage_err "snapshot decoding failed" (from_bytes bytes) in
  reject negb (StorageEnvelope.version envelope =? STORAGE_VERSION)
    with QuePaxaError.StorageError
           ("unsupported snapshot version " +:+ pretty (StorageEnvelope.version envelope)) ;;
  reject negb (bool_decide (digest (StorageEnvelope.payload envelope)
                            = StorageEnvelope.checksum envelope))
    with QuePaxaError.StorageError "snapshot checksum verification failed" ;;
  storage_err "snapshot payload decoding failed" (from_bytes (StorageEnvelope.payload envelope)).

Definition validate_limit (limit : Z) : Result Z :=
  reject limit =? 0
    with QuePaxaError.StorageError "maximum snapshot size must be non-zero" ;;
  Ok limit.

Lemma encode_snapshot_Ok snapshot max_bytes bytes :
  encode_snapshot snapshot max_bytes = Ok bytes →
  ∃ payload, to_allocvec snapshot = Ok payload
    ∧ to_allocvec (StorageEnvelope.mk STORAGE_VERSION (digest payload) payload) = Ok bytes
    ∧ len bytes ≤ max_bytes.
Proof.
  unfold encode_snapshot.
  destruct (to_allocvec snapshot) as [payload|] eqn:Hp; simpl; [|done].
  destruct (to_allocvec (StorageEnvelope.mk _ _ _)) as [b|] eqn:Hb; simpl; [|done].
  destruct (Z.ltb_spec max_bytes (len b)); [done|]. intros [= ->]. by exists payload.
Qed.

Lemma decode_snapshot_Ok bytes max_bytes x :
  decode_snapshot bytes max_bytes = Ok x ↔
  bytes ≠ [] ∧ len bytes ≤ max_bytes
  ∧ ∃ payload, from_bytes bytes = Ok (StorageEnvelope.mk STORAGE_VERSION (digest payload) payload)
      ∧ from_bytes payload = Ok x.
Proof.
  unfold decode_snapshot. split.
  - destruct (is_empty bytes) eqn:He; simpl; [done|]. apply is_empty_false in He.
    destruct (Z.ltb_spec max_bytes (len bytes)); [done|].
    destruct (from_bytes bytes) as [[v c p]|] eqn:Hb; simpl; [|done].
    destruct (Z.eqb_spec v STORAGE_VERSION) as [->|]; simpl; [|done].
    destruct (bool_decide_reflect (digest p = c)) as [<-|]; simpl; [|done].
    rewrite storage_err_Ok. intros Hx. split_and!; try done. by exists p.
  - intros (Hne & Hle & payload & Hb & Hx).
    destruct (is_empty bytes) eqn:He; [by apply is_empty_spec in He|]. simpl.
    rewrite (proj2 (Z.ltb_ge _ _)), Hb by lia. simpl. rewrite bool_decide_true by done. simpl.
    by apply storage_err_Ok.
Qed.

Context `{!PostcardLaws T, !PostcardLaws StorageEnvelope.t}.

Lemma codec_roundtrip snapshot max_bytes bytes :
  encode_snapshot snapshot max_bytes = Ok bytes → decode_snapshot bytes max_bytes = Ok snapshot.
Proof.
  intros (payload & Hp & Hb & Hle)%encode_snapshot_Ok. apply decode_snapshot_Ok. split_and!; [|done|].
  - intros ->. by apply to_allocvec_nonempty in Hb.
  - exists payload. split; by apply from_to_allocvec.
Qed.

(** What a codec encodes within its limit it decodes back; and bytes that
    still carry the snapshot's checksum are accepted only with the current
    version and a payload of the same digest, the original payload giving the
    original snapshot. *)
Theorem snapshot_codec_sound snapshot original max_bytes bytes :
  to_allocvec snapshot = Ok original → encode_snapshot snapshot max_bytes = Ok bytes →
  decode_snapshot bytes max_bytes = Ok snapshot
  ∧ ∀ altered envelope x,
      from_bytes altered = Ok envelope →
      StorageEnvelope.checksum envelope = digest original →
      decode_snapshot altered max_bytes = Ok x →
      StorageEnvelope.version envelope = STORAGE_VERSION
      ∧ digest (StorageEnvelope.payload envelope) = digest original
      ∧ (StorageEnvelope.payload envelope = original → x = snapshot).
Proof.
  intros Ho He. split; [by apply codec_roundtrip|]. intros altered envelope x Hb Hc Hd.
  apply decode_snapshot_Ok in Hd as (_ & _ & payload & Hb' & Hx).
  rewrite Hb in Hb'. injection Hb' as ->. simpl in *. split_and!; [done..|].
  intros ->. apply from_to_allocvec in Ho. congruence.
Qed.
End codec.

(** The three codecs of the crate differ in what they carry. *)
Module PostcardRecorderCodec.
Record t : Type := mk { max_snapshot_bytes : Z }.
Definition default : t := mk DEFAULT_MAX_SNAPSHOT.
Definition with_max_snapshot_bytes (self : t) (max_snapshot_bytes : Z) : Result t :=
  let? limit := validate_limit max_snapshot_bytes in Ok (mk limit).
Section ops.
Context {V : Type} `{!Postcard (RecorderSnapshot.t V), !Postcard StorageEnvelope.t}.
Context (digest : list Z → list Z).
Definition encode (self : t) (snapshot : RecorderSnapshot.t V) : Result (list Z) :=
  encode_snapshot digest snapshot (max_snapshot_bytes self).
Definition decode (self : t) (bytes : list Z) : Result (RecorderSnapshot.t V) :=
  decode_snapshot digest bytes (max_snapshot_bytes self).
End ops.
End PostcardRecorderCodec.

Module PostcardRuntimeCodec.
Record t : Type := mk { max_snapshot_bytes : Z }.
Definition default : t := mk DEFAULT_MAX_SNAPSHOT.
Definition with_max_snapshot_bytes (self : t) (max_snapshot_bytes : Z) : Result t :=
  let? limit := validate_limit max_snapshot_bytes in Ok (mk limit).
Section ops.
Context {V : Type} `{Countable V} `{!Postcard (RuntimeSnapshot.t V), !Postcard StorageEnvelope.t}.
Context (digest : list Z → list Z).
Definition encode (self : t) (snapshot : RuntimeSnapshot.t V) : Result (list Z) :=
  encode_snapshot digest snapshot (max_snapshot_bytes self).
Definition decode (self : t) (bytes : list Z) : Result (RuntimeSnapshot.t V) :=
  decode_snapshot digest bytes (max_snapshot_bytes self).
End ops.
End PostcardRuntimeCodec.

Module PostcardStateTransferCodec.
Record t : Type := mk { max_snapshot_bytes : Z }.
Definition default : t := mk DEFAULT_MAX_SNAPSHOT.
Definition with_max_snapshot_bytes (self : t) (max_snapshot_bytes : Z) : Result t :=
  let? limit := validate_limit max_snapshot_bytes in Ok (mk limit).
Section ops.
Context {V : Type} `{Countable V}.
Context `{!Postcard (StateTransferSnapshot.t V), !Postcard StorageEnvelope.t}.
Context (digest : list Z → list Z).
Definition encode (self : t) (snapshot : StateTransferSnapshot.t V) : Result (list Z) :=
  encode_snapshot digest snapshot (max_snapshot_bytes self).
Definition decode (self : t) (bytes : list Z) : Result (StateTransferSnapshot.t V) :=
  decode_snapshot digest bytes (max_snapshot_bytes self).
End ops.
End PostcardStateTransferCodec.

(** ** Files that hold one snapshot *)

(** The part shared by the file stores: the disk, the crash injector, and
    what the system calls of the coming saves will answer. *)
Module SnapshotFile.
Record t : Type := mk {
  disk : AtomicFile.disk;
  reached : CrashPoint.t → Result unit;
  next_io : list AtomicFile.io;
}.

(** Replaces the file by [bytes]. *)
Definition replace (points : AtomicFile.points) (self : t) (bytes : list Z) : t * Result unit :=
  let io := default FileRecorderStore.io_success (head (next_io self)) in
  let '(disk', r) := AtomicFile.save_file (reached self) points io bytes (disk self) in
  (mk disk' (reached self) (tail (next_io self)), r).

(** What the process reads after a crash left [c] at the path. *)
Definition crashed (self : t) (c : AtomicFile.content) (next_io : list AtomicFile.io) : t :=
  mk (AtomicFile.mk c [c] None) (reached self) next_io.

(** The contents the path has or may have after a crash. *)
Definition may_hold (self : t) (c : AtomicFile.content) : Prop :=
  c = AtomicFile.visible (disk self) ∨ c ∈ AtomicFile.survivors (disk self).

Lemma replace_cases points self bytes self' r :
  replace points self bytes = (self', r) →
  (∀ c, may_hold self' c → may_hold self c ∨ c = AtomicFile.Bytes bytes)
  ∧ (r = Ok tt → ∀ c, may_hold self' c → c = AtomicFile.Bytes bytes).
Proof.
  unfold replace. set (io := default _ _).
  pose proof (AtomicFile.save_file_outcome (reached self) points io bytes (disk self)) as Ho.
  destruct (AtomicFile.save_file _ _ _ _ _) as [d r']. intros [= <- ->]. unfold may_hold. simpl.
  destruct Ho as [(-> & -> & He)|[(-> & -> & He)|(-> & ->)]]; split; try (by intros ->).
  - intros c [->|?]; auto.
  - intros c [->|[->|?]%elem_of_cons]; auto.
  - intros c [->| ->%list_elem_of_singleton]; auto.
  - intros _ c [->| ->%list_elem_of_singleton]; auto.
Qed.

Lemma crashed_holds self c io c' : may_hold (crashed self c io) c' → c' = c.
Proof. by intros [->| ->%list_elem_of_singleton]. Qed.

(** [fs::read], with [ErrorKind::NotFound] as no bytes; [failure] is the other
    error the operating system may answer. *)
Definition read (failure : option string) (c : AtomicFile.content)
    : result string (option (list Z)) :=
  match failure, c with
  | Some error, _ => Err error
  | None, AtomicFile.Bytes bytes => Ok (Some bytes)
  | None, AtomicFile.Missing => Ok None
  | None, AtomicFile.Torn => Err "the content is lost"
  end.

(** *** A value kept in such a file

  The batch store, the submission journal and the exactly-once executor each
  keep one value in memory and in their file: they encode the next value,
  replace the file, and only then change the memory. *)
Section kept.
Context {T : Type} (encode : T → Result (list Z)) (decode : list Z → Result T) (initial : T).
Context (decode_encode : ∀ x bytes, encode x = Ok bytes → decode bytes = Ok x).

Definition keep (points : AtomicFile.points) (self : t) (x : T) : t * Result unit :=
  match encode x with
  | Err e => (self, Err e)
  | Ok bytes => replace points self bytes
  end.

(** The value a process started on content [c] would have. *)
Definition kept (c : AtomicFile.content) : option T :=
  match c with
  | AtomicFile.Missing => Some initial
  | AtomicFile.Bytes bytes => match decode bytes with Ok x => Some x | Err _ => None end
  | AtomicFile.Torn => None
  end.

(** Every content the path has or may have after a crash yields a value that
    satisfies [P]. *)
Definition keeps (self : t) (P : T → Prop) : Prop :=
  ∀ c, may_hold self c → ∃ x, kept c = Some x ∧ P x.

Lemma keeps_mono self (P Q : T → Prop) : keeps self P → (∀ x, P x → Q x) → keeps self Q.
Proof. intros HP HPQ c (x & ? & ?)%HP. eauto. Qed.

Lemma keep_Ok points self x self' :
  keep points self x = (self', Ok tt) → keeps self' (λ y, y = x).
Proof.
  unfold keep. destruct (encode x) as [bytes|] eqn:He; [|done].
  intros [_ Hk]%replace_cases c ->%Hk; [|done]. simpl.
  exists x. split; [|done]. by rewrite (decode_encode _ _ He).
Qed.

Lemma keep_any points self x self' r (P : T → Prop) :
  keep points self x = (self', r) → P x → keeps self P → keeps self' P.
Proof.
  unfold keep. destruct (encode x) as [bytes|] eqn:He; [|by intros [= <- _]].
  intros [Hk _]%replace_cases HPx HP c [?| ->]%Hk; [by apply HP|]. simpl.
  exists x. split; [|done]. by rewrite (decode_encode _ _ He).
Qed.

(** The step the file stores share: save the next value, and move to it if
    that was acknowledged. For a relation [R] that a failed save respects too,
    the disk stays related to the memory. *)
Lemma keep_step points self x next self' r (R : T → T → Prop) :
  keep points self next = (self', r) → R next next → (is_err r = true → R x next) →
  keeps self (R x) → keeps self' (R (match r with Ok _ => next | Err _ => x end)).
Proof.
  intros Hk Hnext Hx HR. destruct r as [[]|e].
  - eapply keeps_mono; [by eapply keep_Ok|]. by intros y ->.
  - by eapply keep_any; eauto.
Qed.
End kept.
End SnapshotFile.

(** ** A concrete serialization

  For the concrete runs: a value of a countable type as one number. *)
Module CountedPostcard.
#[export] Instance counted_postcard {T} `{Countable T} : Postcard T := {|
  to_allocvec := λ x, Ok [Z.pos (encode x)];
  from_bytes := λ bytes,
    match bytes with
    | [Z.pos p] => match decode p with Some x => Ok x | None => Err "malformed" end
    | _ => Err "malformed"
    end;
|}.

#[export] Instance counted_postcard_laws {T} `{Countable T} : PostcardLaws T.
Proof.
  split; simpl; [|done]. intros x bytes [= <-]. by rewrite decode_encode.
Qed.
End CountedPostcard.

#[global] Instance envelope_eq_dec : EqDecision StorageEnvelope.t.
Proof. solve_decision. Defined.
#[global] Instance envelope_countable : Countable StorageEnvelope.t.
Proof.
  refine (inj_countable' (λ '(StorageEnvelope.mk v c p), (v, c, p))
                         (λ '(v, c, p), StorageEnvelope.mk v c p) _).
  by intros [].
Defined.

Import CountedPostcard.

Lemma snapshot_codec_sound_witness :
  decode_snapshot (T:=list Z) (λ l, [foldr Z.add 0 l])
    (match encode_snapshot (T:=list Z) (λ l, [foldr Z.add 0 l]) [1; 2] 10 with
     | Ok bytes => bytes | Err _ => [] end) 10 = Ok [1; 2].
Proof.
  refine (proj1 (snapshot_codec_sound (T:=list Z) (λ l, [foldr Z.add 0 l]) [1; 2] _ 10 _ _ _)).
  - reflexivity.
  - vm_compute. reflexivity.
Defined.
