(* ===== verification/Batch.v ===== *)
(** * Command batches outside consensus (src/network/batch.rs)

  Consensus agrees on value IDs; the payloads they name are published to and
  fetched from a batch store. [BatchStore] is the contract, implemented in
  memory and over one atomically replaced file; [AuthenticatedBatchService]
  puts limits and the application's verifier in front of it, and its theorems
  are proved against the contract. The last part follows the file store
  through failed saves and crashes. *)
From S2P Require Import Prelude Errors Types Replica Durable Runtime Codec.

Definition BATCH_STORAGE_VERSION : Z := 2.

Module Batch.
Record t {V : Type} : Type := mk { value_id : V; payload : list Z }.
Arguments t : clear implicits.
Arguments mk {V} _ _.
End Batch.

(** ** The store contract *)

Class BatchStore (V S : Type) : Type := {
  put : S → V → list Z → S * Result unit;
  get : S → V → Result (option (list Z));
  remove_many : S → list V → S * Result Z;
}.

(** [retain(|value_id, _| !value_ids.contains(value_id))]. *)
Definition without `{Countable V} {A} (value_ids : list V) (m : gmap V A) : gmap V A :=
  filter (λ kv, kv.1 ∉ value_ids) m.

Lemma lookup_without `{Countable V} {A} (ids : list V) (m : gmap V A) v :
  v ∉ ids → without ids m !! v = m !! v.
Proof.
  intros Hv. unfold without. destruct (m !! v) eqn:Hm.
  - by apply map_lookup_filter_Some.
  - apply map_lookup_filter_None. by left.
Qed.

Lemma without_subseteq `{Countable V} {A} (ids : list V) (m : gmap V A) : without ids m ⊆ m.
Proof. apply map_filter_subseteq. Qed.

Lemma without_size `{Countable V} {A} (ids : list V) (m : gmap V A) :
  size m = size (without ids m) → without ids m = m.
Proof.
  intros Hs. apply map_eq. intros v.
  destruct (without ids m !! v) as [x|] eqn:Hw.
  { symmetry. by apply (lookup_weaken _ _ _ _ Hw), without_subseteq. }
  destruct (m !! v) as [x|] eqn:Hm; [|done]. exfalso.
  assert (without ids m ⊂ m) as Hlt%map_subset_size; [|lia].
  split; [apply without_subseteq|]. intros Hsub.
  assert (without ids m !! v = Some x) by (by eapply lookup_weaken). congruence.
Qed.

(** What a store promises, in terms of the payloads it serves. *)
Class BatchStoreLaws (V S : Type) `{Countable V} `{!BatchStore V S}
    (contents : S → gmap V (list Z)) : Prop := {
  get_contents : ∀ s v, get s v = Ok (contents s !! v);
  put_Ok : ∀ s s' v p, put s v p = (s', Ok tt) →
      (contents s !! v = None ∨ contents s !! v = Some p)
      ∧ contents s' = <[v := p]> (contents s);
  put_Err : ∀ s s' v p e, put s v p = (s', Err e) → contents s' = contents s;
  remove_many_Ok : ∀ s s' ids n, remove_many s ids = (s', Ok n) →
      contents s' = without ids (contents s)
      ∧ n = Z.of_nat (size (contents s)) - Z.of_nat (size (contents s'));
  remove_many_Err : ∀ s s' ids e, remove_many s ids = (s', Err e) → contents s' = contents s;
}.

Definition different_payloads : QuePaxaError.t :=
  QuePaxaError.InvalidProposal "one batch ID was published with different payloads".

Module InMemoryBatchStore.
Record t {V : Type} `{Countable V} : Type := mk { values : gmap V (list Z) }.
Arguments t V {_ _}.
Arguments mk {V _ _} _.

Section ops.
Context {V : Type} `{Countable V}.
Implicit Types self : t V.

Definition put self (value_id : V) (payload : list Z) : t V * Result unit :=
  match values self !! value_id with
  | Some existing =>
      (self, reject negb (bool_decide (existing = payload)) with different_payloads ;; Ok tt)
  | None => (mk (<[value_id := payload]> (values self)), Ok tt)
  end.
Definition get self (value_id : V) : Result (option (list Z)) := Ok (values self !! value_id).
Definition remove_many self (value_ids : list V) : t V * Result Z :=
  let next := without value_ids (values self) in
  (mk next, Ok (Z.of_nat (size (values self)) - Z.of_nat (size next))).
End ops.
End InMemoryBatchStore.

#[global] Instance in_memory_batch_store `{Countable V}
    : BatchStore V (InMemoryBatchStore.t V) := {|
  put := InMemoryBatchStore.put;
  get := InMemoryBatchStore.get;
  remove_many := InMemoryBatchStore.remove_many;
|}.

#[global] Instance in_memory_batch_store_laws `{Countable V}
    : BatchStoreLaws V (InMemoryBatchStore.t V) InMemoryBatchStore.values.
Proof.
  split; simpl; try done; unfold InMemoryBatchStore.put, InMemoryBatchStore.remove_many.
  - intros s s' v p. destruct (_ !! v) as [q|] eqn:Hv; [|intros [= <-]; auto].
    destruct (bool_decide_reflect (q = p)) as [->|]; simpl; [|done].
    intros [= <-]. split; [by right|]. by rewrite insert_id.
  - intros s s' v p e. destruct (_ !! v); [|done]. by intros [= <- _].
  - by intros s s' ids n [= <- <-].
Qed.

(** ** The file store *)

Module BatchStorageEnvelope.
Record t : Type := mk { version : Z; checksum : list Z; payload : list Z }.
#[global] Instance eq_dec : EqDecision t.
Proof. solve_decision. Defined.
#[global] Instance countable : Countable t.
Proof.
  refine (inj_countable' (λ '(mk v c p), (v, c, p)) (λ '(v, c, p), mk v c p) _).
  by intros [].
Defined.
End BatchStorageEnvelope.

Module FileBatchStore.
Record t {V : Type} `{Countable V} : Type := mk {
  file : SnapshotFile.t;
  values : gmap V (list Z);
  max_snapshot_bytes : Z;
}.
Arguments t V {_ _}.
Arguments mk {V _ _} _ _ _.

Definition batch_points : AtomicFile.points := {|
  AtomicFile.opened := CrashPoint.BatchTemporaryOpened;
  AtomicFile.written := CrashPoint.BatchTemporaryWritten;
  AtomicFile.synced := CrashPoint.BatchTemporarySynced;
  AtomicFile.renamed := CrashPoint.BatchRenamed;
  AtomicFile.directory_synced := CrashPoint.BatchDirectorySynced;
|}.

Section ops.
Context {V : Type} `{Countable V}.
Context `{!Postcard (gmap V (list Z)), !Postcard BatchStorageEnvelope.t}.
Context (digest : list Z → list Z).
Implicit Types self : t V.

(** The bytes of [save], up to the size limit. *)
Definition encode (max_snapshot_bytes : Z) (values : gmap V (list Z)) : Result (list Z) :=
  let? payload := storage_err "could not encode batch values" (to_allocvec values) in
  let? bytes := storage_err "could not encode batch snapshot"
    (to_allocvec (BatchStorageEnvelope.mk BATCH_STORAGE_VERSION (digest payload) payload)) in
  reject max_snapshot_bytes <? len bytes
    with QuePaxaError.ResourceLimit "durable batch bytes" max_snapshot_bytes ;;
  Ok bytes.

(** What [open] makes of the bytes it read. *)
Definition decode (max_snapshot_bytes : Z) (bytes : list Z) : Result (gmap V (list Z)) :=
  reject is_empty bytes || (max_snapshot_bytes <? len bytes)
    with QuePaxaError.StorageError
           ("batch snapshot size " +:+ pretty (len bytes) +:+ " is outside the configured bound") ;;
  let? envelope := storage_err "could not decode batch snapshot" (from_bytes bytes) in
  reject negb (BatchStorageEnvelope.version envelope =? BATCH_STORAGE_VERSION)
    with QuePaxaError.StorageError
           ("unsupported batch storage version " +:+ pretty (BatchStorageEnvelope.version envelope)) ;;
  reject negb (bool_decide (digest (BatchStorageEnvelope.payload envelope)
                            = BatchStorageEnvelope.checksum envelope))
    with QuePaxaError.StorageError "batch snapshot checksum verification failed" ;;
  storage_err "could not decode batch snapshot payload"
    (from_bytes (BatchStorageEnvelope.payload envelope)).

(** [open]: [failure] is a read error other than a missing file, [path] is
    shown in the message. The store starts with the injector that does
    nothing. *)
Definition open (path : string) (failure : option string) (next_io : list AtomicFile.io)
    (disk : AtomicFile.disk) (max_snapshot_bytes : Z) : Result (t V) :=
  reject max_snapshot_bytes =? 0
    with QuePaxaError.StorageError "maximum batch snapshot size must be non-zero" ;;
  let? read := storage_err ("could not read batch snapshot " +:+ path)
                 (SnapshotFile.read failure (AtomicFile.visible disk)) in
  let? values := match read with
                 | Some bytes => decode max_snapshot_bytes bytes
                 | None => Ok ∅
                 end in
  Ok (mk (SnapshotFile.mk disk (λ _, Ok tt) next_io) values max_snapshot_bytes).

Definition with_crash_injector self (reached : CrashPoint.t → Result unit) : t V :=
  mk (SnapshotFile.mk (SnapshotFile.disk (file self)) reached (SnapshotFile.next_io (file self)))
     (values self) (max_snapshot_bytes self).

(** [save]; the file is all it changes. *)
Definition save self (values : gmap V (list Z)) : SnapshotFile.t * Result unit :=
  SnapshotFile.keep (encode (max_snapshot_bytes self)) batch_points (file self) values.

Definition save_and_set self (next : gmap V (list Z)) : t V * Result unit :=
  match save self next with
  | (file', Ok _) => (mk file' next (max_snapshot_bytes self), Ok tt)
  | (file', Err e) => (mk file' (values self) (max_snapshot_bytes self), Err e)
  end.

Definition put self (value_id : V) (payload : list Z) : t V * Result unit :=
  match values self !! value_id with
  | Some existing =>
      (self, reject negb (bool_decide (existing = payload)) with different_payloads ;; Ok tt)
  | None => save_and_set self (<[value_id := payload]> (values self))
  end.

Definition get self (value_id : V) : Result (option (list Z)) := Ok (values self !! value_id).

Definition remove_many self (value_ids : list V) : t V * Result Z :=
  let next := without value_ids (values self) in
  let removed := Z.of_nat (size (values self)) - Z.of_nat (size next) in
  if 0 <? removed then
    let '(self', r) := save_and_set self next in
    (self', let? _ := r in Ok removed)
  else (self, Ok removed).
End ops.
End FileBatchStore.

Section file_store.
Context {V : Type} `{Countable V}.
Context `{!Postcard (gmap V (list Z)), !Postcard BatchStorageEnvelope.t}.
Context (digest : list Z → list Z).
Implicit Types s : FileBatchStore.t V.

#[global] Instance file_batch_store : BatchStore V (FileBatchStore.t V) := {|
  put := FileBatchStore.put digest;
  get := FileBatchStore.get;
  remove_many := FileBatchStore.remove_many digest;
|}.

Lemma save_and_set_values s next s' r :
  FileBatchStore.save_and_set digest s next = (s', r) →
  FileBatchStore.max_snapshot_bytes s' = FileBatchStore.max_snapshot_bytes s
  ∧ match r with
    | Ok _ => FileBatchStore.values s' = next
    | Err _ => FileBatchStore.values s' = FileBatchStore.values s
    end.
Proof.
  unfold FileBatchStore.save_and_set.
  destruct (FileBatchStore.save _ _ _) as [f [[]|e]]; by intros [= <- <-].
Qed.

#[global] Instance file_batch_store_laws
    : BatchStoreLaws V (FileBatchStore.t V) FileBatchStore.values.
Proof.
  split; simpl; [done|unfold FileBatchStore.put..| |].
  - intros s s' v p. destruct (_ !! v) as [q|] eqn:Hv.
    + destruct (bool_decide_reflect (q = p)) as [->|]; simpl; [|done].
      intros [= <-]. split; [by right|]. by rewrite insert_id.
    + intros [_ ->]%save_and_set_values. auto.
  - intros s s' v p e. destruct (_ !! v); [by intros [= <- _]|].
    by intros [_ ?]%save_and_set_values.
  - intros s s' ids n. unfold FileBatchStore.remove_many.
    destruct (Z.ltb_spec 0 (Z.of_nat (size (FileBatchStore.values s))
                            - Z.of_nat (size (without ids (FileBatchStore.values s))))).
    + destruct (FileBatchStore.save_and_set _ _ _) as [s1 r] eqn:Hs.
      apply save_and_set_values in Hs as [_ Hs].
      destruct r; [|done]. intros [= <- <-]. by rewrite Hs.
    + intros [= <- <-]. pose proof (map_subseteq_size _ _ (without_subseteq ids (FileBatchStore.values s))).
      rewrite without_size by lia. split; [done|lia].
  - intros s s' ids e. unfold FileBatchStore.remove_many. destruct (0 <? _); [|done].
    destruct (FileBatchStore.save_and_set _ _ _) as [s1 r] eqn:Hs.
    apply save_and_set_values in Hs as [_ Hs]. destruct r; [done|]. by intros [= <- _].
Qed.
End file_store.

(** ** The service in front of a store *)

Module BatchServiceLimits.
Record t : Type := mk {
  max_batches_per_request : Z;
  max_batch_bytes : Z;
  max_fetch_ids : Z;
}.
Definition default : t := mk 256 (4 * 1024 * 1024) 1024.
End BatchServiceLimits.

Module AuthenticatedBatchService.
(** [poisoned] is set when a thread panicked while it held the store's lock. *)
Record t {S : Type} : Type := mk {
  store : S;
  poisoned : bool;
  limits : BatchServiceLimits.t;
}.
Arguments t : clear implicits.
Arguments mk {S} _ _ _.

Section ops.
Context {V S : Type} `{Countable V} `{!BatchStore V S}.
Context (verify : V → list Z → Result unit).
Implicit Types self : t S.

Definition new (store : S) (limits : BatchServiceLimits.t) : Result (t S) :=
  reject (BatchServiceLimits.max_batches_per_request limits =? 0)
      || (BatchServiceLimits.max_batch_bytes limits =? 0)
      || (BatchServiceLimits.max_fetch_ids limits =? 0)
    with QuePaxaError.InvalidProposal "batch service limits must be non-zero" ;;
  Ok (mk store false limits).

Definition lock_poisoned : QuePaxaError.t :=
  QuePaxaError.StorageError "batch store lock was poisoned".

Definition with_store self (s : S) : t S := mk s (poisoned self) (limits self).

Definition prune_checkpointed self (value_ids : list V) : t S * Result Z :=
  if poisoned self then (self, Err lock_poisoned)
  else let '(s, r) := remove_many (store self) value_ids in (with_store self s, r).

Definition prune_state_transfer self (transfer : StateTransferSnapshot.t V) : t S * Result Z :=
  if negb (StateTransferSnapshot.through transfer
           =? ReplicaSnapshot.checkpointed_through
                (RuntimeSnapshot.replica (StateTransferSnapshot.runtime transfer)))
  then (self, Err (QuePaxaError.InvalidProposal
                     "state-transfer checkpoint does not match the runtime pruning floor"))
  else prune_checkpointed self (StateTransferSnapshot.checkpointed_value_ids transfer).

(** The loop of [publish] that looks at every batch before one is stored. *)
Fixpoint check_batches (limits : BatchServiceLimits.t) (seen : gset V)
    (batches : list (Batch.t V)) : Result unit :=
  match batches with
  | [] => Ok tt
  | batch :: batches =>
      reject is_empty (Batch.payload batch)
          || (BatchServiceLimits.max_batch_bytes limits <? len (Batch.payload batch))
        with QuePaxaError.ResourceLimit "bytes in one published batch"
               (BatchServiceLimits.max_batch_bytes limits) ;;
      reject bool_decide (Batch.value_id batch ∈ seen)
        with QuePaxaError.InvalidProposal "batch publish request contains duplicate IDs" ;;
      let? _ := verify (Batch.value_id batch) (Batch.payload batch) in
      check_batches limits ({[Batch.value_id batch]} ∪ seen) batches
  end.

Fixpoint put_batches (store : S) (batches : list (Batch.t V)) : S * Result unit :=
  match batches with
  | [] => (store, Ok tt)
  | batch :: batches =>
      match put store (Batch.value_id batch) (Batch.payload batch) with
      | (store, Ok _) => put_batches store batches
      | (store, Err e) => (store, Err e)
      end
  end.

Definition publish self (batches : list (Batch.t V)) : t S * Result unit :=
  if is_empty batches
     || (BatchServiceLimits.max_batches_per_request (limits self) <? len batches)
  then (self, Err (QuePaxaError.ResourceLimit "batches in one publish request"
                     (BatchServiceLimits.max_batches_per_request (limits self))))
  else match check_batches (limits self) ∅ batches with
  | Err e => (self, Err e)
  | Ok _ =>
      if poisoned self then (self, Err lock_poisoned)
      else let '(s, r) := put_batches (store self) batches in (with_store self s, r)
  end.

Definition fetch_one (store : S) (value_id : V) : Result (Batch.t V) :=
  let? found := get store value_id in
  let? payload := ok_or found QuePaxaError.MissingValue in
  Ok (Batch.mk value_id payload).

Fixpoint fetch_all (store : S) (value_ids : list V) : Result (list (Batch.t V)) :=
  match value_ids with
  | [] => Ok []
  | value_id :: value_ids =>
      let? batch := fetch_one store value_id in
      let? batches := fetch_all store value_ids in
      Ok (batch :: batches)
  end.

Definition fetch self (value_ids : list V) : Result (list (Batch.t V)) :=
  reject is_empty value_ids || (BatchServiceLimits.max_fetch_ids (limits self) <? len value_ids)
    with QuePaxaError.ResourceLimit "IDs in one batch fetch request"
           (BatchServiceLimits.max_fetch_ids (limits self)) ;;
  reject negb (Z.of_nat (size (list_to_set value_ids : gset V)) =? len value_ids)
    with QuePaxaError.InvalidProposal "batch fetch request contains duplicate IDs" ;;
  reject poisoned self with lock_poisoned ;;
  fetch_all (store self) value_ids.
End ops.
End AuthenticatedBatchService.

Section service.
Context {V S : Type} `{Countable V} `{!BatchStore V S}.
Context {contents : S → gmap V (list Z)} `{!BatchStoreLaws V S contents}.
Context (verify : V → list Z → Result unit).
Implicit Types self : AuthenticatedBatchService.t S.

Definition admissible (limits : BatchServiceLimits.t) (v : V) (p : list Z) : Prop :=
  p ≠ [] ∧ len p ≤ BatchServiceLimits.max_batch_bytes limits ∧ verify v p = Ok tt.

Lemma check_batches_Ok limits seen batches :
  AuthenticatedBatchService.check_batches verify limits seen batches = Ok tt →
  Forall (λ b, admissible limits (Batch.value_id b) (Batch.payload b)) batches
  ∧ NoDup (Batch.value_id <$> batches)
  ∧ Forall (λ b, Batch.value_id b ∉ seen) batches.
Proof.
  revert seen. induction batches as [|[v p] batches IH]; intros seen; simpl; [by auto using NoDup_nil_2|].
  destruct (is_empty p) eqn:He; simpl; [done|]. apply is_empty_false in He.
  destruct (Z.ltb_spec (BatchServiceLimits.max_batch_bytes limits) (len p)); [done|].
  destruct (bool_decide_reflect (v ∈ seen)); [done|].
  destruct (verify v p) as [[]|] eqn:Hv; [|done]. intros (Ha & Hnd & Hs)%IH.
  rewrite Forall_forall in Hs.
  split_and!; [by constructor| |].
  - constructor; [|done]. intros (b & -> & Hb%Hs)%list_elem_of_fmap. set_solver.
  - constructor; [done|]. apply Forall_forall. intros b Hb%Hs. set_solver.
Qed.

Lemma put_keeps s s' v p r :
  put s v p = (s', r) → contents s ⊆ contents s'
    ∧ ∀ w q, contents s' !! w = Some q → contents s !! w = Some q ∨ (w = v ∧ q = p).
Proof.
  destruct r as [[]|]; [intros [Hv ->]%put_Ok|intros ->%put_Err; auto].
  split.
  - destruct Hv as [?|?]; [by apply insert_subseteq|by rewrite insert_id].
  - intros w q [[<- <-]|[_ ?]]%lookup_insert_Some; auto.
Qed.

Lemma put_batches_spec batches s s' r :
  AuthenticatedBatchService.put_batches s batches = (s', r) →
  contents s ⊆ contents s'
  ∧ (∀ v p, contents s' !! v = Some p → contents s !! v = Some p ∨ Batch.mk v p ∈ batches)
  ∧ (r = Ok tt → Forall (λ b, contents s' !! Batch.value_id b = Some (Batch.payload b)) batches).
Proof.
  revert s. induction batches as [|[v p] batches IH]; intros s; simpl; [intros [= -> ->]; auto|].
  destruct (put s v p) as [s1 r1] eqn:Hp. pose proof (put_keeps _ _ _ _ _ Hp) as [Hsub Hnew].
  destruct r1 as [[]|]; [|by intros [= <- <-]; naive_solver set_solver].
  intros (Hsub' & Hnew' & Hok)%IH. split_and!.
  - by etransitivity.
  - intros w q [[?|[-> ->]]%Hnew|?]%Hnew'; set_solver.
  - intros ->. constructor; [|by apply Hok]. simpl.
    apply (lookup_weaken (contents s1)); [|done].
    apply put_Ok in Hp as [_ ->]. by rewrite lookup_insert_eq.
Qed.

Lemma fetch_all_Ok s ids batches :
  AuthenticatedBatchService.fetch_all s ids = Ok batches ↔
  Batch.value_id <$> batches = ids
  ∧ Forall (λ b, contents s !! Batch.value_id b = Some (Batch.payload b)) batches.
Proof.
  unfold AuthenticatedBatchService.fetch_all, AuthenticatedBatchService.fetch_one.
  revert batches. induction ids as [|v ids IH]; intros batches; simpl.
  - split; [by intros [= <-]|]. by intros [->%fmap_nil_inv _].
  - rewrite get_contents. simpl. destruct (contents s !! v) as [p|] eqn:Hv; simpl.
    + destruct (_ s ids) as [bs|]; simpl in *.
      * specialize (proj1 (IH bs) eq_refl) as [<- Hbs]. split; [intros [= <-]; auto|].
        destruct batches as [|[w q] batches]; simpl; [by intros []|].
        intros [[= -> Hids] [Hw Hall]%Forall_cons]. simpl in *.
        f_equal. f_equal; [congruence|].
        specialize (proj2 (IH batches) (conj Hids Hall)) as [= ->]. done.
      * split; [done|]. destruct batches as [|b batches]; intros [Heq Hall]; [done|].
        injection Heq as <- Heq. apply Forall_cons in Hall as [_ Hall].
        by specialize (proj2 (IH batches) (conj Heq Hall)).
    + split; [done|]. destruct batches as [|b batches]; intros [Heq Hall]; [done|].
      injection Heq as <- _. apply Forall_cons in Hall as [Hb _]. congruence.
Qed.

(** A node's calls of the service, in the order its lock admits them. *)
Inductive call : Type :=
| Publish (batches : list (Batch.t V))
| PruneCheckpointed (value_ids : list V)
| PruneStateTransfer (transfer : StateTransferSnapshot.t V).

Definition perform self (c : call) : AuthenticatedBatchService.t S :=
  match c with
  | Publish batches => (AuthenticatedBatchService.publish verify self batches).1
  | PruneCheckpointed ids => (AuthenticatedBatchService.prune_checkpointed self ids).1
  | PruneStateTransfer transfer => (AuthenticatedBatchService.prune_state_transfer self transfer).1
  end.

(** The IDs a call may delete. *)
Definition pruned_by (c : call) : list V :=
  match c with
  | Publish _ => []
  | PruneCheckpointed ids => ids
  | PruneStateTransfer transfer => StateTransferSnapshot.checkpointed_value_ids transfer
  end.

Definition held self : gmap V (list Z) := contents (AuthenticatedBatchService.store self).

Definition serves_verified self : Prop :=
  map_Forall (admissible (AuthenticatedBatchService.limits self)) (held self).

Lemma prune_spec self ids self' r :
  AuthenticatedBatchService.prune_checkpointed self ids = (self', r) →
  AuthenticatedBatchService.limits self' = AuthenticatedBatchService.limits self
  ∧ AuthenticatedBatchService.poisoned self' = AuthenticatedBatchService.poisoned self
  ∧ held self' ⊆ held self ∧ ∀ v, v ∉ ids → held self' !! v = held self !! v.
Proof.
  unfold AuthenticatedBatchService.prune_checkpointed, held.
  destruct (AuthenticatedBatchService.poisoned self) eqn:Hp; [by intros [= <- _]|].
  destruct (remove_many _ ids) as [s [n|e]] eqn:Hr; intros [= <- _]; simpl; split_and!; try done.
  - apply remove_many_Ok in Hr as [-> _]. apply without_subseteq.
  - apply remove_many_Ok in Hr as [-> _]. apply lookup_without.
  - by apply remove_many_Err in Hr as ->.
  - by apply remove_many_Err in Hr as ->.
Qed.

Lemma publish_spec self batches self' r :
  AuthenticatedBatchService.publish verify self batches = (self', r) →
  AuthenticatedBatchService.limits self' = AuthenticatedBatchService.limits self
  ∧ AuthenticatedBatchService.poisoned self' = AuthenticatedBatchService.poisoned self
  ∧ held self ⊆ held self'
  ∧ (serves_verified self → serves_verified self')
  ∧ (r = Ok tt → AuthenticatedBatchService.poisoned self = false ∧ batches ≠ []
       ∧ NoDup (Batch.value_id <$> batches)
       ∧ Forall (λ b, held self' !! Batch.value_id b = Some (Batch.payload b)) batches).
Proof.
  unfold AuthenticatedBatchService.publish, serves_verified, held.
  destruct (is_empty batches) eqn:He; [by intros [= <- <-]|]. apply is_empty_false in He.
  destruct (_ <? len batches); [by intros [= <- <-]|]. simpl.
  destruct (AuthenticatedBatchService.check_batches _ _ _ _) as [[]|] eqn:Hc;
    [|by intros [= <- <-]].
  destruct (AuthenticatedBatchService.poisoned self) eqn:Hp; [by intros [= <- <-]|].
  destruct (AuthenticatedBatchService.put_batches _ _) as [s r1] eqn:Hs. intros [= <- ->]. simpl.
  apply check_batches_Ok in Hc as (Ha & Hnd & _). apply put_batches_spec in Hs as (Hsub & Hnew & Hok).
  split_and!; try done; [|by auto].
  intros Hv v p [?|Hin]%Hnew; [by apply Hv|]. rewrite Forall_forall in Ha. by apply (Ha _ Hin).
Qed.

Lemma perform_spec self c :
  AuthenticatedBatchService.limits (perform self c) = AuthenticatedBatchService.limits self
  ∧ AuthenticatedBatchService.poisoned (perform self c) = AuthenticatedBatchService.poisoned self
  ∧ (serves_verified self → serves_verified (perform self c))
  ∧ ∀ v p, v ∉ pruned_by c → held self !! v = Some p → held (perform self c) !! v = Some p.
Proof.
  assert (∀ ids self' r, AuthenticatedBatchService.prune_checkpointed self ids = (self', r) →
            serves_verified self → serves_verified self') as Hprune.
  { unfold serves_verified. intros ids self' r (-> & _ & Hsub & _)%prune_spec.
    intros Hv v p ?. apply Hv. by eapply lookup_weaken. }
  destruct c as [batches|ids|transfer]; simpl.
  - destruct (AuthenticatedBatchService.publish _ _ _) as [self' r] eqn:He. simpl.
    apply publish_spec in He as (Hl & Hp & Hsub & Hv & _). split_and!; try done.
    intros v p _ ?. by eapply lookup_weaken.
  - destruct (AuthenticatedBatchService.prune_checkpointed _ _) as [self' r] eqn:He. simpl.
    pose proof (Hprune _ _ _ He). apply prune_spec in He as (Hl & Hp & _ & Hv). split_and!; try done.
    intros v p ? ?. by rewrite Hv.
  - unfold AuthenticatedBatchService.prune_state_transfer. destruct (negb _); [done|].
    destruct (AuthenticatedBatchService.prune_checkpointed _ _) as [self' r] eqn:He. simpl.
    pose proof (Hprune _ _ _ He). apply prune_spec in He as (Hl & Hp & _ & Hv). split_and!; try done.
    intros v p ? ?. by rewrite Hv.
Qed.

Lemma performs_spec self calls :
  let self' := foldl perform self calls in
  AuthenticatedBatchService.limits self' = AuthenticatedBatchService.limits self
  ∧ AuthenticatedBatchService.poisoned self' = AuthenticatedBatchService.poisoned self
  ∧ (serves_verified self → serves_verified self')
  ∧ ∀ v p, Forall (λ c, v ∉ pruned_by c) calls → held self !! v = Some p →
      held self' !! v = Some p.
Proof.
  simpl. revert self. induction calls as [|c calls IH]; intros self; simpl; [done|].
  destruct (perform_spec self c) as (Hl & Hp & Hv & Hk).
  destruct (IH (perform self c)) as (Hl' & Hp' & Hv' & Hk').
  split_and!; [congruence|congruence|by auto|].
  intros v p [Hc Hcs]%Forall_cons Hh. by apply Hk', Hk.
Qed.

(** Batches whose publication was acknowledged are served, in the order
    asked and with the payloads published, through every later sequence of
    publications and prunings that does not delete them. *)
Theorem published_batches_fetchable self batches self' calls :
  AuthenticatedBatchService.publish verify self batches = (self', Ok tt) →
  len batches ≤ BatchServiceLimits.max_fetch_ids (AuthenticatedBatchService.limits self) →
  Forall (λ c, Forall (λ b, Batch.value_id b ∉ pruned_by c) batches) calls →
  AuthenticatedBatchService.fetch (foldl perform self' calls) (Batch.value_id <$> batches)
  = Ok batches.
Proof.
  intros (Hl & Hp & _ & _ & Hok)%publish_spec Hlen Hcalls.
  destruct (Hok eq_refl) as (Hpoison & Hne & Hnd & Hheld).
  destruct (performs_spec self' calls) as (Hl' & Hp' & _ & Hk).
  unfold AuthenticatedBatchService.fetch. rewrite Hl', Hp', Hl, Hp, Hpoison.
  destruct (is_empty (Batch.value_id <$> batches)) eqn:He.
  { apply is_empty_spec, fmap_nil_inv in He. done. }
  unfold len in *. rewrite length_fmap, (proj2 (Z.ltb_ge _ _)) by lia. simpl.
  rewrite size_list_to_set, length_fmap, Z.eqb_refl by done. simpl.
  apply fetch_all_Ok. split; [done|]. apply Forall_forall. intros b Hb.
  apply Hk; [|by apply (proj1 (Forall_forall _ _) Hheld)].
  eapply Forall_impl; [exact Hcalls|]. simpl. intros c Hc. by apply (proj1 (Forall_forall _ _) Hc).
Qed.

(** Whatever was published and pruned, a service that started with
    verified payloads answers a fetch with exactly the IDs asked for, each
    with a non-empty payload within the limit that the verifier accepted
    under that ID, or with an error. *)
Theorem fetch_serves_verified self calls ids batches :
  serves_verified self →
  AuthenticatedBatchService.fetch (foldl perform self calls) ids = Ok batches →
  Batch.value_id <$> batches = ids ∧ NoDup ids
  ∧ Forall (λ b, admissible (AuthenticatedBatchService.limits self)
                   (Batch.value_id b) (Batch.payload b)) batches.
Proof.
  intros Hv. destruct (performs_spec self calls) as (Hl & _ & Hv' & _). specialize (Hv' Hv).
  unfold AuthenticatedBatchService.fetch. destruct (is_empty ids || _); [done|].
  destruct (Z.eqb_spec (Z.of_nat (size (list_to_set ids : gset V))) (len ids)) as [Hs|]; [|done].
  destruct (AuthenticatedBatchService.poisoned _); simpl; [done|].
  intros [Hids Hall]%fetch_all_Ok. split_and!; [done| |].
  - apply size_list_to_set_NoDup. unfold len in Hs. lia.
  - eapply Forall_impl; [exact Hall|]. intros b Hb. rewrite <-Hl. by apply Hv'.
Qed.
End service.

(** ** The file store through crashes *)

Section crashes.
Context {V : Type} `{Countable V}.
Context `{!Postcard (gmap V (list Z)), !Postcard BatchStorageEnvelope.t}.
Context `{!PostcardLaws (gmap V (list Z)), !PostcardLaws BatchStorageEnvelope.t}.
Context (digest : list Z → list Z).
Implicit Types s : FileBatchStore.t V.

Lemma batch_decode_encode max_bytes (values : gmap V (list Z)) bytes :
  FileBatchStore.encode digest max_bytes values = Ok bytes →
  FileBatchStore.decode digest max_bytes bytes = Ok values.
Proof.
  unfold FileBatchStore.encode, FileBatchStore.decode.
  destruct (to_allocvec values) as [payload|] eqn:Hp; simpl; [|done].
  destruct (to_allocvec (BatchStorageEnvelope.mk _ _ _)) as [b|] eqn:Hb; simpl; [|done].
  destruct (Z.ltb_spec max_bytes (len b)) as [|Hle]; [done|]. intros [= ->].
  destruct (is_empty bytes) eqn:He.
  { apply is_empty_spec in He as ->. by apply to_allocvec_nonempty in Hb. }
  rewrite (proj2 (Z.ltb_ge _ _)), (from_to_allocvec _ _ Hb) by done. simpl.
  by rewrite bool_decide_true, (from_to_allocvec _ _ Hp) by done.
Qed.

(** What happens to a store: calls with their answers, a process crash that
    leaves one of the surviving contents for the next [open], and the tests'
    injector. *)
Inductive event : Type :=
| DidPut (value_id : V) (payload : list Z) (answer : Result unit)
| DidRemove (value_ids : list V) (answer : Result Z)
| Crashed
| Injected.

Definition after_crash (c : AtomicFile.content) : AtomicFile.disk := AtomicFile.mk c [c] None.

Inductive store_step : FileBatchStore.t V → event → FileBatchStore.t V → Prop :=
| step_put s v p s' r :
    FileBatchStore.put digest s v p = (s', r) → store_step s (DidPut v p r) s'
| step_remove s ids s' r :
    FileBatchStore.remove_many digest s ids = (s', r) → store_step s (DidRemove ids r) s'
| step_crash s c path failure next_io s' :
    c ∈ AtomicFile.survivors (SnapshotFile.disk (FileBatchStore.file s)) →
    FileBatchStore.open digest path failure next_io (after_crash c)
      (FileBatchStore.max_snapshot_bytes s) = Ok s' →
    store_step s Crashed s'
| step_inject s reached :
    store_step s Injected (FileBatchStore.with_crash_injector s reached).

Inductive store_steps : FileBatchStore.t V → list event → FileBatchStore.t V → Prop :=
| steps_nil s : store_steps s [] s
| steps_cons s ev s1 evs s2 :
    store_step s ev s1 → store_steps s1 evs s2 → store_steps s (ev :: evs) s2.

(** The IDs of a removal, and of a removal that reported an error. *)
Definition removed_by (ev : event) : list V :=
  match ev with DidRemove ids _ => ids | _ => [] end.
Definition doubtful (ev : event) : list V :=
  match ev with DidRemove ids (Err _) => ids | _ => [] end.

(** What [open] would put in memory from the content [c]. *)
Abbreviation on_disk := (λ s, SnapshotFile.keeps
  (FileBatchStore.decode digest (FileBatchStore.max_snapshot_bytes s)) ∅ (FileBatchStore.file s)).

(** The disk has every payload the memory has, except for the IDs whose
    removal failed. *)
Definition covers (doubt : list V) s (m : gmap V (list Z)) : Prop :=
  ∀ v p, v ∉ doubt → FileBatchStore.values s !! v = Some p → m !! v = Some p.

Definition batch_inv (doubt : list V) s : Prop :=
  FileBatchStore.max_snapshot_bytes s ≠ 0 ∧ on_disk s (covers doubt s).

Lemma batch_inv_mono doubt doubt' s : doubt ⊆ doubt' → batch_inv doubt s → batch_inv doubt' s.
Proof.
  intros Hsub [Hmax Hd]. split; [done|]. eapply SnapshotFile.keeps_mono; [exact Hd|].
  intros m Hm v p Hv. apply Hm. set_solver.
Qed.

Lemma save_and_set_inv doubt s next s' r :
  FileBatchStore.save_and_set digest s next = (s', r) →
  (is_err r = true → covers doubt s next) → batch_inv doubt s → batch_inv doubt s'.
Proof.
  unfold FileBatchStore.save_and_set, FileBatchStore.save. intros Hs Hc [Hmax Hd].
  destruct (SnapshotFile.keep _ _ _ _) as [f r'] eqn:Hk.
  apply (SnapshotFile.keep_step _ _ ∅ (batch_decode_encode _) _ _ (FileBatchStore.values s) _ _ _
           (λ x m, ∀ v p, v ∉ doubt → x !! v = Some p → m !! v = Some p)) in Hk;
    [|done| |done].
  - by destruct r' as [[]|]; injection Hs as <- _.
  - by destruct r' as [[]|]; injection Hs as _ <-.
Qed.

(** A process started on a surviving content finds it readable. *)
Lemma open_crashed doubt s c path next_io :
  batch_inv doubt s → c ∈ AtomicFile.survivors (SnapshotFile.disk (FileBatchStore.file s)) →
  ∃ s', FileBatchStore.open digest path None next_io (after_crash c)
          (FileBatchStore.max_snapshot_bytes s) = Ok s'
        ∧ covers doubt s (FileBatchStore.values s').
Proof.
  intros [Hmax Hd] Hc. destruct (Hd c) as (m & Hm & Hcov); [by right|].
  unfold FileBatchStore.open. rewrite (proj2 (Z.eqb_neq _ _)) by done. simpl.
  destruct c as [|bytes|]; simpl in *; [| |done].
  - injection Hm as <-. by eexists.
  - destruct (FileBatchStore.decode _ _ _); [|done]. injection Hm as ->. by eexists.
Qed.

Lemma open_inv path failure next_io c max_bytes s :
  FileBatchStore.open digest path failure next_io (after_crash c) max_bytes = Ok s →
  batch_inv [] s.
Proof.
  unfold FileBatchStore.open. destruct (Z.eqb_spec max_bytes 0); [done|]. simpl.
  destruct failure, c as [|bytes|]; simpl; try done.
  - intros [= <-]. split; [done|]. intros c' [->| ->%list_elem_of_singleton]; (eexists; split; [reflexivity|by intros v p _]).
  - destruct (FileBatchStore.decode digest max_bytes bytes) as [m|] eqn:Hm; [|done].
    intros [= <-]. split; [done|].
    intros c' [->| ->%list_elem_of_singleton]; simpl; rewrite Hm; (eexists; split; [reflexivity|by intros v p _]).
Qed.

Lemma store_step_inv doubt s ev s' :
  store_step s ev s' → batch_inv doubt s → batch_inv (doubt ++ doubtful ev) s'.
Proof.
  intros Hstep Hinv. destruct Hstep as [s v p s' r Hp|s ids s' r Hr|s c path failure io s' Hc Ho|s reached];
    simpl; rewrite ?app_nil_r.
  - unfold FileBatchStore.put in Hp. destruct (_ !! v) as [q|] eqn:Hv; [by injection Hp as <- _|].
    eapply save_and_set_inv; [exact Hp| |done]. intros _ w q _ Hw.
    rewrite lookup_insert_ne; [done|congruence].
  - unfold FileBatchStore.remove_many in Hr. destruct (0 <? _).
    2:{ injection Hr as <- _. eapply batch_inv_mono; [|exact Hinv]. set_solver. }
    destruct (FileBatchStore.save_and_set _ _ _) as [s1 r1] eqn:Hs. injection Hr as <- <-.
    destruct r1 as [[]|e]; simpl; rewrite ?app_nil_r.
    + by eapply save_and_set_inv.
    + eapply save_and_set_inv; [exact Hs| |eapply batch_inv_mono; [|exact Hinv]; set_solver].
      intros _ v p Hv. rewrite lookup_without by set_solver. done.
  - eapply batch_inv_mono; [|by eapply open_inv]. set_solver.
  - exact Hinv.
Qed.

Lemma store_steps_inv evs doubt s s' :
  store_steps s evs s' → batch_inv doubt s → batch_inv (doubt ++ (evs ≫= doubtful)) s'.
Proof.
  intros Hsteps. revert doubt.
  induction Hsteps as [s|s ev s1 evs s2 Hs _ IH]; intros doubt Hinv; simpl; [by rewrite app_nil_r|].
  rewrite app_assoc. by eapply IH, store_step_inv.
Qed.

(** Memory loses a payload only to a removal; a crash loses none that is not
    in doubt. *)
Lemma store_step_keeps doubt s ev s' v p :
  store_step s ev s' → batch_inv doubt s → v ∉ doubt → v ∉ removed_by ev →
  FileBatchStore.values s !! v = Some p → FileBatchStore.values s' !! v = Some p.
Proof.
  intros Hstep Hinv Hd Hr Hv.
  destruct Hstep as [s w q s' r Hp|s ids s' r Hrm|s c path failure io s' Hc Ho|s reached]; simpl in Hr.
  - change (put (BatchStore:=file_batch_store digest) s w q = (s', r)) in Hp.
    apply put_keeps in Hp as [Hsub _]. by eapply lookup_weaken.
  - change (remove_many (BatchStore:=file_batch_store digest) s ids = (s', r)) in Hrm.
    destruct r; [apply remove_many_Ok in Hrm as [-> _]|by apply remove_many_Err in Hrm as ->].
    by rewrite lookup_without.
  - destruct failure; [by unfold FileBatchStore.open in Ho; destruct (_ =? _)|].
    destruct (open_crashed doubt s c path io Hinv Hc) as (s'' & Ho' & Hcov).
    rewrite Ho in Ho'. injection Ho' as <-. by apply Hcov.
  - done.
Qed.

Lemma store_steps_keeps evs doubt s s' v p :
  store_steps s evs s' → batch_inv doubt s → v ∉ doubt → Forall (λ ev, v ∉ removed_by ev) evs →
  FileBatchStore.values s !! v = Some p → FileBatchStore.values s' !! v = Some p.
Proof.
  intros Hsteps. revert doubt.
  induction Hsteps as [s|s ev s1 evs s2 Hs _ IH]; intros doubt Hinv Hd Hr Hv; [done|].
  apply Forall_cons in Hr as [Hr Hrs].
  apply (IH (doubt ++ doubtful ev)); [by eapply store_step_inv| |done|by eapply store_step_keeps].
  destruct ev as [| ids [|]| |]; set_solver.
Qed.

(** C21: an acknowledged batch survives. Start from an empty disk, and let saves
    fail at any system call or crash point, and the process crash and reopen
    with any content the disk may then have: a payload whose publication was
    acknowledged, whose ID is not removed afterwards and had no failed removal
    before, is served unchanged, and after one more crash the store opens and
    serves it again. *)
Theorem acknowledged_batch_survives path failure next_io max_bytes s0 evs1 s1 v p s2 evs2 s3 :
  FileBatchStore.open digest path failure next_io (after_crash AtomicFile.Missing) max_bytes = Ok s0 →
  store_steps s0 evs1 s1 → v ∉ (evs1 ≫= doubtful) →
  FileBatchStore.put digest s1 v p = (s2, Ok tt) →
  store_steps s2 evs2 s3 → Forall (λ ev, v ∉ removed_by ev) evs2 →
  FileBatchStore.get s3 v = Ok (Some p)
  ∧ ∀ c path io, c ∈ AtomicFile.survivors (SnapshotFile.disk (FileBatchStore.file s3)) →
    ∃ s4, FileBatchStore.open digest path None io (after_crash c)
            (FileBatchStore.max_snapshot_bytes s3) = Ok s4
          ∧ FileBatchStore.get s4 v = Ok (Some p).
Proof.
  intros Hopen Hs1 Hdoubt Hput Hs2 Hrm.
  pose proof (store_steps_inv _ _ _ _ Hs1 (open_inv _ _ _ _ _ _ Hopen)) as Hi1.
  pose proof (store_step_inv _ _ _ _ (step_put _ _ _ _ _ Hput) Hi1) as Hi2.
  pose proof (store_steps_inv _ _ _ _ Hs2 Hi2) as Hi3. simpl in *. rewrite app_nil_r in *.
  assert (FileBatchStore.values s2 !! v = Some p) as Hv2.
  { change (put (BatchStore:=file_batch_store digest) s1 v p = (s2, Ok tt)) in Hput.
    apply put_Ok in Hput as [_ ->]. by rewrite lookup_insert_eq. }
  assert (FileBatchStore.values s3 !! v = Some p) as Hv3 by (by eapply store_steps_keeps).
  unfold FileBatchStore.get. rewrite Hv3. split; [done|]. intros c path' io Hc.
  destruct (open_crashed _ _ _ path' io Hi3 Hc) as (s4 & Ho & Hcov).
  exists s4. split; [done|]. rewrite (Hcov v p); [done| |done].
  apply not_elem_of_app. split; [done|]. intros (ev & Hev & Hin)%list_elem_of_bind.
  rewrite Forall_forall in Hrm. apply (Hrm ev); [done|]. destruct ev as [| ids [|]| |]; set_solver.
Qed.
End crashes.

(** ** Concrete runs *)

Module BatchRuns.
Import CountedPostcard.

Definition sum (l : list Z) : list Z := [foldr Z.add 0 l].

Definition io_ok : AtomicFile.io := FileRecorderStore.io_success.
Definition io_directory_fails : AtomicFile.io := {|
  AtomicFile.io_open := None; AtomicFile.io_write := None; AtomicFile.io_written := 0%nat;
  AtomicFile.io_sync := None; AtomicFile.io_rename := None;
  AtomicFile.io_sync_parent := Some "could not sync batch directory";
|}.

Definition stored (s : FileBatchStore.t Z) : AtomicFile.content :=
  AtomicFile.visible (SnapshotFile.disk (FileBatchStore.file s)).

Definition opened (next_io : list AtomicFile.io) : FileBatchStore.t Z :=
  FileBatchStore.mk (SnapshotFile.mk (after_crash AtomicFile.Missing) (λ _, Ok tt) next_io) ∅ 100.

Definition s1 : FileBatchStore.t Z := (FileBatchStore.put sum (opened [io_ok; io_directory_fails]) 1 [7]).1.
Definition s2 : FileBatchStore.t Z := (FileBatchStore.remove_many sum s1 [1]).1.

(** A removal whose directory sync fails reports an error and leaves the
    batch in memory, although the file no longer has it. Publishing the batch
    again is then acknowledged without a write, and after a crash the
    acknowledged batch is gone: the promise that acknowledged publishes
    survive a restart does not hold after a failed removal. *)
Theorem failed_prune_loses_batch :
  FileBatchStore.open sum "batches" None [io_ok; io_directory_fails]
    (after_crash AtomicFile.Missing) 100 = Ok (opened [io_ok; io_directory_fails])
  ∧ (FileBatchStore.put sum (opened [io_ok; io_directory_fails]) 1 [7]).2 = Ok tt
  ∧ (FileBatchStore.remove_many sum s1 [1]).2
    = Err (QuePaxaError.StorageError "could not sync batch directory")
  ∧ FileBatchStore.put sum s2 1 [7] = (s2, Ok tt)
  ∧ stored s2 ∈ AtomicFile.survivors (SnapshotFile.disk (FileBatchStore.file s2))
  ∧ ∃ s3, FileBatchStore.open sum "batches" None [] (after_crash (stored s2)) 100 = Ok s3
        ∧ FileBatchStore.get s3 1 = Ok None.
Proof.
  split; [reflexivity|]. split; [vm_compute; reflexivity|]. split; [vm_compute; reflexivity|].
  split; [vm_compute; reflexivity|]. split; [apply list_elem_of_here|].
  eexists. split; [vm_compute; reflexivity|]. reflexivity.
Qed.

(** The batch of the first acknowledged put, after a failed save of a second
    one and a crash. *)
Definition s3 : FileBatchStore.t Z := (FileBatchStore.put sum s1 2 [8]).1.

Lemma acknowledged_batch_survives_witness :
  ∃ s4, FileBatchStore.open sum "batches" None [] (after_crash (stored s3)) 100 = Ok s4
        ∧ FileBatchStore.get s4 1 = Ok (Some [7]).
Proof.
  refine (proj2 (acknowledged_batch_survives sum "batches" None [io_ok; io_directory_fails] 100
    (opened [io_ok; io_directory_fails]) [] (opened [io_ok; io_directory_fails]) 1 [7] s1
    [DidPut 2 [8] (FileBatchStore.put sum s1 2 [8]).2] s3 _ _ _ _ _ _) (stored s3) "batches" [] _).
  - reflexivity.
  - constructor.
  - apply not_elem_of_nil.
  - unfold s1. rewrite (surjective_pairing (FileBatchStore.put sum _ 1 [7])). f_equal.
  - econstructor; [|constructor]. constructor. apply surjective_pairing.
  - repeat constructor. apply not_elem_of_nil.
  - apply list_elem_of_here.
Defined.

(** A service over the memory store whose verifier compares the payload's sum
    with the ID. *)
Definition verify_sum (v : Z) (p : list Z) : Result unit :=
  if foldr Z.add 0 p =? v then Ok tt else Err (QuePaxaError.InvalidProposal "wrong sum").
Definition service : AuthenticatedBatchService.t (InMemoryBatchStore.t Z) :=
  AuthenticatedBatchService.mk (InMemoryBatchStore.mk ∅) false BatchServiceLimits.default.
Definition two_batches : list (Batch.t Z) := [Batch.mk 3 [1; 2]; Batch.mk 9 [9]].

Lemma published_batches_fetchable_witness :
  AuthenticatedBatchService.fetch
    (foldl (perform verify_sum)
       (AuthenticatedBatchService.publish verify_sum service two_batches).1
       [PruneCheckpointed [4]; Publish [Batch.mk 5 [5]]]) [3; 9] = Ok two_batches.
Proof.
  refine (published_batches_fetchable verify_sum service two_batches _
            [PruneCheckpointed [4]; Publish [Batch.mk 5 [5]]] _ _ _).
  - vm_compute. reflexivity.
  - vm_compute. discriminate.
  - repeat constructor; simpl; set_solver.
Defined.

Lemma fetch_serves_verified_witness :
  Forall (λ b, admissible verify_sum BatchServiceLimits.default (Batch.value_id b) (Batch.payload b))
    two_batches.
Proof.
  refine (proj2 (proj2 (fetch_serves_verified verify_sum service [Publish two_batches] [3; 9]
                          two_batches _ _))).
  - apply map_Forall_empty.
  - vm_compute. reflexivity.
Defined.
End BatchRuns.
