(* ===== verification/Wire.v ===== *)
(** * Messages between nodes (src/network/wire.rs)

  The requests and responses of the node protocol, with the constructors of
  the source. Byte arrays of fixed length are lists of bytes. *)
From S2P Require Import Prelude Errors Types Membership Batch.

Definition WIRE_VERSION : Z := 4.

(** [DeploymentId([u8; 16])], and [from_u128] with the bytes in big-endian
    order. *)
Abbreviation DeploymentId := (list Z) (only parsing).
Definition from_u128 (value : Z) : DeploymentId :=
  (λ i, Z.shiftr value (8 * (15 - Z.of_nat i)) mod 256) <$> seq 0 16.

Module PeerSender.
Inductive t : Type :=
| Replica (id : ReplicaId)
| Client (id : list Z).
#[global] Instance eq_dec : EqDecision t.
Proof. solve_decision. Defined.
End PeerSender.

Module Submission.
Record t {V : Type} : Type := mk {
  client_id : list Z;
  request_id : Z;
  value_ids : list V;
}.
Arguments t : clear implicits.
Arguments mk {V} _ _ _.
End Submission.

Module SubmissionOutcome.
Inductive t {V : Type} : Type :=
| Accepted
| Committed (decision : Decision.t V)
| Duplicate (decision : option (Decision.t V)).
Arguments t : clear implicits.
#[global] Instance eq_dec `{EqDecision V} : EqDecision (t V).
Proof. solve_decision. Defined.
End SubmissionOutcome.

Module RequestBody.
Inductive t {V : Type} : Type :=
| Record (request : RecordRequest.t V)
| Status (slot : SlotIndex)
| InformDecisions (decisions : list (Decision.t V))
| InstallMembership (change : MembershipChange.t V)
| PublishBatches (batches : list (Batch.t V))
| FetchBatches (value_ids : list V)
| Submit (submission : Submission.t V)
| Ping.
Arguments t : clear implicits.
End RequestBody.

Module NodeRequest.
Record t {V : Type} : Type := mk {
  version : Z;
  deployment : DeploymentId;
  request_id : Z;
  sender : PeerSender.t;
  body : RequestBody.t V;
}.
Arguments t : clear implicits.
Arguments mk {V} _ _ _ _ _.
End NodeRequest.

Module WireErrorCode.
Inductive t : Type :=
| Authentication
| Configuration
| InvalidRequest
| ResourceLimit
| Storage
| Unavailable
| Internal
| Conflict
| ScheduleMismatch
| Pruned.
#[global] Instance eq_dec : EqDecision t.
Proof. solve_decision. Defined.
End WireErrorCode.

Module WireError.
Record t : Type := mk { code : WireErrorCode.t; message : string }.
#[global] Instance eq_dec : EqDecision t.
Proof. solve_decision. Defined.
End WireError.

Module ResponseBody.
Inductive t {V : Type} : Type :=
| Record (reply : RecordReply.t V)
| Status (step : option Z)
| Submission (outcome : SubmissionOutcome.t V)
| Batches (batches : list (Batch.t V))
| Ack
| Pong
| Error (error : WireError.t).
Arguments t : clear implicits.
End ResponseBody.

Module NodeResponse.
Record t {V : Type} : Type := mk {
  version : Z;
  deployment : DeploymentId;
  request_id : Z;
  body : ResponseBody.t V;
}.
Arguments t : clear implicits.
Arguments mk {V} _ _ _ _.
End NodeResponse.
