(* ===== verification/Dedupe.v ===== *)
(** * Executing and answering once (src/network/dedupe.rs)

  A value ID can be decided in several slots, and a decision can be delivered
  again after a restart. The executors here apply each value ID once: the
  reference executor in memory, the file executor with the application's
  state and the set of applied IDs in one atomically replaced snapshot.
  [DeduplicatingStateMachine] runs either under the replica runtime. The
  submission journals remember the outcome of each client request. *)
From S2P Require Import Prelude Errors Types Durable Runtime Codec Wire.

Definition DEDUPE_STORAGE_VERSION : Z := 1.

Definition JOURNAL_CRASH_POINTS : AtomicFile.points := {|
  AtomicFile.opened := CrashPoint.SubmissionJournalTemporaryOpened;
  AtomicFile.written := CrashPoint.SubmissionJournalTemporaryWritten;
  AtomicFile.synced := CrashPoint.SubmissionJournalTemporarySynced;
  AtomicFile.renamed := CrashPoint.SubmissionJournalRenamed;
  AtomicFile.directory_synced := CrashPoint.SubmissionJournalDirectorySynced;
|}.
Definition EXACTLY_ONCE_CRASH_POINTS : AtomicFile.points := {|
  AtomicFile.opened := CrashPoint.ExactlyOnceTemporaryOpened;
  AtomicFile.written := CrashPoint.ExactlyOnceTemporaryWritten;
  AtomicFile.synced := CrashPoint.ExactlyOnceTemporarySynced;
  AtomicFile.renamed := CrashPoint.ExactlyOnceRenamed;
  AtomicFile.directory_synced := CrashPoint.ExactlyOnceDirectorySynced;
|}.

(** ** Snapshots of this file *)

Module DedupeStorageEnvelope.
Record t : Type := mk { version : Z; checksum : list Z; payload : list Z }.
#[global] Instance eq_dec : EqDecision t.
Proof. solve_decision. Defined.
#[global] Instance countable : Countable t.
Proof.
  refine (inj_countable' (λ '(mk v c p), (v, c, p)) (λ '(v, c, p), mk v c p) _).
  by intros [].
Defined.
End DedupeStorageEnvelope.

Definition validate_snapshot_limit (max_snapshot_bytes : Z) : Result unit :=
  reject max_snapshot_bytes =? 0
    with QuePaxaError.StorageError "maximum deduplication snapshot size must be non-zero" ;;
  Ok tt.

Section snapshots.
Context {T : Type} `{!Postcard T, !Postcard DedupeStorageEnvelope.t}.
Context (digest : list Z → list Z).

Definition encode_snapshot (snapshot : T) (max_snapshot_bytes : Z) (label : string)
    : Result (list Z) :=
  let? _ := validate_snapshot_limit max_snapshot_bytes in
  let? payload := storage_err ("could not encode " +:+ label +:+ " payload")
                    (to_allocvec snapshot) in
  let? bytes := storage_err ("could not encode " +:+ label)
    (to_allocvec (DedupeStorageEnvelope.mk DEDUPE_STORAGE_VERSION (digest payload) payload)) in
  reject max_snapshot_bytes <? len bytes
    with QuePaxaError.ResourceLimit "durable deduplication bytes" max_snapshot_bytes ;;
  Ok bytes.

Definition decode_snapshot (bytes : list Z) (max_snapshot_bytes : Z) (label : string) : Result T :=
  let? _ := validate_snapshot_limit max_snapshot_bytes in
  reject is_empty bytes || (max_snapshot_bytes <? len bytes)
    with QuePaxaError.StorageError
           (label +:+ " size " +:+ pretty (len bytes) +:+ " is outside the configured bound") ;;
  let? envelope := storage_err ("could not decode " +:+ label) (from_bytes bytes) in
  reject negb (DedupeStorageEnvelope.version envelope =? DEDUPE_STORAGE_VERSION)
    with QuePaxaError.StorageError
           ("unsupported " +:+ label +:+ " version "
            +:+ pretty (DedupeStorageEnvelope.version envelope)) ;;
  reject negb (bool_decide (digest (DedupeStorageEnvelope.payload envelope)
                            = DedupeStorageEnvelope.checksum envelope))
    with QuePaxaError.StorageError (label +:+ " checksum verification failed") ;;
  storage_err ("could not decode " +:+ label +:+ " payload")
    (from_bytes (DedupeStorageEnvelope.payload envelope)).

Definition load_snapshot (path : string) (failure : option string) (c : AtomicFile.content)
    (max_snapshot_bytes : Z) (label : string) : Result (option T) :=
  let? _ := validate_snapshot_limit max_snapshot_bytes in
  let? read := storage_err ("could not read " +:+ label +:+ " " +:+ path)
                 (SnapshotFile.read failure c) in
  match read with
  | Some bytes => let? snapshot := decode_snapshot bytes max_snapshot_bytes label in
                  Ok (Some snapshot)
  | None => Ok None
  end.

(** The target's crash points, limit and label are the arguments. *)
Definition save_snapshot (points : AtomicFile.points) (max_snapshot_bytes : Z) (label : string)
    (file : SnapshotFile.t) (snapshot : T) : SnapshotFile.t * Result unit :=
  SnapshotFile.keep (λ s, encode_snapshot s max_snapshot_bytes label) points file snapshot.

Context `{!PostcardLaws T, !PostcardLaws DedupeStorageEnvelope.t}.

Lemma dedupe_decode_encode max_bytes label label' (x : T) bytes :
  encode_snapshot x max_bytes label = Ok bytes → decode_snapshot bytes max_bytes label' = Ok x.
Proof.
  unfold encode_snapshot, decode_snapshot.
  destruct (validate_snapshot_limit max_bytes); [|done].
  destruct (to_allocvec x) as [payload|] eqn:Hp; simpl; [|done].
  destruct (to_allocvec (DedupeStorageEnvelope.mk _ _ _)) as [b|] eqn:Hb; simpl; [|done].
  destruct (Z.ltb_spec max_bytes (len b)) as [|Hle]; [done|]. intros [= ->].
  destruct (is_empty bytes) eqn:He.
  { apply is_empty_spec in He as ->. by apply to_allocvec_nonempty in Hb. }
  rewrite (proj2 (Z.ltb_ge _ _)), (from_to_allocvec _ _ Hb) by done. simpl.
  by rewrite bool_decide_true, (from_to_allocvec _ _ Hp) by done.
Qed.

(** [load_snapshot] with the default the callers put in its place: what a
    content is worth to a starting process. *)
Abbreviation on_file max_bytes label initial :=
  (SnapshotFile.keeps (λ bytes, decode_snapshot bytes max_bytes label) initial).

Lemma load_kept path c max_bytes label initial (P : T → Prop) file :
  max_bytes ≠ 0 → on_file max_bytes label initial file P → SnapshotFile.may_hold file c →
  ∃ o, load_snapshot path None c max_bytes label = Ok o ∧ P (default initial o).
Proof.
  intros Hmax Hk Hc. destruct (Hk c Hc) as (x & Hx & HP). unfold load_snapshot, validate_snapshot_limit.
  rewrite (proj2 (Z.eqb_neq _ _)) by done. destruct c as [|bytes|]; simpl in *; [| |done].
  - injection Hx as ->. by exists None.
  - destruct (decode_snapshot bytes max_bytes label) as [y|]; [|done]. injection Hx as ->.
    by exists (Some x).
Qed.

Lemma save_step points max_bytes label initial file (x next : T) file' r (R : T → T → Prop) :
  save_snapshot points max_bytes label file next = (file', r) → R next next →
  (is_err r = true → R x next) → on_file max_bytes label initial file (R x) →
  on_file max_bytes label initial file' (R (match r with Ok _ => next | Err _ => x end)).
Proof. apply SnapshotFile.keep_step. intros y bytes. apply dedupe_decode_encode. Qed.

Lemma load_on_file path failure c max_bytes label initial o (file : SnapshotFile.t) :
  load_snapshot path failure c max_bytes label = Ok o →
  SnapshotFile.disk file = AtomicFile.mk c [c] None →
  max_bytes ≠ 0 ∧ on_file max_bytes label initial file (λ x, x = default initial o).
Proof.
  unfold load_snapshot, validate_snapshot_limit.
  destruct (Z.eqb_spec max_bytes 0); [done|]. simpl. intros Hl Hd. split; [done|].
  intros c'. unfold SnapshotFile.may_hold. rewrite Hd. simpl.
  destruct failure, c as [|bytes|]; simpl in Hl; try done; intros [->| ->%list_elem_of_singleton].
  all: try (injection Hl as <-; simpl; by eexists).
  all: simpl; destruct (decode_snapshot bytes max_bytes label) as [y|]; [|done];
    injection Hl as <-; by eexists.
Qed.
End snapshots.

(** ** Executors *)

(** The trait, and the two methods an executor may inherit. *)
Class ExactlyOnceExecutor (V X : Type) : Type := {
  execute_once : X → SlotIndex → V → X * Result bool;
  once_export_checkpoint : X → SlotIndex → X * Result (list Z);
  once_import_checkpoint : X → SlotIndex → list Z → X * Result unit;
}.

Definition default_once_export {X} (x : X) (through : SlotIndex) : X * Result (list Z) :=
  (x, Err (QuePaxaError.StorageError
             "the exactly-once executor does not implement checkpoint export")).
Definition default_once_import {X} (x : X) (through : SlotIndex) (checkpoint : list Z)
    : X * Result unit :=
  (x, Err (QuePaxaError.StorageError
             "the exactly-once executor does not implement checkpoint import")).

(** What an executor promises. [applied x log] says that the executor's state
    is the result of applying the commands of [log], in this order. *)
Class ExactlyOnceLaws (V X : Type) `{!ExactlyOnceExecutor V X}
    (applied : X → list (SlotIndex * V) → Prop) : Prop := {
  applied_NoDup : ∀ x log, applied x log → NoDup (log.*2);
  execute_once_true : ∀ x x' log slot v, applied x log →
      execute_once x slot v = (x', Ok true) → (v ∉ log.*2) ∧ applied x' (log ++ [(slot, v)]);
  execute_once_false : ∀ x x' log slot v, applied x log →
      execute_once x slot v = (x', Ok false) → v ∈ log.*2 ∧ applied x' log;
  execute_once_Err : ∀ x x' log slot v e, applied x log →
      execute_once x slot v = (x', Err e) → applied x' log;
}.

Module DeduplicatingStateMachine.
Record t {X : Type} : Type := new { executor : X }.
Arguments t : clear implicits.
Arguments new {X} _.

Section ops.
Context {V X : Type} `{!ExactlyOnceExecutor V X}.
Implicit Types self : t X.

Definition execute self (decision : Decision.t V) : t X * Result unit :=
  zoom executor (λ _, new)
    (for_each (λ value_id, let* _ := (λ x, execute_once x (Decision.slot decision) value_id) in
                           ret tt)
              (Decision.value_ids decision)) self.
Definition export_checkpoint self (through : SlotIndex) : t X * Result (list Z) :=
  zoom executor (λ _, new) (λ x, once_export_checkpoint (V:=V) x through) self.
Definition import_checkpoint self (through : SlotIndex) (checkpoint : list Z)
    : t X * Result unit :=
  zoom executor (λ _, new) (λ x, once_import_checkpoint (V:=V) x through checkpoint) self.
End ops.
End DeduplicatingStateMachine.

#[global] Instance deduplicating_state_machine `{!ExactlyOnceExecutor V X}
    : StateMachine V (DeduplicatingStateMachine.t X) := {|
  execute := DeduplicatingStateMachine.execute;
  export_checkpoint := DeduplicatingStateMachine.export_checkpoint (V:=V);
  import_checkpoint := DeduplicatingStateMachine.import_checkpoint (V:=V);
|}.

(** The closure of the reference executor has a state [F] of its own. *)
Module InMemoryExactlyOnceExecutor.
Record t {V F : Type} `{Countable V} : Type := mk { seen : gset V; closure : F }.
Arguments t V F {_ _}.
Arguments mk {V F _ _} _ _.

Section ops.
Context {V F : Type} `{Countable V} (apply : F → SlotIndex → V → F * Result unit).
Implicit Types self : t V F.

Definition new (closure : F) : t V F := mk ∅ closure.

Definition execute_once self (slot : SlotIndex) (value_id : V) : t V F * Result bool :=
  if bool_decide (value_id ∈ seen self) then (self, Ok false)
  else match apply (closure self) slot value_id with
       | (closure, Err e) => (mk (seen self) closure, Err e)
       | (closure, Ok _) => (mk ({[value_id]} ∪ seen self) closure, Ok true)
       end.
End ops.
End InMemoryExactlyOnceExecutor.

Module ExactlyOnceSnapshot.
Record t {V A : Type} `{Countable V} : Type := mk {
  checkpointed_through : SlotIndex;
  seen : gset V;
  application : A;
}.
Arguments t V A {_ _}.
Arguments mk {V A _ _} _ _ _.
Section instances.
Context {V A : Type} `{Countable V}.
#[global] Instance eq_dec `{EqDecision A} : EqDecision (t V A).
Proof. solve_decision. Defined.
#[global] Instance countable `{Countable A} : Countable (t V A).
Proof.
  refine (inj_countable' (λ '(mk c s a), (c, s, a)) (λ '(c, s, a), mk c s a) _). by intros [].
Defined.
End instances.
End ExactlyOnceSnapshot.

(** The callback changes only the application state it is given: a function
    of that state. *)
Module FileExactlyOnceExecutor.
Record t {V A : Type} `{Countable V} : Type := mk {
  file : SnapshotFile.t;
  snapshot : ExactlyOnceSnapshot.t V A;
  max_snapshot_bytes : Z;
}.
Arguments t V A {_ _}.
Arguments mk {V A _ _} _ _ _.

Section ops.
Context {V A : Type} `{Countable V} (apply : A → SlotIndex → V → Result A).
Context `{!Postcard (ExactlyOnceSnapshot.t V A), !Postcard DedupeStorageEnvelope.t}.
Context (digest : list Z → list Z).
Implicit Types self : t V A.

Definition label : string := "exactly-once state".
Definition initial (initial_application : A) : ExactlyOnceSnapshot.t V A :=
  ExactlyOnceSnapshot.mk 0 ∅ initial_application.

Definition open (path : string) (failure : option string) (next_io : list AtomicFile.io)
    (disk : AtomicFile.disk) (max_snapshot_bytes : Z) (initial_application : A)
    : Result (t V A) :=
  let? loaded := load_snapshot digest path failure (AtomicFile.visible disk)
                   max_snapshot_bytes label in
  Ok (mk (SnapshotFile.mk disk (λ _, Ok tt) next_io)
         (default (initial initial_application) loaded) max_snapshot_bytes).

Definition with_crash_injector self (reached : CrashPoint.t → Result unit) : t V A :=
  mk (SnapshotFile.mk (SnapshotFile.disk (file self)) reached (SnapshotFile.next_io (file self)))
     (snapshot self) (max_snapshot_bytes self).

Definition save self (next : ExactlyOnceSnapshot.t V A) : SnapshotFile.t * Result unit :=
  save_snapshot digest EXACTLY_ONCE_CRASH_POINTS (max_snapshot_bytes self) label (file self) next.

(** [self.save(&next)?; self.snapshot = next]. *)
Definition save_and_set self (next : ExactlyOnceSnapshot.t V A) : t V A * Result unit :=
  match save self next with
  | (file', Ok _) => (mk file' next (max_snapshot_bytes self), Ok tt)
  | (file', Err e) => (mk file' (snapshot self) (max_snapshot_bytes self), Err e)
  end.

Definition execute_once self (slot : SlotIndex) (value_id : V) : t V A * Result bool :=
  if bool_decide (value_id ∈ ExactlyOnceSnapshot.seen (snapshot self)) then (self, Ok false)
  else match apply (ExactlyOnceSnapshot.application (snapshot self)) slot value_id with
       | Err e => (self, Err e)
       | Ok application =>
           let '(self', r) := save_and_set self (ExactlyOnceSnapshot.mk
             (ExactlyOnceSnapshot.checkpointed_through (snapshot self))
             ({[value_id]} ∪ ExactlyOnceSnapshot.seen (snapshot self)) application) in
           (self', let? _ := r in Ok true)
       end.

Definition export_checkpoint self (through : SlotIndex) : t V A * Result (list Z) :=
  let '(self', r) := save_and_set self (ExactlyOnceSnapshot.mk through
    (ExactlyOnceSnapshot.seen (snapshot self)) (ExactlyOnceSnapshot.application (snapshot self))) in
  (self', let? _ := r in
          encode_snapshot digest (snapshot self') (max_snapshot_bytes self')
            "exactly-once checkpoint").

Definition import_checkpoint self (through : SlotIndex) (checkpoint : list Z)
    : t V A * Result unit :=
  match decode_snapshot digest checkpoint (max_snapshot_bytes self) "exactly-once checkpoint" with
  | Err e => (self, Err e)
  | Ok next =>
      if negb (ExactlyOnceSnapshot.checkpointed_through next =? through)
      then (self, Err QuePaxaError.ConfigurationMismatch)
      else save_and_set self next
  end.
End ops.
End FileExactlyOnceExecutor.

(** ** Submission journals *)

Abbreviation SubmissionKey := (list Z * Z)%type (only parsing).

Class SubmissionJournal (V J : Type) : Type := {
  journal_get : J → list Z → Z → Result (option (SubmissionOutcome.t V));
  journal_put : J → list Z → Z → SubmissionOutcome.t V → J * Result unit;
}.

(** What a journal promises: it answers from its outcomes, records the one it
    acknowledges and never changes a recorded one. *)
Class SubmissionJournalLaws (V J : Type) `{!SubmissionJournal V J}
    (recorded : J → gmap SubmissionKey (SubmissionOutcome.t V)) : Prop := {
  journal_get_recorded : ∀ j c r, journal_get j c r = Ok (recorded j !! (c, r));
  journal_put_Ok : ∀ j j' c r o, journal_put j c r o = (j', Ok tt) →
      recorded j' = <[(c, r) := o]> (recorded j)
      ∧ (recorded j !! (c, r) = None ∨ recorded j !! (c, r) = Some o);
  journal_put_Err : ∀ j j' c r o e, journal_put j c r o = (j', Err e) → recorded j' = recorded j;
}.

Definition different_outcome : QuePaxaError.t :=
  QuePaxaError.InvalidProposal "submission request ID already has a different outcome".

Module InMemorySubmissionJournal.
Record t {V : Type} : Type := mk { outcomes : gmap SubmissionKey (SubmissionOutcome.t V) }.
Arguments t : clear implicits.
Arguments mk {V} _.

Section ops.
Context {V : Type} `{EqDecision V}.
Implicit Types self : t V.
Definition get self (client_id : list Z) (request_id : Z)
    : Result (option (SubmissionOutcome.t V)) := Ok (outcomes self !! (client_id, request_id)).
Definition put self (client_id : list Z) (request_id : Z) (outcome : SubmissionOutcome.t V)
    : t V * Result unit :=
  if match outcomes self !! (client_id, request_id) with
     | Some existing => negb (bool_decide (existing = outcome))
     | None => false
     end
  then (self, Err different_outcome)
  else (mk (<[(client_id, request_id) := outcome]> (outcomes self)), Ok tt).
End ops.
End InMemorySubmissionJournal.

Module FileSubmissionJournal.
Record t {V : Type} : Type := mk {
  file : SnapshotFile.t;
  outcomes : gmap SubmissionKey (SubmissionOutcome.t V);
  max_snapshot_bytes : Z;
}.
Arguments t : clear implicits.
Arguments mk {V} _ _ _.

Section ops.
Context {V : Type} `{EqDecision V}.
Context `{!Postcard (gmap SubmissionKey (SubmissionOutcome.t V)), !Postcard DedupeStorageEnvelope.t}.
Context (digest : list Z → list Z).
Implicit Types self : t V.

Definition label : string := "submission journal".

Definition open (path : string) (failure : option string) (next_io : list AtomicFile.io)
    (disk : AtomicFile.disk) (max_snapshot_bytes : Z) : Result (t V) :=
  let? loaded := load_snapshot digest path failure (AtomicFile.visible disk)
                   max_snapshot_bytes label in
  Ok (mk (SnapshotFile.mk disk (λ _, Ok tt) next_io) (default ∅ loaded) max_snapshot_bytes).

Definition with_crash_injector self (reached : CrashPoint.t → Result unit) : t V :=
  mk (SnapshotFile.mk (SnapshotFile.disk (file self)) reached (SnapshotFile.next_io (file self)))
     (outcomes self) (max_snapshot_bytes self).

Definition len self : Z := Z.of_nat (size (outcomes self)).
Definition is_empty self : bool := bool_decide (outcomes self = ∅).

Definition save self (next : gmap SubmissionKey (SubmissionOutcome.t V))
    : SnapshotFile.t * Result unit :=
  save_snapshot digest JOURNAL_CRASH_POINTS (max_snapshot_bytes self) label (file self) next.

Definition get self (client_id : list Z) (request_id : Z)
    : Result (option (SubmissionOutcome.t V)) := Ok (outcomes self !! (client_id, request_id)).

Definition put self (client_id : list Z) (request_id : Z) (outcome : SubmissionOutcome.t V)
    : t V * Result unit :=
  match outcomes self !! (client_id, request_id) with
  | Some existing =>
      (self, reject negb (bool_decide (existing = outcome)) with different_outcome ;; Ok tt)
  | None =>
      let next := <[(client_id, request_id) := outcome]> (outcomes self) in
      match save self next with
      | (file', Ok _) => (mk file' next (max_snapshot_bytes self), Ok tt)
      | (file', Err e) => (mk file' (outcomes self) (max_snapshot_bytes self), Err e)
      end
  end.
End ops.
End FileSubmissionJournal.

(** ** Decided commands are applied once *)

(** The reference: of a list of commands, those whose value is not done yet
    and that are the first with their value. *)
Fixpoint once `{EqDecision V} (applied : list V) (commands : list (SlotIndex * V))
    : list (SlotIndex * V) :=
  match commands with
  | [] => []
  | (slot, v) :: commands =>
      if bool_decide (v ∈ applied) then once applied commands
      else (slot, v) :: once (v :: applied) commands
  end.

(** The commands of a decision, each with its slot. *)
Definition commands {V} (decision : Decision.t V) : list (SlotIndex * V) :=
  pair (Decision.slot decision) <$> Decision.value_ids decision.

Section once.
Context {V : Type} `{EqDecision V}.
Implicit Types cmds log : list (SlotIndex * V).

Lemma once_ext (d d' : list V) cmds : (∀ v, v ∈ d ↔ v ∈ d') → once d cmds = once d' cmds.
Proof.
  revert d d'. induction cmds as [|[slot v] cmds IH]; intros d d' Hd; simpl; [done|].
  rewrite (bool_decide_ext _ _ (Hd v)). case_bool_decide; [by apply IH|].
  f_equal. apply IH. set_solver.
Qed.

Lemma once_app d cmds1 cmds2 :
  once d (cmds1 ++ cmds2) = once d cmds1 ++ once ((once d cmds1).*2 ++ d) cmds2.
Proof.
  revert d. induction cmds1 as [|[slot v] cmds1 IH]; intros d; simpl; [done|].
  case_bool_decide; [by apply IH|]. simpl. f_equal. rewrite IH. f_equal.
  apply once_ext. set_solver.
Qed.

Lemma once_done d cmds : (∀ v, v ∈ cmds.*2 → v ∈ d) → once d cmds = [].
Proof.
  revert d. induction cmds as [|[slot v] cmds IH]; intros d Hd; simpl in *; [done|].
  rewrite bool_decide_true by (apply Hd; left). apply IH. set_solver.
Qed.

(** Commands whose first run stopped after [k] of them, run again. *)
Lemma once_again d cmds log :
  log `prefix_of` once d cmds → log ++ once (log.*2 ++ d) cmds = once d cmds.
Proof.
  revert d log. induction cmds as [|[slot v] cmds IH]; intros d log; simpl.
  - by intros ->%prefix_nil_inv.
  - case_bool_decide as Hv.
    + rewrite bool_decide_true by set_solver. apply IH.
    + destruct log as [|e log]; simpl; [by rewrite bool_decide_false|].
      intros Hp. pose proof (prefix_cons_inv_1 _ _ _ _ Hp) as ->. apply prefix_cons_inv_2, IH in Hp.
      simpl. rewrite bool_decide_true by left. f_equal. rewrite <-Hp. f_equal.
      apply once_ext. set_solver.
Qed.
End once.

Section state_machine.
Context {V X : Type} `{EqDecision V} `{!ExactlyOnceExecutor V X}.
Context {applied : X → list (SlotIndex * V) → Prop} `{!ExactlyOnceLaws V X applied}.
Implicit Types m : DeduplicatingStateMachine.t X.

Definition execute_all (decisions : list (Decision.t V))
    : M (DeduplicatingStateMachine.t X) QuePaxaError.t unit :=
  for_each (λ decision m, DeduplicatingStateMachine.execute m decision) decisions.

(** One attempt at [cmds] from [log]: it applies the start of what is new, all
    of it when it succeeds. *)
Definition attempted log cmds (x' : X) (r : Result unit) : Prop :=
  ∃ log', applied x' (log ++ log') ∧ log' `prefix_of` once log.*2 cmds
    ∧ (r = Ok tt → log' = once log.*2 cmds).

Lemma attempted_app log cmds1 cmds2 x1 x2 r :
  attempted log cmds1 x1 (Ok tt) →
  (∀ log1, applied x1 log1 → attempted log1 cmds2 x2 r) →
  attempted log (cmds1 ++ cmds2) x2 r.
Proof.
  intros (log1 & Ha1 & _ & Hok1) H2. rewrite (Hok1 eq_refl) in Ha1. destruct (H2 _ Ha1) as (log2 & Ha2 & Hp & Hok).
  assert (once log.*2 (cmds1 ++ cmds2)
          = once log.*2 cmds1 ++ once (log ++ once log.*2 cmds1).*2 cmds2) as Heq.
  { rewrite once_app. f_equal. apply once_ext. intros v. rewrite fmap_app. set_solver. }
  exists (once log.*2 cmds1 ++ log2). rewrite Heq. split_and!.
  - by rewrite app_assoc.
  - by apply prefix_app.
  - intros ->. by rewrite <-Hok.
Qed.

Lemma attempted_Err log cmds1 cmds2 x e : 
  attempted log cmds1 x (Err e) → attempted log (cmds1 ++ cmds2) x (Err e).
Proof.
  intros (log1 & Ha & Hp & _). exists log1. split_and!; [done| |done].
  rewrite once_app. by apply prefix_app_r.
Qed.

Lemma execute_values_attempted slot (vs : list V) x log x' r :
  applied x log →
  for_each (λ v, let* _ := (λ x, execute_once x slot v) in ret tt) vs x = (x', r) →
  attempted log (pair slot <$> vs) x' r.
Proof.
  revert x log. induction vs as [|v vs IH]; intros x log Ha; simpl.
  { intros [= <- <-]. exists []. rewrite app_nil_r. by split_and!. }
  unfold bind at 1 2. destruct (execute_once x slot v) as [x1 [b|e]] eqn:He; simpl.
  - intros Hr. apply (attempted_app _ [(slot, v)] _ x1); [|by eauto].
    destruct b.
    + apply (execute_once_true _ _ _ _ _ Ha) in He as [Hv Ha1]. exists [(slot, v)].
      simpl. by rewrite bool_decide_false.
    + apply (execute_once_false _ _ _ _ _ Ha) in He as [Hv Ha1]. exists [].
      rewrite app_nil_r. simpl. by rewrite bool_decide_true.
  - intros [= <- <-]. apply (execute_once_Err _ _ _ _ _ _ Ha) in He.
    exists []. rewrite app_nil_r. split_and!; [done|apply prefix_nil|done].
Qed.

Lemma execute_all_attempted decisions m log m' r :
  applied (DeduplicatingStateMachine.executor m) log →
  execute_all decisions m = (m', r) →
  attempted log (decisions ≫= commands) (DeduplicatingStateMachine.executor m') r.
Proof.
  unfold execute_all. revert m log. induction decisions as [|d ds IH]; intros m log Ha; simpl.
  { intros [= <- <-]. exists []. rewrite app_nil_r. by split_and!. }
  unfold bind, DeduplicatingStateMachine.execute, zoom.
  destruct (for_each _ (Decision.value_ids d) _) as [x1 r1] eqn:He.
  apply (execute_values_attempted _ _ _ _ _ _ Ha) in He. destruct r1 as [[]|e].
  - intros Hr. eapply attempted_app; [exact He|]. intros log1 Ha1. by eapply IH; [|exact Hr].
  - intros [= <- <-]. by apply attempted_Err.
Qed.

(** C22: a state machine wrapped for deduplication, whatever its executor,
    applies the commands of the decisions delivered to it exactly once each,
    in the order of their first occurrence: after any number of attempts that
    failed part-way and were delivered again from the start, the attempt that
    succeeds leaves what the reference applies, as if nothing had failed. *)
Theorem decisions_apply_once m log decisions attempts m' :
  applied (DeduplicatingStateMachine.executor m) log →
  execute_all decisions (Nat.iter attempts (λ m, (execute_all decisions m).1) m) = (m', Ok tt) →
  applied (DeduplicatingStateMachine.executor m')
          (log ++ once log.*2 (decisions ≫= commands))
  ∧ NoDup (log ++ once log.*2 (decisions ≫= commands)).*2.
Proof.
  intros Ha. set (cmds := decisions ≫= commands).
  set (mn := Nat.iter attempts _ m).
  assert (∃ log', applied (DeduplicatingStateMachine.executor mn) (log ++ log')
                  ∧ log' `prefix_of` once log.*2 cmds) as (log' & Han & Hp).
  { subst mn. induction attempts as [|n (log' & Han & Hp)]; simpl.
    { exists []. rewrite app_nil_r. split; [done|apply prefix_nil]. }
    destruct (execute_all decisions (Nat.iter n _ m)) as [m1 r1] eqn:He.
    destruct (execute_all_attempted _ _ _ _ _ Han He) as (log2 & Ha2 & Hp2 & _). simpl.
    exists (log' ++ log2). rewrite app_assoc. split; [done|].
    rewrite <-(once_again log.*2 cmds log' Hp). apply prefix_app.
    erewrite once_ext; [exact Hp2|]. intros v. rewrite fmap_app. set_solver. }
  intros He. destruct (execute_all_attempted _ _ _ _ _ Han He) as (log2 & Ha2 & _ & Hall).
  rewrite (Hall eq_refl) in Ha2.
  assert (log' ++ once (log ++ log').*2 cmds = once log.*2 cmds) as Heq.
  { rewrite <-(once_again log.*2 cmds log' Hp). f_equal. apply once_ext.
    intros v. rewrite fmap_app. set_solver. }
  rewrite <-app_assoc in Ha2. fold cmds in Ha2. rewrite Heq in Ha2.
  split; [done|]. by eapply applied_NoDup.
Qed.
End state_machine.
