(* ===== verification/ExactlyOnce.v ===== *)
(** * The executors and journals keep their promises

  The two executors of [Dedupe] satisfy the executor's contract and the two
  journals the journal's. The file versions are then followed through failed
  saves and crashes: the snapshot a restart finds is one that applied each
  value once, and nothing acknowledged is forgotten. *)
From S2P Require Import Prelude Errors Types Durable Runtime Codec Wire Dedupe.

Lemma NoDup_snoc {B} (l : list B) b : NoDup l → b ∉ l → NoDup (l ++ [b]).
Proof. intros ? ?. apply NoDup_app. split_and!; [done|set_solver|apply NoDup_singleton]. Qed.

(** ** The reference executor *)

Section in_memory.
Context {V F : Type} `{Countable V} (apply : F → SlotIndex → V → F * Result unit).

#[global] Instance in_memory_executor
    : ExactlyOnceExecutor V (InMemoryExactlyOnceExecutor.t V F) := {|
  execute_once := InMemoryExactlyOnceExecutor.execute_once apply;
  once_export_checkpoint := default_once_export;
  once_import_checkpoint := default_once_import;
|}.

Definition in_memory_applied (x : InMemoryExactlyOnceExecutor.t V F)
    (log : list (SlotIndex * V)) : Prop :=
  NoDup (log.*2) ∧ InMemoryExactlyOnceExecutor.seen x = list_to_set (log.*2).

#[global] Instance in_memory_executor_laws : ExactlyOnceLaws V _ in_memory_applied.
Proof.
  split; simpl; unfold InMemoryExactlyOnceExecutor.execute_once.
  - by intros x log [? _].
  - intros x x' log slot v [Hnd Hs]. case_bool_decide as Hv; [done|].
    destruct (apply _ slot v) as [f [|]]; [|done]. intros [= <-].
    rewrite Hs, elem_of_list_to_set in Hv. split; [done|].
    split; rewrite fmap_app; simpl; [by apply NoDup_snoc|rewrite Hs; set_solver].
  - intros x x' log slot v [Hnd Hs]. case_bool_decide as Hv.
    + intros [= <-]. by rewrite Hs, elem_of_list_to_set in Hv.
    + by destruct (apply _ slot v) as [f [|]].
  - intros x x' log slot v e [Hnd Hs]. case_bool_decide as Hv; [done|].
    destruct (apply _ slot v) as [f [|]]; [done|]. by intros [= <- _].
Qed.
End in_memory.

(** ** The file executor *)

Section file_executor.
Context {V A : Type} `{Countable V} (apply : A → SlotIndex → V → Result A) (start : A).
Context `{!Postcard (ExactlyOnceSnapshot.t V A), !Postcard DedupeStorageEnvelope.t}.
Context (digest : list Z → list Z).
Implicit Types x : FileExactlyOnceExecutor.t V A.
Implicit Types snap : ExactlyOnceSnapshot.t V A.

#[global] Instance file_executor : ExactlyOnceExecutor V (FileExactlyOnceExecutor.t V A) := {|
  execute_once := FileExactlyOnceExecutor.execute_once apply digest;
  once_export_checkpoint := FileExactlyOnceExecutor.export_checkpoint digest;
  once_import_checkpoint := FileExactlyOnceExecutor.import_checkpoint digest;
|}.

(** The application state after the commands of [log]. *)
Fixpoint replay (a : A) (log : list (SlotIndex * V)) : Result A :=
  match log with
  | [] => Ok a
  | (slot, v) :: log => let? a' := apply a slot v in replay a' log
  end.

Lemma replay_app a log a1 slot v a2 :
  replay a log = Ok a1 → apply a1 slot v = Ok a2 → replay a (log ++ [(slot, v)]) = Ok a2.
Proof.
  revert a. induction log as [|[s w] log IH]; intros a; simpl; [intros [= ->] ->; done|].
  destruct (apply a s w); [apply IH|done].
Qed.

(** A snapshot whose application state is that of the log of the values seen,
    each applied once. *)
Definition applied_log snap (log : list (SlotIndex * V)) : Prop :=
  NoDup (log.*2) ∧ ExactlyOnceSnapshot.seen snap = list_to_set (log.*2)
  ∧ replay start log = Ok (ExactlyOnceSnapshot.application snap).

Definition applied_once snap : Prop := ∃ log, applied_log snap log.

Lemma applied_log_snoc snap log slot v a :
  applied_log snap log → v ∉ ExactlyOnceSnapshot.seen snap →
  apply (ExactlyOnceSnapshot.application snap) slot v = Ok a →
  (v ∉ log.*2) ∧ applied_log (ExactlyOnceSnapshot.mk (ExactlyOnceSnapshot.checkpointed_through snap)
                  ({[v]} ∪ ExactlyOnceSnapshot.seen snap) a) (log ++ [(slot, v)]).
Proof.
  intros (Hnd & Hs & Hr) Hv Ha. rewrite Hs, elem_of_list_to_set in Hv. split; [done|].
  split_and!; rewrite ?fmap_app; simpl.
  - by apply NoDup_snoc.
  - rewrite Hs. set_solver.
  - by eapply replay_app.
Qed.

Lemma executor_save_cases x next x' r :
  FileExactlyOnceExecutor.save_and_set digest x next = (x', r) →
  FileExactlyOnceExecutor.snapshot x'
  = match r with Ok _ => next | Err _ => FileExactlyOnceExecutor.snapshot x end.
Proof.
  unfold FileExactlyOnceExecutor.save_and_set.
  destruct (FileExactlyOnceExecutor.save _ _ _) as [f [[]|e]]; by intros [= <- <-].
Qed.

#[global] Instance file_executor_laws
    : ExactlyOnceLaws V _ (λ x, applied_log (FileExactlyOnceExecutor.snapshot x)).
Proof.
  split; simpl; unfold FileExactlyOnceExecutor.execute_once.
  - by intros x log [? _].
  - intros x x' log slot v Hl. case_bool_decide as Hv; [done|].
    destruct (apply _ slot v) as [a|] eqn:Ha; [|done].
    destruct (FileExactlyOnceExecutor.save_and_set _ _ _) as [x1 [[]|]] eqn:Hs; [|done].
    intros [= <-]. rewrite (executor_save_cases _ _ _ _ Hs). by apply applied_log_snoc.
  - intros x x' log slot v (Hnd & Hs & Hr). case_bool_decide as Hv.
    + intros [= <-]. by rewrite Hs, elem_of_list_to_set in Hv.
    + destruct (apply _ slot v); [|done].
      by destruct (FileExactlyOnceExecutor.save_and_set _ _ _) as [x1 [[]|]].
  - intros x x' log slot v e Hl. case_bool_decide as Hv; [done|].
    destruct (apply _ slot v); [|by intros [= <- _]].
    destruct (FileExactlyOnceExecutor.save_and_set _ _ _) as [x1 [[]|]] eqn:Hs; [done|].
    intros [= <- _]. by rewrite (executor_save_cases _ _ _ _ Hs).
Qed.

Context `{!PostcardLaws (ExactlyOnceSnapshot.t V A), !PostcardLaws DedupeStorageEnvelope.t}.

(** What happens to an executor. An imported checkpoint is one that an
    executor of the same application exported: what it decodes to applied
    each value once. *)
Inductive executor_event : Type :=
| DidExecute (slot : SlotIndex) (value_id : V) (answer : Result bool)
| DidExport (through : SlotIndex) (answer : Result (list Z))
| DidImport (through : SlotIndex) (checkpoint : ExactlyOnceSnapshot.t V A) (answer : Result unit)
| ExecutorCrashed
| ExecutorInjected.

Inductive executor_step
    : FileExactlyOnceExecutor.t V A → executor_event → FileExactlyOnceExecutor.t V A → Prop :=
| step_execute x slot v x' r :
    FileExactlyOnceExecutor.execute_once apply digest x slot v = (x', r) →
    executor_step x (DidExecute slot v r) x'
| step_export x through x' r :
    FileExactlyOnceExecutor.export_checkpoint digest x through = (x', r) →
    executor_step x (DidExport through r) x'
| step_import x through bytes snap x' r :
    decode_snapshot digest bytes (FileExactlyOnceExecutor.max_snapshot_bytes x)
      "exactly-once checkpoint" = Ok snap →
    applied_once snap →
    FileExactlyOnceExecutor.import_checkpoint digest x through bytes = (x', r) →
    executor_step x (DidImport through snap r) x'
| step_executor_crash x c path failure next_io x' :
    c ∈ AtomicFile.survivors (SnapshotFile.disk (FileExactlyOnceExecutor.file x)) →
    FileExactlyOnceExecutor.open digest path failure next_io (AtomicFile.mk c [c] None)
      (FileExactlyOnceExecutor.max_snapshot_bytes x) start = Ok x' →
    executor_step x ExecutorCrashed x'
| step_executor_inject x reached :
    executor_step x ExecutorInjected (FileExactlyOnceExecutor.with_crash_injector x reached).

Inductive executor_steps
    : FileExactlyOnceExecutor.t V A → list executor_event → FileExactlyOnceExecutor.t V A → Prop :=
| executor_nil x : executor_steps x [] x
| executor_cons x ev x1 evs x2 :
    executor_step x ev x1 → executor_steps x1 evs x2 → executor_steps x (ev :: evs) x2.

Abbreviation on_disk := (λ x, SnapshotFile.keeps
  (λ bytes, decode_snapshot digest bytes (FileExactlyOnceExecutor.max_snapshot_bytes x)
              FileExactlyOnceExecutor.label)
  (FileExactlyOnceExecutor.initial start) (FileExactlyOnceExecutor.file x)).

(** [R] relates the snapshot in memory to every one the disk may hold. *)
Definition related (R : ExactlyOnceSnapshot.t V A → ExactlyOnceSnapshot.t V A → Prop) x : Prop :=
  FileExactlyOnceExecutor.max_snapshot_bytes x ≠ 0
  ∧ on_disk x (R (FileExactlyOnceExecutor.snapshot x)).

Lemma save_and_set_related R x next x' r :
  FileExactlyOnceExecutor.save_and_set digest x next = (x', r) → R next next →
  (is_err r = true → R (FileExactlyOnceExecutor.snapshot x) next) → related R x → related R x'.
Proof.
  unfold FileExactlyOnceExecutor.save_and_set, FileExactlyOnceExecutor.save.
  intros Hs Hn Hc [Hmax Hd]. destruct (save_snapshot _ _ _ _ _ _) as [f r'] eqn:Hk.
  eapply (save_step _ _ _ _ _ _ (FileExactlyOnceExecutor.snapshot x) _ _ _ R) in Hk;
    [|done| |exact Hd].
  - by destruct r' as [[]|]; injection Hs as <- _.
  - by destruct r' as [[]|]; injection Hs as _ <-.
Qed.

Lemma open_related R path failure next_io c max_bytes x :
  FileExactlyOnceExecutor.open digest path failure next_io (AtomicFile.mk c [c] None)
    max_bytes start = Ok x →
  R (FileExactlyOnceExecutor.snapshot x) (FileExactlyOnceExecutor.snapshot x) → related R x.
Proof.
  unfold FileExactlyOnceExecutor.open. simpl.
  destruct (load_snapshot _ _ _ _ _ _) as [o|] eqn:Hl; [|done]. intros [= <-] HR.
  destruct (load_on_file _ _ _ _ _ _ (FileExactlyOnceExecutor.initial start) o
              (SnapshotFile.mk (AtomicFile.mk c [c] None) (λ _, Ok tt) next_io) Hl) as [Hmax Hk];
    [done|].
  split; [done|]. eapply SnapshotFile.keeps_mono; [exact Hk|]. by intros y ->.
Qed.

Lemma open_crashed_executor R x c path next_io :
  related R x → c ∈ AtomicFile.survivors (SnapshotFile.disk (FileExactlyOnceExecutor.file x)) →
  ∃ x', FileExactlyOnceExecutor.open digest path None next_io (AtomicFile.mk c [c] None)
          (FileExactlyOnceExecutor.max_snapshot_bytes x) start = Ok x'
        ∧ R (FileExactlyOnceExecutor.snapshot x) (FileExactlyOnceExecutor.snapshot x').
Proof.
  intros [Hmax Hk] Hc. unfold FileExactlyOnceExecutor.open. simpl.
  destruct (load_kept digest path c _ _ _ _ _ Hmax Hk) as (o & -> & HR); [by right|]. by eexists.
Qed.
(** Does the event import a checkpoint without [v], and does that import fail? *)
Definition lacks (v : V) (ev : executor_event) : Prop :=
  match ev with DidImport _ snap _ => v ∉ ExactlyOnceSnapshot.seen snap | _ => False end.
Definition failed (ev : executor_event) : Prop :=
  match ev with DidImport _ _ r => is_err r = true | _ => False end.

(** A step leaves the executor, starts it on what a crash left, or saves a
    next snapshot. *)
Lemma executor_step_cases x ev x' :
  executor_step x ev x' →
  (FileExactlyOnceExecutor.snapshot x' = FileExactlyOnceExecutor.snapshot x
   ∧ ∀ R, related R x → related R x')
  ∨ (∀ R, related R x →
       R (FileExactlyOnceExecutor.snapshot x) (FileExactlyOnceExecutor.snapshot x'))
    ∧ (∀ R, R (FileExactlyOnceExecutor.snapshot x') (FileExactlyOnceExecutor.snapshot x') →
       related R x')
  ∨ ∃ next r, FileExactlyOnceExecutor.save_and_set digest x next = (x', r)
    ∧ (applied_once (FileExactlyOnceExecutor.snapshot x) → applied_once next)
    ∧ (∀ v, ¬ lacks v ev →
         v ∈ ExactlyOnceSnapshot.seen (FileExactlyOnceExecutor.snapshot x) →
         v ∈ ExactlyOnceSnapshot.seen next)
    ∧ (∀ v, lacks v ev → is_err r = true → failed ev).
Proof.
  destruct 1 as [x slot v x' r He|x through x' r He|x through bytes snap x' r Hd Ha He
                |x c path failure io x' Hc Ho|x reached].
  - unfold FileExactlyOnceExecutor.execute_once in He.
    case_bool_decide as Hv; [injection He as <- _; by left|].
    destruct (apply _ slot v) as [a|] eqn:Happ; [|injection He as <- _; by left].
    destruct (FileExactlyOnceExecutor.save_and_set _ _ _) as [x1 r1] eqn:Hs. injection He as <- <-.
    right; right. eexists _, r1. split_and!; [exact Hs| | |done].
    + intros [log Hl]. exists (log ++ [(slot, v)]). by apply applied_log_snoc.
    + intros w _ Hw. simpl. set_solver.
  - unfold FileExactlyOnceExecutor.export_checkpoint in He.
    destruct (FileExactlyOnceExecutor.save_and_set _ _ _) as [x1 r1] eqn:Hs. injection He as <- <-.
    right; right. by eexists _, r1.
  - unfold FileExactlyOnceExecutor.import_checkpoint in He. rewrite Hd in He.
    destruct (negb _); [injection He as <- _; by left|]. right; right. exists snap, r.
    split_and!; try done. intros v Hv _. by apply dec_stable.
  - right; left. split; [|intros R; by eapply open_related]. intros R Hr. destruct failure.
    { unfold FileExactlyOnceExecutor.open, load_snapshot in Ho.
      by destruct (validate_snapshot_limit _). }
    destruct (open_crashed_executor _ x c path io Hr Hc) as (x2 & Ho2 & HR). congruence.
  - by left.
Qed.

(** The snapshot in memory and all the disk may hold applied each value once. *)
Definition sound x : Prop :=
  applied_once (FileExactlyOnceExecutor.snapshot x) ∧ related (λ _ m, applied_once m) x.

(** [v] is seen on the disk when it is seen in memory. *)
Definition remembers v x : Prop :=
  related (λ s m, v ∈ ExactlyOnceSnapshot.seen s → v ∈ ExactlyOnceSnapshot.seen m) x.

Lemma opened_sound path failure next_io max_bytes x :
  FileExactlyOnceExecutor.open digest path failure next_io
    (AtomicFile.mk AtomicFile.Missing [AtomicFile.Missing] None) max_bytes start = Ok x →
  sound x ∧ ∀ v, remembers v x.
Proof.
  intros Ho. assert (applied_once (FileExactlyOnceExecutor.snapshot x)) as Ha.
  { revert Ho. unfold FileExactlyOnceExecutor.open, load_snapshot.
    destruct (validate_snapshot_limit _), failure; simpl; try done. intros [= <-].
    exists []. split_and!; [constructor|done..]. }
  split; [split; [done|]|intros v]; by eapply open_related.
Qed.

Lemma step_sound x ev x' : executor_step x ev x' → sound x → sound x'.
Proof.
  intros [[Hs HR]|[[Hs HR]|(next & r & Hs & Hn & _ & _)]]%executor_step_cases [Ha Hr].
  - split; [by rewrite Hs|by apply HR].
  - pose proof (Hs _ Hr). split; [done|by apply HR].
  - split; [rewrite (executor_save_cases _ _ _ _ Hs); destruct r; by auto|].
    by eapply save_and_set_related; eauto.
Qed.

Lemma step_remembers v x ev x' :
  executor_step x ev x' → ¬ (lacks v ev ∧ failed ev) → remembers v x → remembers v x'.
Proof.
  intros [[Hs HR]|[[Hs HR]|(next & r & Hs & _ & Hk & Hf)]]%executor_step_cases Hnf Hr;
    [by apply HR..|].
  eapply save_and_set_related; [exact Hs|done| |done].
  intros He Hv. apply Hk; [|done]. intros Hl. apply Hnf. split; [done|]. by eapply Hf.
Qed.

Lemma step_keeps_seen v x ev x' :
  executor_step x ev x' → ¬ lacks v ev → remembers v x →
  v ∈ ExactlyOnceSnapshot.seen (FileExactlyOnceExecutor.snapshot x) →
  v ∈ ExactlyOnceSnapshot.seen (FileExactlyOnceExecutor.snapshot x').
Proof.
  intros [[Hs HR]|[[Hs HR]|(next & r & Hs & _ & Hk & _)]]%executor_step_cases Hl Hr Hv.
  - by rewrite Hs.
  - by apply (Hs _ Hr).
  - rewrite (executor_save_cases _ _ _ _ Hs). destruct r; by auto.
Qed.

Lemma steps_sound x evs x' : executor_steps x evs x' → sound x → sound x'.
Proof. induction 1; eauto using step_sound. Qed.

Lemma steps_remember v x evs x' :
  executor_steps x evs x' → Forall (λ ev, ¬ (lacks v ev ∧ failed ev)) evs →
  remembers v x → remembers v x'.
Proof.
  induction 1 as [|x ev x1 evs x2 Hs _ IH]; [done|]. intros [? ?]%Forall_cons Hr.
  apply IH; [done|]. by eapply step_remembers.
Qed.

Lemma steps_keep_seen v x evs x' :
  executor_steps x evs x' → Forall (λ ev, ¬ lacks v ev) evs → remembers v x →
  v ∈ ExactlyOnceSnapshot.seen (FileExactlyOnceExecutor.snapshot x) →
  remembers v x' ∧ v ∈ ExactlyOnceSnapshot.seen (FileExactlyOnceExecutor.snapshot x').
Proof.
  induction 1 as [|x ev x1 evs x2 Hs _ IH]; [done|]. intros [? ?]%Forall_cons Hr Hv.
  apply IH; [done|by eapply step_remembers; [| |exact Hr]; naive_solver|by eapply step_keeps_seen].
Qed.

(** C19: through calls whose saves fail anywhere, imports of other executors'
    checkpoints, crashes and restarts, the file executor's state is the
    application's initial state with each seen value applied exactly once; and
    whatever content a crash leaves, the executor opens on it and that is true
    of the state it starts with. *)
Theorem executor_applies_once path failure next_io max_bytes x0 evs x :
  FileExactlyOnceExecutor.open digest path failure next_io
    (AtomicFile.mk AtomicFile.Missing [AtomicFile.Missing] None) max_bytes start = Ok x0 →
  executor_steps x0 evs x →
  applied_once (FileExactlyOnceExecutor.snapshot x)
  ∧ ∀ c path io, c ∈ AtomicFile.survivors (SnapshotFile.disk (FileExactlyOnceExecutor.file x)) →
    ∃ x', FileExactlyOnceExecutor.open digest path None io (AtomicFile.mk c [c] None)
            (FileExactlyOnceExecutor.max_snapshot_bytes x) start = Ok x'
          ∧ applied_once (FileExactlyOnceExecutor.snapshot x').
Proof.
  intros [Hs _]%opened_sound Hsteps. apply (steps_sound _ _ _ Hsteps) in Hs as [Ha Hr].
  split; [done|]. intros c path' io Hc. by apply (open_crashed_executor _ _ _ path' io Hr).
Qed.

(** A value the file executor answered for, applied or already known, is
    known for ever: every later call answers [false] for it, in this process
    and in one that starts after a crash, as long as no checkpoint without it
    is imported (and no such import had failed half-way before). *)
Theorem executed_value_stays_known path failure next_io max_bytes x0 evs1 x1 slot v b x2 evs2 x3 :
  FileExactlyOnceExecutor.open digest path failure next_io
    (AtomicFile.mk AtomicFile.Missing [AtomicFile.Missing] None) max_bytes start = Ok x0 →
  executor_steps x0 evs1 x1 → Forall (λ ev, ¬ (lacks v ev ∧ failed ev)) evs1 →
  FileExactlyOnceExecutor.execute_once apply digest x1 slot v = (x2, Ok b) →
  executor_steps x2 evs2 x3 → Forall (λ ev, ¬ lacks v ev) evs2 →
  (∀ slot', FileExactlyOnceExecutor.execute_once apply digest x3 slot' v = (x3, Ok false))
  ∧ ∀ c path io, c ∈ AtomicFile.survivors (SnapshotFile.disk (FileExactlyOnceExecutor.file x3)) →
    ∃ x4, FileExactlyOnceExecutor.open digest path None io (AtomicFile.mk c [c] None)
            (FileExactlyOnceExecutor.max_snapshot_bytes x3) start = Ok x4
          ∧ ∀ slot', FileExactlyOnceExecutor.execute_once apply digest x4 slot' v = (x4, Ok false).
Proof.
  intros [Hs0 Hm0]%opened_sound Hs1 Hf He Hs2 Hl.
  pose proof (steps_remember v _ _ _ Hs1 Hf (Hm0 v)) as Hm1.
  pose proof (step_remembers v _ _ _ (step_execute _ _ _ _ _ He) (λ h, proj1 h) Hm1) as Hm2.
  assert (v ∈ ExactlyOnceSnapshot.seen (FileExactlyOnceExecutor.snapshot x2)) as Hv2.
  { apply (steps_sound _ _ _ Hs1) in Hs0 as [[log Hlog] _].
    change (execute_once (ExactlyOnceExecutor:=file_executor) x1 slot v = (x2, Ok b)) in He.
    destruct b.
    - apply (execute_once_true (ExactlyOnceLaws:=file_executor_laws) _ _ log _ _ Hlog) in He as [_ (_ & -> & _)]. rewrite fmap_app. set_solver.
    - apply (execute_once_false (ExactlyOnceLaws:=file_executor_laws) _ _ log _ _ Hlog) in He as [Hv (_ & -> & _)]. set_solver. }
  destruct (steps_keep_seen v _ _ _ Hs2 Hl Hm2 Hv2) as [Hm3 Hv3].
  assert (∀ y, v ∈ ExactlyOnceSnapshot.seen (FileExactlyOnceExecutor.snapshot y) → ∀ slot',
            FileExactlyOnceExecutor.execute_once apply digest y slot' v = (y, Ok false)) as Hfalse.
  { intros y Hy slot'. unfold FileExactlyOnceExecutor.execute_once. by rewrite bool_decide_true. }
  split; [by apply Hfalse|]. intros c path' io Hc.
  destruct (open_crashed_executor _ _ _ path' io Hm3 Hc) as (x4 & Ho & HR). exists x4.
  split; [done|]. apply Hfalse. by apply HR.
Qed.
End file_executor.

(** ** The journals *)

#[global] Instance in_memory_journal `{EqDecision V}
    : SubmissionJournal V (InMemorySubmissionJournal.t V) := {|
  journal_get := InMemorySubmissionJournal.get;
  journal_put := InMemorySubmissionJournal.put;
|}.

#[global] Instance in_memory_journal_laws `{EqDecision V}
    : SubmissionJournalLaws V (InMemorySubmissionJournal.t V) InMemorySubmissionJournal.outcomes.
Proof.
  split; simpl; [done|unfold InMemorySubmissionJournal.put..].
  - intros j j' c r o. destruct (_ !! (c, r)) as [o'|] eqn:Ho; simpl; [|intros [= <-]; auto].
    destruct (bool_decide_reflect (o' = o)) as [->|]; simpl; [|done]. intros [= <-]. auto.
  - intros j j' c r o e. destruct (match _ with Some _ => _ | None => _ end); [|done].
    by intros [= <- _].
Qed.

Section file_journal.
Context {V : Type} `{EqDecision V}.
Context `{!Postcard (gmap SubmissionKey (SubmissionOutcome.t V)), !Postcard DedupeStorageEnvelope.t}.
Context (digest : list Z → list Z).
Implicit Types j : FileSubmissionJournal.t V.

#[global] Instance file_journal : SubmissionJournal V (FileSubmissionJournal.t V) := {|
  journal_get := FileSubmissionJournal.get;
  journal_put := FileSubmissionJournal.put digest;
|}.

#[global] Instance file_journal_laws
    : SubmissionJournalLaws V (FileSubmissionJournal.t V) FileSubmissionJournal.outcomes.
Proof.
  split; simpl; [done|unfold FileSubmissionJournal.put..].
  - intros j j' c r o. destruct (_ !! (c, r)) as [o'|] eqn:Ho.
    + destruct (bool_decide_reflect (o' = o)) as [->|]; simpl; [|done].
      intros [= <-]. rewrite insert_id by done. auto.
    + destruct (FileSubmissionJournal.save _ _ _) as [f [[]|]]; [|done]. intros [= <-]. auto.
  - intros j j' c r o e. destruct (_ !! (c, r)) as [o'|]; [by intros [= <- _]|].
    destruct (FileSubmissionJournal.save _ _ _) as [f [[]|]]; [done|]. by intros [= <- _].
Qed.

Context `{!PostcardLaws (gmap SubmissionKey (SubmissionOutcome.t V))}.
Context `{!PostcardLaws DedupeStorageEnvelope.t}.

Inductive journal_step : FileSubmissionJournal.t V → FileSubmissionJournal.t V → Prop :=
| step_record j c r o j' answer :
    FileSubmissionJournal.put digest j c r o = (j', answer) → journal_step j j'
| step_journal_crash j c path failure next_io j' :
    c ∈ AtomicFile.survivors (SnapshotFile.disk (FileSubmissionJournal.file j)) →
    FileSubmissionJournal.open digest path failure next_io (AtomicFile.mk c [c] None)
      (FileSubmissionJournal.max_snapshot_bytes j) = Ok j' →
    journal_step j j'
| step_journal_inject j reached :
    journal_step j (FileSubmissionJournal.with_crash_injector j reached).

Definition journal_inv j : Prop :=
  FileSubmissionJournal.max_snapshot_bytes j ≠ 0
  ∧ SnapshotFile.keeps
      (λ bytes, decode_snapshot digest bytes (FileSubmissionJournal.max_snapshot_bytes j)
                  FileSubmissionJournal.label) ∅ (FileSubmissionJournal.file j)
      (λ m, FileSubmissionJournal.outcomes j ⊆ m).

Lemma open_journal_inv path failure next_io c max_bytes j :
  FileSubmissionJournal.open digest path failure next_io (AtomicFile.mk c [c] None) max_bytes = Ok j →
  journal_inv j.
Proof.
  unfold FileSubmissionJournal.open. simpl.
  destruct (load_snapshot _ _ _ _ _ _) as [o|] eqn:Hl; [|done]. intros [= <-].
  destruct (load_on_file _ _ _ _ _ _ ∅ o
              (SnapshotFile.mk (AtomicFile.mk c [c] None) (λ _, Ok tt) next_io) Hl) as [Hmax Hk];
    [done|].
  split; [done|]. eapply SnapshotFile.keeps_mono; [exact Hk|]. by intros m ->.
Qed.

Lemma open_crashed_journal j c path next_io :
  journal_inv j → c ∈ AtomicFile.survivors (SnapshotFile.disk (FileSubmissionJournal.file j)) →
  ∃ j', FileSubmissionJournal.open digest path None next_io (AtomicFile.mk c [c] None)
          (FileSubmissionJournal.max_snapshot_bytes j) = Ok j'
        ∧ FileSubmissionJournal.outcomes j ⊆ FileSubmissionJournal.outcomes j'.
Proof.
  intros [Hmax Hk] Hc. unfold FileSubmissionJournal.open. simpl.
  destruct (load_kept digest path c _ _ _ _ _ Hmax Hk) as (o & -> & HR); [by right|]. by eexists.
Qed.

Lemma journal_step_inv j j' :
  journal_step j j' → journal_inv j →
  journal_inv j' ∧ FileSubmissionJournal.outcomes j ⊆ FileSubmissionJournal.outcomes j'.
Proof.
  destruct 1 as [j c r o j' answer Hp|j c path failure io j' Hc Ho|j reached]; intros Hinv; [| |done].
  - unfold FileSubmissionJournal.put, FileSubmissionJournal.save in Hp.
    destruct (FileSubmissionJournal.outcomes j !! (c, r)) as [o'|] eqn:Hlk;
      [by injection Hp as <- _|].
    assert (FileSubmissionJournal.outcomes j ⊆ <[(c, r):=o]> (FileSubmissionJournal.outcomes j))
      by (by apply insert_subseteq).
    destruct (save_snapshot _ _ _ _ _ _) as [f r'] eqn:Hs. destruct Hinv as [Hmax Hk].
    eapply (save_step _ _ _ _ _ _ (FileSubmissionJournal.outcomes j) _ _ _ (⊆)) in Hs; [|done|done|exact Hk].
    destruct r' as [[]|]; by injection Hp as <- _.
  - split; [by eapply open_journal_inv|]. destruct failure.
    { unfold FileSubmissionJournal.open, load_snapshot in Ho. by destruct (validate_snapshot_limit _). }
    destruct (open_crashed_journal j c path io Hinv Hc) as (j2 & Ho2 & Hsub). rewrite Ho in Ho2. by injection Ho2 as <-.
Qed.

Lemma journal_steps_inv j j' :
  rtc journal_step j j' → journal_inv j →
  journal_inv j' ∧ FileSubmissionJournal.outcomes j ⊆ FileSubmissionJournal.outcomes j'.
Proof.
  induction 1 as [|j j1 j2 Hs _ IH]; [done|]. intros [Hi Hsub]%(journal_step_inv _ _ Hs).
  destruct (IH Hi). split; [done|]. by etransitivity.
Qed.

(** An outcome the file journal acknowledged is the outcome of its request
    for ever: through failed saves, crashes and restarts the journal answers
    it, refuses a different one, and opens on whatever content a crash leaves
    with the same answer. *)
Theorem recorded_outcome_is_final path failure next_io max_bytes j0 j1 c r o j2 j3 :
  FileSubmissionJournal.open digest path failure next_io
    (AtomicFile.mk AtomicFile.Missing [AtomicFile.Missing] None) max_bytes = Ok j0 →
  rtc journal_step j0 j1 →
  FileSubmissionJournal.put digest j1 c r o = (j2, Ok tt) →
  rtc journal_step j2 j3 →
  FileSubmissionJournal.get j3 c r = Ok (Some o)
  ∧ (∀ o', o' ≠ o → FileSubmissionJournal.put digest j3 c r o' = (j3, Err different_outcome))
  ∧ ∀ content path io,
      content ∈ AtomicFile.survivors (SnapshotFile.disk (FileSubmissionJournal.file j3)) →
      ∃ j4, FileSubmissionJournal.open digest path None io (AtomicFile.mk content [content] None)
              (FileSubmissionJournal.max_snapshot_bytes j3) = Ok j4
            ∧ FileSubmissionJournal.get j4 c r = Ok (Some o).
Proof.
  intros Ho Hs1 Hp Hs2.
  destruct (journal_steps_inv _ _ Hs1 (open_journal_inv _ _ _ _ _ _ Ho)) as [Hi1 _].
  destruct (journal_step_inv _ _ (step_record _ _ _ _ _ _ Hp) Hi1) as [Hi2 _].
  destruct (journal_steps_inv _ _ Hs2 Hi2) as [Hi3 Hsub].
  change (journal_put (SubmissionJournal:=file_journal) j1 c r o = (j2, Ok tt)) in Hp.
  apply journal_put_Ok in Hp as [Hj2 _].
  assert (FileSubmissionJournal.outcomes j3 !! (c, r) = Some o) as H3.
  { eapply lookup_weaken; [|exact Hsub]. by rewrite Hj2, lookup_insert_eq. }
  unfold FileSubmissionJournal.get, FileSubmissionJournal.put. rewrite H3. split_and!; [done| |].
  - intros o' Hne. by rewrite bool_decide_false.
  - intros content path' io Hc. destruct (open_crashed_journal _ _ path' io Hi3 Hc) as (j4 & Ho4 & Hsub4).
    exists j4. split; [done|]. f_equal. by eapply lookup_weaken.
Qed.
End file_journal.

(** ** Concrete runs *)

Module OnceRuns.
Import CountedPostcard.

Definition sum (l : list Z) : list Z := [foldr Z.add 0 l].

(** An application that logs what it is given. *)
Definition log_value (a : list (Z * Z)) (slot : SlotIndex) (v : Z) : Result (list (Z * Z)) :=
  Ok (a ++ [(slot, v)]).

Definition io_directory_fails : AtomicFile.io := {|
  AtomicFile.io_open := None; AtomicFile.io_write := None; AtomicFile.io_written := 0%nat;
  AtomicFile.io_sync := None; AtomicFile.io_rename := None;
  AtomicFile.io_sync_parent := Some "could not sync directory";
|}.

Definition fresh : AtomicFile.disk := AtomicFile.mk AtomicFile.Missing [AtomicFile.Missing] None.
Definition x0 : FileExactlyOnceExecutor.t Z (list (Z * Z)) :=
  FileExactlyOnceExecutor.mk
    (SnapshotFile.mk fresh (λ _, Ok tt) [FileRecorderStore.io_success; io_directory_fails])
    (FileExactlyOnceExecutor.initial []) 10.
Definition x1 := (FileExactlyOnceExecutor.execute_once log_value sum x0 1 11).1.
(** The second save fails after its rename, so the process has not seen 12
    and the disk may. *)
Definition x2 := (FileExactlyOnceExecutor.execute_once log_value sum x1 2 12).1.
Definition left_behind : AtomicFile.content :=
  AtomicFile.visible (SnapshotFile.disk (FileExactlyOnceExecutor.file x2)).

Lemma executor_applies_once_witness :
  ∃ x', FileExactlyOnceExecutor.open sum "state" None [] (AtomicFile.mk left_behind [left_behind] None)
          10 [] = Ok x'
        ∧ applied_once log_value [] (FileExactlyOnceExecutor.snapshot x').
Proof.
  refine (proj2 (executor_applies_once log_value [] sum "state" None
    [FileRecorderStore.io_success; io_directory_fails] 10 x0
    [DidExecute 1 11 _; DidExecute 2 12 _] x2 _ _) left_behind "state" [] _).
  - reflexivity.
  - econstructor; [constructor; apply surjective_pairing|].
    econstructor; [constructor; apply surjective_pairing|constructor].
  - apply list_elem_of_here.
Defined.

Lemma executed_value_stays_known_witness :
  ∃ x4, FileExactlyOnceExecutor.open sum "state" None [] (AtomicFile.mk left_behind [left_behind] None)
          10 [] = Ok x4
        ∧ ∀ slot', FileExactlyOnceExecutor.execute_once log_value sum x4 slot' 11 = (x4, Ok false).
Proof.
  refine (proj2 (executed_value_stays_known log_value [] sum "state" None
    [FileRecorderStore.io_success; io_directory_fails] 10 x0 [] x0 1 11 true x1
    [DidExecute 2 12 _] x2 _ _ _ _ _ _) left_behind "state" [] _).
  - reflexivity.
  - constructor.
  - constructor.
  - vm_compute. reflexivity.
  - econstructor; [constructor; apply surjective_pairing|constructor].
  - repeat constructor. intros [].
  - apply list_elem_of_here.
Defined.

(** The same value decided in two slots, and delivered twice in all. *)
Definition decided : list (Decision.t Z) := [Decision.mk 1 [11; 12] 0 4; Decision.mk 2 [12; 13] 0 4].
Definition counting : InMemoryExactlyOnceExecutor.t Z nat := InMemoryExactlyOnceExecutor.new 0%nat.
(** The application fails the second time it is called. *)
Definition fail_second (n : nat) (slot : SlotIndex) (v : Z) : nat * Result unit :=
  (S n, if decide (n = 1%nat) then Err (QuePaxaError.StorageError "application") else Ok tt).

Lemma decisions_apply_once_witness :
  in_memory_applied
    (DeduplicatingStateMachine.executor
       (execute_all (X:=InMemoryExactlyOnceExecutor.t Z nat)
          (ExactlyOnceExecutor0:=in_memory_executor fail_second) decided
          (Nat.iter 1 (λ m, (execute_all (ExactlyOnceExecutor0:=in_memory_executor fail_second)
                               decided m).1)
             (DeduplicatingStateMachine.new counting))).1)
    [(1, 11); (1, 12); (2, 13)].
Proof.
  refine (proj1 (decisions_apply_once (ExactlyOnceExecutor0:=in_memory_executor fail_second)
    (ExactlyOnceLaws0:=in_memory_executor_laws fail_second)
    (DeduplicatingStateMachine.new counting) [] decided 1 _ _ _)).
  - split; [constructor|reflexivity].
  - vm_compute. reflexivity.
Defined.

Definition j0 : FileSubmissionJournal.t Z :=
  FileSubmissionJournal.mk
    (SnapshotFile.mk fresh (λ _, Ok tt) [FileRecorderStore.io_success; io_directory_fails]) ∅ 10.

#[local] Instance outcome_countable : Countable (SubmissionOutcome.t Z).
Proof.
  refine (inj_countable'
    (λ o, match o with
          | SubmissionOutcome.Accepted => inl (inl ())
          | SubmissionOutcome.Committed (Decision.mk s v p d) => inl (inr (s, v, p, d))
          | SubmissionOutcome.Duplicate None => inr None
          | SubmissionOutcome.Duplicate (Some (Decision.mk s v p d)) => inr (Some (s, v, p, d))
          end)
    (λ x, match x with
          | inl (inl _) => SubmissionOutcome.Accepted
          | inl (inr (s, v, p, d)) => SubmissionOutcome.Committed (Decision.mk s v p d)
          | inr None => SubmissionOutcome.Duplicate None
          | inr (Some (s, v, p, d)) => SubmissionOutcome.Duplicate (Some (Decision.mk s v p d))
          end) _).
  by intros [|[]|[[]|]].
Defined.

Definition j1 := (FileSubmissionJournal.put sum j0 [3] 7 SubmissionOutcome.Accepted).1.
Definition j2 := (FileSubmissionJournal.put sum j1 [3] 8 SubmissionOutcome.Accepted).1.

Lemma recorded_outcome_is_final_witness :
  FileSubmissionJournal.get j2 [3] 7 = Ok (Some SubmissionOutcome.Accepted).
Proof.
  refine (proj1 (recorded_outcome_is_final sum "journal" None
    [FileRecorderStore.io_success; io_directory_fails] 10 j0 j0 [3] 7 SubmissionOutcome.Accepted
    j1 j2 _ _ _ _)).
  - reflexivity.
  - apply rtc_refl.
  - unfold j1. rewrite (surjective_pairing (FileSubmissionJournal.put sum j0 _ _ _)). f_equal.
  - apply rtc_once. eapply step_record. apply surjective_pairing.
Defined.
End OnceRuns.
