(* ===== verification/SubmissionHandler.v ===== *)
(** * Concurrent retries of one request (src/network/dedupe.rs)

  [DeduplicatingSubmissionHandler] serializes the submissions of one request
  with a lock per request, kept in a map and shared by reference count, around
  a journal of outcomes and the inner handler. A submission is a task that
  proceeds from one await point to the next; tasks interleave in any order,
  may be dropped at any of them, and the process may restart with its journal.
  The inner handler may answer anything. *)
From S2P Require Import Prelude Errors Types Durable Runtime Codec Wire Dedupe ExactlyOnce.

Module DeduplicatingSubmissionHandler.
Section handler.
Context {V J : Type} `{!SubmissionJournal V J}.

(** Where a task is. The number is the lock object its [request_lock] refers
    to; the task holds the lock's guard from [Checking] to [Releasing]. *)
Inductive pc : Type :=
| Starting
| Waiting (lock : nat)
| Checking (lock : nat)
| Submitting (lock : nat)
| Recording (lock : nat) (outcome : SubmissionOutcome.t V)
| Releasing (lock : nat) (result : Result (SubmissionOutcome.t V))
| Cleaning (lock : nat) (result : Result (SubmissionOutcome.t V))
| Leaving (lock : nat) (result : Result (SubmissionOutcome.t V))
| Finished (result : Result (SubmissionOutcome.t V)).

Record task : Type := Task { submission : Submission.t V; at_pc : pc }.

Definition key (t : task) : SubmissionKey :=
  (Submission.client_id (submission t), Submission.request_id (submission t)).

(** [submitted] lists the requests passed to the inner handler, latest first;
    [next_lock] names the next lock object. *)
Record t : Type := mk {
  journal : J;
  request_locks : gmap SubmissionKey nat;
  tasks : gmap nat task;
  next_lock : nat;
  submitted : list SubmissionKey;
}.

Definition new (journal : J) : t := mk journal ∅ ∅ 0 [].

(** The lock a task's [Arc] refers to, and the one whose guard it holds. *)
Definition arc_of (p : pc) : option nat :=
  match p with
  | Starting | Finished _ => None
  | Waiting l | Checking l | Submitting l | Recording l _
  | Releasing l _ | Cleaning l _ | Leaving l _ => Some l
  end.
Definition guard_of (p : pc) : option nat :=
  match p with
  | Checking l | Submitting l | Recording l _ | Releasing l _ => Some l
  | _ => None
  end.

(** [Arc::strong_count]: the map's references and the tasks'. *)
Definition strong_count (self : t) (lock : nat) : nat :=
  (size (filter (λ kv, kv.2 = lock) (request_locks self))
   + size (filter (λ kv, arc_of (at_pc kv.2) = Some lock) (tasks self)))%nat.

Definition lock_free (self : t) (lock : nat) : bool :=
  bool_decide (map_Forall (λ _ task, guard_of (at_pc task) ≠ Some lock) (tasks self)).

(** What a duplicate is told of the recorded outcome. *)
Definition as_duplicate (outcome : SubmissionOutcome.t V) : SubmissionOutcome.t V :=
  SubmissionOutcome.Duplicate
    match outcome with
    | SubmissionOutcome.Committed decision => Some decision
    | SubmissionOutcome.Duplicate decision => decision
    | SubmissionOutcome.Accepted => None
    end.

Definition moved (self : t) (id : nat) (task : task) (p : pc) : t :=
  mk (journal self) (request_locks self) (<[id := Task (submission task) p]> (tasks self))
     (next_lock self) (submitted self).

Inductive action : Type :=
| Submit (id : nat) (submission : Submission.t V)
| Run (id : nat)
| Reply (id : nat) (answer : Result (SubmissionOutcome.t V))
| Cancel (id : nat)
| Restart (journal : J).

(** [submit], from the task's await point to its next one. *)
Definition run (self : t) (id : nat) (task : task) : option t :=
  let c := Submission.client_id (submission task) in
  let r := Submission.request_id (submission task) in
  match at_pc task with
  | Starting =>
      match request_locks self !! (c, r) with
      | Some lock => Some (moved self id task (Waiting lock))
      | None =>
          Some (mk (journal self) (<[(c, r) := next_lock self]> (request_locks self))
                   (<[id := Task (submission task) (Waiting (next_lock self))]> (tasks self))
                   (S (next_lock self)) (submitted self))
      end
  | Waiting lock =>
      if lock_free self lock then Some (moved self id task (Checking lock)) else None
  | Checking lock =>
      match journal_get (journal self) c r with
      | Err e => Some (moved self id task (Releasing lock (Err e)))
      | Ok (Some outcome) => Some (moved self id task (Releasing lock (Ok (as_duplicate outcome))))
      | Ok None =>
          Some (mk (journal self) (request_locks self)
                   (<[id := Task (submission task) (Submitting lock)]> (tasks self))
                   (next_lock self) ((c, r) :: submitted self))
      end
  | Recording lock outcome =>
      let '(journal', answer) := journal_put (journal self) c r outcome in
      Some (mk journal' (request_locks self)
               (<[id := Task (submission task)
                          (Releasing lock (let? _ := answer in Ok outcome))]> (tasks self))
               (next_lock self) (submitted self))
  | Releasing lock result => Some (moved self id task (Cleaning lock result))
  | Cleaning lock result =>
      let remove := bool_decide (strong_count self lock = 2%nat)
                    && bool_decide (request_locks self !! (c, r) = Some lock) in
      Some (mk (journal self)
               (if remove then delete (c, r) (request_locks self) else request_locks self)
               (<[id := Task (submission task) (Leaving lock result)]> (tasks self))
               (next_lock self) (submitted self))
  | Leaving lock result => Some (moved self id task (Finished result))
  | Submitting _ | Finished _ => None
  end.

Definition step (self : t) (a : action) : option t :=
  match a with
  | Submit id submission =>
      match tasks self !! id with
      | Some _ => None
      | None => Some (mk (journal self) (request_locks self)
                         (<[id := Task submission Starting]> (tasks self))
                         (next_lock self) (submitted self))
      end
  | Run id => tasks self !! id ≫= run self id
  | Reply id answer =>
      match tasks self !! id with
      | Some (Task submission (Submitting lock) as task) =>
          Some (moved self id task
                  match answer with
                  | Ok outcome => Recording lock outcome
                  | Err e => Releasing lock (Err e)
                  end)
      | _ => None
      end
  | Cancel id =>
      Some (mk (journal self) (request_locks self) (delete id (tasks self))
               (next_lock self) (submitted self))
  | Restart journal => Some (mk journal ∅ ∅ 0 (submitted self))
  end.

Fixpoint steps (self : t) (actions : list action) : option t :=
  match actions with
  | [] => Some self
  | a :: actions => step self a ≫= λ self, steps self actions
  end.
End handler.
Arguments pc : clear implicits.
Arguments task : clear implicits.
Arguments t : clear implicits.
Arguments action : clear implicits.
End DeduplicatingSubmissionHandler.

Import DeduplicatingSubmissionHandler.

Section handler.
Context {V J : Type} `{!SubmissionJournal V J}.
Context {recorded : J → gmap SubmissionKey (SubmissionOutcome.t V)}.
Context `{!SubmissionJournalLaws V J recorded}.
Implicit Types s : t V J.
Implicit Types tk : task V.

(** A restart keeps what the journal recorded. *)
Definition keeps_journal s (a : action V J) : Prop :=
  match a with Restart j => recorded (journal s) ⊆ recorded j | _ => True end.

Definition transition s s' : Prop := ∃ a, step s a = Some s' ∧ keeps_journal s a.

Definition reachable s : Prop := ∃ j, rtc transition (new j) s.

(** The task still uses its lock: it has not passed the clean-up. *)
Definition uses (p : pc V) (lock : nat) : Prop :=
  arc_of p = Some lock ∧ ∀ l r, p ≠ Leaving l r.

(** Between a look at the journal that found nothing and the outcome. *)
Definition in_flight (p : pc V) : Prop :=
  match p with Submitting _ | Recording _ _ => True | _ => False end.

Definition result_of (p : pc V) : option (Result (SubmissionOutcome.t V)) :=
  match p with
  | Releasing _ r | Cleaning _ r | Leaving _ r | Finished r => Some r
  | _ => None
  end.

(** An answer that the recorded outcome justifies. *)
Definition justified (j : J) (k : SubmissionKey) (out : SubmissionOutcome.t V) : Prop :=
  ∃ o, recorded j !! k = Some o ∧ (out = o ∨ out = as_duplicate o).

Record inv s : Prop := {
  inv_lock : ∀ id tk l, tasks s !! id = Some tk → uses (at_pc tk) l →
      request_locks s !! key tk = Some l;
  inv_guard : ∀ id1 id2 tk1 tk2 l, tasks s !! id1 = Some tk1 → tasks s !! id2 = Some tk2 →
      guard_of (at_pc tk1) = Some l → guard_of (at_pc tk2) = Some l → id1 = id2;
  inv_flight : ∀ id tk, tasks s !! id = Some tk → in_flight (at_pc tk) →
      recorded (journal s) !! key tk = None;
  inv_answer : ∀ id tk out, tasks s !! id = Some tk → result_of (at_pc tk) = Some (Ok out) →
      justified (journal s) (key tk) out;
}.

Lemma guard_uses (p : pc V) l : guard_of p = Some l → uses p l.
Proof. by destruct p; intros [= <-]. Qed.
Lemma flight_guard (p : pc V) : in_flight p → ∃ l, guard_of p = Some l.
Proof. destruct p; try done; by eexists. Qed.

(** Two tasks of one request with the guard are one task. *)
Lemma inv_exclusive s id1 id2 tk1 tk2 l1 l2 :
  inv s → tasks s !! id1 = Some tk1 → tasks s !! id2 = Some tk2 → key tk1 = key tk2 →
  guard_of (at_pc tk1) = Some l1 → guard_of (at_pc tk2) = Some l2 → id1 = id2.
Proof.
  intros Hi H1 H2 Hk G1 G2.
  pose proof (inv_lock _ Hi _ _ _ H1 (guard_uses _ _ G1)).
  pose proof (inv_lock _ Hi _ _ _ H2 (guard_uses _ _ G2)).
  assert (l1 = l2) as -> by congruence. by eapply inv_guard.
Qed.
Lemma justified_mono j j' k out : recorded j ⊆ recorded j' → justified j k out → justified j' k out.
Proof. intros Hsub (o & Ho & Hout). exists o. split; [by eapply lookup_weaken|done]. Qed.

Lemma put_recorded j j' c r o answer :
  journal_put j c r o = (j', answer) → recorded j ⊆ recorded j'.
Proof.
  destruct answer as [[]|]; [intros [-> [?|?]]%journal_put_Ok|by intros ->%journal_put_Err].
  - by apply insert_subseteq.
  - by rewrite insert_id.
Qed.

(** One task moves; what the others rely on must stay. *)
Lemma inv_update s s' id sub p :
  inv s → tasks s' = <[id := Task sub p]> (tasks s) →
  let k := key (Task sub p) in
  (∀ id' tk l, id' ≠ id → tasks s !! id' = Some tk → uses (at_pc tk) l →
     request_locks s' !! key tk = Some l) →
  (∀ l, uses p l → request_locks s' !! k = Some l) →
  (∀ l id' tk, guard_of p = Some l → id' ≠ id → tasks s !! id' = Some tk →
     guard_of (at_pc tk) ≠ Some l) →
  (∀ id' tk, id' ≠ id → tasks s !! id' = Some tk → in_flight (at_pc tk) →
     recorded (journal s') !! key tk = None) →
  (in_flight p → recorded (journal s') !! k = None) →
  recorded (journal s) ⊆ recorded (journal s') →
  (∀ out, result_of p = Some (Ok out) → justified (journal s') k out) →
  inv s'.
Proof.
  intros Hi Ht k Hlo Hl Hg Hfo Hf Hj Ha. split; rewrite Ht.
  - intros id' tk l [[<- <-]|[Hne Hlk]]%lookup_insert_Some Hu; [by apply Hl|by eapply Hlo].
  - intros id1 id2 tk1 tk2 l [[<- <-]|[Hne1 H1]]%lookup_insert_Some
      [[<- <-]|[Hne2 H2]]%lookup_insert_Some G1 G2; try done.
    + by destruct (Hg l id2 tk2 G1).
    + by destruct (Hg l id1 tk1 G2).
    + by eapply inv_guard.
  - intros id' tk [[<- <-]|[Hne Hlk]]%lookup_insert_Some Hfl; [by apply Hf|by eapply Hfo].
  - intros id' tk out [[<- <-]|[Hne Hlk]]%lookup_insert_Some Hr; [by apply Ha|].
    eapply justified_mono; [done|]. by eapply inv_answer.
Qed.

(** The same, when only the task changes: it may give up what it had. *)
Lemma inv_moved s id tk p :
  inv s → tasks s !! id = Some tk →
  (∀ l, uses p l → uses (at_pc tk) l) →
  (∀ l, guard_of p = Some l → guard_of (at_pc tk) = Some l ∨ lock_free s l = true) →
  (in_flight p → in_flight (at_pc tk)) →
  (∀ out, result_of p = Some (Ok out) →
     result_of (at_pc tk) = Some (Ok out) ∨ justified (journal s) (key tk) out) →
  inv (moved s id tk p).
Proof.
  intros Hi Hid Hu Hg Hf Ha. eapply (inv_update s _ id (submission tk) p Hi); try done; simpl.
  - intros. by eapply inv_lock.
  - intros l Hl. by eapply (inv_lock _ Hi id tk), Hu.
  - intros l id' tk' [G|G]%Hg Hne Hid' G'.
    + apply Hne. by eapply inv_guard.
    + apply bool_decide_eq_true in G. by apply (G id' tk').
  - intros. by eapply inv_flight.
  - intros Hp. apply (inv_flight _ Hi id tk); auto.
  - intros out [Hr|?]%Ha; [|done]. by eapply (inv_answer _ Hi id tk).
Qed.

(** The clean-up removes the map's entry only when no other task refers to the
    lock. *)
Lemma strong_count_two s id tk lock id' tk' :
  strong_count s lock = 2%nat → request_locks s !! key tk = Some lock →
  tasks s !! id = Some tk → arc_of (at_pc tk) = Some lock →
  tasks s !! id' = Some tk' → arc_of (at_pc tk') = Some lock → id' = id.
Proof.
  unfold strong_count. intros Hc Hm Hid Ha Hid' Ha'.
  destruct (decide (id' = id)) as [|Hne]; [done|]. exfalso.
  assert (1 ≤ size (filter (λ kv, kv.2 = lock) (request_locks s)))%nat.
  { destruct (size _) eqn:Hs; [|lia]. apply map_size_empty_inv in Hs.
    assert (filter (λ kv, kv.2 = lock) (request_locks s) !! key tk = Some lock) as Hx
      by (by apply map_lookup_filter_Some). by rewrite Hs in Hx. }
  set (holders := filter (λ kv, arc_of (at_pc kv.2) = Some lock) (tasks s)) in *.
  assert (holders !! id = Some tk) by (by apply map_lookup_filter_Some).
  assert (holders !! id' = Some tk') by (by apply map_lookup_filter_Some).
  assert (2 ≤ size holders)%nat; [|lia].
  rewrite <-(insert_delete_id holders id tk) by done. rewrite map_size_insert_None
    by apply lookup_delete_eq.
  assert (delete id holders !! id' = Some tk') as Hx by (by rewrite lookup_delete_ne).
  destruct (size (delete id holders)) eqn:Hs; [|lia]. apply map_size_empty_inv in Hs.
  by rewrite Hs in Hx.
Qed.

Lemma starting_inv s id tk s' :
  inv s → tasks s !! id = Some tk → at_pc tk = Starting → run s id tk = Some s' → inv s'.
Proof.
  intros Hi Hid Hp. unfold run. rewrite Hp.
  destruct (request_locks s !! _) as [lock|] eqn:Hl; intros [= <-];
    eapply (inv_update s _ id (submission tk) _ Hi); try done; simpl.
  - intros. by eapply inv_lock.
  - intros l [[= <-] _]. done.
  - intros. by eapply inv_flight.
  - intros id' tk' l Hne Hid' Hu. pose proof (inv_lock _ Hi _ _ _ Hid' Hu) as Hk.
    rewrite lookup_insert_ne; [done|]. intros Heq. rewrite <-Heq in Hk. congruence.
  - intros l [[= <-] _]. by rewrite lookup_insert_eq.
  - intros. by eapply inv_flight.
Qed.

Lemma checking_inv s id tk lock s' :
  inv s → tasks s !! id = Some tk → at_pc tk = Checking lock → run s id tk = Some s' → inv s'.
Proof.
  intros Hi Hid Hp. unfold run. rewrite Hp, journal_get_recorded.
  destruct (recorded (journal s) !! _) as [o|] eqn:Ho; intros [= <-].
  - eapply inv_moved; try done; rewrite Hp; simpl; [by intros l [? _]|by left|].
    intros out [= <-]. right. exists o. auto.
  - eapply (inv_update s _ id (submission tk) _ Hi); try done; simpl.
    + intros. by eapply inv_lock.
    + intros l [[= <-] _]. apply (inv_lock _ Hi id tk); [done|]. by rewrite Hp.
    + intros l id' tk' [= <-] Hne Hid' G. apply Hne. eapply inv_guard; [done..|]. by rewrite Hp.
    + intros. by eapply inv_flight.
Qed.

Lemma recording_inv s id tk lock outcome s' :
  inv s → tasks s !! id = Some tk → at_pc tk = Recording lock outcome → run s id tk = Some s' → inv s'.
Proof.
  intros Hi Hid Hp. unfold run. rewrite Hp.
  destruct (journal_put _ _ _ _) as [j answer] eqn:Hj. intros [= <-].
  pose proof (put_recorded _ _ _ _ _ _ Hj) as Hsub.
  eapply (inv_update s _ id (submission tk) _ Hi); try done; simpl.
  - intros. by eapply inv_lock.
  - intros l [[= <-] _]. apply (inv_lock _ Hi id tk); [done|]. by rewrite Hp.
  - intros l id' tk' [= <-] Hne Hid' G. apply Hne. eapply inv_guard; [done..|]. by rewrite Hp.
  - intros id' tk' Hne Hid' Hf. pose proof (inv_flight _ Hi _ _ Hid' Hf) as Hnone.
    destruct answer as [[]|]; [|by rewrite (journal_put_Err _ _ _ _ _ _ Hj)].
    apply journal_put_Ok in Hj as [-> _]. rewrite lookup_insert_ne; [done|]. intros Hk.
    destruct (flight_guard _ Hf) as [l G]. apply Hne.
    by eapply (inv_exclusive s id' id tk' tk); [..|rewrite Hp].
  - intros out. destruct answer as [[]|]; [|done]. intros [= <-].
    apply journal_put_Ok in Hj as [Hj _]. exists outcome. rewrite Hj, lookup_insert_eq. auto.
Qed.

Lemma cleaning_inv s id tk lock result s' :
  inv s → tasks s !! id = Some tk → at_pc tk = Cleaning lock result → run s id tk = Some s' → inv s'.
Proof.
  intros Hi Hid Hp. unfold run. rewrite Hp. intros [= <-].
  eapply (inv_update s _ id (submission tk) _ Hi); try done; simpl.
  - intros id' tk' l Hne Hid' Hu. pose proof (inv_lock _ Hi _ _ _ Hid' Hu) as Hk.
    case_bool_decide as Hc; simpl; [|done]. case_bool_decide as Hm; simpl; [|done].
    rewrite lookup_delete_ne; [done|]. intros Heq. apply Hne.
    eapply (strong_count_two s id tk lock); try done; [by rewrite Hp|].
    destruct Hu as [Hu _]. rewrite Hu. f_equal. rewrite <-Heq in Hk. congruence.
  - intros l [_ Hu]. by destruct (Hu lock result).
  - intros. by eapply inv_flight.
  - intros out [= ->]. eapply (inv_answer _ Hi id tk); [done|]. by rewrite Hp.
Qed.

Lemma step_inv s s' : transition s s' → inv s → inv s'.
Proof.
  intros (a & Hs & Hk) Hi. destruct a as [id sub|id|id answer|id|j]; simpl in *.
  - destruct (tasks s !! id) eqn:Hid; [done|]. injection Hs as <-.
    eapply (inv_update s _ id sub Starting Hi); try done; simpl.
    + intros. by eapply inv_lock.
    + by intros l [? _].
    + intros. by eapply inv_flight.
  - destruct (tasks s !! id) as [tk|] eqn:Hid; [|done]. simpl in Hs.
    destruct (at_pc tk) as [|l|l|l|l o|l r|l r|l r|r] eqn:Hp.
    + by eapply starting_inv.
    + unfold run in Hs. rewrite Hp in Hs. destruct (lock_free s l) eqn:Hf; [|done]. injection Hs as <-.
      eapply inv_moved; try done; rewrite Hp; simpl; [|intros ? [= <-]; by right].
      by intros ? [[= <-] _].
    + by eapply checking_inv.
    + unfold run in Hs. by rewrite Hp in Hs.
    + by eapply recording_inv.
    + unfold run in Hs. rewrite Hp in Hs. injection Hs as <-.
      eapply inv_moved; try done; rewrite Hp; simpl; [by intros ? [? _]|by auto].
    + by eapply cleaning_inv.
    + unfold run in Hs. rewrite Hp in Hs. injection Hs as <-.
      eapply inv_moved; try done; rewrite Hp; simpl; [by intros ? [? _]|by auto].
    + unfold run in Hs. by rewrite Hp in Hs.
  - destruct (tasks s !! id) as [[sub [| | |l| | | | |]]|] eqn:Hid; try done. injection Hs as <-.
    destruct answer; (eapply inv_moved; try done; simpl;
      [by intros ? [[= <-] _]|by intros ? [= <-]; left]).
  - injection Hs as <-. split; simpl.
    + intros id' tk l [_ ?]%lookup_delete_Some. by apply (inv_lock _ Hi id').
    + intros id1 id2 tk1 tk2 l [_ ?]%lookup_delete_Some [_ ?]%lookup_delete_Some.
      by apply (inv_guard _ Hi id1 id2 tk1 tk2).
    + intros id' tk [_ ?]%lookup_delete_Some. by apply (inv_flight _ Hi id').
    + intros id' tk out [_ ?]%lookup_delete_Some. by apply (inv_answer _ Hi id').
  - injection Hs as <-. split; simpl; intros *; by rewrite lookup_empty.
Qed.

Lemma reachable_inv s : reachable s → inv s.
Proof.
  intros [j Hs]. assert (inv (new (V:=V) j)) as Hi by (split; simpl; intros *; by rewrite lookup_empty).
  induction Hs as [|s s1 s2 Ht _ IH]; [done|]. by eapply IH, step_inv.
Qed.

(** C23: retries of one request are serialized. Whatever the interleaving of
    tasks, dropped futures and restarts, at most one task per request is
    between taking the request's lock and releasing it; so the inner handler
    never works on two submissions of one request at a time. *)
Theorem one_submission_at_a_time s id1 id2 tk1 tk2 l1 l2 :
  reachable s → tasks s !! id1 = Some tk1 → tasks s !! id2 = Some tk2 → key tk1 = key tk2 →
  guard_of (at_pc tk1) = Some l1 → guard_of (at_pc tk2) = Some l2 → id1 = id2.
Proof. intros Hi%reachable_inv. by apply inv_exclusive. Qed.

(** A successful answer comes from the journal: the request has one
    recorded outcome, and every task that answered it successfully answered
    that outcome, or that it is a duplicate with that outcome's decision. *)
Theorem answers_agree_with_journal s id tk out :
  reachable s → tasks s !! id = Some tk → at_pc tk = Finished (Ok out) →
  ∃ o, recorded (journal s) !! key tk = Some o ∧ (out = o ∨ out = as_duplicate o).
Proof.
  intros Hi%reachable_inv Hid Hp. apply (inv_answer _ Hi id tk out Hid). by rewrite Hp.
Qed.

(** What holds after [k] was recorded with outcome [o] in state [s0]. *)
Definition settled s0 (k : SubmissionKey) (o : SubmissionOutcome.t V) s : Prop :=
  recorded (journal s) !! k = Some o
  ∧ filter (λ k', k' = k) (submitted s) = filter (λ k', k' = k) (submitted s0)
  ∧ ∀ id tk r, tasks s0 !! id = None → tasks s !! id = Some tk → key tk = k →
      result_of (at_pc tk) = Some r → r = Ok (as_duplicate o).

Lemma settled_update s0 k o s s' id sub p :
  settled s0 k o s → tasks s' = <[id := Task sub p]> (tasks s) →
  recorded (journal s') !! k = Some o →
  filter (λ k', k' = k) (submitted s') = filter (λ k', k' = k) (submitted s) →
  (∀ r, key (Task sub p) = k → tasks s0 !! id = None → result_of p = Some r →
     r = Ok (as_duplicate o)) →
  settled s0 k o s'.
Proof.
  intros (_ & Hf & Ht) Hts Hj Hs Hp. split_and!; [done|congruence|].
  intros id' tk r H0. rewrite Hts. intros [[<- <-]|[Hne Hlk]]%lookup_insert_Some; [by auto|].
  by eapply Ht.
Qed.

Lemma run_settled s0 k o s id tk s' :
  inv s → settled s0 k o s → tasks s !! id = Some tk → run s id tk = Some s' → settled s0 k o s'.
Proof.
  intros Hi Hs Hid Hr. pose proof Hs as (Hj & _ & Ht). unfold run in Hr.
  assert (∀ r, result_of (at_pc tk) = Some r → key tk = k → tasks s0 !! id = None →
            r = Ok (as_duplicate o)) as Hold by (intros; by eapply Ht).
  destruct (at_pc tk) as [|l|l|l|l out|l r|l r|l r|r] eqn:Hp; try done.
  - destruct (request_locks s !! _); injection Hr as <-;
      by eapply (settled_update _ _ _ _ _ id (submission tk) _ Hs).
  - destruct (lock_free s l); [|done]. injection Hr as <-.
    by eapply (settled_update _ _ _ _ _ id (submission tk) _ Hs).
  - rewrite journal_get_recorded in Hr. destruct (recorded (journal s) !! _) as [o'|] eqn:Ho.
    + injection Hr as <-. eapply (settled_update _ _ _ _ _ id (submission tk) _ Hs); try done.
      intros r <- _ [= <-]. change (recorded (journal s) !! key tk = Some o') in Ho.
      change (recorded (journal s) !! key tk = Some o) in Hj. congruence.
    + injection Hr as <-. eapply (settled_update _ _ _ _ _ id (submission tk) _ Hs); try done.
      simpl. rewrite filter_cons_False; [done|]. intros <-. congruence.
  - destruct (journal_put _ _ _ _) as [j answer] eqn:Hput. injection Hr as <-.
    eapply (settled_update _ _ _ _ _ id (submission tk) _ Hs); try done; simpl.
    + by eapply lookup_weaken, put_recorded.
    + intros r <- _ _. assert (recorded (journal s) !! key tk = None) as Hnone
        by (eapply inv_flight; [done..|by rewrite Hp]).
      change (recorded (journal s) !! key tk = Some o) in Hj. congruence.
  - injection Hr as <-. eapply (settled_update _ _ _ _ _ id (submission tk) _ Hs); try done.
    intros r' Hk H0 [= <-]. by apply Hold.
  - injection Hr as <-. eapply (settled_update _ _ _ _ _ id (submission tk) _ Hs); try done.
    intros r' Hk H0 [= <-]. by apply Hold.
  - injection Hr as <-. eapply (settled_update _ _ _ _ _ id (submission tk) _ Hs); try done.
    intros r' Hk H0 [= <-]. by apply Hold.
Qed.

Lemma step_settled s0 k o s s' :
  transition s s' → inv s → settled s0 k o s → settled s0 k o s'.
Proof.
  intros (a & Ha & Hk) Hi Hs. pose proof Hs as (Hj & Hf & Ht).
  destruct a as [id sub|id|id answer|id|j]; simpl in *.
  - destruct (tasks s !! id); [done|]. injection Ha as <-.
    by eapply (settled_update _ _ _ _ _ id sub _ Hs).
  - destruct (tasks s !! id) as [tk|] eqn:Hid; [|done]. by eapply run_settled.
  - destruct (tasks s !! id) as [[sub [| | |l| | | | |]]|] eqn:Hid; try done. injection Ha as <-.
    eapply (settled_update _ _ _ _ _ id sub _ Hs); try done. intros r Hkey _ _. exfalso.
    assert (recorded (journal s) !! key (Task sub (Submitting l)) = None) as Hnone
      by (by eapply inv_flight). unfold key in *. simpl in *. congruence.
  - injection Ha as <-. split_and!; [done|done|]. simpl.
    intros id' tk r H0 [_ ?]%lookup_delete_Some. by eapply Ht.
  - injection Ha as <-. split_and!; [by eapply lookup_weaken|done|]. simpl. intros *.
    by rewrite lookup_empty.
Qed.

Lemma steps_settled s0 k o s s' :
  rtc transition s s' → inv s → settled s0 k o s → settled s0 k o s'.
Proof. induction 1; eauto using step_inv, step_settled. Qed.

(** C20: once the journal has the outcome of a request, the request is not
    passed to the inner handler again, by retries in any interleaving or after
    restarts; the outcome stays, and every retry that arrives later and
    finishes is told it is a duplicate with that outcome's decision. *)
Theorem recorded_request_not_resubmitted s k o s' :
  reachable s → recorded (journal s) !! k = Some o → rtc transition s s' →
  recorded (journal s') !! k = Some o
  ∧ filter (λ k', k' = k) (submitted s') = filter (λ k', k' = k) (submitted s)
  ∧ ∀ id tk r, tasks s !! id = None → tasks s' !! id = Some tk → key tk = k →
      at_pc tk = Finished r → r = Ok (as_duplicate o).
Proof.
  intros Hi%reachable_inv Hj Hsteps.
  assert (settled s k o s) as Hs0 by (split_and!; [done..|]; intros; congruence).
  destruct (steps_settled _ _ _ _ _ Hsteps Hi Hs0) as (Hj' & Hf & Ht).
  split_and!; [done..|]. intros id tk r H0 Hid Hk Hp. eapply Ht; [done..|]. by rewrite Hp.
Qed.

Definition no_restart (a : action V J) : bool := match a with Restart _ => false | _ => true end.

Lemma steps_transitions s actions s' :
  forallb no_restart actions = true → steps s actions = Some s' → rtc transition s s'.
Proof.
  revert s. induction actions as [|a actions IH]; intros s; simpl; [by intros _ [= ->]|].
  intros [Ha Has]%andb_prop. destruct (step s a) as [s1|] eqn:Hs; [|done]. simpl. intros Hr.
  eapply rtc_l; [|by apply IH]. exists a. split; [done|]. by destruct a.
Qed.
End handler.

(** ** Concrete runs *)

Module HandlerRuns.
Definition empty_journal : InMemorySubmissionJournal.t Z := InMemorySubmissionJournal.mk ∅.
Definition request : Submission.t Z := Submission.mk [3] 7 [11].
Definition outcome : SubmissionOutcome.t Z := SubmissionOutcome.Committed (Decision.mk 1 [11] 0 4).

Abbreviation state := (t Z (InMemorySubmissionJournal.t Z)).
Definition run_from (s : state) (actions : list (action Z (InMemorySubmissionJournal.t Z))) : state :=
  default s (steps s actions).

(** Two submissions of one request: the first is at the inner handler, the
    second waits for its lock. *)
Definition first_in_flight : state := run_from (new empty_journal)
  [Submit 1 request; Submit 2 request; Run 1; Run 2; Run 1; Run 1].
Definition both_done : state := run_from first_in_flight
  [Reply 1 (Ok outcome); Run 1; Run 1; Run 2; Run 2; Run 2; Run 1; Run 2; Run 1; Run 2].

Lemma reachable_run (s : state) actions :
  forallb no_restart actions = true → steps (new empty_journal) actions = Some s →
  reachable (recorded:=InMemorySubmissionJournal.outcomes) s.
Proof. intros Hn Hs. exists empty_journal. by eapply steps_transitions. Qed.

Lemma first_in_flight_reachable :
  reachable (recorded:=InMemorySubmissionJournal.outcomes) first_in_flight.
Proof.
  refine (reachable_run _ [Submit 1 request; Submit 2 request; Run 1; Run 2; Run 1; Run 1] _ _);
    [reflexivity|vm_compute; reflexivity].
Qed.
Lemma both_done_reachable :
  reachable (recorded:=InMemorySubmissionJournal.outcomes) both_done.
Proof.
  refine (reachable_run _
    [Submit 1 request; Submit 2 request; Run 1; Run 2; Run 1; Run 1; Reply 1 (Ok outcome);
     Run 1; Run 1; Run 2; Run 2; Run 2; Run 1; Run 2; Run 1; Run 2] _ _);
    [reflexivity|vm_compute; reflexivity].
Qed.

Lemma one_submission_at_a_time_witness :
  ∃ tk, tasks first_in_flight !! 1%nat = Some tk ∧ at_pc tk = Submitting 0 ∧ (1%nat = 1%nat).
Proof.
  eexists. split; [vm_compute; reflexivity|]. split; [reflexivity|].
  eapply (one_submission_at_a_time (recorded:=InMemorySubmissionJournal.outcomes) first_in_flight).
  - exact first_in_flight_reachable.
  - vm_compute. reflexivity.
  - vm_compute. reflexivity.
  - reflexivity.
  - reflexivity.
  - reflexivity.
Defined.

Lemma answers_agree_with_journal_witness :
  ∃ o, InMemorySubmissionJournal.outcomes (journal both_done) !! ([3], 7) = Some o
    ∧ (as_duplicate outcome = o ∨ as_duplicate outcome = as_duplicate o).
Proof.
  refine (answers_agree_with_journal both_done 2
    (Task request (Finished (Ok (as_duplicate outcome)))) (as_duplicate outcome) _ _ _).
  - exact both_done_reachable.
  - vm_compute. reflexivity.
  - reflexivity.
Defined.

(** A third submission of the same request, after both are done. *)
Definition third_done : state := run_from both_done
  [Submit 3 request; Run 3; Run 3; Run 3; Run 3; Run 3; Run 3].

Lemma recorded_request_not_resubmitted_witness :
  filter (λ k', k' = ([3], 7)) (submitted third_done) = [([3], 7)]
  ∧ tasks third_done !! 3%nat = Some (Task request (Finished (Ok (as_duplicate outcome)))).
Proof.
  split.
  - refine (eq_trans (proj1 (proj2 (recorded_request_not_resubmitted
      (recorded:=InMemorySubmissionJournal.outcomes) both_done ([3], 7) outcome third_done _ _ _))) _).
    + exact both_done_reachable.
    + vm_compute. reflexivity.
    + refine (steps_transitions _ [Submit 3 request; Run 3; Run 3; Run 3; Run 3; Run 3; Run 3] _ _ _);
        [reflexivity|vm_compute; reflexivity].
    + vm_compute. reflexivity.
  - vm_compute. reflexivity.
Defined.

(** The map of request locks can keep an entry that nobody uses. Two
    tasks of one request pass the clean-up before either has dropped its
    reference: both count three references, neither removes the entry, and it
    stays when both have finished. *)
Theorem unused_lock_stays :
  map_Forall (λ _ tk, arc_of (at_pc tk) = None) (tasks both_done)
  ∧ request_locks both_done = {[([3], 7) := 0%nat]}
  ∧ reachable (recorded:=InMemorySubmissionJournal.outcomes) both_done.
Proof.
  split; [|split].
  - apply map_Forall_to_list. vm_compute. repeat constructor.
  - vm_compute. reflexivity.
  - exact both_done_reachable.
Qed.
End HandlerRuns.
