(* ===== verification/AsyncProposer.v ===== *)
(** * The asynchronous proposer (src/network/async_proposer.rs)

  The tokio counterpart of [Proposer]: the requests of a phase are futures
  polled together, there is no deadline of its own, and the membership is
  always given. It is translated on its own and then shown to decide what the
  synchronous proposer of the same cluster decides, where the quorums of the
  cluster are its majorities; elsewhere the synchronous one refuses to start.
  It terminates when the RPCs do. *)
From S2P Require Import Prelude Errors Types Membership Isr Store Recorder Proposer Consensus.

Module AsyncProposerCore.
Record t {R : Type} : Type := mk {
  replica_id : ReplicaId;
  lane_id : LaneId;
  rng : R;
  cluster : ClusterIdentity.t;
  max_steps : Z;
}.
Arguments t : clear implicits.
Arguments mk {R} _ _ _ _ _.

Definition with_rng {R} (replica_id : ReplicaId) (lane_id : LaneId) (cluster : ClusterIdentity.t)
    (rng : R) : t R := mk replica_id lane_id rng cluster 1027.

Definition with_max_steps {R} (self : t R) (max_steps : Z) : t R :=
  mk (replica_id self) (lane_id self) (rng self) (cluster self) max_steps.

Definition validate_recorders (recorders : list ReplicaId) (proposer : ReplicaId)
    (cluster : ClusterIdentity.t) : Result unit :=
  reject negb (ClusterIdentity.contains cluster proposer)
    with QuePaxaError.UnknownReplica proposer ;;
  let actual : gset Z := list_to_set recorders in
  let expected : gset Z := list_to_set (ClusterIdentity.members cluster) in
  reject negb (Z.of_nat (size actual) =? len recorders)
    with QuePaxaError.InvalidProposal "async recorder clients contain duplicate identities" ;;
  reject negb (bool_decide (actual = expected)) with QuePaxaError.ConfigurationMismatch ;;
  Ok tt.

Section replies.
Context {V : Type}.

Definition fast_path_winner (step : Z) (replies : list (RecordReply.t V))
    (leader : option ReplicaId) : option (Proposal.t V) :=
  if negb (step =? Step.ROUND_ONE_PHASE_ZERO) then None
  else
    head replies ≫= λ reply, RecordSummary.first (RecordReply.summary reply) ≫= λ winner,
    if negb (Priority.is_leader_priority (ProposalKey.priority (Proposal.key winner))) then None
    else if negb (bool_decide (leader = Some (ProposalKey.proposer_id (Proposal.key winner))))
    then None
    else if forallb (λ reply,
              match RecordSummary.first (RecordReply.summary reply) with
              | Some proposal => bool_decide (Proposal.key proposal = Proposal.key winner)
              | None => false
              end) replies
    then Some winner else None.

(** A completed future: the recorder it was for and its result. *)
Abbreviation arrival := (ReplicaId * Result (RecordReply.t V))%type.

(** The loop of [collect_quorum] over the futures in the order they complete;
    [pending] is [pending.len()]. [None]: the loop waits for a future that
    has not completed. *)
Fixpoint collect (quorum : Z) (expected_cluster : ClusterIdentity.t)
    (replies : list (RecordReply.t V)) (seen : list ReplicaId) (pending : Z)
    (arrivals : list arrival) : option (Result (list (RecordReply.t V))) :=
  match arrivals with
  | [] =>
      if pending =? 0 then Some (Err (QuePaxaError.QuorumNotReached quorum (len replies)))
      else None
  | (expected, result) :: arrivals =>
      let pending := pending - 1 in
      match result with
      | Ok reply =>
          if negb (RecordReply.recorder reply =? expected)
          then Some (Err (QuePaxaError.InvalidRecorderReply expected (RecordReply.recorder reply)))
          else if negb (bool_decide (RecordReply.cluster reply = expected_cluster))
          then Some (Err QuePaxaError.ConfigurationMismatch)
          else if bool_decide (RecordReply.recorder reply ∈ seen)
          then Some (Err (QuePaxaError.DuplicateRecorderReply (RecordReply.recorder reply)))
          else
            let replies := replies ++ [reply] in
            if ClusterIdentity.has_quorum expected_cluster (RecordReply.recorder <$> replies)
            then Some (Ok replies)
            else if len replies + pending <? quorum
            then Some (Err (QuePaxaError.QuorumNotReached quorum (len replies)))
            else collect quorum expected_cluster replies (RecordReply.recorder reply :: seen)
                         pending arrivals
      | Err QuePaxaError.ConfigurationMismatch => Some (Err QuePaxaError.ConfigurationMismatch)
      | Err (QuePaxaError.ConflictingDecision _ as error) => Some (Err error)
      | Err (QuePaxaError.SlotPruned _ as error) => Some (Err error)
      | Err (QuePaxaError.ScheduleMismatch _ as error) => Some (Err error)
      | Err _ =>
          if len replies + pending <? quorum
          then Some (Err (QuePaxaError.QuorumNotReached quorum (len replies)))
          else collect quorum expected_cluster replies seen pending arrivals
      end
  end.

Definition collect_quorum (recorders : list ReplicaId) (requests : list (RecordRequest.t V))
    (quorum : Z) (expected_cluster : ClusterIdentity.t) (arrivals : list arrival)
    : option (Result (list (RecordReply.t V))) :=
  collect quorum expected_cluster [] [] (len (zip recorders requests)) arrivals.
End replies.

Section propose.
Context {R : Type} `{!PrioritySource R} {V : Type} `{EqDecision V}.
Implicit Types self : t R.

Definition set_rng self (rng : R) : t R :=
  mk (replica_id self) (lane_id self) rng (cluster self) (max_steps self).

(** The [for] loop that builds one request per recorder. *)
Fixpoint requests_for self (slot : SlotIndex) (leader : option ReplicaId) (step : Z)
    (proposal : Proposal.t V) (recorders : list ReplicaId)
    : t R * Result (list (RecordRequest.t V)) :=
  match recorders with
  | [] => (self, Ok [])
  | _ :: recorders =>
      let '(self, drawn) :=
        if (Step.phase step =? 0)
           && ((Step.ROUND_ONE_PHASE_ZERO <? step)
               || negb (bool_decide (leader = Some (replica_id self))))
        then let '(rng', priority) := next_below (rng self) Priority.MAX in
             (set_rng self rng',
              let? priority := priority in Ok (Proposal.with_priority proposal priority))
        else (self, Ok proposal) in
      match drawn with
      | Err e => (self, Err e)
      | Ok proposal_for_recorder =>
          let request := RecordRequest.mk (replica_id self) slot leader step
                           proposal_for_recorder [] in
          let '(self, rest) := requests_for self slot leader step proposal recorders in
          (self, let? rest := rest in Ok (request :: rest))
      end
  end.

(** What the loop does with the replies of a quorum: a decision, or the next
    step and proposal. *)
Definition after_replies (slot : SlotIndex) (leader : option ReplicaId) (step : Z)
    (proposal : Proposal.t V) (replies : list (RecordReply.t V))
    : Result (Decision.t V + Z * Proposal.t V) :=
  match head (omap RecordReply.decision replies) with
  | Some decision =>
      reject negb (Decision.slot decision =? slot) || is_empty (Decision.value_ids decision)
        with QuePaxaError.InvalidProposal "recorder reported a decision for a different slot" ;;
      Ok (inl decision)
  | None =>
      let firsts := omap (λ reply, RecordSummary.first (RecordReply.summary reply)) replies in
      let priors :=
        omap (λ reply, RecordSummary.prior_aggregate (RecordReply.summary reply)) replies in
      let next proposal :=
        let? step := ok_or (Step.checked_next step) QuePaxaError.StepOverflow in
        Ok (inr (step, proposal)) in
      let decide_on winner :=
        let? decision := Decision.new slot (Proposal.value_ids winner)
                           (ProposalKey.proposer_id (Proposal.key winner)) step in
        Ok (inl decision) in
      if forallb (λ reply, RecordSummary.step (RecordReply.summary reply) =? step) replies then
        match Step.phase step with
        | 0 =>
            match fast_path_winner step replies leader with
            | Some winner => decide_on winner
            | None =>
                let? proposal := ok_or (max_proposal_by_key firsts) QuePaxaError.MissingProposal in
                next proposal
            end
        | 1 => next proposal
        | 2 =>
            match max_proposal_by_key priors with
            | Some max_prior =>
                if bool_decide (proposal = max_prior) then decide_on proposal else next proposal
            | None => next proposal
            end
        | _ => next (default proposal (max_proposal_by_key priors))
        end
      else
        match max_by_step replies with
        | Some reply =>
            if step <? RecordSummary.step (RecordReply.summary reply) then
              let? proposal := ok_or (RecordSummary.first (RecordReply.summary reply))
                                     QuePaxaError.MissingProposal in
              Ok (inr (RecordSummary.step (RecordReply.summary reply), proposal))
            else Ok (inr (step, proposal))
        | None => Ok (inr (step, proposal))
        end
  end.

(** The recorders and the network: from the requests of a phase to the
    futures that complete, in order. *)
Context {X : Type}.
Context (network : X → list (ReplicaId * RecordRequest.t V) →
                   X * list (ReplicaId * Result (RecordReply.t V))).

(** The [while] loop. [None] is an exhausted fuel or a future that never
    completes; the termination theorem excludes both. *)
Fixpoint drive (fuel : nat) self (x : X) (slot : SlotIndex) (leader : option ReplicaId)
    (recorders : list ReplicaId) (step : Z) (proposal : Proposal.t V)
    : t R * X * option (Result (Decision.t V)) :=
  if max_steps self <? step
  then (self, x, Some (Err (QuePaxaError.StepLimitExceeded (max_steps self))))
  else match fuel with
  | O => (self, x, None)
  | S fuel =>
      match requests_for self slot leader step proposal recorders with
      | (self, Err e) => (self, x, Some (Err e))
      | (self, Ok requests) =>
          let '(x, arrivals) := network x (zip recorders requests) in
          match collect_quorum recorders requests (ClusterIdentity.quorum_size (cluster self))
                  (cluster self) arrivals with
          | None => (self, x, None)
          | Some (Err e) => (self, x, Some (Err e))
          | Some (Ok replies) =>
              match after_replies slot leader step proposal replies with
              | Err e => (self, x, Some (Err e))
              | Ok (inl decision) => (self, x, Some (Ok decision))
              | Ok (inr (step, proposal)) =>
                  drive fuel self x slot leader recorders step proposal
              end
          end
      end
  end.

Definition propose (fuel : nat) self (x : X) (slot : SlotIndex) (value_ids : list V)
    (leader : option ReplicaId) (recorders : list ReplicaId)
    : t R * X * option (Result (Decision.t V)) :=
  match (let? _ := validate_recorders recorders (replica_id self) (cluster self) in
         let? _ := match leader with
                   | Some leader =>
                       reject negb (ClusterIdentity.contains (cluster self) leader)
                         with QuePaxaError.UnknownReplica leader ;;
                       Ok tt
                   | None => Ok tt
                   end in
         Proposal.new (ProposalKey.new Priority.MAX (replica_id self) (lane_id self)) value_ids) with
  | Err e => (self, x, Some (Err e))
  | Ok proposal => drive fuel self x slot leader recorders Step.ROUND_ONE_PHASE_ZERO proposal
  end.
End propose.
End AsyncProposerCore.

(** ** The same phases as the synchronous proposer *)

Section phases.
Context {V : Type} `{EqDecision V}.
Implicit Types replies : list (RecordReply.t V).

Lemma head_omap_decision replies : head (omap RecordReply.decision replies) = find_decision replies.
Proof.
  induction replies as [|reply replies IH]; [done|]. csimpl. by destruct (RecordReply.decision reply).
Qed.

Lemma fast_path_winner_eq step replies leader :
  AsyncProposerCore.fast_path_winner step replies leader = fast_path_winner step replies leader.
Proof.
  unfold AsyncProposerCore.fast_path_winner, fast_path_winner, reply_first.
  destruct (negb _); [done|]. destruct replies as [|reply replies]; [done|]. simpl.
  by destruct (RecordSummary.first (RecordReply.summary reply)).
Qed.

Lemma after_replies_eq slot leader step (proposal : Proposal.t V) replies :
  AsyncProposerCore.after_replies slot leader step proposal replies
  = advance slot leader step proposal replies.
Proof.
  unfold AsyncProposerCore.after_replies, advance, phase_outcome.
  rewrite head_omap_decision, fast_path_winner_eq.
  change (omap (λ reply : RecordReply.t V, RecordSummary.first (RecordReply.summary reply)) replies)
    with (omap reply_first replies).
  change (omap (λ reply : RecordReply.t V, RecordSummary.prior_aggregate (RecordReply.summary reply))
            replies) with (omap reply_prior replies).
  destruct (find_decision replies); [done|]. unfold reply_step.
  destruct (forallb _ _); [|done].
  destruct (Step.phase step) as [|[[]|[]|]|]; simpl; repeat (case_match; simplify_eq/=); done.
Qed.
End phases.

(** ** The same quorums *)

Section collection.
Context {V : Type} (c : ClusterIdentity.t).
Context (Htyped : cluster_typed c) (Hwf : ClusterIdentity.is_well_formed c = true).
Implicit Types arrivals : list (ReplicaId * Result (RecordReply.t V)).

(** The completed futures as what the synchronous receiver sees. *)
Definition sync_events arrivals : list (event V) := (λ a, Arrival a.1 a.2) <$> arrivals.

Lemma collect_reached quorum ec replies seen pending (evs : list (event V)) :
  quorum_reached replies quorum ec = true → collect quorum ec replies seen pending evs = Ok replies.
Proof. intros Hq. destruct evs; simpl; by rewrite Hq. Qed.

Lemma collect_length quorum ec (evs : list (event V)) replies seen pending out :
  collect quorum ec replies seen pending evs = Ok out → len out ≤ len replies + len evs.
Proof.
  revert replies seen pending. induction evs as [|ev evs IH]; intros replies seen pending; simpl;
    (destruct (quorum_reached _ _ _); [intros [= <-]|]).
  - rewrite len_nil. lia.
  - done.
  - rewrite len_cons. pose proof (len_nonneg evs). lia.
  - rewrite len_cons. destruct ev as [expected [reply|e]| |]; [| |done..].
    + destruct (negb _); [done|]. destruct (match ec with Some _ => _ | None => _ end); [done|].
      destruct (bool_decide _); [done|]. intros Hc%IH. rewrite len_app, len_cons, len_nil in Hc. lia.
    + destruct (is_fatal e); [done|]. destruct (_ <? quorum); [done|]. intros Hc%IH. lia.
Qed.

Lemma no_empty_quorum : ClusterIdentity.has_quorum c [] = false.
Proof.
  destruct (ClusterIdentity.has_quorum c []) eqn:Hq; [|done].
  destruct (cluster_quorum_system c Htyped Hwf [] [] Hq Hq) as (r & Hr & _).
  by apply not_elem_of_nil in Hr.
Qed.

(** The replies so far plus the futures still to come bound every quorum. *)
Lemma collect_too_few replies seen pending arrivals out :
  (∀ r, r ∈ RecordReply.recorder <$> replies ↔ r ∈ seen) →
  NoDup (RecordReply.recorder <$> replies) → len arrivals ≤ pending →
  collect (ClusterIdentity.quorum_size c) (Some c) replies seen pending (sync_events arrivals) = Ok out →
  ClusterIdentity.quorum_size c ≤ len replies + pending.
Proof.
  intros Hseen Hnd Hlen Hc. pose proof (collect_length _ _ _ _ _ _ _ Hc) as Hle.
  destruct (collect_spec _ _ _ _ _ _ _ Hc Hseen Hnd) as (fresh & _ & _ & Hnd' & Hq). simpl in Hq.
  apply (quorum_size_lower_bound _ _ Htyped Hwf) in Hq.
  rewrite size_list_to_set, length_fmap in Hq by done.
  unfold sync_events, len in *. rewrite length_fmap in Hle. lia.
Qed.

Lemma collect_agrees arrivals replies seen pending out :
  ClusterIdentity.has_quorum c (RecordReply.recorder <$> replies) = false →
  (∀ r, r ∈ RecordReply.recorder <$> replies ↔ r ∈ seen) →
  NoDup (RecordReply.recorder <$> replies) → len arrivals ≤ pending →
  AsyncProposerCore.collect (ClusterIdentity.quorum_size c) c replies seen pending arrivals
    = Some (Ok out) ↔
  collect (ClusterIdentity.quorum_size c) (Some c) replies seen pending (sync_events arrivals) = Ok out.
Proof.
  revert replies seen pending.
  induction arrivals as [|[expected result] arrivals IH]; intros replies seen pending Hq Hseen Hnd Hlen.
  { simpl. rewrite Hq. by destruct (pending =? 0). }
  rewrite len_cons in Hlen. simpl. rewrite Hq. destruct result as [reply|e].
  - destruct (negb (_ =? expected)); [done|]. destruct (negb (bool_decide _)); [done|].
    destruct (bool_decide_reflect (RecordReply.recorder reply ∈ seen)) as [|Hnew]; [done|].
    assert (∀ r, r ∈ RecordReply.recorder <$> replies ++ [reply] ↔ r ∈ RecordReply.recorder reply :: seen)
      as Hseen'.
    { intros r. rewrite fmap_app, elem_of_app, elem_of_cons, Hseen. simpl.
      rewrite list_elem_of_singleton. naive_solver. }
    assert (NoDup (RecordReply.recorder <$> replies ++ [reply])) as Hnd'.
    { rewrite fmap_app. apply NoDup_app. split_and!; [done| |apply NoDup_singleton].
      by intros r Hr%Hseen ->%list_elem_of_singleton. }
    destruct (ClusterIdentity.has_quorum c (RecordReply.recorder <$> replies ++ [reply])) eqn:Hq'.
    { rewrite collect_reached by done. naive_solver. }
    destruct (Z.ltb_spec (len (replies ++ [reply]) + (pending - 1)) (ClusterIdentity.quorum_size c)).
    + split; [done|]. intros Hc. apply collect_too_few in Hc; [lia|done|done|lia].
    + apply IH; [done..|lia].
  - destruct (is_fatal e) eqn:Hf; [by destruct e|].
    trans ((if len replies + (pending - 1) <? ClusterIdentity.quorum_size c
            then Some (Err (QuePaxaError.QuorumNotReached (ClusterIdentity.quorum_size c) (len replies)))
            else AsyncProposerCore.collect (ClusterIdentity.quorum_size c) c replies seen
                   (pending - 1) arrivals) = Some (Ok out)); [by destruct e|].
    destruct (_ <? _); [done|]. apply IH; [done..|lia].
Qed.

End collection.

(** ** The same decisions *)

Lemma first_duplicate_None seen l :
  first_duplicate seen l = None ↔ NoDup l ∧ ∀ x, x ∈ l → x ∉ seen.
Proof.
  revert seen. induction l as [|x l IH]; intros seen; simpl; [split; [|done]; split; [constructor|set_solver]|].
  case_bool_decide as Hx; [split; [done|]; intros [_ Hn]; destruct (Hn x); set_solver|].
  rewrite IH, NoDup_cons. set_solver.
Qed.

Section members.
Context (c : ClusterIdentity.t) (Htyped : cluster_typed c).
Context (Hwf : ClusterIdentity.is_well_formed c = true).

Lemma members_normalized : Sorted Z.lt (ClusterIdentity.members c) ∧ ClusterIdentity.members c ≠ [].
Proof.
  unfold ClusterIdentity.is_well_formed in Hwf.
  destruct (members_are_normalized (ClusterIdentity.members c)) eqn:Hn; [|done].
  apply members_are_normalized_spec in Hn. naive_solver.
Qed.

Lemma members_NoDup : NoDup (ClusterIdentity.members c).
Proof. by apply sorted_lt_NoDup, members_normalized. Qed.

Lemma members_are_a_quorum : ClusterIdentity.has_quorum c (ClusterIdentity.members c) = true.
Proof.
  pose proof (λ ms f, well_formed_component c ms f Htyped Hwf) as Hcomp.
  assert (∀ ms : list Z, (∀ x, x ∈ ms → x ∈ ClusterIdentity.members c) →
    filter (λ m, m ∈ (list_to_set (ClusterIdentity.members c) : gset Z)) ms = ms) as Hall.
  { intros ms Hms. induction ms as [|m ms IH]; [done|].
    rewrite filter_cons_True, IH; [done|set_solver..]. }
  unfold ClusterIdentity.has_quorum, ClusterIdentity.quorum_size, components in *.
  destruct (ClusterIdentity.joint c) as [j|].
  - destruct (Hcomp _ _ (list_elem_of_here _ _)) as ((?&?&?)&_&_&?&Ho).
    destruct (Hcomp _ _ (list_elem_of_further _ _ _ (list_elem_of_here _ _))) as ((?&?&?)&_&_&?&Hn).
    rewrite !Hall by done. unfold U64.fits in *.
    rewrite !U64.wrapping_sub_small by (unfold U64.fits; lia).
    apply andb_true_intro. split; apply Z.leb_le; lia.
  - destruct (Hcomp _ _ (list_elem_of_here _ _)) as ((?&?&?)&_&_&?&_). unfold U64.fits in *.
    rewrite U64.wrapping_sub_small by (unfold U64.fits; lia).
    rewrite size_list_to_set by apply members_NoDup. apply andb_true_intro. split.
    + apply Z.leb_le. unfold len. lia.
    + apply forallb_forall. intros x Hx. apply bool_decide_eq_true.
      apply list_elem_of_In in Hx. set_solver.
Qed.

Lemma recorders_are_members (recorders : list ReplicaId) :
  NoDup recorders → (list_to_set recorders : gset Z) = list_to_set (ClusterIdentity.members c) →
  len recorders = len (ClusterIdentity.members c)
  ∧ ∀ k, k ∈ recorders ↔ k ∈ ClusterIdentity.members c.
Proof.
  intros Hnd Heq. split.
  - unfold len. rewrite <-(size_list_to_set (C:=gset Z) recorders), Heq, size_list_to_set;
      [done| |done]. by apply members_NoDup.
  - intros k. rewrite <-!(elem_of_list_to_set (C:=gset Z)). by rewrite Heq.
Qed.

(** All members together are a quorum, so a quorum is at most all of them. *)
Lemma members_bound :
  0 < len (ClusterIdentity.members c)
  ∧ ClusterIdentity.quorum_size c ≤ len (ClusterIdentity.members c).
Proof.
  split.
  - destruct members_normalized as [_ Hne]. destruct (ClusterIdentity.members c); [done|].
    rewrite len_cons. pose proof (len_nonneg l). lia.
  - pose proof (quorum_size_lower_bound _ _ Htyped Hwf members_are_a_quorum) as Hle.
    rewrite size_list_to_set in Hle by apply members_NoDup. done.
Qed.

(** A stable epoch tolerates fewer faults than half its members. *)
Lemma stable_majority :
  ClusterIdentity.joint c = None →
  len (ClusterIdentity.members c) / 2 + 1 ≤ ClusterIdentity.quorum_size c.
Proof.
  intros Hj. pose proof (λ ms f, well_formed_component c ms f Htyped Hwf) as Hcomp.
  unfold ClusterIdentity.quorum_size, components in *. rewrite Hj in *.
  destruct (Hcomp _ _ (list_elem_of_here _ _)) as ((?&?&?)&_&_&?&_). unfold U64.fits in *.
  rewrite U64.wrapping_sub_small by (unfold U64.fits; lia). mod_lia.
Qed.
End members.

(** The synchronous proposer of the same replica, lane, cluster and limit. *)
Definition synchronous {R} (self : AsyncProposerCore.t R) : ProposerCore.t R :=
  ProposerCore.mk (AsyncProposerCore.replica_id self) (AsyncProposerCore.lane_id self)
    (AsyncProposerCore.rng self)
    (ProposerConfig.mk (AsyncProposerCore.max_steps self)
       (Some (ClusterIdentity.quorum_size (AsyncProposerCore.cluster self)))
       (Some (AsyncProposerCore.cluster self)) 30000000000).

(** A collection of the synchronous proposer that sees the same results, none
    of its endpoints being busy and no deadline passing. *)
Definition sync_io {V} (arrivals : list (ReplicaId * Result (RecordReply.t V))) : phase_io V :=
  {| busy := λ _, false; spawns := λ _, true; deadline_fits := true;
     events := sync_events arrivals |}.

Section decisions.
Context {R : Type} `{!PrioritySource R} {V : Type} `{EqDecision V}.
Implicit Types self : AsyncProposerCore.t R.

Lemma synchronous_inj self self' : synchronous self = synchronous self' → self = self'.
Proof. destruct self, self'. unfold synchronous. simpl. by intros [= -> -> -> -> _ ->]. Qed.

Lemma requests_for_eq self slot leader step (proposal : Proposal.t V) recorders self' r :
  AsyncProposerCore.requests_for self slot leader step proposal recorders = (self', r) →
  ProposerCore.phase_requests (synchronous self) slot leader [] step proposal recorders
    = (synchronous self', let? requests := r in Ok (zip recorders requests))
  ∧ AsyncProposerCore.cluster self' = AsyncProposerCore.cluster self
  ∧ AsyncProposerCore.max_steps self' = AsyncProposerCore.max_steps self
  ∧ (∀ requests, r = Ok requests → length requests = length recorders).
Proof.
  revert self self' r. induction recorders as [|k recorders IH]; intros self self' r; simpl.
  { intros [= <- <-]. split_and!; [done..|]. by intros ? [= <-]. }
  unfold ProposerCore.proposal_for, ProposerCore.randomizes. simpl.
  set (drawn := if (Step.phase step =? 0) && _ then _ else (self, Ok proposal)).
  assert (∃ rng p, drawn = (AsyncProposerCore.set_rng self rng, p)
    ∧ (if (Step.phase step =? 0) && ((Step.ROUND_ONE_PHASE_ZERO <? step)
          || negb (bool_decide (leader = Some (AsyncProposerCore.replica_id self))))
       then let '(rng', priority) := next_below (AsyncProposerCore.rng self) Priority.MAX in
            (ProposerCore.set_rng (synchronous self) rng',
             let? priority := priority in Ok (Proposal.with_priority proposal priority))
       else (synchronous self, Ok proposal))
      = (synchronous (AsyncProposerCore.set_rng self rng), p)) as (rng & p & -> & ->).
  { subst drawn. destruct (_ && _).
    - destruct (next_below _ _) as [rng pr]. by exists rng, (let? priority := pr in Ok (Proposal.with_priority proposal priority)).
    - exists (AsyncProposerCore.rng self), (Ok proposal). by destruct self. }
  destruct p as [p|e]; [|by intros [= <- <-]].
  destruct (AsyncProposerCore.requests_for _ _ _ _ _ recorders) as [self1 r1] eqn:Hr.
  intros [= <- <-]. apply IH in Hr as (-> & Hc & Hm & Hl). split_and!; [by destruct r1|done..|].
  intros requests Hreq. destruct r1 as [rest|]; [|done]. injection Hreq as <-. simpl.
  f_equal. by apply Hl.
Qed.

Lemma prepare_quorum self value_ids leader recorders quorum (proposal : Proposal.t V) :
  ProposerCore.prepare (synchronous self) value_ids leader recorders [] = Ok (quorum, proposal) →
  quorum = ClusterIdentity.quorum_size (AsyncProposerCore.cluster self).
Proof.
  unfold ProposerCore.prepare, validate_recorders. simpl.
  destruct (quorum_size _); [|done]. destruct (first_duplicate _ _); [done|].
  destruct (negb _); [done|]. destruct (negb (bool_decide (_ = list_to_set _))); [done|].
  destruct (negb _); [done|]. destruct (_ || _); [done|].
  destruct (match leader with Some _ => _ | None => _ end); [|done].
  destruct (Proposal.new _ _); [|done]. by intros [= <- _].
Qed.

Context {X : Type}.
Context (network : X → list (ReplicaId * RecordRequest.t V) →
                   X * list (ReplicaId * Result (RecordReply.t V))).

Definition sync_network (x : X) (requests : list (ReplicaId * RecordRequest.t V))
    : X * phase_io V := let '(x, arrivals) := network x requests in (x, sync_io arrivals).

(** A future completes at most once. *)
Definition one_reply_each : Prop := ∀ x requests, len (network x requests).2 ≤ len requests.

Lemma launch_all (requests : list (ReplicaId * RecordRequest.t V)) :
  len (launch (λ _, true) ((λ kr, (RecorderHandle.mk kr.1 false, kr.2)) <$> requests)).2
  = len requests.
Proof.
  induction requests as [|[k req] requests IH]; [done|].
  cbn [fmap list_fmap fst snd]. rewrite launch_cons. cbn -[launch]. by rewrite !len_cons, IH.
Qed.

Lemma collect_quorum_agrees c recorders (requests : list (RecordRequest.t V)) arrivals out :
  cluster_typed c → ClusterIdentity.is_well_formed c = true →
  len arrivals ≤ len (zip recorders requests) →
  AsyncProposerCore.collect_quorum recorders requests (ClusterIdentity.quorum_size c) c arrivals
    = Some (Ok out) ↔
  collect_quorum (zip recorders requests) (ClusterIdentity.quorum_size c) (Some c)
    (sync_io arrivals) = Ok out.
Proof.
  intros Hty Hwf Hlen. unfold AsyncProposerCore.collect_quorum, collect_quorum. simpl.
  rewrite launch_all, (collect_agrees c Hty Hwf);
    [|by apply no_empty_quorum|done|constructor|done].
  destruct (Z.ltb_spec (len (zip recorders requests)) (ClusterIdentity.quorum_size c)); [|done].
  split; [|done]. intros Hc. apply (collect_too_few c Hty Hwf) in Hc; [|done|constructor|done].
  rewrite len_nil in Hc. lia.
Qed.

Section cluster.
Context (c : ClusterIdentity.t) (Htyped : cluster_typed c).
Context (Hwf : ClusterIdentity.is_well_formed c = true).

Lemma drive_agrees fuel self x slot leader recorders step (proposal : Proposal.t V) self' x' d :
  one_reply_each → AsyncProposerCore.cluster self = c →
  AsyncProposerCore.drive network fuel self x slot leader recorders step proposal
    = (self', x', Some (Ok d)) ↔
  ProposerCore.drive sync_network fuel (synchronous self) x slot leader recorders
    (ClusterIdentity.quorum_size c) [] step proposal = (synchronous self', x', Some (Ok d)).
Proof.
  intros Honce. revert self x step proposal.
  induction fuel as [|fuel IH]; intros self x step proposal Hself; simpl;
    (destruct (_ <? step); [done|]); [done|].
  destruct (AsyncProposerCore.requests_for _ _ _ _ _ _) as [self1 r] eqn:Hr.
  apply requests_for_eq in Hr as (-> & Hc1 & Hm1 & Hl). destruct r as [requests|e]; [|done].
  unfold sync_network at 1. pose proof (Honce x (zip recorders requests)) as Hone.
  destruct (network x _) as [x1 arrivals]. simpl in Hone |- *. rewrite Hc1, Hself.
  pose proof (λ out, collect_quorum_agrees c recorders requests arrivals out Htyped Hwf Hone) as Hagree.
  destruct (collect_quorum _ _ _ _) as [replies|e] eqn:Hcoll.
  - rewrite (proj2 (Hagree replies) eq_refl), after_replies_eq.
    destruct (advance _ _ _ _ _) as [[d'|[step' proposal']]|e]; [| |done].
    + split; [by intros [= <- <- <-]|]. intros Heq.
      rewrite (synchronous_inj _ _ (f_equal (λ p, p.1.1) Heq)).
      pose proof (f_equal (λ p, p.1.2) Heq). pose proof (f_equal snd Heq). simpl in *. congruence.
    + apply IH. congruence.
  - destruct (AsyncProposerCore.collect_quorum _ _ _ _ _) as [[replies|e']|]; [|done..].
    by specialize (proj1 (Hagree replies) eq_refl).
Qed.

(** With recorders for exactly the members, the checks before the loop differ
    in one: the synchronous proposer insists on a majority of the recorders. *)
Definition majority_quorum : Prop :=
  len (ClusterIdentity.members c) / 2 + 1 ≤ ClusterIdentity.quorum_size c.

(** Every stable epoch satisfies it ([stable_majority]); the synchronous proposer
    starts only where it holds. *)
Lemma prepare_majority self value_ids leader recorders quorum (proposal : Proposal.t V) :
  AsyncProposerCore.cluster self = c →
  ProposerCore.prepare (synchronous self) value_ids leader recorders [] = Ok (quorum, proposal) →
  majority_quorum.
Proof.
  intros Hself. unfold ProposerCore.prepare, validate_recorders, quorum_size. simpl. rewrite Hself.
  destruct (len recorders =? 0); [done|]. simpl.
  destruct (first_duplicate [] recorders) eqn:Hd; [done|]. apply first_duplicate_None in Hd as [Hnd _].
  destruct (negb _); [done|]. destruct (negb (bool_decide (_ = list_to_set _))) eqn:Hset; [done|].
  apply negb_false_iff, bool_decide_eq_true in Hset. destruct (negb _); [done|].
  destruct (Z.ltb_spec (ClusterIdentity.quorum_size c) (len recorders / 2 + 1)) as [|Hq]; [done|].
  intros _. unfold majority_quorum. by destruct (recorders_are_members c Hwf recorders Hnd Hset) as [<- _].
Qed.

Lemma prepared_agrees self recorders leader (value_ids : list V) proposal :
  majority_quorum → AsyncProposerCore.cluster self = c →
  (let? _ := AsyncProposerCore.validate_recorders recorders (AsyncProposerCore.replica_id self) c in
   let? _ := match leader with
             | Some leader =>
                 reject negb (ClusterIdentity.contains c leader)
                   with QuePaxaError.UnknownReplica leader ;; Ok tt
             | None => Ok tt
             end in
   Proposal.new (ProposalKey.new Priority.MAX (AsyncProposerCore.replica_id self)
                   (AsyncProposerCore.lane_id self)) value_ids) = Ok proposal ↔
  ProposerCore.prepare (synchronous self) value_ids leader recorders []
    = Ok (ClusterIdentity.quorum_size c, proposal).
Proof.
  intros Hmaj Hself. unfold ProposerCore.prepare. simpl. rewrite Hself.
  destruct (decide (NoDup recorders ∧
      (list_to_set recorders : gset Z) = list_to_set (ClusterIdentity.members c))) as [[Hnd Heq]|Hno].
  - pose proof (recorders_are_members c Hwf recorders Hnd Heq) as [Hlen Hin].
    unfold AsyncProposerCore.validate_recorders, validate_recorders, quorum_size, ClusterIdentity.contains.
    rewrite size_list_to_set by done. unfold len at 1. rewrite Z.eqb_refl, (bool_decide_true (_ = _)) by done.
    rewrite (proj2 (first_duplicate_None [] recorders)) by (split; [done|set_solver]).
    rewrite (bool_decide_ext (_ ∈ recorders) _ (Hin (AsyncProposerCore.replica_id self))).
    pose proof (members_bound c Htyped Hwf) as [Hpos Hle]. unfold majority_quorum in Hmaj.
    rewrite (proj2 (Z.eqb_neq (len recorders) 0)) by lia. rewrite Hlen.
    destruct (bool_decide (_ ∈ ClusterIdentity.members c)); simpl; [|done].
    rewrite (bool_decide_true (Some _ = Some _)) by done. simpl.
    rewrite (proj2 (Z.ltb_ge _ _)), (proj2 (Z.ltb_ge (len (ClusterIdentity.members c)) _)) by lia. simpl.
    assert (∀ k, existsb (λ recorder, recorder =? k) recorders
                 = bool_decide (k ∈ ClusterIdentity.members c)) as Hex.
    { intros k. apply eq_bool_prop_intro. rewrite bool_decide_spec, <-Hin, Is_true_true, existsb_exists.
      split; [intros (r & Hr & ->%Z.eqb_eq); by apply list_elem_of_In|].
      intros Hk. exists k. split; [by apply list_elem_of_In|by apply Z.eqb_eq]. }
    destruct leader as [k|]; [rewrite Hex; destruct (bool_decide _); simpl; [|done]|];
      destruct (Proposal.new _ _); split; by intros [= <-].
  - split.
    + unfold AsyncProposerCore.validate_recorders. destruct (negb _); [done|].
      destruct (Z.eqb_spec (Z.of_nat (size (list_to_set recorders : gset Z))) (len recorders)) as [Hs|];
        simpl; [|done].
      rewrite bool_decide_false; [done|]. intros Heq. apply Hno. split; [|done].
      apply size_list_to_set_NoDup. unfold len in Hs. lia.
    + unfold validate_recorders. destruct (quorum_size _); [|done].
      destruct (first_duplicate [] recorders) eqn:Hd; [done|]. apply first_duplicate_None in Hd as [Hnd _].
      destruct (negb _); [done|]. rewrite (bool_decide_false (_ = list_to_set _)); [done|].
      intros Heq. by apply Hno.
Qed.

(** ** It returns *)

(** Every future completes: the RPC client gives up after its own timeout. *)
Definition all_complete : Prop := ∀ x requests, len (network x requests).2 = len requests.

Lemma collect_returns quorum (replies : list (RecordReply.t V)) seen pending arrivals :
  pending = len arrivals →
  is_Some (AsyncProposerCore.collect quorum c replies seen pending arrivals).
Proof.
  revert replies seen pending.
  induction arrivals as [|[expected [reply|e]] arrivals IH]; intros replies seen pending ->; simpl.
  - by eexists.
  - rewrite len_cons. replace (1 + len arrivals - 1) with (len arrivals) by lia.
    destruct (negb _); [by eexists|]. destruct (negb _); [by eexists|].
    destruct (bool_decide _); [by eexists|].
    destruct (ClusterIdentity.has_quorum _ _); [by eexists|].
    destruct (_ <? quorum); [by eexists|by apply IH].
  - rewrite len_cons. replace (1 + len arrivals - 1) with (len arrivals) by lia.
    assert (is_Some (if len replies + len arrivals <? quorum
              then Some (Err (QuePaxaError.QuorumNotReached quorum (len replies)))
              else AsyncProposerCore.collect quorum c replies seen (len arrivals) arrivals)).
    { destruct (_ <? quorum); [by eexists|by apply IH]. }
    by destruct e.
Qed.

(** An unfinished run of one proposer is an unfinished run of the other. *)
Lemma drive_unfinished fuel self x slot leader recorders step (proposal : Proposal.t V) :
  all_complete → AsyncProposerCore.cluster self = c →
  (AsyncProposerCore.drive network fuel self x slot leader recorders step proposal).2 = None →
  (ProposerCore.drive sync_network fuel (synchronous self) x slot leader recorders
     (ClusterIdentity.quorum_size c) [] step proposal).2 = None.
Proof.
  intros Hall. revert self x step proposal.
  induction fuel as [|fuel IH]; intros self x step proposal Hself; simpl;
    (destruct (_ <? step); [done|]); [done|].
  destruct (AsyncProposerCore.requests_for _ _ _ _ _ _) as [self1 r] eqn:Hr.
  apply requests_for_eq in Hr as (-> & Hc1 & Hm1 & Hl). destruct r as [requests|e]; [|done].
  unfold sync_network at 1. pose proof (Hall x (zip recorders requests)) as Hlen.
  destruct (network x _) as [x1 arrivals]. simpl in Hlen |- *. rewrite Hc1, Hself.
  pose proof (λ out, collect_quorum_agrees c recorders requests arrivals out Htyped Hwf
                       ltac:(lia)) as Hagree.
  destruct (collect_returns (ClusterIdentity.quorum_size c) [] [] _ arrivals (eq_sym Hlen)) as [r Hret].
  unfold AsyncProposerCore.collect_quorum in *. rewrite Hret in *. destruct r as [replies|e]; [|done].
  rewrite (proj1 (Hagree replies) eq_refl), after_replies_eq.
  destruct (advance _ _ _ _ _) as [[d'|[step' proposal']]|e]; [done| |done].
  apply IH. congruence.
Qed.
End cluster.

(** C24: the synchronous proposer decides exactly when the asynchronous one does
    and the membership's quorums are majorities of its members: then in the
    same number of iterations, with the same decision and random draws, whatever
    completes in whatever order. All stable epochs have majority quorums
    ([stable_majority]); a joint epoch need not, and there only the
    asynchronous proposer works ([replacing_a_member_stops_sync_proposer]). What
    is proved of the asynchronous proposer's decisions holds of the synchronous
    one's. *)
Theorem async_decides_like_sync fuel self x slot (value_ids : list V) leader recorders self' x' d :
  cluster_typed (AsyncProposerCore.cluster self) →
  ClusterIdentity.is_well_formed (AsyncProposerCore.cluster self) = true → one_reply_each →
  majority_quorum (AsyncProposerCore.cluster self)
  ∧ AsyncProposerCore.propose network fuel self x slot value_ids leader recorders
    = (self', x', Some (Ok d)) ↔
  ProposerCore.propose sync_network fuel (synchronous self) x slot value_ids leader recorders []
    = (synchronous self', x', Some (Ok d)).
Proof.
  intros Hty Hwf Honce. unfold AsyncProposerCore.propose, ProposerCore.propose.
  destruct (ProposerCore.prepare _ _ _ _ _) as [[quorum proposal]|e] eqn:Hprep.
  - pose proof (prepare_majority _ Hwf self value_ids leader recorders quorum proposal eq_refl Hprep) as Hmaj.
    pose proof (prepare_quorum _ _ _ _ _ _ Hprep) as ->.
    rewrite (proj2 (prepared_agrees _ Hty Hwf self recorders leader value_ids proposal Hmaj eq_refl) Hprep).
    rewrite (drive_agrees _ Hty Hwf) by done. tauto.
  - split; [|done]. intros [Hmaj Ha].
    destruct (let? _ := _ in _) as [proposal|e'] eqn:Hasync; [|done].
    by rewrite (proj1 (prepared_agrees _ Hty Hwf self recorders leader value_ids proposal Hmaj eq_refl) Hasync)
      in Hprep.
Qed.

(** The asynchronous proposer returns: when every RPC completes and
    replies are not behind their requests, [max_steps - 3] iterations suffice
    in every membership, stable or joint. *)
Theorem async_propose_terminates self x slot (value_ids : list V) leader recorders :
  cluster_typed (AsyncProposerCore.cluster self) →
  ClusterIdentity.is_well_formed (AsyncProposerCore.cluster self) = true →
  all_complete → never_behind sync_network →
  is_Some (AsyncProposerCore.propose network
             (Z.to_nat (AsyncProposerCore.max_steps self - 3)) self x slot value_ids leader recorders).2.
Proof.
  intros Hty Hwf Hall Hnet. unfold AsyncProposerCore.propose.
  destruct (let? _ := _ in _) as [proposal|e]; [|by eexists].
  set (fuel := Z.to_nat _).
  pose proof (drive_unfinished _ Hty Hwf fuel self x slot leader recorders Step.ROUND_ONE_PHASE_ZERO
                proposal Hall eq_refl) as Hnone.
  destruct (drive_terminates sync_network (synchronous self) fuel x slot leader recorders
    (ClusterIdentity.quorum_size (AsyncProposerCore.cluster self)) []
    Step.ROUND_ONE_PHASE_ZERO proposal Hnet) as [r Hr].
  { unfold Step.ROUND_ONE_PHASE_ZERO. simpl. lia. }
  destruct (AsyncProposerCore.drive _ _ _ _ _ _ _ _ _).2 as [o|] eqn:Ho; [by eexists|].
  rewrite (Hnone eq_refl) in Hr. done.
Qed.
End decisions.

(** ** Concrete runs *)

Module AsyncRuns.
Definition stable : ClusterIdentity.t := ClusterIdentity.mk [1; 2; 3] 1 0 None.

(** One of three members is replaced. *)
Definition replacing : ClusterIdentity.t :=
  match ClusterIdentity.begin_joint stable [1; 2; 4] 1 with Ok c => c | Err _ => stable end.

(** Recorders that accept the first request they see, of replica 1, and
    answer in the order of their identities. *)
Definition accepting (c : ClusterIdentity.t) (x : unit)
    (requests : list (ReplicaId * RecordRequest.t Z))
    : unit * list (ReplicaId * Result (RecordReply.t Z)) :=
  (x, (λ kr, (kr.1, Ok (RecordReply.mk kr.1 c
         (RecordSummary.mk (RecordRequest.step kr.2) (Some (RecordRequest.proposal kr.2)) None)
         None))) <$> requests).

Definition async_leader (c : ClusterIdentity.t) : AsyncProposerCore.t XorShift64.t :=
  AsyncProposerCore.with_rng 1 0 c (XorShift64.new 7).

Definition decided : Decision.t Z := Decision.mk 5 [11] 1 4.

(** The synchronous proposer cannot work while one of three members is
    replaced. Quorums of that joint epoch may have two voters, [propose]
    demands a majority of the four recorders, and so every call is refused
    with [InvalidQuorum] before a request is sent, by every member, whatever
    it proposes; the asynchronous proposer of the same membership decides. *)
Theorem replacing_a_member_stops_sync_proposer :
  ClusterIdentity.begin_joint stable [1; 2; 4] 1 = Ok replacing
  ∧ Forall (λ id,
       ∀ (X : Type) (network : X → list (ReplicaId * RecordRequest.t Z) → X * phase_io Z)
         fuel lane rng x slot value_ids leader known,
       (ProposerCore.propose network fuel
          (ProposerCore.with_cluster (ProposerCore.with_rng (R:=XorShift64.t) id lane rng) replacing)
          x slot value_ids leader [1; 2; 3; 4] known).2
       = Some (Err (QuePaxaError.InvalidQuorum 4 2))) (ClusterIdentity.members replacing)
  ∧ (AsyncProposerCore.propose (accepting replacing) 1 (async_leader replacing) tt 5 [11] (Some 1)
       [1; 2; 3; 4]).2 = Some (Ok decided).
Proof.
  split; [vm_compute; reflexivity|]. split; [|vm_compute; reflexivity].
  apply Forall_forall. intros id Hid X network fuel lane rng x slot value_ids leader known.
  unfold ProposerCore.propose, ProposerCore.prepare.
  assert (validate_recorders [1; 2; 3; 4] id (Some (ClusterIdentity.quorum_size replacing))
            (Some replacing) = Err (QuePaxaError.InvalidQuorum 4 2)) as Hv.
  { change (ClusterIdentity.members replacing) with [1; 2; 3; 4] in Hid.
    repeat (apply elem_of_cons in Hid as [->|Hid]; [vm_compute; reflexivity|]).
    by apply not_elem_of_nil in Hid. }
  cbn [ProposerCore.with_cluster ProposerCore.configure_cluster ProposerCore.with_config
       ProposerCore.config ProposerCore.replica_id ProposerCore.with_rng ProposerConfig.quorum
       ProposerConfig.cluster]. by rewrite Hv.
Qed.

Lemma accepting_once c : one_reply_each (accepting c).
Proof. intros x requests. unfold accepting, len. simpl. by rewrite length_fmap. Qed.

Lemma async_decides_like_sync_witness :
  ProposerCore.propose (sync_network (accepting stable)) 1 (synchronous (async_leader stable)) tt 5 [11]
    (Some 1) [1; 2; 3] []
  = (synchronous (async_leader stable), tt, Some (Ok decided)).
Proof.
  refine (proj1 (async_decides_like_sync (accepting stable) 1 (async_leader stable) tt 5 [11] (Some 1)
            [1; 2; 3] (async_leader stable) tt decided _ _ _) _).
  - apply (bool_decide_eq_true_1 _). vm_compute. reflexivity.
  - vm_compute. reflexivity.
  - apply accepting_once.
  - split; [vm_compute; discriminate|vm_compute; reflexivity].
Defined.

Lemma async_propose_terminates_witness :
  is_Some (AsyncProposerCore.propose (accepting stable) 1024 (async_leader stable) tt 5 [11] (Some 1)
             [1; 2; 3]).2.
Proof.
  refine (async_propose_terminates (accepting stable) (async_leader stable) tt 5 [11] (Some 1)
            [1; 2; 3] _ _ _ _).
  - apply (bool_decide_eq_true_1 _). vm_compute. reflexivity.
  - vm_compute. reflexivity.
  - intros x requests. unfold accepting, len. simpl. by rewrite length_fmap.
  - intros x requests k reply Hin. simpl in Hin. unfold sync_events in Hin.
    apply list_elem_of_fmap in Hin as ([k' r] & [= -> <-] & Hin).
    apply list_elem_of_fmap in Hin as ([k'' req] & [= -> ->] & Hin).
    exists req. split; [done|]. simpl. unfold reply_step. simpl. lia.
Defined.
End AsyncRuns.
