(* ===== verification/SharedStore.v ===== *)
(** * Stores and clients behind a lock

  The [Arc<Mutex<S>>] instances of the recorder's and the runtime's store
  (src/recorder.rs, src/runtime.rs), the lock around a recorder's client
  (src/proposer.rs), the tasks the node runtime loads its store in
  (src/network/node_runtime.rs) and the proposers that seed their own
  generator. A lock is poisoned when a thread panicked while it held it, and
  every later call reports that. A shared store keeps the laws of the store
  behind the lock. *)
From S2P Require Import Prelude Errors Types Membership Isr Recorder Durable Proposer Policy Schedule Runtime AsyncProposer.

Module Mutex.
Record t {A : Type} : Type := mk { poisoned : bool; guarded : A }.
Arguments t : clear implicits.
Arguments mk {A}.
Definition new {A} (a : A) : t A := mk false a.

(** [lock().map_err(..)?] and an operation on what it guards. *)
Definition with_lock {A B} (poison : QuePaxaError.t) (self : t A) (op : A → A * Result B)
    : t A * Result B :=
  if poisoned self then (self, Err poison) else
  let '(a, r) := op (guarded self) in (mk false a, r).
End Mutex.

Module SharedRecorderStore.
Section store.
Context {V S : Type} `{!RecorderStateStore V S}.
Definition poison : QuePaxaError.t :=
  QuePaxaError.StorageError "recorder state store lock was poisoned".
Definition load (self : Mutex.t S) : Mutex.t S * Result (option (RecorderSnapshot.t V)) :=
  Mutex.with_lock poison self store_load.
Definition save (self : Mutex.t S) (snapshot : RecorderSnapshot.t V) : Mutex.t S * Result unit :=
  Mutex.with_lock poison self (λ s, store_save s snapshot).
End store.
End SharedRecorderStore.

Module SharedRuntimeStore.
Section store.
Context {V S : Type} `{Countable V} `{!RuntimeStateStore V S}.
Definition poison : QuePaxaError.t :=
  QuePaxaError.StorageError "runtime state store lock was poisoned".
Definition load (self : Mutex.t S) : Mutex.t S * Result (option (RuntimeSnapshot.t V)) :=
  Mutex.with_lock poison self runtime_load.
Definition save (self : Mutex.t S) (snapshot : RuntimeSnapshot.t V) : Mutex.t S * Result unit :=
  Mutex.with_lock poison self (λ s, runtime_save s snapshot).

(** How a [spawn_blocking] task ends; one that panics leaves the store in some
    state, poisoned when it held the lock. *)
Inductive task : Type := Finished | Died (error : string) (store : Mutex.t S).

Definition load_store (store : Mutex.t S) (end_of : task)
    : Mutex.t S * Result (option (RuntimeSnapshot.t V)) :=
  match end_of with
  | Finished =>
      Mutex.with_lock (QuePaxaError.StorageError "runtime store lock was poisoned") store runtime_load
  | Died error store => (store, Err (QuePaxaError.StorageError ("runtime load task failed: " +:+ error)))
  end.
End store.
End SharedRuntimeStore.

#[global] Instance shared_recorder_store {V S} `{!RecorderStateStore V S}
  : RecorderStateStore V (Mutex.t S) :=
  {| store_load := SharedRecorderStore.load; store_save := SharedRecorderStore.save |}.

#[global] Instance shared_runtime_store {V S} `{Countable V} `{!RuntimeStateStore V S}
  : RuntimeStateStore V (Mutex.t S) :=
  {| runtime_load := SharedRuntimeStore.load; runtime_save := SharedRuntimeStore.save |}.

(** [RecorderHandle::with_client]. *)
Definition with_client {C T} (client : Mutex.t C) (operation : C → C * T) : Mutex.t C * Result T :=
  Mutex.with_lock (QuePaxaError.TransportError "recorder client lock was poisoned") client
    (λ c, let '(c, t) := operation c in (c, Ok t)).

(** The methods of [RecorderClient] an implementation may leave out. *)
Definition default_inform_decisions {V C} (self : C) (decisions : list (Decision.t V)) : C * Result unit :=
  (self, Ok tt).
Definition default_client_status {C} (self : C) (slot : SlotIndex) : C * Result (option Z) :=
  (self, Ok None).
Definition default_install_membership {V C} (self : C) (change : MembershipChange.t V) : C * Result unit :=
  (self, Err (QuePaxaError.InvalidReconfiguration "recorder client does not support membership changes")).

(** ** Proposers with the generator of the operating system *)

(** [OsRandom::new]: what opening /dev/urandom gave. *)
Definition os_random (source : OsRandom.t + string) : Result OsRandom.t :=
  match source with
  | inl draws => Ok draws
  | inr error => Err (QuePaxaError.TransportError ("OS randomness unavailable: " +:+ error))
  end.

Definition new_proposer (replica_id : ReplicaId) (lane_id : LaneId) (source : OsRandom.t + string)
    : Result (ProposerCore.t OsRandom.t) :=
  let? rng := os_random source in
  Ok (ProposerCore.with_rng replica_id lane_id rng).

Definition new_async_proposer (replica_id : ReplicaId) (lane_id : LaneId) (cluster : ClusterIdentity.t)
    (source : OsRandom.t + string) : Result (AsyncProposerCore.t OsRandom.t) :=
  let? rng := os_random source in
  Ok (AsyncProposerCore.with_rng replica_id lane_id cluster rng).

(** ** Laws *)

(** An operation under an unpoisoned lock is the operation. *)
Lemma with_lock_Ok {A B} poison (self self' : Mutex.t A) (op : A → A * Result B) b :
  Mutex.with_lock poison self op = (self', Ok b) →
  op (Mutex.guarded self) = (Mutex.guarded self', Ok b) ∧ Mutex.poisoned self = false.
Proof.
  unfold Mutex.with_lock. destruct (Mutex.poisoned self); [done|].
  destruct (op _) as [a r]. by intros [= <- ->].
Qed.

Lemma with_lock_Err {A B} poison (self self' : Mutex.t A) (op : A → A * Result B) e :
  Mutex.with_lock poison self op = (self', Err e) →
  self' = self ∨ op (Mutex.guarded self) = (Mutex.guarded self', Err e).
Proof.
  unfold Mutex.with_lock. destruct (Mutex.poisoned self); [intros [= <- _]; by left|].
  destruct (op _) as [a r]. intros [= <- ->]. by right.
Qed.

(** Sharing keeps the laws: what a restart finds through any handle is what
    the store holds. *)
Lemma shared_recorder_store_laws {V S} `{!RecorderStateStore V S} content :
  RecorderStateStoreLaws V S content →
  RecorderStateStoreLaws V (Mutex.t S) (λ self, content (Mutex.guarded self)).
Proof.
  intros Hlaws. constructor; simpl.
  - intros s s' o [Hl _]%with_lock_Ok. by eapply store_load_content.
  - intros s s' snap [Hs _]%with_lock_Ok. by eapply (store_save_Ok (content:=content)).
  - intros s s' snap e [->|Hs]%with_lock_Err; [by left|]. by eapply store_save_Err.
Qed.

Lemma shared_runtime_store_laws {V S} `{Countable V} `{!RuntimeStateStore V S} content :
  RuntimeStateStoreLaws V S content →
  RuntimeStateStoreLaws V (Mutex.t S) (λ self, content (Mutex.guarded self)).
Proof.
  intros Hlaws. constructor; simpl.
  - intros s s' o [Hl _]%with_lock_Ok. by eapply runtime_load_content.
  - intros s s' snap [Hs _]%with_lock_Ok. by eapply (runtime_save_Ok (content:=content)).
  - intros s s' snap e [->|Hs]%with_lock_Err; [by left|]. by eapply runtime_save_Err.
Qed.
