(* ===== verification/Metrics.v ===== *)
(** * Metrics (src/network/metrics.rs)

  Counters that requests bump with relaxed atomics. Every counter is a [u64]
  that wraps; the order in which concurrent requests bump them does not show
  in the totals. *)
From S2P Require Import Prelude.

Module NetworkMetrics.
Record t : Type := mk {
  accepted_connections : Z;
  authentication_failures : Z;
  requests : Z;
  request_errors : Z;
  bytes_received : Z;
  bytes_sent : Z;
  cancelled_after_quorum : Z;
}.

Definition default : t := mk 0 0 0 0 0 0 0.

(** [AtomicU64::fetch_add] wraps around. *)
Definition fetch_add (counter n : Z) : Z := (counter + n) mod U64.modulus.

Definition connection_accepted (self : t) : t :=
  mk (fetch_add (accepted_connections self) 1) (authentication_failures self) (requests self)
     (request_errors self) (bytes_received self) (bytes_sent self) (cancelled_after_quorum self).
Definition authentication_failed (self : t) : t :=
  mk (accepted_connections self) (fetch_add (authentication_failures self) 1) (requests self)
     (request_errors self) (bytes_received self) (bytes_sent self) (cancelled_after_quorum self).
Definition request_received (self : t) (bytes : Z) : t :=
  mk (accepted_connections self) (authentication_failures self) (fetch_add (requests self) 1)
     (request_errors self) (fetch_add (bytes_received self) bytes) (bytes_sent self)
     (cancelled_after_quorum self).
Definition response_sent (self : t) (bytes : Z) : t :=
  mk (accepted_connections self) (authentication_failures self) (requests self)
     (request_errors self) (bytes_received self) (fetch_add (bytes_sent self) bytes)
     (cancelled_after_quorum self).
Definition request_failed (self : t) : t :=
  mk (accepted_connections self) (authentication_failures self) (requests self)
     (fetch_add (request_errors self) 1) (bytes_received self) (bytes_sent self)
     (cancelled_after_quorum self).
Definition quorum_cancelled (self : t) (count : Z) : t :=
  mk (accepted_connections self) (authentication_failures self) (requests self)
     (request_errors self) (bytes_received self) (bytes_sent self)
     (fetch_add (cancelled_after_quorum self) count).

(** The counters, loaded one after the other. *)
Definition snapshot (self : t) : t := self.

(** What a request may do to the counters. *)
Inductive event : Type :=
| Accepted | Unauthenticated | Received (bytes : Z) | Sent (bytes : Z) | Failed | Cancelled (count : Z).

Definition apply (self : t) (e : event) : t :=
  match e with
  | Accepted => connection_accepted self
  | Unauthenticated => authentication_failed self
  | Received bytes => request_received self bytes
  | Sent bytes => response_sent self bytes
  | Failed => request_failed self
  | Cancelled count => quorum_cancelled self count
  end.
End NetworkMetrics.

Lemma fetch_add_comm c m n :
  NetworkMetrics.fetch_add (NetworkMetrics.fetch_add c m) n
  = NetworkMetrics.fetch_add (NetworkMetrics.fetch_add c n) m.
Proof.
  unfold NetworkMetrics.fetch_add. rewrite !Z.add_mod_idemp_l by done. f_equal. lia.
Qed.

Lemma apply_comm s e e' :
  NetworkMetrics.apply (NetworkMetrics.apply s e) e' = NetworkMetrics.apply (NetworkMetrics.apply s e') e.
Proof.
  destruct s, e, e'; unfold NetworkMetrics.apply, NetworkMetrics.connection_accepted,
    NetworkMetrics.authentication_failed, NetworkMetrics.request_received, NetworkMetrics.response_sent,
    NetworkMetrics.request_failed, NetworkMetrics.quorum_cancelled; simpl; f_equal; apply fetch_add_comm.
Qed.

(** Concurrent requests leave the same totals in whatever order their
    increments land. *)
Lemma metrics_order_irrelevant s events events' :
  events ≡ₚ events' → fold_left NetworkMetrics.apply events s = fold_left NetworkMetrics.apply events' s.
Proof.
  intros Hp. revert s. induction Hp as [|e l l' _ IH|e e' l|l l' l'' _ IH1 _ IH2]; intros s; simpl.
  - done.
  - apply IH.
  - by rewrite apply_comm.
  - by rewrite IH1.
Qed.
