(* ===== verification/Transport.v ===== *)
(** * Frames, remote errors and the mTLS clients (src/network/transport.rs)

  What the clients and the server put on a connection: length-prefixed frames,
  requests and responses matched by version, deployment and request ID, and
  errors that cross the wire as codes. The connection itself, TCP and TLS, is
  an argument of each call: whether it comes up, which certificate the peer
  presented, what it answers to the bytes it is sent, and whether the call
  timed out. The counters are in [Metrics]. *)
From S2P Require Import Prelude Errors Types Membership Recorder Proposer Durable Runtime Codec.
From S2P Require Import Batch Wire.

Definition DEFAULT_MAX_FRAME : Z := 8 * 1024 * 1024.
Definition DEFAULT_RPC_TIMEOUT : Z := 30 * 1000000000.
Definition u32_max : Z := 4294967295.

(** ** Frames *)

(** [write_u32] and [read_u32] of tokio: reading what was written gives the
    number and what follows. *)
Class U32Stream : Type := {
  put_u32 : Z → list Z;
  get_u32 : list Z → option (Z * list Z);
}.
Class U32StreamLaws `{!U32Stream} : Prop :=
  get_put_u32 : ∀ n rest, 0 ≤ n ≤ u32_max → get_u32 (put_u32 n ++ rest) = Some (n, rest).

(** [map_err(|error| TransportError(format!("<what>: {error}")))]. *)
Definition transport_err {A} (what : string) (r : result string A) : Result A :=
  match r with
  | Ok a => Ok a
  | Err error => Err (QuePaxaError.TransportError (what +:+ ": " +:+ error))
  end.

(** The outcomes of the three writes of one frame, and how much of the body
    was taken when the second fails. *)
Record write_io : Type := WriteIo {
  length_failure : option string;
  body_failure : option string;
  body_taken : nat;
  flush_failure : option string;
}.
Definition write_success : write_io := WriteIo None None 0 None.

Section frames.
Context `{!U32Stream} {T : Type} `{!Postcard T}.

Definition frame_size_error (length : Z) : QuePaxaError.t :=
  QuePaxaError.TransportError
    ("network frame size " +:+ pretty length +:+ " is outside the accepted range").

(** What reaches the connection, and the answer. *)
Definition write_frame (value : T) (max_frame : Z) (io : write_io) : list Z * Result Z :=
  match transport_err "could not encode network frame" (to_allocvec value) with
  | Err e => ([], Err e)
  | Ok bytes =>
      if is_empty bytes || (max_frame <? len bytes) || (u32_max <? len bytes)
      then ([], Err (frame_size_error (len bytes)))
      else match length_failure io with
      | Some error => ([], Err (QuePaxaError.TransportError
                                  ("could not write frame length: " +:+ error)))
      | None =>
      match body_failure io with
      | Some error => (put_u32 (len bytes) ++ take (body_taken io) bytes,
                       Err (QuePaxaError.TransportError
                              ("could not write frame body: " +:+ error)))
      | None =>
      match flush_failure io with
      | Some error => (put_u32 (len bytes) ++ bytes,
                       Err (QuePaxaError.TransportError ("could not flush frame: " +:+ error)))
      | None => (put_u32 (len bytes) ++ bytes, Ok (len bytes + 4))
      end
      end
      end
  end.

(** The bytes still to read, and the value; [eof] is the operating system's
    text for a connection that ends early. *)
Definition read_frame (max_frame : Z) (eof : string) (stream : list Z) : list Z * Result T :=
  match get_u32 stream with
  | None => ([], Err (QuePaxaError.TransportError ("could not read frame length: " +:+ eof)))
  | Some (length, rest) =>
      if (length =? 0) || (max_frame <? length) then (rest, Err (frame_size_error length))
      else if len rest <? length
      then ([], Err (QuePaxaError.TransportError ("could not read frame body: " +:+ eof)))
      else (drop (Z.to_nat length) rest,
            transport_err "could not decode network frame"
              (from_bytes (take (Z.to_nat length) rest)))
  end.

Context `{!U32StreamLaws, !PostcardLaws T}.

Lemma write_frame_Ok value max_frame io sent n :
  write_frame value max_frame io = (sent, Ok n) →
  ∃ bytes, to_allocvec value = Ok bytes ∧ sent = put_u32 (len bytes) ++ bytes
    ∧ n = len bytes + 4 ∧ 0 < len bytes ∧ len bytes ≤ max_frame ∧ len bytes ≤ u32_max.
Proof.
  unfold write_frame. destruct (to_allocvec value) as [bytes|] eqn:Hb; simpl; [|done].
  destruct (is_empty bytes) eqn:He; simpl; [done|].
  destruct (Z.ltb_spec max_frame (len bytes)); simpl; [done|].
  destruct (Z.ltb_spec u32_max (len bytes)); [done|].
  destruct (length_failure io), (body_failure io), (flush_failure io); try done.
  intros [= <- <-]. exists bytes. apply is_empty_false in He. split_and!; try done.
  destruct bytes; [done|]. rewrite len_cons. pose proof (len_nonneg bytes). lia.
Qed.

Lemma read_written value max_frame limit io sent n eof rest :
  write_frame value max_frame io = (sent, Ok n) → max_frame ≤ limit →
  read_frame limit eof (sent ++ rest) = (rest, Ok value).
Proof.
  intros (bytes & Hb & -> & _ & Hpos & Hmax & Hu)%write_frame_Ok Hlim. unfold read_frame.
  rewrite <-app_assoc, get_put_u32 by lia.
  rewrite (proj2 (Z.eqb_neq _ _)), (proj2 (Z.ltb_ge _ _)) by lia. simpl.
  rewrite len_app. pose proof (len_nonneg rest).
  rewrite (proj2 (Z.ltb_ge _ _)) by lia. unfold len. rewrite Nat2Z.id.
  rewrite take_app_length, drop_app_length. by rewrite (from_to_allocvec _ _ Hb).
Qed.

(** Frames written one after the other, in order, to one connection. *)
Fixpoint write_frames (max_frame : Z) (values : list T) : list Z * Result unit :=
  match values with
  | [] => ([], Ok tt)
  | value :: values =>
      match write_frame value max_frame write_success with
      | (sent, Err e) => (sent, Err e)
      | (sent, Ok _) => let '(more, r) := write_frames max_frame values in (sent ++ more, r)
      end
  end.
Fixpoint read_frames (max_frame : Z) (eof : string) (count : nat) (stream : list Z)
    : list Z * Result (list T) :=
  match count with
  | O => (stream, Ok [])
  | S count =>
      match read_frame max_frame eof stream with
      | (rest, Err e) => (rest, Err e)
      | (rest, Ok value) =>
          let '(rest, r) := read_frames max_frame eof count rest in
          (rest, let? values := r in Ok (value :: values))
      end
  end.

(** Frames keep their boundaries: any number of values written one after
    the other is read back, value by value, by a reader whose limit is at
    least the writer's, and the bytes behind them are left untouched. *)
Theorem frames_roundtrip max_frame limit eof values sent rest :
  write_frames max_frame values = (sent, Ok tt) → max_frame ≤ limit →
  read_frames limit eof (length values) (sent ++ rest) = (rest, Ok values).
Proof.
  intros Hw Hlim. revert sent Hw. induction values as [|value values IH]; intros sent; simpl.
  - by intros [= <-].
  - destruct (write_frame value max_frame write_success) as [s1 [n|e]] eqn:H1; [|done].
    destruct (write_frames max_frame values) as [more r]. intros [= <- ->].
    rewrite <-app_assoc, (read_written _ _ _ _ _ _ eof (more ++ rest) H1 Hlim).
    by rewrite (IH more eq_refl).
Qed.
End frames.

(** ** Errors over the wire *)

(** [error_to_wire] of src/network/server.rs. *)
Definition wire_code (error : QuePaxaError.t) : WireErrorCode.t :=
  match error with
  | QuePaxaError.InvalidSender _ | QuePaxaError.InvalidRecorderReply _ _
  | QuePaxaError.DuplicateRecorderReply _ => WireErrorCode.Authentication
  | QuePaxaError.ConfigurationMismatch | QuePaxaError.InvalidReconfiguration _
  | QuePaxaError.ConfigurationEpochOverflow | QuePaxaError.InvalidQuorum _ _
  | QuePaxaError.UnknownReplica _ => WireErrorCode.Configuration
  | QuePaxaError.ResourceLimit _ _ | QuePaxaError.StepLimitExceeded _ =>
      WireErrorCode.ResourceLimit
  | QuePaxaError.StorageError _ => WireErrorCode.Storage
  | QuePaxaError.TransportError _ | QuePaxaError.QuorumNotReached _ _ =>
      WireErrorCode.Unavailable
  | QuePaxaError.ConflictingDecision _ => WireErrorCode.Conflict
  | QuePaxaError.ScheduleMismatch _ => WireErrorCode.ScheduleMismatch
  | QuePaxaError.SlotPruned _ => WireErrorCode.Pruned
  | QuePaxaError.EmptyCluster | QuePaxaError.EmptyProposal | QuePaxaError.EmptyDecision
  | QuePaxaError.MissingProposal | QuePaxaError.MissingValue | QuePaxaError.DuplicateReplica _
  | QuePaxaError.InvalidStep _ _ | QuePaxaError.InvalidProposal _
  | QuePaxaError.SlotAlreadyDecided _ => WireErrorCode.InvalidRequest
  | QuePaxaError.StepOverflow | QuePaxaError.SlotOverflow | QuePaxaError.PolicyError _ =>
      WireErrorCode.Internal
  end.

Definition error_to_wire (error : QuePaxaError.t) : WireError.t :=
  WireError.mk (wire_code error) (QuePaxaError.fmt error).

(** [{:?}] of a code. *)
Definition debug_code (code : WireErrorCode.t) : string :=
  match code with
  | WireErrorCode.Authentication => "Authentication"
  | WireErrorCode.Configuration => "Configuration"
  | WireErrorCode.InvalidRequest => "InvalidRequest"
  | WireErrorCode.ResourceLimit => "ResourceLimit"
  | WireErrorCode.Storage => "Storage"
  | WireErrorCode.Unavailable => "Unavailable"
  | WireErrorCode.Internal => "Internal"
  | WireErrorCode.Conflict => "Conflict"
  | WireErrorCode.ScheduleMismatch => "ScheduleMismatch"
  | WireErrorCode.Pruned => "Pruned"
  end.

Definition wire_error_to_local (error : WireError.t) (slot : option SlotIndex) : QuePaxaError.t :=
  match WireError.code error, slot with
  | WireErrorCode.Conflict, Some slot => QuePaxaError.ConflictingDecision slot
  | WireErrorCode.ScheduleMismatch, Some slot => QuePaxaError.ScheduleMismatch slot
  | WireErrorCode.Pruned, Some slot => QuePaxaError.SlotPruned slot
  | code, _ => QuePaxaError.TransportError
                 ("remote node rejected request (" +:+ debug_code code +:+ "): "
                  +:+ WireError.message error)
  end.

(** The error a client of the slot's recorder sees. *)
Definition remote_error (slot : SlotIndex) (error : QuePaxaError.t) : QuePaxaError.t :=
  wire_error_to_local (error_to_wire error) (Some slot).

(** The safety signals survive the wire: a remote conflict, schedule
    mismatch or pruned slot of the requested slot arrives as itself, and no
    other error arrives as a signal that stops a proposer. The one signal that
    does not survive is a configuration mismatch, which a local recorder stops
    the proposer with and a remote one does not. *)
Theorem remote_safety_signals slot error :
  (error = QuePaxaError.ConflictingDecision slot ∨ error = QuePaxaError.ScheduleMismatch slot
     ∨ error = QuePaxaError.SlotPruned slot → remote_error slot error = error)
  ∧ (is_fatal (remote_error slot error) = true ↔
     is_fatal error = true ∧ error ≠ QuePaxaError.ConfigurationMismatch).
Proof.
  split; [by intros [->|[->| ->]]|].
  destruct error; simpl; naive_solver.
Qed.

(** ** Calls *)

(** The text [Display] gives an address is the address. *)
Module TlsRpcClient.
Record t : Type := mk {
  deployment : DeploymentId;
  sender : PeerSender.t;
  address : string;
  server_name : string;
  expected_peer_certificate : list Z;
  next_request_id : Z;
  max_frame : Z;
  rpc_timeout : Z;
}.

(** What the connection of one call does. *)
Record connection : Type := Connection {
  connect_error : option string;
  server_name_error : option string;
  tls_error : option string;
  peer_certificates : option (list (list Z));
  sending : write_io;
  answers : list Z → list Z;
  eof : string;
  times_out : bool;
}.

Definition advance_id (self : t) : t :=
  mk (deployment self) (sender self) (address self) (server_name self)
     (expected_peer_certificate self) ((next_request_id self + 1) mod U64.modulus)
     (max_frame self) (rpc_timeout self).

Definition fails (what : string) (error : option string) : Result unit :=
  match error with
  | Some error => Err (QuePaxaError.TransportError (what +:+ ": " +:+ error))
  | None => Ok tt
  end.

Section call.
Context `{!U32Stream} {V : Type} `{!Postcard (NodeRequest.t V), !Postcard (NodeResponse.t V)}.
Implicit Types self : t.

Definition request_of self (body : RequestBody.t V) : NodeRequest.t V :=
  NodeRequest.mk WIRE_VERSION (deployment self) (next_request_id self) (sender self) body.

Definition call_inner self (body : RequestBody.t V) (conn : connection)
    : Result (ResponseBody.t V) :=
  let request_id := next_request_id self in
  let? _ := fails ("could not connect to recorder " +:+ address self) (connect_error conn) in
  let? _ := fails "invalid TLS server name" (server_name_error conn) in
  let? _ := fails "TLS connection failed" (tls_error conn) in
  let? peer_certificate :=
    ok_or (peer_certificates conn ≫= head)
          (QuePaxaError.TransportError "TLS peer did not present a certificate") in
  reject negb (bool_decide (peer_certificate = expected_peer_certificate self))
    with QuePaxaError.TransportError
           "TLS peer certificate does not match the configured recorder" ;;
  let '(sent, written) := write_frame (request_of self body) (max_frame self) (sending conn) in
  let? _ := written in
  let? response := (read_frame (T:=NodeResponse.t V) (max_frame self) (eof conn)
                      (answers conn sent)).2 in
  reject negb (NodeResponse.version response =? WIRE_VERSION)
      || negb (bool_decide (NodeResponse.deployment response = deployment self))
      || negb (NodeResponse.request_id response =? request_id)
    with QuePaxaError.TransportError "network response envelope does not match the request" ;;
  Ok (NodeResponse.body response).

(** The request ID is drawn before anything can fail or time out. *)
Definition call self (body : RequestBody.t V) (conn : connection)
    : t * Result (ResponseBody.t V) :=
  (advance_id self,
   if times_out conn
   then Err (QuePaxaError.TransportError
               ("recorder RPC to " +:+ address self +:+ " exceeded the transport timeout"))
   else call_inner self body conn).
End call.
End TlsRpcClient.

(** ** The recorder client *)

Definition unexpected (what : string) : QuePaxaError.t :=
  QuePaxaError.TransportError ("recorder returned an unexpected " +:+ what).

Module TlsRecorderClient.
Record t : Type := mk { recorder_id : ReplicaId; rpc : TlsRpcClient.t }.

Definition new (local_replica recorder_id : ReplicaId) (deployment : DeploymentId)
    (address server_name : string) (expected_peer_certificate : list Z) : t :=
  mk recorder_id (TlsRpcClient.mk deployment (PeerSender.Replica local_replica) address server_name
                    expected_peer_certificate 1 DEFAULT_MAX_FRAME DEFAULT_RPC_TIMEOUT).

Definition with_max_frame (self : t) (max_frame : Z) : t :=
  mk (recorder_id self)
     (TlsRpcClient.mk (TlsRpcClient.deployment (rpc self)) (TlsRpcClient.sender (rpc self))
        (TlsRpcClient.address (rpc self)) (TlsRpcClient.server_name (rpc self))
        (TlsRpcClient.expected_peer_certificate (rpc self))
        (TlsRpcClient.next_request_id (rpc self)) max_frame (TlsRpcClient.rpc_timeout (rpc self))).
Definition with_rpc_timeout (self : t) (timeout : Z) : t :=
  mk (recorder_id self)
     (TlsRpcClient.mk (TlsRpcClient.deployment (rpc self)) (TlsRpcClient.sender (rpc self))
        (TlsRpcClient.address (rpc self)) (TlsRpcClient.server_name (rpc self))
        (TlsRpcClient.expected_peer_certificate (rpc self))
        (TlsRpcClient.next_request_id (rpc self)) (TlsRpcClient.max_frame (rpc self)) timeout).

Section ops.
Context `{!U32Stream} {V : Type} `{!Postcard (NodeRequest.t V), !Postcard (NodeResponse.t V)}.
Implicit Types self : t.

(** One call, and what is made of the body. *)
Definition ask {A} self (body : RequestBody.t V) (conn : TlsRpcClient.connection)
    (answer : ResponseBody.t V → Result A) : t * Result A :=
  let '(rpc', r) := TlsRpcClient.call (rpc self) body conn in
  (mk (recorder_id self) rpc', let? body := r in answer body).

Definition record self (request : RecordRequest.t V) (conn : TlsRpcClient.connection)
    : t * Result (RecordReply.t V) :=
  let slot := RecordRequest.slot request in
  ask self (RequestBody.Record request) conn (λ body,
    match body with
    | ResponseBody.Record reply => Ok reply
    | ResponseBody.Error error => Err (wire_error_to_local error (Some slot))
    | _ => Err (unexpected "response type")
    end).

Definition inform_decisions self (decisions : list (Decision.t V))
    (conn : TlsRpcClient.connection) : t * Result unit :=
  let slot := Decision.slot <$> head decisions in
  ask self (RequestBody.InformDecisions decisions) conn (λ body,
    match body with
    | ResponseBody.Ack => Ok tt
    | ResponseBody.Error error => Err (wire_error_to_local error slot)
    | _ => Err (unexpected "decision acknowledgement")
    end).

Definition status self (slot : SlotIndex) (conn : TlsRpcClient.connection)
    : t * Result (option Z) :=
  ask self (RequestBody.Status slot) conn (λ body,
    match body with
    | ResponseBody.Status step => Ok step
    | ResponseBody.Error error => Err (wire_error_to_local error (Some slot))
    | _ => Err (unexpected "status response")
    end).

Definition install_membership self (change : MembershipChange.t V)
    (conn : TlsRpcClient.connection) : t * Result unit :=
  let slot := Decision.slot (MembershipChange.anchor change) in
  ask self (RequestBody.InstallMembership change) conn (λ body,
    match body with
    | ResponseBody.Ack => Ok tt
    | ResponseBody.Error error => Err (wire_error_to_local error (Some slot))
    | _ => Err (unexpected "membership acknowledgement")
    end).

Definition ping self (conn : TlsRpcClient.connection) : t * Result unit :=
  ask self RequestBody.Ping conn (λ body,
    match body with
    | ResponseBody.Pong => Ok tt
    | ResponseBody.Error error => Err (wire_error_to_local error None)
    | _ => Err (QuePaxaError.TransportError "node returned an unexpected health response")
    end).
End ops.
End TlsRecorderClient.

(** ** The batch and submission clients *)

Module TlsBatchClient.
Record t : Type := mk { rpc : TlsRpcClient.t }.

Definition new (sender : PeerSender.t) (deployment : DeploymentId) (address server_name : string)
    (expected_peer_certificate : list Z) : t :=
  mk (TlsRpcClient.mk deployment sender address server_name expected_peer_certificate 1
        DEFAULT_MAX_FRAME DEFAULT_RPC_TIMEOUT).
Definition for_replica (local_replica : ReplicaId) : DeploymentId → string → string → list Z → t :=
  new (PeerSender.Replica local_replica).
Definition for_client (client_id : list Z) : DeploymentId → string → string → list Z → t :=
  new (PeerSender.Client client_id).

Definition set_limits (self : t) (max_frame rpc_timeout : Z) : t :=
  mk (TlsRpcClient.mk (TlsRpcClient.deployment (rpc self)) (TlsRpcClient.sender (rpc self))
        (TlsRpcClient.address (rpc self)) (TlsRpcClient.server_name (rpc self))
        (TlsRpcClient.expected_peer_certificate (rpc self))
        (TlsRpcClient.next_request_id (rpc self)) max_frame rpc_timeout).
Definition with_max_frame (self : t) (max_frame : Z) : t :=
  set_limits self max_frame (TlsRpcClient.rpc_timeout (rpc self)).
(** At least one millisecond. *)
Definition with_rpc_timeout (self : t) (timeout : Z) : t :=
  set_limits self (TlsRpcClient.max_frame (rpc self)) (Z.max timeout 1000000).

Section ops.
Context `{!U32Stream} {V : Type} `{!Postcard (NodeRequest.t V), !Postcard (NodeResponse.t V)}.
Implicit Types self : t.

Definition publish self (batches : list (Batch.t V)) (conn : TlsRpcClient.connection)
    : t * Result unit :=
  let '(rpc', r) := TlsRpcClient.call (rpc self) (RequestBody.PublishBatches batches) conn in
  (mk rpc',
   let? body := r in
   match body with
   | ResponseBody.Ack => Ok tt
   | ResponseBody.Error error => Err (wire_error_to_local error None)
   | _ => Err (QuePaxaError.TransportError "node returned an unexpected batch publish response")
   end).

Definition fetch self (value_ids : list V) (conn : TlsRpcClient.connection)
    : t * Result (list (Batch.t V)) :=
  let '(rpc', r) := TlsRpcClient.call (rpc self) (RequestBody.FetchBatches value_ids) conn in
  (mk rpc',
   let? body := r in
   match body with
   | ResponseBody.Batches batches => Ok batches
   | ResponseBody.Error error => Err (wire_error_to_local error None)
   | _ => Err (QuePaxaError.TransportError "node returned an unexpected batch fetch response")
   end).
End ops.
End TlsBatchClient.

Module TlsBatchPublisher.
Record t : Type := mk { clients : list TlsBatchClient.t; required_acknowledgements : Z }.

Definition new (clients : list TlsBatchClient.t) (required : Z) : Result t :=
  reject is_empty clients || (required =? 0) || (len clients <? required)
    with QuePaxaError.InvalidQuorum (len clients) required ;;
  Ok (mk clients required).
Definition all (clients : list TlsBatchClient.t) : Result t := new clients (len clients).

(** The loop of [publish] over the nodes' results in the order they arrive;
    [None]: it waits for a result that has not arrived. *)
Fixpoint count (required acknowledged pending : Z) (results : list (Result unit))
    : option (Result unit) :=
  match results with
  | [] =>
      if pending =? 0 then Some (Err (QuePaxaError.QuorumNotReached required acknowledged))
      else None
  | result :: results =>
      let pending := pending - 1 in
      let acknowledged := if is_ok result then acknowledged + 1 else acknowledged in
      if is_ok result && (acknowledged =? required) then Some (Ok tt)
      else if acknowledged + pending <? required
      then Some (Err (QuePaxaError.QuorumNotReached required acknowledged))
      else count required acknowledged pending results
  end.

Definition publish (self : t) (results : list (Result unit)) : option (Result unit) :=
  count (required_acknowledgements self) 0 (len (clients self)) results.
End TlsBatchPublisher.

(** The number of acknowledgements among the results. *)
Definition acks (results : list (Result unit)) : Z := len (filter (λ r, is_ok r = true) results).

Lemma acks_cons r results :
  acks (r :: results) = (if is_ok r then 1 else 0) + acks results.
Proof.
  unfold acks. rewrite filter_cons. destruct (is_ok r); case_decide; try done.
  by rewrite len_cons.
Qed.

Lemma acks_bound results : 0 ≤ acks results ≤ len results.
Proof.
  unfold acks, len. pose proof (length_filter (λ r : Result unit, is_ok r = true) results). lia.
Qed.

Lemma count_spec required acknowledged results :
  acknowledged < required →
  ∃ n, TlsBatchPublisher.count required acknowledged (len results) results
    = Some (if required <=? acknowledged + acks results then Ok tt
            else Err (QuePaxaError.QuorumNotReached required n)).
Proof.
  revert acknowledged. induction results as [|r results IH]; intros acknowledged Hlt.
  - exists acknowledged. simpl. unfold acks. rewrite filter_nil, len_nil.
    by rewrite (proj2 (Z.leb_gt _ _)) by lia.
  - cbn [TlsBatchPublisher.count]. rewrite acks_cons, len_cons.
    replace (1 + len results - 1) with (len results) by lia.
    pose proof (acks_bound results). destruct (is_ok r); simpl.
    + destruct (Z.eqb_spec (acknowledged + 1) required).
      { exists 0. by rewrite (proj2 (Z.leb_le _ _)) by lia. }
      destruct (Z.ltb_spec (acknowledged + 1 + len results) required).
      { eexists. by rewrite (proj2 (Z.leb_gt _ _)) by lia. }
      rewrite Z.add_assoc. apply IH. lia.
    + destruct (Z.ltb_spec (acknowledged + len results) required).
      { eexists. by rewrite (proj2 (Z.leb_gt _ _)) by lia. }
      rewrite Z.add_0_l. by apply IH.
Qed.

(** The publisher's threshold is exact: once every node has answered or
    failed, publishing has returned, and it succeeded iff at least the
    required number of nodes acknowledged the batches: giving up early never
    misses a threshold that could still be met. *)
Theorem publisher_threshold clients required self results :
  0 ≤ required → TlsBatchPublisher.new clients required = Ok self → len results = len clients →
  is_Some (TlsBatchPublisher.publish self results)
  ∧ (TlsBatchPublisher.publish self results = Some (Ok tt) ↔ required ≤ acks results).
Proof.
  intros Hnn. unfold TlsBatchPublisher.new. destruct (is_empty clients); simpl; [done|].
  destruct (Z.eqb_spec required 0); simpl; [done|]. destruct (Z.ltb_spec (len clients) required); [done|].
  intros [= <-] Hlen. unfold TlsBatchPublisher.publish. simpl. rewrite <-Hlen.
  destruct (count_spec required 0 results) as [received ->]; [lia|]. split; [by eexists|].
  destruct (Z.leb_spec required (0 + acks results)); split; try done; intros; lia.
Qed.

(** ** Fetching for the availability guard *)

(** One answer per client, in the order of the clients, until one is taken. *)
Module TlsBatchFetcher.
Record t : Type := mk { clients : list TlsBatchClient.t }.
Definition new (client : TlsBatchClient.t) : t := mk [client].
Definition with_fallbacks (self : t) (fallbacks : list TlsBatchClient.t) : t :=
  mk (clients self ++ fallbacks).

Section ops.
Context {V : Type} `{EqDecision V} (verify : V → list Z → Result unit).

(** The loop over the batches of one answer; [None] is [valid = false]. *)
Fixpoint accept (value_ids : list V) (returned : list (V * list Z)) (batches : list (Batch.t V))
    : option (list (V * list Z)) :=
  match batches with
  | [] => Some returned
  | batch :: batches =>
      if negb (bool_decide (Batch.value_id batch ∈ value_ids))
         || existsb (λ entry, bool_decide (entry.1 = Batch.value_id batch)) returned
         || is_err (verify (Batch.value_id batch) (Batch.payload batch))
      then None
      else accept value_ids (returned ++ [(Batch.value_id batch, Batch.payload batch)]) batches
  end.

Definition complete (value_ids : list V) (returned : list (V * list Z)) : bool :=
  forallb (λ requested, existsb (λ entry, bool_decide (entry.1 = requested)) returned) value_ids.

Fixpoint try_clients (value_ids : list V) (last_error : QuePaxaError.t)
    (answers : list (Result (list (Batch.t V)))) : Result (list (V * list Z)) :=
  match answers with
  | [] => Err last_error
  | Err error :: answers => try_clients value_ids error answers
  | Ok batches :: answers =>
      match accept value_ids [] batches with
      | Some returned =>
          if complete value_ids returned then Ok returned
          else try_clients value_ids QuePaxaError.MissingValue answers
      | None => try_clients value_ids QuePaxaError.MissingValue answers
      end
  end.

Definition fetch_values (value_ids : list V) (answers : list (Result (list (Batch.t V))))
    : Result (list (V * list Z)) :=
  try_clients value_ids QuePaxaError.MissingValue answers.
End ops.
End TlsBatchFetcher.

Section fetcher.
Context {V : Type} `{EqDecision V} (verify : V → list Z → Result unit).

(** An answer with exactly the requested IDs, each once, all verified. *)
Definition good_answer (value_ids : list V) (batches : list (Batch.t V)) : Prop :=
  NoDup (Batch.value_id <$> batches)
  ∧ (∀ v, v ∈ Batch.value_id <$> batches ↔ v ∈ value_ids)
  ∧ Forall (λ b, verify (Batch.value_id b) (Batch.payload b) = Ok tt) batches.

Definition entry_of (b : Batch.t V) : V * list Z := (Batch.value_id b, Batch.payload b).

Lemma existsb_entry (returned : list (V * list Z)) v :
  existsb (λ entry, bool_decide (entry.1 = v)) returned = true ↔ v ∈ returned.*1.
Proof.
  rewrite existsb_exists. split.
  - intros (e & He & <-%bool_decide_eq_true). apply list_elem_of_fmap. exists e.
    split; [done|by apply list_elem_of_In].
  - intros (e & -> & He)%list_elem_of_fmap. exists e.
    split; [by apply list_elem_of_In|by apply bool_decide_eq_true].
Qed.

Lemma accept_spec value_ids returned batches out :
  TlsBatchFetcher.accept verify value_ids returned batches = Some out ↔
  out = returned ++ (entry_of <$> batches)
  ∧ Forall (λ b, Batch.value_id b ∈ value_ids ∧ verify (Batch.value_id b) (Batch.payload b) = Ok tt)
      batches
  ∧ NoDup (Batch.value_id <$> batches)
  ∧ (∀ v, v ∈ Batch.value_id <$> batches → v ∉ returned.*1).
Proof.
  revert returned. induction batches as [|b batches IH]; intros returned; simpl.
  { rewrite app_nil_r. split; [intros [= <-]|by intros (-> & _)].
    split_and!; [done|constructor|constructor|set_solver]. }
  destruct (bool_decide_reflect (Batch.value_id b ∈ value_ids)) as [Hin|Hout]; simpl;
    [|split; [done|]; by intros (_ & [[? _] _]%Forall_cons & _)].
  destruct (existsb _ returned) eqn:He; simpl.
  { apply existsb_entry in He. split; [done|]. intros (_ & _ & _ & Hd).
    destruct (Hd (Batch.value_id b)); [left|done]. }
  destruct (verify _ _) as [[]|e] eqn:Hv; simpl;
    [|split; [done|]; intros (_ & [[_ ?] _]%Forall_cons & _); congruence].
  rewrite IH, <-app_assoc, fmap_app. simpl. rewrite NoDup_cons, Forall_cons.
  assert (Batch.value_id b ∉ returned.*1) as Hb.
  { intros Hc%existsb_entry. congruence. }
  unfold entry_of at 2. split.
  - intros (-> & Hall & Hnd & Hd). split_and!; [done|done|done|done| |done|].
    + intros Hc. apply (Hd _ Hc). set_solver.
    + intros v [->|Hv']%elem_of_cons; [done|]. intros Hr. apply (Hd v Hv'). set_solver.
  - intros (-> & [_ Hall] & [Hn Hnd] & Hd). split_and!; [done..|].
    intros v Hv' [Hr|Hr]%elem_of_app; [by apply (Hd v); [right|]|].
    apply list_elem_of_singleton in Hr as ->. done.
Qed.

Lemma answer_taken value_ids batches returned :
  TlsBatchFetcher.accept verify value_ids [] batches = Some returned →
  TlsBatchFetcher.complete value_ids returned = true ↔ good_answer value_ids batches.
Proof.
  intros (-> & Hall & Hnd & _)%accept_spec. unfold TlsBatchFetcher.complete, good_answer. simpl.
  rewrite forallb_forall, Forall_forall in *.
  assert ((entry_of <$> batches).*1 = Batch.value_id <$> batches) as Hids
    by (rewrite <-list_fmap_compose; done).
  split.
  - intros Hc. split_and!; [done| |by intros b Hb; apply Hall].
    intros v. split; [intros (b & -> & Hb)%list_elem_of_fmap; by apply Hall|].
    intros Hv%list_elem_of_In. apply Hc, existsb_entry in Hv. by rewrite Hids in Hv.
  - intros (_ & Hiff & _) v Hv%list_elem_of_In. apply existsb_entry. rewrite Hids. by apply Hiff.
Qed.

(** The fetcher hands to consensus only what it verified itself: an answer
    it accepts is a client's whose batches are exactly the requested IDs, each
    once, with payloads the verifier accepts; and it accepts the first such
    answer, so one honest node among the clients is enough. *)
Theorem fetcher_takes_first_good_answer value_ids answers returned :
  TlsBatchFetcher.fetch_values verify value_ids answers = Ok returned ↔
  ∃ before batches after, answers = before ++ Ok batches :: after
    ∧ returned = entry_of <$> batches ∧ good_answer value_ids batches
    ∧ Forall (λ a, ∀ b, a = Ok b → ¬ good_answer value_ids b) before.
Proof.
  unfold TlsBatchFetcher.fetch_values. generalize QuePaxaError.MissingValue as last_error.
  induction answers as [|a answers IH]; intros last_error; simpl.
  { split; [done|]. by intros ([] & ? & ? & [=] & _). }
  assert (∀ e, (∀ b, a = Ok b → ¬ good_answer value_ids b) →
    TlsBatchFetcher.try_clients verify value_ids e answers = Ok returned ↔
    ∃ before batches after, a :: answers = before ++ Ok batches :: after
      ∧ returned = entry_of <$> batches ∧ good_answer value_ids batches
      ∧ Forall (λ a, ∀ b, a = Ok b → ¬ good_answer value_ids b) before) as Hskip.
  { intros e Hbad. rewrite IH. split.
    - intros (before & batches & after & -> & ? & ? & ?).
      exists (a :: before), batches, after. by split_and!; [|..|constructor].
    - intros (before & batches & after & Heq & ? & Hg & Hf). destruct before as [|a' before].
      + injection Heq as -> ->. by destruct (Hbad batches).
      + injection Heq as <- ->. apply Forall_cons in Hf as [_ Hf]. by exists before, batches, after. }
  destruct a as [batches|error]; [|by apply Hskip].
  destruct (TlsBatchFetcher.accept verify value_ids [] batches) as [out|] eqn:Ha.
  - pose proof (answer_taken _ _ _ Ha) as Hgood.
    destruct (TlsBatchFetcher.complete value_ids out).
    + apply accept_spec in Ha as (-> & _). split.
      * intros [= <-]. exists [], batches, answers. by split_and!; [..|apply Hgood|constructor].
      * intros (before & batches' & after & Heq & -> & Hg & Hf). destruct before as [|a before].
        { by injection Heq as <- _. }
        injection Heq as <- _. apply Forall_cons in Hf as [Hf _]. destruct (Hf batches); [done|by apply Hgood].
    + apply Hskip. intros b [= <-] Hg%Hgood. done.
  - apply Hskip. intros b [= <-] (Hnd & Hiff & Hall).
    assert (TlsBatchFetcher.accept verify value_ids [] batches = Some (entry_of <$> batches)) as Hx;
      [|congruence].
    apply accept_spec. split_and!; [done| |done|set_solver].
    rewrite Forall_forall in *. intros b Hb. split; [apply Hiff|by apply Hall].
    apply list_elem_of_fmap. by exists b.
Qed.
End fetcher.

Module TlsSubmitClient.
Record t : Type := mk { client_id : list Z; rpc : TlsRpcClient.t }.

Definition new (client_id : list Z) (deployment : DeploymentId) (address server_name : string)
    (expected_peer_certificate : list Z) : t :=
  mk client_id (TlsRpcClient.mk deployment (PeerSender.Client client_id) address server_name
                  expected_peer_certificate 1 DEFAULT_MAX_FRAME DEFAULT_RPC_TIMEOUT).

Section ops.
Context `{!U32Stream} {V : Type} `{!Postcard (NodeRequest.t V), !Postcard (NodeResponse.t V)}.

Definition submit (self : t) (request_id : Z) (value_ids : list V)
    (conn : TlsRpcClient.connection) : t * Result (SubmissionOutcome.t V) :=
  let submission := Submission.mk (client_id self) request_id value_ids in
  let '(rpc', r) := TlsRpcClient.call (rpc self) (RequestBody.Submit submission) conn in
  (mk (client_id self) rpc',
   let? body := r in
   match body with
   | ResponseBody.Submission outcome => Ok outcome
   | ResponseBody.Error error => Err (wire_error_to_local error None)
   | _ => Err (QuePaxaError.TransportError "node returned an unexpected submission response")
   end).

Definition ping (self : t) (conn : TlsRpcClient.connection) : t * Result unit :=
  let '(rpc', r) := TlsRpcClient.call (V:=V) (rpc self) RequestBody.Ping conn in
  (mk (client_id self) rpc',
   let? body := r in
   match body with
   | ResponseBody.Pong => Ok tt
   | ResponseBody.Error error => Err (wire_error_to_local error None)
   | _ => Err (QuePaxaError.TransportError "node returned an unexpected health response")
   end).
End ops.

Definition with_rpc_timeout (self : t) (timeout : Z) : t :=
  mk (client_id self)
     (TlsRpcClient.mk (TlsRpcClient.deployment (rpc self)) (TlsRpcClient.sender (rpc self))
        (TlsRpcClient.address (rpc self)) (TlsRpcClient.server_name (rpc self))
        (TlsRpcClient.expected_peer_certificate (rpc self))
        (TlsRpcClient.next_request_id (rpc self)) (TlsRpcClient.max_frame (rpc self)) timeout).
End TlsSubmitClient.
