(* ===== verification/Server.v ===== *)
(** * The node server (src/network/server.rs)

  What a node does with one authenticated connection: the certificate names a
  peer, the peer's request is checked against what that peer may ask, and the
  recorder, the submission handler or the batch service answers. The three
  are parameters behind classes; TCP, TLS and the tokio tasks are not
  modelled, a connection is the certificates it presented and the bytes it
  sent. The last part puts a client of [Transport] and a server together. *)
From S2P Require Import Prelude Errors Types Membership Recorder Proposer Durable Runtime Codec.
From S2P Require Import Batch Wire Transport.

(** ** Peers *)

Module PeerIdentity.
Inductive t : Type :=
| Replica (id : ReplicaId)
| Client (id : list Z).
#[global] Instance eq_dec : EqDecision t.
Proof. solve_decision. Defined.

Definition matches_sender (self : t) (sender : PeerSender.t) : bool :=
  match self, sender with
  | Replica id, PeerSender.Replica sent => id =? sent
  | Client id, PeerSender.Client sent => bool_decide (id = sent)
  | _, _ => false
  end.
End PeerIdentity.

(** Certificates in DER are byte strings. The lock of the registry is taken
    also when it is poisoned. *)
Module PeerRegistry.
Definition t : Type := gmap (list Z) PeerIdentity.t.

Definition new (peers : t) : Result t :=
  reject bool_decide (peers = ∅)
    with QuePaxaError.TransportError "at least one authenticated peer certificate is required" ;;
  Ok peers.
Definition replace (self peers : t) : t * Result unit :=
  if bool_decide (peers = ∅)
  then (self, Err (QuePaxaError.TransportError "peer certificate registry cannot be empty"))
  else (peers, Ok tt).
Definition authorize (self : t) (certificate : list Z) (identity : PeerIdentity.t) : t :=
  <[certificate := identity]> self.
Definition revoke (self : t) (certificate : list Z) : t * bool :=
  (delete certificate self, bool_decide (is_Some (self !! certificate))).
Definition snapshot (self : t) : t := self.
Definition identity_for (self : t) (certificate : list Z) : option PeerIdentity.t :=
  self !! certificate.
End PeerRegistry.

(** ** What a node serves *)

(** [RecorderClient] of src/proposer.rs, as the server's recorder. *)
Class RecorderService (V C : Type) : Type := {
  serve_record : C → RecordRequest.t V → C * Result (RecordReply.t V);
  serve_status : C → SlotIndex → Result (option Z);
  serve_inform : C → list (Decision.t V) → C * Result unit;
  serve_install : C → MembershipChange.t V → C * Result unit;
}.
Class SubmissionService (V H : Type) : Type := {
  submit : H → Submission.t V → H * Result (SubmissionOutcome.t V);
  receive_decisions : H → list (Decision.t V) → H * Result unit;
}.
Class BatchService (V B : Type) : Type := {
  publish_batches : B → list (Batch.t V) → B * Result unit;
  fetch_batches : B → list V → Result (list (Batch.t V));
}.

#[global] Instance authenticated_batch_service {V S} `{Countable V} `{!BatchStore V S}
    (verify : V → list Z → Result unit)
    : BatchService V (AuthenticatedBatchService.t S) := {|
  publish_batches := AuthenticatedBatchService.publish verify;
  fetch_batches := AuthenticatedBatchService.fetch;
|}.

Module NetworkNodeServer.
Section server.
Context {V C H B : Type}.
Context `{!RecorderService V C, !SubmissionService V H, !BatchService V B}.

Record t : Type := mk {
  deployment : DeploymentId;
  peers : PeerRegistry.t;
  recorder : C;
  recorder_poisoned : bool;
  handler : H;
  batch_service : option B;
  max_frame : Z;
  max_connections : Z;
}.

(** [bind], once the listener is there. *)
Definition bind (deployment : DeploymentId) (peers_by_certificate : PeerRegistry.t)
    (recorder : C) (handler : H) : Result t :=
  let? peers := PeerRegistry.new peers_by_certificate in
  Ok (mk deployment peers recorder false handler None DEFAULT_MAX_FRAME 1024).

Definition with_max_frame (self : t) (max_frame : Z) : Result t :=
  reject (max_frame <? 128) || (u32_max <? max_frame)
    with QuePaxaError.TransportError "maximum frame must be between 128 bytes and u32::MAX" ;;
  Ok (mk (deployment self) (peers self) (recorder self) (recorder_poisoned self) (handler self)
         (batch_service self) max_frame (max_connections self)).
Definition with_max_connections (self : t) (max_connections : Z) : Result t :=
  reject max_connections =? 0
    with QuePaxaError.TransportError "maximum concurrent connections must be non-zero" ;;
  Ok (mk (deployment self) (peers self) (recorder self) (recorder_poisoned self) (handler self)
         (batch_service self) (max_frame self) max_connections).
Definition with_batch_service (self : t) (service : B) : t :=
  mk (deployment self) (peers self) (recorder self) (recorder_poisoned self) (handler self)
     (Some service) (max_frame self) (max_connections self).

Definition set_recorder (self : t) (c : C) : t :=
  mk (deployment self) (peers self) c (recorder_poisoned self) (handler self)
     (batch_service self) (max_frame self) (max_connections self).
Definition set_handler (self : t) (h : H) : t :=
  mk (deployment self) (peers self) (recorder self) (recorder_poisoned self) h
     (batch_service self) (max_frame self) (max_connections self).

(** A blocking call of the recorder behind its lock. *)
Definition with_recorder {A} (self : t) (f : C → C * Result A) : t * Result A :=
  if recorder_poisoned self
  then (self, Err (QuePaxaError.TransportError "recorder lock was poisoned"))
  else let '(c, r) := f (recorder self) in (set_recorder self c, r).

Definition not_configured : QuePaxaError.t :=
  QuePaxaError.TransportError "batch service is not configured".

(** The [match] of [dispatch]. *)
Definition answer (self : t) (peer : PeerIdentity.t) (body : RequestBody.t V)
    : t * Result (ResponseBody.t V) :=
  match peer, body with
  | PeerIdentity.Replica replica, RequestBody.Record record =>
      if negb (RecordRequest.sender record =? replica)
      then (self, Err (QuePaxaError.InvalidSender (RecordRequest.sender record)))
      else let '(self, r) := with_recorder self (λ c, serve_record c record) in
           (self, let? reply := r in Ok (ResponseBody.Record reply))
  | PeerIdentity.Replica _, RequestBody.Status slot =>
      let '(self, r) := with_recorder self (λ c, (c, serve_status c slot)) in
      (self, let? step := r in Ok (ResponseBody.Status step))
  | PeerIdentity.Replica _, RequestBody.InformDecisions decisions =>
      match with_recorder self (λ c, serve_inform c decisions) with
      | (self, Err e) => (self, Err e)
      | (self, Ok _) =>
          let '(h, r) := receive_decisions (handler self) decisions in
          (set_handler self h, let? _ := r in Ok ResponseBody.Ack)
      end
  | PeerIdentity.Replica _, RequestBody.InstallMembership change =>
      let '(self, r) := with_recorder self (λ c, serve_install c change) in
      (self, let? _ := r in Ok ResponseBody.Ack)
  | _, RequestBody.PublishBatches batches =>
      match batch_service self with
      | None => (self, Err not_configured)
      | Some service =>
          let '(service, r) := publish_batches service batches in
          (with_batch_service self service, let? _ := r in Ok ResponseBody.Ack)
      end
  | PeerIdentity.Replica _, RequestBody.FetchBatches value_ids =>
      (self, let? service := ok_or (batch_service self) not_configured in
             let? batches := fetch_batches service value_ids in
             Ok (ResponseBody.Batches batches))
  | PeerIdentity.Client client_id, RequestBody.Submit submission =>
      if negb (bool_decide (Submission.client_id submission = client_id))
         || is_empty (Submission.value_ids submission)
      then (self, Err (QuePaxaError.InvalidProposal
                         "submission identity does not match its authenticated client"))
      else let '(h, r) := submit (handler self) submission in
           (set_handler self h, let? outcome := r in Ok (ResponseBody.Submission outcome))
  | _, RequestBody.Ping => (self, Ok ResponseBody.Pong)
  | _, _ => (self, Err (QuePaxaError.TransportError
                          "authenticated peer is not authorized for this request type"))
  end.

Definition dispatch (self : t) (peer : PeerIdentity.t) (request : NodeRequest.t V)
    : t * Result (ResponseBody.t V) :=
  if negb (NodeRequest.version request =? WIRE_VERSION)
  then (self, Err (QuePaxaError.TransportError
                     ("unsupported wire version " +:+ pretty (NodeRequest.version request))))
  else if negb (bool_decide (NodeRequest.deployment request = deployment self))
  then (self, Err QuePaxaError.ConfigurationMismatch)
  else if negb (PeerIdentity.matches_sender peer (NodeRequest.sender request))
  then (self, Err (QuePaxaError.TransportError
                     "authenticated peer does not match the protocol sender"))
  else answer self peer (NodeRequest.body request).

Context `{!U32Stream, !Postcard (NodeRequest.t V), !Postcard (NodeResponse.t V)}.

(** What one connection brings: the handshake's outcome, the certificates
    presented, the bytes sent and how sending the answer goes. *)
Record incoming : Type := Incoming {
  tls_error : option string;
  certificates : option (list (list Z));
  received : list Z;
  eof : string;
  replying : write_io;
}.

(** [serve]: the node afterwards, the bytes sent, and the answer. *)
Definition serve (self : t) (conn : incoming) : t * list Z * Result unit :=
  match tls_error conn with
  | Some error => (self, [], Err (QuePaxaError.TransportError
                                    ("mutual TLS handshake failed: " +:+ error)))
  | None =>
  match certificates conn ≫= head with
  | None => (self, [], Err (QuePaxaError.TransportError "TLS peer did not present a certificate"))
  | Some certificate =>
  match PeerRegistry.identity_for (peers self) certificate with
  | None => (self, [], Err (QuePaxaError.TransportError
                              "TLS peer certificate is not bound to a configured identity"))
  | Some peer =>
  match (read_frame (T:=NodeRequest.t V) (max_frame self) (eof conn) (received conn)).2 with
  | Err e => (self, [], Err e)
  | Ok request =>
      let '(self', r) := dispatch self peer request in
      let body := match r with
                  | Ok body => body
                  | Err error => ResponseBody.Error (error_to_wire error)
                  end in
      let '(sent, written) :=
        write_frame (NodeResponse.mk WIRE_VERSION (deployment self')
                       (NodeRequest.request_id request) body)
                    (max_frame self') (replying conn) in
      (self', sent, let? _ := written in Ok tt)
  end
  end
  end
  end.
End server.
Arguments t : clear implicits.
End NetworkNodeServer.
Import NetworkNodeServer.

(** ** Only authorized requests reach a component *)

Section authorization.
Context {V C H B : Type}.
Context `{!RecorderService V C, !SubmissionService V H, !BatchService V B}.
Implicit Types self : NetworkNodeServer.t C H B.

(** What a peer may ask: replicas record as themselves, inform, install and
    fetch; clients submit as themselves; both may publish and ping. *)
Definition may_ask (peer : PeerIdentity.t) (body : RequestBody.t V) : Prop :=
  match body with
  | RequestBody.Record record => peer = PeerIdentity.Replica (RecordRequest.sender record)
  | RequestBody.Status _ | RequestBody.InformDecisions _ | RequestBody.InstallMembership _
  | RequestBody.FetchBatches _ => ∃ id, peer = PeerIdentity.Replica id
  | RequestBody.Submit submission =>
      peer = PeerIdentity.Client (Submission.client_id submission)
      ∧ Submission.value_ids submission ≠ []
  | RequestBody.PublishBatches _ | RequestBody.Ping => True
  end.

Definition sent_as (peer : PeerIdentity.t) (sender : PeerSender.t) : Prop :=
  sender = match peer with
           | PeerIdentity.Replica id => PeerSender.Replica id
           | PeerIdentity.Client id => PeerSender.Client id
           end.

Definition authorized self (peer : PeerIdentity.t) (request : NodeRequest.t V) : Prop :=
  NodeRequest.version request = WIRE_VERSION
  ∧ NodeRequest.deployment request = deployment self
  ∧ sent_as peer (NodeRequest.sender request)
  ∧ may_ask peer (NodeRequest.body request).

Lemma matches_sender_spec peer sender :
  PeerIdentity.matches_sender peer sender = true ↔ sent_as peer sender.
Proof.
  unfold sent_as. destruct peer, sender; simpl; rewrite ?Z.eqb_eq, ?bool_decide_eq_true; naive_solver.
Qed.

Lemma answer_unauthorized self peer body :
  may_ask peer body ∨ ∃ e, answer self peer body = (self, Err e).
Proof.
  destruct body as [record|slot|decisions|change|batches|ids|submission|], peer as [id|id]; simpl;
    try (left; by eauto); try (right; by eexists).
  - destruct (Z.eqb_spec (RecordRequest.sender record) id) as [<-|]; [by left|right; by eexists].
  - destruct (bool_decide_reflect (Submission.client_id submission = id)) as [<-|]; [|right; by eexists].
    destruct (is_empty (Submission.value_ids submission)) eqn:He; [right; by eexists|].
    left. by apply is_empty_false in He.
Qed.

Lemma dispatch_authorized self peer request :
  authorized self peer request ∨ ∃ e, dispatch self peer request = (self, Err e).
Proof.
  unfold dispatch, authorized.
  destruct (Z.eqb_spec (NodeRequest.version request) WIRE_VERSION); [|right; by eexists].
  destruct (bool_decide_reflect (NodeRequest.deployment request = deployment self)); [|right; by eexists].
  destruct (PeerIdentity.matches_sender peer (NodeRequest.sender request)) eqn:Hm; [|right; by eexists].
  apply matches_sender_spec in Hm. simpl.
  destruct (answer_unauthorized self peer (NodeRequest.body request)) as [?|?]; [left|right]; by auto.
Qed.

Context `{!U32Stream, !Postcard (NodeRequest.t V), !Postcard (NodeResponse.t V)}.

(** C25: a connection changes the recorder, the submission handler or the batch
    store only when its handshake succeeded, the first certificate it
    presented is registered, and its request carries the current version, this
    deployment and the registered identity as its sender, and is one that
    identity may make: replicas record in their own name and clients submit in
    theirs. In every other case the node is left exactly as it was. *)
Theorem serve_authenticates self (conn : incoming) self' sent r :
  serve (V:=V) self conn = (self', sent, r) →
  self' = self
  ∨ tls_error conn = None
    ∧ ∃ certificate rest peer request,
        certificates conn = Some (certificate :: rest)
        ∧ peers self !! certificate = Some peer
        ∧ (read_frame (max_frame self) (eof conn) (received conn)).2 = Ok request
        ∧ authorized self peer request
        ∧ self' = (dispatch self peer request).1.
Proof.
  unfold serve, PeerRegistry.identity_for. destruct (tls_error conn); [intros [= <- _ _]; by left|].
  destruct (certificates conn) as [[|certificate rest]|]; simpl; [intros [= <- _ _]; by left| |intros [= <- _ _]; by left].
  destruct (peers self !! certificate) as [peer|] eqn:Hp; [|intros [= <- _ _]; by left].
  destruct (read_frame _ _ _).2 as [request|e] eqn:Hr; [|intros [= <- _ _]; by left].
  destruct (dispatch self peer request) as [self1 answer] eqn:Hd.
  destruct (write_frame _ _ _) as [out written]. intros [= <- _ _].
  destruct (dispatch_authorized self peer request) as [Ha|[e He]].
  - right. split; [done|]. exists certificate, rest, peer, request. by rewrite Hd.
  - left. congruence.
Qed.
End authorization.

(** ** A client and a server together *)

Section remote.
Context {V C H B : Type}.
Context `{!RecorderService V C, !SubmissionService V H, !BatchService V B}.
Context `{!U32Stream, !U32StreamLaws}.
Context `{!Postcard (NodeRequest.t V), !Postcard (NodeResponse.t V)}.
Context `{!PostcardLaws (NodeRequest.t V), !PostcardLaws (NodeResponse.t V)}.
Implicit Types self : NetworkNodeServer.t C H B.
Implicit Types rpc : TlsRpcClient.t.

(** A connection from a client with certificate [certificate] to the server:
    nothing fails, and the server answers what it is sent. *)
Definition linked (certificate : list Z) self rpc (conn : TlsRpcClient.connection) : Prop :=
  TlsRpcClient.connect_error conn = None ∧ TlsRpcClient.server_name_error conn = None
  ∧ TlsRpcClient.tls_error conn = None
  ∧ (∃ rest, TlsRpcClient.peer_certificates conn
             = Some (TlsRpcClient.expected_peer_certificate rpc :: rest))
  ∧ TlsRpcClient.sending conn = write_success
  ∧ TlsRpcClient.times_out conn = false
  ∧ ∀ sent, ∃ eof, TlsRpcClient.answers conn sent
      = (serve (V:=V) self (Incoming None (Some [certificate]) sent eof write_success)).1.2.

(** The answer of the server to a request of [rpc], as it goes on the wire. *)
Definition response_of self rpc (peer : PeerIdentity.t) (body : RequestBody.t V)
    : NodeResponse.t V :=
  NodeResponse.mk WIRE_VERSION (deployment self) (TlsRpcClient.next_request_id rpc)
    match (answer self peer body).2 with
    | Ok body => body
    | Err error => ResponseBody.Error (error_to_wire error)
    end.

(** Both directions fit into a frame. *)
Definition fits_frame {T} `{!Postcard T} (value : T) (max_frame : Z) : Prop :=
  is_ok (write_frame value max_frame write_success).2 = true.

Lemma fits_frame_written {T} `{!Postcard T} (value : T) max_frame :
  fits_frame value max_frame → ∃ sent n, write_frame value max_frame write_success = (sent, Ok n).
Proof.
  unfold fits_frame. destruct (write_frame _ _ _) as [sent [n|]]; [|done]. by eexists _, _.
Qed.

Lemma answer_deployment self peer (body : RequestBody.t V) :
  deployment (answer self peer body).1 = deployment self
  ∧ max_frame (answer self peer body).1 = max_frame self.
Proof.
  unfold answer, with_recorder.
  destruct peer, body; simpl; repeat (case_match; simplify_eq/=); done.
Qed.

Lemma remote_call certificate self rpc conn peer (body : RequestBody.t V) :
  linked certificate self rpc conn →
  peers self !! certificate = Some peer → sent_as peer (TlsRpcClient.sender rpc) →
  TlsRpcClient.deployment rpc = deployment self → TlsRpcClient.max_frame rpc = max_frame self →
  fits_frame (TlsRpcClient.request_of rpc body) (max_frame self) →
  fits_frame (response_of self rpc peer body) (max_frame self) →
  TlsRpcClient.call rpc body conn
  = (TlsRpcClient.advance_id rpc, Ok (NodeResponse.body (response_of self rpc peer body))).
Proof.
  intros (Hc & Hs & Ht & [rest Hcert] & Hsend & Hto & Hans) Hp Hsent Hdep Hmax Hreq Hresp.
  unfold TlsRpcClient.call, TlsRpcClient.call_inner. rewrite Hto, Hc, Hs, Ht, Hcert, Hsend, Hmax. simpl.
  rewrite bool_decide_true by done. simpl.
  destruct (fits_frame_written _ _ Hreq) as (sent & n & Hw). rewrite Hw.
  destruct (Hans sent) as [eof ->]. unfold serve. simpl.
  unfold PeerRegistry.identity_for. rewrite Hp.
  pose proof (read_written _ _ _ _ _ _ eof [] Hw (Z.le_refl _)) as Hread. rewrite app_nil_r in Hread.
  rewrite Hread. simpl. unfold dispatch. simpl. rewrite Hdep, bool_decide_true by done. simpl.
  rewrite (proj2 (matches_sender_spec _ _) Hsent). simpl.
  destruct (answer_deployment self peer body) as [Hd Hm].
  destruct (answer self peer body) as [self1 r] eqn:Ha. simpl in Hd, Hm. rewrite Hd, Hm.
  destruct (fits_frame_written _ _ Hresp) as (out & n' & Hw'). unfold response_of in Hw'. rewrite Ha in Hw'.
  simpl in Hw'. rewrite Hw'. simpl.
  pose proof (read_written _ _ _ _ _ _ (TlsRpcClient.eof conn) [] Hw' (Z.le_refl _)) as Hread'.
  rewrite app_nil_r in Hread'. rewrite Hread'. simpl.
  rewrite bool_decide_true, Z.eqb_refl by done. done.
Qed.

(** C26: recording on a remote node is recording on its recorder. Over a
    connection that works, with frames that fit, a replica whose certificate
    is registered gets exactly the reply its request gets from the remote
    recorder, and an error as its kind crosses the wire; the request ID is
    used up. *)
Theorem remote_record_is_local certificate self (client : TlsRecorderClient.t) conn request :
  let rpc := TlsRecorderClient.rpc client in
  let peer := PeerIdentity.Replica (RecordRequest.sender request) in
  linked certificate self rpc conn →
  peers self !! certificate = Some peer → recorder_poisoned self = false →
  TlsRpcClient.sender rpc = PeerSender.Replica (RecordRequest.sender request) →
  TlsRpcClient.deployment rpc = deployment self → TlsRpcClient.max_frame rpc = max_frame self →
  fits_frame (TlsRpcClient.request_of rpc (RequestBody.Record request)) (max_frame self) →
  fits_frame (response_of self rpc peer (RequestBody.Record request)) (max_frame self) →
  TlsRecorderClient.record client request conn
  = (TlsRecorderClient.mk (TlsRecorderClient.recorder_id client) (TlsRpcClient.advance_id rpc),
     match (serve_record (recorder self) request).2 with
     | Ok reply => Ok reply
     | Err error => Err (remote_error (RecordRequest.slot request) error)
     end).
Proof.
  intros rpc peer Hl Hp Hpoison Hsend Hdep Hmax Hreq Hresp.
  unfold TlsRecorderClient.record, TlsRecorderClient.ask. fold rpc.
  rewrite (remote_call _ _ _ _ _ _ Hl Hp Hsend Hdep Hmax Hreq Hresp).
  f_equal. simpl. rewrite Z.eqb_refl. simpl. unfold with_recorder. rewrite Hpoison.
  by destruct (serve_record (recorder self) request) as [c' [reply|e]].
Qed.
End remote.

(** ** Concrete runs *)

Module ServerRuns.
(** Decidable equality of the messages, for a serialization given by a
    table. *)
#[local] Instance record_request_eq_dec : EqDecision (RecordRequest.t Z).
Proof. solve_decision. Defined.
#[local] Instance change_eq_dec : EqDecision (MembershipChange.t Z).
Proof. solve_decision. Defined.
#[local] Instance batch_eq_dec : EqDecision (Batch.t Z).
Proof. solve_decision. Defined.
#[local] Instance submission_eq_dec : EqDecision (Submission.t Z).
Proof. solve_decision. Defined.
#[local] Instance request_body_eq_dec : EqDecision (RequestBody.t Z).
Proof. solve_decision. Defined.
#[local] Instance request_eq_dec : EqDecision (NodeRequest.t Z).
Proof. solve_decision. Defined.
#[local] Instance summary_eq_dec : EqDecision (RecordSummary.t Z).
Proof. solve_decision. Defined.
#[local] Instance reply_eq_dec : EqDecision (RecordReply.t Z).
Proof. solve_decision. Defined.
#[local] Instance response_body_eq_dec : EqDecision (ResponseBody.t Z).
Proof. solve_decision. Defined.
#[local] Instance response_eq_dec : EqDecision (NodeResponse.t Z).
Proof. solve_decision. Defined.

(** The bytes of the value at position [i] of the table are [i]. *)
Fixpoint position {T} `{EqDecision T} (x : T) (table : list T) : option nat :=
  match table with
  | [] => None
  | y :: table => if decide (x = y) then Some 0%nat else S <$> position x table
  end.

Lemma position_lookup {T} `{EqDecision T} (x : T) table i : position x table = Some i → table !! i = Some x.
Proof.
  revert i. induction table as [|y table IH]; intros i; simpl; [done|].
  destruct (decide (x = y)) as [->|]; [by intros [= <-]|].
  destruct (position x table) as [j|]; [|done]. intros [= <-]. simpl. by apply IH.
Qed.

#[local] Instance table_postcard {T} `{EqDecision T} (table : list T) : Postcard T := {|
  to_allocvec := λ x, match position x table with
                      | Some i => Ok [Z.of_nat i]
                      | None => Err "not in the table"
                      end;
  from_bytes := λ bytes, match bytes with
                         | [b] => match table !! Z.to_nat b with
                                  | Some x => Ok x | None => Err "malformed" end
                         | _ => Err "malformed"
                         end;
|}.
#[local] Instance table_postcard_laws {T} `{EqDecision T} (table : list T)
    : PostcardLaws T (Postcard0:=table_postcard table).
Proof.
  split; simpl.
  - intros x bytes. destruct (position x table) as [i|] eqn:Hi; [|done]. intros [= <-].
    by rewrite Nat2Z.id, (position_lookup _ _ _ Hi).
  - intros x. by destruct (position x table).
Qed.

(** Big-endian lengths, as tokio documents them. *)
#[local] Instance big_endian : U32Stream := {|
  put_u32 := λ n, (λ i, Z.land (Z.shiftr n (8 * i)) 255) <$> [3; 2; 1; 0];
  get_u32 := λ l, match l with
                  | a :: b :: c :: d :: rest => Some (((a * 256 + b) * 256 + c) * 256 + d, rest)
                  | _ => None
                  end;
|}.
#[local] Instance big_endian_laws : U32StreamLaws.
Proof.
  intros n rest Hn. simpl. do 2 f_equal.
  change 255 with (Z.ones 8). rewrite !Z.land_ones, !Z.shiftr_div_pow2 by lia.
  unfold u32_max in Hn. simpl (2 ^ _). mod_lia.
Qed.

(** A recorder that counts its requests and accepts them, a handler that
    accepts everything, and no batches. *)
Definition cluster : ClusterIdentity.t := ClusterIdentity.mk [1; 2; 3] 1 0 None.
Definition reply_to (request : RecordRequest.t Z) : RecordReply.t Z :=
  RecordReply.mk 2 cluster
    (RecordSummary.mk (RecordRequest.step request) (Some (RecordRequest.proposal request)) None) None.

#[local] Instance counting_recorder : RecorderService Z nat := {|
  serve_record := λ n request, (S n, Ok (reply_to request));
  serve_status := λ n slot, Ok None;
  serve_inform := λ n decisions, (S n, Ok tt);
  serve_install := λ n change, (S n, Ok tt);
|}.
#[local] Instance accepting_handler : SubmissionService Z unit := {|
  submit := λ h submission, (h, Ok SubmissionOutcome.Accepted);
  receive_decisions := λ h decisions, (h, Ok tt);
|}.
#[local] Instance no_batches : BatchService Z unit := {|
  publish_batches := λ b batches, (b, Ok tt);
  fetch_batches := λ b ids, Ok [];
|}.

Definition request : RecordRequest.t Z :=
  RecordRequest.mk 1 5 None 4 (Proposal.mk (ProposalKey.new 9 1 0) [11]) [].
Definition client : TlsRecorderClient.t :=
  TlsRecorderClient.new 1 2 [7] "10.0.0.2:4000" "node-2" [200].
Definition on_wire : NodeRequest.t Z :=
  TlsRpcClient.request_of (TlsRecorderClient.rpc client) (RequestBody.Record request).
Definition off_wire : NodeResponse.t Z :=
  NodeResponse.mk WIRE_VERSION [7] 1 (ResponseBody.Record (reply_to request)).

#[local] Instance requests_table : Postcard (NodeRequest.t Z) := table_postcard [on_wire].
#[local] Instance requests_table_laws : PostcardLaws (NodeRequest.t Z) := table_postcard_laws _.
#[local] Instance responses_table : Postcard (NodeResponse.t Z) := table_postcard [off_wire].
#[local] Instance responses_table_laws : PostcardLaws (NodeResponse.t Z) := table_postcard_laws _.

Definition node : NetworkNodeServer.t nat unit unit :=
  NetworkNodeServer.mk [7] {[ [100] := PeerIdentity.Replica 1 ]} 0%nat false tt None
    DEFAULT_MAX_FRAME 1024.
Definition arriving (sent : list Z) : incoming := Incoming None (Some [[100]]) sent "eof" write_success.
Definition link : TlsRpcClient.connection :=
  TlsRpcClient.Connection None None None (Some [[200]]) write_success
    (λ sent, (serve (V:=Z) node (arriving sent)).1.2) "eof" false.

Lemma remote_record_is_local_witness :
  (TlsRecorderClient.record client request link).2 = Ok (reply_to request).
Proof.
  refine (f_equal snd (remote_record_is_local [100] node client link request _ _ _ _ _ _ _ _)).
  - split_and!; try reflexivity; [by exists []|]. intros sent. by exists "eof".
  - vm_compute. reflexivity.
  - reflexivity.
  - reflexivity.
  - reflexivity.
  - reflexivity.
  - vm_compute. reflexivity.
  - vm_compute. reflexivity.
Defined.

Lemma serve_authenticates_witness :
  ∃ certificate rest peer (request' : NodeRequest.t Z),
    certificates (arriving (write_frame on_wire DEFAULT_MAX_FRAME write_success).1)
      = Some (certificate :: rest)
    ∧ authorized node peer request'.
Proof.
  destruct (serve (V:=Z) node (arriving (write_frame on_wire DEFAULT_MAX_FRAME write_success).1))
    as [[node' sent] r] eqn:Hs.
  destruct (serve_authenticates node _ node' sent r Hs) as [Heq|(_ & c & rest & peer & req & Hc & _ & _ & Ha & _)].
  - exfalso. assert (recorder node' = 1%nat) as H1.
    { change node' with ((node', sent, r).1.1). rewrite <-Hs. vm_compute. reflexivity. }
    rewrite Heq in H1. discriminate.
  - by exists c, rest, peer, req.
Defined.

Lemma frames_roundtrip_witness :
  read_frames DEFAULT_MAX_FRAME "eof" 2
    ((write_frames DEFAULT_MAX_FRAME [on_wire; on_wire]).1 ++ [9]) = ([9], Ok [on_wire; on_wire]).
Proof.
  refine (frames_roundtrip DEFAULT_MAX_FRAME DEFAULT_MAX_FRAME "eof" [on_wire; on_wire] _ [9] _ _).
  - vm_compute. reflexivity.
  - apply Z.le_refl.
Defined.

(** Two of three nodes acknowledge, as required. *)
Definition batch_client : TlsBatchClient.t := TlsBatchClient.for_client [3] [7] "10.0.0.2:4000" "node-2" [200].

Lemma publisher_threshold_witness :
  TlsBatchPublisher.publish (TlsBatchPublisher.mk [batch_client; batch_client; batch_client] 2)
    [Ok tt; Err (QuePaxaError.TransportError "lost"); Ok tt] = Some (Ok tt).
Proof.
  refine (proj2 (proj2 (publisher_threshold [batch_client; batch_client; batch_client] 2
    (TlsBatchPublisher.mk [batch_client; batch_client; batch_client] 2)
    [Ok tt; Err (QuePaxaError.TransportError "lost"); Ok tt] _ _ _)) _).
  - discriminate.
  - reflexivity.
  - reflexivity.
  - vm_compute. discriminate.
Defined.

(** A conflict about a later decision of one announcement is reported for the
    first slot of the announcement. *)
Lemma remote_conflict_names_first_slot :
  wire_error_to_local (error_to_wire (QuePaxaError.ConflictingDecision 7))
    (Decision.slot <$> head [Decision.mk 5 [1] 1 4; Decision.mk 7 [2] 1 4])
  = QuePaxaError.ConflictingDecision 5.
Proof. reflexivity. Qed.
End ServerRuns.
