(* ===== verification/Tls.v ===== *)
(** * Mutual TLS configurations (src/network/tls.rs)

  The configurations a node serves and connects with, built from its identity
  and the trusted certificate authorities. rustls is a parameter: its root
  store, its client verifier and what it accepts as an identity. *)
From S2P Require Import Prelude Errors.

(** [b"quepaxa/1"]. *)
Definition ALPN_PROTOCOL : list Z := [113; 117; 101; 112; 97; 120; 97; 47; 49].

Module TlsIdentity.
Record t : Type := mk {
  certificate_chain_der : list (list Z);
  private_key_pkcs8_der : list Z;
}.

Definition quoted (s : string) : string :=
  let quote := String (Ascii.ascii_of_nat 34) EmptyString in quote +:+ s +:+ quote.

(** [format!("{identity:?}")]. *)
Definition debug (self : t) : string :=
  "TlsIdentity { certificate_chain_len: " +:+ pretty (len (certificate_chain_der self))
  +:+ ", private_key_pkcs8_der: " +:+ quoted "[redacted]" +:+ " }".

Definition certificate_chain (self : t) : list (list Z) := certificate_chain_der self.
Definition private_key (self : t) : list Z := private_key_pkcs8_der self.
End TlsIdentity.

(** What the code uses of rustls. A check returns the error it raises. *)
Class Rustls (RootCertStore Verifier : Type) : Type := {
  roots_empty : RootCertStore;
  roots_add : RootCertStore → list Z → RootCertStore + string;
  roots_is_empty : RootCertStore → bool;
  verifier_build : RootCertStore → Verifier + string;
  server_identity_error : list (list Z) → list Z → option string;
  client_identity_error : list (list Z) → list Z → option string;
}.

(** A new store holds nothing; one that took a certificate does not. *)
Class RustlsLaws (RootCertStore Verifier : Type) `{!Rustls RootCertStore Verifier} : Prop := {
  empty_is_empty : roots_is_empty roots_empty = true;
  add_is_not_empty store der store' :
    roots_add store der = inl store' → roots_is_empty store' = false;
}.

Section tls.
Context {RootCertStore Verifier : Type} `{!Rustls RootCertStore Verifier}.

Record ServerConfig : Type := Server {
  client_cert_verifier : Verifier;
  server_chain : list (list Z);
  server_key : list Z;
  server_alpn_protocols : list (list Z);
}.

Record ClientConfig : Type := Client {
  root_certificates : RootCertStore;
  client_chain : list (list Z);
  client_key : list Z;
  client_alpn_protocols : list (list Z);
}.

Definition transport_error {A} (what error : string) : Result A :=
  Err (QuePaxaError.TransportError (what +:+ ": " +:+ error)).

Fixpoint add_roots (roots : RootCertStore) (certificates : list (list Z)) : Result RootCertStore :=
  match certificates with
  | [] => Ok roots
  | certificate :: certificates =>
      match roots_add roots certificate with
      | inl roots => add_roots roots certificates
      | inr error => transport_error "invalid trusted CA certificate" error
      end
  end.

Definition root_store (certificates : list (list Z)) : Result RootCertStore :=
  let? roots := add_roots roots_empty certificates in
  reject roots_is_empty roots
    with QuePaxaError.TransportError "at least one trusted CA certificate is required" ;;
  Ok roots.

Record MutualTlsConfigs : Type := Configs { server : ServerConfig; client : ClientConfig }.

Definition new_configs (identity : TlsIdentity.t) (trusted_ca_der : list (list Z))
    : Result MutualTlsConfigs :=
  let chain := TlsIdentity.certificate_chain identity in
  let key := TlsIdentity.private_key identity in
  let? roots := root_store trusted_ca_der in
  let? verifier := match verifier_build roots with
    | inl verifier => Ok verifier
    | inr error => transport_error "could not build client certificate verifier" error
    end in
  let? server := match server_identity_error chain key with
    | None => Ok (Server verifier chain key [ALPN_PROTOCOL])
    | Some error => transport_error "invalid server TLS identity" error
    end in
  let? client := match client_identity_error chain key with
    | None => Ok (Client roots chain key [ALPN_PROTOCOL])
    | Some error => transport_error "invalid client TLS identity" error
    end in
  Ok (Configs server client).

Context `{!RustlsLaws RootCertStore Verifier}.

(** Without a certificate authority there is no configuration at all: a node
    cannot be set up to trust nobody, or anybody. *)
Lemma no_roots_without_authority : is_err (root_store []) = true.
Proof. unfold root_store. simpl. by rewrite empty_is_empty. Qed.

Lemma add_roots_not_empty certificates : ∀ roots roots',
  add_roots roots certificates = Ok roots' →
  certificates ≠ [] → roots_is_empty roots' = false.
Proof.
  induction certificates as [|c cs IH]; intros roots roots'; simpl; [done|].
  destruct (roots_add roots c) as [roots1|] eqn:Ha; [|done]. intros Hr _.
  destruct cs as [|c' cs]; [|by apply (IH _ _ Hr)].
  injection Hr as <-. by eapply add_is_not_empty.
Qed.

(** The side that accepts and the side that connects trust the same
    authorities, all of those given and at least one; both speak the crate's
    protocol only and present the same identity. *)
Lemma configs_agree identity trusted configs :
  new_configs identity trusted = Ok configs →
  trusted ≠ []
  ∧ add_roots roots_empty trusted = Ok (root_certificates (client configs))
  ∧ verifier_build (root_certificates (client configs)) = inl (client_cert_verifier (server configs))
  ∧ server_alpn_protocols (server configs) = [ALPN_PROTOCOL]
  ∧ client_alpn_protocols (client configs) = [ALPN_PROTOCOL]
  ∧ server_chain (server configs) = client_chain (client configs)
  ∧ server_key (server configs) = client_key (client configs).
Proof.
  unfold new_configs, root_store.
  destruct (add_roots _ _) as [roots|] eqn:Hr; simpl; [|done].
  destruct (roots_is_empty roots) eqn:He; simpl; [done|].
  destruct (verifier_build roots) as [verifier|] eqn:Hv; simpl; [|done].
  destruct (server_identity_error _ _); simpl; [done|].
  destruct (client_identity_error _ _); simpl; [done|]. intros [= <-]. simpl.
  split_and!; try done. intros ->. injection Hr as <-. by rewrite empty_is_empty in He.
Qed.

(** A list of certificates every one of which parses is accepted. *)
Lemma root_store_complete trusted :
  trusted ≠ [] → is_ok (add_roots roots_empty trusted) = true → is_ok (root_store trusted) = true.
Proof.
  unfold root_store. destruct (add_roots _ _) as [roots|] eqn:Hr; [|done]. intros Hne _. simpl.
  by rewrite (add_roots_not_empty _ _ _ Hr Hne).
Qed.
End tls.

(** What is printed of an identity does not depend on its key. *)
Lemma debug_hides_the_key chain key1 key2 :
  TlsIdentity.debug (TlsIdentity.mk chain key1) = TlsIdentity.debug (TlsIdentity.mk chain key2).
Proof. done. Qed.
