(* ===== verification/Listener.v ===== *)
(** * The accept loop (src/network/server.rs)

  [NetworkNodeServer::run] accepts connections until it is told to shut down.
  Each accepted connection is a task that holds a permit of a semaphore, goes
  through the handshake with the TLS configuration of the moment it was
  accepted, and serves one request; tasks interleave with each other and with
  whoever edits the registries. [Server.serve] is one such task run on its own. *)
From S2P Require Import Prelude Errors Types Membership Recorder Proposer Durable Runtime Codec.
From S2P Require Import Batch Wire Transport Server Metrics.
Import NetworkNodeServer.

(** The lock of the registry is taken also when it is poisoned. *)
Module ServerTlsRegistry.
Section registry.
Context {Config : Type}.
Definition t : Type := Config.
Definition new (config : Config) : t := config.
Definition replace (self : t) (config : Config) : t := config.
Definition current (self : t) : Config := self.
End registry.
Arguments t : clear implicits.
End ServerTlsRegistry.

(** A submission handler given by a function keeps no state and ignores
    delivered decisions, as the trait's default does. *)
Module FnSubmissionHandler.
Definition t (V : Type) : Type := Submission.t V → Result (SubmissionOutcome.t V).
#[export] Instance service {V} : SubmissionService V (t V) := {|
  submit := λ f submission, (f, f submission);
  receive_decisions := λ f decisions, (f, Ok tt);
|}.
End FnSubmissionHandler.

(** [tokio::sync::Semaphore]: [new] panics above [MAX_PERMITS]. *)
Module Semaphore.
Definition MAX_PERMITS : Z := U64.MAX / 8.
Definition new (permits : Z) : option Z := if permits <=? MAX_PERMITS then Some permits else None.
Definition try_acquire (permits : Z) : option Z := if 0 <? permits then Some (permits - 1) else None.
Definition release (permits : Z) : Z := permits + 1.
End Semaphore.

Module AcceptLoop.
Section listener.
Context {V C H B Config : Type}.
Context `{!RecorderService V C, !SubmissionService V H, !BatchService V B}.
Context `{!U32Stream, !Postcard (NodeRequest.t V), !Postcard (NodeResponse.t V)}.
Abbreviation server_t := (NetworkNodeServer.t C H B).

(** ** One request, between two waits *)

(** The checks of [dispatch] before its [match]. *)
Definition admitted (self : server_t) (peer : PeerIdentity.t) (request : NodeRequest.t V) : bool :=
  (NodeRequest.version request =? WIRE_VERSION)
  && bool_decide (NodeRequest.deployment request = deployment self)
  && PeerIdentity.matches_sender peer (NodeRequest.sender request).

(** Informing is the one request that touches two components, the recorder
    and then the handler; others run in between. *)
Definition dispatch_begin (self : server_t) (peer : PeerIdentity.t) (request : NodeRequest.t V)
    : server_t * (Result (ResponseBody.t V) + list (Decision.t V)) :=
  match peer, NodeRequest.body request with
  | PeerIdentity.Replica _, RequestBody.InformDecisions decisions =>
      if admitted self peer request then
        match with_recorder self (λ c, serve_inform c decisions) with
        | (self, Err e) => (self, inl (Err e))
        | (self, Ok _) => (self, inr decisions)
        end
      else let '(self, r) := dispatch self peer request in (self, inl r)
  | _, _ => let '(self, r) := dispatch self peer request in (self, inl r)
  end.

Definition dispatch_inform (self : server_t) (decisions : list (Decision.t V))
    : server_t * Result (ResponseBody.t V) :=
  let '(h, r) := receive_decisions (handler self) decisions in
  (set_handler self h, let? _ := r in Ok ResponseBody.Ack).

(** What [read_frame] counts: a frame that arrived whole, decodable or not. *)
Definition frame_bytes (max_frame : Z) (stream : list Z) : option Z :=
  match get_u32 stream with
  | Some (length, rest) =>
      if (length =? 0) || (max_frame <? length) || (len rest <? length) then None
      else Some (length + 4)
  | None => None
  end.

(** ** The loop and its tasks *)

Inductive stage : Type :=
| Handshaking
| Reading (peer : PeerIdentity.t)
| Informing (request_id : Z) (decisions : list (Decision.t V))
| Replying (request_id : Z) (result : Result (ResponseBody.t V)).

(** A task, with the TLS configuration it was given. *)
Record conn : Type := Conn { acceptor : Config; at_stage : stage }.

(** [ended] is what [run] returned; [outbox] lists what the tasks wrote, and
    [results] what [serve] returned to them (the errors are logged). *)
Record t : Type := mk {
  server : server_t;
  tls : ServerTlsRegistry.t Config;
  metrics : NetworkMetrics.t;
  permits : Z;
  connections : gmap nat conn;
  ended : option (Result unit);
  outbox : list (nat * list Z);
  results : list (nat * Result unit);
}.

Definition set_server (self : t) x : t :=
  mk x (tls self) (metrics self) (permits self) (connections self) (ended self) (outbox self)
     (results self).
Definition set_tls (self : t) x : t :=
  mk (server self) x (metrics self) (permits self) (connections self) (ended self) (outbox self)
     (results self).
Definition set_metrics (self : t) x : t :=
  mk (server self) (tls self) x (permits self) (connections self) (ended self) (outbox self)
     (results self).
Definition set_connections (self : t) p x : t :=
  mk (server self) (tls self) (metrics self) p x (ended self) (outbox self)
     (results self).
Definition set_outbox (self : t) x : t :=
  mk (server self) (tls self) (metrics self) (permits self) (connections self) (ended self) x
     (results self).
Definition set_results (self : t) x : t :=
  mk (server self) (tls self) (metrics self) (permits self) (connections self) (ended self)
     (outbox self) x.
Definition set_peers (self : t) (registry : PeerRegistry.t) : t :=
  let s := server self in
  set_server self (NetworkNodeServer.mk (deployment s) registry (recorder s) (recorder_poisoned s)
                     (handler s) (batch_service s) (max_frame s) (max_connections s)).

(** [run], up to its loop; [None] is the panic of [Semaphore::new]. *)
Definition start (s : server_t) (config : Config) (counters : NetworkMetrics.t) : option t :=
  match Semaphore.new (max_connections s) with
  | None => None
  | Some permits => Some (mk s (ServerTlsRegistry.new config) counters permits ∅ None [] [])
  end.

Definition goes_on (self : t) (id : nat) (c : conn) (next : stage) : t :=
  set_connections self (permits self) (<[id := Conn (acceptor c) next]> (connections self)).

(** The task is over, and its permit is free. *)
Definition finish (self : t) (id : nat) : t :=
  set_connections self (Semaphore.release (permits self)) (delete id (connections self)).

(** [serve] returns to its task. *)
Definition returns (self : t) (id : nat) (r : Result unit) : t :=
  finish (set_results self (results self ++ [(id, r)])) id.

(** [run] returns, and the set of tasks is dropped with it: every task is
    aborted and gives up its permit. *)
Definition abort_all (self : t) (r : Result unit) : t :=
  mk (server self) (tls self) (metrics self) (permits self + Z.of_nat (size (connections self))) ∅
     (Some r) (outbox self) (results self).

(** What the surroundings do: the listener yields a connection or an error, a
    task's wait is over, somebody edits a registry, the token is cancelled. *)
Inductive action : Type :=
| Accept (id : nat)
| AcceptFails (error : string)
| Handshake (id : nat) (tls_error : option string) (certificates : option (list (list Z)))
| Request (id : nat) (received : list Z) (eof : string)
| Inform (id : nat)
| Reply (id : nat) (io : write_io)
| Panic (id : nat)
| ReplaceTls (config : Config)
| Authorize (certificate : list Z) (who : PeerIdentity.t)
| Revoke (certificate : list Z)
| ReplacePeers (peers : PeerRegistry.t)
| Shutdown.

Definition accept (self : t) (id : nat) : t :=
  let self := set_metrics self (NetworkMetrics.connection_accepted (metrics self)) in
  match Semaphore.try_acquire (permits self) with
  | None => set_metrics self (NetworkMetrics.request_failed (metrics self))
  | Some permits =>
      set_connections self permits
        (<[id := Conn (ServerTlsRegistry.current (tls self)) Handshaking]> (connections self))
  end.

Definition unauthenticated (self : t) (id : nat) (error : string) : t :=
  returns (set_metrics self (NetworkMetrics.authentication_failed (metrics self))) id
          (Err (QuePaxaError.TransportError error)).

Definition handshake (self : t) (id : nat) (c : conn) (tls_error : option string)
    (certificates : option (list (list Z))) : t :=
  match tls_error with
  | Some error => unauthenticated self id ("mutual TLS handshake failed: " +:+ error)
  | None =>
      match certificates ≫= head with
      | None => unauthenticated self id "TLS peer did not present a certificate"
      | Some certificate =>
          match PeerRegistry.identity_for (peers (server self)) certificate with
          | None =>
              unauthenticated self id "TLS peer certificate is not bound to a configured identity"
          | Some peer => goes_on self id c (Reading peer)
          end
      end
  end.

(** A failed request is counted, and answered with its error. *)
Definition answered (self : t) (id : nat) (c : conn) (request_id : Z)
    (r : Result (ResponseBody.t V)) : t :=
  let self := match r with
              | Ok _ => self
              | Err _ => set_metrics self (NetworkMetrics.request_failed (metrics self))
              end in
  goes_on self id c (Replying request_id r).

Definition read_request (self : t) (id : nat) (c : conn) (peer : PeerIdentity.t)
    (received : list Z) (eof : string) : t :=
  let self := match frame_bytes (max_frame (server self)) received with
              | Some bytes => set_metrics self (NetworkMetrics.request_received (metrics self) bytes)
              | None => self
              end in
  match (read_frame (T:=NodeRequest.t V) (max_frame (server self)) eof received).2 with
  | Err e => returns self id (Err e)
  | Ok request =>
      let '(s, r) := dispatch_begin (server self) peer request in
      let self := set_server self s in
      match r with
      | inl r => answered self id c (NodeRequest.request_id request) r
      | inr decisions => goes_on self id c (Informing (NodeRequest.request_id request) decisions)
      end
  end.

Definition reply (self : t) (id : nat) (request_id : Z) (r : Result (ResponseBody.t V))
    (io : write_io) : t :=
  let body := match r with
              | Ok body => body
              | Err error => ResponseBody.Error (error_to_wire error)
              end in
  let '(sent, written) :=
    write_frame (NodeResponse.mk WIRE_VERSION (deployment (server self)) request_id body)
                (max_frame (server self)) io in
  let self := set_outbox self (outbox self ++ [(id, sent)]) in
  let self := match written with
              | Ok bytes => set_metrics self (NetworkMetrics.response_sent (metrics self) bytes)
              | Err _ => self
              end in
  returns self id (let? _ := written in Ok tt).

Definition step (self : t) (a : action) : option t :=
  match ended self with
  | Some _ => None
  | None =>
  match a with
  | Accept id =>
      if bool_decide (is_Some (connections self !! id)) then None else Some (accept self id)
  | AcceptFails error =>
      Some (abort_all self (Err (QuePaxaError.TransportError ("node accept failed: " +:+ error))))
  | Handshake id tls_error certificates =>
      match connections self !! id with
      | Some (Conn _ Handshaking as c) => Some (handshake self id c tls_error certificates)
      | _ => None
      end
  | Request id received eof =>
      match connections self !! id with
      | Some (Conn _ (Reading peer) as c) => Some (read_request self id c peer received eof)
      | _ => None
      end
  | Inform id =>
      match connections self !! id with
      | Some (Conn _ (Informing request_id decisions) as c) =>
          let '(s, r) := dispatch_inform (server self) decisions in
          Some (answered (set_server self s) id c request_id r)
      | _ => None
      end
  | Reply id io =>
      match connections self !! id with
      | Some (Conn _ (Replying request_id r)) => Some (reply self id request_id r io)
      | _ => None
      end
  | Panic id => if bool_decide (is_Some (connections self !! id)) then Some (finish self id) else None
  | ReplaceTls config => Some (set_tls self (ServerTlsRegistry.replace (tls self) config))
  | Authorize certificate who =>
      Some (set_peers self (PeerRegistry.authorize (peers (server self)) certificate who))
  | Revoke certificate =>
      Some (set_peers self (PeerRegistry.revoke (peers (server self)) certificate).1)
  | ReplacePeers registry =>
      Some (set_peers self (PeerRegistry.replace (peers (server self)) registry).1)
  | Shutdown => Some (abort_all self (Ok tt))
  end
  end.

Fixpoint steps (self : t) (actions : list action) : option t :=
  match actions with
  | [] => Some self
  | a :: actions => step self a ≫= λ self, steps self actions
  end.
End listener.
Arguments t V C H B Config : clear implicits.
Arguments conn V Config : clear implicits.
Arguments stage V : clear implicits.
Arguments action Config : clear implicits.
End AcceptLoop.
Import AcceptLoop.

(** ** The number of connections *)

Section bounds.
Context {V C H B Config : Type}.
Context `{!RecorderService V C, !SubmissionService V H, !BatchService V B}.
Context `{!U32Stream, !Postcard (NodeRequest.t V), !Postcard (NodeResponse.t V)}.
Implicit Types (self l : AcceptLoop.t V C H B Config).

Lemma answer_settings (s : NetworkNodeServer.t C H B) peer (body : RequestBody.t V) :
  max_connections (answer s peer body).1 = max_connections s
  ∧ peers (answer s peer body).1 = peers s.
Proof.
  unfold answer, with_recorder. destruct peer, body; simpl; repeat (case_match; simplify_eq/=); done.
Qed.

Lemma dispatch_settings (s : NetworkNodeServer.t C H B) peer (request : NodeRequest.t V) :
  max_connections (dispatch s peer request).1 = max_connections s
  ∧ peers (dispatch s peer request).1 = peers s.
Proof.
  unfold dispatch. destruct (negb _); [done|]. destruct (negb _); [done|]. destruct (negb _); [done|].
  apply answer_settings.
Qed.

Lemma dispatch_begin_settings (s : NetworkNodeServer.t C H B) peer (request : NodeRequest.t V) :
  max_connections (dispatch_begin s peer request).1 = max_connections s
  ∧ peers (dispatch_begin s peer request).1 = peers s.
Proof.
  pose proof (dispatch_settings s peer request) as Hd. unfold dispatch_begin, with_recorder.
  destruct (dispatch s peer request) as [s' r].
  destruct peer, (NodeRequest.body request); simpl in *; try done.
  repeat (case_match; simplify_eq/=; try done).
Qed.

(** Permits are held by the connections under way, or free. *)
Record balanced (limit : Z) self : Prop := {
  bl_free : 0 ≤ permits self;
  bl_held : permits self + Z.of_nat (size (connections self)) = limit;
  bl_ended : is_Some (ended self) → connections self = ∅;
}.

Lemma balanced_frame limit self self' :
  permits self' = permits self → connections self' = connections self → ended self' = ended self →
  balanced limit self → balanced limit self'.
Proof. intros Hp Hc He [H1 H2 H3]. split; rewrite ?Hp, ?Hc, ?He; done. Qed.

Lemma finish_balanced limit self id c :
  connections self !! id = Some c → balanced limit self → balanced limit (finish self id).
Proof.
  intros Hc [H1 H2 H3]. unfold finish, Semaphore.release. split; simpl; [lia| |].
  - rewrite map_size_delete_Some by by eexists.
    assert (0 < size (connections self))%nat; [|lia].
    destruct (size (connections self)) eqn:Hs; [|lia]. apply map_size_empty_inv in Hs.
    by rewrite Hs in Hc.
  - intros He. rewrite (H3 He) in Hc. done.
Qed.

Lemma goes_on_balanced limit self id c c' next :
  connections self !! id = Some c → balanced limit self → balanced limit (goes_on self id c' next).
Proof.
  intros Hc [H1 H2 H3]. unfold goes_on. split; simpl; [done| |].
  - rewrite map_size_insert_Some by by eexists. done.
  - intros He. rewrite (H3 He) in Hc. done.
Qed.

Lemma answered_balanced limit self id c c' rid r :
  connections self !! id = Some c → balanced limit self → balanced limit (answered self id c' rid r).
Proof.
  intros Hc Hb. unfold answered. destruct r; (eapply goes_on_balanced; [done|]); [done|].
  by eapply balanced_frame, Hb.
Qed.

Lemma accept_balanced limit self id :
  connections self !! id = None → ended self = None → balanced limit self →
  balanced limit (accept self id).
Proof.
  intros Hn He [H1 H2 H3]. unfold accept, Semaphore.try_acquire. simpl.
  destruct (Z.ltb_spec 0 (permits self)); split; simpl; try done; try lia.
  - rewrite map_size_insert_None by done. lia.
  - rewrite He. by intros [? ?].
Qed.

Lemma abort_balanced limit self r : balanced limit self → balanced limit (abort_all self r).
Proof.
  intros [H1 H2 H3]. unfold abort_all. split; simpl; [lia| |done]. rewrite map_size_empty. lia.
Qed.

Lemma step_balanced limit self self' a :
  step self a = Some self' → balanced limit self → balanced limit self'.
Proof.
  unfold step. destruct (ended self) eqn:He; [done|].
  destruct a as [id|error|id te certs|id rc eof|id|id io|id|config|ct who|ct|reg|]; intros Hs Hb.
  - case_bool_decide as Hc; [done|]. simplify_eq. apply accept_balanced; [|done..].
    destruct (connections self !! id); [|done]. destruct Hc. by eexists.
  - simplify_eq. by apply abort_balanced.
  - destruct (connections self !! id) as [[cfg []]|] eqn:Hc; try done. simplify_eq.
    assert (∀ m r, balanced limit (returns (set_metrics self m) id r)) as Hf.
    { intros m r. eapply finish_balanced; [done|]. by eapply balanced_frame, Hb. }
    unfold handshake, unauthenticated. destruct te; [done|]. destruct (certs ≫= head); [|done].
    destruct (PeerRegistry.identity_for _ _); [|done]. by eapply goes_on_balanced.
  - destruct (connections self !! id) as [[cfg [|peer| |]]|] eqn:Hc; try done. simplify_eq.
    unfold read_request. set (self1 := match frame_bytes _ _ with Some _ => _ | None => _ end).
    assert (balanced limit self1 ∧ connections self1 !! id = Some (Conn cfg (Reading peer))) as [Hb1 Hc1].
    { subst self1. destruct (frame_bytes _ _); [|done]. split; [by eapply balanced_frame, Hb|done]. }
    destruct (read_frame _ _ _).2 as [request|e]; [|eapply finish_balanced; [done|by eapply balanced_frame, Hb1]].
    destruct (dispatch_begin _ _ _) as [s [r|ds]].
    + eapply answered_balanced; [done|]. by eapply balanced_frame, Hb1.
    + eapply goes_on_balanced; [done|]. by eapply balanced_frame, Hb1.
  - destruct (connections self !! id) as [[cfg [| |rid ds|]]|] eqn:Hc; try done.
    destruct (dispatch_inform _ _) as [s r]. simplify_eq.
    eapply answered_balanced; [done|]. by eapply balanced_frame, Hb.
  - destruct (connections self !! id) as [[cfg [| | |rid r]]|] eqn:Hc; try done. simplify_eq.
    unfold reply. destruct (write_frame _ _ _) as [sent [n|e]];
      (eapply finish_balanced; [done|]); by eapply balanced_frame, Hb.
  - case_bool_decide as Hc; [|done]. simplify_eq. destruct Hc as [c Hc]. by eapply finish_balanced.
  - simplify_eq. by eapply balanced_frame, Hb.
  - simplify_eq. by eapply balanced_frame, Hb.
  - simplify_eq. by eapply balanced_frame, Hb.
  - simplify_eq. by eapply balanced_frame, Hb.
  - simplify_eq. by apply abort_balanced.
Qed.

Lemma steps_balanced limit self self' actions :
  steps self actions = Some self' → balanced limit self → balanced limit self'.
Proof.
  revert self. induction actions as [|a actions IH]; intros self; simpl; [by intros [= ->]|].
  destruct (step self a) as [self1|] eqn:Hs; [simpl|done]. intros Ha Hb.
  by eapply IH; [|eapply step_balanced].
Qed.

Lemma start_balanced s config m l :
  0 ≤ max_connections s → start s config m = Some l → balanced (max_connections s) l.
Proof.
  intros Hs. unfold start, Semaphore.new. destruct (_ <=? _); [|done]. intros [= <-].
  split; simpl; [done| |by intros [? ?]]. rewrite map_size_empty. lia.
Qed.

(** C28: A node serves at most [max_connections] connections at a time. Take any
    run of the accept loop: connections arrive, handshakes and requests
    succeed or fail, tasks panic, registries are edited, the listener fails or
    is shut down. The permits that are free and the connections under way add
    up to the limit, and when [run] has returned no connection is left. *)
Theorem connections_are_limited s config m l0 actions l :
  0 < max_connections s → start s config m = Some l0 → steps l0 actions = Some l →
  Z.of_nat (size (connections l)) ≤ max_connections s
  ∧ permits l = max_connections s - Z.of_nat (size (connections l))
  ∧ (is_Some (ended l) → connections l = ∅).
Proof.
  intros Hm Hst Hs. apply start_balanced in Hst; [|lia].
  destruct (steps_balanced _ _ _ _ Hs Hst) as [H1 H2 H3]. split_and!; [lia|lia|done].
Qed.
End bounds.

(** ** Which peer a connection speaks for *)

Section provenance.
Context {V C H B Config : Type}.
Context `{!RecorderService V C, !SubmissionService V H, !BatchService V B}.
Context `{!U32Stream, !Postcard (NodeRequest.t V), !Postcard (NodeResponse.t V)}.
Implicit Types (self l : AcceptLoop.t V C H B Config).

Lemma steps_app self actions actions' :
  steps self (actions ++ actions') = steps self actions ≫= λ self, steps self actions'.
Proof.
  revert self. induction actions as [|a actions IH]; intros self; simpl; [done|].
  destruct (step self a); [simpl; apply IH|done].
Qed.

(** An action was taken in a state, on the way. *)
Definition happened l0 (actions : list (action Config)) (P : AcceptLoop.t V C H B Config → action Config → Prop)
    : Prop :=
  ∃ before a after mid, actions = before ++ a :: after ∧ steps l0 before = Some mid ∧ P mid a.

Lemma happened_before l0 actions a P : happened l0 actions P → happened l0 (actions ++ [a]) P.
Proof.
  intros (before & b & after & mid & -> & Hs & Hp). exists before, b, (after ++ [a]), mid.
  by rewrite <-app_assoc.
Qed.

Lemma happened_now l0 actions a mid (P : _ → _ → Prop) :
  steps l0 actions = Some mid → P mid a → happened l0 (actions ++ [a]) P.
Proof. intros Hs Hp. by exists actions, a, [], mid. Qed.

(** The connection was accepted with this configuration; past the handshake,
    its peer is who the registry said its first certificate belongs to. *)
Definition accepted_with id (config : Config) self (a : action Config) : Prop :=
  a = Accept id ∧ tls self = config.
Definition authenticated_as id peer self (a : action Config) : Prop :=
  ∃ certificate rest, a = Handshake id None (Some (certificate :: rest))
    ∧ PeerRegistry.identity_for (peers (server self)) certificate = Some peer.

Definition vouched l0 actions (id : nat) (c : conn V Config) : Prop :=
  happened l0 actions (accepted_with id (acceptor c))
  ∧ (at_stage c ≠ Handshaking →
       ∃ peer, happened l0 actions (authenticated_as id peer)
         ∧ ∀ peer', at_stage c = Reading peer' → peer' = peer).

Lemma vouched_before l0 actions a id c : vouched l0 actions id c → vouched l0 (actions ++ [a]) id c.
Proof.
  intros [Ha Hp]. split; [by apply happened_before|]. intros Hs. destruct (Hp Hs) as (peer & Hh & He).
  exists peer. by split; [apply happened_before|].
Qed.

(** Past its request a connection is still its peer's. *)
Lemma vouched_on l0 actions id c next :
  vouched l0 actions id c → at_stage c ≠ Handshaking → (∀ peer, next ≠ Reading peer) →
  vouched l0 actions id (Conn (acceptor c) next).
Proof.
  intros [Ha Hp] Hs Hn. split; [done|]. intros _. destruct (Hp Hs) as (peer & Hh & _).
  exists peer. split; [done|]. intros peer' Heq. by destruct (Hn peer').
Qed.

Definition all_vouched l0 actions self : Prop :=
  ∀ id c, connections self !! id = Some c → vouched l0 actions id c.

Lemma finish_vouched l0 actions self id :
  all_vouched l0 actions self → all_vouched l0 actions (finish self id).
Proof. intros Hv j c. simpl. rewrite lookup_delete_Some. intros [_ ?]. by apply Hv. Qed.

Lemma returns_vouched l0 actions self id r :
  all_vouched l0 actions self → all_vouched l0 actions (returns self id r).
Proof. intros Hv. by apply finish_vouched. Qed.

Lemma goes_on_vouched l0 actions self id c next :
  all_vouched l0 actions self → vouched l0 actions id (Conn (acceptor c) next) →
  all_vouched l0 actions (goes_on self id c next).
Proof.
  intros Hv Hc j c'. simpl. rewrite lookup_insert_Some. intros [[<- <-]|[_ ?]]; [done|by apply Hv].
Qed.

Lemma step_vouched l0 actions self self' a :
  steps l0 actions = Some self → step self a = Some self' →
  all_vouched l0 actions self → all_vouched l0 (actions ++ [a]) self'.
Proof.
  intros Hst Hs Hv0.
  assert (all_vouched l0 (actions ++ [a]) self) as Hv by (intros j c Hj; by apply vouched_before, Hv0).
  unfold step in Hs. destruct (ended self); [done|].
  destruct a as [id|error|id te certs|id rc eof|id|id io|id|config|ct who|ct|reg|].
  - case_bool_decide; [done|]. simplify_eq. unfold accept.
    destruct (Semaphore.try_acquire _); [|done]. intros j c. simpl. rewrite lookup_insert_Some.
    intros [[<- <-]|[_ ?]]; [|by apply Hv]. split; [|done].
    apply (happened_now _ _ _ self); [done|]. by split.
  - simplify_eq. by intros j c.
  - destruct (connections self !! id) as [[cfg []]|] eqn:Hc; try done. simplify_eq.
    unfold handshake, unauthenticated. destruct te as [e|]; [by apply returns_vouched|].
    destruct certs as [[|certificate rest]|]; simpl; [by apply returns_vouched| |by apply returns_vouched].
    destruct (PeerRegistry.identity_for _ _) as [peer|] eqn:Hp; [|by apply returns_vouched].
    apply goes_on_vouched; [done|]. split; [apply (Hv _ _ Hc)|]. intros _. exists peer.
    split; [|by intros ? [= ->]]. apply (happened_now _ _ _ self); [done|]. by exists certificate, rest.
  - destruct (connections self !! id) as [[cfg [|peer| |]]|] eqn:Hc; try done. simplify_eq.
    assert (∀ next, (∀ p, next ≠ Reading p) → vouched l0 (actions ++ [Request id rc eof]) id (Conn cfg next))
      as Hon by (intros next Hn; by apply (vouched_on _ _ _ (Conn cfg (Reading peer))); [apply Hv| |]).
    unfold read_request. set (self1 := match frame_bytes _ _ with Some _ => _ | None => _ end).
    assert (all_vouched l0 (actions ++ [Request id rc eof]) self1) as Hv1.
    { subst self1. by destruct (frame_bytes _ _). }
    destruct (read_frame _ _ _).2 as [request|e]; [|by apply returns_vouched].
    destruct (dispatch_begin _ _ _) as [s [[r|r]|ds]]; unfold answered;
      apply goes_on_vouched; try done; by apply Hon.
  - destruct (connections self !! id) as [[cfg [| |rid ds|]]|] eqn:Hc; try done.
    destruct (dispatch_inform _ _) as [s r]. simplify_eq. unfold answered.
    destruct r; apply goes_on_vouched; try done;
      by apply (vouched_on _ _ _ (Conn cfg (Informing rid ds))); [apply Hv| |].
  - destruct (connections self !! id) as [[cfg [| | |rid r]]|] eqn:Hc; try done. simplify_eq.
    unfold reply. destruct (write_frame _ _ _) as [sent [n|e]]; by apply returns_vouched.
  - case_bool_decide; [|done]. simplify_eq. by apply finish_vouched.
  - by simplify_eq.
  - by simplify_eq.
  - by simplify_eq.
  - by simplify_eq.
  - simplify_eq. by intros j c.
Qed.

Lemma steps_vouched s config m l0 actions l :
  start s config m = Some l0 → steps l0 actions = Some l → all_vouched l0 actions l.
Proof.
  intros Hst. revert l. induction actions as [|a actions IH] using rev_ind; intros l Hs.
  - simpl in Hs. simplify_eq. unfold start in Hst. destruct (Semaphore.new _); [|done]. simplify_eq.
    by intros j c.
  - rewrite steps_app in Hs. destruct (steps l0 actions) as [mid|] eqn:Hm; [simpl in Hs|done].
    destruct (step mid a) as [l1|] eqn:Ha; [|done]. simpl in Hs. injection Hs as <-.
    by eapply step_vouched; [| |apply IH].
Qed.

(** C27: A connection is who its certificate says, however it interleaves. In
    any run of the accept loop, every connection under way was accepted with
    the TLS configuration that was current at that moment, whatever replaced
    it since; and one that is past its handshake speaks for the peer to whom
    the registry, at the moment of the handshake, bound the first certificate
    it presented. *)
Theorem connections_are_vouched_for s config m l0 actions l id (c : conn V Config) :
  start s config m = Some l0 → steps l0 actions = Some l → connections l !! id = Some c →
  happened l0 actions (accepted_with id (acceptor c))
  ∧ ∀ peer, at_stage c = Reading peer → happened l0 actions (authenticated_as id peer).
Proof.
  intros Hst Hs Hc. destruct (steps_vouched _ _ _ _ _ _ Hst Hs id c Hc) as [Ha Hp].
  split; [done|]. intros peer Hr.
  destruct Hp as (peer' & Hh & He); [congruence|].
  by rewrite (He peer Hr).
Qed.
End provenance.

(** ** One connection on its own *)

Section alone.
Context {V C H B Config : Type}.
Context `{!RecorderService V C, !SubmissionService V H, !BatchService V B}.
Context `{!U32Stream, !Postcard (NodeRequest.t V), !Postcard (NodeResponse.t V)}.
Implicit Types (self l : AcceptLoop.t V C H B Config).

(** The two halves of [dispatch] make the whole. *)
Lemma dispatch_halves (s : NetworkNodeServer.t C H B) peer (request : NodeRequest.t V) :
  dispatch s peer request
  = match dispatch_begin s peer request with
    | (s, inl r) => (s, r)
    | (s, inr decisions) => dispatch_inform s decisions
    end.
Proof.
  unfold dispatch_begin. destruct peer as [k|k]; destruct (NodeRequest.body request) eqn:Hb;
    try (by destruct (dispatch s _ request)).
  unfold admitted. destruct (_ && _) eqn:Ha; [|by destruct (dispatch s _ request)].
  rewrite !andb_true_iff in Ha. destruct Ha as [[Hv Hd] Hm].
  unfold dispatch. rewrite Hv, Hd, Hm. simpl. rewrite Hb. unfold dispatch_inform. simpl.
  by destruct (with_recorder _ _) as [s' [[]|e]].
Qed.

(** What a task that waits at a stage gets from its own connection. *)
Definition awaits (id : nat) (conn : incoming) (at_stage : stage V) : action Config :=
  match at_stage with
  | Handshaking => Handshake id (tls_error conn) (certificates conn)
  | Reading _ => Request id (received conn) (eof conn)
  | Informing _ _ => Inform id
  | Replying _ _ => Reply id (replying conn)
  end.

(** The task of [id] runs until it is over, nothing else happening: at most
    four waits. *)
Fixpoint drive (fuel : nat) (id : nat) (conn : incoming) (self : AcceptLoop.t V C H B Config)
    : option (AcceptLoop.t V C H B Config) :=
  match connections self !! id with
  | None => Some self
  | Some c =>
      match fuel with
      | O => None
      | S fuel => step self (awaits id conn (at_stage c)) ≫= drive fuel id conn
      end
  end.

Lemma drive_eq fuel id conn self :
  drive fuel id conn self
  = match connections self !! id with
    | None => Some self
    | Some c =>
        match fuel with
        | O => None
        | S fuel => step self (awaits id conn (at_stage c)) ≫= drive fuel id conn
        end
    end.
Proof. by destruct fuel. Qed.
#[local] Arguments drive : simpl never.

(** What a task leaves behind when nothing else happened. *)
Record served l id s' (sent : list Z) (r : Result unit) l' : Prop := {
  sv_server : server l' = s';
  sv_ended : ended l' = None;
  sv_permits : permits l' = permits l;
  sv_connections : connections l' = connections l;
  sv_outbox : ∃ out, outbox l' = outbox l ++ out ∧ Forall (λ x, x.1 = id) out ∧ out ≫= snd = sent;
  sv_results : results l' = results l ++ [(id, r)];
}.

Section task.
Context l (id : nat) (conn : incoming) (Hfree : connections l !! id = None).

(** The listener with the task at a stage, [m] being what was counted. *)
Definition at_work s m (next : stage V) : AcceptLoop.t V C H B Config :=
  AcceptLoop.mk s (tls l) m (permits l - 1) (<[id := Conn (tls l) next]> (connections l)) None
                (outbox l) (results l).

Lemma drive_waits fuel s m next :
  drive (S fuel) id conn (at_work s m next)
  = step (at_work s m next) (awaits id conn next) ≫= drive fuel id conn.
Proof.
  rewrite drive_eq. unfold at_work at 1. cbn [connections]. by rewrite lookup_insert_eq.
Qed.

Lemma drive_over fuel self : connections self !! id = None → drive fuel id conn self = Some self.
Proof. intros Hc. by rewrite drive_eq, Hc. Qed.

Lemma goes_on_at_work s m next next' :
  goes_on (at_work s m next) id (Conn (tls l) next) next' = at_work s m next'.
Proof. unfold goes_on, set_connections, at_work. simpl. by rewrite insert_insert_eq. Qed.

(** [serve] returns without having written anything. *)
Lemma returns_alone fuel s m next r :
  ∃ l', drive fuel id conn (returns (at_work s m next) id r) = Some l' ∧ served l id s [] r l'.
Proof using Hfree.
  eexists. split; [apply drive_over; simpl; by rewrite delete_insert_eq, ?lookup_delete_eq|].
  unfold returns, finish, at_work, Semaphore.release. split; simpl; try done; [lia| |].
  - by rewrite delete_insert_id.
  - exists []. by rewrite app_nil_r.
Qed.

Lemma reply_alone fuel s m rid (r : Result (ResponseBody.t V)) sent written :
  write_frame (NodeResponse.mk WIRE_VERSION (deployment s) rid
    match r with Ok body => body | Err error => ResponseBody.Error (error_to_wire error) end)
    (max_frame s) (replying conn) = (sent, written) →
  ∃ l', drive (S fuel) id conn (at_work s m (Replying rid r)) = Some l'
    ∧ served l id s sent (let? _ := written in Ok tt) l'.
Proof using Hfree.
  intros Hw. rewrite drive_waits. simpl. unfold step. simpl. rewrite lookup_insert_eq. unfold reply.
  simpl. rewrite Hw. simpl. eexists. split; [apply drive_over; simpl; destruct written; simpl|].
  1,2: by rewrite delete_insert_eq, ?lookup_delete_eq.
  destruct written as [n|e]; unfold returns, finish, Semaphore.release;
    (split; simpl; [done|done|lia|by rewrite delete_insert_id| |done]); exists [(id, sent)];
    simpl; rewrite app_nil_r; split_and!; try done; by repeat constructor.
Qed.

Lemma answered_at_work s m next rid (r : Result (ResponseBody.t V)) :
  ∃ m', answered (at_work s m next) id (Conn (tls l) next) rid r = at_work s m' (Replying rid r).
Proof.
  unfold answered. destruct r as [body|e]; [exists m; apply goes_on_at_work|].
  exists (NetworkMetrics.request_failed m). apply (goes_on_at_work s (NetworkMetrics.request_failed m)).
Qed.

Lemma request_alone fuel s m peer s' sent r :
  (s', sent, r)
  = match (read_frame (T:=NodeRequest.t V) (max_frame s) (eof conn) (received conn)).2 with
    | Err e => (s, [], Err e)
    | Ok request =>
        let '(s', r) := dispatch s peer request in
        let '(sent, written) :=
          write_frame (NodeResponse.mk WIRE_VERSION (deployment s') (NodeRequest.request_id request)
            match r with Ok body => body | Err error => ResponseBody.Error (error_to_wire error) end)
            (max_frame s') (replying conn) in
        (s', sent, let? _ := written in Ok tt)
    end →
  ∃ l', drive (S (S (S fuel))) id conn (at_work s m (Reading peer)) = Some l'
    ∧ served l id s' sent r l'.
Proof using Hfree.
  intros Hs. rewrite drive_waits. simpl. unfold step. simpl. rewrite lookup_insert_eq. simpl.
  unfold read_request. set (self1 := match frame_bytes _ _ with Some _ => _ | None => _ end).
  assert (∃ m', self1 = at_work s m' (Reading peer)) as [m' ->].
  { subst self1. destruct (frame_bytes _ _); by eexists. }
  change (server (at_work s m' (Reading peer))) with s.
  destruct (read_frame _ _ _).2 as [request|e]; [|simplify_eq; apply returns_alone].
  rewrite dispatch_halves in Hs. destruct (dispatch_begin s peer request) as [s1 [r1|ds]].
  - destruct (write_frame _ _ _) as [out written] eqn:Hw. simplify_eq.
    change (set_server (at_work s m' (Reading peer)) s1) with (at_work s1 m' (Reading peer)).
    destruct (answered_at_work s1 m' (Reading peer) (NodeRequest.request_id request) r1) as [m2 ->].
    by apply reply_alone.
  - change (set_server (at_work s m' (Reading peer)) s1) with (at_work s1 m' (Reading peer)).
    rewrite goes_on_at_work, drive_waits. simpl. unfold step. simpl. rewrite lookup_insert_eq.
    destruct (dispatch_inform s1 ds) as [s2 r1]. destruct (write_frame _ _ _) as [out written] eqn:Hw.
    simplify_eq. simpl. set (st := Informing _ _).
    change (set_server (at_work s1 m' st) s2) with (at_work s2 m' st).
    destruct (answered_at_work s2 m' st (NodeRequest.request_id request) r1) as [m2 ->].
    by apply reply_alone.
Qed.
End task.

(** C29: A connection nothing interferes with is served as [serve] says. Given
    a free permit, the accept loop accepts it and its task, fed the TLS outcome,
    the certificates, the bytes and the write outcome of that connection and of
    no other, is over after at most four waits; the node is in the state of
    [serve], the bytes sent are those of [serve], the task's result is the
    result of [serve], error or not, and the permit is free again. *)
Theorem loop_refines_serve l id (conn : incoming) s' sent r :
  ended l = None → connections l !! id = None → 0 < permits l →
  serve (V:=V) (server l) conn = (s', sent, r) →
  ∃ l', step l (Accept id) ≫= drive 4 id conn = Some l' ∧ served l id s' sent r l'.
Proof.
  intros Hgo Hfree Hp Hs. set (m := NetworkMetrics.connection_accepted (metrics l)).
  assert (step l (Accept id) = Some (at_work l id (server l) m Handshaking)) as ->.
  { unfold step. rewrite Hgo, bool_decide_false by (rewrite Hfree; by intros [? ?]).
    unfold accept, Semaphore.try_acquire. simpl. rewrite (proj2 (Z.ltb_lt 0 (permits l)) Hp).
    unfold set_connections, set_metrics, at_work, ServerTlsRegistry.current. simpl. by rewrite Hgo. }
  cbn [mbind option_bind]. rewrite drive_waits. simpl. unfold step. simpl. rewrite lookup_insert_eq. simpl.
  unfold serve in Hs. unfold handshake, unauthenticated.
  assert (∀ m1 e, returns (set_metrics (at_work l id (server l) m Handshaking) m1) id e
                  = returns (at_work l id (server l) m1 Handshaking) id e) as Hm by done.
  destruct (tls_error conn) as [e|]; [simplify_eq; rewrite Hm; by apply returns_alone|].
  destruct (certificates conn ≫= head) as [certificate|];
    [|simplify_eq; rewrite Hm; by apply returns_alone].
  change (server (at_work l id (server l) m Handshaking)) with (server l).
  destruct (PeerRegistry.identity_for (peers (server l)) certificate) as [peer|];
    [|simplify_eq; rewrite Hm; by apply returns_alone].
  rewrite goes_on_at_work. by apply request_alone.
Qed.
End alone.

(** ** Concrete runs *)

Module ListenerRuns.
Import ServerRuns.
#[local] Existing Instances big_endian counting_recorder accepting_handler no_batches.
#[local] Existing Instances requests_table responses_table.
Abbreviation listener := (AcceptLoop.t Z nat unit unit string).

(** A node that serves one connection at a time. *)
Definition one_at_a_time : NetworkNodeServer.t nat unit unit :=
  match with_max_connections node 1 with Ok s => s | Err _ => node end.
Definition idle : listener :=
  AcceptLoop.mk one_at_a_time "first" NetworkMetrics.default 1 ∅ None [] [].
Definition frame : list Z := (write_frame on_wire DEFAULT_MAX_FRAME write_success).1.
Definition certificate : list Z := [100].

(** A second connection arrives while the first is under way; the TLS
    configuration is replaced meanwhile. *)
Definition crowded_actions : list (action string) :=
  [Accept 0; Accept 1; ReplaceTls "second"; Handshake 0 None (Some [certificate])].
Definition crowded : listener := default idle (steps idle crowded_actions).

Lemma crowded_steps : steps idle crowded_actions = Some crowded.
Proof. vm_compute. reflexivity. Qed.

Lemma connections_are_limited_witness :
  size (connections crowded) = 1%nat ∧ permits crowded = 0
  ∧ NetworkMetrics.request_errors (metrics crowded) = 1.
Proof.
  destruct (connections_are_limited one_at_a_time "first" NetworkMetrics.default idle crowded_actions
              crowded ltac:(vm_compute; reflexivity) ltac:(vm_compute; reflexivity) crowded_steps)
    as (_ & Hp & _).
  split; [vm_compute; reflexivity|]. split; [|vm_compute; reflexivity].
  rewrite Hp. vm_compute. reflexivity.
Defined.

Definition reading : conn Z string := Conn "first" (Reading (PeerIdentity.Replica 1)).

Lemma connections_are_vouched_for_witness :
  happened idle crowded_actions (accepted_with 0 "first")
  ∧ happened idle crowded_actions (authenticated_as 0 (PeerIdentity.Replica 1)).
Proof.
  destruct (connections_are_vouched_for one_at_a_time "first" NetworkMetrics.default idle crowded_actions
              crowded 0%nat reading ltac:(vm_compute; reflexivity) crowded_steps
              ltac:(vm_compute; reflexivity)) as [Ha Hp].
  split; [exact Ha|]. apply Hp. reflexivity.
Defined.

Lemma loop_refines_serve_witness :
  ∃ l', step idle (Accept 0) ≫= drive 4 0 (arriving frame) = Some l'
    ∧ served idle 0 (serve (V:=Z) one_at_a_time (arriving frame)).1.1
        (serve (V:=Z) one_at_a_time (arriving frame)).1.2 (Ok tt) l'.
Proof.
  refine (loop_refines_serve idle 0%nat (arriving frame) _ _ (Ok tt) eq_refl eq_refl _ _);
    vm_compute; reflexivity.
Defined.

(** The certificate of a connection past its handshake is revoked before its
    request arrives. *)
Definition revoked_actions : list (action string) :=
  crowded_actions ++ [Revoke certificate; Request 0 frame "eof"].

(** Revocation is not immediate for open connections. The registry is asked
    once, after the handshake; a connection that got past it has its request
    executed after its certificate was revoked. *)
Theorem revoked_peer_is_still_served :
  (steps idle (crowded_actions ++ [Revoke certificate])) ≫= (λ l, peers (server l) !! certificate) = None
  ∧ (λ l, recorder (server l)) <$> steps idle revoked_actions = Some 1%nat.
Proof. split; vm_compute; reflexivity. Qed.

(** A limit above the semaphore's own maximum is accepted by
    [with_max_connections] and panics in [run]. *)
Definition unlimited : NetworkNodeServer.t nat unit unit :=
  match with_max_connections node (Semaphore.MAX_PERMITS + 1) with Ok s => s | Err _ => node end.
Theorem huge_connection_limit_panics :
  with_max_connections node (Semaphore.MAX_PERMITS + 1) = Ok unlimited
  ∧ start (V:=Z) unlimited "first" NetworkMetrics.default = None.
Proof. split; reflexivity. Qed.
End ListenerRuns.
