(* ===== verification/NodeRuntime.v ===== *)
(** * The node runtime (src/network/node_runtime.rs)

  [NetworkConsensusHandler] is the asynchronous counterpart of the replica
  runtime: many requests share one [ConsensusState] behind a lock, and give
  the lock up while they wait for the network or the clock. Every stretch of
  code that holds the lock is one definition here, a method in the
  state-and-error monad; what happens between two of them (RPCs, timers,
  other requests) comes in as arguments. [NodeTasks] strings them together.

  Locks are never poisoned and the tasks that [spawn_blocking] starts do not
  panic. [metrics] only counts, and [progress] only wakes tasks that look
  again; neither is kept. *)
From S2P Require Import Prelude Errors Types Membership Proposer Replica Policy Schedule Runtime.
From S2P Require Import Wire AsyncProposer.

Module ConsensusState.
Section state.
Context {V : Type} `{Countable V}.

(** [armed_at] holds instants, in nanoseconds. *)
Record t : Type := mk {
  replica : ReplicaCore.t V;
  decisions : gmap Z (Decision.t V);
  pending : gmap Z (list V);
  executed : gset Z;
  tuner : EpochTuner.t;
  armed_at : gmap Z Z;
  observed_steps : gmap Z Z;
  hedge_delay : HedgeDelayTuner.t;
}.

Definition set_replica (self : t) x : t :=
  mk x (decisions self) (pending self) (executed self) (tuner self) (armed_at self)
     (observed_steps self) (hedge_delay self).
Definition set_decisions (self : t) x : t :=
  mk (replica self) x (pending self) (executed self) (tuner self) (armed_at self)
     (observed_steps self) (hedge_delay self).
Definition set_pending (self : t) x : t :=
  mk (replica self) (decisions self) x (executed self) (tuner self) (armed_at self)
     (observed_steps self) (hedge_delay self).
Definition set_executed (self : t) x : t :=
  mk (replica self) (decisions self) (pending self) x (tuner self) (armed_at self)
     (observed_steps self) (hedge_delay self).
Definition set_tuner (self : t) x : t :=
  mk (replica self) (decisions self) (pending self) (executed self) x (armed_at self)
     (observed_steps self) (hedge_delay self).
Definition set_armed_at (self : t) x : t :=
  mk (replica self) (decisions self) (pending self) (executed self) (tuner self) x
     (observed_steps self) (hedge_delay self).
Definition set_observed_steps (self : t) x : t :=
  mk (replica self) (decisions self) (pending self) (executed self) (tuner self)
     (armed_at self) x (hedge_delay self).
Definition set_hedge_delay (self : t) x : t :=
  mk (replica self) (decisions self) (pending self) (executed self) (tuner self)
     (armed_at self) (observed_steps self) x.

Definition on_replica {A} : M (ReplicaCore.t V) QuePaxaError.t A → M t QuePaxaError.t A :=
  zoom replica set_replica.
Definition on_tuner {A} : M EpochTuner.t QuePaxaError.t A → M t QuePaxaError.t A :=
  zoom tuner set_tuner.

(** A snapshot's proposals, with their values. *)
Definition snapshot_pending (snapshot : RuntimeSnapshot.t V) : gmap Z (list V) :=
  PendingProposalSnapshot.value_ids <$> RuntimeSnapshot.pending snapshot.

(** The state [new] and [install_state_transfer] build from a snapshot. *)
Definition restored (config : ReplicaRuntimeConfig.t) (snapshot : RuntimeSnapshot.t V)
    : Result t :=
  let? replica := ReplicaCore.restore (ReplicaRuntimeConfig.replica config)
                                      (RuntimeSnapshot.replica snapshot) in
  let? tuner := EpochTuner.restore (ReplicaRuntimeConfig.epoch_size config)
                  (ReplicaRuntimeConfig.members config)
                  (ReplicaRuntimeConfig.auto_schedules config)
                  (RuntimeSnapshot.schedules snapshot) (RuntimeSnapshot.epoch_stats snapshot)
                  (RuntimeSnapshot.stats_through snapshot) in
  Ok (mk replica (RuntimeSnapshot.decisions snapshot) (snapshot_pending snapshot)
         (RuntimeSnapshot.executed snapshot) tuner ∅ ∅
         (HedgeDelayTuner.new (ReplicaRuntimeConfig.base_hedge_delay config)
                              (ReplicaRuntimeConfig.adaptive_hedging config))).

Definition fresh (config : ReplicaRuntimeConfig.t) : t :=
  mk (ReplicaCore.new (ReplicaRuntimeConfig.replica config)) ∅ ∅ ∅
     (EpochTuner.new (ReplicaRuntimeConfig.epoch_size config)
        (ReplicaRuntimeConfig.members config) (ReplicaRuntimeConfig.auto_schedules config))
     ∅ ∅
     (HedgeDelayTuner.new (ReplicaRuntimeConfig.base_hedge_delay config)
                          (ReplicaRuntimeConfig.adaptive_hedging config)).

Definition validate_state (config : ReplicaRuntimeConfig.t) (state : t) : Result unit :=
  reject negb (bool_decide (executed state ⊆ dom (decisions state)))
    with QuePaxaError.InvalidProposal
      "network runtime snapshot executes a slot without a decision" ;;
  let? _ := try_each (λ '(slot, decision),
    reject negb (slot =? Decision.slot decision)
           || negb (ClusterIdentity.contains (ReplicaRuntimeConfig.cluster config)
                                             (Decision.proposer decision))
      with QuePaxaError.InvalidProposal
        "network runtime snapshot contains an invalid decision" ;;
    reject match ReplicaCore.slot (replica state) slot ≫= LogSlot.decision with
           | Some stored => negb (bool_decide (Decision.value_ids stored
                                               = Decision.value_ids decision))
           | None => true
           end
      with QuePaxaError.InvalidProposal
        "network runtime decision does not match the replica log" ;;
    Ok tt) (entries (decisions state)) in
  try_each (λ '(slot, values),
    reject negb match ReplicaCore.slot (replica state) slot with
                | Some entry => bool_decide (LogSlot.decision entry = None)
                                && bool_decide (LogSlot.proposed entry = values)
                | None => false
                end
      with QuePaxaError.InvalidProposal
        "network runtime pending proposal does not match the replica log" ;;
    Ok tt) (entries (pending state)).

(** The first decision that carries every value of a submission. *)
Definition carries (value_ids values : list V) : bool :=
  forallb (λ value_id, bool_decide (value_id ∈ values)) value_ids.

Definition decision_for (state : t) (value_ids : list V) : option (Decision.t V) :=
  head (filter (λ d, carries value_ids (Decision.value_ids d) = true) (values (decisions state))).

Definition pending_for (state : t) (value_ids : list V) : option (SlotIndex * list V) :=
  head (filter (λ e, carries value_ids e.2 = true) (entries (pending state))).

Definition arm_gap_noop (noop_value : option V) (now : Z) : M t QuePaxaError.t bool :=
  let* state := reads (λ state, state) in
  match noop_value with
  | None => ret false
  | Some noop =>
      if negb (bool_decide (pending state = ∅)) then ret false
      else
      let* gap := lift (ok_or (SlotIdx.checked_next (ReplicaCore.committed_through (replica state)))
                              QuePaxaError.SlotOverflow) in
      let later_decision_exists := existsb (λ slot, gap <? slot) (keys (decisions state)) in
      let gap_is_open :=
        bool_decide (decisions state !! gap = None)
        && match ReplicaCore.slot (replica state) gap with
           | Some entry => bool_decide (LogSlot.decision entry = None)
                           && is_empty (LogSlot.proposed entry)
           | None => true
           end in
      if negb later_decision_exists || negb gap_is_open then ret false
      else
      on_replica (ReplicaCore.note_proposed gap [noop]) ;*
      modify (λ state, set_pending state (<[gap := [noop]]> (pending state))) ;*
      modify (λ state, set_armed_at state (<[gap := now]> (armed_at state))) ;*
      ret true
  end.

(** What [accept_decision] records of a new decision. *)
Definition record_decision (d : Decision.t V) (state : t) : t :=
  let slot := Decision.slot d in
  let state := set_pending state (delete slot (pending state)) in
  let state := set_armed_at state (delete slot (armed_at state)) in
  let state := set_observed_steps state (delete slot (observed_steps state)) in
  set_decisions state (<[slot := d]> (decisions state)).

(** Statistics of the committed prefix that have not been noted. *)
Definition stat_updates (state : t) : list (SlotIndex * Z) :=
  (λ e, (e.1, Decision.decided_step e.2)) <$>
    filter (λ e, EpochTuner.stats_through (tuner state) < e.1)
           (range_through (decisions state) (ReplicaCore.committed_through (replica state))).

Definition note_stats : M t QuePaxaError.t unit :=
  let* updates := reads stat_updates in
  for_each (λ u, let* _ := on_tuner (EpochTuner.note_committed u.1 u.2) in ret tt) updates.

(** The committed decisions that have not been executed, in slot order. *)
Definition ready (state : t) : list (Decision.t V) :=
  (filter (λ e, e.1 ∉ executed state)
     (range_through (decisions state) (ReplicaCore.committed_through (replica state)))).*2.

(** What a checkpoint drops. *)
Definition forget_through (slot : SlotIndex) (state : t) : t :=
  let state := set_replica state (ReplicaCore.prune_through (replica state) slot) in
  let state := set_decisions state (retain (λ index, slot <? index) (decisions state)) in
  let state := set_executed state (filter (λ index, slot < index) (executed state)) in
  let state := set_pending state (retain (λ index, slot <? index) (pending state)) in
  let state := set_armed_at state (retain (λ index, slot <? index) (armed_at state)) in
  set_observed_steps state (retain (λ index, slot <? index) (observed_steps state)).

(** No decision is beyond the frontier and no proposal at or below the slot. *)
Definition may_checkpoint (state : t) (slot : SlotIndex) : bool :=
  (slot <=? ReplicaCore.committed_through (replica state))
  && negb (existsb (λ index, index <=? slot) (keys (pending state))).
End state.
Arguments t V {_ _}.
End ConsensusState.

Module NetworkConsensusHandler.
Section handler.
Context {V : Type} `{Countable V} {St E : Type}.
Context `{!RuntimeStateStore V St, !StateMachine V E}.
Abbreviation state_of := (ConsensusState.t V).

Record t : Type := mk {
  config : ReplicaRuntimeConfig.t;
  recorders : list ReplicaId;
  state : state_of;
  state_store : St;
  state_machine : E;
  noop_value : option V;
}.

Definition set_config (self : t) x : t :=
  mk x (recorders self) (state self) (state_store self) (state_machine self) (noop_value self).
Definition set_recorders (self : t) x : t :=
  mk (config self) x (state self) (state_store self) (state_machine self) (noop_value self).
Definition set_state (self : t) x : t :=
  mk (config self) (recorders self) x (state_store self) (state_machine self) (noop_value self).
Definition set_state_store (self : t) x : t :=
  mk (config self) (recorders self) (state self) x (state_machine self) (noop_value self).
Definition set_state_machine (self : t) x : t :=
  mk (config self) (recorders self) (state self) (state_store self) x (noop_value self).

Abbreviation MH := (M t QuePaxaError.t).
Definition on_state {A} : M state_of QuePaxaError.t A → MH A := zoom state set_state.

(** ** Snapshots *)

Definition snapshot (self : t) : RuntimeSnapshot.t V :=
  let st := state self in
  RuntimeSnapshot.mk (ReplicaRuntimeConfig.cluster (config self))
    (ReplicaRuntimeConfig.protocol_identity (config self))
    (ReplicaCore.snapshot (ConsensusState.replica st)) (ConsensusState.decisions st)
    (EpochTuner.schedules (ConsensusState.tuner st))
    (PendingProposalSnapshot.mk <$> ConsensusState.pending st)
    (ConsensusState.executed st) (ConsensusState.executed st) ∅
    (EpochTuner.stats (ConsensusState.tuner st))
    (EpochTuner.stats_through (ConsensusState.tuner st)).

Definition save_store : MH unit := λ self,
  let '(store, r) := runtime_save (state_store self) (snapshot self) in
  (set_state_store self store, r).

(** [if let Err(error) = save_store(..) { *state = before; return Err(error) }]. *)
Definition save_or_restore (before : state_of) : MH unit := λ self,
  match save_store self with
  | (self, Err e) => (set_state self before, Err e)
  | (self, Ok _) => (self, Ok tt)
  end.

(** ** Starting *)

Definition same_members (config : ReplicaRuntimeConfig.t) (recorders : list ReplicaId) : bool :=
  let expected := id_set (ReplicaRuntimeConfig.members config) in
  bool_decide (id_set recorders = expected) && (len recorders =? Z.of_nat (size expected)).

Definition new (config : ReplicaRuntimeConfig.t) (recorders : list ReplicaId) (store : St)
    (machine : E) : Result t :=
  reject negb (same_members config recorders) with QuePaxaError.ConfigurationMismatch ;;
  let '(store, loaded) := runtime_load store in
  let? loaded := loaded in
  let? state :=
    match loaded with
    | Some snapshot =>
        reject negb (bool_decide (RuntimeSnapshot.cluster snapshot
                                  = ReplicaRuntimeConfig.cluster config))
               || negb (bool_decide (RuntimeSnapshot.protocol snapshot
                                     = ReplicaRuntimeConfig.protocol_identity config))
          with QuePaxaError.ConfigurationMismatch ;;
        ConsensusState.restored config snapshot
    | None => Ok (ConsensusState.fresh config)
    end in
  let? _ := ConsensusState.validate_state config state in
  Ok (mk config recorders state store machine None).

Definition with_noop_value (self : t) (value : V) : t :=
  mk (config self) (recorders self) (state self) (state_store self) (state_machine self)
     (Some value).

Definition current_hedge_delay (self : t) : Z :=
  HedgeDelayTuner.current (ConsensusState.hedge_delay (state self)).

Definition decision (self : t) (slot : SlotIndex) : option (Decision.t V) :=
  ConsensusState.decisions (state self) !! slot.

Definition install_epoch_schedule (schedule : EpochSchedule.t) : MH unit :=
  let* self := reads (λ self, self) in
  reject* negb (same_members (config self) (EpochSchedule.proposers schedule))
    with QuePaxaError.PolicyError
           "an epoch schedule must contain every configured replica exactly once" ;;
  let* installed := on_state (ConsensusState.on_tuner (EpochTuner.install schedule)) in
  if installed : bool then save_or_restore (state self) else ret tt.

(** ** Executing decisions *)

Definition run_machine {A} (f : E → E * Result A) : MH A :=
  zoom state_machine set_state_machine f.

Definition execute_one (d : Decision.t V) : MH unit :=
  let* done := reads (λ self, bool_decide (Decision.slot d ∈ ConsensusState.executed (state self))) in
  if done : bool then ret tt
  else
  run_machine (λ e, execute e d) ;*
  modify (λ self, set_state self (ConsensusState.set_executed (state self)
    ({[Decision.slot d]} ∪ ConsensusState.executed (state self)))) ;*
  save_store.

Definition execute_decisions (ds : list (Decision.t V)) : MH unit := for_each execute_one ds.

Definition execute_ready : MH unit :=
  let* ds := reads (λ self, ConsensusState.ready (state self)) in
  execute_decisions ds.

(** ** Accepting decisions *)

Definition arm_gap_noop (now : Z) : MH bool :=
  let* noop := reads noop_value in
  on_state (ConsensusState.arm_gap_noop noop now).

(** The loop over [stat_updates], with its rollback. *)
Definition note_stats (before : state_of) : MH unit := λ self,
  match on_state ConsensusState.note_stats self with
  | (self, Err e) => (set_state self before, Err e)
  | (self, Ok _) => (self, Ok tt)
  end.

Definition accept_decision (now : Z) (d : Decision.t V) : MH unit :=
  let* self := reads (λ self, self) in
  match ConsensusState.decisions (state self) !! Decision.slot d with
  | Some existing =>
      reject* negb (bool_decide (Decision.value_ids existing = Decision.value_ids d))
        with QuePaxaError.ConflictingDecision (Decision.slot d) ;;
      arm_gap_noop now ;*
      execute_ready
  | None =>
      let* committed :=
        on_state (ConsensusState.on_replica (ReplicaCore.apply_decision d)) in
      modify (λ self, set_state self (ConsensusState.record_decision d (state self))) ;*
      arm_gap_noop now ;*
      note_stats (state self) ;*
      save_or_restore (state self) ;*
      execute_decisions committed
  end.

(** The first half of [recover_inner]: the proposals to drive. *)
Definition recover_section (now : Z) : MH (list (SlotIndex * list V)) :=
  let* self := reads (λ self, self) in
  let* armed := arm_gap_noop now in
  let* _ := if armed : bool then save_or_restore (state self) else ret tt in
  execute_ready ;*
  reads (λ self, entries (ConsensusState.pending (state self))).

(** ** Submissions *)

Definition submit_check (self : t) (submission : Submission.t V) : Result unit :=
  let batch_size := ReplicaConfig.batch_size (ReplicaRuntimeConfig.replica (config self)) in
  reject batch_size <? len (Submission.value_ids submission)
    with QuePaxaError.ResourceLimit "values in one network submission" batch_size ;;
  reject ReplicaCore.repeats (Submission.value_ids submission)
    with QuePaxaError.InvalidProposal "network submission contains duplicate value IDs" ;;
  Ok tt.

Definition submit_enqueue (submission : Submission.t V) : MH unit :=
  let* _ := readr (λ self, submit_check self submission) in
  let* self := reads (λ self, self) in
  on_state (ConsensusState.on_replica (ReplicaCore.enqueue (Submission.value_ids submission))) ;*
  save_or_restore (state self).

(** What one turn of the submission loop finds under the lock. *)
Inductive turn : Type :=
| Answered (decision : Decision.t V)
| Proposal (slot : SlotIndex) (values : list V)
| Nothing.

Definition submit_turn (submission : Submission.t V) : MH turn :=
  let value_ids := Submission.value_ids submission in
  let* self := reads (λ self, self) in
  match ConsensusState.decision_for (state self) value_ids with
  | Some decision => ret (Answered decision)
  | None =>
      match ConsensusState.pending_for (state self) value_ids with
      | Some (slot, values) => ret (Proposal slot values)
      | None =>
          let* claimed := on_state (ConsensusState.on_replica ReplicaCore.next_proposal) in
          match claimed with
          | Some (slot, values) =>
              modify (λ self, set_state self (ConsensusState.set_pending (state self)
                (<[slot := values]> (ConsensusState.pending (state self))))) ;*
              save_or_restore (state self) ;*
              ret (Proposal slot values)
          | None => ret Nothing
          end
      end
  end.

(** ** Hedging *)

(** The slot's leader and what is left of the delay; the clock is read when
    the slot is first armed and when the elapsed time is taken. *)
Definition hedge_for (slot : SlotIndex) (now later : Z) : MH (ReplicaId * Z) :=
  let* self := reads (λ self, self) in
  let* schedule := on_state (ConsensusState.on_tuner
    (EpochTuner.ensure_schedule (ReplicaRuntimeConfig.epoch_for (config self) slot))) in
  let* position := lift (ok_or
    (position (ReplicaRuntimeConfig.replica_id (config self)) (EpochSchedule.proposers schedule))
    (QuePaxaError.PolicyError "the epoch schedule does not include the local replica")) in
  reject* 2 ^ 32 <=? position
    with QuePaxaError.PolicyError "hedging schedule is too large for a duration" ;;
  let* full_delay := lift (ok_or (Duration.checked_mul (current_hedge_delay self) position)
    (QuePaxaError.PolicyError "hedging delay overflowed")) in
  let armed := default now (ConsensusState.armed_at (state self) !! slot) in
  modify (λ self, set_state self (ConsensusState.set_armed_at (state self)
    (<[slot := armed]> (ConsensusState.armed_at (state self))))) ;*
  ret (EpochSchedule.leader schedule, Z.max 0 (full_delay - Z.max 0 (later - armed))).

(** The highest step the probes report, failures ignored. *)
Definition highest_step (probes : list (Result (option Z))) : option Z :=
  fold_left (λ highest probe,
    match probe with
    | Ok (Some step) =>
        Some match highest with Some current => Z.max current step | None => step end
    | _ => highest
    end) probes None.

(** [hedge_delay.is_zero() || config.replica_id() == leader]. *)
Definition defers_never (self : t) (leader : ReplicaId) : bool :=
  (current_hedge_delay self =? 0)
  || (ReplicaRuntimeConfig.replica_id (config self) =? leader).

(** The end of [defer_for_progress], under the lock. *)
Definition note_progress (slot : SlotIndex) (highest : Z) : MH bool :=
  let* self := reads (λ self, self) in
  if bool_decide (ConsensusState.pending (state self) !! slot = None) then ret false
  else
  if match ConsensusState.observed_steps (state self) !! slot with
     | Some previous => previous <? highest
     | None => true
     end
  then
    modify (λ self, set_state self (ConsensusState.set_observed_steps (state self)
      (<[slot := highest]> (ConsensusState.observed_steps (state self))))) ;*
    ret true
  else ret false.

(** ** Proposing and disseminating *)

(** The proposer of [propose_slot], with the randomness it opens and the
    network it meets; [None] is an RPC that never completes. *)
Definition run_proposer {X : Type}
    (network : X → list (ReplicaId * RecordRequest.t V) →
               X * list (ReplicaId * Result (RecordReply.t V)))
    (fuel : nat) (self : t) (entropy : Result OsRandom.t) (x : X) (slot : SlotIndex)
    (values : list V) (leader : ReplicaId) : option (Result (Decision.t V)) :=
  match entropy with
  | Err e => Some (Err e)
  | Ok rng =>
      let proposer := AsyncProposerCore.with_rng (ReplicaRuntimeConfig.replica_id (config self))
                        (ReplicaRuntimeConfig.lane_id (config self))
                        (ReplicaRuntimeConfig.cluster (config self)) rng in
      (AsyncProposerCore.propose network fuel proposer x slot values (Some leader)
                                 (recorders self)).2
  end.

Definition observe (elapsed : Z) (self : t) : t :=
  set_state self (ConsensusState.set_hedge_delay (state self)
    (HedgeDelayTuner.observe (ConsensusState.hedge_delay (state self)) elapsed)).

(** Announcing to a quorum: the arrivals of the acknowledgements, in order.
    [None] while some are missing and they could matter. *)
Fixpoint acknowledge (cluster : ClusterIdentity.t) (quorum_size missing : Z) (acks : gset Z)
    (arrivals : list (ReplicaId * Result unit)) : option (Result unit) :=
  if missing <=? 0 then Some (Err (QuePaxaError.QuorumNotReached quorum_size (Z.of_nat (size acks))))
  else match arrivals with
  | [] => None
  | (recorder, Ok _) :: arrivals =>
      let acks := {[recorder]} ∪ acks in
      if ClusterIdentity.has_quorum cluster (elements acks) then Some (Ok tt)
      else acknowledge cluster quorum_size (missing - 1) acks arrivals
  | (_, Err _) :: arrivals => acknowledge cluster quorum_size (missing - 1) acks arrivals
  end.

Definition disseminate (self : t) (arrivals : list (ReplicaId * Result unit))
    : option (Result unit) :=
  acknowledge (ReplicaRuntimeConfig.cluster (config self))
    (ReplicaRuntimeConfig.quorum_size (config self)) (len (recorders self)) ∅ arrivals.

(** Announcing to everyone: how each recorder answered. *)
Definition disseminate_all (self : t) (ds : list (Decision.t V)) (results : list (Result unit))
    : option (Result unit) :=
  if is_empty ds then Some (Ok tt)
  else
  let needed := len (recorders self) in
  if negb (len results =? needed) then None
  else
  let acknowledgements := len (filter (λ r, is_ok r = true) results) in
  Some (if acknowledgements =? needed then Ok tt
        else Err (QuePaxaError.QuorumNotReached needed acknowledgements)).

(** ** State transfer *)

Definition transfer_select (slot : SlotIndex) : MH (list (Decision.t V)) :=
  let* st := reads state in
  reject* ReplicaCore.committed_through (ConsensusState.replica st) <? slot
    with QuePaxaError.InvalidProposal
           "cannot checkpoint beyond the contiguous committed prefix" ;;
  reject* existsb (λ index, index <=? slot) (keys (ConsensusState.pending st))
    with QuePaxaError.InvalidProposal
           "cannot checkpoint a slot with a pending local proposal" ;;
  ret (range_through (ConsensusState.decisions st) slot).*2.

(** [ord] is the order of [V: Ord]: the IDs pass through a [BTreeSet]. *)
Definition checkpointed_value_ids (ord : relation V) `{!RelDecision ord}
    (ds : list (Decision.t V)) : list V :=
  merge_sort ord (remove_dups (ds ≫= Decision.value_ids)).

Definition transfer_export (slot : SlotIndex) : MH (list Z) :=
  run_machine (λ e, export_checkpoint e slot).

Definition transfer_prune (slot : SlotIndex) (ids : list V) (checkpoint : list Z)
    : MH (StateTransferSnapshot.t V) :=
  let* self := reads (λ self, self) in
  reject* negb (ConsensusState.may_checkpoint (state self) slot)
    with QuePaxaError.InvalidProposal
           "runtime changed while preparing its state-transfer checkpoint" ;;
  modify (λ self, set_state self (ConsensusState.forget_through slot (state self))) ;*
  let* runtime := reads snapshot in
  save_or_restore (state self) ;*
  ret (StateTransferSnapshot.mk slot ids checkpoint runtime).

Definition install_state_transfer (transfer : StateTransferSnapshot.t V) : MH unit :=
  let runtime := StateTransferSnapshot.runtime transfer in
  let* self := reads (λ self, self) in
  reject* negb (StateTransferSnapshot.through transfer
                =? ReplicaSnapshot.checkpointed_through (RuntimeSnapshot.replica runtime))
          || negb (bool_decide (RuntimeSnapshot.cluster runtime
                                = ReplicaRuntimeConfig.cluster (config self)))
          || negb (bool_decide (RuntimeSnapshot.protocol runtime
                                = ReplicaRuntimeConfig.protocol_identity (config self)))
    with QuePaxaError.ConfigurationMismatch ;;
  let* replacement := lift (ConsensusState.restored (config self) runtime) in
  let* _ := lift (ConsensusState.validate_state (config self) replacement) in
  run_machine (λ e, import_checkpoint e (StateTransferSnapshot.through transfer)
                      (StateTransferSnapshot.application_checkpoint transfer)) ;*
  zoom state_store set_state_store (λ s, runtime_save s runtime) ;*
  modify (λ self, set_state self replacement).

(** ** Membership changes *)

Definition validate_async_recorders (cluster : ClusterIdentity.t) (recorders : list ReplicaId)
    : Result unit :=
  reject repeats_id recorders
    with QuePaxaError.InvalidReconfiguration
           "replacement async recorder clients contain duplicate identities" ;;
  reject negb (bool_decide (id_set recorders = id_set (ClusterIdentity.members cluster)))
    with QuePaxaError.ConfigurationMismatch ;;
  Ok tt.

(** Up to the decisions to disseminate; [None] when the epoch is already
    installed and only the clients were replaced. *)
Definition change_begin (change : MembershipChange.t V) (next_recorders : list ReplicaId)
    : MH (option (list (Decision.t V))) :=
  let next := MembershipChange.next change in
  let anchor := MembershipChange.anchor change in
  let* _ := lift (MembershipChange.validate_binding change) in
  let* self := reads (λ self, self) in
  let previous := ReplicaRuntimeConfig.cluster (config self) in
  if bool_decide (next = previous) then
    lift (validate_async_recorders next next_recorders) ;*
    modify (λ self, set_recorders self next_recorders) ;*
    ret None
  else
  reject* negb (ClusterIdentity.is_successor_of next previous)
    with QuePaxaError.InvalidReconfiguration
           "membership transition does not follow the network runtime epoch" ;;
  lift (validate_async_recorders next next_recorders) ;*
  let st := state self in
  reject* negb (ReplicaCore.committed_through (ConsensusState.replica st) =? Decision.slot anchor)
          || negb (bool_decide (ConsensusState.decisions st !! Decision.slot anchor = Some anchor))
          || negb (bool_decide (ConsensusState.pending st = ∅))
          || existsb (λ slot, Decision.slot anchor <? slot)
                     (keys (ReplicaCore.log (ConsensusState.replica st)))
    with QuePaxaError.InvalidReconfiguration
           "membership changes require an exact committed anchor and a drained pipeline" ;;
  ret (Some (values (ConsensusState.decisions st))).

(** The installs on the next recorders, as they complete: the first failure
    ends the change. *)
Fixpoint install_acks (needed received : Z) (results : list (Result unit)) : option (Result unit) :=
  if needed =? received then Some (Ok tt)
  else match results with
  | [] => None
  | Ok _ :: results => install_acks needed (received + 1) results
  | Err e :: _ => Some (Err e)
  end.

Definition change_activate (change : MembershipChange.t V) (next_recorders : list ReplicaId)
    : MH unit := λ before,
  let next := MembershipChange.next change in
  let self := set_state before (ConsensusState.set_tuner (state before)
    (EpochTuner.reconfigure (ConsensusState.tuner (state before)) (ClusterIdentity.members next)
       (Decision.slot (MembershipChange.anchor change)))) in
  let self := set_config self (ReplicaRuntimeConfig.install_cluster (config self) next) in
  let self := set_recorders self next_recorders in
  match save_store self with
  | (self, Err e) =>
      let self := set_state self (state before) in
      let self := set_config self (config before) in
      (set_recorders self (recorders before), Err e)
  | (self, Ok _) => (self, Ok tt)
  end.
End handler.
Arguments t V {_ _} St E.
Arguments turn V : clear implicits.
End NetworkConsensusHandler.
