(* ===== verification/NodeTasks.v ===== *)
(** * Requests running together on a node (src/network/node_runtime.rs)

  A request to the node (a submission, delivered decisions, a recovery, a
  schedule, a state transfer, a membership change) is a task that goes from
  one hold of the state lock to the next. Tasks interleave in any order and
  may be dropped between two holds; the process may stop at any point and
  start again from its store. The membership gate is a readers-writer lock:
  a membership change runs alone. *)
From S2P Require Import Prelude Errors Types Membership Proposer Replica Policy Schedule Runtime.
From S2P Require Import Wire AsyncProposer NodeRuntime.

Module Node.
Section node.
Context {V : Type} `{Countable V} {St E X : Type}.
Context `{!RuntimeStateStore V St, !StateMachine V E}.
Context (network : X → list (ReplicaId * RecordRequest.t V) →
                   X * list (ReplicaId * Result (RecordReply.t V))).
Context (ord : relation V) `{!RelDecision ord}.
Import NetworkConsensusHandler.
Abbreviation handler := (NetworkConsensusHandler.t V St E).

(** ** One proposal: [wait_for_turn], then [propose_slot] *)

Inductive flight : Type :=
| Turn
| Sleeping (leader : ReplicaId)
| Probing (leader : ReplicaId)
| Deferring (leader : ReplicaId) (highest : Z)
| Deferred
| Checking (leader : ReplicaId)
| Proposing (leader : ReplicaId)
| Observing (decision : Decision.t V) (elapsed : Z)
| Accepting (decision : Decision.t V)
| Disseminating (decision : Decision.t V)
| Landed (result : Result (option (Decision.t V))).

(** What the environment contributes to one step: the clock, read twice; a
    timer that fires or a notification; the answers to the RPCs; the
    randomness and the network of a proposer, with its duration. *)
Record input : Type := Input {
  now : Z;
  later : Z;
  notified : bool;
  probes : list (Result (option Z));
  acks : list (ReplicaId * Result unit);
  results : list (Result unit);
  entropy : Result OsRandom.t;
  net : X;
  fuel : nat;
}.

(** A section that ends the flight when it fails. *)
Definition lands {A} (r : Result A) (k : A → flight) : flight :=
  match r with Ok a => k a | Err e => Landed (Err e) end.

(** The next hold of the lock, or the next wait that is over. [None]: not
    yet. *)
Definition fly (i : input) (slot : SlotIndex) (values : list V) (f : flight) (h : handler)
    : option (handler * flight) :=
  match f with
  | Turn =>
      if bool_decide (ConsensusState.pending (state h) !! slot = None)
      then Some (h, Landed (Ok None))
      else
      let '(h, r) := hedge_for slot (now i) (later i) h in
      Some (h, lands r (λ ld, if ld.2 =? 0 then Probing ld.1 else Sleeping ld.1))
  | Sleeping leader => Some (h, if notified i then Turn else Probing leader)
  | Probing leader =>
      if defers_never h leader then Some (h, Checking leader)
      else
      if negb (len (probes i) =? len (recorders h)) then None
      else Some (h, match highest_step (probes i) with
                    | None => Checking leader
                    | Some highest => Deferring leader highest
                    end)
  | Deferring leader highest =>
      let '(h, r) := note_progress slot highest h in
      Some (h, lands r (λ deferred : bool, if deferred then Deferred else Checking leader))
  | Deferred => Some (h, Turn)
  | Checking leader =>
      Some (h, if bool_decide (ConsensusState.pending (state h) !! slot = None)
               then Landed (Ok None) else Proposing leader)
  | Proposing leader =>
      match run_proposer network (fuel i) h (entropy i) (net i) slot values leader with
      | None => None
      | Some r => Some (h, lands r (λ d, Observing d (Z.max 0 (later i - now i))))
      end
  | Observing d elapsed => Some (observe elapsed h, Accepting d)
  | Accepting d =>
      let '(h, r) := accept_decision (now i) d h in
      Some (h, lands r (λ _, Disseminating d))
  | Disseminating d =>
      match disseminate h (acks i) with
      | None => None
      | Some _ => Some (h, Landed (Ok (Some d)))
      end
  | Landed _ => None
  end.

(** ** Requests *)

(** A proposal a request drives. *)
Record proposal : Type := Drive { at_slot : SlotIndex; batch : list V; stage : flight }.

Inductive answer : Type :=
| Outcome (outcome : SubmissionOutcome.t V)
| Recovered (decisions : list (Decision.t V))
| Exported (transfer : StateTransferSnapshot.t V)
| Done.

Inductive request : Type :=
| Submit (submission : Submission.t V)
| ReceiveDecisions (decisions : list (Decision.t V))
| Recover
| InstallEpochSchedule (schedule : EpochSchedule.t)
| CreateStateTransfer (slot : SlotIndex)
| InstallStateTransfer (transfer : StateTransferSnapshot.t V)
| InstallMembership (change : MembershipChange.t V) (next_recorders : list ReplicaId).

(** Where a request is. [Recovering] carries whether its decisions are the
    answer ([recover]) or not ([receive_decisions]). *)
Inductive pc : Type :=
| Arrived (request : request)
| Looping (submission : Submission.t V)
| Waiting (submission : Submission.t V)
| Driving (submission : Submission.t V) (proposal : proposal)
| Receiving (decisions : list (Decision.t V))
| Recovering (reported : bool)
| Joining (reported : bool) (flights : list proposal) (recovered : list (Decision.t V))
| Informing (slot : SlotIndex) (decisions : list (Decision.t V))
| Exporting (slot : SlotIndex) (ids : list V)
| Pruning (slot : SlotIndex) (ids : list V) (checkpoint : list Z)
| Announcing (change : MembershipChange.t V) (next : list ReplicaId) (ds : list (Decision.t V))
| Installing (change : MembershipChange.t V) (next : list ReplicaId)
| Activating (change : MembershipChange.t V) (next : list ReplicaId)
| Answering (result : Result answer).

(** Who holds the membership gate, and how. *)
Definition writes (p : pc) : bool :=
  match p with Announcing _ _ _ | Installing _ _ | Activating _ _ => true | _ => false end.
Definition reads_gate (p : pc) : bool :=
  match p with Arrived _ | Answering _ => false | _ => negb (writes p) end.

(** A section that answers the request when it fails. *)
Definition settles {A} (r : Result A) (k : A → pc) : pc :=
  match r with Ok a => k a | Err e => Answering (Err e) end.

Definition started (submission : Submission.t V) (t : turn V) : pc :=
  match t with
  | Answered d => Answering (Ok (Outcome (SubmissionOutcome.Committed d)))
  | Proposal slot values => Driving submission (Drive slot values Turn)
  | Nothing => Waiting submission
  end.

(** The flight a step moves is the [which]-th of the request. A finished one
    is taken off; the first failure ends the request and drops the others. *)
Definition join (reported : bool) (flights : list proposal) (recovered : list (Decision.t V))
    (which : nat) (i : input) (h : handler) : option (handler * pc) :=
  match flights !! which with
  | None =>
      if is_empty flights
      then Some (h, Answering (Ok (if reported then Recovered recovered else Done)))
      else None
  | Some p =>
      match stage p with
      | Landed (Err e) => Some (h, Answering (Err e))
      | Landed (Ok o) =>
          Some (h, Joining reported (delete which flights)
                     (match o with Some d => recovered ++ [d] | None => recovered end))
      | _ =>
          match fly i (at_slot p) (batch p) (stage p) h with
          | None => None
          | Some (h, f) =>
              Some (h, Joining reported (<[which := Drive (at_slot p) (batch p) f]> flights)
                               recovered)
          end
      end
  end.

(** One step of a request that holds the gate. *)
Definition advance (which : nat) (i : input) (p : pc) (h : handler) : option (handler * pc) :=
  match p with
  | Arrived (Submit submission) =>
      let '(h, r) := submit_enqueue submission h in
      Some (h, settles r (λ _, Looping submission))
  | Arrived (ReceiveDecisions ds) => Some (h, Receiving ds)
  | Arrived Recover => Some (h, Recovering true)
  | Arrived (InstallEpochSchedule schedule) =>
      let '(h, r) := install_epoch_schedule schedule h in
      Some (h, settles r (λ _, Answering (Ok Done)))
  | Arrived (CreateStateTransfer slot) =>
      let '(h, r) := transfer_select slot h in
      Some (h, settles r (Informing slot))
  | Arrived (InstallStateTransfer transfer) =>
      let '(h, r) := install_state_transfer transfer h in
      Some (h, settles r (λ _, Answering (Ok Done)))
  | Arrived (InstallMembership change next) =>
      let '(h, r) := change_begin change next h in
      Some (h, settles r (λ o, match o with
                               | None => Answering (Ok Done)
                               | Some ds => Announcing change next ds
                               end))
  | Looping submission =>
      let '(h, r) := submit_turn submission h in
      Some (h, settles r (started submission))
  | Waiting submission => Some (h, Looping submission)
  | Driving submission p =>
      match stage p with
      | Landed r => Some (h, settles r (λ _, Looping submission))
      | f =>
          match fly i (at_slot p) (batch p) f h with
          | None => None
          | Some (h, f) => Some (h, Driving submission (Drive (at_slot p) (batch p) f))
          end
      end
  | Receiving [] => Some (h, Recovering false)
  | Receiving (d :: ds) =>
      let '(h, r) := accept_decision (now i) d h in
      Some (h, settles r (λ _, Receiving ds))
  | Recovering reported =>
      let '(h, r) := recover_section (now i) h in
      Some (h, settles r (λ pending,
        Joining reported ((λ sv, Drive sv.1 sv.2 Turn) <$> pending) []))
  | Joining reported flights recovered => join reported flights recovered which i h
  | Informing slot ds =>
      match disseminate_all h ds (results i) with
      | None => None
      | Some r => Some (h, settles r (λ _, Exporting slot (checkpointed_value_ids ord ds)))
      end
  | Exporting slot ids =>
      let '(h, r) := transfer_export slot h in
      Some (h, settles r (Pruning slot ids))
  | Pruning slot ids checkpoint =>
      let '(h, r) := transfer_prune slot ids checkpoint h in
      Some (h, settles r (λ transfer, Answering (Ok (Exported transfer))))
  | Announcing change next ds =>
      match disseminate_all h ds (results i) with
      | None => None
      | Some r => Some (h, settles r (λ _, Installing change next))
      end
  | Installing change next =>
      match install_acks (len next) 0 (results i) with
      | None => None
      | Some r => Some (h, settles r (λ _, Activating change next))
      end
  | Activating change next =>
      let '(h, r) := change_activate change next h in
      Some (h, settles r (λ _, Answering (Ok Done)))
  | Answering _ => None
  end.

(** ** The node *)

(** [proposed] lists the batches whose proposer has started, latest first. *)
Record t : Type := mk {
  node : handler;
  tasks : gmap nat pc;
  proposed : list (SlotIndex * list V);
}.

(** The proposals of a request whose proposer is running. *)
Definition in_flight (p : proposal) : list (SlotIndex * list V) :=
  match stage p with Proposing _ => [(at_slot p, batch p)] | _ => [] end.
Definition proposing (p : pc) : list (SlotIndex * list V) :=
  match p with
  | Driving _ p => in_flight p
  | Joining _ flights _ => flights ≫= in_flight
  | _ => []
  end.

Definition gate_open (self : t) (p : pc) : bool :=
  match p with
  | Arrived (InstallMembership _ _) =>
      bool_decide (map_Forall (λ _ q, writes q = false ∧ reads_gate q = false) (tasks self))
  | Arrived _ => bool_decide (map_Forall (λ _ q, writes q = false) (tasks self))
  | _ => true
  end.

(** A restart finds the store, the state machine, a configuration and the
    recorder clients. *)
Inductive action : Type :=
| Spawn (id : nat) (request : request)
| Step (id which : nat) (i : input)
| Drop (id : nat)
| Restart (config : ReplicaRuntimeConfig.t) (recorders : list ReplicaId) (store : St)
          (machine : E) (noop : option V).

Definition boot (config : ReplicaRuntimeConfig.t) (recorders : list ReplicaId) (store : St)
    (machine : E) (noop : option V) : Result handler :=
  let? h := new config recorders store machine in
  Ok (match noop with Some value => with_noop_value h value | None => h end).

Definition step (self : t) (a : action) : option t :=
  match a with
  | Spawn id request =>
      match tasks self !! id with
      | Some _ => None
      | None => Some (mk (node self) (<[id := Arrived request]> (tasks self)) (proposed self))
      end
  | Step id which i =>
      match tasks self !! id with
      | None => None
      | Some p =>
          if negb (gate_open self p) then None
          else
          match advance which i p (node self) with
          | None => None
          | Some (h, q) =>
              Some (mk h (<[id := q]> (tasks self)) (proposing q ++ proposed self))
          end
      end
  | Drop id => Some (mk (node self) (delete id (tasks self)) (proposed self))
  | Restart config recorders store machine noop =>
      match boot config recorders store machine noop with
      | Err _ => None
      | Ok h => Some (mk h ∅ (proposed self))
      end
  end.

Fixpoint steps (self : t) (actions : list action) : option t :=
  match actions with
  | [] => Some self
  | a :: actions => step self a ≫= λ self, steps self actions
  end.
End node.
Arguments t V {_ _} St E.
Arguments flight V : clear implicits.
Arguments proposal V : clear implicits.
Arguments pc V {_ _}.
Arguments request V {_ _}.
Arguments answer V {_ _}.
Arguments input X : clear implicits.
Arguments action V {_ _} St E X.
End Node.
