(* ===== verification/NodeClaims.v ===== *)
(** * A node proposes one batch per slot (src/network/node_runtime.rs)

  Agreement rests on a replica never proposing two batches for one slot. The
  node runtime shares one replica between concurrent requests, rolls state
  back when a save fails and starts again from its store after a crash. The
  invariant: every claim that matters (a pending proposal, a proposal a request
  drives, a batch whose proposer has started) is in the log in memory and in
  the log of the stored snapshot. *)
From S2P Require Import Prelude Errors Types Membership Proposer Replica Policy Schedule Runtime.
From S2P Require Import Wire AsyncProposer NodeRuntime NodeTasks.

(** ** Claims of a replica *)

Section claims.
Context {V : Type} `{Countable V}.
Import ReplicaCore.
Implicit Types rp : ReplicaCore.t V.

(** The log can no longer hand the slot to another batch. *)
Definition holds rp (slot : SlotIndex) (values : list V) : Prop :=
  slot < next_commit rp
  ∨ ∃ e, log rp !! slot = Some e ∧ (is_Some (LogSlot.decision e) ∨ LogSlot.proposed e = values).

Lemma holds_taken rp slot values : values ≠ [] → holds rp slot values → taken rp slot.
Proof.
  intros Hv [?|(e & He & Hd)]; [by left|]. right. exists e. split; [done|].
  apply is_claimed_iff. destruct Hd as [?|Hp]; [by left|right]. by rewrite Hp.
Qed.

(** Two batches held for one slot are one, unless the slot is settled. *)
Lemma holds_unique rp slot v1 v2 :
  holds rp slot v1 → holds rp slot v2 →
  slot < next_commit rp
  ∨ (∃ e, log rp !! slot = Some e ∧ is_Some (LogSlot.decision e)) ∨ v1 = v2.
Proof.
  intros [?|(e & He & H1)]; [by left|]. intros [?|(e' & He' & H2)]; [by left|].
  right. rewrite He in He'. injection He' as <-. destruct H1 as [?|<-], H2 as [?|<-]; eauto.
Qed.

Lemma with_decision_holds rp d slot values :
  holds rp slot values → holds (with_decision rp d) slot values.
Proof.
  intros [?|(e & He & Hp)]; [by left|right]. simpl.
  destruct (decide (slot = Decision.slot d)) as [->|Hne].
  - rewrite lookup_insert_eq. eexists. split; [done|]. left. by eexists.
  - exists e. by rewrite lookup_insert_ne.
Qed.

Lemma commits_holds rp rp' fresh slot values :
  commits rp rp' fresh → holds rp slot values → holds rp' slot values.
Proof.
  intros Hc Hh. pose proof (cm_next _ _ _ Hc). pose proof (len_nonneg fresh).
  destruct Hh as [?|(e & He & Hp)]; [left; lia|].
  destruct (decide (slot < next_commit rp')); [by left|right].
  exists e. rewrite (cm_outside _ _ _ Hc) by lia. done.
Qed.

(** Every operation of the replica but [note_proposed] keeps the claims, and
    a claim it hands out is held. *)
Lemma serve_holds op rp rp' out slot values :
  pipeline_inv rp → op_fits op → (∀ s l, op ≠ OpNoteProposed s l) → serve op rp = (rp', out) →
  values ≠ [] → holds rp slot values → holds rp' slot values.
Proof.
  intros Hp Hf Hno Hs Hv Hh. destruct op as [l| |s l|d|s|]; simpl in Hs.
  - destruct (enqueue l rp) as [s1 r] eqn:E.
    apply enqueue_cases in E as [[-> _]|(-> & _ & _ & ->)]; [destruct r|]; by simplify_eq.
  - destruct (next_proposal rp) as [s1 r] eqn:E.
    assert (rp' = s1) as -> by (destruct r as [[[]|]|]; by simplify_eq). clear Hs.
    apply next_proposal_cases in E as [[-> _]|(sl & n & Ho & _ & Hn & _)]; [done|].
    apply note_proposed_cases in Hn as [[-> _]|(_ & _ & _ & _ & ->)]; [done|].
    destruct Hh as [?|(e & He & Hd)]; [by left|right]. simpl. exists e.
    rewrite lookup_insert_ne; [done|]. intros ->. apply (next_open_slot_free _ _ Ho).
    eapply holds_taken; [done|]. right. eauto.
  - by destruct (Hno s l).
  - destruct (apply_decision d rp) as [s1 r] eqn:E.
    assert (rp' = s1) as -> by (destruct r; by simplify_eq). clear Hs.
    apply apply_pipeline in E as [[-> _]|(fresh & -> & Hc & _)]; [done| |done..].
    eapply commits_holds; [done|]. by apply with_decision_holds.
  - simplify_eq. destruct Hh as [?|(e & He & Hd)]; [by left|].
    destruct (decide (slot < next_commit rp)); [by left|right]. exists e. split; [|done]. simpl.
    apply map_lookup_filter_Some. split; [done|]. right. right. simpl.
    eapply (ri_open _ (pi_replica _ Hp)); [done|lia].
  - rewrite restore_replica in Hs by apply Hp. by simplify_eq.
Qed.

Lemma claim_holds rp rp' slot values :
  next_proposal rp = (rp', Ok (Some (slot, values))) → values ≠ [] ∧ holds rp' slot values.
Proof.
  intros [[_ [?|?]]|(sl & n & _ & _ & Hn & Hok)]%next_proposal_cases; [done..|].
  specialize (Hok eq_refl). simplify_eq.
  apply note_proposed_cases in Hn as [[_ ?]|(_ & Hl & _ & _ & ->)]; [done|].
  split; [done|right]. eexists. simpl. rewrite lookup_insert_eq. eauto.
Qed.

(** A snapshot of a well-formed replica restores it, under any limits it
    fits. *)
Lemma restore_pipeline c rp rp' :
  pipeline_inv rp → restore c (snapshot rp) = Ok rp' →
  pipeline_inv rp' ∧ log rp' = log rp ∧ next_commit rp' = next_commit rp.
Proof.
  intros [[Hg Hck Hfit Hcom Hopen Hslot Hps Hls Hpl Hll Hsl] Hlast Hc]. unfold restore. simpl.
  destruct (Z.ltb_spec (ReplicaConfig.max_pending_values c) (len (pending rp))); [done|].
  destruct (Z.ltb_spec (ReplicaConfig.max_log_slots c) (retained_slots (log rp))); [done|].
  destruct (Z.ltb_spec (ReplicaConfig.max_tracked_value_ids c)
              (Z.of_nat (size (seen_value_ids rp)))); [done|].
  destruct (existsb _ _); [done|]. destruct (_ || _); [done|].
  destruct (ok_or _ _); [|done]. destruct (check_committed _ _ _); [|done].
  destruct (existsb _ _); [done|]. intros [= <-]. by split_and!.
Qed.

Lemma holds_same rp rp' slot values :
  log rp' = log rp → next_commit rp' = next_commit rp →
  holds rp slot values → holds rp' slot values.
Proof. unfold holds. by intros -> ->. Qed.
End claims.

(** ** Claims of a node *)

Section node_claims.
Context {V : Type} `{Countable V} {St E : Type}.
Context `{!RuntimeStateStore V St, !StateMachine V E}.
Context {content : St → option (RuntimeSnapshot.t V)} `{!RuntimeStateStoreLaws V St content}.
Import NetworkConsensusHandler.
Abbreviation handler := (NetworkConsensusHandler.t V St E).
Abbreviation claimset := (SlotIndex → list V → Prop).
Implicit Types (P Q : claimset) (h : handler) (st : ConsensusState.t V).

Definition armed st : claimset := λ s v, ConsensusState.pending st !! s = Some v.
Definition also P Q : claimset := λ s v, P s v ∨ Q s v.
Definition one_batch P : Prop := ∀ s v v', P s v → P s v' → v = v'.

Record mem_ok P st : Prop := {
  mo_replica : pipeline_inv (ConsensusState.replica st);
  mo_held : ∀ s v, also P (armed st) s v →
    v ≠ [] ∧ holds (ConsensusState.replica st) s v;
  mo_one : one_batch (also P (armed st));
}.

(** A snapshot from which the node may start without breaking the claims. *)
Definition keeps_claims P (snap : RuntimeSnapshot.t V) : Prop :=
  ∃ rp, pipeline_inv rp ∧ RuntimeSnapshot.replica snap = ReplicaCore.snapshot rp
    ∧ (∀ s v, P s v → holds rp s v)
    ∧ ∀ s p, RuntimeSnapshot.pending snap !! s = Some p →
        PendingProposalSnapshot.value_ids p ≠ []
        ∧ ∀ v, P s v → v = PendingProposalSnapshot.value_ids p.

Definition store_ok P (store : St) : Prop :=
  match content store with
  | Some snap => keeps_claims P snap
  | None => ∀ s v, ¬ P s v
  end.

(** [P] are the claims of the requests; the pending proposals come on top. *)
Record node_ok P h : Prop := {
  no_noop : noop_value h = None;
  no_mem : mem_ok P (state h);
  no_store : store_ok (also P (armed (state h))) (state_store h);
}.

Lemma keeps_claims_mono P Q snap : (∀ s v, P s v → Q s v) → keeps_claims Q snap → keeps_claims P snap.
Proof.
  intros HPQ (rp & Hp & Hr & Hh & Hn). exists rp. split_and!; try done; [naive_solver|].
  intros s p Hs. destruct (Hn s p Hs) as [? Hu]. split; [done|]. naive_solver.
Qed.

Lemma store_ok_mono P Q store : (∀ s v, P s v → Q s v) → store_ok Q store → store_ok P store.
Proof.
  intros HPQ. unfold store_ok. destruct (content store); [by apply keeps_claims_mono|naive_solver].
Qed.

Lemma mem_ok_mono P Q st : (∀ s v, P s v → also Q (armed st) s v) → mem_ok Q st → mem_ok P st.
Proof.
  intros HPQ [Hp Hh Ho]. assert (∀ s v, also P (armed st) s v → also Q (armed st) s v) as Hs.
  { intros s v [?|?]; [by apply HPQ|by right]. }
  split; [done|naive_solver|]. intros s v v' ??. by eapply Ho; apply Hs.
Qed.

Lemma node_ok_mono P Q h : (∀ s v, P s v → also Q (armed (state h)) s v) → node_ok Q h → node_ok P h.
Proof.
  intros HPQ [Hn Hm Hs]. split; [done|by eapply mem_ok_mono|].
  eapply store_ok_mono; [|exact Hs]. intros s v [?|?]; [by apply HPQ|by right].
Qed.

(** What a save writes. *)
Lemma snapshot_keeps P Q h :
  mem_ok Q (state h) → (∀ s v, P s v → also Q (armed (state h)) s v) → keeps_claims P (snapshot h).
Proof.
  intros [Hp Hh Ho] HPQ. exists (ConsensusState.replica (state h)). split_and!; try done.
  - intros s v ?%HPQ. by apply Hh.
  - intros s p. simpl. rewrite lookup_fmap_Some. intros (v & <- & Hv). simpl.
    split; [by apply (Hh s v); right|]. intros v' ?%HPQ. eapply Ho; [done|by right].
Qed.

Lemma save_store_claims P Q h h' r :
  save_store h = (h', r) → mem_ok Q (state h) → (∀ s v, P s v → also Q (armed (state h)) s v) →
  store_ok P (state_store h) →
  h' = set_state_store h (state_store h') ∧ store_ok P (state_store h')
  ∧ (is_ok r = true → store_ok (also Q (armed (state h))) (state_store h')).
Proof.
  unfold save_store. destruct (runtime_save _ _) as [s [[]|e]] eqn:Hs; intros [= <- <-] Hm HPQ HP.
  - apply runtime_save_Ok in Hs. split; [done|]. unfold store_ok. simpl. rewrite Hs.
    split; [|intros _]; by eapply snapshot_keeps.
  - split; [done|]. split; [|done]. unfold store_ok. simpl.
    apply runtime_save_Err in Hs as [->| ->]; [done|]. by eapply snapshot_keeps.
Qed.

Lemma save_store_node_ok P h : node_ok P h → node_ok P (save_store h).1.
Proof.
  intros [Hn Hm Hs]. destruct (save_store h) as [h' r] eqn:Hc.
  eapply save_store_claims in Hc as (-> & Hk & _); [|done| |done]; [|done]. by split.
Qed.

Lemma save_or_restore_claims P before h h' r :
  save_or_restore before h = (h', r) → noop_value h = None →
  mem_ok P before → mem_ok (also P (armed before)) (state h) →
  store_ok (also P (armed before)) (state_store h) →
  node_ok P h' ∧ (is_ok r = true → state h' = state h).
Proof.
  intros Hs Hn Hb Hm Hst. unfold save_or_restore in Hs.
  destruct (save_store h) as [h1 r1] eqn:Hc.
  eapply save_store_claims in Hc as (Heq & Hk & Hok); [|done| |done]; [|by left].
  destruct r1 as [[]|e]; injection Hs as <- <-; (split; [|rewrite Heq; done]).
  - rewrite Heq. split; simpl; [done| |].
    + eapply mem_ok_mono; [|exact Hm]. intros s v ?. left. by left.
    + eapply store_ok_mono; [|by apply Hok]. intros s v [?|?]; [left; by left|by right].
  - rewrite Heq. split; simpl; [done..|]. done.
Qed.

(** ** The sections keep the claims *)

Lemma mem_ok_same P st st' :
  ConsensusState.replica st' = ConsensusState.replica st →
  ConsensusState.pending st' = ConsensusState.pending st → mem_ok P st → mem_ok P st'.
Proof. intros Hr Hp [? Hh Ho]. unfold armed in *. split; unfold armed; by rewrite ?Hr, ?Hp. Qed.

(** State that is neither the log nor the proposals. *)
Lemma node_ok_same P h st' :
  ConsensusState.replica st' = ConsensusState.replica (state h) →
  ConsensusState.pending st' = ConsensusState.pending (state h) →
  node_ok P h → node_ok P (set_state h st').
Proof.
  intros Hr Hp [Hn Hm Hs]. split; simpl; [done|by eapply mem_ok_same|].
  unfold armed in *. by rewrite Hp.
Qed.

(** An operation of the replica, with fewer proposals than before. *)
Lemma mem_ok_serve P st st' op :
  mem_ok P st → op_fits op → (∀ s l, op ≠ OpNoteProposed s l) →
  (serve op (ConsensusState.replica st)).1 = ConsensusState.replica st' →
  ConsensusState.pending st' ⊆ ConsensusState.pending st → mem_ok (also P (armed st)) st'.
Proof.
  intros [Hp Hh Ho] Hf Hno Hfst Hsub. destruct (serve op _) as [rp out] eqn:Hs. simpl in Hfst. subst rp.
  assert (∀ s v, also (also P (armed st)) (armed st') s v → also P (armed st) s v) as Hw.
  { intros s v [?|Hv]; [done|]. right. by eapply lookup_weaken. }
  split.
  - by eapply serve_pipeline.
  - intros s v Hv%Hw. destruct (Hh s v Hv). split; [done|]. by eapply serve_holds.
  - intros s v v' ?%Hw ?%Hw. by eapply Ho.
Qed.

Lemma mem_ok_drop P Q st : mem_ok (also P Q) st → mem_ok P st.
Proof. apply mem_ok_mono. intros s v ?. left. by left. Qed.

Lemma mem_ok_armed P st : mem_ok P st → mem_ok (also P (armed st)) st.
Proof. by apply mem_ok_mono. Qed.

Lemma run_machine_claims {A} P (f : E → E * Result A) h : node_ok P h → node_ok P (run_machine f h).1.
Proof. intros [???]. unfold run_machine, zoom. destruct (f _) as [e r]. by split. Qed.

Lemma execute_one_claims P d : preserves (node_ok P) (execute_one d).
Proof.
  unfold execute_one. apply preserves_bind; [by intros h|]. intros [].
  - by intros h.
  - apply preserves_bind; [by intros h; apply run_machine_claims|intros _].
    apply preserves_bind; [|intros _ h; apply save_store_node_ok].
    intros h Hh. unfold modify. simpl. by apply node_ok_same.
Qed.

Lemma execute_decisions_claims P ds : preserves (node_ok P) (execute_decisions ds).
Proof. apply preserves_for_each. intros d. apply execute_one_claims. Qed.

Lemma execute_ready_claims P : preserves (node_ok P) execute_ready.
Proof.
  unfold execute_ready. apply preserves_bind; [by intros h|]. intros ds. apply execute_decisions_claims.
Qed.

(** Without a no-op value nothing is armed. *)
Lemma arm_gap_none now h : noop_value h = None → arm_gap_noop now h = (h, Ok false).
Proof.
  intros Hn. unfold arm_gap_noop, bind, reads, on_state, zoom, ConsensusState.arm_gap_noop.
  rewrite Hn. unfold bind, reads, ret. by destruct h.
Qed.

(** The statistics are the tuner's. *)
Lemma stats_of_tuner st st' r :
  ConsensusState.note_stats st = (st', r) → ∃ tn, st' = ConsensusState.set_tuner st tn.
Proof.
  unfold ConsensusState.note_stats, bind at 1, reads.
  set (same := λ s : ConsensusState.t V, ∃ tn, s = ConsensusState.set_tuner st tn).
  intros Hn. enough (same (for_each (λ u,
    let* _ := ConsensusState.on_tuner (EpochTuner.note_committed u.1 u.2) in ret tt)
    (ConsensusState.stat_updates st) st).1) as Hs by (by rewrite Hn in Hs).
  apply (preserves_for_each same); last first.
  { exists (ConsensusState.tuner st). by destruct st. }
  intros u. apply preserves_bind; [|by intros _ s].
  intros s [tn ->]. unfold ConsensusState.on_tuner, zoom.
  destruct (EpochTuner.note_committed _ _ _) as [tn' ?]. by exists tn'.
Qed.

Lemma note_stats_cases before h h' r :
  note_stats before h = (h', r) →
  (∃ tn, r = Ok tt ∧ h' = set_state h (ConsensusState.set_tuner (state h) tn))
  ∨ (is_ok r = false ∧ h' = set_state h before).
Proof.
  unfold note_stats, on_state, zoom.
  destruct (ConsensusState.note_stats (state h)) as [st' [[]|e]] eqn:Hs; intros [= <- <-].
  - left. apply stats_of_tuner in Hs as [tn ->]. by exists tn.
  - right. by destruct h.
Qed.

Lemma apply_decision_claims P d h h' committed :
  node_ok P h → Decision.slot d < U64.MAX →
  on_state (ConsensusState.on_replica (ReplicaCore.apply_decision d)) h = (h', committed) →
  noop_value h' = None ∧ state_store h' = state_store h
  ∧ (is_ok committed = false → h' = h)
  ∧ mem_ok (also P (armed (state h))) (ConsensusState.record_decision d (state h')).
Proof.
  intros [Hn Hm Hs] Hd. unfold on_state, ConsensusState.on_replica, zoom.
  destruct (ReplicaCore.apply_decision d _) as [rp r] eqn:Ha. intros [= <- <-]. simpl.
  split_and!; [done..| |].
  - intros Hr. apply apply_pipeline in Ha as [[-> _]|(fresh & -> & _)]; [|done|apply Hm|done].
    destruct h as [? ? [] ? ? ?]. done.
  - eapply (mem_ok_serve _ _ _ (OpApply d)); [done..| |];
      [simpl; rewrite Ha; by destruct r|].
    simpl. apply delete_subseteq.
Qed.

Lemma accept_decision_claims P now d h :
  node_ok P h → Decision.slot d < U64.MAX → node_ok P (accept_decision now d h).1.
Proof.
  intros Hok Hd. unfold accept_decision, bind at 1, reads.
  destruct (ConsensusState.decisions (state h) !! Decision.slot d) as [existing|].
  - destruct (negb _); [done|]. unfold bind. rewrite arm_gap_none by apply Hok.
    by apply execute_ready_claims.
  - unfold bind at 1.
    destruct (on_state _ h) as [h1 r] eqn:Ha.
    destruct (apply_decision_claims P d h h1 r Hok Hd Ha) as (Hn & Hst & Herr & Hm).
    destruct r as [committed|e]; [|by rewrite Herr].
    unfold bind at 1, modify. unfold bind at 1. rewrite arm_gap_none by done.
    set (h2 := set_state h1 _). unfold bind at 1.
    destruct (note_stats (state h) h2) as [h3 r3] eqn:Hns.
    apply note_stats_cases in Hns as [(tn & -> & ->)|[Hr ->]].
    + unfold bind. destruct (save_or_restore (state h) _) as [h4 r4] eqn:Hsv.
      eapply (save_or_restore_claims P) in Hsv as [Hok4 _].
      * destruct r4; [by apply execute_decisions_claims|done].
      * done.
      * apply Hok.
      * by eapply mem_ok_same, Hm.
      * simpl. rewrite Hst. apply Hok.
    + destruct r3; [done|]. simpl. split; simpl; [done|apply Hok|rewrite Hst; apply Hok].
Qed.

Lemma recover_section_claims P now h h' r :
  node_ok P h → recover_section now h = (h', r) →
  node_ok P h'
  ∧ ∀ l, r = Ok l → ∀ s v, (s, v) ∈ l → armed (state h') s v.
Proof.
  intros Hok. unfold recover_section, bind at 1, reads at 1. unfold bind at 1.
  rewrite arm_gap_none by apply Hok. unfold bind at 1, ret. unfold bind.
  pose proof (execute_ready_claims P h Hok) as Hr.
  destruct (execute_ready h) as [h1 [[]|e]]; intros [= <- <-]; split; [done| |done..].
  intros l [= <-] s v. by rewrite elem_of_entries.
Qed.

Lemma submit_enqueue_claims P submission h : node_ok P h → node_ok P (submit_enqueue submission h).1.
Proof.
  intros Hok. unfold submit_enqueue, bind at 1, readr. destruct (submit_check _ _); [|done].
  unfold bind at 1, reads. unfold bind, on_state, ConsensusState.on_replica, zoom.
  destruct (ReplicaCore.enqueue _ _) as [rp r] eqn:He.
  assert (mem_ok (also P (armed (state h))) (ConsensusState.set_replica (state h) rp)) as Hm.
  { eapply (mem_ok_serve _ _ _ (OpEnqueue (Submission.value_ids submission))); [apply Hok|done..| |done].
    simpl. rewrite He. by destruct r. }
  destruct r as [[]|e].
  - destruct (save_or_restore _ _) as [h2 r2] eqn:Hs.
    by eapply (save_or_restore_claims P) in Hs as [? _]; [|apply Hok|apply Hok|exact Hm|apply Hok].
  - simpl. split; simpl; [apply Hok|by eapply mem_ok_drop|apply Hok].
Qed.

(** A claim that [next_proposal] hands out joins the others. *)
Lemma claim_mem_ok P st rp slot values :
  mem_ok P st → ReplicaCore.next_proposal (ConsensusState.replica st) = (rp, Ok (Some (slot, values))) →
  mem_ok (also P (armed st))
    (ConsensusState.set_pending (ConsensusState.set_replica st rp)
       (<[slot := values]> (ConsensusState.pending st))).
Proof.
  intros [Hp Hh Ho] Hn. destruct (claim_holds _ _ _ _ Hn) as [Hv Hhold].
  assert (serve OpNextProposal (ConsensusState.replica st) = (rp, Claimed slot values)) as Hs.
  { simpl. by rewrite Hn. }
  assert (∀ v, ¬ also P (armed st) slot v) as Hfree.
  { intros v Hc. destruct (Hh _ _ Hc) as [??].
    apply (serve_claims_free _ _ _ _ slot Hs); [by apply list_elem_of_singleton|].
    by eapply holds_taken. }
  set (st' := ConsensusState.set_pending _ _).
  assert (∀ s v, also (also P (armed st)) (armed st') s v →
            also P (armed st) s v ∨ (s = slot ∧ v = values)) as Hw.
  { intros s v [?|Hv']; [by left|]. unfold armed in Hv'. simpl in Hv'.
    apply lookup_insert_Some in Hv' as [[<- <-]|[_ ?]]; [by right|left; by right]. }
  split.
  - by apply (serve_pipeline OpNextProposal _ _ _ Hp I Hs).
  - intros s v [Hc|[-> ->]]%Hw; [|done]. destruct (Hh _ _ Hc). split; [done|].
    by eapply (serve_holds OpNextProposal).
  - intros s v v' [Hc|[-> ->]]%Hw [Hc'|[Hs' ->]]%Hw; subst; try done; [by eapply Ho|..].
    + by apply Hfree in Hc.
    + by apply Hfree in Hc'.
Qed.

Lemma submit_turn_claims P submission h h' r :
  node_ok P h → submit_turn submission h = (h', r) →
  node_ok P h' ∧ ∀ slot values, r = Ok (Proposal slot values) → armed (state h') slot values.
Proof.
  intros Hok. unfold submit_turn, bind at 1, reads.
  destruct (ConsensusState.decision_for _ _); [by intros [= <- <-]|].
  destruct (ConsensusState.pending_for _ _) as [[slot values]|] eqn:Hpf.
  { intros [= <- <-]. split; [done|]. intros ?? [= <- <-].
    unfold ConsensusState.pending_for in Hpf. apply head_Some_elem_of in Hpf.
    apply list_elem_of_filter in Hpf as [_ Hpf]. by apply elem_of_entries in Hpf. }
  unfold bind at 1, on_state, ConsensusState.on_replica, zoom.
  destruct (ReplicaCore.next_proposal _) as [rp [[[slot values]|]|e]] eqn:Hn.
  - pose proof (claim_mem_ok P _ _ _ _ (no_mem _ _ Hok) Hn) as Hm.
    unfold bind at 1, modify. unfold bind, ret. simpl.
    destruct (save_or_restore _ _) as [h2 r2] eqn:Hs.
    eapply (save_or_restore_claims P) in Hs as [Hok2 Hsame];
      [|apply Hok|apply Hok|exact Hm|apply Hok].
    destruct r2; intros [= <- <-]; (split; [done|]); [|done].
    intros ?? [= <- <-]. rewrite Hsame by done. unfold armed. simpl. apply lookup_insert_eq.
  - intros [= <- <-]. split; [|done]. split; simpl; [apply Hok| |apply Hok].
    eapply mem_ok_drop, (mem_ok_serve _ _ _ OpNextProposal); [apply Hok|done..| |done].
    simpl. by rewrite Hn.
  - intros [= <- <-]. split; [|done]. split; simpl; [apply Hok| |apply Hok].
    eapply mem_ok_drop, (mem_ok_serve _ _ _ OpNextProposal); [apply Hok|done..| |done].
    simpl. by rewrite Hn.
Qed.

Lemma hedge_for_claims P slot now later h : node_ok P h → node_ok P (hedge_for slot now later h).1.
Proof.
  intros Hok. unfold hedge_for, bind at 1, reads. unfold bind at 1, on_state, ConsensusState.on_tuner, zoom.
  destruct (EpochTuner.ensure_schedule _ _) as [tn r]. set (h1 := set_state h _).
  assert (node_ok P h1) by (by apply node_ok_same).
  destruct r as [schedule|]; [|done]. unfold bind at 1, lift. destruct (ok_or _ _); [|done].
  destruct (_ <=? _); [done|]. unfold bind at 1. destruct (ok_or _ _); [|done].
  unfold bind, modify, ret. simpl. by apply (node_ok_same P h1).
Qed.

Lemma note_progress_claims P slot highest h : node_ok P h → node_ok P (note_progress slot highest h).1.
Proof.
  intros Hok. unfold note_progress, bind, reads, ret, modify.
  destruct (bool_decide _); [done|]. destruct (match _ with Some _ => _ | None => _ end); [|done].
  simpl. by apply node_ok_same.
Qed.

Lemma install_epoch_schedule_claims P schedule h :
  node_ok P h → node_ok P (install_epoch_schedule schedule h).1.
Proof.
  intros Hok. unfold install_epoch_schedule, bind at 1, reads. destruct (negb _); [done|].
  unfold bind, on_state, ConsensusState.on_tuner, zoom.
  destruct (EpochTuner.install _ _) as [tn [installed|]]; [|by apply node_ok_same].
  destruct installed; [|by apply node_ok_same].
  destruct (save_or_restore _ _) as [h2 r2] eqn:Hs.
  eapply (save_or_restore_claims P) in Hs as [? _]; [done|apply Hok|apply Hok| |apply Hok].
  simpl. eapply (mem_ok_same _ (state h)); [done..|]. apply mem_ok_armed, Hok.
Qed.

Lemma transfer_prune_claims P slot ids checkpoint h :
  node_ok P h → node_ok P (transfer_prune slot ids checkpoint h).1.
Proof.
  intros Hok. unfold transfer_prune, bind at 1, reads. destruct (negb _); [done|].
  unfold bind, modify, ret. destruct (save_or_restore _ _) as [h2 r2] eqn:Hs.
  enough (node_ok P h2) by (by destruct r2).
  eapply (save_or_restore_claims P) in Hs as [? _]; [done|apply Hok|apply Hok| |apply Hok].
  eapply (mem_ok_serve _ _ _ (OpPruneLog slot)); [apply Hok|done..|]. simpl.
  unfold retain. apply map_filter_subseteq.
Qed.

Lemma transfer_export_claims P slot h : node_ok P h → node_ok P (transfer_export slot h).1.
Proof. apply run_machine_claims. Qed.

Lemma transfer_select_frame slot h : (transfer_select slot h).1 = h.
Proof.
  unfold transfer_select, bind, reads, ret, throw. destruct (_ <? _); [done|]. by destruct (existsb _ _).
Qed.

Lemma change_begin_claims P change next h : node_ok P h → node_ok P (change_begin change next h).1.
Proof.
  intros Hok. unfold change_begin, bind at 1, lift.
  destruct (MembershipChange.validate_binding change); [|done]. unfold bind at 1, reads.
  destruct (bool_decide _).
  - unfold bind, modify, ret. destruct (validate_async_recorders _ _); [|done].
    split; simpl; apply Hok.
  - destruct (negb _); [done|]. unfold bind. destruct (validate_async_recorders _ _); [|done].
    by destruct (_ || _).
Qed.

Lemma change_activate_claims P change next h : node_ok P h → node_ok P (change_activate change next h).1.
Proof.
  intros [Hn Hm Hs]. unfold change_activate. set (h1 := set_recorders _ _).
  destruct (save_store h1) as [h2 r2] eqn:Hc.
  eapply (save_store_claims (also P (armed (state h))) (also P (armed (state h)))) in Hc
    as (-> & Hk & Hok);
    [|by eapply (mem_ok_same _ (state h)), mem_ok_armed|by left|done].
  destruct r2; simpl; split; simpl; try done. by eapply (mem_ok_same _ (state h)).
Qed.

(** ** Starting *)

Lemma restored_state config snap st :
  ConsensusState.restored config snap = Ok st →
  ReplicaCore.restore (ReplicaRuntimeConfig.replica config) (RuntimeSnapshot.replica snap)
    = Ok (ConsensusState.replica st)
  ∧ ConsensusState.pending st = ConsensusState.snapshot_pending snap.
Proof.
  unfold ConsensusState.restored. destruct (ReplicaCore.restore _ _); [|done].
  destruct (EpochTuner.restore _ _ _ _ _ _); [|done]. by intros [= <-].
Qed.

Lemma validated_pending config st s v :
  ConsensusState.validate_state config st = Ok tt → ConsensusState.pending st !! s = Some v →
  holds (ConsensusState.replica st) s v.
Proof.
  unfold ConsensusState.validate_state. destruct (negb _); [done|].
  destruct (try_each _ (entries (ConsensusState.decisions st))); [|done].
  rewrite try_each_Ok, Forall_entries. intros Hv Hs. specialize (Hv s v Hs). simpl in Hv.
  destruct (ReplicaCore.slot _ s) as [e|] eqn:He; [|done]. simpl in Hv.
  destruct (bool_decide _ && bool_decide _) eqn:Hb; [|done].
  apply andb_true_iff in Hb as [_ Hb%bool_decide_eq_true]. right. exists e. auto.
Qed.

(** A restored and validated state holds the claims of its snapshot. *)
Lemma restored_claims P config snap st :
  keeps_claims P snap → ConsensusState.restored config snap = Ok st →
  ConsensusState.validate_state config st = Ok tt →
  one_batch P → (∀ s v, P s v → v ≠ []) →
  mem_ok P st ∧ keeps_claims (also P (armed st)) snap.
Proof.
  intros (rp & Hp & Hr & Hh & Hpe) [Hre Hpend]%restored_state Hval Ho Hne.
  rewrite Hr in Hre. destruct (restore_pipeline _ _ _ Hp Hre) as (Hp' & Hlog & Hnext).
  assert (∀ s v, armed st s v → v ≠ [] ∧ ∀ v', P s v' → v' = v) as Harm.
  { intros s v. unfold armed. rewrite Hpend. unfold ConsensusState.snapshot_pending.
    rewrite lookup_fmap_Some. intros (p & <- & Hs). by apply Hpe. }
  assert (one_batch (also P (armed st))) as Hone.
  { intros s v v' [Hv|Hv] [Hv'|Hv']; [by eapply Ho|by apply (Harm s v' Hv')| |].
    - symmetry. by apply (Harm s v Hv).
    - unfold armed in *. by simplify_eq. }
  assert (∀ s v, also P (armed st) s v → v ≠ [] ∧ holds (ConsensusState.replica st) s v) as Hheld.
  { intros s v [Hv|Hv].
    - split; [by eapply Hne|]. by eapply holds_same, Hh.
    - split; [by apply (Harm s)|]. by eapply validated_pending. }
  split; [by split|]. exists rp. split_and!; try done.
  - intros s v [_ Hv]%Hheld. by eapply holds_same, Hv.
  - intros s p Hs. split; [by apply (Hpe s p)|]. intros v Hv. eapply Hone; [done|]. right.
    unfold armed. rewrite Hpend. unfold ConsensusState.snapshot_pending. by rewrite lookup_fmap, Hs.
Qed.

Lemma fresh_mem_ok P config :
  config_ok (ReplicaRuntimeConfig.replica config) → (∀ s v, ¬ P s v) →
  mem_ok P (ConsensusState.fresh (V:=V) config).
Proof.
  intros Hc HP. assert (∀ s v, ¬ also P (armed (ConsensusState.fresh config)) s v) as Hno.
  { intros s v [?|Ha]; [by eapply HP|]. unfold armed in Ha. simpl in Ha. by rewrite lookup_empty in Ha. }
  split; simpl; [by apply new_pipeline_inv|..].
  - intros s v Hv. by apply Hno in Hv.
  - intros s v v' Hv. by apply Hno in Hv.
Qed.

Lemma new_claims P config recorders store machine h :
  new config recorders store machine = Ok h → config_ok (ReplicaRuntimeConfig.replica config) →
  store_ok P store → one_batch P → (∀ s v, P s v → v ≠ []) → node_ok P h.
Proof.
  unfold new. destruct (negb _); [done|].
  destruct (runtime_load store) as [store' [loaded|]] eqn:Hl; [|done].
  apply runtime_load_content in Hl as [-> Hc']. intros Hnew Hc Hst Ho Hne.
  unfold store_ok in Hst. destruct (content store) as [snap|] eqn:Hc0.
  - destruct (_ || _); [done|]. destruct (ConsensusState.restored config snap) as [st|] eqn:Hr; [|done].
    destruct (ConsensusState.validate_state config st) as [[]|] eqn:Hv; [|done].
    injection Hnew as <-. destruct (restored_claims P _ _ _ Hst Hr Hv Ho Hne) as [Hm Hk].
    split; simpl; [done..|]. unfold store_ok. by rewrite Hc', ?Hc0.
  - destruct (ConsensusState.validate_state _ _); [|done]. injection Hnew as <-.
    split; simpl; [done|by apply fresh_mem_ok|]. unfold store_ok. rewrite Hc', ?Hc0.
    intros s v [?|Ha]; [by eapply Hst|]. unfold armed in Ha. simpl in Ha. by rewrite lookup_empty in Ha.
Qed.

(** A snapshot accounts for a decision: it has it, or has pruned past it. *)
Definition kept (snap : RuntimeSnapshot.t V) (i : SlotIndex) (d : Decision.t V) : Prop :=
  RuntimeSnapshot.decisions snap !! i = Some d
  ∨ i ≤ ReplicaSnapshot.checkpointed_through (RuntimeSnapshot.replica snap).

(** A state transfer that does not take the node back. *)
Definition catches_up (snap : RuntimeSnapshot.t V) st : Prop :=
  ReplicaCore.checkpointed_through (ConsensusState.replica st)
    ≤ ReplicaSnapshot.checkpointed_through (RuntimeSnapshot.replica snap)
  ∧ ∀ i d, ConsensusState.decisions st !! i = Some d → kept snap i d.

(** The snapshot of a state transfer is one a node made. *)
Definition genuine (snap : RuntimeSnapshot.t V) : Prop := keeps_claims (λ _ _, False) snap.

(** What a node exports is. *)
Lemma transfer_prune_genuine P slot ids checkpoint h h' tr :
  node_ok P h → transfer_prune slot ids checkpoint h = (h', Ok tr) →
  genuine (StateTransferSnapshot.runtime tr).
Proof.
  intros Hok. unfold transfer_prune, bind at 1, reads. destruct (negb _); [done|].
  unfold bind, modify, ret. set (h1 := set_state h _).
  assert (mem_ok (also P (armed (state h))) (state h1)) as Hm.
  { eapply (mem_ok_serve _ _ _ (OpPruneLog slot)); [apply Hok|done..|]. simpl.
    unfold retain. apply map_filter_subseteq. }
  destruct (save_or_restore _ _) as [h2 [[]|]]; [|done]. intros [= _ <-].
  by eapply (snapshot_keeps (λ _ _, False)).
Qed.

Lemma install_transfer_claims P transfer h :
  node_ok P h → keeps_claims (also P (armed (state h))) (StateTransferSnapshot.runtime transfer) →
  node_ok P (install_state_transfer transfer h).1.
Proof.
  intros Hok Hg. unfold install_state_transfer, bind at 1, reads.
  destruct (_ || _); [done|]. unfold bind at 1, lift.
  destruct (ConsensusState.restored _ _) as [st|] eqn:Hr; [|done]. unfold bind at 1.
  destruct (ConsensusState.validate_state _ st) as [[]|] eqn:Hv; [|done].
  destruct (no_mem _ _ Hok) as [_ Hheld Hone].
  destruct (restored_claims P (config h) (StateTransferSnapshot.runtime transfer) st) as [Hm Hkst];
    [by eapply keeps_claims_mono, Hg; left|done..| | |].
  { intros s v v' ??. by eapply Hone; left. }
  { intros s v ?. by apply (Hheld s); left. }
  unfold bind at 1. set (m := run_machine _).
  pose proof (run_machine_claims P (λ e, import_checkpoint e (StateTransferSnapshot.through transfer)
    (StateTransferSnapshot.application_checkpoint transfer)) h Hok) as Hok1.
  assert (state (m h).1 = state h) as Hsame.
  { unfold m, run_machine, zoom. by destruct (import_checkpoint _ _ _). }
  fold m in Hok1. destruct (m h) as [h1 [[]|]]; [|done]. simpl in Hok1, Hsame.
  unfold bind, zoom, modify. destruct (runtime_save _ _) as [s [[]|]] eqn:Hs; simpl.
  - apply runtime_save_Ok in Hs. split; simpl; [apply Hok1|done|]. unfold store_ok. by rewrite Hs.
  - apply runtime_save_Err in Hs as [Hs|Hs]; split; simpl; try apply Hok1; unfold store_ok; rewrite Hs.
    + apply Hok1.
    + by rewrite Hsame.
Qed.
End node_claims.

(** ** The running node *)

Section running.
Context {V : Type} `{Countable V} {St E X : Type}.
Context `{!RuntimeStateStore V St, !StateMachine V E}.
Context {content : St → option (RuntimeSnapshot.t V)} `{!RuntimeStateStoreLaws V St content}.
Context (network : X → list (ReplicaId * RecordRequest.t V) →
                   X * list (ReplicaId * Result (RecordReply.t V))).
Context (ord : relation V) `{!RelDecision ord}.
Import Node.
Abbreviation handler := (NetworkConsensusHandler.t V St E).
Abbreviation system := (Node.t V St E).
Abbreviation node_ok := (node_ok (content:=content)).
Implicit Types (h : handler) (self : system).

(** The proposals a request drives. *)
Definition flights_of (p : pc V) : list (proposal V) :=
  match p with Driving _ f => [f] | Joining _ flights _ => flights | _ => [] end.

(** The decisions a request is about to accept. *)
Definition landing (f : proposal V) : list (Decision.t V) :=
  match stage f with Accepting d => [d] | _ => [] end.
Definition to_accept (p : pc V) : list (Decision.t V) :=
  match p with Receiving ds => ds | _ => flights_of p ≫= landing end.
Definition below_last (d : Decision.t V) : Prop := Decision.slot d < U64.MAX.

Definition claims_of self : SlotIndex → list V → Prop := λ s v,
  (s, v) ∈ proposed self
  ∨ ∃ id p f, tasks self !! id = Some p ∧ f ∈ flights_of p ∧ at_slot f = s ∧ batch f = v.

(** The snapshot of a state transfer accounts for what the node has put
    forward, in this life or an earlier one: a slot it proposed for, or claimed
    for a pending batch, is behind the snapshot's frontier, or decided in it, or
    carries the same batch there. *)
Definition accounts_for self (snap : RuntimeSnapshot.t V) : Prop :=
  keeps_claims (also (claims_of self) (armed (NetworkConsensusHandler.state (node self)))) snap.

(** A transfer that reaches past every slot the node put forward accounts for
    them all: the node that is far behind. *)
Lemma past_accounts_for self snap :
  genuine snap →
  (∀ s p, RuntimeSnapshot.pending snap !! s = Some p →
     ReplicaSnapshot.checkpointed_through (RuntimeSnapshot.replica snap) < s) →
  (∀ s v, also (claims_of self) (armed (NetworkConsensusHandler.state (node self))) s v →
     s ≤ ReplicaSnapshot.checkpointed_through (RuntimeSnapshot.replica snap)) →
  accounts_for self snap.
Proof.
  intros (rp & Hp & Hr & _ & Hpe) Hpend Hpast. rewrite Hr in Hpend, Hpast. simpl in Hpend, Hpast.
  exists rp. split_and!; try done.
  - intros s v Hc%Hpast. left. pose proof (ri_checkpoint _ (pi_replica _ Hp)). lia.
  - intros s p Hs. split; [by apply (Hpe s p)|]. intros v Hc%Hpast. specialize (Hpend s p Hs). lia.
Qed.

(** What the node asks of its surroundings: slot numbers stay below the last
    [u64]; a state transfer accounts for the batches this node proposed (the code
    does not check it, and [NodeRuns] shows what happens otherwise); a restart
    finds the store as it was, and no no-op value is configured. *)
Definition allowed self (a : action V St E X) : Prop :=
  match a with
  | Step id _ _ =>
      map_Forall (λ _ p, Forall below_last (to_accept p)) (tasks self)
      ∧ ∀ transfer, tasks self !! id = Some (Arrived (InstallStateTransfer transfer)) →
          accounts_for self (StateTransferSnapshot.runtime transfer)
  | Restart config _ store _ noop =>
      content store = content (NetworkConsensusHandler.state_store (node self))
      ∧ noop = None ∧ config_ok (ReplicaRuntimeConfig.replica config)
  | _ => True
  end.

Definition transition self self' : Prop :=
  ∃ a, step network ord self a = Some self' ∧ allowed self a.

(** Runs start on an empty store. *)
Definition reachable_by (T : system → system → Prop) self : Prop :=
  ∃ config recorders store machine h,
    content store = None ∧ config_ok (ReplicaRuntimeConfig.replica config)
    ∧ NetworkConsensusHandler.new config recorders store machine = Ok h
    ∧ rtc T (mk h ∅ []) self.
Definition reachable : system → Prop := reachable_by transition.

Lemma fly_claims P i slot values f h h' f' :
  node_ok P h → fly network i slot values f h = Some (h', f') →
  Forall below_last (landing (Drive slot values f)) → node_ok P h'.
Proof.
  intros Hok Hf Hl. destruct f as [|ld|ld|ld hi| |ld|ld|d el|d|d|r]; simpl in Hf.
  - destruct (bool_decide _); [by simplify_eq|].
    pose proof (hedge_for_claims P slot (now i) (later i) h Hok) as Hg.
    destruct (NetworkConsensusHandler.hedge_for _ _ _ _) as [h1 r]. by simplify_eq.
  - by simplify_eq.
  - destruct (NetworkConsensusHandler.defers_never _ _); [by simplify_eq|].
    destruct (negb _); by simplify_eq.
  - pose proof (note_progress_claims P slot hi h Hok) as Hg.
    destruct (NetworkConsensusHandler.note_progress _ _ _) as [h1 r]. by simplify_eq.
  - by simplify_eq.
  - by simplify_eq.
  - destruct (NetworkConsensusHandler.run_proposer _ _ _ _ _ _ _ _); by simplify_eq.
  - simplify_eq. by apply node_ok_same.
  - apply (Forall_inv (P:=below_last)) in Hl. pose proof (accept_decision_claims P (now i) d h Hok Hl) as Hg.
    destruct (NetworkConsensusHandler.accept_decision _ _ _) as [h1 r]. by simplify_eq.
  - destruct (NetworkConsensusHandler.disseminate _ _); by simplify_eq.
  - done.
Qed.

(** A request keeps the claims, and the proposals it comes to drive are
    among the old ones or pending. *)
Definition tracked P h (p q : pc V) : Prop :=
  node_ok P h ∧ ∀ f, f ∈ flights_of q →
    (∃ f0, f0 ∈ flights_of p ∧ at_slot f0 = at_slot f ∧ batch f0 = batch f)
    ∨ armed (NetworkConsensusHandler.state h) (at_slot f) (batch f).

Lemma tracked_quiet P h p q : node_ok P h → flights_of q = [] → tracked P h p q.
Proof. intros Hok Hq. split; [done|]. rewrite Hq. by intros f ?%elem_of_nil. Qed.

Lemma settles_quiet {A} (r : Result A) k :
  (∀ a, r = Ok a → flights_of (k a) = []) → flights_of (settles r k) = [].
Proof. intros Hk. destruct r as [a|]; [by apply Hk|done]. Qed.

Lemma join_tracked P reported flights recovered which i h h' q :
  node_ok P h → Forall below_last (flights ≫= landing) →
  join network reported flights recovered which i h = Some (h', q) →
  tracked P h' (Joining reported flights recovered) q.
Proof.
  intros Hok Hl. unfold join. destruct (flights !! which) as [f|] eqn:Hf; last first.
  { destruct (is_empty flights); [|done]. intros [= <- <-]. by apply tracked_quiet. }
  assert (∀ h1 f1, fly network i (at_slot f) (batch f) (stage f) h = Some (h1, f1) →
    tracked P h1 (Joining reported flights recovered)
      (Joining reported (<[which := Drive (at_slot f) (batch f) f1]> flights) recovered)) as Hfly.
  { intros h1 f1 Hfl. split.
    - eapply fly_claims; [done|exact Hfl|]. rewrite Forall_forall in Hl. apply Forall_forall.
      intros d Hd. apply Hl, list_elem_of_bind. exists f.
      split; [by destruct f|]. by eapply list_elem_of_lookup_2.
    - simpl. intros g Hg. left. apply list_elem_of_lookup in Hg as [j Hj].
      apply list_lookup_insert_Some in Hj as [(<- & <- & _)|[_ Hj]].
      + exists f. split; [by eapply list_elem_of_lookup_2|done].
      + exists g. split; [by eapply list_elem_of_lookup_2|done]. }
  destruct (stage f) as [| | | | | | | | | |r];
    try (destruct (fly _ _ _ _ _ _) as [[h1 f1]|]; [|done]; intros [= <- <-]; by apply Hfly).
  destruct r as [o|]; intros [= <- <-]; [|by apply tracked_quiet].
  split; [done|]. simpl. intros g Hg. left. exists g. split; [|done].
  rewrite delete_take_drop in Hg. rewrite <-(take_drop_middle _ _ _ Hf). simpl in Hg.
  apply elem_of_app in Hg as [?|?]; apply elem_of_app; [by left|]. right. by apply elem_of_cons; right.
Qed.

(** A section that leads to no proposal: [Hg] says it keeps the claims. *)
Ltac quiet_section Hg :=
  let h1 := fresh "h" in let r := fresh "r" in
  match type of Hg with
  | node_ok _ (?m.1) => destruct m as [h1 r]
  | ?m.1 = _ => destruct m as [h1 r]
  end;
  simplify_eq/=; apply tracked_quiet, settles_quiet; try done.

Lemma arrived_tracked P i rq h h' q which :
  node_ok P h →
  (∀ transfer, rq = InstallStateTransfer transfer →
     keeps_claims (also P (armed (NetworkConsensusHandler.state h)))
       (StateTransferSnapshot.runtime transfer)) →
  advance network ord which i (Arrived rq) h = Some (h', q) → tracked P h' (Arrived rq) q.
Proof.
  intros Hok Htr Ha. destruct rq as [sub|ds| |sch|slot|tr|c nx]; simpl in Ha.
  - pose proof (submit_enqueue_claims P sub h Hok) as Hg. quiet_section Hg.
  - simplify_eq. by apply tracked_quiet.
  - simplify_eq. by apply tracked_quiet.
  - pose proof (install_epoch_schedule_claims P sch h Hok) as Hg. quiet_section Hg.
  - pose proof (transfer_select_frame slot h) as Hg. quiet_section Hg.
  - pose proof (install_transfer_claims P tr h Hok (Htr tr eq_refl)) as Hg. quiet_section Hg.
  - pose proof (change_begin_claims P c nx h Hok) as Hg. quiet_section Hg. by intros [ds|] _.
Qed.

Lemma driving_tracked P i sub f h h' q which :
  node_ok P h → Forall below_last (landing f) →
  advance network ord which i (Driving sub f) h = Some (h', q) → tracked P h' (Driving sub f) q.
Proof.
  intros Hok Hl. unfold advance.
  assert (∀ h1 f1, fly network i (at_slot f) (batch f) (stage f) h = Some (h1, f1) →
    tracked P h1 (Driving sub f) (Driving sub (Drive (at_slot f) (batch f) f1))) as Hfly.
  { intros h1 f1 Hfl. split; [eapply fly_claims; [done|exact Hfl|by destruct f]|].
    simpl. intros g ->%list_elem_of_singleton. left. exists f.
    by split; [apply list_elem_of_singleton|]. }
  destruct (stage f) as [| | | | | | | | | |r];
    try (destruct (fly _ _ _ _ _ _) as [[h1 f1]|]; [|done]; intros [= <- <-]; by apply Hfly).
  intros [= <- <-]. by apply tracked_quiet, settles_quiet.
Qed.

Lemma advance_tracked P which i p h h' q :
  node_ok P h → Forall below_last (to_accept p) →
  (∀ transfer, p = Arrived (InstallStateTransfer transfer) →
     keeps_claims (also P (armed (NetworkConsensusHandler.state h)))
       (StateTransferSnapshot.runtime transfer)) →
  advance network ord which i p h = Some (h', q) → tracked P h' p q.
Proof.
  intros Hok Hl Htr.
  destruct p as [rq|sub|sub|sub f|ds|rep|rep fl rc|slot ds|slot ids|slot ids ck|c nx ds|c nx|c nx|r].
  - apply arrived_tracked; [done|]. intros tr ->. by apply Htr.
  - simpl. destruct (NetworkConsensusHandler.submit_turn _ _) as [h1 r] eqn:Hs. intros [= <- <-].
    apply (submit_turn_claims P) in Hs as [Hok1 Harm]; [|done]. split; [done|].
    intros f. destruct r as [[d|slot values|]|e]; simpl; rewrite ?elem_of_nil; try done.
    intros ->%list_elem_of_singleton. right. by apply Harm.
  - simpl. intros [= <- <-]. by apply tracked_quiet.
  - apply driving_tracked; [done|]. simpl in Hl. by rewrite app_nil_r in Hl.
  - destruct ds as [|d ds]; simpl; [intros [= <- <-]; by apply tracked_quiet|].
    apply Forall_cons in Hl as [Hd _]. intros Ha.
    pose proof (accept_decision_claims P (now i) d h Hok Hd) as Hg. quiet_section Hg.
  - simpl. destruct (NetworkConsensusHandler.recover_section _ _) as [h1 r] eqn:Hs. intros [= <- <-].
    apply (recover_section_claims P) in Hs as [Hok1 Harm]; [|done]. split; [done|].
    intros f. destruct r as [l|e]; simpl; [|by rewrite elem_of_nil].
    rewrite list_elem_of_fmap. intros ([s v] & -> & Hin). right. by eapply Harm.
  - by apply join_tracked.
  - simpl. destruct (NetworkConsensusHandler.disseminate_all _ _ _); [|done]. intros [= <- <-].
    by apply tracked_quiet, settles_quiet.
  - simpl. intros Ha. pose proof (transfer_export_claims P slot h Hok) as Hg. quiet_section Hg.
  - simpl. intros Ha. pose proof (transfer_prune_claims P slot ids ck h Hok) as Hg. quiet_section Hg.
  - simpl. destruct (NetworkConsensusHandler.disseminate_all _ _ _); [|done]. intros [= <- <-].
    by apply tracked_quiet, settles_quiet.
  - simpl. destruct (NetworkConsensusHandler.install_acks _ _ _); [|done]. intros [= <- <-].
    by apply tracked_quiet, settles_quiet.
  - simpl. intros Ha. pose proof (change_activate_claims P c nx h Hok) as Hg. quiet_section Hg.
  - done.
Qed.

(** ** The invariant of a running node *)

Lemma proposing_flights (p : pc V) s v :
  (s, v) ∈ proposing p → ∃ f, f ∈ flights_of p ∧ at_slot f = s ∧ batch f = v.
Proof.
  assert (∀ f, (s, v) ∈ in_flight f → at_slot f = s ∧ batch f = v) as Hf.
  { intros f. unfold in_flight. destruct (stage f); rewrite ?elem_of_nil; try done.
    by intros [= <- <-]%list_elem_of_singleton. }
  destruct p; simpl; rewrite ?elem_of_nil; try done.
  - intros Hin. eexists. by split; [apply list_elem_of_singleton|apply Hf].
  - intros (f & Hin & ?)%list_elem_of_bind. exists f. by split; [|apply Hf].
Qed.

Lemma step_claims self self' :
  transition self self' → node_ok (claims_of self) (node self) →
  node_ok (claims_of self') (node self').
Proof.
  intros (a & Hs & Hal) Hok. destruct a as [id rq|id which i|id|config rs store machine noop];
    simpl in Hs, Hal.
  - destruct (tasks self !! id); [done|]. simplify_eq. eapply node_ok_mono, Hok. left.
    destruct H0 as [?|(j & p & f & Hp & Hf & ?)]; [by left|right]. simpl in Hp.
    apply lookup_insert_Some in Hp as [[_ <-]|[_ Hp]]; [by apply elem_of_nil in Hf|]. eauto 8.
  - destruct (tasks self !! id) as [p|] eqn:Hp; [|done]. destruct (negb _); [done|].
    destruct (advance _ _ _ _ _ _) as [[h q]|] eqn:Ha; [|done]. simplify_eq. destruct Hal as [Hl Htr].
    assert (tracked (claims_of self) h p q) as [Hok' Hq].
    { eapply advance_tracked; [done| | |done]; [by apply (Hl id)|].
      intros tr ->. by apply Htr. }
    assert (∀ f, f ∈ flights_of q → also (claims_of self)
              (armed (NetworkConsensusHandler.state h)) (at_slot f) (batch f)) as Hnew.
    { intros f [(f0 & Hin & <- & <-)|?]%Hq; [|by right]. left. right. eauto 8. }
    eapply node_ok_mono, Hok'. simpl. intros s v [Hc|(j & p' & f & Hj & Hf & <- & <-)]; simpl in *.
    + apply elem_of_app in Hc as [(f & Hf & <- & <-)%proposing_flights|?]; [by apply Hnew|].
      left. by left.
    + apply lookup_insert_Some in Hj as [[_ <-]|[_ Hj]]; [by apply Hnew|]. left. right. eauto 8.
  - simplify_eq. eapply node_ok_mono, Hok. intros s v [?|(j & p & f & Hp & ?)]; left; [by left|right].
    simpl in Hp. apply lookup_delete_Some in Hp as [_ Hp]. eauto 8.
  - destruct Hal as (Hc & -> & Hcfg). unfold boot in Hs.
    destruct (NetworkConsensusHandler.new _ _ _ _) as [h|] eqn:Hn; [|done]. simplify_eq.
    pose proof (no_mem _ _ Hok) as [_ Hh Ho].
    assert (∀ s v, claims_of (mk h ∅ (proposed self)) s v → claims_of self s v) as Hsub.
    { intros s v [?|(j & p & f & Hp & _)]; [by left|]. simpl in Hp. by rewrite lookup_empty in Hp. }
    eapply new_claims; [done..| | |].
    + eapply store_ok_mono; [|unfold store_ok; rewrite Hc; apply Hok]. intros s v ?. left. by apply Hsub.
    + intros s v v' ??. eapply Ho; left; by apply Hsub.
    + intros s v ?. eapply Hh. left. by apply Hsub.
Qed.

Lemma steps_claims self self' :
  rtc transition self self' → node_ok (claims_of self) (node self) →
  node_ok (claims_of self') (node self').
Proof. induction 1 as [|x y z Hxy _ IH]; [done|]. intros Hx. by eapply IH, step_claims. Qed.

Lemma reachable_claims self : reachable self → node_ok (claims_of self) (node self).
Proof.
  intros (config & rs & store & machine & h & Hc & Hcfg & Hn & Hr). eapply steps_claims; [done|].
  assert (∀ s v, ¬ claims_of (mk h ∅ []) s v) as Hno.
  { intros s v [?%elem_of_nil|(j & p & f & Hp & _)]; [done|]. simpl in Hp. by rewrite lookup_empty in Hp. }
  eapply new_claims; [done..| | |].
  - unfold store_ok. by rewrite Hc.
  - intros s v v' Hv. by apply Hno in Hv.
  - intros s v Hv. by apply Hno in Hv.
Qed.

End running.
