(* ===== verification/NodeExecution.v ===== *)
(** * What a node executes, and how long it waits (src/network/node_runtime.rs)

  A node that is caught up stays caught up with every decision it accepts,
  and runs the newly committed slots in order; its hedging delay is bounded
  by its position in the schedule. *)
From S2P Require Import Prelude Errors Types Membership Proposer Replica Policy Schedule Runtime.
From S2P Require Import Wire AsyncProposer NodeRuntime NodeTasks NodeClaims.

Section execution.
Context {V : Type} `{Countable V} {St E : Type}.
Context `{!RuntimeStateStore V St, !StateMachine V E}.
Import NetworkConsensusHandler.
Abbreviation handler := (NetworkConsensusHandler.t V St E).
Implicit Types (h : handler) (st : ConsensusState.t V) (d : Decision.t V).

(** The machine runs the decisions, one after the other, and none fails. *)
Fixpoint runs (ds : list (Decision.t V)) (e e' : E) : Prop :=
  match ds with
  | [] => e' = e
  | d :: ds => ∃ e1, execute e d = (e1, Ok tt) ∧ runs ds e1 e'
  end.

(** Everything committed has been executed, and nothing else. *)
Definition caught_up st : Prop :=
  (∀ i, i ∈ ConsensusState.executed st → i < ReplicaCore.next_commit (ConsensusState.replica st))
  ∧ ConsensusState.ready st = [].

Lemma elem_of_range_through {A} (m : gmap Z A) n i x :
  (i, x) ∈ range_through m n ↔ m !! i = Some x ∧ i ≤ n.
Proof. unfold range_through. rewrite list_elem_of_filter, elem_of_entries. naive_solver. Qed.

Lemma ready_nil st :
  ConsensusState.ready st = [] ↔
  ∀ i d, ConsensusState.decisions st !! i = Some d →
    i ≤ ReplicaCore.committed_through (ConsensusState.replica st) → i ∈ ConsensusState.executed st.
Proof.
  unfold ConsensusState.ready. split.
  - intros Hf%fmap_nil_inv i d Hi Hle. destruct (decide (i ∈ ConsensusState.executed st)) as [|Hn]; [done|].
    exfalso. apply (elem_of_nil (i, d)). rewrite <-Hf. apply list_elem_of_filter.
    by rewrite elem_of_range_through.
  - intros Hall. rewrite (elem_of_nil_inv (filter _ _)); [done|]. intros [i d].
    rewrite list_elem_of_filter, elem_of_range_through. simpl. naive_solver.
Qed.

Lemma execute_one_Ok d h h' :
  execute_one d h = (h', Ok tt) → Decision.slot d ∉ ConsensusState.executed (state h) →
  ∃ e, execute (state_machine h) d = (e, Ok tt) ∧ state_machine h' = e
    ∧ state h' = ConsensusState.set_executed (state h)
                   ({[Decision.slot d]} ∪ ConsensusState.executed (state h)).
Proof.
  unfold execute_one, bind at 1, reads. intros He Hn.
  rewrite bool_decide_eq_false_2 in He by done. unfold bind, run_machine, zoom, modify in He.
  destruct (execute (state_machine h) d) as [e [[]|]] eqn:Hx; [|done]. exists e. split; [done|].
  unfold save_store in He. destruct (runtime_save _ _). by injection He as <- _.
Qed.

Lemma execute_decisions_Ok ds h h' :
  execute_decisions ds h = (h', Ok tt) → NoDup (Decision.slot <$> ds) →
  (∀ i, i ∈ Decision.slot <$> ds → i ∉ ConsensusState.executed (state h)) →
  runs ds (state_machine h) (state_machine h')
  ∧ state h' = ConsensusState.set_executed (state h)
                 (list_to_set (Decision.slot <$> ds) ∪ ConsensusState.executed (state h)).
Proof.
  revert h. induction ds as [|d ds IH]; intros h Hx Hnd Hno.
  - injection Hx as <-. split; [done|]. simpl. rewrite (left_id_L ∅ (∪)). by destruct (state h).
  - unfold execute_decisions in Hx. simpl in Hx, Hnd, Hno.
    apply NoDup_cons in Hnd as [Hd Hnd]. apply bind_Ok in Hx as (h1 & [] & H1 & Hx).
    apply execute_one_Ok in H1 as (e & He & <- & Hst); [|apply Hno; by left].
    destruct (IH h1 Hx Hnd) as [Hr Hst'].
    + intros i Hi. rewrite Hst. simpl. intros [->%elem_of_singleton|Hin]%elem_of_union; [done|].
      by eapply Hno; [right|].
    + split; [by eexists|]. rewrite Hst', Hst. unfold ConsensusState.set_executed. simpl.
      f_equal. set_solver.
Qed.

(** Arming a no-op moves neither the frontier nor the decisions. *)
Lemma arm_gap_frame now h h' r :
  arm_gap_noop now h = (h', r) →
  ReplicaCore.next_commit (ConsensusState.replica (state h'))
    = ReplicaCore.next_commit (ConsensusState.replica (state h))
  ∧ ConsensusState.decisions (state h') = ConsensusState.decisions (state h)
  ∧ ConsensusState.executed (state h') = ConsensusState.executed (state h)
  ∧ state_machine h' = state_machine h.
Proof.
  unfold arm_gap_noop, bind at 1, reads, on_state, zoom.
  destruct (ConsensusState.arm_gap_noop _ _ _) as [st r'] eqn:Ha. intros [= <- <-]. simpl.
  unfold ConsensusState.arm_gap_noop, bind at 1, reads in Ha.
  destruct (noop_value h); [|by injection Ha as <- _]. destruct (negb _); [by injection Ha as <- _|].
  unfold bind at 1, lift in Ha. destruct (ok_or _ _) as [gap|]; [|by injection Ha as <- _].
  destruct (_ || _); [by injection Ha as <- _|].
  unfold bind, ConsensusState.on_replica, zoom, modify, ret in Ha.
  destruct (ReplicaCore.note_proposed _ _ _) as [rp rr] eqn:Hn.
  assert (ReplicaCore.next_commit rp
          = ReplicaCore.next_commit (ConsensusState.replica (state h))) as Hnc.
  { by apply note_proposed_cases in Hn as [[-> _]|(_ & _ & _ & _ & ->)]. }
  destruct rr; by injection Ha as <- _.
Qed.

Lemma save_or_restore_Ok before h h' :
  save_or_restore before h = (h', Ok tt) → state h' = state h ∧ state_machine h' = state_machine h.
Proof.
  unfold save_or_restore, save_store. destruct (runtime_save _ _) as [s [[]|]]; [|done].
  by intros [= <-].
Qed.

Lemma accept_new_Ok now d h h' :
  ConsensusState.decisions (state h) !! Decision.slot d = None →
  accept_decision now d h = (h', Ok tt) →
  ∃ rp committed h2, ReplicaCore.apply_decision d (ConsensusState.replica (state h)) = (rp, Ok committed)
    ∧ ReplicaCore.next_commit (ConsensusState.replica (state h2)) = ReplicaCore.next_commit rp
    ∧ ConsensusState.decisions (state h2)
      = <[Decision.slot d := d]> (ConsensusState.decisions (state h))
    ∧ ConsensusState.executed (state h2) = ConsensusState.executed (state h)
    ∧ state_machine h2 = state_machine h
    ∧ execute_decisions committed h2 = (h', Ok tt).
Proof.
  unfold accept_decision, bind at 1, reads. intros ->.
  intros (h1 & committed & Ha & Hk)%bind_Ok. unfold on_state, ConsensusState.on_replica, zoom in Ha.
  destruct (ReplicaCore.apply_decision d _) as [rp r] eqn:Happ. injection Ha as <- ->.
  exists rp, committed. apply bind_Ok in Hk as (h2 & [] & [= <-] & Hk).
  apply bind_Ok in Hk as (h3 & b & Harm & Hk).
  destruct (arm_gap_frame _ _ _ _ Harm) as (Hnc & Hdec & Hexe & Hmach). simpl in Hnc, Hdec, Hexe, Hmach.
  apply bind_Ok in Hk as (h4 & [] & Hns & Hk).
  apply note_stats_cases in Hns as [(tn & _ & ->)|[? _]]; [|done].
  apply bind_Ok in Hk as (h5 & [] & Hsv & Hk). apply save_or_restore_Ok in Hsv as [Hst Hm].
  exists h5. rewrite Hst, Hm. by split_and!.
Qed.

(** The slots an accepted decision commits are the next ones. *)
Lemma apply_commits d rp rp' committed :
  pipeline_inv rp → Decision.slot d < U64.MAX →
  ReplicaCore.apply_decision d rp = (rp', Ok committed) →
  Decision.slot <$> committed
    = seqZ (ReplicaCore.next_commit rp) (ReplicaCore.next_commit rp' - ReplicaCore.next_commit rp)
  ∧ ReplicaCore.next_commit rp ≤ ReplicaCore.next_commit rp' ∧ 0 < ReplicaCore.next_commit rp'.
Proof.
  intros Hp Hd Ha. assert (serve (OpApply d) rp = (rp', Delivered committed)) as Hs.
  { simpl. by rewrite Ha. }
  destruct (serve_frontier (OpApply d) rp rp' _ Hp Hd Hs) as [Hle Hsl].
  unfold delivered in Hsl. simpl in Hsl. rewrite app_nil_r in Hsl. split_and!; [done..|].
  pose proof (ri_checkpoint _ (pi_replica _ Hp)). lia.
Qed.

(** C18: a node executes committed slots in order, each once. Suppose every
    committed slot has been executed. When the node accepts a decision for a slot
    at or above the commit frontier, or one it already has, and reports success,
    its machine has run exactly the slots that became
    committed, from the old frontier to the new one, in order and without a
    gap, and again every committed slot has been executed. (A decision the node
    has already changes nothing. One that arrives again after its slot was
    checkpointed is left out: the code executes it a second time,
    [late_decision_executes_twice].) *)
Theorem node_executes_in_order now d h h' :
  pipeline_inv (ConsensusState.replica (state h)) → caught_up (state h) →
  Decision.slot d < U64.MAX →
  ReplicaCore.next_commit (ConsensusState.replica (state h)) ≤ Decision.slot d
    ∨ is_Some (ConsensusState.decisions (state h) !! Decision.slot d) →
  accept_decision now d h = (h', Ok tt) →
  let n := ReplicaCore.next_commit (ConsensusState.replica (state h)) in
  let n' := ReplicaCore.next_commit (ConsensusState.replica (state h')) in
  (∃ ds, Decision.slot <$> ds = seqZ n (n' - n) ∧ runs ds (state_machine h) (state_machine h'))
  ∧ caught_up (state h').
Proof.
  intros Hp [Hex Hrd] Hd Hslot Hacc n n'.
  destruct (ConsensusState.decisions (state h) !! Decision.slot d) as [existing|] eqn:Hdec.
  - unfold accept_decision, bind at 1, reads in Hacc. rewrite Hdec in Hacc.
    destruct (negb _); [done|]. apply bind_Ok in Hacc as (h1 & b & Harm & Hx).
    apply arm_gap_frame in Harm as (Hnc & Hdc & Hexe & Hm).
    assert (caught_up (state h1)) as Hc1.
    { split; [by rewrite Hexe, Hnc|]. rewrite ready_nil in Hrd |- *.
      unfold ReplicaCore.committed_through. by rewrite Hdc, Hexe, Hnc. }
    unfold execute_ready, bind, reads in Hx. rewrite (proj2 Hc1) in Hx. injection Hx as <-.
    split; [|done]. exists []. subst n n'. rewrite Hnc, Z.sub_diag. done.
  - destruct Hslot as [Hslot|[? ?]]; [|done].
    destruct (accept_new_Ok now d h h' Hdec Hacc) as (rp & ds & h2 & Ha & Hnc & Hdc & Hexe & Hm & Hx).
    destruct (apply_commits d _ _ _ Hp Hd Ha) as (Hsl & Hle & Hpos). fold n in Hsl, Hle.
    apply execute_decisions_Ok in Hx as [Hruns Hst].
    + assert (n' = ReplicaCore.next_commit rp) as Hn' by (subst n'; by rewrite Hst, <-Hnc).
      rewrite Hm in Hruns. split; [exists ds; by rewrite Hsl, Hn'|]. rewrite Hst, Hsl. split; simpl.
      * rewrite Hnc, Hexe. intros i [Hi%elem_of_list_to_set|Hi]%elem_of_union.
        { apply elem_of_seqZ in Hi. lia. }
        { apply Hex in Hi. lia. }
      * rewrite ready_nil in Hrd |- *. simpl. unfold ReplicaCore.committed_through. rewrite Hnc, Hdc, Hexe.
        intros i x Hi Hile. unfold U64.saturating_sub in Hile.
        destruct (decide (n ≤ i)).
        { apply elem_of_union_l, elem_of_list_to_set, elem_of_seqZ. lia. }
        { apply elem_of_union_r. apply lookup_insert_Some in Hi as [[<- _]|[_ Hi]]; [lia|].
          eapply Hrd; [done|]. unfold ReplicaCore.committed_through, U64.saturating_sub. lia. }
    + rewrite Hsl. apply NoDup_seqZ.
    + rewrite Hsl, Hexe. intros i Hi%elem_of_seqZ Hin%Hex. lia.
Qed.

(** ** Hedging *)

Lemma position_bounds replica l p : position replica l = Some p → 0 ≤ p < len l.
Proof.
  revert p. induction l as [|k l IH]; intros p; simpl; [done|]. rewrite len_cons.
  pose proof (len_nonneg l). destruct (k =? replica); [intros [= <-]; lia|].
  destruct (position replica l) as [q|]; [|done]. intros [= <-].
  specialize (IH q eq_refl). lia.
Qed.

Lemma position_leader replica l p : position replica l = Some p → nth 0 l 0 = replica → p = 0.
Proof. destruct l as [|k l]; simpl; [done|]. intros Hp ->. rewrite Z.eqb_refl in Hp. by injection Hp. Qed.

(** The schedule [hedge_for] follows is the one the tuner holds afterwards. *)
Lemma ensure_schedule_installed epoch tn tn' schedule :
  EpochTuner.ensure_schedule epoch tn = (tn', Ok schedule) →
  EpochTuner.schedules tn' !! epoch = Some schedule.
Proof.
  unfold EpochTuner.ensure_schedule, bind at 1, reads.
  destruct (EpochTuner.schedules tn !! epoch) eqn:Hs; [by intros [= <- <-]|].
  destruct (negb _); [done|]. unfold bind, lift, modify, ret.
  destruct (EpochTuner.derive _ _); [|done]. intros [= <- <-]. simpl. apply lookup_insert_eq.
Qed.

(** Hedging delays are bounded. What [hedge_for] tells a proposal of a slot
    to wait is at most the current delay times the number of replicas ranked
    before this one, at most a [Duration]; it is zero for the leader of the
    slot's epoch schedule, and for every replica once that time has passed
    since the slot was armed. *)
Theorem hedge_delay_bounded slot now later h h' leader delay :
  0 ≤ current_hedge_delay h →
  hedge_for slot now later h = (h', Ok (leader, delay)) →
  ∃ schedule, EpochTuner.schedules (ConsensusState.tuner (state h'))
                !! ReplicaRuntimeConfig.epoch_for (config h) slot = Some schedule
    ∧ leader = EpochSchedule.leader schedule
    ∧ 0 ≤ delay ≤ current_hedge_delay h * (len (EpochSchedule.proposers schedule) - 1)
    ∧ delay ≤ Duration.MAX
    ∧ (ReplicaRuntimeConfig.replica_id (config h) = leader → delay = 0)
    ∧ ∀ armed, ConsensusState.armed_at (state h) !! slot = Some armed →
        current_hedge_delay h * (len (EpochSchedule.proposers schedule) - 1) ≤ later - armed →
        delay = 0.
Proof.
  intros Hc (h0 & self & [= <- <-] & Hk)%bind_Ok.
  apply bind_Ok in Hk as (h1 & schedule & Hs & Hk). unfold on_state, ConsensusState.on_tuner, zoom in Hs.
  destruct (EpochTuner.ensure_schedule _ _) as [tn r] eqn:Hen. injection Hs as <- ->.
  apply ensure_schedule_installed in Hen. unfold bind at 1, lift in Hk.
  destruct (position _ _) as [p|] eqn:Hp; [|done]. simpl in Hk.
  destruct (_ <=? p); [done|]. unfold bind at 1, Duration.checked_mul in Hk.
  destruct (Z.leb_spec (current_hedge_delay h * p) Duration.MAX) as [Hmax|]; [|done]. simpl in Hk.
  injection Hk as <- <- <-. pose proof (position_bounds _ _ _ Hp) as Hb.
  exists schedule. split_and!; [done..|lia|nia|lia| |].
  - intros Hl. rewrite (position_leader _ _ _ Hp (eq_sym Hl)). lia.
  - intros armed -> Hle. simpl. nia.
Qed.
End execution.
