(* ===== verification/NodeDurable.v ===== *)
(** * Decisions a node has answered with (src/network/node_runtime.rs)

  A node answers a submission with the decision that carries it. The decision
  is in the store by then, and every later state of the node, restarts
  included, has it or has checkpointed past it. *)
From S2P Require Import Prelude Errors Types Membership Proposer Replica Policy Schedule Runtime.
From S2P Require Import RuntimeSteps RuntimeInvariant Delivery.
From S2P Require Import Wire AsyncProposer NodeRuntime NodeTasks NodeClaims.

Section durable.
Context {V : Type} `{Countable V} {St E : Type}.
Context `{!RuntimeStateStore V St, !StateMachine V E}.
Context {content : St → option (RuntimeSnapshot.t V)} `{!RuntimeStateStoreLaws V St content}.
Import NetworkConsensusHandler.
Abbreviation handler := (NetworkConsensusHandler.t V St E).
Abbreviation facts := (SlotIndex → Decision.t V → Prop).
Implicit Types (P : facts) (h : handler) (st : ConsensusState.t V) (d : Decision.t V).

(** The state accounts for a decision, and so does the store. *)
Definition known st (i : SlotIndex) d : Prop :=
  ConsensusState.decisions st !! i = Some d
  ∨ i ≤ ReplicaCore.checkpointed_through (ConsensusState.replica st).
Definition stored (s : St) (i : SlotIndex) d : Prop :=
  ∃ snap, content s = Some snap ∧ kept snap i d.

Definition decided st : facts := λ i d, ConsensusState.decisions st !! i = Some d.
Definition grows st st' : Prop := ∀ i d, known st i d → known st' i d.
Definition filed st : Prop := ∀ i d, decided st i d → Decision.slot d = i.

(** [P] are decisions that have been given out; the state's own come on top. *)
Record durable P h : Prop := {
  du_noop : noop_value h = None;
  du_filed : filed (state h);
  du_facts : ∀ i d, P i d ∨ decided (state h) i d →
    known (state h) i d ∧ stored (state_store h) i d;
}.

Lemma durable_mono P Q h : (∀ i d, P i d → Q i d ∨ decided (state h) i d) → durable Q h → durable P h.
Proof. intros HPQ [Hn Hf Hk]. split; [done..|]. naive_solver. Qed.

(** State that is neither the replica nor the decisions. *)
Lemma durable_same P h h' :
  ConsensusState.replica (state h') = ConsensusState.replica (state h) →
  ConsensusState.decisions (state h') = ConsensusState.decisions (state h) →
  state_store h' = state_store h → noop_value h' = noop_value h → durable P h → durable P h'.
Proof.
  intros Hr Hd Hs Hn [Hn0 Hf Hk]. unfold known, decided, filed in *.
  split; unfold known, filed, decided; rewrite ?Hr, ?Hd, ?Hs; [congruence|done..].
Qed.

(** A snapshot accounts for what the state accounts for. *)
Lemma snapshot_kept h i d : kept (snapshot h) i d ↔ known (state h) i d.
Proof. done. Qed.

Lemma save_store_stored h h' r i d :
  save_store h = (h', r) → known (state h) i d →
  (is_ok r = true ∨ stored (state_store h) i d) → stored (state_store h') i d.
Proof.
  unfold save_store. destruct (runtime_save _ _) as [s [[]|e]] eqn:Hs; intros [= <- <-] Hk.
  - apply runtime_save_Ok in Hs. intros _. by exists (snapshot h).
  - intros [?|(snap & Hc & Hsnap)]; [done|].
    apply runtime_save_Err in Hs as [Hs|Hs]; [exists snap|exists (snapshot h)]; simpl; by rewrite Hs.
Qed.

Lemma save_store_frame h : ∃ s, (save_store h).1 = set_state_store h s.
Proof. unfold save_store. destruct (runtime_save _ _) as [s ?]. by exists s. Qed.

Lemma save_store_durable P h : durable P h → durable P (save_store h).1.
Proof.
  intros [Hn Hf Hk]. destruct (save_store_frame h) as [s Hs].
  destruct (save_store h) as [h' r] eqn:Hc. simpl in *. subst h'. split; simpl; [done..|].
  intros i d Hd. destruct (Hk i d Hd). split; [done|]. 
  by apply (save_store_stored h _ r i d Hc); [|right].
Qed.

Lemma save_or_restore_durable P before h h' r :
  save_or_restore before h = (h', r) → noop_value h = None → filed before → filed (state h) →
  (∀ i d, P i d ∨ decided before i d → known before i d ∧ stored (state_store h) i d) →
  grows before (state h) → durable P h'.
Proof.
  intros Hs Hn Hfb Hf Hk Hg. unfold save_or_restore in Hs. destruct (save_store_frame h) as [s Heq].
  destruct (save_store h) as [h1 r1] eqn:Hc. simpl in Heq. subst h1.
  destruct r1 as [[]|e]; injection Hs as <- _; split; simpl; try done; intros i d Hd.
  - assert (known (state h) i d) as Hkn.
    { destruct Hd as [Hd|Hd]; [|by left]. apply Hg, Hk. by left. }
    split; [done|]. by apply (save_store_stored h _ _ i d Hc); [|left].
  - destruct (Hk i d Hd) as [Hb Hst]. split; [done|].
    by apply (save_store_stored h _ _ i d Hc); [apply Hg|right].
Qed.

(** The replica moves and keeps its checkpoint. *)
Lemma grows_replica st st' :
  ReplicaCore.checkpointed_through (ConsensusState.replica st')
    = ReplicaCore.checkpointed_through (ConsensusState.replica st) →
  ConsensusState.decisions st' = ConsensusState.decisions st → grows st st'.
Proof. unfold grows, known. by intros -> ->. Qed.

Lemma durable_replica P h rp :
  ReplicaCore.checkpointed_through rp
    = ReplicaCore.checkpointed_through (ConsensusState.replica (state h)) →
  durable P h → durable P (set_state h (ConsensusState.set_replica (state h) rp)).
Proof.
  intros Hc [Hn Hf Hk]. split; simpl; [done..|]. intros i d Hd. destruct (Hk i d Hd) as [Hkn ?].
  split; [|done]. eapply grows_replica, Hkn; done.
Qed.

(** ** The sections *)

Lemma run_machine_durable {A} P (f : E → E * Result A) h :
  durable P h → durable P (run_machine f h).1.
Proof. unfold run_machine, zoom. destruct (f _) as [e r]. by apply durable_same. Qed.

Lemma execute_decisions_durable P ds : preserves (durable P) (execute_decisions ds).
Proof.
  apply preserves_for_each. intros d. unfold execute_one. apply preserves_bind; [by intros h|].
  intros []; [by intros h|].
  apply preserves_bind; [by intros h; apply run_machine_durable|intros _].
  apply preserves_bind; [by intros h; apply durable_same|intros _ h; apply save_store_durable].
Qed.

Lemma execute_ready_durable P : preserves (durable P) execute_ready.
Proof. apply preserves_bind; [by intros h|]. intros ds. apply execute_decisions_durable. Qed.

Lemma record_filed d st : filed st → filed (ConsensusState.record_decision d st).
Proof.
  intros Hf i d'. unfold decided. simpl. rewrite lookup_insert_Some.
  intros [[<- <-]|[_ ?]]; [done|by apply Hf].
Qed.

Lemma accept_decision_durable P now d h : durable P h → durable P (accept_decision now d h).1.
Proof.
  intros Hd. destruct (Hd) as [Hn Hf Hk]. unfold accept_decision, bind at 1, reads.
  destruct (ConsensusState.decisions (state h) !! Decision.slot d) as [existing|] eqn:Hnone.
  - destruct (negb _); [done|]. unfold bind. rewrite arm_gap_none by done.
    by apply execute_ready_durable.
  - unfold bind at 1, on_state, ConsensusState.on_replica, zoom.
    pose proof (apply_decision_frame d (ConsensusState.replica (state h))) as (_ & Hck & _).
    destruct (ReplicaCore.apply_decision d _) as [rp [committed|e]]; simpl in Hck;
      [|by apply durable_replica].
    unfold bind at 1, modify. unfold bind at 1. rewrite arm_gap_none by done.
    set (h2 := set_state _ _). unfold bind at 1.
    destruct (note_stats (state h) h2) as [h3 r3] eqn:Hns.
    apply note_stats_cases in Hns as [(tn & -> & ->)|[Hr ->]].
    + unfold bind. destruct (save_or_restore (state h) _) as [h4 r4] eqn:Hsv.
      eapply (save_or_restore_durable P) in Hsv; try done.
      * destruct r4; [by apply execute_decisions_durable|done].
      * by apply (record_filed d (ConsensusState.set_replica (state h) rp)).
      * intros i d' [Hi|Hi]; [left|right]; simpl; [|by rewrite Hck].
        rewrite lookup_insert_ne; [done|]. intros <-. by rewrite Hnone in Hi.
    + destruct r3; [done|]. by apply (durable_same P h).
Qed.

Lemma recover_section_durable P now : preserves (durable P) (recover_section now).
Proof.
  intros h Hd. unfold recover_section, bind at 1, reads at 1. unfold bind at 1.
  rewrite arm_gap_none by apply Hd. unfold bind at 1, ret. unfold bind.
  pose proof (execute_ready_durable P h Hd) as Hr. by destruct (execute_ready h) as [h1 [[]|e]].
Qed.

Lemma submit_enqueue_durable P submission h : durable P h → durable P (submit_enqueue submission h).1.
Proof.
  intros Hd. destruct (Hd) as [Hn Hf Hk].
  unfold submit_enqueue, bind at 1, readr. destruct (submit_check _ _); [|done].
  unfold bind at 1, reads. unfold bind, on_state, ConsensusState.on_replica, zoom.
  pose proof (enqueue_same (Submission.value_ids submission) (ConsensusState.replica (state h)))
    as ((_ & Hck & _) & _).
  destruct (ReplicaCore.enqueue _ _) as [rp [[]|e]]; simpl in Hck; [|by apply durable_replica].
  destruct (save_or_restore _ _) as [h2 r2] eqn:Hs.
  eapply (save_or_restore_durable P) in Hs; try done. by apply grows_replica.
Qed.

Lemma submit_turn_durable P submission h h' r :
  durable P h → submit_turn submission h = (h', r) →
  durable P h'
  ∧ ∀ d, r = Ok (Answered d) →
      decided (state h') (Decision.slot d) d
      ∧ ∀ v, v ∈ Submission.value_ids submission → v ∈ Decision.value_ids d.
Proof.
  intros Hd. destruct (Hd) as [Hn Hf Hk]. unfold submit_turn, bind at 1, reads.
  destruct (ConsensusState.decision_for _ _) as [d|] eqn:Hdf.
  { intros [= <- <-]. split; [done|]. intros ? [= <-].
    unfold ConsensusState.decision_for in Hdf. apply head_Some_elem_of in Hdf.
    apply list_elem_of_filter in Hdf as [Hc (i & Hi)%elem_of_values].
    split; [by rewrite (Hf i d Hi)|]. intros v Hv. unfold ConsensusState.carries in Hc.
    rewrite forallb_forall in Hc. apply list_elem_of_In, Hc, bool_decide_eq_true in Hv. done. }
  destruct (ConsensusState.pending_for _ _) as [[slot values]|]; [by intros [= <- <-]|].
  unfold bind at 1, on_state, ConsensusState.on_replica, zoom.
  destruct (ReplicaCore.next_proposal _) as [rp [[[slot values]|]|e]] eqn:Hnp;
    apply next_proposal_checkpoint in Hnp.
  - unfold bind at 1, modify. unfold bind, ret. simpl.
    destruct (save_or_restore _ _) as [h2 r2] eqn:Hs.
    eapply (save_or_restore_durable P) in Hs; try done; [|by apply grows_replica].
    by destruct r2; intros [= <- <-].
  - intros [= <- <-]. split; [|done]. by apply durable_replica.
  - intros [= <- <-]. split; [|done]. by apply durable_replica.
Qed.

Lemma hedge_for_durable P slot now later h : durable P h → durable P (hedge_for slot now later h).1.
Proof.
  intros Hd. unfold hedge_for, bind at 1, reads. unfold bind at 1, on_state, ConsensusState.on_tuner, zoom.
  destruct (EpochTuner.ensure_schedule _ _) as [tn r]. set (h1 := set_state h _).
  assert (durable P h1) by (by apply (durable_same P h)).
  destruct r as [schedule|]; [|done]. unfold bind at 1, lift. destruct (ok_or _ _); [|done].
  destruct (_ <=? _); [done|]. unfold bind at 1. destruct (ok_or _ _); [|done].
  unfold bind, modify, ret. simpl. by apply (durable_same P h1).
Qed.

Lemma note_progress_durable P slot highest h : durable P h → durable P (note_progress slot highest h).1.
Proof.
  intros Hd. unfold note_progress, bind, reads, ret, modify.
  destruct (bool_decide _); [done|]. destruct (match _ with Some _ => _ | None => _ end); [|done].
  by apply (durable_same P h).
Qed.

Lemma install_epoch_schedule_durable P schedule h :
  durable P h → durable P (install_epoch_schedule schedule h).1.
Proof.
  intros Hd. destruct (Hd) as [Hn Hf Hk].
  unfold install_epoch_schedule, bind at 1, reads. destruct (negb _); [done|].
  unfold bind, on_state, ConsensusState.on_tuner, zoom.
  destruct (EpochTuner.install _ _) as [tn [[]|]]; try by apply (durable_same P h).
  destruct (save_or_restore _ _) as [h2 r2] eqn:Hs.
  eapply (save_or_restore_durable P) in Hs; try done. by apply grows_replica.
Qed.

(** A checkpoint drops what it covers. *)
Lemma forget_grows slot st :
  slot ≤ ReplicaCore.committed_through (ConsensusState.replica st) →
  grows st (ConsensusState.forget_through slot st).
Proof.
  intros Hle i d [Hi|Hi]; unfold known; simpl.
  - rewrite lookup_retain. destruct (Z.ltb_spec slot i); [by left|right]. lia.
  - right. lia.
Qed.

Lemma forget_filed slot st : filed st → filed (ConsensusState.forget_through slot st).
Proof.
  intros Hf i d. unfold decided. simpl. rewrite lookup_retain.
  destruct (slot <? i); [apply Hf|done].
Qed.

Lemma transfer_prune_durable P slot ids checkpoint h :
  durable P h → durable P (transfer_prune slot ids checkpoint h).1.
Proof.
  intros Hd. destruct (Hd) as [Hn Hf Hk]. unfold transfer_prune, bind at 1, reads.
  destruct (ConsensusState.may_checkpoint (state h) slot) eqn:Hmay; simpl; [|done].
  apply andb_true_iff in Hmay as [Hle%Z.leb_le _]. unfold bind, modify, ret.
  destruct (save_or_restore _ _) as [h2 r2] eqn:Hs. enough (durable P h2) by (by destruct r2).
  eapply (save_or_restore_durable P) in Hs; try done; [by apply forget_filed|by apply forget_grows].
Qed.

Lemma change_begin_durable P change next h : durable P h → durable P (change_begin change next h).1.
Proof.
  intros Hd. unfold change_begin, bind at 1, lift.
  destruct (MembershipChange.validate_binding change); [|done]. unfold bind at 1, reads.
  destruct (bool_decide _).
  - unfold bind, modify, ret. destruct (validate_async_recorders _ _); [|done].
    by apply (durable_same P h).
  - destruct (negb _); [done|]. unfold bind. destruct (validate_async_recorders _ _); [|done].
    by destruct (_ || _).
Qed.

Lemma change_activate_durable P change next h :
  durable P h → durable P (change_activate change next h).1.
Proof.
  intros Hd. unfold change_activate. set (h1 := set_recorders _ _).
  assert (durable P h1) as H1 by (by apply (durable_same P h)).
  apply save_store_durable in H1. destruct (save_store_frame h1) as [s Hs].
  destruct (save_store h1) as [h2 [[]|e]]; simpl in *; subst h2; [done|].
  by eapply durable_same, H1.
Qed.

(** ** Starting *)

Lemma restored_decisions config snap st :
  ConsensusState.restored config snap = Ok st →
  ConsensusState.decisions st = RuntimeSnapshot.decisions snap
  ∧ ReplicaCore.checkpointed_through (ConsensusState.replica st)
    = ReplicaSnapshot.checkpointed_through (RuntimeSnapshot.replica snap).
Proof.
  unfold ConsensusState.restored.
  destruct (ReplicaCore.restore _ _) as [rp|] eqn:Hr; [|done].
  destruct (EpochTuner.restore _ _ _ _ _ _); [|done]. intros [= <-]. split; [done|]. simpl.
  unfold ReplicaCore.restore in Hr. split_guards.
Qed.

Lemma validated_filed config st : ConsensusState.validate_state config st = Ok tt → filed st.
Proof.
  unfold ConsensusState.validate_state. destruct (negb _); [done|].
  destruct (try_each _ (entries (ConsensusState.decisions st))) as [[]|] eqn:Ht; [|done].
  rewrite try_each_Ok, Forall_entries in Ht. intros _ i d Hi. specialize (Ht i d Hi). simpl in Ht.
  destruct (Z.eqb_spec i (Decision.slot d)); [done|]. done.
Qed.

Lemma new_durable P config recorders store machine h :
  new config recorders store machine = Ok h → (∀ i d, P i d → stored store i d) → durable P h.
Proof.
  unfold new. destruct (negb _); [done|].
  destruct (runtime_load store) as [store' [loaded|]] eqn:Hl; [|done].
  apply runtime_load_content in Hl as [-> Hc']. intros Hnew HP.
  destruct (content store) as [snap|] eqn:Hc0.
  - destruct (_ || _); [done|]. destruct (ConsensusState.restored config snap) as [st|] eqn:Hr; [|done].
    destruct (ConsensusState.validate_state config st) as [[]|] eqn:Hv; [|done].
    injection Hnew as <-. apply restored_decisions in Hr as [Hdec Hck].
    assert (∀ i d, P i d ∨ decided st i d → kept snap i d) as Hkept.
    { intros i d [HPi|Hi]; [|left; by rewrite <-Hdec].
      destruct (HP i d HPi) as (snap' & Hs & ?). by rewrite Hc0 in Hs; simplify_eq. }
    split; simpl; [done|by eapply validated_filed|]. intros i d Hi%Hkept. split.
    + unfold known. by rewrite Hdec, Hck.
    + exists snap. by rewrite Hc'.
  - destruct (ConsensusState.validate_state _ _); [|done]. injection Hnew as <-.
    split; simpl; [done|by intros i d|]. intros i d [HPi|Hi]; [|done].
    destruct (HP i d HPi) as (snap' & Hs & ?). by rewrite Hc0 in Hs.
Qed.

Lemma install_transfer_durable P transfer h :
  durable P h → catches_up (StateTransferSnapshot.runtime transfer) (state h) →
  durable P (install_state_transfer transfer h).1.
Proof.
  intros Hd [Hck Hcu]. unfold install_state_transfer, bind at 1, reads.
  destruct (_ || _); [done|]. unfold bind at 1, lift.
  destruct (ConsensusState.restored _ _) as [st|] eqn:Hr; [|done]. unfold bind at 1.
  destruct (ConsensusState.validate_state _ st) as [[]|] eqn:Hv; [|done].
  apply restored_decisions in Hr as [Hdec Hckr]. unfold bind at 1. set (m := run_machine _).
  assert (durable P (m h).1) as [Hn Hf Hk] by (by apply run_machine_durable).
  assert (state (m h).1 = state h) as Hsame.
  { unfold m, run_machine, zoom. by destruct (import_checkpoint _ _ _). }
  assert (∀ i d, P i d ∨ decided (state h) i d → kept (StateTransferSnapshot.runtime transfer) i d)
    as Hkept.
  { intros i d Hi. rewrite Hsame in Hk. destruct (Hk i d Hi) as [[?|?] _]; [by apply Hcu|].
    right. lia. }
  destruct (m h) as [h1 [[]|]]; [|done]. simpl in *.
  unfold bind, zoom, modify. destruct (runtime_save _ _) as [s [[]|]] eqn:Hs; simpl.
  - apply runtime_save_Ok in Hs. split; simpl; [done|by eapply validated_filed|].
    intros i d Hi. assert (kept (StateTransferSnapshot.runtime transfer) i d) as Hki.
    { destruct Hi as [?|Hi]; [apply Hkept; by left|left; by rewrite <-Hdec]. }
    split; [unfold known; by rewrite Hdec, Hckr|]. by eexists.
  - split; simpl; [done..|]. intros i d Hi. destruct (Hk i d Hi) as [Hkn (snap & Hc & Hsn)].
    split; [done|]. apply runtime_save_Err in Hs as [Hs|Hs]; [exists snap; by rewrite Hs|].
    eexists. split; [done|]. apply Hkept. by rewrite <-Hsame.
Qed.
End durable.

(** ** The running node *)

Section running.
Context {V : Type} `{Countable V} {St E X : Type}.
Context `{!RuntimeStateStore V St, !StateMachine V E}.
Context {content : St → option (RuntimeSnapshot.t V)} `{!RuntimeStateStoreLaws V St content}.
Context (network : X → list (ReplicaId * RecordRequest.t V) →
                   X * list (ReplicaId * Result (RecordReply.t V))).
Context (ord : relation V) `{!RelDecision ord}.
Import Node.
Abbreviation handler := (NetworkConsensusHandler.t V St E).
Abbreviation system := (Node.t V St E).
Abbreviation durable := (durable (content:=content)).
Abbreviation committed_answer d := (Answering (Ok (Outcome (SubmissionOutcome.Committed d)))).
Implicit Types (h : handler) (self : system).

(** State transfers do not take the node back. *)
Definition stays_ahead self (a : action V St E X) : Prop :=
  match a with
  | Step id _ _ =>
      ∀ transfer, tasks self !! id = Some (Arrived (InstallStateTransfer transfer)) →
        catches_up (StateTransferSnapshot.runtime transfer) (NetworkConsensusHandler.state (node self))
  | _ => True
  end.

Definition forward self self' : Prop :=
  ∃ a, step network ord self a = Some self' ∧ allowed (content:=content) self a ∧ stays_ahead self a.

Lemma forward_transition self self' :
  forward self self' → transition (content:=content) network ord self self'.
Proof. intros (a & ? & ? & _). by exists a. Qed.

(** A section: [Hg] says it keeps decisions durable, the goal is about the
    handler it leaves. *)
Ltac durable_section Hg :=
  let h1 := fresh "h" in let r := fresh "r" in
  match type of Hg with
  | durable _ (?m.1) => destruct m as [h1 r]
  | ?m.1 = _ => destruct m as [h1 r]
  end; simplify_eq/=; try done.

Lemma fly_durable P i slot values f h h' f' :
  durable P h → fly network i slot values f h = Some (h', f') → durable P h'.
Proof.
  intros Hd Hf. destruct f as [|ld|ld|ld hi| |ld|ld|d el|d|d|r]; simpl in Hf; try by simplify_eq.
  - destruct (bool_decide _); [by simplify_eq|].
    pose proof (hedge_for_durable P slot (now i) (later i) h Hd) as Hg. durable_section Hg.
  - destruct (NetworkConsensusHandler.defers_never _ _); [by simplify_eq|].
    destruct (negb _); by simplify_eq.
  - pose proof (note_progress_durable P slot hi h Hd) as Hg. durable_section Hg.
  - destruct (NetworkConsensusHandler.run_proposer _ _ _ _ _ _ _ _); by simplify_eq.
  - simplify_eq. by apply (durable_same P h).
  - pose proof (accept_decision_durable P (now i) d h Hd) as Hg. durable_section Hg.
  - destruct (NetworkConsensusHandler.disseminate _ _); by simplify_eq.
Qed.

Lemma join_durable P reported flights recovered which i h h' q :
  durable P h → join network reported flights recovered which i h = Some (h', q) → durable P h'.
Proof.
  intros Hd. unfold join. destruct (flights !! which) as [f|].
  - destruct (stage f) as [| | | | | | | | | |[o|]];
      try (destruct (fly _ _ _ _ _ _) as [[h1 f1]|] eqn:Hf; [|done]; intros [= <- _];
           by eapply fly_durable).
    all: by intros [= <- _].
  - destruct (is_empty flights); [|done]. by intros [= <- _].
Qed.

Lemma advance_durable P which i p h h' q :
  durable P h →
  (∀ transfer, p = Arrived (InstallStateTransfer transfer) →
     catches_up (StateTransferSnapshot.runtime transfer) (NetworkConsensusHandler.state h)) →
  advance network ord which i p h = Some (h', q) → durable P h'.
Proof.
  intros Hd Htr Ha.
  destruct p as [rq|sub|sub|sub f|ds|rep|rep fl rc|slot ds|slot ids|slot ids ck|c nx ds|c nx|c nx|r];
    unfold advance in Ha; try by simplify_eq.
  - destruct rq as [sub|ds| |sch|slot|tr|c nx]; try by simplify_eq.
    + pose proof (submit_enqueue_durable P sub h Hd) as Hg. durable_section Hg.
    + pose proof (install_epoch_schedule_durable P sch h Hd) as Hg. durable_section Hg.
    + pose proof (transfer_select_frame slot h) as Hg. durable_section Hg.
    + pose proof (install_transfer_durable P tr h Hd (Htr tr eq_refl)) as Hg. durable_section Hg.
    + pose proof (change_begin_durable P c nx h Hd) as Hg. durable_section Hg.
  - destruct (NetworkConsensusHandler.submit_turn _ _) as [h1 r] eqn:Hs. simplify_eq.
    by eapply submit_turn_durable in Hs as [? _].
  - destruct (stage f);
      try (destruct (fly network i _ _ _ h) as [[h1 f1]|] eqn:Hf; simplify_eq; by eapply fly_durable).
    by simplify_eq.
  - destruct ds as [|d ds]; [by simplify_eq|].
    pose proof (accept_decision_durable P (now i) d h Hd) as Hg. durable_section Hg.
  - pose proof (recover_section_durable P (now i) h Hd) as Hg. durable_section Hg.
  - by eapply join_durable.
  - destruct (NetworkConsensusHandler.disseminate_all _ _ _); by simplify_eq.
  - pose proof (run_machine_durable P (λ e, export_checkpoint e slot) h Hd) as Hg.
    unfold NetworkConsensusHandler.transfer_export in Ha. durable_section Hg.
  - pose proof (transfer_prune_durable P slot ids ck h Hd) as Hg. durable_section Hg.
  - destruct (NetworkConsensusHandler.disseminate_all _ _ _); by simplify_eq.
  - destruct (NetworkConsensusHandler.install_acks _ _ _); by simplify_eq.
  - pose proof (change_activate_durable P c nx h Hd) as Hg. durable_section Hg.
Qed.

Lemma step_durable P self self' :
  forward self self' → durable P (node self) → durable P (node self').
Proof.
  intros (a & Hs & Hal & Hah) Hd. destruct a as [id rq|id which i|id|config rs store machine noop];
    simpl in Hs, Hal, Hah.
  - destruct (tasks self !! id); by simplify_eq.
  - destruct (tasks self !! id) as [p|] eqn:Hp; [|done]. destruct (negb _); [done|].
    destruct (advance _ _ _ _ _ _) as [[h q]|] eqn:Ha; [|done]. simplify_eq.
    eapply advance_durable; [done| |done]. intros tr ->.
    by apply Hah.
  - by simplify_eq.
  - destruct Hal as (Hc & -> & _). unfold boot in Hs.
    destruct (NetworkConsensusHandler.new _ _ _ _) as [h|] eqn:Hn; [|done]. simplify_eq.
    eapply new_durable; [done|]. intros i d Hi. destruct (du_facts _ _ Hd i d ltac:(by left)) as [_ Hst].
    destruct Hst as (snap & ? & ?). exists snap. by rewrite Hc.
Qed.

Lemma steps_durable P self self' :
  rtc forward self self' → durable P (node self) → durable P (node self').
Proof. induction 1 as [|x y z Hxy _ IH]; [done|]. intros Hx. by eapply IH, step_durable. Qed.

Lemma reachable_durable self : reachable_by (content:=content) forward self → durable (λ _ _, False) (node self).
Proof.
  intros (config & rs & store & machine & h & Hc & Hcfg & Hn & Hr). eapply steps_durable; [done|].
  by eapply new_durable.
Qed.

End running.
