(* ===== verification/NodeRuns.v ===== *)
(** * Nodes on concrete inputs (src/network/node_runtime.rs)

  Whole runs of a node, evaluated: requests that interleave, fail and
  restart. They instantiate the theorems about nodes, and show what the node
  does where the theorems do not reach: a no-op that is proposed before it is
  saved, a state transfer that ends below what the node has proposed or
  answered, a submission whose values end up in two batches, an execution that
  failed, a decision that arrives after its slot was checkpointed. *)
From S2P Require Import Prelude Errors Types Membership Recorder Proposer Replica Policy Schedule Runtime.
From S2P Require Import LocalCluster Wire AsyncProposer NodeRuntime NodeTasks NodeClaims.
From S2P Require Import NodeExecution NodeDurable.
Import Node.
Import (hints) Flaky.

(** ** The setting *)

(** A state machine that remembers what it executed, and fails on demand. *)
Module Book.
Record t : Type := mk { pages : list (Decision.t Z); faults : list bool }.

#[export] Instance machine : StateMachine Z t := {|
  execute := λ e d,
    match faults e with
    | true :: faults => (mk (pages e) faults, Err (QuePaxaError.StorageError "execution failed"))
    | _ => (mk (pages e ++ [d]) (tail (faults e)), Ok tt)
    end;
  export_checkpoint := λ e _, (e, Ok []);
  import_checkpoint := λ e _ _, (e, Ok tt);
|}.
End Book.
Import (hints) Book.

Module NodeRuns.
Abbreviation system := (Node.t Z (Flaky.t Z) Book.t).
Abbreviation node_action := (Node.action Z (Flaky.t Z) Book.t unit).

(** Replica 1 of three, which leads every slot and waits for nobody; two
    values per batch, one batch in flight. *)
Definition node_config : ReplicaRuntimeConfig.t :=
  ReplicaRuntimeConfig.mk 1 0 AsyncRuns.stable (ReplicaConfig.mk 2 1 16 16 64) 8 0
    (Duration.from_secs 30) false None.
Definition network := AsyncRuns.accepting AsyncRuns.stable.

Definition at_once : input unit :=
  Input 0 0 false [] [(1, Ok tt); (2, Ok tt)] [Ok tt; Ok tt; Ok tt] (Ok []) tt 3.

Definition start (faults : list bool) : system :=
  match NetworkConsensusHandler.new node_config [1; 2; 3] (Flaky.mk None []) (Book.mk [] faults) with
  | Ok h => mk h ∅ []
  | Err _ => mk (NetworkConsensusHandler.mk node_config [] (ConsensusState.fresh node_config)
                   (Flaky.mk None []) (Book.mk [] []) None) ∅ []
  end.

Definition run (s : system) (actions : list node_action) : option system :=
  steps network Z.le s actions.

(** [n] steps of a request, the first flight of a recovery moving. *)
Definition go (id n : nat) : list node_action := replicate n (Step id 0 at_once).
(** The process stops and starts again with its store and its machine. *)
Definition restart (s : system) (noop : option Z) : node_action :=
  Restart node_config [1; 2; 3]
    (Flaky.mk (Flaky.held (NetworkConsensusHandler.state_store (node s))) [])
    (NetworkConsensusHandler.state_machine (node s)) noop.

Definition schedule : list node_action :=
  Spawn 0 (InstallEpochSchedule (EpochSchedule.mk 0 [1; 2; 3])) :: go 0 1.
Definition submission (values : list Z) : Submission.t Z := Submission.mk [] 1 values.
Definition book (s : system) : list (Decision.t Z) :=
  Book.pages (NetworkConsensusHandler.state_machine (node s)).

(** ** Runs the theorems are about *)

#[local] Instance below_last_dec (d : Decision.t Z) : Decision (below_last d).
Proof. unfold below_last. apply _. Defined.

(** A step that needs nothing of its surroundings but small slot numbers. *)
Definition plain (s : system) (a : node_action) : bool :=
  match a with
  | Step id _ _ =>
      bool_decide (map_Forall (λ _ p, Forall below_last (to_accept p)) (tasks s))
      && match tasks s !! id with Some (Arrived (InstallStateTransfer _)) => false | _ => true end
  | Restart _ _ _ _ _ => false
  | _ => true
  end.

Fixpoint walk (s : system) (actions : list node_action) : option system :=
  match actions with
  | [] => Some s
  | a :: actions =>
      if plain s a then step network Z.le s a ≫= λ s, walk s actions else None
  end.

Abbreviation moves := (transition (content:=Flaky.held) network Z.le).

Lemma plain_allowed s a : plain s a = true → allowed (content:=Flaky.held) s a.
Proof.
  destruct a as [id rq|id which i|id|]; simpl; try done.
  rewrite andb_true_iff, bool_decide_eq_true. intros [Hl Ht]. split; [done|].
  intros tr Hid. by rewrite Hid in Ht.
Qed.

Lemma plain_ahead s a : plain s a = true → stays_ahead s a.
Proof.
  destruct a as [id rq|id which i|id|]; simpl; try done.
  rewrite andb_true_iff. intros [_ Ht] tr Hid. by rewrite Hid in Ht.
Qed.

Abbreviation advances := (forward (content:=Flaky.held) network Z.le).

Lemma walk_advances s actions s' : walk s actions = Some s' → rtc advances s s'.
Proof.
  revert s. induction actions as [|a actions IH]; intros s; simpl; [by intros [= ->]|].
  destruct (plain s a) eqn:Hp; [|done]. destruct (step network Z.le s a) as [s1|] eqn:Hs; [|done].
  simpl. intros Hw. eapply rtc_l; [|by apply IH]. exists a.
  split_and!; [done|by apply plain_allowed|by apply plain_ahead].
Qed.

Lemma walk_moves s actions s' : walk s actions = Some s' → rtc moves s s'.
Proof.
  intros Hw%walk_advances. induction Hw as [|x y z Hxy _ IH]; [done|].
  eapply rtc_l; [by apply (forward_transition network Z.le)|done].
Qed.

Lemma node_config_ok : config_ok (ReplicaRuntimeConfig.replica node_config).
Proof. done. Qed.

Lemma restart_advances s s' : step network Z.le s (restart s None) = Some s' → advances s s'.
Proof. intros Hs. exists (restart s None). split; [done|]. by split_and!. Qed.
Lemma restart_moves s s' : step network Z.le s (restart s None) = Some s' → moves s s'.
Proof. intros Hs. by apply (forward_transition network Z.le), restart_advances. Qed.

Lemma start_runs T faults s : rtc T (start faults) s → reachable_by (content:=Flaky.held) T s.
Proof.
  intros Hs. exists node_config, [1; 2; 3], (Flaky.mk None []), (Book.mk [] faults), (node (start faults)).
  split_and!; [done|apply node_config_ok|by vm_compute|exact Hs].
Qed.

Lemma start_moves faults s : rtc moves (start faults) s → reachable (content:=Flaky.held) network Z.le s.
Proof. apply start_runs. Qed.

(** Two submissions drive one batch at the same time; the process stops,
    starts again and drives it once more. *)
Definition racing_actions : list node_action :=
  schedule ++ [Spawn 1 (Submit (submission [10])); Spawn 2 (Submit (submission [20]))]
  ++ go 1 1 ++ go 2 1 ++ go 1 4 ++ go 2 4.
Definition racing : system := default (start []) (walk (start []) racing_actions).
Definition restarted : system := default racing (step network Z.le racing (restart racing None)).
Lemma racing_walk : walk (start []) racing_actions = Some racing.
Proof. vm_compute. reflexivity. Qed.
Lemma restarted_step : step network Z.le racing (restart racing None) = Some restarted.
Proof. vm_compute. reflexivity. Qed.

(** Replica 2 learns decisions and exports its state at a slot. *)
Definition donor_config : ReplicaRuntimeConfig.t :=
  ReplicaRuntimeConfig.mk 2 0 AsyncRuns.stable (ReplicaConfig.mk 2 1 16 16 64) 8 0
    (Duration.from_secs 30) false None.
Definition donor : system :=
  match NetworkConsensusHandler.new donor_config [1; 2; 3] (Flaky.mk None []) (Book.mk [] []) with
  | Ok h => mk h ∅ []
  | Err _ => start []
  end.
Definition exporting (ds : list (Decision.t Z)) (slot : SlotIndex) : list node_action :=
  schedule ++ Spawn 1 (ReceiveDecisions ds) :: go 1 (length ds + 3)
  ++ Spawn 2 (CreateStateTransfer slot) :: go 2 3.
(** Its state before the export is saved, and what the export gives. *)
Definition ready (ds : list (Decision.t Z)) (slot : SlotIndex) : system :=
  default donor (walk donor (exporting ds slot)).
Definition transfer (ds : list (Decision.t Z)) (slot : SlotIndex) : StateTransferSnapshot.t Z :=
  match (NetworkConsensusHandler.transfer_prune slot (ds ≫= Decision.value_ids) [] (node (ready ds slot))).2 with
  | Ok tr => tr
  | Err _ => StateTransferSnapshot.mk 0 [] [] (NetworkConsensusHandler.snapshot (node donor))
  end.

(** The restarted node has proposed for slot 1. It is far behind: it installs
    a transfer through slot 2, and its next submission goes to slot 3. *)
Definition decided_2 : list (Decision.t Z) := [Decision.mk 1 [10; 20] 1 4; Decision.mk 2 [30] 2 4].
Definition installing : system :=
  default restarted (walk restarted [Spawn 0 (InstallStateTransfer (transfer decided_2 2))]).
Definition installed : system :=
  default restarted (step network Z.le installing (Step 0 0 at_once)).
Definition caught_up : system :=
  default restarted (walk installed (Spawn 1 (Submit (submission [40])) :: go 1 5)).

Lemma installing_walk :
  walk restarted [Spawn 0 (InstallStateTransfer (transfer decided_2 2))] = Some installing.
Proof. vm_compute. reflexivity. Qed.
Lemma installed_step : step network Z.le installing (Step 0 0 at_once) = Some installed.
Proof. vm_compute. reflexivity. Qed.
Lemma caught_up_walk :
  walk installed (Spawn 1 (Submit (submission [40])) :: go 1 5) = Some caught_up.
Proof. vm_compute. reflexivity. Qed.
Lemma ready_walk : walk donor (exporting decided_2 2) = Some (ready decided_2 2).
Proof. vm_compute. reflexivity. Qed.

Lemma donor_moves s : rtc moves donor s → reachable (content:=Flaky.held) network Z.le s.
Proof.
  intros Hs. exists donor_config, [1; 2; 3], (Flaky.mk None []), (Book.mk [] []), (node donor).
  split_and!; [done|done|by vm_compute|exact Hs].
Qed.

Lemma transfer_2_genuine : genuine (StateTransferSnapshot.runtime (transfer decided_2 2)).
Proof.
  assert (NetworkConsensusHandler.transfer_prune 2 (decided_2 ≫= Decision.value_ids) []
            (node (ready decided_2 2))
          = ((NetworkConsensusHandler.transfer_prune 2 (decided_2 ≫= Decision.value_ids) []
                (node (ready decided_2 2))).1, Ok (transfer decided_2 2))) as Hexp
    by (vm_compute; reflexivity).
  refine (transfer_prune_genuine (content:=Flaky.held) (claims_of (ready decided_2 2)) _ _ _ _ _ _ _ Hexp).
  apply (reachable_claims network Z.le), donor_moves, (walk_moves _ _ _ ready_walk).
Qed.

Lemma install_allowed (s : system) tr which (i : input unit) :
  tasks s = {[0%nat := Arrived (InstallStateTransfer tr)]} →
  accounts_for s (StateTransferSnapshot.runtime tr) →
  allowed (content:=Flaky.held) s (Step 0 which i).
Proof.
  intros Ht Ha. split; rewrite Ht; [by apply map_Forall_singleton|].
  intros tr'. rewrite lookup_singleton_eq. by intros [= <-].
Qed.

Lemma arrived_claims (s : system) rq slot v :
  tasks s = {[0%nat := Arrived rq]} → claims_of s slot v → (slot, v) ∈ proposed s.
Proof.
  intros Ht [?|(id & p & f & Hp & Hf & _)]; [done|].
  rewrite Ht in Hp. apply lookup_singleton_Some in Hp as [_ <-]. by apply elem_of_nil in Hf.
Qed.

(** All it put forward is slot 1, behind the transfer. *)
Lemma installing_allowed : allowed (content:=Flaky.held) installing (Step 0 0 at_once).
Proof.
  assert (tasks installing = {[0%nat := Arrived (InstallStateTransfer (transfer decided_2 2))]}) as Ht
    by (vm_compute; reflexivity).
  apply (install_allowed _ _ _ _ Ht). apply past_accounts_for; [exact transfer_2_genuine|..].
  - assert (RuntimeSnapshot.pending (StateTransferSnapshot.runtime (transfer decided_2 2)) = ∅) as ->
      by (vm_compute; reflexivity).
    intros s p. by rewrite lookup_empty.
  - assert (ReplicaSnapshot.checkpointed_through (RuntimeSnapshot.replica
      (StateTransferSnapshot.runtime (transfer decided_2 2))) = 2) as -> by (vm_compute; reflexivity).
    assert (proposed installing = [(1, [10; 20]); (1, [10; 20])]) as Hpr by (vm_compute; reflexivity).
    assert (ConsensusState.pending (NetworkConsensusHandler.state (node installing))
            = {[1 := [10; 20]]}) as Hpe by (vm_compute; reflexivity).
    intros s v [Hc%(arrived_claims _ _ _ _ Ht)|Ha]; clear Ht.
    + rewrite Hpr, !elem_of_cons, elem_of_nil in Hc. clear - Hc.
      destruct Hc as [[= -> _]|[[= -> _]|[]]]; lia.
    + unfold armed in Ha. rewrite Hpe in Ha. apply lookup_singleton_Some in Ha as [<- _]. done.
Qed.

Lemma caught_up_reachable : reachable (content:=Flaky.held) network Z.le caught_up.
Proof.
  apply (start_moves []). etrans; [exact (walk_moves _ _ _ racing_walk)|].
  eapply rtc_l; [exact (restart_moves _ _ restarted_step)|].
  etrans; [exact (walk_moves _ _ _ installing_walk)|].
  eapply rtc_l; [|exact (walk_moves _ _ _ caught_up_walk)].
  exists (Step 0 0 at_once). split; [exact installed_step|exact installing_allowed].
Qed.

Lemma caught_up_proposed : proposed caught_up = [(3, [40]); (1, [10; 20]); (1, [10; 20])].
Proof. vm_compute. reflexivity. Qed.


(** The first submission of the race goes on: it decides its batch, is
    answered, and the process restarts. *)
Definition decision_1 : Decision.t Z := Decision.mk 1 [10; 20] 1 4.
Definition decided_1 : system := default racing (walk racing (go 1 5)).
Definition answered_1 : system := default racing (step network Z.le decided_1 (Step 1 0 at_once)).
Definition later_1 : system := default racing (step network Z.le answered_1 (restart answered_1 None)).

Lemma decided_1_walk : walk racing (go 1 5) = Some decided_1.
Proof. vm_compute. reflexivity. Qed.
Lemma answered_1_step : step network Z.le decided_1 (Step 1 0 at_once) = Some answered_1.
Proof. vm_compute. reflexivity. Qed.
Lemma later_1_step : step network Z.le answered_1 (restart answered_1 None) = Some later_1.
Proof. vm_compute. reflexivity. Qed.


(** The decision of slot 2 is waiting when that of slot 1 arrives. *)
Definition first : Decision.t Z := Decision.mk 1 [10] 2 4.
Definition second : Decision.t Z := Decision.mk 2 [20] 2 4.
Definition waiting : NetworkConsensusHandler.t Z (Flaky.t Z) Book.t :=
  (NetworkConsensusHandler.accept_decision 0 second (node (start []))).1.

Definition received : system :=
  default (start []) (walk (start []) (Spawn 1 (ReceiveDecisions [second]) :: go 1 2)).
Lemma received_walk :
  walk (start []) (Spawn 1 (ReceiveDecisions [second]) :: go 1 2) = Some received.
Proof. vm_compute. reflexivity. Qed.
Lemma received_waiting : node received = waiting.
Proof. vm_compute. reflexivity. Qed.

Lemma node_executes_in_order_witness :
  ∃ ds, Decision.slot <$> ds = [1; 2]
    ∧ runs ds (Book.mk [] []) (Book.mk [first; second] []).
Proof.
  destruct (node_executes_in_order 0 first waiting
              (NetworkConsensusHandler.accept_decision 0 first waiting).1) as [Hds _].
  - rewrite <-received_waiting.
    refine (mo_replica _ _ (no_mem _ _ (reachable_claims (content:=Flaky.held) network Z.le received
              (start_moves [] _ (walk_moves _ _ _ received_walk))))).
  - split; [|vm_compute; reflexivity]. intros i Hi.
    assert (ConsensusState.executed (NetworkConsensusHandler.state waiting) = ∅) as Hex
      by (vm_compute; reflexivity).
    rewrite Hex in Hi. by apply elem_of_empty in Hi.
  - done.
  - left. vm_compute. discriminate.
  - vm_compute. reflexivity.
  - exact Hds.
Defined.

(** Replica 2, second in the schedule, three nanoseconds after it armed a slot. *)
Definition patient : NetworkConsensusHandler.t Z (Flaky.t Z) Book.t :=
  let config := ReplicaRuntimeConfig.mk 2 0 AsyncRuns.stable (ReplicaConfig.mk 2 1 16 16 64) 8 10
                  (Duration.from_secs 30) false None in
  (NetworkConsensusHandler.install_epoch_schedule (EpochSchedule.mk 0 [1; 2; 3])
     (NetworkConsensusHandler.mk config [1; 2; 3] (ConsensusState.fresh config)
        (Flaky.mk None []) (Book.mk [] []) None)).1.

Lemma hedge_delay_bounded_witness :
  ∃ h', NetworkConsensusHandler.hedge_for 1 0 3 patient = (h', Ok (1, 7)) ∧ 0 ≤ 7 ≤ 10 * 2.
Proof.
  exists (NetworkConsensusHandler.hedge_for 1 0 3 patient).1.
  assert (NetworkConsensusHandler.hedge_for 1 0 3 patient
          = ((NetworkConsensusHandler.hedge_for 1 0 3 patient).1, Ok (1, 7))) as Hh
    by (vm_compute; reflexivity).
  split; [exact Hh|].
  destruct (hedge_delay_bounded 1 0 3 patient _ 1 7 ltac:(vm_compute; discriminate) Hh)
    as (schedule & Hs & _ & Hb & _).
  assert (schedule = EpochSchedule.mk 0 [1; 2; 3]) as -> by (vm_compute in Hs; congruence).
  exact Hb.
Defined.

(** ** A no-op that is proposed before it is saved

  [accept_decision] arms a no-op for an idle gap also when it already knows
  the decision, and does not save then; [recover_inner] saves only when it
  arms one itself. *)

(** The node learns slot 2 and stops; started with a no-op value, it is told
    slot 2 again and proposes the no-op [0] for slot 1. *)
Definition gap : system := default (start []) (run (start []) (schedule ++
  Spawn 1 (ReceiveDecisions [second]) :: go 1 3)).
Definition filling : option system := run gap
  (restart gap (Some 0) :: Spawn 1 (ReceiveDecisions [second]) :: go 1 7).
(** It stops, starts, and claims slot 1 for a submission. *)
Definition refilling : option system :=
  filling ≫= λ s, run s (restart s (Some 0) :: Spawn 1 (Submit (submission [30])) :: go 1 5).

(** A node that fills gaps may propose two batches for one slot. Told a
    decision it already has, it arms a no-op without saving it and proposes
    it; after a restart nothing remembers the claim, and it proposes a
    client's batch for the same slot. So the absence of a no-op value in
    [node_proposes_one_batch_per_slot] is needed. *)
Theorem unsaved_noop_is_proposed :
  ∃ s s', filling = Some s ∧ refilling = Some s'
    ∧ RuntimeSnapshot.pending <$> Flaky.held (NetworkConsensusHandler.state_store (node s)) = Some ∅
    ∧ proposed s = [(1, [0])]
    ∧ proposed s' = [(1, [30]); (1, [0])].
Proof.
  exists (default gap filling), (default gap refilling). split_and!; vm_compute; reflexivity.
Qed.

(** ** A submission in two batches *)

(** Two values per batch: the values of the second submission are decided in
    slots 1 and 2. *)
Definition split_run : option system := run (start []) (schedule
  ++ [Spawn 1 (Submit (submission [10])); Spawn 2 (Submit (submission [20; 30]))]
  ++ go 1 1 ++ go 2 1 ++ go 1 10 ++ go 2 10).

(** A submission may never be answered although all its values are
    committed and executed. [submit_inner] waits for one decision that
    carries every value, and a batch takes values from the queue without
    regard to the submission they came from: the values of the second
    submission are split over two slots. It goes on waiting; looking again
    finds nothing and changes nothing. *)
Theorem split_submission_is_never_answered :
  ∃ s, split_run = Some s
    ∧ Decision.value_ids <$> book s = [[10; 20]; [30]]
    ∧ tasks s !! 2%nat = Some (Waiting (submission [20; 30]))
    ∧ ∀ which i,
        advance network Z.le which i (Waiting (submission [20; 30])) (node s)
        = Some (node s, Looping (submission [20; 30]))
        ∧ advance network Z.le which i (Looping (submission [20; 30])) (node s)
          = Some (node s, Waiting (submission [20; 30])).
Proof.
  exists (default (start []) split_run). split_and!; [vm_compute; reflexivity..|].
  intros which i. split; vm_compute; reflexivity.
Qed.

(** ** Executions out of order, and twice *)

(** The machine fails on slot 1; slot 2 arrives. *)
Definition failed_execution : option system := run (start [true])
  (Spawn 1 (ReceiveDecisions [first]) :: go 1 2 ++ Spawn 2 (ReceiveDecisions [second]) :: go 2 5).

(** After an execution that failed, the next decision is executed before the
    one that is still missing: [accept_decision] executes the decisions it
    has just committed, and only then are older ones looked for. *)
Theorem failed_execution_reorders :
  ∃ s, failed_execution = Some s ∧ book s = [second; first].
Proof. exists (default (start []) failed_execution). split; vm_compute; reflexivity. Qed.

(** The node checkpoints slot 1 and is told its decision again. *)
Definition late_arrival : option system := run (start [])
  (Spawn 1 (ReceiveDecisions [first]) :: go 1 3 ++ Spawn 2 (CreateStateTransfer 1) :: go 2 4
   ++ Spawn 3 (ReceiveDecisions [first]) :: go 3 5).

(** A decision that arrives after its slot was checkpointed is executed a
    second time: unlike the synchronous runtime, [accept_decision] does not
    look at the pruning floor. *)
Theorem late_decision_executes_twice :
  ∃ s, late_arrival = Some s ∧ book s = [first; first]
    ∧ ReplicaCore.checkpointed_through (ConsensusState.replica (NetworkConsensusHandler.state (node s))) = 1.
Proof. exists (default (start []) late_arrival). split_and!; vm_compute; reflexivity. Qed.

(** ** State transfers that do not fit the node

  [install_state_transfer] checks the identities of a transfer and that it is
  consistent in itself; it does not compare it with what the node has. *)

(** Replica 1 proposes [11] for slot 2 and stops; started again, and before it
    serves anything, it installs the transfer of a replica that knows slot 1
    only. Then a client submits [33]. *)
Definition told_first : list node_action :=
  schedule ++ Spawn 1 (ReceiveDecisions [first]) :: go 1 4.
Definition installs (slot : SlotIndex) : list node_action :=
  Spawn 1 (InstallStateTransfer (transfer [first] slot)) :: go 1 1.
Definition proposing_11 : system := default (start []) (run (start [])
  (told_first ++ Spawn 2 (Submit (submission [11])) :: go 2 5)).
Definition forgetting : option system := run proposing_11
  (restart proposing_11 None :: installs 1 ++ Spawn 2 (Submit (submission [33])) :: go 2 5).

(** A state transfer may drop a batch the node has proposed: the node then
    gives the slot to another one. The transfer knows every decision the node
    knows, so [catches_up] is not enough: in [node_proposes_one_batch_per_slot]
    it must account for what was proposed. *)
Theorem transfer_forgets_proposal :
  ∃ s, forgetting = Some s
    ∧ proposed proposing_11 = [(2, [11])]
    ∧ tasks s !! 1%nat = Some (Answering (Ok Done))
    ∧ catches_up (StateTransferSnapshot.runtime (transfer [first] 1))
        (NetworkConsensusHandler.state (node proposing_11))
    ∧ proposed s = [(2, [33]); (2, [11])].
Proof.
  exists (default proposing_11 forgetting). split_and!; [vm_compute; reflexivity..| |vm_compute; reflexivity].
  split; [vm_compute; discriminate|]. intros i d.
  assert (ConsensusState.decisions (NetworkConsensusHandler.state (node proposing_11)) = {[1 := first]}) as ->
    by (vm_compute; reflexivity).
  intros [<- _]%lookup_singleton_Some. right. vm_compute. discriminate.
Qed.

Lemma not_stored store i (d : Decision.t Z) through :
  RuntimeSnapshot.decisions <$> Flaky.held store = Some ∅ →
  (λ snap, ReplicaSnapshot.checkpointed_through (RuntimeSnapshot.replica snap)) <$> Flaky.held store
    = Some through → through < i →
  ¬ stored (content:=Flaky.held) store i d.
Proof.
  intros Hd Hc Hi (snap & Hs & Hk). rewrite Hs in Hd, Hc. simplify_eq/=.
  destruct Hk as [Hk|Hk]; [by rewrite Hd in Hk|lia].
Qed.

(** The submission is decided and answered before the process stops. *)
Definition answered_11 : system := default (start []) (run (start [])
  (told_first ++ Spawn 2 (Submit (submission [11])) :: go 2 11)).
Definition taken_back : option system := run answered_11 (restart answered_11 None :: installs 1).

(** A state transfer behind the node takes it back: a submission that was
    answered is neither in its state nor in its store any more. *)
Theorem stale_transfer_forgets_answer :
  ∃ s, taken_back = Some s
    ∧ tasks answered_11 !! 2%nat
      = Some (Answering (Ok (Outcome (SubmissionOutcome.Committed (Decision.mk 2 [11] 1 4)))))
    ∧ tasks s !! 1%nat = Some (Answering (Ok Done))
    ∧ ¬ known (NetworkConsensusHandler.state (node s)) 2 (Decision.mk 2 [11] 1 4)
    ∧ ¬ stored (content:=Flaky.held) (NetworkConsensusHandler.state_store (node s)) 2
          (Decision.mk 2 [11] 1 4).
Proof.
  exists (default answered_11 taken_back). split_and!; [vm_compute; reflexivity..| |].
  - vm_compute. by intros [?|?].
  - by apply (not_stored _ _ _ 1); vm_compute.
Qed.

(** ** A membership that drops a proposer *)

(** From [1; 2; 3] through the joint epoch to [2; 3; 4], every recorder
    answering: [old] recorders hear the decisions, [new] install the epoch. *)
Definition change_actions (id : nat) (change : MembershipChange.t Z) (next : list ReplicaId)
    (old : nat) : list node_action :=
  let hear n := Step id 0 (Input 0 0 false [] [] (replicate n (Ok tt)) (Ok []) tt 3) in
  [Spawn id (InstallMembership change next); hear old; hear old; hear (length next); hear old].

Definition reconfigured : system := default (start []) (run (start [])
  (Spawn 1 (ReceiveDecisions [rp_first]) :: go 1 5
   ++ change_actions 2 (MembershipChange.mk rp_first rp_joint 99) [1; 2; 3; 4] 3
   ++ Spawn 3 (ReceiveDecisions [rp_second]) :: go 3 5
   ++ change_actions 4 (MembershipChange.mk rp_second rp_final 100) [2; 3; 4] 4)).

(** After a finalized reconfiguration the node cannot start again while it
    retains a decision of a removed proposer. *)
Theorem reconfigured_node_cannot_restart :
  let h := node reconfigured in
  tasks reconfigured !! 4%nat = Some (Answering (Ok Done))
  ∧ ReplicaRuntimeConfig.cluster (NetworkConsensusHandler.config h) = rp_final
  ∧ NetworkConsensusHandler.new (NetworkConsensusHandler.config h) [2; 3; 4]
      (NetworkConsensusHandler.state_store h) (NetworkConsensusHandler.state_machine h)
    = Err (QuePaxaError.InvalidProposal "network runtime snapshot contains an invalid decision").
Proof. split_and!; vm_compute; reflexivity. Qed.
End NodeRuns.
