(* ===== verification/NodeSources.v ===== *)
(** * Where a node's decisions come from (src/network/node_runtime.rs)

  A node stores, executes, answers with and exports only decisions that
  somebody handed to it: a proposer of its own, a peer that delivered them, a
  state transfer. The invariant is relative to a set of decisions; [Cluster]
  takes those the proposers of the cluster decided. *)
From S2P Require Import Prelude Errors Types Membership Proposer Replica Policy Schedule Runtime.
From S2P Require Import RuntimeSteps RuntimeInvariant Delivery.
From S2P Require Import Wire AsyncProposer NodeRuntime NodeTasks NodeClaims NodeDurable.

(** ** Decisions in a log *)

Section logs.
Context {V : Type} `{Countable V}.
Import ReplicaCore.
Implicit Types (D : Decision.t V → Prop) (rp : ReplicaCore.t V).

Definition log_from D (log : gmap Z (LogSlot.t V)) : Prop :=
  ∀ i e d, log !! i = Some e → LogSlot.decision e = Some d → D d.
Definition map_from D (ds : gmap Z (Decision.t V)) : Prop := ∀ i d, ds !! i = Some d → D d.

Lemma note_proposed_from D slot l rp :
  log_from D (log rp) → log_from D (log (note_proposed slot l rp).1).
Proof.
  intros Hl. destruct (note_proposed slot l rp) as [rp' r] eqn:Hn.
  apply note_proposed_cases in Hn as [[-> _]|(_ & _ & _ & _ & ->)]; [done|]. simpl.
  intros i e d. rewrite lookup_insert_Some. intros [[_ <-]|[_ Hi]]; [|by eapply Hl]. simpl.
  destruct (log rp !! slot) as [e0|] eqn:He; [simpl|done]. by eapply Hl.
Qed.

Lemma enqueue_from D l rp : log_from D (log rp) → log_from D (log (enqueue l rp).1).
Proof.
  intros Hl. destruct (enqueue l rp) as [rp' r] eqn:Hn.
  by apply enqueue_cases in Hn as [[-> _]|(_ & _ & _ & ->)].
Qed.

Lemma next_proposal_from D rp : log_from D (log rp) → log_from D (log (next_proposal rp).1).
Proof.
  intros Hl. destruct (next_proposal rp) as [rp' r] eqn:Hn.
  apply next_proposal_cases in Hn as [[-> _]|(slot & n & _ & _ & Hn & _)]; [done|].
  pose proof (note_proposed_from D slot (take n (pending rp)) (set_pending rp (drop n (pending rp))) Hl) as Hg.
  by rewrite Hn in Hg.
Qed.

Lemma prune_from D slot rp : log_from D (log rp) → log_from D (log (prune_through rp slot)).
Proof. intros Hl i e d [Hi _]%map_lookup_filter_Some. by eapply Hl. Qed.

(** The decisions [apply_decision] commits are the log's. *)
Lemma apply_from D d rp rp' r :
  pipeline_inv rp → Decision.slot d < U64.MAX → D d → log_from D (log rp) →
  apply_decision d rp = (rp', r) →
  log_from D (log rp') ∧ ∀ ds, r = Ok ds → ∀ x, x ∈ ds → D x.
Proof.
  intros Hp Hd HD Hl Ha.
  apply apply_pipeline in Ha as [[-> [Hr|[-> _]]]|(fresh & -> & Hc & _)]; try done.
  - split; [done|]. by intros ds ->.
  - split; [done|]. by intros ds [= <-] x ?%elem_of_nil.
  - assert (log_from D (log (with_decision rp d))) as Hl'.
    { intros i e x. simpl. rewrite lookup_insert_Some.
      intros [[_ <-]|[_ Hi]]; [simpl; by intros [= <-]|by eapply Hl]. }
    split.
    + intros i e x Hi He. pose proof (cm_decisions _ _ _ Hc i) as Hs. rewrite Hi in Hs.
      destruct (log (with_decision rp d) !! i) as [e0|] eqn:He0; [|done]. apply (inj Some) in Hs.
      eapply Hl'; [done|]. by rewrite <-Hs.
    + intros ds [= <-] x Hx. destruct (cm_decided _ _ _ Hc x Hx) as (e & Hi & He). by eapply Hl'.
Qed.
End logs.

(** ** Decisions of a node *)

Section node_sources.
Context {V : Type} `{Countable V} {St E : Type}.
Context `{!RuntimeStateStore V St, !StateMachine V E}.
Context {content : St → option (RuntimeSnapshot.t V)} `{!RuntimeStateStoreLaws V St content}.
Import NetworkConsensusHandler.
Abbreviation handler := (NetworkConsensusHandler.t V St (E * list (Decision.t V))).
Abbreviation identity := (ReplicaId * LaneId)%type.
Implicit Types (D : Decision.t V → Prop) (h : handler) (st : ConsensusState.t V) (me : identity).

Definition identity_of (config : ReplicaRuntimeConfig.t) : identity :=
  (ReplicaRuntimeConfig.replica_id config, ReplicaRuntimeConfig.lane_id config).

Definition state_from D st : Prop :=
  log_from D (ReplicaCore.log (ConsensusState.replica st))
  ∧ map_from D (ConsensusState.decisions st).
Definition snapshot_from D (snap : RuntimeSnapshot.t V) : Prop :=
  log_from D (ReplicaSnapshot.log (RuntimeSnapshot.replica snap))
  ∧ map_from D (RuntimeSnapshot.decisions snap).
Definition store_from D (store : St) : Prop :=
  ∀ snap, content store = Some snap → snapshot_from D snap.

(** The node is who it was started as, and its decisions are in [D]: in
    memory, on disk and in the application. *)
Record sourced me D h : Prop := {
  so_identity : identity_of (config h) = me;
  so_state : state_from D (state h);
  so_store : store_from D (state_store h);
  so_history : ∀ d, d ∈ (state_machine h).2 → D d;
}.

Lemma sourced_mono me D D' h : (∀ d, D d → D' d) → sourced me D h → sourced me D' h.
Proof.
  intros HD [Hi [Hl Hd] Hs Hh]. split; [done|split|..].
  - intros i e d ??. by eapply HD, Hl.
  - intros i d ?. by eapply HD, Hd.
  - intros snap Hc. destruct (Hs snap Hc) as [Hl' Hd']. split.
    + intros i e d ??. by eapply HD, Hl'.
    + intros i d ?. by eapply HD, Hd'.
  - intros d ?. by apply HD, Hh.
Qed.

Lemma snapshot_of_state D h : state_from D (state h) → snapshot_from D (snapshot h).
Proof. done. Qed.

(** Parts that hold no decision. *)
Lemma sourced_state me D h st : state_from D st → sourced me D h → sourced me D (set_state h st).
Proof. intros ? [????]. by split. Qed.

Lemma sourced_quiet me D h st :
  ConsensusState.replica st = ConsensusState.replica (state h) →
  ConsensusState.decisions st = ConsensusState.decisions (state h) →
  sourced me D h → sourced me D (set_state h st).
Proof. intros Hr Hd Hs. apply sourced_state; [|done]. unfold state_from. rewrite Hr, Hd. apply Hs. Qed.

Lemma save_store_sourced me D h : sourced me D h → sourced me D (save_store h).1.
Proof.
  intros [Hi Hs Hst Hh]. unfold save_store.
  destruct (runtime_save _ _) as [s [[]|e]] eqn:Hsv; split; simpl; try done; intros snap Hc.
  - apply runtime_save_Ok in Hsv. rewrite Hsv in Hc. by injection Hc as <-.
  - apply runtime_save_Err in Hsv as [Hsv|Hsv]; rewrite Hsv in Hc; [by apply Hst|].
    by injection Hc as <-.
Qed.

Lemma save_or_restore_sourced me D before h :
  state_from D before → sourced me D h → sourced me D (save_or_restore before h).1.
Proof.
  intros Hb Hs. unfold save_or_restore. apply save_store_sourced in Hs.
  destruct (save_store h) as [h1 [[]|e]]; simpl in *; [done|by apply sourced_state].
Qed.

(** ** The sections *)

(** The application is only told of decisions in [D]. *)
Lemma execute_one_sourced me D d : D d → preserves (sourced me D) (execute_one d).
Proof.
  intros HD. unfold execute_one. apply preserves_bind; [by intros h|]. intros []; [by intros h|].
  apply preserves_bind; [|intros _; apply preserves_bind; [|intros _ h; apply save_store_sourced]].
  - intros h [Hi Hs Hst Hh]. unfold run_machine, zoom. simpl.
    destruct (state_machine h) as [e l]. destruct (execute e d) as [e' r]. split; simpl; try done.
    destruct (is_ok r); [|done]. intros x [Hx|Hx]%elem_of_app; [by apply Hh|].
    by apply list_elem_of_singleton in Hx as ->.
  - intros h Hs. unfold modify. simpl. by apply sourced_quiet.
Qed.

Lemma execute_decisions_sourced me D ds :
  (∀ d, d ∈ ds → D d) → preserves (sourced me D) (execute_decisions ds).
Proof.
  intros HD. induction ds as [|d ds IH]; [by intros h|]. unfold execute_decisions. simpl.
  apply preserves_bind; [apply execute_one_sourced, HD; left|]. intros _. apply IH.
  intros x Hx. apply HD. by right.
Qed.

Lemma execute_ready_sourced me D : preserves (sourced me D) execute_ready.
Proof.
  intros h Hs. unfold execute_ready, bind, reads. apply execute_decisions_sourced; [|done].
  intros d Hd. unfold ConsensusState.ready in Hd. apply list_elem_of_fmap in Hd as ([i x] & -> & Hx).
  apply list_elem_of_filter in Hx as [_ Hx]. unfold range_through in Hx.
  apply list_elem_of_filter in Hx as [_ Hx%elem_of_entries]. by eapply (proj2 (so_state _ _ _ Hs)).
Qed.

Lemma record_from D d st :
  D d → state_from D st → state_from D (ConsensusState.record_decision d st).
Proof.
  intros HD [Hl Hd]. split; [done|]. intros i x. simpl. rewrite lookup_insert_Some.
  intros [[_ <-]|[_ Hi]]; [done|by eapply Hd].
Qed.

Lemma accept_decision_sourced me D now d h :
  noop_value h = None → pipeline_inv (ConsensusState.replica (state h)) →
  Decision.slot d < U64.MAX → D d → sourced me D h → sourced me D (accept_decision now d h).1.
Proof.
  intros Hn Hp Hd HD Hs. unfold accept_decision, bind at 1, reads.
  destruct (ConsensusState.decisions (state h) !! Decision.slot d) as [existing|].
  - destruct (negb _); [done|]. unfold bind. rewrite arm_gap_none by done. by apply execute_ready_sourced.
  - unfold bind at 1, on_state, ConsensusState.on_replica, zoom.
    destruct (ReplicaCore.apply_decision d _) as [rp r] eqn:Ha.
    destruct (apply_from D d _ _ _ Hp Hd HD (proj1 (so_state _ _ _ Hs)) Ha) as [Hl Hc].
    assert (sourced me D (set_state h (ConsensusState.set_replica (state h) rp))) as Hs1.
    { apply sourced_state; [|done]. split; [done|apply Hs]. }
    destruct r as [committed|e]; [|done].
    unfold bind at 1, modify. unfold bind at 1. rewrite arm_gap_none by done.
    set (h2 := set_state _ _).
    assert (sourced me D h2) as Hs2 by (by apply sourced_state; [apply record_from, Hs1|]).
    unfold bind at 1. destruct (note_stats (state h) h2) as [h3 r3] eqn:Hns.
    apply note_stats_cases in Hns as [(tn & -> & ->)|[Hr ->]].
    + unfold bind. pose proof (save_or_restore_sourced me D (state h)
        (set_state h2 (ConsensusState.set_tuner (state h2) tn)) (so_state _ _ _ Hs)
        ltac:(by apply sourced_quiet)) as Hsv.
      destruct (save_or_restore (state h) _) as [h4 [[]|e]]; [|done].
      apply execute_decisions_sourced; [by apply Hc|done].
    + destruct r3; [done|]. apply sourced_state; [apply Hs|done].
Qed.

Lemma recover_section_sourced me D now h :
  noop_value h = None → sourced me D h → sourced me D (recover_section now h).1.
Proof.
  intros Hn Hs. unfold recover_section, bind at 1, reads at 1. unfold bind at 1.
  rewrite arm_gap_none by done. unfold bind at 1, ret. unfold bind.
  pose proof (execute_ready_sourced me D h Hs) as Hr. by destruct (execute_ready h) as [h1 [[]|e]].
Qed.

(** An operation of the replica. *)
Lemma on_replica_sourced {A} me D (m : M (ReplicaCore.t V) QuePaxaError.t A) h :
  (∀ rp, log_from D (ReplicaCore.log rp) → log_from D (ReplicaCore.log (m rp).1)) →
  sourced me D h → sourced me D (on_state (ConsensusState.on_replica m) h).1.
Proof.
  intros Hm Hs. unfold on_state, ConsensusState.on_replica, zoom.
  specialize (Hm _ (proj1 (so_state _ _ _ Hs))). destruct (m _) as [rp r].
  apply sourced_state; [|done]. split; [done|apply Hs].
Qed.

Lemma submit_enqueue_sourced me D submission h :
  sourced me D h → sourced me D (submit_enqueue submission h).1.
Proof.
  intros Hs. unfold submit_enqueue, bind at 1, readr. destruct (submit_check _ _); [|done].
  unfold bind at 1, reads. unfold bind.
  pose proof (on_replica_sourced me D (ReplicaCore.enqueue (Submission.value_ids submission)) h
                (enqueue_from D _) Hs) as H1.
  destruct (on_state _ h) as [h1 [[]|e]]; [|done]. apply save_or_restore_sourced; [apply Hs|done].
Qed.

Lemma submit_turn_sourced me D submission h h' r :
  sourced me D h → submit_turn submission h = (h', r) →
  sourced me D h' ∧ ∀ d, r = Ok (Answered d) → D d.
Proof.
  intros Hs. unfold submit_turn, bind at 1, reads.
  destruct (ConsensusState.decision_for _ _) as [d|] eqn:Hdf.
  { intros [= <- <-]. split; [done|]. intros ? [= <-]. apply head_Some_elem_of in Hdf.
    apply list_elem_of_filter in Hdf as [_ (i & Hi)%elem_of_values].
    by eapply (proj2 (so_state _ _ _ Hs)). }
  destruct (ConsensusState.pending_for _ _) as [[slot values]|]; [by intros [= <- <-]|].
  unfold bind at 1.
  pose proof (on_replica_sourced me D ReplicaCore.next_proposal h (next_proposal_from D) Hs) as H1.
  destruct (on_state _ h) as [h1 [[[slot values]|]|e]]; [|by intros [= <- <-]..]. simpl in H1.
  unfold bind at 1, modify. unfold bind, ret.
  set (h2 := set_state h1 _).
  pose proof (save_or_restore_sourced me D (state h) h2 (so_state _ _ _ Hs)
                ltac:(by apply sourced_quiet)) as Hsv.
  destruct (save_or_restore _ _) as [h3 [[]|e]]; by intros [= <- <-].
Qed.

Lemma hedge_for_sourced me D slot now later h :
  sourced me D h → sourced me D (hedge_for slot now later h).1.
Proof.
  intros Hs. unfold hedge_for, bind at 1, reads. unfold bind at 1, on_state, ConsensusState.on_tuner, zoom.
  destruct (EpochTuner.ensure_schedule _ _) as [tn r]. set (h1 := set_state h _).
  assert (sourced me D h1) by (by apply sourced_quiet).
  destruct r as [schedule|]; [|done]. unfold bind at 1, lift. destruct (ok_or _ _); [|done].
  destruct (_ <=? _); [done|]. unfold bind at 1. destruct (ok_or _ _); [|done].
  unfold bind, modify, ret. simpl. by apply (sourced_quiet me D h1).
Qed.

Lemma note_progress_sourced me D slot highest h :
  sourced me D h → sourced me D (note_progress slot highest h).1.
Proof.
  intros Hs. unfold note_progress, bind, reads, ret, modify.
  destruct (bool_decide _); [done|]. destruct (match _ with Some _ => _ | None => _ end); [|done].
  by apply sourced_quiet.
Qed.

Lemma install_epoch_schedule_sourced me D schedule h :
  sourced me D h → sourced me D (install_epoch_schedule schedule h).1.
Proof.
  intros Hs. unfold install_epoch_schedule, bind at 1, reads. destruct (negb _); [done|].
  unfold bind, on_state, ConsensusState.on_tuner, zoom.
  destruct (EpochTuner.install _ _) as [tn [[]|]]; try by apply sourced_quiet.
  apply save_or_restore_sourced; [apply Hs|]. by apply sourced_quiet.
Qed.

Lemma run_machine_sourced {A} me D (f : (E * list (Decision.t V)) → (E * list (Decision.t V)) * Result A) h :
  (∀ e, (f e).1.2 = e.2) → sourced me D h → sourced me D (run_machine f h).1.
Proof.
  intros Hf [Hi Hs Hst Hh]. unfold run_machine, zoom. specialize (Hf (state_machine h)).
  destruct (f _) as [e r]. simpl in Hf. split; simpl; try done. by rewrite Hf.
Qed.

Lemma export_history (e : E * list (Decision.t V)) slot : (export_checkpoint e slot).1.2 = e.2.
Proof. destruct e as [e l]. simpl. by destruct (export_checkpoint e slot). Qed.
Lemma import_history (e : E * list (Decision.t V)) slot bytes : (import_checkpoint e slot bytes).1.2 = e.2.
Proof. destruct e as [e l]. simpl. by destruct (import_checkpoint e slot bytes). Qed.

Lemma forget_from D slot st : state_from D st → state_from D (ConsensusState.forget_through slot st).
Proof.
  intros [Hl Hd]. split; [by apply prune_from|]. intros i d. simpl. rewrite lookup_retain.
  destruct (slot <? i); [apply Hd|done].
Qed.

Lemma transfer_prune_sourced me D slot ids checkpoint h h' r :
  sourced me D h → transfer_prune slot ids checkpoint h = (h', r) →
  sourced me D h' ∧ ∀ tr, r = Ok tr → snapshot_from D (StateTransferSnapshot.runtime tr).
Proof.
  intros Hs. unfold transfer_prune, bind at 1, reads. destruct (negb _); [by intros [= <- <-]|].
  unfold bind, modify, ret. set (h1 := set_state h _).
  assert (sourced me D h1) as H1 by (by apply sourced_state; [apply forget_from, Hs|]).
  pose proof (save_or_restore_sourced me D (state h) h1 (so_state _ _ _ Hs) H1) as Hsv.
  destruct (save_or_restore _ _) as [h2 [[]|e]]; intros [= <- <-]; (split; [done|]); [|done].
  intros tr [= <-]. apply (snapshot_of_state D h1), H1.
Qed.

(** ** Membership changes *)

Lemma change_begin_sourced me D change next h :
  sourced me D h → sourced me D (change_begin change next h).1.
Proof.
  intros Hs. unfold change_begin, bind at 1, lift.
  destruct (MembershipChange.validate_binding change); [|done]. unfold bind at 1, reads.
  destruct (bool_decide _).
  - unfold bind, modify, ret. destruct (validate_async_recorders _ _); [|done]. by destruct Hs.
  - destruct (negb _); [done|]. unfold bind. destruct (validate_async_recorders _ _); [|done].
    by destruct (_ || _).
Qed.

Lemma change_activate_sourced me D change next h :
  sourced me D h → sourced me D (change_activate change next h).1.
Proof.
  intros [Hi Hst Hsto Hh]. unfold change_activate. set (h1 := set_recorders _ _).
  assert (sourced me D h1) as [Hi1 Hst1 Hsto1 Hh1]%save_store_sourced by done.
  destruct (save_store h1) as [h2 [[]|e]]; by split.
Qed.

(** ** Starting *)

Lemma restored_from D config snap st :
  snapshot_from D snap → ConsensusState.restored config snap = Ok st → state_from D st.
Proof.
  intros [Hl Hd] Hr. pose proof (restored_decisions _ _ _ Hr) as [Hdec _].
  apply restored_state in Hr as [Hr _]. split; [|by rewrite Hdec].
  assert (ReplicaCore.log (ConsensusState.replica st) = ReplicaSnapshot.log (RuntimeSnapshot.replica snap))
    as ->; [|done].
  revert Hr. generalize (ConsensusState.replica st). intros rp Hr.
  unfold ReplicaCore.restore in Hr. split_guards.
Qed.

Lemma new_sourced me D config recorders store machine h :
  new config recorders store machine = Ok h → identity_of config = me → store_from D store →
  (∀ d, d ∈ machine.2 → D d) → sourced me D h.
Proof.
  unfold new. destruct (negb _); [done|].
  destruct (runtime_load store) as [store' [loaded|]] eqn:Hl; [|done].
  apply runtime_load_content in Hl as [-> Hc']. intros Hnew Hid Hst Hm.
  assert (store_from D store') as Hst' by (unfold store_from; by rewrite Hc').
  unfold store_from in Hst. destruct (content store) as [snap|] eqn:Hc0.
  - destruct (_ || _); [done|]. destruct (ConsensusState.restored config snap) as [st|] eqn:Hr; [|done].
    destruct (ConsensusState.validate_state config st) as [[]|]; [|done]. injection Hnew as <-.
    split; simpl; try done. eapply restored_from; [by apply Hst|done].
  - destruct (ConsensusState.validate_state _ _); [|done]. injection Hnew as <-.
    split; simpl; try done. split; [|by intros i d; simpl; rewrite lookup_empty].
    intros i e d. simpl. rewrite lookup_singleton_Some. by intros [_ <-].
Qed.

Lemma install_transfer_sourced me D transfer h :
  snapshot_from D (StateTransferSnapshot.runtime transfer) → sourced me D h →
  sourced me D (install_state_transfer transfer h).1.
Proof.
  intros Htr Hs. unfold install_state_transfer, bind at 1, reads.
  destruct (_ || _); [done|]. unfold bind at 1, lift.
  destruct (ConsensusState.restored _ _) as [st|] eqn:Hr; [|done]. unfold bind at 1.
  destruct (ConsensusState.validate_state _ st) as [[]|]; [|done].
  apply (restored_from D) in Hr; [|done]. unfold bind at 1.
  set (m := run_machine _).
  assert (sourced me D (m h).1) as [Hi Hst Hsto Hh].
  { apply run_machine_sourced; [|done]. intros e. apply import_history. }
  destruct (m h) as [h1 [[]|]]; [|done]. simpl in *.
  unfold bind, zoom, modify. destruct (runtime_save _ _) as [s [[]|]] eqn:Hsv; simpl; split; simpl; try done;
    intros snap Hc.
  - apply runtime_save_Ok in Hsv. rewrite Hsv in Hc. by injection Hc as <-.
  - apply runtime_save_Err in Hsv as [Hsv|Hsv]; rewrite Hsv in Hc; [by apply Hsto|].
    by injection Hc as <-.
Qed.
End node_sources.

(** ** The running node *)

Section running.
Context {V : Type} `{Countable V} {St E X : Type}.
Context `{!RuntimeStateStore V St, !StateMachine V E}.
Context {content : St → option (RuntimeSnapshot.t V)} `{!RuntimeStateStoreLaws V St content}.
Context (network : X → list (ReplicaId * RecordRequest.t V) →
                   X * list (ReplicaId * Result (RecordReply.t V))).
Context (ord : relation V) `{!RelDecision ord}.
Import Node.
Abbreviation machine := (E * list (Decision.t V))%type.
Abbreviation handler := (NetworkConsensusHandler.t V St machine).
Abbreviation system := (Node.t V St machine).
Abbreviation sourced := (sourced (content:=content)).
Implicit Types (D : Decision.t V → Prop) (h : handler) (self : system).

(** The decisions a request holds, has received or answers with. *)
Definition stage_decisions (f : flight V) : list (Decision.t V) :=
  match f with
  | Observing d _ | Accepting d | Disseminating d | Landed (Ok (Some d)) => [d]
  | _ => []
  end.
Definition pc_decisions (p : pc V) : list (Decision.t V) :=
  match p with
  | Arrived (ReceiveDecisions ds) | Receiving ds => ds
  | Driving _ f => stage_decisions (stage f)
  | Joining _ flights recovered => (flights ≫= λ f, stage_decisions (stage f)) ++ recovered
  | Answering (Ok (Outcome (SubmissionOutcome.Committed d))) => [d]
  | Answering (Ok (Recovered ds)) => ds
  | _ => []
  end.

(** The state transfers it brings, or answers with. *)
Definition pc_transfers (p : pc V) : list (StateTransferSnapshot.t V) :=
  match p with
  | Arrived (InstallStateTransfer transfer) | Answering (Ok (Exported transfer)) => [transfer]
  | _ => []
  end.

Definition pc_from D (p : pc V) : Prop :=
  (∀ d, d ∈ pc_decisions p → D d)
  ∧ ∀ tr, tr ∈ pc_transfers p → snapshot_from D (StateTransferSnapshot.runtime tr).

(** What a proposer of this flight may return. *)
Definition proposer_from D (i : input X) slot values h (f : flight V) : Prop :=
  ∀ leader d, f = Proposing leader →
    NetworkConsensusHandler.run_proposer network (fuel i) h (entropy i) (net i) slot values leader
      = Some (Ok d) → D d.

Definition flight_from D (f : flight V) : Prop := ∀ d, d ∈ stage_decisions f → D d.

Lemma lands_from {A} D (r : Result A) k :
  (∀ a, r = Ok a → flight_from D (k a)) → flight_from D (lands r k).
Proof. intros Hk. destruct r as [a|]; [by apply Hk|by intros d ?%elem_of_nil]. Qed.

Lemma quiet_flight D (f : flight V) : stage_decisions f = [] → flight_from D f.
Proof. intros Hf d. by rewrite Hf, elem_of_nil. Qed.

Lemma fly_sourced me D i slot values f h h' f' :
  NetworkConsensusHandler.noop_value h = None →
  pipeline_inv (ConsensusState.replica (NetworkConsensusHandler.state h)) →
  Forall below_last (landing (Drive slot values f)) →
  proposer_from D i slot values h f → flight_from D f → sourced me D h →
  fly network i slot values f h = Some (h', f') → sourced me D h' ∧ flight_from D f'.
Proof.
  intros Hn Hp Hl Hrun Hd Hs Hf. destruct f as [|ld|ld|ld hi| |ld|ld|d el|d|d|r]; simpl in Hf.
  - destruct (bool_decide _); [simplify_eq; by split; [|apply quiet_flight]|].
    pose proof (hedge_for_sourced me D slot (now i) (later i) h Hs) as Hg.
    destruct (NetworkConsensusHandler.hedge_for _ _ _ _) as [h1 r]. simplify_eq. split; [done|].
    apply lands_from. intros [k n] _. apply quiet_flight. simpl. by destruct (n =? 0).
  - simplify_eq. split; [done|]. apply quiet_flight. by destruct (notified i).
  - destruct (NetworkConsensusHandler.defers_never _ _); [simplify_eq; by split; [|apply quiet_flight]|].
    destruct (negb _); [done|]. simplify_eq. split; [done|]. apply quiet_flight.
    by destruct (NetworkConsensusHandler.highest_step _).
  - pose proof (note_progress_sourced me D slot hi h Hs) as Hg.
    destruct (NetworkConsensusHandler.note_progress _ _ _) as [h1 r]. simplify_eq. split; [done|].
    apply lands_from. intros [] _; by apply quiet_flight.
  - simplify_eq. by split; [|apply quiet_flight].
  - simplify_eq. split; [done|]. apply quiet_flight. by destruct (bool_decide _).
  - destruct (NetworkConsensusHandler.run_proposer _ _ _ _ _ _ _ _) as [r|] eqn:Hr; [|done].
    simplify_eq. split; [done|]. apply lands_from. intros d -> x ->%list_elem_of_singleton.
    by eapply Hrun.
  - simplify_eq. split; [by apply sourced_quiet|done].
  - apply (Forall_inv (P:=below_last)) in Hl.
    pose proof (accept_decision_sourced me D (now i) d h Hn Hp Hl ltac:(apply Hd; left) Hs) as Hg.
    destruct (NetworkConsensusHandler.accept_decision _ _ _) as [h1 r]. simplify_eq. split; [done|].
    by apply lands_from.
  - destruct (NetworkConsensusHandler.disseminate _ _); [|done]. by simplify_eq.
  - done.
Qed.

(** The flight that a step of a request moves. *)
Definition moving (which : nat) (p : pc V) : option (proposal V) :=
  match p with
  | Driving _ f => Some f
  | Joining _ flights _ => flights !! which
  | _ => None
  end.

(** A request with no decisions. *)
Lemma pc_from_quiet D (p : pc V) : pc_decisions p = [] → pc_transfers p = [] → pc_from D p.
Proof. intros Hd Ht. split; rewrite ?Hd, ?Ht; by intros ? ?%elem_of_nil. Qed.

Lemma settles_from {A} D (r : Result A) k :
  (∀ a, r = Ok a → pc_from D (k a)) → pc_from D (settles r k).
Proof. intros Hk. destruct r as [a|]; [by apply Hk|by apply pc_from_quiet]. Qed.

Lemma settles_nothing {A} D (r : Result A) (k : A → pc V) :
  (∀ a, pc_decisions (k a) = [] ∧ pc_transfers (k a) = []) → pc_from D (settles r k).
Proof.
  intros Hk. apply settles_from. intros a _. destruct (Hk a) as (?&?). by apply pc_from_quiet.
Qed.

Lemma join_sourced me D reported flights recovered which i h h' q :
  NetworkConsensusHandler.noop_value h = None →
  pipeline_inv (ConsensusState.replica (NetworkConsensusHandler.state h)) →
  Forall below_last (flights ≫= landing) →
  (∀ f, flights !! which = Some f → proposer_from D i (at_slot f) (batch f) h (stage f)) →
  pc_from D (Joining reported flights recovered) → sourced me D h →
  join network reported flights recovered which i h = Some (h', q) →
  sourced me D h' ∧ pc_from D q.
Proof.
  intros Hn Hp Hl Hrun [Hd _] Hs. simpl in Hd. unfold join.
  destruct (flights !! which) as [f|] eqn:Hf; last first.
  { destruct (is_empty flights); [|done]. intros [= <- <-]. split; [done|].
    destruct reported; [|by apply pc_from_quiet]. split; simpl; [set_solver|by intros ? ?%elem_of_nil]. }
  assert (∀ g, g ∈ flights → flight_from D (stage g)) as Hall.
  { intros g Hg d Hgd. apply Hd, elem_of_app. left. apply list_elem_of_bind. eauto. }
  assert (∀ flights' rc, (∀ g, g ∈ flights' → flight_from D (stage g)) → (∀ d, d ∈ rc → D d) →
    pc_from D (Joining reported flights' rc)) as Hjoin.
  { intros fl rc Hfl Hrc. split; [|by intros ? ?%elem_of_nil]. simpl.
    intros d [(g & ? & Hg)%list_elem_of_bind|?]%elem_of_app; [by eapply Hfl|by apply Hrc]. }
  assert (f ∈ flights) as Hin by (by eapply list_elem_of_lookup_2).
  assert (∀ h1 f1, fly network i (at_slot f) (batch f) (stage f) h = Some (h1, f1) →
    sourced me D h1 ∧ pc_from D
      (Joining reported (<[which := Drive (at_slot f) (batch f) f1]> flights) recovered)) as Hfly.
  { intros h1 f1 Hfl. eapply (fly_sourced me D) in Hfl as [Hs1 Hf1]; try done.
    - split; [done|]. apply Hjoin; [|set_solver]. intros g [j Hj]%list_elem_of_lookup.
      apply list_lookup_insert_Some in Hj as [(_ & <- & _)|[_ Hj]]; [done|].
      by apply Hall; eapply list_elem_of_lookup_2.
    - rewrite Forall_forall in Hl. apply Forall_forall. intros d Hld. apply Hl, list_elem_of_bind.
      exists f. split; [by destruct f|done].
    - by apply Hrun.
    - by apply Hall. }
  destruct (stage f) as [| | | | | | | | | |r] eqn:Hst;
    try (destruct (fly _ _ _ _ _ _) as [[h1 f1]|]; [|done]; intros [= <- <-];
         by destruct (Hfly _ _ eq_refl)).
  destruct r as [o|]; intros [= <- <-]; [|by split; [|apply pc_from_quiet]].
  split; [done|]. apply Hjoin.
  - intros g Hg. apply Hall. rewrite delete_take_drop in Hg. rewrite <-(take_drop_middle _ _ _ Hf).
    set_solver.
  - destruct o as [d|]; [|set_solver]. intros x [Hx| ->%list_elem_of_singleton]%elem_of_app; [set_solver|].
    apply (Hall f Hin). rewrite Hst. by left.
Qed.

(** A section that leads to no decision: [Hg] says what it keeps. *)
Ltac sourced_section Hg :=
  let h1 := fresh "h" in let r := fresh "r" in
  match type of Hg with
  | sourced _ _ (?m.1) => destruct m as [h1 r]
  | ?m.1 = _ => destruct m as [h1 r]
  end; simplify_eq/=; split; [done|]; apply settles_nothing; try done.

Lemma arrived_sourced me D which i rq h h' q :
  pc_from D (Arrived rq) → sourced me D h →
  advance network ord which i (Arrived rq) h = Some (h', q) →
  sourced me D h' ∧ pc_from D q.
Proof.
  intros Hpc Hs Ha. destruct rq as [sub|ds| |sch|slot|tr|c nx]; unfold advance in Ha.
  - pose proof (submit_enqueue_sourced me D sub h Hs) as Hg. sourced_section Hg.
  - simplify_eq. by split; [|destruct Hpc].
  - simplify_eq. by split; [|apply pc_from_quiet].
  - pose proof (install_epoch_schedule_sourced me D sch h Hs) as Hg. sourced_section Hg.
  - pose proof (transfer_select_frame slot h) as Hg. sourced_section Hg.
  - pose proof (install_transfer_sourced me D tr h ltac:(apply Hpc; left) Hs) as Hg. sourced_section Hg.
  - pose proof (change_begin_sourced me D c nx h Hs) as Hg. sourced_section Hg. by intros [ds|].
Qed.

Lemma advance_sourced me D which i p h h' q :
  NetworkConsensusHandler.noop_value h = None →
  pipeline_inv (ConsensusState.replica (NetworkConsensusHandler.state h)) →
  Forall below_last (to_accept p) →
  (∀ f, moving which p = Some f → proposer_from D i (at_slot f) (batch f) h (stage f)) →
  pc_from D p → sourced me D h →
  advance network ord which i p h = Some (h', q) → sourced me D h' ∧ pc_from D q.
Proof.
  intros Hn Hp Hl Hrun Hpc Hs.
  destruct p as [rq|sub|sub|sub f|ds|rep|rep fl rc|slot ds|slot ids|slot ids ck|c nx ds|c nx|c nx|r].
  - by apply arrived_sourced.
  - simpl. destruct (NetworkConsensusHandler.submit_turn _ _) as [h1 r] eqn:Ht. intros [= <- <-].
    apply (submit_turn_sourced me D) in Ht as [Hs1 Hans]; [|done]. split; [done|].
    apply settles_from. intros [d|s v|] ->; simpl; [|by apply pc_from_quiet..].
    split; simpl; [intros x ->%list_elem_of_singleton; by apply Hans|by intros ? ?%elem_of_nil].
  - simpl. intros [= <- <-]. by split; [|apply pc_from_quiet].
  - unfold advance. simpl in Hl. rewrite app_nil_r in Hl.
    assert (∀ h1 f1, fly network i (at_slot f) (batch f) (stage f) h = Some (h1, f1) →
      sourced me D h1 ∧ pc_from D (Driving sub (Drive (at_slot f) (batch f) f1))) as Hfly.
    { intros h1 f1 Hfl. eapply (fly_sourced me D) in Hfl as [Hs1 Hf1]; try done.
      - split; [done|]. split; [done|by intros ? ?%elem_of_nil].
      - by apply Hrun.
      - exact (proj1 Hpc). }
    destruct (stage f) as [| | | | | | | | | |r];
      try (destruct (fly _ _ _ _ _ _) as [[h1 f1]|]; [|done]; intros [= <- <-];
           by destruct (Hfly _ _ eq_refl)).
    intros [= <- <-]. split; [done|]. by apply settles_nothing.
  - destruct ds as [|d ds]; simpl; [intros [= <- <-]; by split; [|apply pc_from_quiet]|].
    apply Forall_cons in Hl as [Hd _]. destruct Hpc as [Hds _]. simpl in Hds.
    pose proof (accept_decision_sourced me D (now i) d h Hn Hp Hd ltac:(apply Hds; left) Hs) as Hg.
    destruct (NetworkConsensusHandler.accept_decision _ _ _) as [h1 r]. intros [= <- <-].
    split; [done|]. apply settles_from. intros [] _.
    split; simpl; [|by intros ? ?%elem_of_nil]. intros x Hx. apply Hds. by right.
  - simpl. intros Ha. pose proof (recover_section_sourced me D (now i) h Hn Hs) as Hg.
    sourced_section Hg. intros l. split; [|done]. simpl. rewrite app_nil_r. by induction l.
  - by apply join_sourced.
  - simpl. destruct (NetworkConsensusHandler.disseminate_all _ _ _); [|done]. intros [= <- <-].
    split; [done|]. by apply settles_nothing.
  - simpl. intros Ha. unfold NetworkConsensusHandler.transfer_export in Ha.
    pose proof (run_machine_sourced me D (λ e, export_checkpoint e slot) h
                  (λ e, export_history e slot) Hs) as Hg. sourced_section Hg.
  - simpl. destruct (NetworkConsensusHandler.transfer_prune _ _ _ _) as [h1 r] eqn:Ht.
    intros [= <- <-]. apply (transfer_prune_sourced me D) in Ht as [Hs1 Htr]; [|done].
    split; [done|]. apply settles_from. intros tr ->.
    split; simpl; [by intros ? ?%elem_of_nil|]. intros x ->%list_elem_of_singleton. by apply Htr.
  - simpl. destruct (NetworkConsensusHandler.disseminate_all _ _ _); [|done]. intros [= <- <-].
    split; [done|]. by apply settles_nothing.
  - simpl. destruct (NetworkConsensusHandler.install_acks _ _ _); [|done]. intros [= <- <-].
    split; [done|]. by apply settles_nothing.
  - simpl. intros Ha. pose proof (change_activate_sourced me D c nx h Hs) as Hg. sourced_section Hg.
  - done.
Qed.

(** ** Actions of the node *)

(** The node and its requests. *)
Record node_from me D self : Prop := {
  nf_node : sourced me D (node self);
  nf_tasks : ∀ id p, tasks self !! id = Some p → pc_from D p;
}.

Lemma node_from_mono me D D' self : (∀ d, D d → D' d) → node_from me D self → node_from me D' self.
Proof.
  intros HD [Hn Ht]. split; [by eapply sourced_mono|]. intros id p Hp.
  destruct (Ht id p Hp) as [Hd Htr]. split; [naive_solver|].
  intros tr Hin. destruct (Htr tr Hin) as [Hl Hm]. split.
  - intros j e d ??. by eapply HD, Hl.
  - intros j d ?. by eapply HD, Hm.
Qed.

(** What an action brings in from outside. *)
Definition inputs_from me D self (a : action V St machine X) : Prop :=
  match a with
  | Spawn _ rq => pc_from D (Arrived rq)
  | Step id which i =>
      ∀ p f, tasks self !! id = Some p → moving which p = Some f →
        proposer_from D i (at_slot f) (batch f) (node self) (stage f)
  | Drop _ => True
  | Restart config _ _ machine _ =>
      identity_of config = me
      ∧ ∀ d, d ∈ machine.2 → d ∈ (NetworkConsensusHandler.state_machine (node self)).2
  end.

Lemma step_from me D self self' a :
  node_ok (content:=content) (claims_of self) (node self) → step network ord self a = Some self' →
  allowed (content:=content) self a → inputs_from me D self a → node_from me D self →
  node_from me D self'.
Proof.
  intros Hok Hs Hal Hin [Hn Ht]. destruct a as [id rq|id which i|id|config rs store machine noop];
    simpl in Hs, Hal, Hin.
  - destruct (tasks self !! id); [done|]. simplify_eq. split; [done|]. simpl.
    intros j p [[_ <-]|[_ Hj]]%lookup_insert_Some; [done|by eapply Ht].
  - destruct (tasks self !! id) as [p|] eqn:Hp; [|done]. destruct (negb _); [done|].
    destruct (advance _ _ _ _ _ _) as [[h q]|] eqn:Ha; [|done]. simplify_eq.
    destruct Hal as [Hl _]. pose proof (Ht id p Hp) as Hpc.
    eapply (advance_sourced me D) in Ha as (Hs1 & Hq); try done.
    + split; [done|]. simpl. intros j p' [[_ <-]|[_ Hj]]%lookup_insert_Some; [done|by eapply Ht].
    + apply Hok.
    + apply Hok.
    + by apply (Hl id).
    + intros f Hf. by eapply Hin.
  - simplify_eq. split; [done|]. simpl. intros j p [_ Hj]%lookup_delete_Some. by eapply Ht.
  - destruct Hal as (Hc & -> & _), Hin as [Hid Hm]. unfold boot in Hs.
    destruct (NetworkConsensusHandler.new _ _ _ _) as [h|] eqn:Hnew; [|done]. simplify_eq.
    split; simpl; [|by intros j p; rewrite lookup_empty].
    eapply new_sourced; [done..| |].
    + unfold store_from. rewrite Hc. apply Hn.
    + intros d Hd. by apply (so_history _ _ _ Hn), Hm.
Qed.
End running.
