(* ===== verification/NodeEpochs.v ===== *)
(** * A node proposes in the slots of its epoch (src/network/node_runtime.rs)

  Across membership changes agreement needs that a node which has entered an
  epoch proposes only after the decision that ordered it. The node installs an
  epoch when it has committed exactly through that decision and its pipeline
  is drained, behind a gate that waits for every other request; from then on
  it claims slots after its commit frontier, and no crash, failed save or state
  transfer takes it back across. The invariant is relative to the slots each
  epoch is [opens]ed for; [Cluster] takes those after the epoch's anchor. *)
From S2P Require Import Prelude Errors Types Membership Proposer Replica Policy Schedule Runtime.
From S2P Require Import Wire AsyncProposer NodeRuntime NodeTasks NodeClaims NodeDurable NodeSources.

Section node_epochs.
Context {V : Type} `{Countable V} {St E : Type}.
Context `{!RuntimeStateStore V St, !StateMachine V E}.
Context {content : St → option (RuntimeSnapshot.t V)} `{!RuntimeStateStoreLaws V St content}.
Context (opens : ClusterIdentity.t → SlotIndex → Prop).
Context (opens_later : ∀ e s s', opens e s → s ≤ s' → opens e s').
Import NetworkConsensusHandler.
Abbreviation handler := (NetworkConsensusHandler.t V St E).
Implicit Types (e : ClusterIdentity.t) (h : handler) (st : ConsensusState.t V).

(** What is pending and what will be claimed next is open. *)
Definition state_in e st : Prop :=
  opens e (ReplicaCore.next_commit (ConsensusState.replica st))
  ∧ ∀ s v, armed st s v → opens e s.

Definition snapshot_in (snap : RuntimeSnapshot.t V) : Prop :=
  opens (RuntimeSnapshot.cluster snap) (ReplicaSnapshot.next_commit (RuntimeSnapshot.replica snap))
  ∧ ∀ s p, RuntimeSnapshot.pending snap !! s = Some p → opens (RuntimeSnapshot.cluster snap) s.

(** The node is in epoch [e], in memory and, whatever epoch its store is in, on
    disk. *)
Record settled e h : Prop := {
  se_epoch : ReplicaRuntimeConfig.cluster (config h) = e;
  se_state : state_in e (state h);
  se_store : ∀ snap, content (state_store h) = Some snap → snapshot_in snap;
}.

Lemma snapshot_of_settled h :
  state_in (ReplicaRuntimeConfig.cluster (config h)) (state h) → snapshot_in (snapshot h).
Proof.
  intros [Hn Hp]. split; simpl; [done|]. intros s p. rewrite lookup_fmap_Some. intros (v & _ & Hv).
  by eapply Hp.
Qed.

Lemma settled_state e h st : state_in e st → settled e h → settled e (set_state h st).
Proof. intros ? [???]. by split. Qed.

(** State that claims nothing new and does not go back. *)
Lemma state_in_later e st st' :
  state_in e st →
  ReplicaCore.next_commit (ConsensusState.replica st)
    ≤ ReplicaCore.next_commit (ConsensusState.replica st') →
  ConsensusState.pending st' ⊆ ConsensusState.pending st → state_in e st'.
Proof.
  intros [Hn Hp] Hle Hsub. split; [by eapply opens_later|].
  intros s v Hv. eapply Hp. by eapply lookup_weaken.
Qed.

Lemma settled_later e h st :
  ReplicaCore.next_commit (ConsensusState.replica (state h))
    ≤ ReplicaCore.next_commit (ConsensusState.replica st) →
  ConsensusState.pending st ⊆ ConsensusState.pending (state h) →
  settled e h → settled e (set_state h st).
Proof.
  intros Hle Hsub Hs. apply settled_state; [|done]. by eapply state_in_later; [apply Hs|..].
Qed.

Lemma save_store_settled e h : settled e h → settled e (save_store h).1.
Proof.
  intros [He Hs Hst]. unfold save_store.
  assert (snapshot_in (snapshot h)) as Hsn by (apply snapshot_of_settled; by rewrite He).
  destruct (runtime_save _ _) as [s [[]|er]] eqn:Hsv; split; simpl; try done; intros snap Hc.
  - apply runtime_save_Ok in Hsv. rewrite Hsv in Hc. by injection Hc as <-.
  - apply runtime_save_Err in Hsv as [Hsv|Hsv]; rewrite Hsv in Hc; [by apply Hst|].
    by injection Hc as <-.
Qed.

Lemma save_or_restore_settled e before h :
  state_in e before → settled e h → settled e (save_or_restore before h).1.
Proof.
  intros Hb Hs. unfold save_or_restore. apply save_store_settled in Hs.
  destruct (save_store h) as [h1 [[]|er]]; simpl in *; [done|by apply settled_state].
Qed.

(** ** The sections *)

Lemma run_machine_settled {A} e (f : E → E * Result A) : preserves (settled e) (run_machine f).
Proof. intros h [???]. unfold run_machine, zoom. destruct (f _) as [m r]. by split. Qed.

Lemma execute_one_settled e d : preserves (settled e) (execute_one d).
Proof.
  unfold execute_one. apply preserves_bind; [by intros h|]. intros []; [by intros h|].
  apply preserves_bind; [apply run_machine_settled|intros _].
  apply preserves_bind; [|intros _ h; apply save_store_settled].
  intros h Hs. unfold modify. simpl. by apply settled_later.
Qed.

Lemma execute_decisions_settled e ds : preserves (settled e) (execute_decisions ds).
Proof. apply preserves_for_each. intros d. apply execute_one_settled. Qed.

Lemma execute_ready_settled e : preserves (settled e) execute_ready.
Proof.
  unfold execute_ready. apply preserves_bind; [by intros h|]. intros ds. apply execute_decisions_settled.
Qed.

Lemma apply_decision_later d (rp rp' : ReplicaCore.t V) r :
  pipeline_inv rp → Decision.slot d < U64.MAX → ReplicaCore.apply_decision d rp = (rp', r) →
  ReplicaCore.next_commit rp ≤ ReplicaCore.next_commit rp'.
Proof.
  intros Hp Hd Ha. apply apply_pipeline in Ha as [[-> _]|(fresh & -> & Hc & _)]; [lia| |done..].
  pose proof (cm_next _ _ _ Hc) as Hn. pose proof (len_nonneg fresh). simpl in Hn. lia.
Qed.

Lemma accept_decision_settled e now d h :
  noop_value h = None → pipeline_inv (ConsensusState.replica (state h)) →
  Decision.slot d < U64.MAX → settled e h → settled e (accept_decision now d h).1.
Proof.
  intros Hn Hp Hd Hs. unfold accept_decision, bind at 1, reads.
  destruct (ConsensusState.decisions (state h) !! Decision.slot d) as [existing|].
  - destruct (negb _); [done|]. unfold bind. rewrite arm_gap_none by done. by apply execute_ready_settled.
  - unfold bind at 1, on_state, ConsensusState.on_replica, zoom.
    destruct (ReplicaCore.apply_decision d _) as [rp r] eqn:Ha.
    apply apply_decision_later in Ha; [|done..].
    destruct r as [committed|er]; [|by apply settled_later].
    unfold bind at 1, modify. unfold bind at 1. rewrite arm_gap_none by done.
    set (h2 := set_state _ _).
    assert (settled e h2) as Hs2.
    { apply (settled_later e h); [done| |done]. simpl. apply delete_subseteq. }
    unfold bind at 1. destruct (note_stats (state h) h2) as [h3 r3] eqn:Hns.
    apply note_stats_cases in Hns as [(tn & -> & ->)|[Hr ->]].
    + unfold bind. pose proof (save_or_restore_settled e (state h)
        (set_state h2 (ConsensusState.set_tuner (state h2) tn)) (se_state _ _ Hs)
        ltac:(by apply settled_later)) as Hsv.
      destruct (save_or_restore (state h) _) as [h4 [[]|er]]; [|done].
      by apply execute_decisions_settled.
    + destruct r3; [done|]. apply settled_state; [apply Hs|done].
Qed.

Lemma recover_section_settled e now h :
  noop_value h = None → settled e h → settled e (recover_section now h).1.
Proof.
  intros Hn Hs. unfold recover_section, bind at 1, reads at 1. unfold bind at 1.
  rewrite arm_gap_none by done. unfold bind at 1, ret. unfold bind.
  pose proof (execute_ready_settled e h Hs) as Hr. by destruct (execute_ready h) as [h1 [[]|er]].
Qed.

Lemma submit_enqueue_settled e submission h :
  settled e h → settled e (submit_enqueue submission h).1.
Proof.
  intros Hs. unfold submit_enqueue, bind at 1, readr. destruct (submit_check _ _); [|done].
  unfold bind at 1, reads. unfold bind, on_state, ConsensusState.on_replica, zoom.
  destruct (ReplicaCore.enqueue _ _) as [rp r] eqn:He.
  assert (settled e (set_state h (ConsensusState.set_replica (state h) rp))) as H1.
  { apply settled_later; [|done..]. simpl.
    by apply enqueue_cases in He as [[-> _]|(_ & _ & _ & ->)]. }
  destruct r as [[]|er]; [|done]. apply save_or_restore_settled; [apply Hs|done].
Qed.

(** A slot is claimed at the commit frontier or after it. *)
Lemma next_proposal_frontier (rp rp' : ReplicaCore.t V) r :
  ReplicaCore.next_proposal rp = (rp', r) →
  ReplicaCore.next_commit rp' = ReplicaCore.next_commit rp
  ∧ ∀ slot values, r = Ok (Some (slot, values)) → ReplicaCore.next_commit rp ≤ slot.
Proof.
  intros [[-> [->|Hr]]|(slot & n & Ho & _ & Hn & Hok)]%next_proposal_cases;
    [by split|split; [done|by intros ?? ->]|].
  split.
  - by apply note_proposed_cases in Hn as [[-> _]|(_ & _ & _ & _ & ->)].
  - intros s v ->. specialize (Hok eq_refl). simplify_eq.
    destruct (Z.le_gt_cases (ReplicaCore.next_commit rp) slot); [done|].
    exfalso. apply (next_open_slot_free _ _ Ho). left. lia.
Qed.

Lemma submit_turn_settled e submission h :
  settled e h → settled e (submit_turn submission h).1.
Proof.
  intros Hs. unfold submit_turn, bind at 1, reads.
  destruct (ConsensusState.decision_for _ _); [done|].
  destruct (ConsensusState.pending_for _ _) as [[slot values]|]; [done|].
  unfold bind at 1, on_state, ConsensusState.on_replica, zoom.
  destruct (ReplicaCore.next_proposal _) as [rp r] eqn:Hn.
  apply next_proposal_frontier in Hn as [Hnc Hslot].
  assert (settled e (set_state h (ConsensusState.set_replica (state h) rp))) as Hs1.
  { apply settled_later; [simpl; lia|done..]. }
  destruct r as [[[slot values]|]|er]; [|done..].
  specialize (Hslot _ _ eq_refl). unfold bind at 1, modify. unfold bind, ret.
  set (h2 := set_state _ _).
  assert (settled e h2) as Hs2.
  { apply (settled_state e h); [|done]. destruct (se_state _ _ Hs) as [Ho Hp].
    split; simpl; [by rewrite Hnc|]. intros s v. unfold armed. simpl. rewrite lookup_insert_Some.
    intros [[<- _]|[_ Hv]]; [by eapply opens_later|by eapply Hp]. }
  pose proof (save_or_restore_settled e (state h) h2 (se_state _ _ Hs) Hs2) as Hsv.
  by destruct (save_or_restore _ _) as [h3 [[]|er]].
Qed.

Lemma hedge_for_settled e slot now later h :
  settled e h → settled e (hedge_for slot now later h).1.
Proof.
  intros Hs. unfold hedge_for, bind at 1, reads. unfold bind at 1, on_state, ConsensusState.on_tuner, zoom.
  destruct (EpochTuner.ensure_schedule _ _) as [tn r]. set (h1 := set_state h _).
  assert (settled e h1) by (by apply settled_later).
  destruct r as [schedule|]; [|done]. unfold bind at 1, lift. destruct (ok_or _ _); [|done].
  destruct (_ <=? _); [done|]. unfold bind at 1. destruct (ok_or _ _); [|done].
  unfold bind, modify, ret. simpl. by apply (settled_later e h1).
Qed.

Lemma note_progress_settled e slot highest h :
  settled e h → settled e (note_progress slot highest h).1.
Proof.
  intros Hs. unfold note_progress, bind, reads, ret, modify.
  destruct (bool_decide _); [done|]. destruct (match _ with Some _ => _ | None => _ end); [|done].
  by apply settled_later.
Qed.

Lemma install_epoch_schedule_settled e schedule h :
  settled e h → settled e (install_epoch_schedule schedule h).1.
Proof.
  intros Hs. unfold install_epoch_schedule, bind at 1, reads. destruct (negb _); [done|].
  unfold bind, on_state, ConsensusState.on_tuner, zoom.
  destruct (EpochTuner.install _ _) as [tn [[]|]]; try by apply settled_later.
  apply save_or_restore_settled; [apply Hs|]. by apply settled_later.
Qed.

Lemma transfer_prune_settled e slot ids checkpoint h h' r :
  settled e h → transfer_prune slot ids checkpoint h = (h', r) →
  settled e h' ∧ ∀ tr, r = Ok tr → snapshot_in (StateTransferSnapshot.runtime tr).
Proof.
  intros Hs. unfold transfer_prune, bind at 1, reads. destruct (negb _); [by intros [= <- <-]|].
  unfold bind, modify, ret. set (h1 := set_state h _).
  assert (settled e h1) as H1.
  { apply settled_later; [done| |done]. simpl. unfold retain. apply map_filter_subseteq. }
  pose proof (save_or_restore_settled e (state h) h1 (se_state _ _ Hs) H1) as Hsv.
  destruct (save_or_restore _ _) as [h2 [[]|er]]; intros [= <- <-]; (split; [done|]); [|done].
  intros tr [= <-]. apply (snapshot_of_settled h1). rewrite (se_epoch _ _ H1). apply H1.
Qed.

(** ** Starting and state transfer *)

Lemma restored_in e config snap st :
  snapshot_in snap → RuntimeSnapshot.cluster snap = e → ConsensusState.restored config snap = Ok st →
  state_in e st.
Proof.
  intros [Ho Hp] <- [Hr Hpend]%restored_state. split.
  - assert (ReplicaCore.next_commit (ConsensusState.replica st)
            = ReplicaSnapshot.next_commit (RuntimeSnapshot.replica snap)) as ->; [|done].
    revert Hr. generalize (ConsensusState.replica st). intros rp Hr.
    unfold ReplicaCore.restore in Hr. split_guards.
  - intros s v. unfold armed. rewrite Hpend. unfold ConsensusState.snapshot_pending.
    rewrite lookup_fmap_Some. intros (p & _ & Hs). by eapply Hp.
Qed.

(** A node starts in the epoch of its store, or fresh in one that is open from
    the first slot. *)
Lemma new_settled config recorders store machine h :
  new config recorders store machine = Ok h →
  (∀ snap, content store = Some snap → snapshot_in snap) →
  (content store = None → opens (ReplicaRuntimeConfig.cluster config) 1) →
  settled (ReplicaRuntimeConfig.cluster config) h.
Proof.
  unfold new. destruct (negb _); [done|].
  destruct (runtime_load store) as [store' [loaded|]] eqn:Hl; [|done].
  apply runtime_load_content in Hl as [-> Hc']. intros Hnew Hst Hfirst.
  destruct (content store) as [snap|] eqn:Hc0.
  - destruct (bool_decide (RuntimeSnapshot.cluster snap = ReplicaRuntimeConfig.cluster config)) eqn:Hcl;
      [|done]. apply bool_decide_eq_true in Hcl. simpl in Hnew. destruct (negb _); [done|].
    destruct (ConsensusState.restored config snap) as [st|] eqn:Hr; [|done].
    destruct (ConsensusState.validate_state config st) as [[]|]; [|done]. injection Hnew as <-.
    split; simpl; [done| |by rewrite Hc']. eapply restored_in; [by apply Hst|done..].
  - destruct (ConsensusState.validate_state _ _); [|done]. injection Hnew as <-.
    split; simpl; [done| |by rewrite Hc']. split; [by apply Hfirst|].
    intros s v. unfold armed. simpl. by rewrite lookup_empty.
Qed.

(** A node started on an empty store. *)
Lemma new_store config recorders store machine h :
  new config recorders store machine = Ok h →
  ReplicaRuntimeConfig.cluster (NetworkConsensusHandler.config h) = ReplicaRuntimeConfig.cluster config
  ∧ content (state_store h) = content store.
Proof.
  clear opens_later. unfold new. destruct (negb _); [done|].
  destruct (runtime_load store) as [store' [loaded|]] eqn:Hl; [|done].
  apply runtime_load_content in Hl as [_ Hc']. destruct loaded as [snap|].
  - destruct (_ || _); [done|]. destruct (ConsensusState.restored _ _); [|done].
    destruct (ConsensusState.validate_state _ _); [|done]. by intros [= <-].
  - destruct (ConsensusState.validate_state _ _); [|done]. by intros [= <-].
Qed.

Lemma new_unarmed config recorders store machine h s v :
  new config recorders store machine = Ok h → content store = None → ¬ armed (state h) s v.
Proof.
  clear opens_later. unfold new. destruct (negb _); [done|].
  destruct (runtime_load store) as [store' [loaded|]] eqn:Hl; [|done].
  apply runtime_load_content in Hl as [-> _]. intros Hnew Hc. rewrite Hc in Hnew.
  destruct (ConsensusState.validate_state _ _); [|done]. injection Hnew as <-. unfold armed. simpl.
  by rewrite lookup_empty.
Qed.

(** A state transfer brings a node to where its source was. *)
Lemma install_transfer_cases e transfer h h' r :
  snapshot_in (StateTransferSnapshot.runtime transfer) →
  ReplicaRuntimeConfig.cluster (config h) = e →
  (∀ snap, content (state_store h) = Some snap → snapshot_in snap) →
  install_state_transfer transfer h = (h', r) →
  ReplicaRuntimeConfig.cluster (config h') = e
  ∧ (∀ snap, content (state_store h') = Some snap → snapshot_in snap)
  ∧ match r with Ok _ => state_in e (state h') | Err _ => state h' = state h end.
Proof.
  intros Htr He Hst. unfold install_state_transfer, bind at 1, reads.
  destruct (bool_decide (RuntimeSnapshot.cluster _ = _)) eqn:Hcl; last first.
  { rewrite orb_true_r. simpl. by intros [= <- <-]. }
  apply bool_decide_eq_true in Hcl. destruct (_ || _); [by intros [= <- <-]|].
  unfold bind at 1, lift. destruct (ConsensusState.restored _ _) as [st|] eqn:Hr; [|by intros [= <- <-]].
  apply (restored_in e) in Hr; [|done|congruence]. unfold bind at 1.
  destruct (ConsensusState.validate_state _ st) as [[]|]; [|by intros [= <- <-]]. unfold bind at 1.
  unfold run_machine, zoom at 1. destruct (import_checkpoint _ _ _) as [m [[]|]]; [|by intros [= <- <-]].
  unfold bind, zoom, modify. simpl. destruct (runtime_save _ _) as [s [[]|]] eqn:Hsv; intros [= <- <-]; simpl.
  - apply runtime_save_Ok in Hsv. split_and!; [done| |done]. rewrite Hsv. by intros snap [= <-].
  - split_and!; [done| |done]. intros snap.
    apply runtime_save_Err in Hsv as [-> | ->]; [apply Hst|]. by intros [= <-].
Qed.

Lemma install_transfer_settled e transfer h :
  snapshot_in (StateTransferSnapshot.runtime transfer) → settled e h →
  settled e (install_state_transfer transfer h).1.
Proof.
  intros Htr [He Hs Hst]. destruct (install_state_transfer transfer h) as [h' r] eqn:Hi.
  destruct (install_transfer_cases e _ _ _ _ Htr He Hst Hi) as (He' & Hst' & Hr).
  split; simpl; [done| |done]. destruct r; [done|]. by rewrite Hr.
Qed.

(** ** Membership changes *)

(** The node has committed exactly through the anchor and drives nothing. *)
Definition drained (change : MembershipChange.t V) st : Prop :=
  ReplicaCore.next_commit (ConsensusState.replica st)
    = Decision.slot (MembershipChange.anchor change) + 1
  ∧ ConsensusState.pending st = ∅.

Lemma change_begin_settled e change next h h' r :
  pipeline_inv (ConsensusState.replica (state h)) → settled e h →
  change_begin change next h = (h', r) →
  settled e h' ∧ ∀ ds, r = Ok (Some ds) → drained change (state h').
Proof.
  intros Hp Hs. unfold change_begin, bind at 1, lift.
  destruct (MembershipChange.validate_binding change); [|by intros [= <- <-]].
  unfold bind at 1, reads. destruct (bool_decide (MembershipChange.next change = _)).
  { unfold bind, modify, ret. destruct (validate_async_recorders _ _); [|by intros [= <- <-]].
    intros [= <- <-]. split; [|done]. by destruct Hs. }
  destruct (negb _); [by intros [= <- <-]|]. unfold bind.
  destruct (validate_async_recorders _ _); [|by intros [= <- <-]].
  destruct (Z.eqb_spec (ReplicaCore.committed_through (ConsensusState.replica (state h)))
              (Decision.slot (MembershipChange.anchor change))) as [Hc|]; [|by intros [= <- <-]].
  destruct (bool_decide (ConsensusState.decisions (state h) !! _ = _)); [|by intros [= <- <-]].
  destruct (bool_decide (ConsensusState.pending (state h) = ∅)) eqn:Hpe; [|by intros [= <- <-]].
  apply bool_decide_eq_true in Hpe. destruct (_ || _); intros [= <- <-]; split; try done.
  intros ds _. split; [|done]. pose proof (ri_checkpoint _ (pi_replica _ Hp)).
  unfold ReplicaCore.committed_through, U64.saturating_sub in Hc. lia.
Qed.

Lemma change_activate_settled e change next h :
  opens (MembershipChange.next change) (Decision.slot (MembershipChange.anchor change) + 1) →
  drained change (state h) → settled e h →
  ∃ e', settled e' (change_activate change next h).1.
Proof.
  intros Ho [Hn Hp] [He Hs Hst]. unfold change_activate. set (h1 := set_recorders _ _).
  assert (settled (MembershipChange.next change) h1) as [He1 Hs1 Hst1]%save_store_settled.
  { split; simpl; [done| |done]. split; simpl; [by rewrite Hn|].
    intros s v. unfold armed. simpl. rewrite Hp. by rewrite lookup_empty. }
  destruct (save_store h1) as [h2 [[]|er]]; [by eexists|]. exists e. by split.
Qed.
End node_epochs.

(** ** The running node *)

Section running.
Context {V : Type} `{Countable V} {St E X : Type}.
Context `{!RuntimeStateStore V St, !StateMachine V E}.
Context {content : St → option (RuntimeSnapshot.t V)} `{!RuntimeStateStoreLaws V St content}.
Context (network : X → list (ReplicaId * RecordRequest.t V) →
                   X * list (ReplicaId * Result (RecordReply.t V))).
Context (ord : relation V) `{!RelDecision ord}.
Context (opens : ClusterIdentity.t → SlotIndex → Prop).
Context (opens_later : ∀ e s s', opens e s → s ≤ s' → opens e s').
Import Node.
Abbreviation handler := (NetworkConsensusHandler.t V St E).
Abbreviation system := (Node.t V St E).
Abbreviation node_ok := (node_ok (content:=content)).
Abbreviation settled := (settled (content:=content) opens).
Abbreviation snapshot_in := (snapshot_in opens).
Implicit Types (e : ClusterIdentity.t) (h : handler) (self : system) (p q : pc V).

Definition epoch_of_node h : ClusterIdentity.t :=
  ReplicaRuntimeConfig.cluster (NetworkConsensusHandler.config h).

(** The membership change a request is about. *)
Definition change_of p : option (MembershipChange.t V) :=
  match p with
  | Arrived (InstallMembership change _) | Announcing change _ _ | Installing change _
  | Activating change _ => Some change
  | _ => None
  end.

Definition brings_in p : Prop :=
  (∀ tr, tr ∈ pc_transfers p →
     snapshot_in (StateTransferSnapshot.runtime tr) ∧ genuine (StateTransferSnapshot.runtime tr))
  ∧ ∀ change, change_of p = Some change →
      opens (MembershipChange.next change) (Decision.slot (MembershipChange.anchor change) + 1).

Definition drives_in e p : Prop := ∀ f, f ∈ flights_of p → opens e (at_slot f).

Lemma brings_quiet p : pc_transfers p = [] → change_of p = None → brings_in p.
Proof. intros Ht Hc. split; [rewrite Ht; by intros ? ?%elem_of_nil|by rewrite Hc]. Qed.

(** A request that holds no gate drives nothing. *)
Lemma idle_drives e p : writes p = false → reads_gate p = false → drives_in e p.
Proof. intros Hw Hr f Hf. by destruct p; simpl in *; try done; apply elem_of_nil in Hf. Qed.

(** ** Requests that change no membership *)

Definition steady e h q : Prop := settled e h ∧ brings_in q ∧ change_of q = None.

Lemma steady_quiet e h q :
  settled e h → pc_transfers q = [] → change_of q = None → steady e h q.
Proof. intros ???. split_and!; [done|by apply brings_quiet|done]. Qed.

Lemma steady_settles {A} e h (r : Result A) k :
  settled e h → (∀ a, r = Ok a → brings_in (k a) ∧ change_of (k a) = None) → steady e h (settles r k).
Proof. intros Hs Hk. destruct r as [a|]; [by split; [|apply Hk]|by apply steady_quiet]. Qed.

Lemma steady_settles_quiet {A} e h (r : Result A) k :
  settled e h → (∀ a, pc_transfers (k a) = [] ∧ change_of (k a) = None) → steady e h (settles r k).
Proof.
  intros Hs Hk. apply steady_settles; [done|]. intros a _. destruct (Hk a).
  split; [by apply brings_quiet|done].
Qed.

Lemma fly_settled e i slot values f h h' f' :
  NetworkConsensusHandler.noop_value h = None →
  pipeline_inv (ConsensusState.replica (NetworkConsensusHandler.state h)) →
  Forall below_last (landing (Drive slot values f)) → settled e h →
  fly network i slot values f h = Some (h', f') → settled e h'.
Proof.
  intros Hn Hp Hl Hs Hf. destruct f as [|ld|ld|ld hi| |ld|ld|d el|d|d|r]; simpl in Hf.
  - destruct (bool_decide _); [by simplify_eq|].
    pose proof (hedge_for_settled opens opens_later e slot (now i) (later i) h Hs) as Hg.
    destruct (NetworkConsensusHandler.hedge_for _ _ _ _) as [h1 r]. by simplify_eq.
  - by simplify_eq.
  - destruct (NetworkConsensusHandler.defers_never _ _); [by simplify_eq|].
    destruct (negb _); by simplify_eq.
  - pose proof (note_progress_settled opens opens_later e slot hi h Hs) as Hg.
    destruct (NetworkConsensusHandler.note_progress _ _ _) as [h1 r]. by simplify_eq.
  - by simplify_eq.
  - by simplify_eq.
  - destruct (NetworkConsensusHandler.run_proposer _ _ _ _ _ _ _ _); by simplify_eq.
  - simplify_eq. by apply (settled_later opens opens_later).
  - apply (Forall_inv (P:=below_last)) in Hl.
    pose proof (accept_decision_settled opens opens_later e (now i) d h Hn Hp Hl Hs) as Hg.
    destruct (NetworkConsensusHandler.accept_decision _ _ _) as [h1 r]. by simplify_eq.
  - destruct (NetworkConsensusHandler.disseminate _ _); by simplify_eq.
  - done.
Qed.

Lemma join_steady e reported flights recovered which i h h' q :
  NetworkConsensusHandler.noop_value h = None →
  pipeline_inv (ConsensusState.replica (NetworkConsensusHandler.state h)) →
  Forall below_last (flights ≫= landing) → settled e h →
  join network reported flights recovered which i h = Some (h', q) → steady e h' q.
Proof.
  intros Hn Hp Hl Hs. unfold join. destruct (flights !! which) as [f|] eqn:Hf; last first.
  { destruct (is_empty flights); [|done]. intros [= <- <-].
    by destruct reported; apply steady_quiet. }
  assert (∀ h1 f1, fly network i (at_slot f) (batch f) (stage f) h = Some (h1, f1) → settled e h1) as Hfly.
  { intros h1 f1 Hfl. eapply fly_settled; [done..| |done|done].
    rewrite Forall_forall in Hl. apply Forall_forall. intros d Hd. apply Hl, list_elem_of_bind.
    exists f. split; [by destruct f|]. by eapply list_elem_of_lookup_2. }
  destruct (stage f) as [| | | | | | | | | |r];
    try (destruct (fly _ _ _ _ _ _) as [[h1 f1]|]; [|done]; intros [= <- <-];
         apply steady_quiet; [by eapply Hfly|done..]).
  destruct r as [o|]; intros [= <- <-]; by apply steady_quiet.
Qed.

(** A section that leads to no transfer: [Hg] says it keeps the epoch. *)
Ltac steady_section Hg :=
  let h1 := fresh "h" in let r := fresh "r" in
  match type of Hg with
  | settled _ (?m.1) => destruct m as [h1 r]
  | ?m.1 = _ => destruct m as [h1 r]
  end; simplify_eq/=; apply steady_settles_quiet; try done.

Lemma arrived_steady e which i rq h h' q :
  change_of (Arrived rq) = None → brings_in (Arrived rq) → settled e h →
  advance network ord which i (Arrived rq) h = Some (h', q) → steady e h' q.
Proof.
  intros Hc [Htr _] Hs Ha. destruct rq as [sub|ds| |sch|slot|tr|c nx]; unfold advance in Ha.
  - pose proof (submit_enqueue_settled opens opens_later e sub h Hs) as Hg. steady_section Hg.
  - simplify_eq. by apply steady_quiet.
  - simplify_eq. by apply steady_quiet.
  - pose proof (install_epoch_schedule_settled opens opens_later e sch h Hs) as Hg. steady_section Hg.
  - pose proof (transfer_select_frame slot h) as Hg. steady_section Hg.
  - pose proof (install_transfer_settled opens e tr h ltac:(apply Htr; left) Hs) as Hg.
    steady_section Hg.
  - done.
Qed.

Lemma advance_steady P e which i p h h' q :
  node_ok P h →
  Forall below_last (to_accept p) → change_of p = None → brings_in p → settled e h →
  advance network ord which i p h = Some (h', q) → steady e h' q.
Proof.
  intros Hok Hl Hc Hb Hs. pose proof (no_noop _ _ Hok) as Hn.
  pose proof (mo_replica _ _ (no_mem _ _ Hok)) as Hp. destruct p as [rq|sub|sub|sub f|ds|rep|rep fl rc|slot ds|slot ids|slot ids ck|c nx ds|c nx|c nx|r];
    try done.
  - by apply arrived_steady.
  - simpl. intros Ha. pose proof (submit_turn_settled opens opens_later e sub h Hs) as Hg.
    steady_section Hg. by intros [].
  - simpl. intros [= <- <-]. by apply steady_quiet.
  - unfold advance. simpl in Hl. rewrite app_nil_r in Hl.
    assert (∀ h1 f1, fly network i (at_slot f) (batch f) (stage f) h = Some (h1, f1) →
      settled e h1) as Hfly by (intros h1 f1 Hfl; by eapply fly_settled).
    destruct (stage f) as [| | | | | | | | | |r];
      try (destruct (fly _ _ _ _ _ _) as [[h1 f1]|]; [|done]; intros [= <- <-];
           apply steady_quiet; [by eapply Hfly|done..]).
    intros [= <- <-]. by apply steady_settles_quiet.
  - destruct ds as [|d ds]; simpl; [intros [= <- <-]; by apply steady_quiet|].
    apply Forall_cons in Hl as [Hd _]. intros Ha.
    pose proof (accept_decision_settled opens opens_later e (now i) d h Hn Hp Hd Hs) as Hg.
    steady_section Hg.
  - simpl. intros Ha. pose proof (recover_section_settled opens opens_later e (now i) h Hn Hs) as Hg.
    steady_section Hg.
  - by apply join_steady.
  - simpl. destruct (NetworkConsensusHandler.disseminate_all _ _ _); [|done]. intros [= <- <-].
    by apply steady_settles_quiet.
  - simpl. intros Ha. unfold NetworkConsensusHandler.transfer_export in Ha.
    pose proof (run_machine_settled opens e (λ m, export_checkpoint m slot) h Hs) as Hg.
    steady_section Hg.
  - simpl. destruct (NetworkConsensusHandler.transfer_prune _ _ _ _) as [h1 r] eqn:Ht.
    intros [= <- <-].
    destruct (transfer_prune_settled opens opens_later e _ _ _ _ _ _ Hs Ht) as [Hs1 Htr].
    apply steady_settles; [done|]. intros tr ->. split; [|done]. split; [|done]. simpl.
    intros x ->%list_elem_of_singleton. split; [by apply Htr|]. by eapply transfer_prune_genuine.
Qed.

(** ** Membership changes *)

(** A step of a change: nothing is driven; the change keeps the gate and the
    drained node, or gives the gate back, perhaps in another epoch. *)
Lemma advance_change e which i p change h h' q :
  pipeline_inv (ConsensusState.replica (NetworkConsensusHandler.state h)) →
  change_of p = Some change → brings_in p →
  (writes p = true → drained change (NetworkConsensusHandler.state h)) → settled e h →
  advance network ord which i p h = Some (h', q) →
  brings_in q ∧ flights_of q = []
  ∧ ((settled e h' ∧ (writes q = true →
        change_of q = Some change ∧ drained change (NetworkConsensusHandler.state h')))
     ∨ (writes p = true ∧ writes q = false ∧ ∃ e', settled e' h')).
Proof.
  intros Hp Hc Hb Hd Hs Ha.
  destruct p as [rq|sub|sub|sub f|ds|rep|rep fl rc|slot ds|slot ids|slot ids ck|ch nx ds|ch nx|ch nx|r];
    try done.
  - destruct rq as [| | | | | |ch nx]; try done. simpl in Hc. injection Hc as <-. simpl in Ha.
    destruct (NetworkConsensusHandler.change_begin ch nx h) as [h1 r] eqn:Hbegin.
    injection Ha as <- <-.
    apply (change_begin_settled (content:=content) opens e) in Hbegin as [Hs1 Hdr]; [|done..]. destruct r as [[ds|]|]; simpl.
    + split_and!; [split; [by intros ? ?%elem_of_nil|apply Hb]|done|]. left. split; [done|].
      intros _. split; [done|]. by eapply Hdr.
    + split_and!; [by apply brings_quiet|done|by left].
    + split_and!; [by apply brings_quiet|done|by left].
  - simpl in Hc. injection Hc as <-. simpl in Ha.
    destruct (NetworkConsensusHandler.disseminate_all _ _ _) as [[[]|]|]; [..|done];
      injection Ha as <- <-; simpl.
    + split_and!; [split; [by intros ? ?%elem_of_nil|apply Hb]|done|]. left. split; [done|].
      intros _. split; [done|]. by apply Hd.
    + split_and!; [by apply brings_quiet|done|by left].
  - simpl in Hc. injection Hc as <-. simpl in Ha.
    destruct (NetworkConsensusHandler.install_acks _ _ _) as [[[]|]|]; [..|done];
      injection Ha as <- <-; simpl.
    + split_and!; [split; [by intros ? ?%elem_of_nil|apply Hb]|done|]. left. split; [done|].
      intros _. split; [done|]. by apply Hd.
    + split_and!; [by apply brings_quiet|done|by left].
  - simpl in Hc. injection Hc as <-. simpl in Ha.
    destruct (change_activate_settled (content:=content) opens e ch nx h) as [e' He'];
      [by apply Hb|by apply Hd|done|].
    destruct (NetworkConsensusHandler.change_activate ch nx h) as [h1 r]. injection Ha as <- <-.
    split_and!; [by destruct r; apply brings_quiet|by destruct r|]. right.
    split_and!; [done|by destruct r|by exists e'].
Qed.

(** ** The invariant *)

Record node_in self : Prop := {
  ni_node : settled (epoch_of_node (node self)) (node self);
  ni_tasks : ∀ id p, tasks self !! id = Some p →
    brings_in p ∧ drives_in (epoch_of_node (node self)) p;
  ni_gate : ∀ id p, tasks self !! id = Some p → writes p = true →
    (∀ id' p', id' ≠ id → tasks self !! id' = Some p' → writes p' = false ∧ reads_gate p' = false)
    ∧ ∀ change, change_of p = Some change →
        drained change (NetworkConsensusHandler.state (node self));
}.

(** Membership changes brought from outside are ordered ones, transfers come
    from a node, and a node that has saved nothing starts in an epoch open
    from the first slot. *)
Definition enters (a : action V St E X) : Prop :=
  match a with
  | Spawn _ rq => brings_in (Arrived rq)
  | Restart config _ store _ _ =>
      content store = None → opens (ReplicaRuntimeConfig.cluster config) 1
  | _ => True
  end.

Lemma writes_change p : writes p = true → ∃ change, change_of p = Some change.
Proof. destruct p; try done; intros _; by eexists. Qed.

(** While a change holds the gate, no other request moves. *)
Lemma gate_keeps_out self id p id' p' which i h q :
  node_in self → tasks self !! id' = Some p' → writes p' = true → id' ≠ id →
  tasks self !! id = Some p → gate_open self p = true →
  advance network ord which i p (node self) = Some (h, q) → False.
Proof.
  intros Hin Hp' Hw Hne Hp Hg Ha. destruct (ni_gate _ Hin _ _ Hp' Hw) as [Hex _].
  destruct (Hex id p) as [Hwp Hrp]; [done..|].
  assert (map_Forall (λ _ r, writes r = false) (tasks self) → False) as Hno.
  { intros Hall. specialize (Hall _ _ Hp'). simpl in Hall. congruence. }
  destruct p as [rq| | | | | | | | | | | | |]; simpl in *; try done.
  destruct rq; simpl in Hg; apply bool_decide_eq_true in Hg; apply Hno; try done.
  intros j r Hj. by destruct (Hg _ _ Hj).
Qed.

Lemma step_steady self id p which i h q :
  node_ok (claims_of self) (node self) → allowed (content:=content) self (Step id which i) →
  node_in self → tasks self !! id = Some p → gate_open self p = true →
  advance network ord which i p (node self) = Some (h, q) → change_of p = None →
  node_in (mk h (<[id := q]> (tasks self)) (proposing q ++ proposed self)).
Proof.
  intros Hok [Hl Htr] Hin Hp Hg Ha Hc. destruct (ni_tasks _ Hin _ _ Hp) as [Hb Hdr].
  pose proof (ni_node _ Hin) as Hs. set (e := epoch_of_node (node self)) in *.
  assert (steady e h q) as (Hs1 & Hb1 & Hc1).
  { eapply advance_steady; [done|by apply (Hl id)|done..]. }
  assert (tracked (content:=content) (claims_of self) h p q) as [_ Hq].
  { eapply advance_tracked; [done|by apply (Hl id)| |done].
    intros tr ->. by apply Htr. }
  assert (epoch_of_node h = e) as He by apply Hs1.
  split; simpl; rewrite ?He; [done| |].
  - intros j r. rewrite lookup_insert_Some. intros [[_ <-]|[_ Hj]]; [|by eapply ni_tasks].
    split; [done|]. intros f [(f0 & Hin0 & <- & _)|Harm]%Hq; [by apply Hdr|].
    by apply (se_state _ _ _ Hs1) in Harm.
  - intros j r. rewrite lookup_insert_Some. intros [[_ <-]|[Hne Hj]] Hw.
    + apply writes_change in Hw as [ch Hw]. congruence.
    + exfalso. by eapply (gate_keeps_out self id p j r).
Qed.

Lemma step_change self id p which i h q change :
  node_ok (claims_of self) (node self) → node_in self → tasks self !! id = Some p →
  gate_open self p = true → advance network ord which i p (node self) = Some (h, q) →
  change_of p = Some change →
  node_in (mk h (<[id := q]> (tasks self)) (proposing q ++ proposed self)).
Proof.
  intros Hok Hin Hp Hg Ha Hc. destruct (ni_tasks _ Hin _ _ Hp) as [Hb _].
  pose proof (ni_node _ Hin) as Hs. set (e := epoch_of_node (node self)) in *.
  assert (∀ j r, j ≠ id → tasks self !! j = Some r → writes r = false ∧ reads_gate r = false) as Hex.
  { intros j r Hne Hj. destruct (writes p) eqn:Hw; [by eapply (ni_gate _ Hin id p)|].
    destruct p as [[]| | | | | | | | | | | | |]; simpl in Hc, Hw; try done.
    simpl in Hg. apply bool_decide_eq_true in Hg. by apply (Hg j r). }
  assert (drives_in (epoch_of_node h) q ∧ brings_in q) as Hq.
  { destruct (advance_change e which i p change (node self) h q) as (? & Hf & _); try done;
      [apply Hok|intros Hw; by apply (ni_gate _ Hin id p)|].
    split; [|done]. intros f. by rewrite Hf, elem_of_nil. }
  assert (∃ e', settled e' h) as [e' Hs'].
  { destruct (advance_change e which i p change (node self) h q) as (_ & _ & [[? _]|(_ & _ & ?)]);
      try done; [apply Hok|intros Hw; by apply (ni_gate _ Hin id p)|by exists e]. }
  split; simpl.
  - by rewrite (se_epoch _ _ _ Hs' : epoch_of_node h = e').
  - intros j r. rewrite lookup_insert_Some. intros [[_ <-]|[Hne Hj]]; [tauto|].
    split; [by eapply ni_tasks|]. destruct (Hex j r) as [??]; [done..|]. by apply idle_drives.
  - intros j r. rewrite lookup_insert_Some. intros [[<- <-]|[Hne Hj]] Hw.
    + split.
      * intros j' r' Hne'. rewrite lookup_insert_ne by done. by apply Hex.
      * destruct (advance_change e which i p change (node self) h q) as (_ & _ & [[_ Hd]|(_ & Hwq & _)]);
          try done; [apply Hok|intros Hwp; by apply (ni_gate _ Hin id p)| |congruence].
        destruct (Hd Hw) as [Hcq Hdr]. intros ch Hch. congruence.
    + destruct (Hex j r) as [??]; [done..|congruence].
Qed.

Lemma step_in self self' a :
  node_ok (claims_of self) (node self) → step network ord self a = Some self' →
  allowed (content:=content) self a → enters a → node_in self → node_in self'.
Proof.
  intros Hok Hs Hal Hen Hin. destruct a as [id rq|id which i|id|config rs store machine noop]; simpl in Hs.
  - destruct (tasks self !! id) eqn:Hid; [done|]. simplify_eq. split; simpl; [apply Hin|..].
    + intros j p. rewrite lookup_insert_Some. intros [[_ <-]|[_ Hj]]; [|by eapply ni_tasks].
      split; [done|by apply idle_drives].
    + intros j p. rewrite lookup_insert_Some. intros [[_ <-]|[Hne Hj]] Hw; [done|].
      destruct (ni_gate _ Hin j p Hj Hw) as [Hex Hd]. split; [|done].
      intros j' p' Hne'. rewrite lookup_insert_Some. intros [[_ <-]|[_ Hj']]; [done|by eapply Hex].
  - destruct (tasks self !! id) as [p|] eqn:Hp; [|done].
    destruct (gate_open self p) eqn:Hg; [simpl in Hs|done].
    destruct (advance _ _ _ _ _ _) as [[h q]|] eqn:Ha; [|done]. injection Hs as <-.
    destruct (change_of p) as [change|] eqn:Hc; [by eapply step_change|by eapply step_steady].
  - simplify_eq. split; simpl; [apply Hin|..].
    + intros j p [_ Hj]%lookup_delete_Some. by eapply ni_tasks.
    + intros j p [_ Hj]%lookup_delete_Some Hw. destruct (ni_gate _ Hin j p Hj Hw) as [Hex Hd].
      split; [|done]. intros j' p' Hne [_ Hj']%lookup_delete_Some. by eapply Hex.
  - destruct Hal as (Hc & -> & _). unfold boot in Hs.
    destruct (NetworkConsensusHandler.new _ _ _ _) as [h|] eqn:Hnew; [|done]. simplify_eq.
    apply (new_settled (content:=content) opens) in Hnew as Hset; [| |done].
    + split; simpl; [|by intros j p; rewrite lookup_empty..].
      by rewrite (se_epoch _ _ _ Hset : epoch_of_node h = _).
    + rewrite Hc. apply (ni_node _ Hin).
Qed.
End running.
