(* ===== verification/Cluster.v ===== *)
(** * A whole cluster: nodes, their proposers and the recorders

  The composition of the development. The nodes of [NodeTasks] run their
  requests; every batch a node proposes is driven by the asynchronous proposer,
  phase by phase, against the recorders of [System]; the decisions that come
  out flow back to the node that proposed, and to others as delivered decisions
  and state transfers. The membership changes along a chain of epochs: nodes
  install the next epoch, or join in it with a state transfer. What [System]
  assumes of its callers (a replica proposes one batch per slot, and in the
  slots of its epoch) and what [NodeSources] is relative to (the decisions a
  node is handed) are proved here, so that agreement and validity hold for what
  applications execute and clients are told. *)
From S2P Require Import Prelude Errors Types Membership Isr Recorder Proposer Consensus Epochs System.
From S2P Require Import Replica Policy Schedule Runtime RuntimeSteps RuntimeInvariant Delivery.
From S2P Require Import Wire AsyncProposer NodeRuntime NodeTasks NodeClaims NodeDurable NodeSources NodeEpochs.

(** ** Replaying a proposer *)

Section replay.
Context {R : Type} `{!PrioritySource R} {V : Type} `{EqDecision V}.
Abbreviation arrivals := (list (ReplicaId * Result (RecordReply.t V))).
Implicit Types self : AsyncProposerCore.t R.

(** What a proposer met: the completed futures of each of its phases. *)
Definition replay (script : list arrivals) (requests : list (ReplicaId * RecordRequest.t V))
    : list arrivals * arrivals :=
  match script with [] => ([], []) | arrived :: script => (script, arrived) end.

(** The checks of [propose] before its loop. *)
Definition prepared self (value_ids : list V) (leader : option ReplicaId)
    (recorders : list ReplicaId) : Result (Proposal.t V) :=
  let? _ := AsyncProposerCore.validate_recorders recorders (AsyncProposerCore.replica_id self)
              (AsyncProposerCore.cluster self) in
  let? _ := match leader with
            | Some leader =>
                reject negb (ClusterIdentity.contains (AsyncProposerCore.cluster self) leader)
                  with QuePaxaError.UnknownReplica leader ;;
                Ok tt
            | None => Ok tt
            end in
  Proposal.new (ProposalKey.new Priority.MAX (AsyncProposerCore.replica_id self)
                  (AsyncProposerCore.lane_id self)) value_ids.

Lemma propose_prepared {X} network fuel self (x : X) slot value_ids leader recorders proposal :
  prepared self value_ids leader recorders = Ok proposal →
  AsyncProposerCore.propose network fuel self x slot value_ids leader recorders
  = AsyncProposerCore.drive network fuel self x slot leader recorders Step.ROUND_ONE_PHASE_ZERO proposal.
Proof. intros Hp. unfold AsyncProposerCore.propose. unfold prepared in Hp. by rewrite Hp. Qed.

(** More fuel changes nothing once the proposer has returned. *)
Lemma drive_fuel {X} network fuel more self (x : X) slot leader recorders step (proposal : Proposal.t V) r :
  (AsyncProposerCore.drive network fuel self x slot leader recorders step proposal).2 = Some r →
  (AsyncProposerCore.drive network (fuel + more) self x slot leader recorders step proposal).2 = Some r.
Proof.
  revert self x step proposal. induction fuel as [|fuel IH]; intros self x step proposal.
  - simpl. destruct (_ <? step) eqn:Hm; [|done]. destruct more; simpl; by rewrite Hm.
  - simpl. destruct (_ <? step); [done|].
    destruct (AsyncProposerCore.requests_for _ _ _ _ _ _) as [self1 [requests|e]]; [|done].
    destruct (network x _) as [x1 arrived].
    destruct (AsyncProposerCore.collect_quorum _ _ _ _ _) as [[replies|e]|]; [|done..].
    destruct (AsyncProposerCore.after_replies _ _ _ _ _) as [[d|[step' proposal']]|e]; [done| |done].
    apply IH.
Qed.

(** A proposer that met nobody decides nothing. *)
Lemma drive_alone fuel self slot leader recorders step (proposal : Proposal.t V) d :
  (AsyncProposerCore.drive replay fuel self [] slot leader recorders step proposal).2 ≠ Some (Ok d).
Proof.
  destruct fuel as [|fuel]; simpl; (destruct (_ <? step); [done|]); [done|].
  destruct (AsyncProposerCore.requests_for _ _ _ _ _ _) as [self1 [requests|e]]; [|done].
  unfold AsyncProposerCore.collect_quorum. simpl. by destruct (_ =? 0).
Qed.

(** One phase. *)
Lemma drive_phase fuel self self' arrived script slot leader recorders step (proposal : Proposal.t V)
    requests replies outcome :
  step ≤ AsyncProposerCore.max_steps self →
  AsyncProposerCore.requests_for self slot leader step proposal recorders = (self', Ok requests) →
  AsyncProposerCore.collect_quorum recorders requests
    (ClusterIdentity.quorum_size (AsyncProposerCore.cluster self)) (AsyncProposerCore.cluster self)
    arrived = Some (Ok replies) →
  AsyncProposerCore.after_replies slot leader step proposal replies = Ok outcome →
  (AsyncProposerCore.drive replay (S fuel) self (arrived :: script) slot leader recorders step proposal).2
  = match outcome with
    | inl d => Some (Ok d)
    | inr (step', proposal') =>
        (AsyncProposerCore.drive replay fuel self' script slot leader recorders step' proposal').2
    end.
Proof.
  intros Hm Hr Hc Ha. simpl. rewrite (proj2 (Z.ltb_ge _ _)) by lia. rewrite Hr.
  apply requests_for_eq in Hr as (_ & -> & _). rewrite Hc, Ha. by destruct outcome as [|[]].
Qed.
End replay.

Module WholeCluster.
Section cluster.
Context {V : Type} `{Countable V} {St E : Type}.
Context `{!RuntimeStateStore V St, !StateMachine V E}.
Context {content : St → option (RuntimeSnapshot.t V)} `{!RuntimeStateStoreLaws V St content}.
Context (ord : relation V) `{!RelDecision ord}.
(** The epochs of the deployment, and the lane each replica proposes on. *)
Context (c : chain) (lane_of : ReplicaId → LaneId).
Abbreviation machine := (E * list (Decision.t V))%type.
Abbreviation node := (Node.t V St machine).
Abbreviation arrivals := (list (ReplicaId * Result (RecordReply.t V))).
Abbreviation system_state := (System.state V OsRandom.t).
Abbreviation action := (Node.action V St machine (list arrivals)).
Implicit Types (n : node) (σ : system_state).

(** A proposer that a node started: its parameters, the randomness it opened
    and what it has met so far. *)
Record run : Type := Run {
  runner : ReplicaId;
  run_slot : SlotIndex;
  run_values : list V;
  run_leader : ReplicaId;
  run_recorders : list ReplicaId;
  run_cluster : ClusterIdentity.t;
  run_rng : OsRandom.t;
  script : list arrivals;
}.

Record t : Type := mk {
  system : system_state;
  nodes : gmap Z node;
  runs : gmap nat run;
  transfers : list (StateTransferSnapshot.t V);
}.
Implicit Types χ : t.

Definition proposer (e : ClusterIdentity.t) (k : ReplicaId) (rng : OsRandom.t)
    : AsyncProposerCore.t OsRandom.t :=
  AsyncProposerCore.with_rng k (lane_of k) e rng.

Definition met (r : run) (arrived : arrivals) : run :=
  Run (runner r) (run_slot r) (run_values r) (run_leader r) (run_recorders r) (run_cluster r)
      (run_rng r) (script r ++ [arrived]).

(** The whole proposer of a run, replayed. *)
Definition outcome (r : run) (fuel : nat) : option (Result (Decision.t V)) :=
  (AsyncProposerCore.propose replay fuel (proposer (run_cluster r) (runner r) (run_rng r)) (script r)
     (run_slot r) (run_values r) (Some (run_leader r)) (run_recorders r)).2.

(** The decisions a node has executed, oldest first. *)
Definition history n : list (Decision.t V) :=
  (NetworkConsensusHandler.state_machine (Node.node n)).2.

(** The decisions the node told clients. *)
Definition answers n : list (Decision.t V) :=
  (map_to_list (Node.tasks n)).*2 ≫= λ p,
    match p with
    | Node.Answering (Ok (Node.Outcome (SubmissionOutcome.Committed d))) => [d]
    | Node.Answering (Ok (Node.Recovered ds)) => ds
    | _ => []
    end.

(** The state transfers it answered with. *)
Definition exports n : list (StateTransferSnapshot.t V) :=
  (map_to_list (Node.tasks n)).*2 ≫= λ p,
    match p with Node.Answering (Ok (Node.Exported transfer)) => [transfer] | _ => [] end.

(** A proposer that returns a decision is one that ran here: same node, slot,
    batch, leader, recorders and epoch, and the network it met is what its run met. *)
Definition ran_here χ (k : ReplicaId) n (f : Node.proposal V) (leader : ReplicaId)
    (i : Node.input (list arrivals)) : Prop :=
  ∀ d, NetworkConsensusHandler.run_proposer replay (Node.fuel i) (Node.node n) (Node.entropy i)
         (Node.net i) (Node.at_slot f) (Node.batch f) leader = Some (Ok d) →
  ∃ j r, runs χ !! j = Some r
    ∧ r = Run k (Node.at_slot f) (Node.batch f) leader
              (NetworkConsensusHandler.recorders (Node.node n)) (epoch_of_node (Node.node n))
              (run_rng r) (Node.net i)
    ∧ Node.entropy i = Ok (run_rng r).

(** What comes to a node from outside: decisions that were decided, transfers
    that a node of the cluster made, membership changes that were ordered, its
    own configuration (of the first epoch, if it has saved nothing), and an
    application that executed nothing the node did not. *)
Definition brings χ (k : ReplicaId) n (a : action) : Prop :=
  match a with
  | Node.Spawn _ (Node.ReceiveDecisions ds) => ∀ d, d ∈ ds → d ∈ System.decided (system χ)
  | Node.Spawn _ (Node.InstallStateTransfer transfer) => transfer ∈ transfers χ
  | Node.Spawn _ (Node.InstallMembership change _) => ∃ m, ordered c (system χ) m change
  | Node.Spawn _ _ | Node.Drop _ => True
  | Node.Step id which i =>
      ∀ p f leader, Node.tasks n !! id = Some p → moving which p = Some f →
        Node.stage f = Node.Proposing leader → ran_here χ k n f leader i
  | Node.Restart config _ store machine _ =>
      identity_of config = (k, lane_of k)
      ∧ (content store = None → ReplicaRuntimeConfig.cluster config = first_epoch c)
      ∧ ∀ d, d ∈ machine.2 → d ∈ history n
  end.

(** What a phase of a proposer of epoch [e] leads to. *)
Definition finish (e : ClusterIdentity.t) σ (i : nat) (ses : session V OsRandom.t) (o : Decision.t V + Z * Proposal.t V)
    : system_state :=
  match o with
  | inl d => log_decision (end_session σ i) e d
  | inr (step, proposal) => set_session σ i (continue ses step proposal)
  end.

(** The recorders move: they serve, refuse, learn, prune, restart, install the
    next epoch, join. *)
Definition recorder_step σ σ' : Prop :=
  System.transition c σ σ' ∧ sessions σ' = sessions σ ∧ started σ' = started σ
  ∧ sent σ' = sent σ ∧ decided_in σ' = decided_in σ.

(** A node that joins later starts fresh and installs a state transfer before it
    takes requests. *)
Inductive transition χ : t → Prop :=
| Move k n n' a :
    nodes χ !! k = Some n → Node.step replay ord n a = Some n' →
    allowed (content:=content) n a → brings χ k n a →
    transition χ (mk (system χ) (<[k := n']> (nodes χ)) (runs χ) (exports n' ++ transfers χ))
| Begin i k n id p f leader rng proposal :
    nodes χ !! k = Some n → Node.tasks n !! id = Some p → f ∈ flights_of p →
    Node.stage f = Node.Proposing leader →
    sessions (system χ) !! i = None → runs χ !! i = None →
    let recorders := NetworkConsensusHandler.recorders (Node.node n) in
    let e := epoch_of_node (Node.node n) in
    prepared (proposer e k rng) (Node.batch f) (Some leader) recorders = Ok proposal →
    transition χ
      (mk (log_start (set_session (system χ) i
             (Session (synchronous (proposer e k rng)) (Node.at_slot f) (Some leader) recorders
                (ClusterIdentity.quorum_size e) [] Step.ROUND_ONE_PHASE_ZERO proposal None))
             (Node.at_slot f, (k, lane_of k, Node.batch f)))
          (nodes χ)
          (<[i := Run k (Node.at_slot f) (Node.batch f) leader recorders e rng []]> (runs χ))
          (transfers χ))
| Send i ses self self' reqs :
    sessions (system χ) !! i = Some ses → requests ses = None → core ses = synchronous self →
    at_step ses ≤ AsyncProposerCore.max_steps self →
    AsyncProposerCore.requests_for self (slot ses) (leader ses) (at_step ses) (carrying ses)
      (endpoints ses) = (self', Ok reqs) →
    transition χ
      (mk (log_sent (set_session (system χ) i
             (launch_phase ses (synchronous self') (zip (endpoints ses) reqs)))
             (zip (endpoints ses) reqs))
          (nodes χ) (runs χ) (transfers χ))
| Collect i ses r reqs arrived replies o :
    sessions (system χ) !! i = Some ses → runs χ !! i = Some r →
    requests ses = Some (zip (endpoints ses) reqs) →
    len arrived ≤ len (zip (endpoints ses) reqs) →
    (∀ k reply, (k, Ok reply) ∈ arrived →
       ∃ req, (k, req) ∈ zip (endpoints ses) reqs ∧ (k, req, reply) ∈ answered (system χ)) →
    AsyncProposerCore.collect_quorum (endpoints ses) reqs
      (ClusterIdentity.quorum_size (run_cluster r)) (run_cluster r) arrived = Some (Ok replies) →
    AsyncProposerCore.after_replies (slot ses) (leader ses) (at_step ses) (carrying ses) replies = Ok o →
    transition χ
      (mk (finish (run_cluster r) (system χ) i ses o) (nodes χ) (<[i := met r arrived]> (runs χ)) (transfers χ))
| Cease i ses :
    sessions (system χ) !! i = Some ses →
    transition χ (mk (end_session (system χ) i) (nodes χ) (runs χ) (transfers χ))
| Recorders σ' :
    recorder_step (system χ) σ' →
    transition χ (mk σ' (nodes χ) (runs χ) (transfers χ))
| Enter k config recorders store machine transfer h0 h :
    nodes χ !! k = None → content store = None → config_ok (ReplicaRuntimeConfig.replica config) →
    identity_of config = (k, lane_of k) → machine.2 = [] →
    NetworkConsensusHandler.new config recorders store machine = Ok h0 →
    transfer ∈ transfers χ →
    NetworkConsensusHandler.install_state_transfer transfer h0 = (h, Ok tt) →
    transition χ (mk (system χ) (<[k := Node.mk h ∅ []]> (nodes χ)) (runs χ) (transfers χ)).

(** Every node starts on an empty store and with a fresh application. *)
Definition fresh_node (k : ReplicaId) n : Prop :=
  ∃ config recorders store machine h,
    content store = None ∧ config_ok (ReplicaRuntimeConfig.replica config)
    ∧ identity_of config = (k, lane_of k) ∧ ReplicaRuntimeConfig.cluster config = first_epoch c
    ∧ machine.2 = []
    ∧ NetworkConsensusHandler.new config recorders store machine = Ok h ∧ n = Node.mk h ∅ [].

Definition initial χ : Prop :=
  System.initial c (system χ) ∧ (∀ k n, nodes χ !! k = Some n → fresh_node k n)
  ∧ runs χ = ∅ ∧ transfers χ = [].

Definition reachable χ : Prop := ∃ χ0, initial χ0 ∧ rtc transition χ0 χ.
End cluster.
End WholeCluster.
