(* ===== verification/ClusterSafety.v ===== *)
(** * State machine replication, end to end

  The invariant of a running cluster ties every layer to the next: sessions of
  the protocol to the proposers of nodes, proposals in the protocol to batches
  nodes hold claims for in slots of their epoch, decisions in nodes to decisions
  of the protocol. With
  it the cluster is a run of [System], and what is proved there is true of the
  applications behind the nodes. *)
From S2P Require Import Prelude Errors Types Membership Isr Recorder Proposer Consensus Epochs System.
From S2P Require Import Replica Policy Schedule Runtime RuntimeSteps RuntimeInvariant Delivery.
From S2P Require Import Wire AsyncProposer NodeRuntime NodeTasks NodeClaims NodeDurable NodeSources NodeEpochs Cluster.
Import WholeCluster.

(** ** Batches that a node proposes *)

Section proposing.
Context {V : Type} `{Countable V} {St E X : Type}.
Context `{!RuntimeStateStore V St, !StateMachine V E}.
Context (network : X → list (ReplicaId * RecordRequest.t V) →
                   X * list (ReplicaId * Result (RecordReply.t V))).
Context (ord : relation V) `{!RelDecision ord}.
Import Node.
Implicit Types n : Node.t V St E.

(** The batches of running proposers are on record, and stay there. *)
Definition on_record n : Prop :=
  ∀ id p s v, tasks n !! id = Some p → (s, v) ∈ proposing p → (s, v) ∈ proposed n.

Lemma step_on_record n n' a :
  step network ord n a = Some n' → on_record n → on_record n' ∧ proposed n ⊆ proposed n'.
Proof.
  intros Hs Hr. destruct a as [id rq|id which i|id|config rs store machine noop]; simpl in Hs.
  - destruct (tasks n !! id); [done|]. simplify_eq. split; [|done]. intros j p s v.
    simpl. rewrite lookup_insert_Some. intros [[_ <-]|[_ Hj]]; [by intros ?%elem_of_nil|by eapply Hr].
  - destruct (tasks n !! id) as [p|]; [|done]. destruct (negb _); [done|].
    destruct (advance _ _ _ _ _ _) as [[h q]|]; [|done]. simplify_eq. split; simpl; [|set_solver].
    intros j p' s v. simpl. rewrite lookup_insert_Some, elem_of_app.
    intros [[_ <-]|[_ Hj]]; [by left|right; by eapply Hr].
  - simplify_eq. split; [|done]. intros j p s v. simpl. rewrite lookup_delete_Some.
    intros [_ ?]. by eapply Hr.
  - destruct (boot _ _ _ _ _); [|done]. simplify_eq. split; [|done]. intros j p s v. simpl.
    by rewrite lookup_empty.
Qed.

Lemma flight_on_record n id p f leader :
  on_record n → tasks n !! id = Some p → f ∈ flights_of p → stage f = Proposing leader →
  (at_slot f, batch f) ∈ proposed n.
Proof.
  intros Hr Hp Hf Hst. apply (Hr id p); [done|].
  assert ((at_slot f, batch f) ∈ in_flight f) as Hin by (unfold in_flight; rewrite Hst; left).
  destruct p; simpl in Hf |- *; try by apply elem_of_nil in Hf.
  - by apply list_elem_of_singleton in Hf as ->.
  - apply list_elem_of_bind. eauto.
Qed.
End proposing.

Section safety.
Context {V : Type} `{Countable V} {St E : Type}.
Context `{!RuntimeStateStore V St, !StateMachine V E}.
Context {content : St → option (RuntimeSnapshot.t V)} `{!RuntimeStateStoreLaws V St content}.
Context (ord : relation V) `{!RelDecision ord}.
Context (c : chain) (lane_of : ReplicaId → LaneId) (Hchain : chain_ok c).
Abbreviation machine := (E * list (Decision.t V))%type.
Abbreviation node := (Node.t V St machine).
Abbreviation cluster := (WholeCluster.t (V:=V) (St:=St) (E:=E)).
Abbreviation outcome := (WholeCluster.outcome lane_of).
Abbreviation proposer := (WholeCluster.proposer lane_of).
Abbreviation transition := (WholeCluster.transition (content:=content) ord c lane_of).
Implicit Types (n : node) (σ : System.state V OsRandom.t) (χ : cluster).

(** ** The invariant *)

(** A node without requests has no claims. *)
Lemma no_claims (h : NetworkConsensusHandler.t V St machine) s v :
  ¬ claims_of (Node.mk h ∅ []) s v.
Proof. intros [?%elem_of_nil|(j & p & f & Hp & _)]; [done|]. simpl in Hp. by rewrite lookup_empty in Hp. Qed.

Lemma prepared_new (self : AsyncProposerCore.t OsRandom.t) (value_ids : list V) leader recorders proposal :
  prepared self value_ids leader recorders = Ok proposal →
  Proposal.new (ProposalKey.new Priority.MAX (AsyncProposerCore.replica_id self)
                  (AsyncProposerCore.lane_id self)) value_ids = Ok proposal.
Proof.
  unfold prepared. destruct (AsyncProposerCore.validate_recorders _ _ _); [|done].
  by destruct (match leader with Some _ => _ | None => _ end).
Qed.

(** A run with a live session: replaying what it has met leads to where the
    session is, whatever it meets next. *)
Record live (r : run) (ses : session V OsRandom.t) (self : AsyncProposerCore.t OsRandom.t) : Prop := {
  lv_slot : slot ses = run_slot r;
  lv_leader : leader ses = Some (run_leader r);
  lv_endpoints : endpoints ses = run_recorders r;
  lv_quorum : quorum ses = ClusterIdentity.quorum_size (run_cluster r);
  lv_known : System.known ses = [];
  lv_cluster : AsyncProposerCore.cluster self = run_cluster r;
  lv_epoch : ∃ m, epoch_of c m = Some (run_cluster r);
  lv_phase : match requests ses with
             | None => core ses = synchronous self
             | Some launched =>
                 at_step ses ≤ AsyncProposerCore.max_steps self
                 ∧ ∃ self' reqs, AsyncProposerCore.requests_for self (slot ses) (leader ses)
                     (at_step ses) (carrying ses) (endpoints ses) = (self', Ok reqs)
                   ∧ launched = zip (endpoints ses) reqs ∧ core ses = synchronous self'
             end;
  lv_replay : ∀ fuel rest,
    (AsyncProposerCore.propose replay (length (script r) + fuel)
       (proposer (run_cluster r) (runner r) (run_rng r)) (script r ++ rest) (run_slot r) (run_values r)
       (Some (run_leader r)) (run_recorders r)).2
    = (AsyncProposerCore.drive replay fuel self rest (run_slot r) (Some (run_leader r))
         (run_recorders r) (at_step ses) (carrying ses)).2;
}.

Record cluster_ok χ : Prop := {
  co_system : System.reachable c (system χ);
  co_claims : ∀ k n, nodes χ !! k = Some n →
    node_ok (content:=content) (claims_of n) (Node.node n) ∧ on_record n;
  co_sources : ∀ k n, nodes χ !! k = Some n →
    node_from (content:=content) (k, lane_of k) (λ d, d ∈ System.decided (system χ)) n;
  co_epochs : ∀ k n, nodes χ !! k = Some n → node_in (content:=content) (opens c) n;
  co_started : ∀ s o, (s, o) ∈ System.started (system χ) →
    ∃ n, nodes χ !! o.1.1 = Some n ∧ o.1.2 = lane_of o.1.1 ∧ (s, o.2) ∈ Node.proposed n;
  co_transfers : ∀ tr, tr ∈ transfers χ →
    snapshot_from (λ d, d ∈ System.decided (system χ)) (StateTransferSnapshot.runtime tr)
    ∧ snapshot_in (opens c) (StateTransferSnapshot.runtime tr)
    ∧ genuine (StateTransferSnapshot.runtime tr);
  co_sessions : ∀ i ses, sessions (system χ) !! i = Some ses →
    ∃ r self, runs χ !! i = Some r ∧ live r ses self;
  co_runs : ∀ i r fuel d, runs χ !! i = Some r → outcome r fuel = Some (Ok d) →
    d ∈ System.decided (system χ);
}.

(** A live run has decided nothing. *)
Lemma live_undecided r ses self fuel d : live r ses self → outcome r fuel ≠ Some (Ok d).
Proof.
  intros Hl. unfold outcome. intros Ho.
  pose proof (lv_replay _ _ _ Hl fuel []) as Hr. rewrite app_nil_r in Hr.
  rewrite Nat.add_comm in Hr.
  enough ((AsyncProposerCore.propose replay (fuel + length (script r))
             (proposer (run_cluster r) (runner r) (run_rng r)) (script r) (run_slot r) (run_values r)
             (Some (run_leader r)) (run_recorders r)).2 = Some (Ok d)) as Hs.
  { rewrite Hs in Hr. symmetry in Hr. by apply drive_alone in Hr. }
  unfold AsyncProposerCore.propose in *. destruct (let? _ := _ in _); [|done]. by apply drive_fuel.
Qed.

(** ** The protocol moves *)

Lemma decided_grows σ σ' : System.transition c σ σ' → System.decided σ ⊆ System.decided σ'.
Proof.
  destruct 1; simpl; try done. rewrite decided_log_decision. change (System.decided (end_session σ i)) with (System.decided σ). set_solver.
Qed.

Lemma snapshot_from_mono (D D' : Decision.t V → Prop) snap :
  (∀ d, D d → D' d) → snapshot_from D snap → snapshot_from D' snap.
Proof. intros HD [Hl Hm]. split; [intros i e d ??; by eapply HD, Hl|intros i d ?; by eapply HD, Hm]. Qed.

(** A step of the protocol, the nodes being still. *)
Lemma protocol_step χ σ' rs :
  cluster_ok χ → System.transition c (system χ) σ' →
  (∀ s o, (s, o) ∈ System.started σ' →
     (s, o) ∈ System.started (system χ)
     ∨ ∃ n, nodes χ !! o.1.1 = Some n ∧ o.1.2 = lane_of o.1.1 ∧ (s, o.2) ∈ Node.proposed n) →
  (∀ i ses, sessions σ' !! i = Some ses → ∃ r self, rs !! i = Some r ∧ live r ses self) →
  (∀ i r fuel d, rs !! i = Some r → outcome r fuel = Some (Ok d) →
     runs χ !! i = Some r ∨ d ∈ System.decided σ') →
  cluster_ok (WholeCluster.mk σ' (nodes χ) rs (transfers χ)).
Proof.
  intros [Hsys Hcl Hso Hep Hst Htr Hse Hru] Hstep Hst' Hse' Hru'.
  pose proof (decided_grows _ _ Hstep) as Hd. split; simpl.
  - destruct Hsys as (σ0 & H0 & Hr). exists σ0. split; [done|]. by eapply rtc_r.
  - done.
  - intros k n Hk. eapply node_from_mono; [|by apply Hso]. set_solver.
  - done.
  - intros s o [Ho|Ho]%Hst'; [by apply Hst|done].
  - intros tr Hin. destruct (Htr tr Hin). split; [|done]. eapply snapshot_from_mono; [|done]. set_solver.
  - done.
  - intros i r fuel d Hr Ho. destruct (Hru' i r fuel d Hr Ho) as [?|?]; [|done].
    apply Hd. by eapply Hru.
Qed.

Lemma recorder_step_ok χ σ' :
  cluster_ok χ → recorder_step c (system χ) σ' →
  cluster_ok (WholeCluster.mk σ' (nodes χ) (runs χ) (transfers χ)).
Proof.
  intros Hok (Hstep & Hse & Hst & _ & Hd). apply protocol_step; try done.
  - rewrite Hst. by left.
  - rewrite Hse. apply Hok.
  - by left.
Qed.

Lemma cease_ok χ i ses :
  cluster_ok χ → sessions (system χ) !! i = Some ses →
  cluster_ok (WholeCluster.mk (end_session (system χ) i) (nodes χ) (runs χ) (transfers χ)).
Proof.
  intros Hok Hi. apply protocol_step; try done.
  - by eapply Abandon.
  - by left.
  - intros j ses'. simpl. rewrite lookup_delete_Some. intros [_ ?]. by apply Hok.
  - by left.
Qed.

(** A proposer that starts does so for a batch of its node. *)
Lemma begin_consistent χ k n s values :
  cluster_ok χ → nodes χ !! k = Some n → (s, values) ∈ Node.proposed n →
  consistent_start (system χ) s (k, lane_of k, values).
Proof.
  intros Hok Hk Hin o' Ho' Hid. simpl in Hid.
  destruct (co_started _ Hok _ _ Ho') as (n' & Hn' & Hlane & Hin'). rewrite Hid in Hn', Hlane.
  rewrite Hk in Hn'. injection Hn' as <-. destruct (co_claims _ Hok _ _ Hk) as [[_ [_ _ Hone] _] _].
  destruct o' as [[id lane] v]. simpl in *. subst. f_equal.
  eapply Hone; left; by left.
Qed.

Lemma begin_ok χ i k n id p f ld rng proposal :
  cluster_ok χ → nodes χ !! k = Some n → Node.tasks n !! id = Some p → f ∈ flights_of p →
  Node.stage f = Node.Proposing ld → sessions (system χ) !! i = None → runs χ !! i = None →
  let recorders := NetworkConsensusHandler.recorders (Node.node n) in
  let e := epoch_of_node (Node.node n) in
  prepared (proposer e k rng) (Node.batch f) (Some ld) recorders = Ok proposal →
  cluster_ok
    (WholeCluster.mk (log_start (set_session (system χ) i
         (Session (synchronous (proposer e k rng)) (Node.at_slot f) (Some ld) recorders
            (ClusterIdentity.quorum_size e) [] Step.ROUND_ONE_PHASE_ZERO proposal None))
         (Node.at_slot f, (k, lane_of k, Node.batch f)))
      (nodes χ)
      (<[i := Run k (Node.at_slot f) (Node.batch f) ld recorders e rng []]> (runs χ)) (transfers χ)).
Proof.
  intros Hok Hk Hp Hf Hst Hi Hri recorders e Hprep.
  destruct (co_claims _ Hok _ _ Hk) as [_ Hrec].
  pose proof (flight_on_record n id p f ld Hrec Hp Hf Hst) as Hin.
  destruct (proj2 (ni_tasks _ _ (co_epochs _ Hok _ _ Hk) id p Hp) f Hf) as (m & Hm & Hb).
  set (r := Run _ _ _ _ _ _ _ _). set (ses := Session _ _ _ _ _ _ _ _ _).
  assert (live r ses (proposer e k rng)) as Hlive.
  { split; try done; [by exists m|]. intros fuel rest. simpl. by rewrite (propose_prepared _ _ _ _ _ _ _ _ proposal). }
  apply protocol_step; try done.
  - apply (System.Start c (system χ) i m e (synchronous (proposer e k rng))); try done.
    + by eapply prepared_new.
    + by intros d ?%elem_of_nil.
    + by eapply begin_consistent.
  - intros s o. simpl. rewrite elem_of_app, list_elem_of_singleton. intros [?|[= -> ->]]; [by left|].
    right. by exists n.
  - intros j ses'. simpl. rewrite lookup_insert_Some. intros [[<- <-]|[Hne Hj]].
    + exists r, (proposer e k rng). by rewrite lookup_insert_eq.
    + rewrite lookup_insert_ne by done. by apply Hok.
  - intros j r' fuel d. rewrite lookup_insert_Some. intros [[_ <-]|[_ ?]] Ho; [|by left].
    by apply (live_undecided _ _ _ _ _ Hlive) in Ho.
Qed.

Lemma send_ok χ i ses self self' reqs :
  cluster_ok χ → sessions (system χ) !! i = Some ses → requests ses = None →
  core ses = synchronous self → at_step ses ≤ AsyncProposerCore.max_steps self →
  AsyncProposerCore.requests_for self (slot ses) (leader ses) (at_step ses) (carrying ses)
    (endpoints ses) = (self', Ok reqs) →
  cluster_ok (WholeCluster.mk
    (log_sent (set_session (system χ) i (launch_phase ses (synchronous self') (zip (endpoints ses) reqs)))
       (zip (endpoints ses) reqs)) (nodes χ) (runs χ) (transfers χ)).
Proof.
  intros Hok Hi Hnone Hcore Hmax Hreq. destruct (co_sessions _ Hok i ses Hi) as (r & self0 & Hr & Hl).
  pose proof (lv_phase _ _ _ Hl) as Hph. rewrite Hnone, Hcore in Hph. apply synchronous_inj in Hph as <-.
  assert (live r (launch_phase ses (synchronous self') (zip (endpoints ses) reqs)) self) as Hl'.
  { destruct Hl as [Hs Hld He Hq Hkn Hc Hep _ Hre]. split; simpl; try done. split; [done|].
    exists self', reqs. by split_and!. }
  pose proof (lv_known _ _ _ Hl) as Hkn.
  pose proof (requests_for_eq _ _ _ _ _ _ _ _ Hreq) as (Hph & _).
  apply protocol_step; try done.
  - eapply Launch; try done; [by rewrite Hcore|]. rewrite Hcore, Hkn. exact Hph.
  - by left.
  - intros j ses'. simpl. rewrite lookup_insert_Some. intros [[<- <-]|[Hne Hj]]; [by exists r, self|].
    by apply Hok.
  - by left.
Qed.

(** A phase of a live run: the protocol takes the same step, and the replay
    of the longer script goes there too. *)
Lemma collect_live ses r self reqs arrived replies o :
  live r ses self → requests ses = Some (zip (endpoints ses) reqs) →
  AsyncProposerCore.collect_quorum (endpoints ses) reqs
    (ClusterIdentity.quorum_size (run_cluster r)) (run_cluster r) arrived = Some (Ok replies) →
  AsyncProposerCore.after_replies (slot ses) (leader ses) (at_step ses) (carrying ses) replies = Ok o →
  match o with
  | inl d => ∀ fuel d', outcome (met r arrived) fuel = Some (Ok d') → d' = d
  | inr (step, proposal) =>
      ∃ self', live (met r arrived) (continue ses step proposal) self'
  end.
Proof.
  intros [Hs Hld He Hq Hkn Hc Hep Hph Hre] Hreq Hcol Haft. rewrite Hreq in Hph.
  destruct Hph as (Hmax & self' & reqs' & Hrf & Hzip & Hcore).
  rewrite Hs, Hld, He in *.
  assert (∀ fuel rest, (AsyncProposerCore.propose replay (length (script r) + S fuel)
            (proposer (run_cluster r) (runner r) (run_rng r)) (script r ++ arrived :: rest) (run_slot r)
            (run_values r) (Some (run_leader r)) (run_recorders r)).2
          = match o with
            | inl d => Some (Ok d)
            | inr (step', proposal') =>
                (AsyncProposerCore.drive replay fuel self' rest (run_slot r) (Some (run_leader r))
                   (run_recorders r) step' proposal').2
            end) as Hnext.
  { intros fuel rest. rewrite Hre. eapply drive_phase; try done. rewrite Hc.
    unfold AsyncProposerCore.collect_quorum in *. by rewrite <-Hzip. }
  destruct o as [d|[step proposal]].
  - intros fuel d' Ho. specialize (Hnext fuel []). unfold outcome in Ho. simpl in Ho.
    assert ((AsyncProposerCore.propose replay (length (script r) + S fuel)
            (proposer (run_cluster r) (runner r) (run_rng r)) (script r ++ [arrived]) (run_slot r)
            (run_values r) (Some (run_leader r)) (run_recorders r)).2 = Some (Ok d')) as Hd'.
    { replace (length (script r) + S fuel)%nat with (fuel + S (length (script r)))%nat by lia.
      unfold AsyncProposerCore.propose in *. destruct (let? _ := _ in _); [|done]. by apply drive_fuel. }
    congruence.
  - apply requests_for_eq in Hrf as (_ & Hcl & _). exists self'. split; simpl; try done; [congruence|].
    intros fuel rest. rewrite length_app. simpl.
    replace (length (script r) + 1 + fuel)%nat with (length (script r) + S fuel)%nat by lia.
    rewrite <-app_assoc. apply Hnext.
Qed.

Lemma collect_ok χ i ses r reqs arrived replies o :
  cluster_ok χ → sessions (system χ) !! i = Some ses → runs χ !! i = Some r →
  requests ses = Some (zip (endpoints ses) reqs) →
  len arrived ≤ len (zip (endpoints ses) reqs) →
  (∀ k reply, (k, Ok reply) ∈ arrived →
     ∃ req, (k, req) ∈ zip (endpoints ses) reqs ∧ (k, req, reply) ∈ answered (system χ)) →
  AsyncProposerCore.collect_quorum (endpoints ses) reqs
    (ClusterIdentity.quorum_size (run_cluster r)) (run_cluster r) arrived = Some (Ok replies) →
  AsyncProposerCore.after_replies (slot ses) (leader ses) (at_step ses) (carrying ses) replies = Ok o →
  cluster_ok (WholeCluster.mk (finish (run_cluster r) (system χ) i ses o) (nodes χ) (<[i := met r arrived]> (runs χ))
                (transfers χ)).
Proof.
  intros Hok Hi Hr Hreq Hlen Harr Hcol Haft.
  destruct (co_sessions _ Hok i ses Hi) as (r' & self & Hr' & Hl). rewrite Hr in Hr'. injection Hr' as <-.
  pose proof (collect_live ses r self reqs arrived replies o Hl Hreq Hcol Haft) as Hnext.
  destruct (lv_epoch _ _ _ Hl) as [m Hm].
  apply (collect_quorum_agrees (run_cluster r)) in Hcol;
    [|by eapply ch_typed|by eapply epoch_well_formed|done]. rewrite after_replies_eq in Haft.
  rewrite <-(lv_quorum _ _ _ Hl) in Hcol.
  assert (ProposerConfig.cluster (ProposerCore.config (core ses)) = Some (run_cluster r)) as Hcfg.
  { pose proof (lv_phase _ _ _ Hl) as Hph. rewrite Hreq in Hph.
    destruct Hph as (_ & self' & reqs' & Hrf & _ & ->). simpl. f_equal.
    apply requests_for_eq in Hrf as (_ & -> & _). apply Hl. }
  assert (∀ k reply, Arrival k (Ok reply) ∈ events (sync_io arrived) →
    ∃ req, (k, req) ∈ zip (endpoints ses) reqs ∧ (k, req, reply) ∈ answered (system χ)) as Harr'.
  { intros k reply. simpl. unfold sync_events. rewrite list_elem_of_fmap.
    intros ([k' r0] & [= -> <-] & Hin). by apply Harr. }
  destruct o as [d|[step proposal]]; simpl; apply protocol_step; try done.
  - eapply (Decide c); try done. by rewrite Hcfg.
  - by left.
  - intros j ses'. simpl. rewrite lookup_delete_Some. intros [Hne Hj].
    rewrite lookup_insert_ne by done. by apply Hok.
  - intros j r' fuel d'. rewrite lookup_insert_Some. intros [[_ <-]|[_ ?]] Ho; [right|by left].
    rewrite (Hnext fuel d' Ho), decided_log_decision. set_solver.
  - eapply (Advance c); try done. by rewrite Hcfg.
  - by left.
  - destruct Hnext as [self' Hl']. intros j ses'. simpl. rewrite lookup_insert_Some.
    intros [[<- <-]|[Hne Hj]]; [exists (met r arrived), self'; by rewrite lookup_insert_eq|].
    rewrite lookup_insert_ne by done. by apply Hok.
  - destruct Hnext as [self' Hl']. intros j r' fuel d'. rewrite lookup_insert_Some.
    intros [[_ <-]|[_ ?]] Ho; [|by left]. by apply (live_undecided _ _ _ _ _ Hl') in Ho.
Qed.

(** ** Nodes move *)

(** What comes to a node from outside is decided. *)
Lemma brings_inputs χ k n a :
  cluster_ok χ → nodes χ !! k = Some n → brings (content:=content) c lane_of χ k n a →
  inputs_from replay (k, lane_of k) (λ d, d ∈ System.decided (system χ)) n a.
Proof.
  intros Hok Hk Hb. destruct a as [id rq|id which i|id|config rs store machine noop]; simpl in *; try done.
  - destruct rq as [sub|ds| |sch|slot|tr|c' nx]; simpl in *; try done;
      try by apply pc_from_quiet.
    + split; simpl; [done|]. by intros ? ?%elem_of_nil.
    + split; simpl; [by intros ? ?%elem_of_nil|]. intros x ->%list_elem_of_singleton. by apply Hok.
  - intros p f Hp Hf leader d Hst Hrun.
    destruct (Hb p f leader Hp Hf Hst d Hrun) as (j & r & Hj & Hr & Hen).
    apply (co_runs _ Hok j r (Node.fuel i) d Hj). rewrite <-Hrun.
    unfold outcome, NetworkConsensusHandler.run_proposer. rewrite Hen, Hr. simpl.
    pose proof (so_identity _ _ _ (nf_node _ _ _ (co_sources _ Hok _ _ Hk))) as [= -> ->]. done.
  - tauto.
Qed.

(** ... and of its epoch. *)
Lemma brings_enters χ k n a :
  cluster_ok χ → brings (content:=content) c lane_of χ k n a →
  enters (content:=content) (opens c) a.
Proof.
  intros Hok Hb. destruct a as [id rq|id which i|id|config rs store machine noop]; simpl in *; try done.
  - destruct rq as [sub|ds| |sch|slot|tr|change nx]; try by apply brings_quiet.
    + split; [|done]. simpl. intros x ->%list_elem_of_singleton. by apply Hok.
    + split; [by intros ? ?%elem_of_nil|]. intros ? [= <-]. destruct Hb as (m & e & _ & Hn & Ha & _).
      by eapply opens_next.
  - destruct Hb as (_ & Hf & _). intros Hc. rewrite (Hf Hc). apply opens_first.
Qed.

Lemma exports_from me D n tr :
  node_from (content:=content) me D n → tr ∈ exports n →
  snapshot_from D (StateTransferSnapshot.runtime tr).
Proof.
  intros Hn (p & Htr & Hp)%list_elem_of_bind. apply list_elem_of_fmap in Hp as ([id p'] & -> & Hp).
  apply elem_of_map_to_list in Hp. destruct (nf_tasks _ _ _ Hn id p' Hp) as [_ Hf]. apply Hf.
  simpl in Htr. destruct p' as [| | | | | | | | | | | | |[[]|]]; try by apply elem_of_nil in Htr. done.
Qed.

Lemma exports_in n tr :
  node_in (content:=content) (opens c) n → tr ∈ exports n →
  snapshot_in (opens c) (StateTransferSnapshot.runtime tr)
  ∧ genuine (StateTransferSnapshot.runtime tr).
Proof.
  intros Hn (p & Htr & Hp)%list_elem_of_bind. apply list_elem_of_fmap in Hp as ([id p'] & -> & Hp).
  apply elem_of_map_to_list in Hp. destruct (ni_tasks _ _ Hn id p' Hp) as [[Hf _] _]. apply Hf.
  simpl in Htr. destruct p' as [| | | | | | | | | | | | |[[]|]]; try by apply elem_of_nil in Htr. done.
Qed.

Lemma move_ok χ k n n' a :
  cluster_ok χ → nodes χ !! k = Some n → Node.step replay ord n a = Some n' →
  allowed (content:=content) n a → brings (content:=content) c lane_of χ k n a →
  cluster_ok (WholeCluster.mk (system χ) (<[k := n']> (nodes χ)) (runs χ) (exports n' ++ transfers χ)).
Proof.
  intros Hok Hk Hs Hal Hb. destruct (co_claims _ Hok _ _ Hk) as [Hcl Hrec].
  pose proof (step_from replay ord _ _ n n' a Hcl Hs Hal (brings_inputs _ _ _ _ Hok Hk Hb)
                (co_sources _ Hok _ _ Hk)) as Hfrom.
  pose proof (step_claims replay ord n n' (ex_intro _ a (conj Hs Hal)) Hcl) as Hcl'.
  destruct (step_on_record replay ord n n' a Hs Hrec) as [Hrec' Hgrow].
  pose proof (step_in replay ord (opens c) (opens_later c) n n' a Hcl Hs Hal
                (brings_enters _ _ _ _ Hok Hb) (co_epochs _ Hok _ _ Hk)) as Hep.
  split; simpl; try apply Hok.
  - intros j m. rewrite lookup_insert_Some. intros [[<- <-]|[_ ?]]; [done|by eapply Hok].
  - intros j m. rewrite lookup_insert_Some. intros [[<- <-]|[_ ?]]; [done|by eapply Hok].
  - intros j m. rewrite lookup_insert_Some. intros [[<- <-]|[_ ?]]; [done|by eapply Hok].
  - intros s o Ho. destruct (co_started _ Hok s o Ho) as (m & Hm & Hlane & Hin).
    destruct (decide (k = o.1.1)) as [->|Hne].
    + exists n'. rewrite lookup_insert_eq. split_and!; [done..|]. apply Hgrow. congruence.
    + exists m. by rewrite lookup_insert_ne.
  - intros tr [Htr|Htr]%elem_of_app; [|by apply Hok].
    split; [by eapply exports_from|by eapply exports_in].
Qed.

(** A node that joins with a state transfer. *)
Lemma enter_ok χ k config rs store machine transfer h0 h :
  cluster_ok χ → nodes χ !! k = None → content store = None →
  config_ok (ReplicaRuntimeConfig.replica config) → identity_of config = (k, lane_of k) →
  machine.2 = [] → NetworkConsensusHandler.new config rs store machine = Ok h0 →
  transfer ∈ transfers χ →
  NetworkConsensusHandler.install_state_transfer transfer h0 = (h, Ok tt) →
  cluster_ok (WholeCluster.mk (system χ) (<[k := Node.mk h ∅ []]> (nodes χ)) (runs χ) (transfers χ)).
Proof.
  intros Hok Hk Hc Hcfg Hid Hm Hnew Htr Hinst.
  set (n := Node.mk h ∅ []). destruct (co_transfers _ Hok _ Htr) as (Hfrom & Hin & Hgen).
  assert (∀ s v, ¬ claims_of n s v) as Hno by apply no_claims.
  assert (node_ok (content:=content) (claims_of n) h) as Hcl.
  { pose proof (install_transfer_claims (content:=content) (claims_of n) transfer h0) as Hi.
    rewrite Hinst in Hi. apply Hi.
    - eapply new_claims; [done..| | |]; [unfold store_ok; by rewrite Hc|..];
        [intros s v v' Hv|intros s v Hv]; by apply Hno in Hv.
    - eapply keeps_claims_mono, Hgen. intros s v [Hv|Hv]; [by apply Hno in Hv|].
      revert Hv. by eapply new_unarmed. }
  assert (sourced (content:=content) (k, lane_of k) (λ d, d ∈ System.decided (system χ)) h) as Hso.
  { pose proof (install_transfer_sourced (content:=content) (k, lane_of k)
      (λ d, d ∈ System.decided (system χ)) transfer h0) as Hi. rewrite Hinst in Hi. apply Hi; [done|].
    eapply new_sourced; [done..| |rewrite Hm; by intros d ?%elem_of_nil].
    intros snap. by rewrite Hc. }
  assert (node_in (content:=content) (opens c) n) as Hep.
  { split; simpl; [|by intros j p; rewrite lookup_empty..].
    destruct (new_store _ _ _ _ _ Hnew) as [Hcl0 Hst0]. rewrite Hc in Hst0.
    destruct (install_transfer_cases (content:=content) (opens c) _ transfer h0 h (Ok tt) Hin Hcl0)
      as (He & Hst & Hs); [by rewrite Hst0|done|].
    split; [done| |done]. unfold epoch_of_node. by rewrite He. }
  split; simpl; try apply Hok.
  - intros j m. rewrite lookup_insert_Some. intros [[<- <-]|[_ ?]]; [|by eapply Hok].
    split; [done|]. intros id p s v. simpl. by rewrite lookup_empty.
  - intros j m. rewrite lookup_insert_Some. intros [[<- <-]|[_ ?]]; [|by eapply Hok].
    split; [done|]. intros id p. simpl. by rewrite lookup_empty.
  - intros j m. rewrite lookup_insert_Some. intros [[<- <-]|[_ ?]]; [done|by eapply Hok].
  - intros s o Ho. destruct (co_started _ Hok s o Ho) as (m & Hm' & ?). exists m.
    split; [|done]. rewrite lookup_insert_ne; [done|]. intros ->. congruence.
Qed.

(** ** Runs of the cluster *)

Lemma transition_ok χ χ' : transition χ χ' → cluster_ok χ → cluster_ok χ'.
Proof.
  intros Ht Hok. destruct Ht.
  - by eapply move_ok.
  - by eapply begin_ok.
  - by eapply send_ok.
  - by eapply collect_ok.
  - by eapply cease_ok.
  - by apply recorder_step_ok.
  - by eapply enter_ok.
Qed.

Lemma fresh_node_ok k n :
  fresh_node (content:=content) c lane_of k n →
  node_ok (content:=content) (claims_of n) (Node.node n) ∧ on_record n
  ∧ (∀ D, node_from (content:=content) (k, lane_of k) D n) ∧ node_in (content:=content) (opens c) n.
Proof.
  intros (config & rs & store & machine & h & Hc & Hcfg & Hid & Hfirst & Hm & Hn & ->).
  pose proof (no_claims h) as Hno. split_and!.
  - eapply new_claims; [done..| | |].
    + unfold store_ok. by rewrite Hc.
    + intros s v v' Hv. by apply Hno in Hv.
    + intros s v Hv. by apply Hno in Hv.
  - intros id p s v. simpl. by rewrite lookup_empty.
  - intros D. split; simpl; [|by intros id p; rewrite lookup_empty].
    eapply new_sourced; [done..| |].
    + intros snap. by rewrite Hc.
    + rewrite Hm. by intros d ?%elem_of_nil.
  - apply (new_settled (content:=content) (opens c)) in Hn as Hset.
    + split; simpl; [|by intros j p; rewrite lookup_empty..].
      by rewrite (se_epoch _ _ _ Hset : epoch_of_node h = _).
    + intros snap. by rewrite Hc.
    + intros _. rewrite Hfirst. apply opens_first.
Qed.

Lemma initial_ok χ : initial (content:=content) c lane_of χ → cluster_ok χ.
Proof.
  intros (Hs & Hn & Hr & Ht). destruct (Hs) as (_ & Hse & Hst & _ & _ & _). split.
  - exists (system χ). by split.
  - intros k n Hk%Hn%fresh_node_ok. naive_solver.
  - intros k n Hk%Hn%fresh_node_ok. naive_solver.
  - intros k n Hk%Hn%fresh_node_ok. naive_solver.
  - rewrite Hst. by intros s o ?%elem_of_nil.
  - rewrite Ht. by intros tr ?%elem_of_nil.
  - rewrite Hse. intros i ses. by rewrite lookup_empty.
  - rewrite Hr. intros i r fuel d. by rewrite lookup_empty.
Qed.

Lemma reachable_ok χ : reachable (content:=content) ord c lane_of χ → cluster_ok χ.
Proof.
  intros (χ0 & H0%initial_ok & Hsteps). induction Hsteps; [done|].
  apply IHHsteps. by eapply transition_ok.
Qed.

(** ** What applications and clients see *)

Lemma decided_monotone χ χ' :
  rtc transition χ χ' → System.decided (system χ) ⊆ System.decided (system χ').
Proof.
  induction 1 as [|χ χ1 χ' Ht _ IH]; [done|]. etrans; [|exact IH].
  destruct Ht; simpl; try done.
  - destruct o as [d|[step proposal]]; simpl; [rewrite decided_log_decision|]; set_solver.
  - match goal with Hr : recorder_step _ _ _ |- _ => destruct Hr as (_&_&_&_&Hd); unfold System.decided; by rewrite Hd end.
Qed.

(** The decisions a node has run or told a client. *)
Lemma seen_decided χ k n d :
  cluster_ok χ → nodes χ !! k = Some n → d ∈ WholeCluster.history n ++ answers n →
  d ∈ System.decided (system χ).
Proof.
  intros Hok Hk. pose proof (co_sources _ Hok _ _ Hk) as [Hs Ht].
  intros [Hd|(p & Hd & Hp)%list_elem_of_bind]%elem_of_app; [by apply Hs|].
  apply list_elem_of_fmap in Hp as ([id p'] & -> & Hp%elem_of_map_to_list). simpl in Hd.
  destruct (Ht id p' Hp) as [Hf _]. apply Hf.
  destruct p' as [| | | | | | | | | | | | |[[[]| | |]|]]; try by apply elem_of_nil in Hd. all: done.
Qed.

(** C3: The cluster runs the protocol. Take any run of a cluster of nodes along
    a chain of membership epochs: requests interleave, saves and executions
    fail, processes restart, nodes and recorders install the next epoch when
    each is told, or join in it, proposers start only from what their node's
    code does, recorders answer late, twice or never. Its recorders and
    proposers are a run of the transition system for which agreement is proved.
    What that system asks of its callers is met by the nodes' own code: every
    proposal belongs to a batch its node has on record, one per slot, and every
    proposal a node drives is for a slot after the anchor of the epoch the node
    is in.
    It holds where no no-op value is configured, slot numbers stay below the
    last [u64], and every state transfer a node installs accounts for the batches
    that node has proposed, which the code does not check
    ([unsaved_noop_is_proposed], [transfer_forgets_proposal]). *)
Theorem cluster_runs_the_protocol χ :
  reachable (content:=content) ord c lane_of χ →
  System.reachable c (system χ)
  ∧ (∀ s k lane v, (s, (k, lane, v)) ∈ System.started (system χ) →
       lane = lane_of k ∧ ∃ n, nodes χ !! k = Some n ∧ (s, v) ∈ Node.proposed n)
  ∧ (∀ k n id p f, nodes χ !! k = Some n → Node.tasks n !! id = Some p → f ∈ flights_of p →
       opens c (epoch_of_node (Node.node n)) (Node.at_slot f))
  ∧ ∀ k n d, nodes χ !! k = Some n → d ∈ WholeCluster.history n ++ answers n →
      d ∈ System.decided (system χ).
Proof.
  intros Hok%reachable_ok. split_and!.
  - apply Hok.
  - intros s k lane v Hin. destruct (co_started _ Hok _ _ Hin) as (n & Hn & Hl & Hp). eauto.
  - intros k n id p f Hk Hp. exact (proj2 (ni_tasks _ _ (co_epochs _ Hok _ _ Hk) id p Hp) f).
  - intros k n d Hk Hd. by eapply seen_decided.
Qed.

(** C1: State machine replication. In any run of a cluster, what one node's
    application executed or its clients were told for a slot, at any moment,
    and what another node's application executed or its clients were told for
    that slot, at that moment or later, is the same batch of the same proposer,
    whatever crashed in between and however the membership changed.
    It holds where no no-op value is configured, slot numbers stay below the
    last [u64], and every state transfer a node installs accounts for the batches
    that node has proposed, which the code does not check
    ([unsaved_noop_is_proposed], [transfer_forgets_proposal]). *)
Theorem replicas_agree χ χ' k k' n n' d d' :
  reachable (content:=content) ord c lane_of χ → rtc transition χ χ' →
  nodes χ !! k = Some n → nodes χ' !! k' = Some n' →
  d ∈ WholeCluster.history n ++ answers n → d' ∈ WholeCluster.history n' ++ answers n' →
  Decision.slot d = Decision.slot d' →
  Decision.value_ids d = Decision.value_ids d' ∧ Decision.proposer d = Decision.proposer d'.
Proof.
  intros Hr Hs Hk Hk' Hd Hd' Hslot. pose proof (reachable_ok _ Hr) as Hok.
  assert (cluster_ok χ') as Hok'.
  { apply reachable_ok. destruct Hr as (χ0 & H0 & Hsteps). exists χ0. split; [done|]. by etrans. }
  refine (decisions_agree c Hchain (system χ') d d' _ _ _ Hslot).
  - apply (reachable_invariant c Hchain), Hok'.
  - apply (decided_monotone _ _ Hs). by eapply seen_decided.
  - by eapply seen_decided.
Qed.

(** C4: Nothing is invented. A batch that a node's application executed, or a
    client was told of, is not empty and was proposed for that slot by the
    node the decision names, which still has it on record. *)
Theorem executed_batches_were_proposed χ k n d :
  reachable (content:=content) ord c lane_of χ → nodes χ !! k = Some n →
  d ∈ WholeCluster.history n ++ answers n →
  Decision.value_ids d ≠ []
  ∧ ∃ m, nodes χ !! Decision.proposer d = Some m
      ∧ (Decision.slot d, Decision.value_ids d) ∈ Node.proposed m.
Proof.
  intros Hok%reachable_ok Hk Hd%(seen_decided _ _ _ _ Hok Hk).
  destruct (decision_proposed c Hchain (system χ) d
              (reachable_invariant c Hchain _ (co_system _ Hok)) Hd) as (Hne & lane & Hin).
  split; [done|]. destruct (co_started _ Hok _ _ Hin) as (m & Hm & _ & Hp). eauto.
Qed.
End safety.
