(* ===== verification/ClusterRuns.v ===== *)
(** * A cluster on concrete inputs

  A scheduler that executes the transitions of [Cluster], and a run: a client
  submits to node 1, which proposes, decides with two of three recorders,
  executes and answers; node 2 is told of the decision and executes it; node 1
  stops and starts again. That decision orders a joint epoch: recorders and
  nodes install it, node 4 joins with a state transfer of node 1, proposes and
  decides slot 2 in the joint epoch, and node 2 executes it. *)
From S2P Require Import Prelude Errors Types Membership Isr Recorder Proposer Consensus Epochs System.
From S2P Require Import Replica Policy Schedule Runtime RuntimeSteps RuntimeInvariant Delivery LocalCluster.
From S2P Require Import Wire AsyncProposer NodeRuntime NodeTasks NodeClaims NodeDurable NodeSources NodeEpochs Cluster.
From S2P Require Import Agreement ClusterSafety.
Import WholeCluster.
Import (hints) Flaky.

Module ClusterRuns.
Abbreviation machine := (NoopStateMachine.t * list (Decision.t Z))%type.
Abbreviation node := (Node.t Z (Flaky.t Z) machine).
Abbreviation arrivals := (list (ReplicaId * Result (RecordReply.t Z))).
Abbreviation cluster := (WholeCluster.t (V:=Z) (St:=Flaky.t Z) (E:=NoopStateMachine.t)).
Abbreviation action := (Node.action Z (Flaky.t Z) machine (list arrivals)).

(** Recorder 3 is replaced by recorder 4. *)
Definition members : ClusterIdentity.t := AsyncRuns.stable.
Definition joint_members : ClusterIdentity.t :=
  match ClusterIdentity.begin_joint members [1; 2; 4] 1 with Ok e => e | Err _ => members end.
Definition new_members : ClusterIdentity.t :=
  match ClusterIdentity.finalize_joint joint_members with Ok e => e | Err _ => members end.
Definition epochs : chain := Chain members [(1, joint_members); (2, new_members)].

Definition lane_of (k : ReplicaId) : LaneId := 0.
Abbreviation transition := (WholeCluster.transition (content:=Flaky.held) Z.le epochs lane_of).
Abbreviation recorder_action := (Agreement.action Z OsRandom.t).

(** ** A scheduler *)

Inductive act : Type :=
| DoMove (k : ReplicaId) (a : action)
| DoResume (k : ReplicaId) (id : nat) (j : nat)
| DoBegin (i : nat) (k : ReplicaId) (id : nat)
| DoSend (i : nat)
| DoRecorder (a : recorder_action)
| DoCollect (i : nat) (ms : list nat)
| DoEnter (k : ReplicaId) (config : ReplicaRuntimeConfig.t) (recorders : list ReplicaId)
    (nth_transfer : nat).

Definition when {A} (b : bool) (k : option A) : option A := if b then k else None.

#[local] Instance below_last_dec (d : Decision.t Z) : Decision (below_last d).
Proof. unfold below_last. apply _. Defined.
#[local] Instance config_dec : EqDecision ProposerConfig.t.
Proof. solve_decision. Defined.

Definition small_slots (n : node) : bool :=
  bool_decide (map_Forall (λ _ p, Forall below_last (to_accept p)) (Node.tasks n)).

(** Moves that need nothing but decided slots below the last one and ordered
    changes. *)
Definition harmless (χ : cluster) (n : node) (a : action) : bool :=
  match a with
  | Node.Spawn _ (Node.ReceiveDecisions ds) =>
      forallb (λ d, bool_decide (d ∈ System.decided (system χ))) ds
  | Node.Spawn _ (Node.InstallStateTransfer _) => false
  | Node.Spawn _ (Node.InstallMembership change _) =>
      existsb (λ m, orderedb epochs (system χ) m change) (seq 0 (length (changes epochs)))
  | Node.Spawn _ _ | Node.Drop _ => true
  | Node.Step id which i =>
      small_slots n
      && match Node.tasks n !! id with
         | Some (Node.Arrived (Node.InstallStateTransfer _)) => false
         | _ => true
         end
      && match Node.tasks n !! id ≫= moving which with
         | Some f => match Node.stage f with Node.Proposing _ => false | _ => true end
         | None => true
         end
  | Node.Restart _ _ _ _ _ => false
  end.

Definition moved (χ : cluster) (k : ReplicaId) (n' : node) : cluster :=
  WholeCluster.mk (system χ) (<[k := n']> (nodes χ)) (runs χ) (exports n' ++ transfers χ).

(** The flight of a submission whose proposer runs. *)
Definition flying (n : node) (id : nat) : option (Node.proposal Z * ReplicaId) :=
  match Node.tasks n !! id with
  | Some (Node.Driving _ f) =>
      match Node.stage f with Node.Proposing leader => Some (f, leader) | _ => None end
  | _ => None
  end.

Definition resume_input (r : run) : Node.input (list arrivals) :=
  Node.Input 0 0 false [] [] [] (Ok (run_rng r)) (script r) (S (length (script r))).

(** Actions of the recorders. *)
Definition recorders_only (a : recorder_action) : bool :=
  match a with
  | Agreement.DoServe _ _ | Agreement.DoInform _ _ | Agreement.DoPrune _ _ | Agreement.DoRestart _
  | Agreement.DoInstall _ _ _ | Agreement.DoJoin _ _ => true
  | _ => false
  end.

Definition config_okb (config : ReplicaRuntimeConfig.t) : bool :=
  let c := ReplicaRuntimeConfig.replica config in
  (0 <=? ReplicaConfig.max_pending_values c) && (0 <=? ReplicaConfig.max_log_slots c)
  && (0 <=? ReplicaConfig.max_tracked_value_ids c).

Definition exec (χ : cluster) (a : act) : option cluster :=
  let σ := system χ in
  match a with
  | DoMove k a =>
      n ← nodes χ !! k;
      when (harmless χ n a) (n' ← Node.step replay Z.le n a; Some (moved χ k n'))
  | DoResume k id j =>
      n ← nodes χ !! k; fl ← flying n id; r ← runs χ !! j;
      when (small_slots n && (runner r =? k) && (run_slot r =? Node.at_slot fl.1)
            && bool_decide (run_values r = Node.batch fl.1) && (run_leader r =? fl.2)
            && bool_decide (run_recorders r = NetworkConsensusHandler.recorders (Node.node n))
            && bool_decide (run_cluster r = epoch_of_node (Node.node n)))
        (n' ← Node.step replay Z.le n (Node.Step id 0 (resume_input r)); Some (moved χ k n'))
  | DoBegin i k id =>
      n ← nodes χ !! k; fl ← flying n id;
      let recorders := NetworkConsensusHandler.recorders (Node.node n) in
      let e := epoch_of_node (Node.node n) in
      when (bool_decide (sessions σ !! i = None) && bool_decide (runs χ !! i = None))
      match prepared (proposer lane_of e k []) (Node.batch fl.1) (Some fl.2) recorders with
      | Ok proposal =>
          Some (WholeCluster.mk (log_start (set_session σ i
             (Session (synchronous (proposer lane_of e k [])) (Node.at_slot fl.1) (Some fl.2)
                recorders (ClusterIdentity.quorum_size e) [] Step.ROUND_ONE_PHASE_ZERO proposal
                None)) (Node.at_slot fl.1, (k, lane_of k, Node.batch fl.1))) (nodes χ)
             (<[i := Run k (Node.at_slot fl.1) (Node.batch fl.1) fl.2 recorders e [] []]> (runs χ))
             (transfers χ))
      | Err _ => None
      end
  | DoSend i =>
      ses ← sessions σ !! i;
      let p := core ses in
      e ← ProposerConfig.cluster (ProposerCore.config p);
      let self := AsyncProposerCore.mk (ProposerCore.replica_id p) (ProposerCore.lane_id p)
                    (ProposerCore.rng p) e (ProposerConfig.max_steps (ProposerCore.config p)) in
      when (bool_decide (requests ses = None)
            && bool_decide (ProposerCore.config p = ProposerCore.config (synchronous self))
            && (at_step ses <=? AsyncProposerCore.max_steps self))
      match AsyncProposerCore.requests_for self (slot ses) (leader ses) (at_step ses) (carrying ses)
              (endpoints ses) with
      | (self', Ok reqs) =>
          Some (WholeCluster.mk (log_sent (set_session σ i
             (launch_phase ses (synchronous self') (zip (endpoints ses) reqs)))
             (zip (endpoints ses) reqs)) (nodes χ) (runs χ) (transfers χ))
      | (_, Err _) => None
      end
  | DoRecorder a =>
      when (recorders_only a)
        (σ' ← Agreement.exec epochs a σ;
         Some (WholeCluster.mk σ' (nodes χ) (runs χ) (transfers χ)))
  | DoCollect i ms =>
      ses ← sessions σ !! i; r ← runs χ !! i; launched ← requests ses;
      let picked := omap (λ m, answered σ !! m) ms in
      let arrived := (λ e, (e.1.1, Ok e.2)) <$> picked in
      when (bool_decide (launched.*1 = endpoints ses) && forallb (λ e, bool_decide (e.1 ∈ launched)) picked
            && (len arrived <=? len launched))
      match AsyncProposerCore.collect_quorum (endpoints ses) launched.*2
              (ClusterIdentity.quorum_size (run_cluster r)) (run_cluster r) arrived with
      | Some (Ok replies) =>
          match AsyncProposerCore.after_replies (slot ses) (leader ses) (at_step ses) (carrying ses)
                  replies with
          | Ok o => Some (WholeCluster.mk (finish (run_cluster r) σ i ses o) (nodes χ) (<[i := met r arrived]> (runs χ))
                            (transfers χ))
          | Err _ => None
          end
      | _ => None
      end
  | DoEnter k config rs j =>
      transfer ← transfers χ !! j;
      when (match nodes χ !! k with None => true | Some _ => false end
            && bool_decide (identity_of config = (k, lane_of k)) && config_okb config)
      match NetworkConsensusHandler.new (V:=Z) (E:=machine) config rs (Flaky.mk None [])
              (NoopStateMachine.mk, []) with
      | Ok h0 =>
          match NetworkConsensusHandler.install_state_transfer transfer h0 with
          | (h, Ok _) => Some (WholeCluster.mk σ (<[k := Node.mk h ∅ []]> (nodes χ)) (runs χ) (transfers χ))
          | (_, Err _) => None
          end
      | Err _ => None
      end
  end.

Fixpoint play (χ : cluster) (acts : list act) : option cluster :=
  match acts with
  | [] => Some χ
  | a :: acts => exec χ a ≫= λ χ, play χ acts
  end.

Lemma forallb_elem {A} (P : A → Prop) `{∀ x, Decision (P x)} l :
  forallb (λ x, bool_decide (P x)) l = true → ∀ x, x ∈ l → P x.
Proof.
  rewrite forallb_forall. intros Hall x Hx%list_elem_of_In. by eapply bool_decide_eq_true, Hall.
Qed.

Lemma harmless_brings χ k n a : harmless χ n a = true →
  allowed (content:=Flaky.held) n a ∧ brings (content:=Flaky.held) epochs lane_of χ k n a.
Proof.
  destruct a as [id rq|id which i|id|]; simpl; try done.
  - destruct rq; try done; intros Hf; (split; [done|]).
    + by apply (forallb_elem (λ d, d ∈ System.decided (system χ))).
    + rewrite !orb_true_iff in Hf. destruct Hf as [Ho|[Ho|Ho]]; [..|done];
        eexists; by apply orderedb_sound.
  - rewrite !andb_true_iff. intros [[Hs Ht] Hm]. apply bool_decide_eq_true in Hs. split; [split; [done|]|].
    + intros tr Hid. by rewrite Hid in Ht.
    + intros p f leader Hp Hf Hst. rewrite Hp in Hm. simpl in Hm. by rewrite Hf, Hst in Hm.
Qed.

Lemma flying_spec n id f leader :
  flying n id = Some (f, leader) →
  ∃ sub, Node.tasks n !! id = Some (Node.Driving sub f) ∧ Node.stage f = Node.Proposing leader.
Proof.
  unfold flying. destruct (Node.tasks n !! id) as [[]|]; try done.
  destruct (Node.stage _) eqn:Hs; try done. intros [= <- <-]. eauto.
Qed.

Lemma exec_move χ χ' k a : exec χ (DoMove k a) = Some χ' → transition χ χ'.
Proof.
  simpl. destruct (nodes χ !! k) as [n|] eqn:Hk; [simpl|done].
  destruct (harmless χ n a) eqn:Hh; [simpl|done].
  destruct (Node.step replay Z.le n a) as [n'|] eqn:Hs; [simpl|done]. intros [= <-].
  destruct (harmless_brings χ k n a Hh). by eapply Move.
Qed.

Lemma exec_resume χ χ' k id j : exec χ (DoResume k id j) = Some χ' → transition χ χ'.
Proof.
  simpl. destruct (nodes χ !! k) as [n|] eqn:Hk; [simpl|done].
  destruct (flying n id) as [[f leader]|] eqn:Hf; [simpl|done].
  destruct (runs χ !! j) as [r|] eqn:Hj; [simpl|done]. destruct (_ && _) eqn:Hc; [simpl|done].
  destruct (Node.tasks n !! id) as [p|] eqn:Hp; [|done]. destruct (negb _) eqn:Hg; [done|].
  destruct (Node.advance _ _ _ _ _ _) as [[h q]|] eqn:Ha; [simpl|done]. intros [= <-].
  rewrite !andb_true_iff, !Z.eqb_eq, !bool_decide_eq_true in Hc. destruct Hc as [[[[[[Hs Hr1] Hr2] Hr3] Hr4] Hr5] Hr6].
  apply flying_spec in Hf as (sub & Ht & Hst). rewrite Hp in Ht. injection Ht as ->.
  apply (Move Z.le epochs lane_of χ k n _ (Node.Step id 0 (resume_input r))); [done|..].
  - simpl. rewrite Hp, Hg. by rewrite Ha.
  - split; [by apply bool_decide_eq_true in Hs|]. intros tr. by rewrite Hp.
  - intros p f' ld Hp' Hm Hst'. rewrite Hp in Hp'. injection Hp' as <-. simpl in Hm. injection Hm as <-.
    rewrite Hst in Hst'. injection Hst' as <-. intros d _. exists j, r. split_and!; [done| |done].
    destruct r. simpl in *. by subst.
Qed.

Lemma exec_send χ χ' i : exec χ (DoSend i) = Some χ' → transition χ χ'.
Proof.
  simpl. destruct (sessions _ !! i) as [ses|] eqn:Hi; [simpl|done].
  destruct (ProposerConfig.cluster _) as [e|]; [simpl|done].
  set (self := AsyncProposerCore.mk _ _ _ _ _). destruct (_ && _) eqn:Hc; [simpl|done].
  rewrite !andb_true_iff, !bool_decide_eq_true, Z.leb_le in Hc. destruct Hc as [[Hn Hcfg] Hm].
  destruct (AsyncProposerCore.requests_for _ _ _ _ _ _) as [self' [reqs|]] eqn:Hr; [|done].
  intros [= <-]. eapply (Send Z.le epochs lane_of χ i ses self); try done.
  revert Hcfg. subst self. destruct (core ses). simpl. unfold synchronous. simpl. by intros <-.
Qed.

Lemma exec_begin χ χ' i k id : exec χ (DoBegin i k id) = Some χ' → transition χ χ'.
Proof.
  simpl. destruct (nodes χ !! k) as [n|] eqn:Hk; [simpl|done].
  destruct (flying n id) as [[f leader]|] eqn:Hf; [simpl|done]. destruct (_ && _) eqn:Hc; [simpl|done].
  rewrite !andb_true_iff, !bool_decide_eq_true in Hc. destruct Hc as [Hi Hr].
  destruct (prepared _ _ _ _) as [proposal|] eqn:Hp; [|done]. intros [= <-].
  apply flying_spec in Hf as (sub & Ht & Hst). eapply Begin; try done. by apply list_elem_of_singleton.
Qed.

Lemma exec_collect χ χ' i ms : exec χ (DoCollect i ms) = Some χ' → transition χ χ'.
Proof.
  simpl. destruct (sessions _ !! i) as [ses|] eqn:Hi; [simpl|done].
  destruct (runs χ !! i) as [r|] eqn:Hr; [simpl|done].
  destruct (requests ses) as [launched|] eqn:Hq; [simpl|done].
  set (picked := omap _ ms). destruct (_ && _) eqn:Hc; [simpl|done].
  rewrite !andb_true_iff, !bool_decide_eq_true, Z.leb_le in Hc. destruct Hc as [[He Hp] Hl].
  set (arrived := _ <$> picked) in *.
  assert (zip (endpoints ses) launched.*2 = launched) as Hz by (rewrite <-He; apply zip_fst_snd).
  destruct (AsyncProposerCore.collect_quorum _ _ _ _ _) as [[replies|]|] eqn:Hcol; [|done..].
  destruct (AsyncProposerCore.after_replies _ _ _ _ _) as [o|] eqn:Ha; [|done]. intros [= <-].
  eapply (Collect Z.le epochs lane_of χ i ses r launched.*2 arrived replies o); try done; rewrite ?Hz; try done.
  intros k reply Hin. unfold arrived in Hin. apply list_elem_of_fmap in Hin as ([[k' req] rep] & [= -> ->] & Hin).
  exists req. split; [by apply (forallb_elem _ _ Hp) in Hin|].
  apply list_elem_of_omap in Hin as (m & _ & Hm). by eapply list_elem_of_lookup_2.
Qed.

Lemma exec_recorder χ χ' a : exec χ (DoRecorder a) = Some χ' → transition χ χ'.
Proof.
  simpl. destruct (recorders_only a) eqn:Ho; [simpl|done].
  destruct (Agreement.exec epochs a (system χ)) as [σ'|] eqn:He; [simpl|done]. intros [= <-].
  apply Recorders. split; [by apply (exec_sound epochs a)|]. revert He.
  destruct a; try done; simpl; unfold guard_that, mbind, option_bind; intros He;
    repeat (case_match; simplify_eq/=); done.
Qed.

Lemma exec_enter χ χ' k config rs j : exec χ (DoEnter k config rs j) = Some χ' → transition χ χ'.
Proof.
  simpl. destruct (transfers χ !! j) as [transfer|] eqn:Hj; [simpl|done].
  destruct (_ && _) eqn:Hc; [simpl|done]. rewrite !andb_true_iff, bool_decide_eq_true in Hc.
  destruct Hc as [[Hk Hid] Hcfg].
  destruct (NetworkConsensusHandler.new _ _ _ _) as [h0|] eqn:Hn; [|done].
  destruct (NetworkConsensusHandler.install_state_transfer _ _) as [h [[]|]] eqn:Hi; [|done].
  intros [= <-]. apply list_elem_of_lookup_2 in Hj.
  assert (config_ok (ReplicaRuntimeConfig.replica config)) as Hok.
  { unfold config_okb in Hcfg. rewrite !andb_true_iff, !Z.leb_le in Hcfg. unfold config_ok. tauto. }
  eapply (Enter Z.le epochs lane_of χ k config rs (Flaky.mk None []) (NoopStateMachine.mk, []));
    try done. by destruct (nodes χ !! k).
Qed.

Lemma play_sound χ acts χ' : play χ acts = Some χ' → rtc transition χ χ'.
Proof.
  revert χ. induction acts as [|a acts IH]; intros χ; simpl; [by intros [= ->]|].
  destruct (exec χ a) as [χ1|] eqn:He; [simpl|done]. intros Hp. eapply rtc_l; [|by apply IH].
  destruct a; [by eapply exec_move|by eapply exec_resume|by eapply exec_begin|by eapply exec_send
    |by eapply exec_recorder|by eapply exec_collect|by eapply exec_enter].
Qed.

(** ** The run *)

Definition node_config (k : ReplicaId) : ReplicaRuntimeConfig.t :=
  ReplicaRuntimeConfig.mk k 0 members (ReplicaConfig.mk 2 1 16 16 64) 8 0
    (Duration.from_secs 30) false None.

Definition boot_node (k : ReplicaId) : node :=
  match NetworkConsensusHandler.new (node_config k) [1; 2; 3] (Flaky.mk None [])
          (NoopStateMachine.mk, []) with
  | Ok h => Node.mk h ∅ []
  | Err _ => Node.mk (NetworkConsensusHandler.mk (node_config k) [] (ConsensusState.fresh (node_config k))
                        (Flaky.mk None []) (NoopStateMachine.mk, []) None) ∅ []
  end.

Definition recorder (k : ReplicaId) : RecorderCore.t Z :=
  RecorderCore.new (RecorderConfig.mk k members RecorderLimits.default).

Definition start : cluster :=
  WholeCluster.mk
    (State (<[1 := recorder 1]> (<[2 := recorder 2]> (<[3 := recorder 3]> ∅))) ∅ [] [] [] [])
    (<[1 := boot_node 1]> (<[2 := boot_node 2]> ∅)) ∅ [].

Definition at_once : Node.input (list arrivals) :=
  Node.Input 0 0 false [] [(1, Ok tt); (2, Ok tt)] [Ok tt; Ok tt; Ok tt] (Ok []) [] 3.
Definition go (k : ReplicaId) (id m : nat) : list act :=
  replicate m (DoMove k (Node.Step id 0 at_once)).

(** Node 1 proposes [10; 20] for slot 1. *)
Definition proposing_acts : list act :=
  DoMove 1 (Node.Spawn 0 (Node.InstallEpochSchedule (EpochSchedule.mk 0 [1; 2; 3]))) :: go 1 0 1
  ++ DoMove 1 (Node.Spawn 1 (Node.Submit (Submission.mk [] 1 [10; 20]))) :: go 1 1 5.
(** Its proposer decides with recorders 2 and 1. *)
Definition deciding_acts : list act :=
  [DoBegin 0 1 1; DoSend 0; DoRecorder (Agreement.DoServe 2 1); DoRecorder (Agreement.DoServe 1 0); DoCollect 0 [0; 1]%nat; DoResume 1 1 0].
(** Node 1 accepts, announces, answers. *)
Definition answering_acts : list act := go 1 1 5.

Definition decision_1 : Decision.t Z := Decision.mk 1 [10; 20] 1 4.
Definition told : cluster :=
  default start (play start (proposing_acts ++ deciding_acts ++ answering_acts)).

(** Node 2 is told, after node 1 was stopped and started again. *)
Definition restart_1 (n : node) : action :=
  Node.Restart (node_config 1) [1; 2; 3]
    (Flaky.mk (Flaky.held (NetworkConsensusHandler.state_store (Node.node n))) [])
    (NetworkConsensusHandler.state_machine (Node.node n)) None.
Definition after_crash : cluster :=
  match nodes told !! 1 with
  | Some n => match Node.step replay Z.le n (restart_1 n) with
              | Some n' => moved told 1 n'
              | None => told
              end
  | None => told
  end.
Definition late_acts : list act :=
  DoMove 2 (Node.Spawn 0 (Node.ReceiveDecisions [decision_1])) :: go 2 0 3.
Definition caught_up_2 : cluster := default after_crash (play after_crash late_acts).

Lemma epochs_ok : chain_ok epochs.
Proof.
  split.
  - intros n e. destruct n as [|[|[|n]]]; [intros [= <-]..|done];
      apply (bool_decide_eq_true_1 _); vm_compute; reflexivity.
  - reflexivity.
  - intros n e e'. destruct n as [|[|[|n]]]; [intros [= <-] [= <-]; vm_compute; reflexivity..| |];
      done.
  - intros n a a'. destruct n as [|[|n]]; [intros [= <-] [= <-]; lia|done..].
Qed.

Lemma boot_fresh k : k ∈ [1; 2] → fresh_node (content:=Flaky.held) epochs lane_of k (boot_node k).
Proof.
  intros Hk. exists (node_config k), [1; 2; 3], (Flaky.mk None []), (NoopStateMachine.mk, []),
    (Node.node (boot_node k)). split_and!; try done.
  all: repeat (apply elem_of_cons in Hk as [->|Hk]; [vm_compute; reflexivity|]).
  all: by apply elem_of_nil in Hk.
Qed.

Lemma start_initial : initial (content:=Flaky.held) epochs lane_of start.
Proof.
  split; [split_and!; try done|split_and!; try done].
  - intros k r. simpl. rewrite !lookup_insert_Some, lookup_empty. intros Hk.
    assert (r = recorder k) as -> by naive_solver.
    exists RecorderLimits.default. split; [done|]. vm_compute. congruence.
  - intros k n. simpl. rewrite !lookup_insert_Some, lookup_empty.
    intros [[<- <-]|[_ [[<- <-]|[_ ?]]]]; [apply boot_fresh..|done]; set_solver.
Qed.

Lemma told_play : play start (proposing_acts ++ deciding_acts ++ answering_acts) = Some told.
Proof. vm_compute. reflexivity. Qed.

Lemma told_reachable : reachable (content:=Flaky.held) Z.le epochs lane_of told.
Proof. exists start. split; [apply start_initial|]. exact (play_sound _ _ _ told_play). Qed.

(** The nodes of the two states. *)
Definition node_of (χ : cluster) (k : ReplicaId) : node := default (boot_node k) (nodes χ !! k).
Definition crashed_1 : node :=
  default (boot_node 1) (Node.step replay Z.le (node_of told 1) (restart_1 (node_of told 1))).

Lemma told_node : nodes told !! 1 = Some (node_of told 1).
Proof. vm_compute. reflexivity. Qed.
Lemma crash_step : Node.step replay Z.le (node_of told 1) (restart_1 (node_of told 1)) = Some crashed_1.
Proof. vm_compute. reflexivity. Qed.
Lemma crash_state : after_crash = moved told 1 crashed_1.
Proof. unfold after_crash. by rewrite told_node, crash_step. Qed.
Lemma late_play : play after_crash late_acts = Some caught_up_2.
Proof. vm_compute. reflexivity. Qed.

Lemma restart_brings χ n :
  allowed (content:=Flaky.held) n (restart_1 n) ∧ brings (content:=Flaky.held) epochs lane_of χ 1 n (restart_1 n).
Proof. split; simpl; by split_and!. Qed.

Lemma told_later : rtc transition told caught_up_2.
Proof.
  eapply rtc_l; [|exact (play_sound _ _ _ late_play)]. rewrite crash_state.
  apply (Move Z.le epochs lane_of told 1 (node_of told 1) crashed_1 (restart_1 (node_of told 1))).
  - apply told_node.
  - apply crash_step.
  - exact (proj1 (restart_brings told (node_of told 1))).
  - exact (proj2 (restart_brings told (node_of told 1))).
Qed.

(** ** The membership changes *)

Definition to_joint : MembershipChange.t Z := MembershipChange.mk decision_1 joint_members 10.

(** The recorders are told, install the joint epoch, and recorder 4 joins. *)
Definition recorder_acts : list act :=
  DoRecorder <$>
    [Agreement.DoInform 1 [decision_1]; Agreement.DoInform 2 [decision_1];
     Agreement.DoInform 3 [decision_1]; Agreement.DoInstall 1 0 to_joint;
     Agreement.DoInstall 2 0 to_joint; Agreement.DoInstall 3 0 to_joint; Agreement.DoJoin 4 1].

(** A step whose RPCs are acknowledged by [m] recorders. *)
Definition acked (k : ReplicaId) (id m : nat) : act :=
  DoMove k (Node.Step id 0 (Node.Input 0 0 false [] [] (replicate m (Ok tt)) (Ok []) [] 3)).

Definition install_acts (k : ReplicaId) : list act :=
  [DoMove k (Node.Spawn 5 (Node.InstallMembership to_joint [1; 2; 3; 4]));
   acked k 5 0; acked k 5 3; acked k 5 4; acked k 5 0].

(** Node 1 exports its state through slot 1, with which node 4 joins. *)
Definition transfer_acts : list act :=
  [DoMove 1 (Node.Spawn 6 (Node.CreateStateTransfer 1)); acked 1 6 0; acked 1 6 4; acked 1 6 0;
   acked 1 6 0].
Definition joiner : ReplicaRuntimeConfig.t :=
  ReplicaRuntimeConfig.mk 4 0 joint_members (ReplicaConfig.mk 2 1 16 16 64) 8 0
    (Duration.from_secs 30) false None.

(** Node 4 proposes [40] for slot 2 and decides it with recorders 4, 3 and 1. *)
Definition joining_acts : list act :=
  DoEnter 4 joiner [1; 2; 3; 4] 0
  :: DoMove 4 (Node.Spawn 0 (Node.InstallEpochSchedule (EpochSchedule.mk 0 [4; 1; 2; 3]))) :: go 4 0 1
  ++ DoMove 4 (Node.Spawn 1 (Node.Submit (Submission.mk [] 4 [40]))) :: go 4 1 5
  ++ [DoBegin 1 4 1; DoSend 1; DoRecorder (Agreement.DoServe 4 6); DoRecorder (Agreement.DoServe 3 5);
      DoRecorder (Agreement.DoServe 1 3); DoCollect 1 [2; 3; 4]%nat; DoResume 4 1 1] ++ go 4 1 5.

Definition changing_acts : list act :=
  go 2 0 2 ++ recorder_acts ++ install_acts 1 ++ install_acts 2 ++ transfer_acts ++ joining_acts.

Definition decision_2 : Decision.t Z := Decision.mk 2 [40] 4 4.
Definition joined : cluster := default caught_up_2 (play caught_up_2 changing_acts).
Definition spreading_acts : list act :=
  DoMove 2 (Node.Spawn 7 (Node.ReceiveDecisions [decision_2])) :: go 2 7 2.
Definition spread : cluster := default joined (play joined spreading_acts).

Lemma joined_play : play caught_up_2 changing_acts = Some joined.
Proof. vm_compute. reflexivity. Qed.
Lemma spread_play : play joined spreading_acts = Some spread.
Proof. vm_compute. reflexivity. Qed.
Lemma joined_node : nodes joined !! 4 = Some (node_of joined 4).
Proof. vm_compute. reflexivity. Qed.
Lemma spread_node : nodes spread !! 2 = Some (node_of spread 2).
Proof. vm_compute. reflexivity. Qed.

(** In which epoch which slot was decided. *)
Lemma joined_decided :
  decided_in (system joined) = [(members, decision_1); (joint_members, decision_2)].
Proof. vm_compute. reflexivity. Qed.

Lemma joined_reachable : reachable (content:=Flaky.held) Z.le epochs lane_of joined.
Proof.
  destruct told_reachable as (χ0 & H0 & Hsteps). exists χ0. split; [done|].
  etrans; [exact Hsteps|]. etrans; [exact told_later|]. exact (play_sound _ _ _ joined_play).
Qed.

Lemma joined_later : rtc transition joined spread.
Proof. exact (play_sound _ _ _ spread_play). Qed.

Lemma cluster_runs_the_protocol_witness :
  System.reachable epochs (system joined) ∧ decision_2 ∈ System.decided (system joined).
Proof.
  destruct (cluster_runs_the_protocol Z.le epochs lane_of epochs_ok joined joined_reachable)
    as (Hr & _ & _ & Hd).
  split; [exact Hr|]. apply (Hd 4 (node_of joined 4) decision_2 joined_node). vm_compute. left.
Defined.

(** What the client of node 4 was told in the joint epoch, and what node 2
    executes after it. *)
Lemma replicas_agree_witness :
  decision_2 ∈ answers (node_of joined 4)
  ∧ ∃ d, d ∈ WholeCluster.history (node_of spread 2) ∧ Decision.value_ids d = [40].
Proof.
  assert (decision_2 ∈ answers (node_of joined 4)) as H1 by (vm_compute; left).
  assert (decision_2 ∈ WholeCluster.history (node_of spread 2)) as H2 by (vm_compute; right; left).
  split; [exact H1|]. exists decision_2. split; [exact H2|].
  exact (proj1 (replicas_agree Z.le epochs lane_of epochs_ok
    joined spread 4 2 (node_of joined 4) (node_of spread 2) decision_2 decision_2
    joined_reachable joined_later joined_node spread_node
    (proj2 (elem_of_app _ _ _) (or_intror H1)) (proj2 (elem_of_app _ _ _) (or_introl H2)) eq_refl)).
Defined.

Lemma executed_batches_were_proposed_witness :
  [40] ≠ [] ∧ ∃ m, nodes joined !! 4 = Some m ∧ (2, [40]) ∈ Node.proposed m.
Proof.
  exact (executed_batches_were_proposed Z.le epochs lane_of epochs_ok
    joined 4 (node_of joined 4) decision_2 joined_reachable joined_node
    ltac:(vm_compute; left)).
Defined.
End ClusterRuns.
