(* ===== verification/Mixing.v ===== *)
(** * 64-bit mixing functions

  [xorshift] and [mix64] of src/network/chaos.rs and src/network/load.rs (the
  proposer's generator of src/proposer.rs uses the same two). Both are
  permutations of the 64-bit integers: no two inputs collide, and the
  generator never falls into its fixed point zero. *)
From S2P Require Import Prelude Errors Types Proposer.

Definition xorshift (value : Z) : Z :=
  let value := Z.max value 1 in
  let value := Z.lxor value (U64.shl value 13) in
  let value := Z.lxor value (U64.shr value 7) in
  Z.lxor value (U64.shl value 17).

Definition mix64 (value : Z) : Z :=
  let value := Z.lxor value (U64.shr value 30) in
  let value := U64.wrapping_mul value 0xbf58476d1ce4e5b9 in
  let value := Z.lxor value (U64.shr value 27) in
  let value := U64.wrapping_mul value 0x94d049bb133111eb in
  Z.lxor value (U64.shr value 31).

(** ** Bits of a [u64] *)

Lemma fits_pow2 x : U64.fits x ↔ 0 ≤ x < 2 ^ 64.
Proof. unfold U64.fits, U64.MAX. change (2 ^ 64) with 18446744073709551616. lia. Qed.

Lemma fits_high x i : U64.fits x → 64 ≤ i → Z.testbit x i = false.
Proof.
  rewrite fits_pow2. intros Hx Hi. rewrite <-(Z.mod_small x (2 ^ 64)) by done.
  by apply Z.mod_pow2_bits_high.
Qed.

Lemma fits_of_bits x : 0 ≤ x → (∀ i, 64 ≤ i → Z.testbit x i = false) → U64.fits x.
Proof.
  intros Hx Hi. rewrite fits_pow2. split; [done|].
  enough (x = x mod 2 ^ 64) as -> by (apply Z.mod_pos_bound; lia).
  apply Z.bits_inj'. intros n Hn. destruct (Z.lt_ge_cases n 64).
  - by rewrite Z.mod_pow2_bits_low.
  - rewrite Z.mod_pow2_bits_high by lia. by apply Hi.
Qed.

Lemma shr_fits x k : 0 ≤ k → U64.fits x → U64.fits (U64.shr x k).
Proof.
  intros Hk [Hx Hm]. unfold U64.shr. apply fits_of_bits; [by apply Z.shiftr_nonneg|].
  intros i Hi. rewrite Z.shiftr_spec by lia. apply fits_high; [done|lia].
Qed.

Lemma shl_fits x k : U64.fits (U64.shl x k).
Proof. rewrite fits_pow2. unfold U64.shl. by apply Z.mod_pos_bound. Qed.

Lemma lxor_fits x y : U64.fits x → U64.fits y → U64.fits (Z.lxor x y).
Proof.
  intros Hx Hy. apply fits_of_bits; [apply Z.lxor_nonneg; unfold U64.fits in *; lia|].
  intros i Hi. by rewrite Z.lxor_spec, !fits_high.
Qed.

Lemma lxor_cancel a x y : Z.lxor a x = Z.lxor a y → x = y.
Proof.
  intros Heq. rewrite <-(Z.lxor_0_l x), <-(Z.lxor_0_l y), <-(Z.lxor_nilpotent a), !Z.lxor_assoc.
  by rewrite Heq.
Qed.

Lemma lxor_cancel_r a x y : Z.lxor x a = Z.lxor y a → x = y.
Proof. rewrite !(Z.lxor_comm _ a). apply lxor_cancel. Qed.

Lemma mul_fits x y : U64.fits (U64.wrapping_mul x y).
Proof. rewrite fits_pow2. unfold U64.wrapping_mul. by apply Z.mod_pos_bound. Qed.

#[export] Hint Resolve shr_fits shl_fits lxor_fits mul_fits : quepaxa.

(** [x ^= x >> k] reads each bit off the higher ones. *)
Lemma xor_shr_inj k x y :
  0 < k → U64.fits x → U64.fits y →
  Z.lxor x (U64.shr x k) = Z.lxor y (U64.shr y k) → x = y.
Proof.
  intros Hk Hx Hy Heq.
  assert (∀ n i, 0 ≤ i → 64 - i ≤ Z.of_nat n → Z.testbit x i = Z.testbit y i) as Hbits.
  { induction n as [|n IH]; intros i Hi Hn.
    - by rewrite !fits_high by (done || lia).
    - pose proof (f_equal (λ z, Z.testbit z i) Heq) as Hb. simpl in Hb. unfold U64.shr in Hb.
      rewrite !Z.lxor_spec, !Z.shiftr_spec, (IH (i + k)) in Hb by lia.
      by destruct (Z.testbit x i), (Z.testbit y i), (Z.testbit y (i + k)). }
  apply Z.bits_inj'. intros i Hi. apply (Hbits 64%nat); lia.
Qed.

(** [x ^= x << k] reads each bit off the lower ones. *)
Lemma xor_shl_inj k x y :
  0 < k → U64.fits x → U64.fits y →
  Z.lxor x (U64.shl x k) = Z.lxor y (U64.shl y k) → x = y.
Proof.
  intros Hk Hx Hy Heq.
  assert (∀ n i, 0 ≤ i < Z.of_nat n → Z.testbit x i = Z.testbit y i) as Hbits.
  { induction n as [|n IH]; intros i Hi; [lia|].
    destruct (Z.lt_ge_cases i 64); [|by rewrite !fits_high by (done || lia)].
    pose proof (f_equal (λ z, Z.testbit z i) Heq) as Hb. simpl in Hb. unfold U64.shl in Hb.
    change U64.modulus with (2 ^ 64) in Hb.
    rewrite !Z.lxor_spec, !Z.mod_pow2_bits_low, !Z.shiftl_spec in Hb by lia.
    assert (Z.testbit x (i - k) = Z.testbit y (i - k)) as Hlow.
    { destruct (Z.lt_ge_cases i k); [by rewrite !Z.testbit_neg_r by lia|]. apply IH. lia. }
    rewrite Hlow in Hb. by destruct (Z.testbit x i), (Z.testbit y i), (Z.testbit y (i - k)). }
  apply Z.bits_inj'. intros i Hi. apply (Hbits (S (Z.to_nat i))). lia.
Qed.

(** A multiplier with an inverse modulo 2^64, that is, an odd one. *)
Lemma mul_inj m m' x y :
  (m * m') mod U64.modulus = 1 → U64.fits x → U64.fits y →
  U64.wrapping_mul x m = U64.wrapping_mul y m → x = y.
Proof.
  unfold U64.wrapping_mul. rewrite !fits_pow2. change (2 ^ 64) with U64.modulus. intros Hm Hx Hy Heq.
  assert (∀ z, 0 ≤ z < U64.modulus → (z * m) mod U64.modulus * m' mod U64.modulus = z) as Hinv.
  { intros z Hz. rewrite Z.mul_mod_idemp_l, <-Z.mul_assoc, <-Z.mul_mod_idemp_r, Hm, Z.mul_1_r by done.
    by apply Z.mod_small. }
  by rewrite <-(Hinv x Hx), <-(Hinv y Hy), Heq.
Qed.

Lemma mix64_fits x : U64.fits x → U64.fits (mix64 x).
Proof. intros Hx. unfold mix64. auto 10 with quepaxa lia. Qed.

(** [mix64] is a permutation. *)
Lemma mix64_inj x y : U64.fits x → U64.fits y → mix64 x = mix64 y → x = y.
Proof.
  intros Hx Hy. unfold mix64. intros Heq.
  apply xor_shr_inj in Heq; [|lia|apply mul_fits..].
  apply (mul_inj _ 0x319642b2d24d8ec3) in Heq; [|done|eauto with quepaxa lia..].
  apply xor_shr_inj in Heq; [|lia|apply mul_fits..].
  apply (mul_inj _ 0x96de1b173f119089) in Heq; [|done|eauto with quepaxa lia..].
  by apply xor_shr_inj in Heq.
Qed.

(** Away from zero [xorshift] is a permutation that stays away from zero. *)
Lemma xorshift_fits x : U64.fits x → U64.fits (xorshift x).
Proof.
  intros Hx. unfold xorshift. assert (U64.fits (Z.max x 1)) by (unfold U64.fits, U64.MAX in *; lia).
  eauto 10 with quepaxa lia.
Qed.

Lemma xorshift_inj x y :
  U64.fits x → U64.fits y → 0 < x → 0 < y → xorshift x = xorshift y → x = y.
Proof.
  intros Hx Hy Hx0 Hy0. unfold xorshift. rewrite !Z.max_l by lia. intros Heq.
  apply xor_shl_inj in Heq; [|lia|eauto 10 with quepaxa lia..].
  apply xor_shr_inj in Heq; [|lia|eauto 10 with quepaxa lia..].
  by apply xor_shl_inj in Heq.
Qed.

Lemma xorshift_pos x : U64.fits x → 0 < xorshift x.
Proof.
  intros Hx. pose proof (xorshift_fits x Hx) as [Hn _].
  assert (U64.fits (Z.max x 1)) as Hm by (unfold U64.fits, U64.MAX in *; lia).
  destruct (Z.eq_dec (xorshift x) 0) as [Hz|]; [exfalso|lia].
  unfold xorshift in Hz. rewrite <-(eq_refl : Z.lxor 0 (U64.shl 0 17) = 0) in Hz.
  apply xor_shl_inj in Hz; [|lia|eauto 10 with quepaxa lia|done].
  rewrite <-(eq_refl : Z.lxor 0 (U64.shr 0 7) = 0) in Hz.
  apply xor_shr_inj in Hz; [|lia|eauto 10 with quepaxa lia|done].
  rewrite <-(eq_refl : Z.lxor 0 (U64.shl 0 13) = 0) in Hz.
  apply xor_shl_inj in Hz; [lia|lia|done|done].
Qed.
