(* ===== verification/Report.v ===== *)
(** * JSON reports (src/network/report.rs)

  A report replaces its file through a synced temporary, a rename and a sync
  of the directory, as the crate's stores do but without crash points. The
  JSON encoder is a parameter. *)
From S2P Require Import Prelude Errors Types Membership Isr Recorder Durable.

Definition report_error (what description : string) (error : option string) : option string :=
  (λ error, "could not " +:+ what +:+ " " +:+ description +:+ ": " +:+ error) <$> error.

Definition directory_error (description : string) (error : option string) : option string :=
  (λ error, "could not sync " +:+ description +:+ " directory: " +:+ error) <$> error.

(** The last step; an empty parent path stands for the current directory. *)
Definition sync_parent (description : string) (o : AtomicFile.io)
    : M AtomicFile.disk QuePaxaError.t unit :=
  let* _ := lift (AtomicFile.attempt (directory_error description (AtomicFile.io_sync_parent o))) in
  modify (λ d, AtomicFile.mk (AtomicFile.visible d) [AtomicFile.visible d] (AtomicFile.temporary d)).

(** The errors of the operating system as [o] gives them, with what the
    function adds to each. *)
Definition described (description : string) (o : AtomicFile.io) : AtomicFile.io := {|
  AtomicFile.io_open := report_error "open" description (AtomicFile.io_open o);
  AtomicFile.io_write := report_error "write" description (AtomicFile.io_write o);
  AtomicFile.io_written := AtomicFile.io_written o;
  AtomicFile.io_sync := report_error "sync" description (AtomicFile.io_sync o);
  AtomicFile.io_rename := report_error "replace" description (AtomicFile.io_rename o);
  AtomicFile.io_sync_parent := directory_error description (AtomicFile.io_sync_parent o);
|}.

Definition write_json_atomic {T} (to_vec_pretty : T → list Z + string) (value : T)
    (description : string) (o : AtomicFile.io) : M AtomicFile.disk QuePaxaError.t unit :=
  let o' := described description o in
  let* bytes := lift (match to_vec_pretty value with
    | inl bytes => Ok bytes
    | inr error => Err (QuePaxaError.StorageError
                          ("could not encode " +:+ description +:+ ": " +:+ error))
    end) in
  let* _ := lift (AtomicFile.attempt (AtomicFile.io_open o')) in
  let* _ := modify (λ d, AtomicFile.mk (AtomicFile.visible d) (AtomicFile.survivors d) (Some ([], false))) in
  let* _ := AtomicFile.write_temporary bytes o' in
  let* _ := lift (AtomicFile.attempt (AtomicFile.io_sync o')) in
  let* _ := modify (λ d, AtomicFile.mk (AtomicFile.visible d) (AtomicFile.survivors d)
                          ((λ '(bytes, _), (bytes, true)) <$> AtomicFile.temporary d)) in
  let* _ := lift (AtomicFile.attempt (AtomicFile.io_rename o')) in
  let* _ := modify AtomicFile.rename in
  sync_parent description o.

(** Crash points that no injector sees. *)
Definition unobserved_points : AtomicFile.points :=
  AtomicFile.Build_points CrashPoint.BatchTemporaryOpened CrashPoint.BatchTemporaryWritten
    CrashPoint.BatchTemporarySynced CrashPoint.BatchRenamed CrashPoint.BatchDirectorySynced.

(** Writing a report is saving its encoding with no crash injector. *)
Lemma write_json_is_save_file {T} (to_vec_pretty : T → list Z + string) value description o bytes points d :
  to_vec_pretty value = inl bytes →
  write_json_atomic to_vec_pretty value description o d
  = AtomicFile.save_file noop_reached points (described description o) bytes d.
Proof.
  intros He. unfold write_json_atomic, AtomicFile.save_file, sync_parent, bind, lift, modify.
  rewrite He. cbn [AtomicFile.io_sync_parent described].
  destruct (AtomicFile.attempt _); [|done].
  destruct (AtomicFile.write_temporary _ _ _) as [? [?|?]]; [|done]. simpl.
  do 3 (destruct (AtomicFile.attempt _); [|done]; simpl). done.
Qed.

(** A report's file holds what it could have held before or the complete new
    report, at every moment a crash may come; it is the new report once the
    call has returned [Ok]; and a report that cannot be encoded leaves the
    file alone. *)
Lemma report_atomic {T} (to_vec_pretty : T → list Z + string) value description o d d' r :
  write_json_atomic to_vec_pretty value description o d = (d', r) →
  match to_vec_pretty value with
  | inr _ => d' = d ∧ is_err r = true
  | inl bytes =>
      (∀ c, AtomicFile.after_crash d' c → AtomicFile.after_crash d c ∨ c = AtomicFile.Bytes bytes)
      ∧ (r = Ok tt → AtomicFile.visible d' = AtomicFile.Bytes bytes
                     ∧ ∀ c, AtomicFile.after_crash d' c ↔ c = AtomicFile.Bytes bytes)
  end.
Proof.
  destruct (to_vec_pretty value) as [bytes|error] eqn:He.
  - rewrite (write_json_is_save_file _ _ _ _ bytes unobserved_points) by done.
    intros Hs. pose proof (AtomicFile.save_file_outcome noop_reached unobserved_points (described description o) bytes d) as Ho. rewrite Hs in Ho. unfold AtomicFile.after_crash.
    destruct Ho as [(Hv & -> & Hr)|[(Hv & -> & Hr)|(Hv & ->)]].
    + split; [by left|]. intros ->. done.
    + split; [intros c [->|?]%elem_of_cons; auto|]. intros ->. done.
    + split; [intros c ->%list_elem_of_singleton; by right|]. intros _. split; [done|].
      intros c. apply list_elem_of_singleton.
  - unfold write_json_atomic, bind, lift. rewrite He. intros [= <- <-]. done.
Qed.
