(* ===== verification/Chaos.v ===== *)
(** * The fault injectors (src/network/chaos.rs)

  A TCP proxy that delays, throttles, rejects, resets and stalls, and a layer
  that delays, drops and repeats decoded RPCs. Both are deterministic in their
  profile and their order of events: sockets are lists of what each read and
  write yields, and the number of bytes, the delays and the counters are
  computed. Durations are in nanoseconds. *)
From S2P Require Import Prelude Errors Types Membership Isr Recorder Durable Proposer Policy Mixing Metrics Report.

(** [Duration::saturating_add], and [+], which panics on overflow. *)
Definition duration_saturating_add (a b : Z) : Z := Z.min (a + b) Duration.MAX.
Definition duration_add (a b : Z) : option Z :=
  if a + b <=? Duration.MAX then Some (a + b) else None.

Definition duration_mod (max random : Z) : Z :=
  if max =? 0 then 0 else Z.min (random mod (max + 1)) U64.MAX.

(** [is_some_and(|interval| n % interval == 0)]. *)
Definition every (interval : option Z) (n : Z) : bool :=
  match interval with Some interval => n mod interval =? 0 | None => false end.

Module WanLinkProfile.
Record t : Type := mk {
  seed : Z;
  base_delay : Z;
  jitter : Z;
  bandwidth_bytes_per_second : option Z;
  fail_every : option Z;
  reset_after_bytes : option Z;
  blackhole_after_bytes : option Z;
}.

Definition validate (self : t) : Result unit :=
  reject bool_decide (bandwidth_bytes_per_second self = Some 0)
         || bool_decide (fail_every self = Some 0)
         || bool_decide (reset_after_bytes self = Some 0)
         || bool_decide (blackhole_after_bytes self = Some 0)
    with QuePaxaError.InvalidProposal "WAN profile rates and fault intervals must be non-zero" ;;
  Ok tt.

Definition default : t := mk 1 0 0 None None None None.

(** Every field is of its width. *)
Record typed (self : t) : Prop := {
  ty_seed : U64.fits (seed self);
  ty_base : 0 ≤ base_delay self ≤ Duration.MAX;
  ty_jitter : 0 ≤ jitter self ≤ Duration.MAX;
  ty_reset : ∀ n, reset_after_bytes self = Some n → U64.fits n;
  ty_blackhole : ∀ n, blackhole_after_bytes self = Some n → U64.fits n;
}.
End WanLinkProfile.

(** [Arc<WanProxyCounters>], shared by the proxy, its tasks and observers. *)
Module WanProxyStats.
Record t : Type := mk {
  accepted_connections : Z;
  failed_connections : Z;
  forwarded_bytes : Z;
}.
Definition default : t := mk 0 0 0.
Definition accept (self : t) : t :=
  mk (NetworkMetrics.fetch_add (accepted_connections self) 1) (failed_connections self)
     (forwarded_bytes self).
Definition fail (self : t) : t :=
  mk (accepted_connections self) (NetworkMetrics.fetch_add (failed_connections self) 1)
     (forwarded_bytes self).
Definition forward (self : t) (n : Z) : t :=
  mk (accepted_connections self) (failed_connections self)
     (NetworkMetrics.fetch_add (forwarded_bytes self) n).
(** [WanProxyObserver::snapshot]. *)
Definition snapshot (self : t) : t := self.
End WanProxyStats.

(** ** One direction of a connection *)

Definition BUFFER : Z := 16 * 1024.

(** What a read yields, and how the writes that follow go: [Eof] with the
    outcome of the shutdown, data with that of [write_all] (how much of it was
    taken when it failed) and of [flush]. *)
Inductive read_event : Type :=
| ReadFails (error : string)
| Eof (shutdown_error : option string)
| Data (bytes : list Z) (write_error : option (string * nat)) (flush_error : option string).

Inductive ending : Type :=
| Returned (result : Result unit)
| Stalled
| Waiting.

(** What a direction did: the bytes the writer took, the bytes counted as
    forwarded, and the delays, in order. *)
Record copied : Type := Copied {
  written : list Z;
  counted : Z;
  delays : list Z;
  ends : ending;
}.

Definition reaches (limit : option Z) (total : Z) : bool :=
  match limit with Some limit => limit <=? total | None => false end.

Definition bandwidth_delay (profile : WanLinkProfile.t) (count : Z) : Z :=
  match WanLinkProfile.bandwidth_bytes_per_second profile with
  | Some rate => Z.min (count * 1000000000 / rate) U64.MAX
  | None => 0
  end.

Definition delay_of (profile : WanLinkProfile.t) (random count : Z) : Z :=
  duration_saturating_add
    (duration_saturating_add (WanLinkProfile.base_delay profile)
       (duration_mod (WanLinkProfile.jitter profile) random))
    (bandwidth_delay profile count).

Definition chaos_error (what error : string) : Result unit :=
  Err (QuePaxaError.TransportError ("chaos proxy " +:+ what +:+ " failed: " +:+ error)).

Fixpoint copy_shaped (profile : WanLinkProfile.t) (total random : Z) (reads : list read_event)
    : copied :=
  match reads with
  | [] => Copied [] 0 [] Waiting
  | ReadFails error :: _ => Copied [] 0 [] (Returned (chaos_error "read" error))
  | Eof (Some error) :: _ => Copied [] 0 [] (Returned (chaos_error "shutdown" error))
  | Eof None :: _ => Copied [] 0 [] (Returned (Ok tt))
  | Data bytes write_error flush_error :: reads =>
      let total := U64.saturating_add total (len bytes) in
      if reaches (WanLinkProfile.blackhole_after_bytes profile) total
      then Copied [] 0 [] Stalled
      else if reaches (WanLinkProfile.reset_after_bytes profile) total
      then Copied [] 0 [] (Returned (Ok tt))
      else
      let random := xorshift random in
      let delay := delay_of profile random (len bytes) in
      match write_error with
      | Some (error, taken) =>
          Copied (take taken bytes) 0 [delay] (Returned (chaos_error "write" error))
      | None =>
      match flush_error with
      | Some error => Copied bytes (len bytes) [delay] (Returned (chaos_error "flush" error))
      | None =>
          let rest := copy_shaped profile total random reads in
          Copied (bytes ++ written rest) (len bytes + counted rest) (delay :: delays rest) (ends rest)
      end
      end
  end.

(** The bytes that were read. *)
Definition input_of (reads : list read_event) : list Z :=
  reads ≫= λ e, match e with Data bytes _ _ => bytes | _ => [] end.

(** A read fills at most the buffer, and an empty one is the end. *)
Definition read_ok (e : read_event) : Prop :=
  match e with Data bytes _ _ => 0 < len bytes ≤ BUFFER | _ => True end.

(** ** What passes through *)

Lemma copy_prefix profile total random reads :
  written (copy_shaped profile total random reads) `prefix_of` input_of reads.
Proof.
  revert total random. induction reads as [|e reads IH]; intros total random; [done|].
  destruct e as [error|[error|]|bytes we fe]; cbn [copy_shaped]; try apply prefix_nil.
  destruct (reaches _ _); [apply prefix_nil|]. destruct (reaches _ _); [apply prefix_nil|].
  unfold input_of. cbn [mbind list_bind]. fold (input_of reads).
  destruct we as [[error taken]|]; simpl.
  - etrans; [|by eexists]. exists (drop taken bytes). by rewrite take_drop.
  - destruct fe; simpl; [by eexists|]. apply prefix_app, IH.
Qed.

Lemma copy_counted profile total random reads :
  0 ≤ counted (copy_shaped profile total random reads)
  ≤ len (written (copy_shaped profile total random reads)).
Proof.
  revert total random. induction reads as [|e reads IH]; intros total random; [done|].
  destruct e as [error|[error|]|bytes we fe]; cbn [copy_shaped]; try done.
  destruct (reaches _ _); [done|]. destruct (reaches _ _); [done|].
  destruct we as [[error taken]|]; simpl; [pose proof (len_nonneg (take taken bytes)); lia|].
  pose proof (len_nonneg bytes). destruct fe; simpl; [lia|]. rewrite len_app.
  specialize (IH (U64.saturating_add total (len bytes)) (xorshift random)). lia.
Qed.

(** Nothing that reaches a limit is forwarded. *)
Lemma copy_below_limit profile total random reads limit :
  WanLinkProfile.reset_after_bytes profile = Some limit
  ∨ WanLinkProfile.blackhole_after_bytes profile = Some limit →
  U64.fits limit → 0 ≤ total →
  written (copy_shaped profile (U64.saturating_add total 0) random reads) ≠ [] →
  total + len (written (copy_shaped profile (U64.saturating_add total 0) random reads)) < limit.
Proof.
  intros Hl [_ Hfit]. revert total random.
  assert (∀ t (bytes : list Z), U64.saturating_add (U64.saturating_add t 0) (len bytes)
            = U64.saturating_add (t + len bytes) 0) as Hsat.
  { intros t bytes. unfold U64.saturating_add. pose proof (len_nonneg bytes). lia. }
  induction reads as [|e reads IH]; intros total random Ht; [done|].
  destruct e as [error|[error|]|bytes we fe]; cbn [copy_shaped]; try done. rewrite Hsat.
  pose proof (len_nonneg bytes) as Hn.
  destruct (reaches (WanLinkProfile.blackhole_after_bytes profile) _) eqn:Hb; [done|].
  destruct (reaches (WanLinkProfile.reset_after_bytes profile) _) eqn:Hr; [done|].
  assert (total + len bytes < limit) as Hlt.
  { unfold U64.saturating_add in *. destruct Hl as [Hl|Hl]; rewrite Hl in *; simpl in *;
      [apply Z.leb_gt in Hr|apply Z.leb_gt in Hb]; lia. }
  destruct we as [[error taken]|]; simpl.
  - intros _. assert (len (take taken bytes) ≤ len bytes); [|lia].
    unfold len. rewrite length_take. lia.
  - destruct fe; simpl; [lia|]. intros _. rewrite len_app.
    destruct (written (copy_shaped profile (U64.saturating_add (total + len bytes) 0)
                (xorshift random) reads)) eqn:Hw; [rewrite len_nil; lia|].
    specialize (IH (total + len bytes) (xorshift random) ltac:(lia)). rewrite Hw in IH.
    specialize (IH ltac:(done)). lia.
Qed.

Lemma duration_mod_bound max random : 0 ≤ max → 0 ≤ duration_mod max random ≤ max.
Proof.
  intros Hm. unfold duration_mod. destruct (Z.eqb_spec max 0); [lia|].
  pose proof (Z.mod_pos_bound random (max + 1) ltac:(lia)). unfold U64.MAX. lia.
Qed.

Lemma delay_bounds profile random count :
  WanLinkProfile.typed profile → WanLinkProfile.validate profile = Ok tt → 0 ≤ count →
  let d := delay_of profile random count in
  Z.min (WanLinkProfile.base_delay profile + bandwidth_delay profile count) Duration.MAX ≤ d
  ≤ Z.min (WanLinkProfile.base_delay profile + WanLinkProfile.jitter profile
           + bandwidth_delay profile count) Duration.MAX.
Proof.
  intros Hty _ Hc d. subst d. unfold delay_of, duration_saturating_add.
  pose proof (duration_mod_bound (WanLinkProfile.jitter profile) random (proj1 (WanLinkProfile.ty_jitter _ Hty))).
  pose proof (WanLinkProfile.ty_base _ Hty). lia.
Qed.

Lemma copy_delays profile total random reads d :
  WanLinkProfile.typed profile → WanLinkProfile.validate profile = Ok tt →
  d ∈ delays (copy_shaped profile total random reads) →
  ∃ count, 0 ≤ count
    ∧ Z.min (WanLinkProfile.base_delay profile + bandwidth_delay profile count) Duration.MAX ≤ d
    ≤ Z.min (WanLinkProfile.base_delay profile + WanLinkProfile.jitter profile
             + bandwidth_delay profile count) Duration.MAX.
Proof.
  intros Hty Hv. revert total random. induction reads as [|e reads IH]; intros total random.
  { by intros ?%elem_of_nil. }
  destruct e as [error|[error|]|bytes we fe]; cbn [copy_shaped]; try by intros ?%elem_of_nil.
  destruct (reaches _ _); [by intros ?%elem_of_nil|]. destruct (reaches _ _); [by intros ?%elem_of_nil|].
  assert (∀ r, d = delay_of profile r (len bytes) → ∃ count, 0 ≤ count
    ∧ Z.min (WanLinkProfile.base_delay profile + bandwidth_delay profile count) Duration.MAX ≤ d
    ≤ Z.min (WanLinkProfile.base_delay profile + WanLinkProfile.jitter profile
             + bandwidth_delay profile count) Duration.MAX) as Hd.
  { intros r ->. exists (len bytes). split; [apply len_nonneg|]. apply delay_bounds; [done..|apply len_nonneg]. }
  destruct we as [[error taken]|]; simpl; [intros ->%list_elem_of_singleton; eauto|].
  destruct fe; simpl; [intros ->%list_elem_of_singleton; eauto|].
  intros [->|Hin]%elem_of_cons; [eauto|]. by eapply IH.
Qed.

(** Without faults. *)
Definition clean (e : read_event) : Prop :=
  match e with Data _ None None => True | _ => False end.

Lemma copy_clean profile total random reads :
  WanLinkProfile.reset_after_bytes profile = None → WanLinkProfile.blackhole_after_bytes profile = None →
  Forall clean reads →
  let out := copy_shaped profile total random (reads ++ [Eof None]) in
  written out = input_of reads ∧ counted out = len (input_of reads) ∧ ends out = Returned (Ok tt)
  ∧ length (delays out) = length reads.
Proof.
  intros Hr Hb. revert total random. induction reads as [|e reads IH]; intros total random Hc; [done|].
  apply Forall_cons in Hc as [He Hc]. destruct e as [| |bytes [] []]; try done.
  cbn -[input_of]. rewrite Hr, Hb. simpl reaches. cbn -[input_of].
  destruct (IH (U64.saturating_add total (len bytes)) (xorshift random) Hc) as (Hw & Hn & Hen & Hl).
  unfold input_of. cbn [mbind list_bind]. fold (input_of reads). rewrite Hw, Hn, len_app, Hl. done.
Qed.

(** ** A connection, and the proxy's loop *)

Definition outbound_seed (profile : WanLinkProfile.t) (connection : Z) : Z :=
  mix64 (Z.lxor (Z.lxor (WanLinkProfile.seed profile) connection) 0xa5a5a5a5a5a5a5a5).
Definition inbound_seed (profile : WanLinkProfile.t) (connection : Z) : Z :=
  mix64 (Z.lxor (Z.lxor (WanLinkProfile.seed profile) connection) 0x5a5a5a5a5a5a5a5a).

(** What a connection met until it ended: whether the target was reached, the
    events of both directions, and which returned first. *)
Inductive first_to_end : Type := Outbound | Inbound | Neither.
Record traffic : Type := Traffic {
  connect_error : option string;
  outbound : list read_event;
  inbound : list read_event;
  winner : first_to_end;
}.

Definition returned (e : ending) : option (Result unit) :=
  match e with Returned r => Some r | _ => None end.

(** The counters, the bytes to the server and to the client, and the result;
    [None]: neither direction has returned. *)
Definition proxy_connection (profile : WanLinkProfile.t) (connection : Z) (stats : WanProxyStats.t)
    (io : traffic) : WanProxyStats.t * list Z * list Z * option (Result unit) :=
  if every (WanLinkProfile.fail_every profile) connection
  then (WanProxyStats.fail stats, [], [], Some (Ok tt))
  else match connect_error io with
  | Some error => (stats, [], [], Some (chaos_error "target connect" error))
  | None =>
      let out := copy_shaped profile 0 (outbound_seed profile connection) (outbound io) in
      let back := copy_shaped profile 0 (inbound_seed profile connection) (inbound io) in
      (WanProxyStats.forward (WanProxyStats.forward stats (counted out)) (counted back),
       written out, written back,
       match winner io with
       | Outbound => returned (ends out)
       | Inbound => returned (ends back)
       | Neither => None
       end)
  end.

Module ReproducibleWanProxy.
Record t : Type := mk {
  profile : WanLinkProfile.t;
  next_connection : Z;
  stats : WanProxyStats.t;
  open : gset Z;
  result : option (Result unit);
}.

Definition bind (profile : WanLinkProfile.t) (bind_error : option string) : Result t :=
  let? _ := WanLinkProfile.validate profile in
  match bind_error with
  | Some error => Err (QuePaxaError.TransportError ("could not bind chaos proxy: " +:+ error))
  | None => Ok (mk profile 1 WanProxyStats.default ∅ None)
  end.

(** The loop selects between the token, the listener and finished tasks. A
    task that ends is reported with what it met; after the loop the remaining
    ones are aborted wherever they are. *)
Inductive action : Type :=
| Connects
| AcceptFails (error : string)
| Ends (connection : Z) (io : traffic)
| Panics (connection : Z) (error : string)
| Shutdown
| Aborted (connection : Z) (io : traffic).

Definition update (self : t) (stats : WanProxyStats.t) (open : gset Z) (result : option (Result unit)) : t :=
  mk (profile self) (next_connection self) stats open result.

Definition step (self : t) (a : action) : option t :=
  match result self, a with
  | None, Connects =>
      Some (mk (profile self) (NetworkMetrics.fetch_add (next_connection self) 1)
               (WanProxyStats.accept (stats self)) ({[next_connection self]} ∪ open self) None)
  | None, AcceptFails error =>
      Some (update self (stats self) (open self) (Some (chaos_error "accept" error)))
  | None, Ends connection io =>
      if negb (bool_decide (connection ∈ open self)) then None
      else match proxy_connection (profile self) connection (stats self) io with
      | (_, _, _, None) => None
      | (stats, _, _, Some r) =>
          Some (update self (if is_ok r then stats else WanProxyStats.fail stats)
                       (open self ∖ {[connection]}) None)
      end
  | None, Panics connection error =>
      if negb (bool_decide (connection ∈ open self)) then None
      else Some (update self (stats self) (open self ∖ {[connection]})
                   (Some (Err (QuePaxaError.TransportError ("chaos proxy task panicked: " +:+ error)))))
  | None, Shutdown => Some (update self (stats self) (open self) (Some (Ok tt)))
  | Some r, Aborted connection io =>
      if negb (bool_decide (connection ∈ open self)) then None
      else Some (update self (proxy_connection (profile self) connection (stats self) io).1.1.1
                        (open self ∖ {[connection]}) (Some r))
  | _, _ => None
  end.

Fixpoint steps (self : t) (actions : list action) : option t :=
  match actions with
  | [] => Some self
  | a :: actions => step self a ≫= λ self, steps self actions
  end.
End ReproducibleWanProxy.

(** Different directions and connections draw from different streams. *)
Lemma seeds_distinct profile i j :
  U64.fits (WanLinkProfile.seed profile) → 0 ≤ i < 2 ^ 63 → 0 ≤ j < 2 ^ 63 →
  (outbound_seed profile i = outbound_seed profile j → i = j)
  ∧ (inbound_seed profile i = inbound_seed profile j → i = j)
  ∧ outbound_seed profile i ≠ inbound_seed profile j.
Proof.
  intros Hs Hi Hj.
  assert (∀ x, 0 ≤ x < 2 ^ 63 → U64.fits x) as Hf by (unfold U64.fits, U64.MAX; lia).
  assert (∀ x k, 0 ≤ x < 2 ^ 63 → U64.fits k →
            U64.fits (Z.lxor (Z.lxor (WanLinkProfile.seed profile) x) k)) as Hfit.
  { intros x k Hx Hk. auto using lxor_fits. }
  assert (U64.fits 0xa5a5a5a5a5a5a5a5 ∧ U64.fits 0x5a5a5a5a5a5a5a5a) as [Ha H5]
    by (unfold U64.fits, U64.MAX; lia).
  unfold outbound_seed, inbound_seed. split_and!.
  - intros Heq%mix64_inj; [|by apply Hfit..]. by apply lxor_cancel_r, lxor_cancel in Heq.
  - intros Heq%mix64_inj; [|by apply Hfit..]. by apply lxor_cancel_r, lxor_cancel in Heq.
  - intros Heq%mix64_inj; [|by apply Hfit..].
    apply (f_equal (λ z, Z.testbit z 63)) in Heq. rewrite !Z.lxor_spec in Heq.
    assert (∀ x, 0 ≤ x < 2 ^ 63 → Z.testbit x 63 = false) as Hb.
    { intros x Hx. rewrite <-(Z.mod_small x (2 ^ 63)) by done. by apply Z.mod_pow2_bits_high. }
    rewrite (Hb i), (Hb j) in Heq by done. by destruct (Z.testbit (WanLinkProfile.seed profile) 63).
Qed.

(** Among the first [n] connections, [n / interval] are rejected. *)
Lemma every_count interval n :
  0 < interval →
  Z.of_nat (length (filter (λ k, every (Some interval) k = true) (seqZ 1 (Z.of_nat n))))
  = Z.of_nat n / interval.
Proof.
  intros Hi. induction n as [|n IH]; [by rewrite Z.div_0_l by lia|].
  rewrite Nat2Z.inj_succ. unfold Z.succ. rewrite seqZ_app by lia.
  replace (seqZ (1 + Z.of_nat n) 1) with [Z.of_nat n + 1] by (unfold seqZ; simpl; f_equal; lia).
  rewrite filter_app, length_app, Nat2Z.inj_add, IH, filter_cons, filter_nil.
  pose proof (Z.div_mod (Z.of_nat n) interval ltac:(lia)) as Hd.
  pose proof (Z.mod_pos_bound (Z.of_nat n) interval Hi) as Hm.
  case_decide as Hz; unfold every in Hz; rewrite Z.eqb_eq in Hz; simpl.
  - apply Z.mod_divide in Hz as [q Hq]; [|lia]. rewrite Hq, Z.div_mul by lia.
    assert (Z.of_nat n / interval = q - 1) as ->; [|lia]. symmetry.
    apply (Z.div_unique _ _ _ (interval - 1)); [left; lia|nia].
  - enough ((Z.of_nat n + 1) / interval = Z.of_nat n / interval) by lia.
    symmetry. apply (Z.div_unique _ _ _ (Z.of_nat n mod interval + 1)); [left|lia].
    destruct (Z.eq_dec (Z.of_nat n mod interval + 1) interval) as [He|]; [|lia].
    destruct Hz. apply Z.mod_divide; [lia|]. exists (Z.of_nat n / interval + 1). nia.
Qed.

(** The proxy is a link with faults and nothing else. Whatever the two
    endpoints send and however reads and writes go, each side receives a
    prefix of what the other sent, never changed, repeated or reordered;
    with a reset or stall limit fewer bytes than the limit; without faults
    everything, when the sender has closed. A connection whose number is a
    multiple of [fail_every] is rejected without reaching the target and
    counted as failed, which is one in [fail_every] of all connections. *)
Theorem proxy_forwards_a_prefix profile connection stats io stats' to_server to_client r :
  proxy_connection profile connection stats io = (stats', to_server, to_client, r) →
  to_server `prefix_of` input_of (outbound io) ∧ to_client `prefix_of` input_of (inbound io)
  ∧ (∀ limit, WanLinkProfile.reset_after_bytes profile = Some limit
       ∨ WanLinkProfile.blackhole_after_bytes profile = Some limit → 0 < limit → U64.fits limit →
       len to_server < limit ∧ len to_client < limit)
  ∧ (∀ reads, WanLinkProfile.fail_every profile = None → connect_error io = None →
       WanLinkProfile.reset_after_bytes profile = None →
       WanLinkProfile.blackhole_after_bytes profile = None →
       outbound io = reads ++ [Eof None] → Forall clean reads → to_server = input_of reads)
  ∧ (∀ interval, WanLinkProfile.fail_every profile = Some interval → connection mod interval = 0 →
       to_server = [] ∧ to_client = [] ∧ stats' = WanProxyStats.fail stats ∧ r = Some (Ok tt))
  ∧ ∀ interval (n : nat), 0 < interval →
      Z.of_nat (length (filter (λ k, every (Some interval) k = true) (seqZ 1 (Z.of_nat n))))
      = Z.of_nat n / interval.
Proof.
  assert (∀ seed reads limit, WanLinkProfile.reset_after_bytes profile = Some limit
       ∨ WanLinkProfile.blackhole_after_bytes profile = Some limit → 0 < limit → U64.fits limit →
       len (written (copy_shaped profile 0 seed reads)) < limit) as Hbelow.
  { intros seed reads limit Hl H0 Hf. pose proof (copy_below_limit profile 0 seed reads limit Hl Hf) as Hb.
    change (U64.saturating_add 0 0) with 0 in Hb.
    destruct (written (copy_shaped profile 0 seed reads)) eqn:Hw; [rewrite len_nil; lia|].
    specialize (Hb ltac:(lia) ltac:(done)). lia. }
  unfold proxy_connection. intros Hp. unfold every at 1 in Hp. pose proof every_count as Hcount.
  destruct (WanLinkProfile.fail_every profile) as [interval|] eqn:He.
  - destruct (Z.eqb_spec (connection mod interval) 0) as [Hz|Hz].
    + injection Hp as <- <- <- <-. split_and!; try apply prefix_nil; try done.
    + destruct (connect_error io) eqn:Hc; injection Hp as <- <- <- <-; split_and!;
        try apply prefix_nil; try apply copy_prefix; try done; naive_solver.
  - destruct (connect_error io) eqn:Hc; injection Hp as <- <- <- <-; split_and!;
      try apply prefix_nil; try apply copy_prefix; try done; try naive_solver.
    intros reads _ _ Hr Hb -> Hcl. by apply copy_clean.
Qed.

(** ** Several links *)

Module ReproducibleWanHarness.
Record link : Type := Link {
  name : string;
  listen : string;
  target : string;
  profile : WanLinkProfile.t;
}.
Record bound : Type := Bound {
  specification : link;
  bound_address : string;
  proxy : ReproducibleWanProxy.t;
}.
Record link_report : Type := LinkReport {
  report_name : string;
  report_listen : string;
  report_target : string;
  report_seed : Z;
  report_stats : WanProxyStats.t;
}.

(** How binding one listener and reading its address go. *)
Record socket : Type := Socket { bind_error : option string; local_addr : result string string }.

Fixpoint bind_links (links : list (link * socket)) : Result (list bound) :=
  match links with
  | [] => Ok []
  | (specification, io) :: links =>
      let? proxy := ReproducibleWanProxy.bind (profile specification) (bind_error io) in
      let? address := match local_addr io with
                      | Ok address => Ok address
                      | Err error => Err (QuePaxaError.TransportError
                          ("could not read chaos proxy address: " +:+ error))
                      end in
      let? rest := bind_links links in
      Ok (Bound specification address proxy :: rest)
  end.

Definition bind (links : list (link * socket)) : Result (list bound) :=
  reject is_empty links
    with QuePaxaError.InvalidProposal "WAN harness requires at least one link" ;;
  let names : gset string := list_to_set ((λ l, name l.1) <$> links) in
  reject negb (Z.of_nat (size names) =? len links) || bool_decide ("" ∈ names)
    with QuePaxaError.InvalidProposal "WAN harness link names must be non-empty and unique" ;;
  bind_links links.

Definition endpoints (self : list bound) : list (string * string) :=
  (λ l, (name (specification l), bound_address l)) <$> self.

(** [run]: the proxies return in some order; the first failure is the
    result, else the report of every link, with the counters of its proxy. *)
Definition run (self : list bound) (results : list (result string (Result unit)))
    (final : list ReproducibleWanProxy.t) (elapsed_millis : Z) : Result (Z * list link_report) :=
  let? _ := try_each (λ r,
    match r with
    | Ok r => r
    | Err error => Err (QuePaxaError.TransportError ("WAN harness task failed: " +:+ error))
    end) results in
  Ok (Z.min elapsed_millis U64.MAX,
      zip_with (λ l p, LinkReport (name (specification l)) (bound_address l)
                         (target (specification l)) (WanLinkProfile.seed (profile (specification l)))
                         (WanProxyStats.snapshot (ReproducibleWanProxy.stats p))) self final).

(** [WanHarnessReport::write_json]. *)
Definition write_json to_vec_pretty (report : Z * list link_report) (o : AtomicFile.io)
    : M AtomicFile.disk QuePaxaError.t unit :=
  write_json_atomic to_vec_pretty report "WAN report" o.
End ReproducibleWanHarness.

(** A harness has one running proxy per link, under distinct names, and no
    profile that could divide by zero. *)
Lemma harness_bound links self :
  ReproducibleWanHarness.bind links = Ok self →
  self ≠ [] ∧ NoDup (ReproducibleWanHarness.endpoints self).*1
  ∧ ReproducibleWanHarness.specification <$> self = links.*1
  ∧ Forall (λ l, WanLinkProfile.validate (ReproducibleWanHarness.profile
                   (ReproducibleWanHarness.specification l)) = Ok tt) self.
Proof.
  unfold ReproducibleWanHarness.bind. destruct (is_empty links) eqn:He; [done|].
  destruct (Z.eqb_spec (Z.of_nat (size (list_to_set ((λ l, ReproducibleWanHarness.name l.1) <$> links)
              : gset string))) (len links)) as [Hs|]; [|done]. simpl.
  case_bool_decide; [done|]. intros Hb.
  assert (ReproducibleWanHarness.specification <$> self = links.*1
          ∧ Forall (λ l, WanLinkProfile.validate (ReproducibleWanHarness.profile
                   (ReproducibleWanHarness.specification l)) = Ok tt) self) as [Hspec Hval].
  { clear -Hb. revert self Hb. induction links as [|[spec io] links IH]; intros self; simpl.
    - intros [= <-]. done.
    - unfold ReproducibleWanProxy.bind.
      destruct (WanLinkProfile.validate (ReproducibleWanHarness.profile spec)) as [[]|] eqn:Hv; [simpl|done].
      destruct (ReproducibleWanHarness.bind_error io); [done|]. simpl.
      destruct (ReproducibleWanHarness.local_addr io); [simpl|done].
      destruct (ReproducibleWanHarness.bind_links links) as [rest|]; [|done]. intros [= <-].
      destruct (IH rest eq_refl) as [Hs Hf]. csimpl. rewrite Hs. split; [done|]. by constructor. }
  assert ((ReproducibleWanHarness.endpoints self).*1
          = (λ l, ReproducibleWanHarness.name l.1) <$> links) as Hn.
  { trans (ReproducibleWanHarness.name <$> (ReproducibleWanHarness.specification <$> self)).
    - unfold ReproducibleWanHarness.endpoints. by rewrite <-!list_fmap_compose.
    - rewrite Hspec. by rewrite <-list_fmap_compose. }
  split_and!; [| |done..].
  - intros ->. apply is_empty_false in He. by destruct links.
  - rewrite Hn. apply size_list_to_set_NoDup. rewrite length_fmap. unfold len in Hs. lia.
Qed.

(** ** Faults of decoded RPCs *)

(** [AsyncRecorderClient] of src/network/async_proposer.rs: an endpoint that
    can be asked, with its state. *)
Class AsyncRecorderClient (V C : Type) : Type := {
  client_id : C → ReplicaId;
  client_record : C → RecordRequest.t V → C * Result (RecordReply.t V);
  client_inform : C → list (Decision.t V) → C * Result unit;
  client_status : C → SlotIndex → C * Result (option Z);
  client_install : C → MembershipChange.t V → C * Result unit;
}.

(** The trait's default methods. *)
Definition default_status {C} (c : C) (slot : SlotIndex) : C * Result (option Z) := (c, Ok None).
Definition default_install {V C} (c : C) (change : MembershipChange.t V) : C * Result unit :=
  (c, Err (QuePaxaError.InvalidReconfiguration
             "async recorder client does not support membership changes")).

(** A recorder in this process, asked directly. *)
#[global] Instance recorder_core_client {V} `{EqDecision V} (ensure_available : list V → Result unit)
    : AsyncRecorderClient V (RecorderCore.t V) := {|
  client_id := RecorderCore.id;
  client_record := λ r request, RecorderCore.record ensure_available request r;
  client_inform := λ r decisions, RecorderCore.inform_decisions decisions r;
  client_status := λ r slot, (r, Ok (RecorderCore.status r slot));
  client_install := λ r change, RecorderCore.install_membership change r;
|}.

Module RpcChaosProfile.
Record t : Type := mk {
  seed : Z;
  base_delay : Z;
  jitter : Z;
  drop_every : option Z;
  duplicate_every : option Z;
}.
Definition default : t := mk 1 0 0 None None.
End RpcChaosProfile.

Module ChaosRecorderClient.
Section client.
Context {V C : Type} `{!AsyncRecorderClient V C}.

Record t : Type := mk { inner : C; profile : RpcChaosProfile.t; sequence : Z }.

Definition new (inner : C) (profile : RpcChaosProfile.t) : Result t :=
  reject bool_decide (RpcChaosProfile.drop_every profile = Some 0)
         || bool_decide (RpcChaosProfile.duplicate_every profile = Some 0)
    with QuePaxaError.InvalidProposal "RPC chaos intervals must be non-zero" ;;
  Ok (mk inner profile 1).

Definition set_inner (self : t) (c : C) : t := mk c (profile self) (sequence self).

(** The sequence number and the delay; [None] is the panic of [+]. *)
Definition next (self : t) : option (t * Z * Z) :=
  let sequence := sequence self in
  let jitter := duration_mod (RpcChaosProfile.jitter (profile self))
                  (mix64 (Z.lxor (RpcChaosProfile.seed (profile self)) sequence)) in
  delay ← duration_add (RpcChaosProfile.base_delay (profile self)) jitter;
  Some (mk (inner self) (profile self) (NetworkMetrics.fetch_add sequence 1), sequence, delay).

Definition id (self : t) : ReplicaId := client_id (inner self).

(** Each call: the client afterwards, the delay slept and the answer. *)
Definition record (self : t) (request : RecordRequest.t V)
    : option (t * Z * Result (RecordReply.t V)) :=
  '(self, sequence, delay) ← next self;
  if every (RpcChaosProfile.drop_every (profile self)) sequence
  then Some (self, delay, Err (QuePaxaError.TransportError "RPC dropped by reproducible chaos profile"))
  else
  let duplicate := every (RpcChaosProfile.duplicate_every (profile self)) sequence in
  match client_record (inner self) request with
  | (c, Err e) => Some (set_inner self c, delay, Err e)
  | (c, Ok reply) =>
      let c := if duplicate then (client_record c request).1 else c in
      Some (set_inner self c, delay, Ok reply)
  end.

(** The other three only delay. *)
Definition delayed {A} (self : t) (call : C → C * A) : option (t * Z * A) :=
  '(self, _, delay) ← next self;
  let '(c, r) := call (inner self) in
  Some (set_inner self c, delay, r).

Definition inform_decisions (self : t) (decisions : list (Decision.t V)) :=
  delayed self (λ c, client_inform c decisions).
Definition status (self : t) (slot : SlotIndex) :=
  delayed self (λ c, client_status (V:=V) c slot).
Definition install_membership (self : t) (change : MembershipChange.t V) :=
  delayed self (λ c, client_install c change).
End client.
Arguments t : clear implicits.
End ChaosRecorderClient.

(** ** Recording twice *)

Section twice.
Context {V : Type} `{EqDecision V}.
Import RecorderCore.
Implicit Types s : RecorderCore.t V.
#[local] Arguments best_proposal : simpl never.

Lemma best_proposal_again o (p : Proposal.t V) :
  best_proposal (Some (best_proposal o p)) p = best_proposal o p.
Proof.
  unfold best_proposal. destruct o as [q|]; [|by destruct (ProposalKey.geb _ _)].
  destruct (ProposalKey.geb (Proposal.key q) (Proposal.key p)) eqn:Hg; [by rewrite Hg|].
  by destruct (ProposalKey.geb (Proposal.key p) (Proposal.key p)).
Qed.

(** A register absorbs a repeated record, and repeats its summary. *)
Lemma isr_record_again (r : IntervalSummaryRegister.t V) step p :
  let out := IntervalSummaryRegister.record r step p in
  IntervalSummaryRegister.record out.1 step p = out.
Proof.
  unfold IntervalSummaryRegister.record. simpl.
  destruct (Z.eqb_spec step (IntervalSummaryRegister.step r)) as [Heq|Hne]; simpl.
  - rewrite Heq, Z.eqb_refl. simpl. rewrite best_proposal_again.
    by destruct (IntervalSummaryRegister.first r).
  - destruct (Z.ltb_spec (IntervalSummaryRegister.step r) step); simpl.
    + rewrite Z.eqb_refl. simpl. pose proof (best_proposal_again None p) as Hb.
      change (best_proposal None p) with p in Hb. by rewrite Hb.
    + rewrite (proj2 (Z.eqb_neq _ _)) by done. by rewrite (proj2 (Z.ltb_ge _ _)) by done.
Qed.

(** A decision the recorder would only check. *)
Definition absorbed s (d : Decision.t V) : Prop := inform_decision d s = (s, Ok tt).

Lemma absorbed_iff s d :
  absorbed s d ↔ validate_decision s d = Ok tt
    ∧ (Decision.slot d ≤ pruned_through s
       ∨ ∃ e, decisions s !! Decision.slot d = Some e ∧ Decision.value_ids e = Decision.value_ids d).
Proof.
  unfold absorbed, inform_decision, bind, readr, reads, ret, throw, modify.
  destruct (validate_decision s d) as [[]|]; [|naive_solver].
  destruct (Z.leb_spec (Decision.slot d) (pruned_through s)); [naive_solver|].
  destruct (decisions s !! Decision.slot d) as [e|] eqn:He.
  - case_bool_decide; naive_solver lia.
  - split; [|naive_solver lia]. destruct (_ =? _); [done|]. intros Heq.
    apply (f_equal (λ p, decisions p.1 !! Decision.slot d)) in Heq. simpl in Heq.
    by rewrite lookup_insert_eq, He in Heq.
Qed.

(** What is absorbed stays so as the decisions grow. *)
Lemma absorbed_grows s s' d :
  config s' = config s → pruned_through s' = pruned_through s → decisions s ⊆ decisions s' →
  absorbed s d → absorbed s' d.
Proof.
  rewrite !absorbed_iff. intros Hc Hp Hd [Hv Ha]. rewrite (validate_decision_config s' s) by done.
  split; [done|]. rewrite Hp. destruct Ha as [?|(e & He & ?)]; [by left|right].
  exists e. split; [by eapply lookup_weaken|done].
Qed.

Lemma inform_absorbed d s s' : inform_decision d s = (s', Ok tt) → absorbed s' d.
Proof.
  intros Hi. pose proof Hi as Hc. apply inform_decision_cases in Hc as [->|(_&Hv&Hp&Hn&_&->)]; [done|].
  apply absorbed_iff. split; [by rewrite (validate_decision_config _ s)|]. right. exists d. simpl.
  by rewrite lookup_insert_eq.
Qed.

Lemma inform_all_absorbed ds s s' :
  for_each inform_decision ds s = (s', Ok tt) → ∀ d, d ∈ ds → absorbed s' d.
Proof.
  revert s. induction ds as [|d0 ds IH]; intros s; [by intros _ d ?%elem_of_nil|].
  cbn [for_each]. intros (s1 & [] & Hi & Hr)%bind_Ok d [->|Hd]%elem_of_cons; [|by eapply IH].
  pose proof (inform_all_learned ds s1) as Hl. rewrite Hr in Hl. destruct Hl as (Hc & _ & _ & Hp & Hd).
  by eapply absorbed_grows, inform_absorbed.
Qed.

Lemma inform_all_again ds s : (∀ d, d ∈ ds → absorbed s d) → for_each inform_decision ds s = (s, Ok tt).
Proof.
  induction ds as [|d ds IH]; intros Ha; [done|]. simpl. unfold bind at 1.
  rewrite (Ha d) by left. apply IH. intros d' ?. apply Ha. by right.
Qed.

(** Serving a request again leaves the recorder as it is and gives the same
    reply. *)
Lemma record_again ea req s s' reply :
  record ea req s = (s', Ok reply) → record ea req s' = (s', Ok reply).
Proof.
  intros Hrec. pose proof (record_Ok ea req s s' reply Hrec) as Hok.
  set (slot := RecordRequest.slot req) in *. set (leader := RecordRequest.round_one_leader req) in *.
  set (out := IntervalSummaryRegister.record (register s slot) (RecordRequest.step req)
                (RecordRequest.proposal req)) in *.
  destruct Hok as (Hv & Hp & Hl & Hcap & mid & Hle & Hmid & Hs' & Hreply).
  assert (ea (Proposal.value_ids (RecordRequest.proposal req)) = Ok tt) as Hea.
  { unfold record in Hrec. apply bind_Ok in Hrec as (s1 & [] & [= <- _] & Hrec).
    apply bind_Ok in Hrec as (s1 & x & [= <- <-] & Hrec).
    destruct (_ <=? _); [done|]. destruct (match _ with Some _ => _ | None => _ end); [done|].
    apply bind_Ok in Hrec as (s2 & [] & Hea & _). unfold lift in Hea. by injection Hea. }
  destruct (Hle) as (Hc & Hsl & Hld & Hpt & _).
  assert (config s' = config s ∧ pruned_through s' = pruned_through s
    ∧ decisions s' = decisions mid ∧ round_one_leaders s' !! slot = Some leader
    ∧ slots s' !! slot = Some out.1) as (Hc' & Hp' & Hd' & Hl' & Hsl').
  { rewrite Hs'. unfold bind_leader. rewrite Hld.
    destruct Hl as [Hn|Hn]; rewrite Hn; simpl; rewrite ?Hld, ?lookup_insert_eq; by split_and!. }
  assert (for_each inform_decision (RecordRequest.known_decisions req) s' = (s', Ok tt)) as Hagain.
  { apply inform_all_again. intros d Hd.
    eapply absorbed_grows, (inform_all_absorbed _ _ _ Hmid d Hd); [congruence..|by rewrite Hd']. }
  unfold record, bind at 1, readr at 1.
  assert (validate_request s' req = Ok tt) as ->.
  { rewrite <-Hv. unfold validate_request, limits. rewrite Hc'.
    by rewrite (validate_proposal_config s' s) by done. }
  unfold bind at 1, reads at 1. fold slot leader. rewrite Hp', (proj2 (Z.leb_gt _ _)) by done.
  rewrite Hl', bool_decide_true by done. change (negb true) with false. cbv iota.
  unfold bind at 1, lift. rewrite Hea. unfold bind at 1. rewrite Hagain.
  unfold bind at 1, reads at 1. rewrite Hsl'. rewrite (bool_decide_false (Some _ = None)) by done.
  rewrite andb_false_l. cbv iota. unfold bind at 1, modify. unfold bind_leader. rewrite Hl'. unfold bind, record_slot.
  rewrite Hsl'. cbn [default from_option Datatypes.id].
  assert (IntervalSummaryRegister.record out.1 (RecordRequest.step req) (RecordRequest.proposal req) = out)
    as -> by apply isr_record_again.
  assert (set_slots s' (<[slot := out.1]> (slots s')) = s') as Hset.
  { rewrite insert_id by done. by destruct s'. }
  change (reply = RecordReply.mk (id s) (cluster s) out.2 (decisions mid !! slot)) in Hreply.
  clearbody out. destruct out as [isr summary]. cbn [fst snd] in *. rewrite Hset. unfold reads, id, cluster in *.
  by rewrite Hc', Hd', Hreply.
Qed.

(** C30: Repeated RPCs are harmless. In front of a recorder, the fault layer
    either drops a request before the recorder sees it, or gives the recorder's
    own reply and leaves the recorder as one delivery would, also when its
    profile delivers the request twice. *)
Theorem duplicated_rpc_is_harmless ea (self self' : ChaosRecorderClient.t (RecorderCore.t V)) request
    delay r :
  ChaosRecorderClient.record (AsyncRecorderClient0:=recorder_core_client ea) self request
    = Some (self', delay, r) →
  let recorder := ChaosRecorderClient.inner self in
  (ChaosRecorderClient.inner self', r) = RecorderCore.record ea request recorder
  ∨ (ChaosRecorderClient.inner self' = recorder
     ∧ r = Err (QuePaxaError.TransportError "RPC dropped by reproducible chaos profile")
     ∧ every (RpcChaosProfile.drop_every (ChaosRecorderClient.profile self))
             (ChaosRecorderClient.sequence self) = true).
Proof.
  unfold ChaosRecorderClient.record, ChaosRecorderClient.next.
  destruct (duration_add _ _) as [delay'|]; [simpl|done].
  destruct (every (RpcChaosProfile.drop_every _) _) eqn:Hdrop.
  { intros [= <- _ <-]. by right. }
  destruct (RecorderCore.record ea request (ChaosRecorderClient.inner self)) as [c [reply|e]] eqn:Hrec;
    intros [= <- _ <-]; left; simpl; [|done].
  destruct (every (RpcChaosProfile.duplicate_every _) _); [|done].
  by rewrite (record_again _ _ _ _ _ Hrec).
Qed.
End twice.

(** ** Concrete runs *)

Module ChaosRuns.
Definition lossy : WanLinkProfile.t := WanLinkProfile.mk 7 1000 500 (Some 1000000) (Some 3) (Some 4) None.
Definition talk : traffic :=
  Traffic None [Data [1; 2; 3] None None; Data [4; 5] None None] [Data [9] None None; Eof None] Outbound.

Lemma proxy_forwards_a_prefix_witness :
  (proxy_connection lossy 1 WanProxyStats.default talk).1.1.2 = [1; 2; 3]
  ∧ [1; 2; 3] `prefix_of` input_of (outbound talk) ∧ len [1; 2; 3] < 4.
Proof.
  destruct (proxy_connection lossy 1 WanProxyStats.default talk) as [[[stats out] back] r] eqn:Hp.
  assert (out = [1; 2; 3]) as Ho.
  { change out with ((stats, out, back, r).1.1.2). rewrite <-Hp. vm_compute. reflexivity. }
  destruct (proxy_forwards_a_prefix lossy 1 WanProxyStats.default talk stats out back r Hp)
    as (Hpre & _ & Hlim & _).
  rewrite Ho in *. split; [reflexivity|]. split; [exact Hpre|].
  apply (Hlim 4); [left; reflexivity|reflexivity|vm_compute; split; discriminate].
Defined.

(** The chunk that reaches [reset_after_bytes] is dropped, so the connection
    is closed before that many bytes were forwarded; a first chunk that large
    means that none are. *)
Theorem reset_closes_before_its_limit :
  let profile := WanLinkProfile.mk 1 0 0 None None (Some 4) None in
  copy_shaped profile 0 1 [Data [1; 2; 3] None None; Data [4; 5] None None]
    = Copied [1; 2; 3] 3 [0] (Returned (Ok tt))
  ∧ copy_shaped profile 0 1 [Data [1; 2; 3; 4] None None] = Copied [] 0 [] (Returned (Ok tt)).
Proof. split; vm_compute; reflexivity. Qed.

(** A delay that the proxy clamps to the longest duration makes the RPC layer
    panic. *)
Definition longest : RpcChaosProfile.t := RpcChaosProfile.mk 2 Duration.MAX 1000 None None.
Theorem rpc_delay_overflow_panics :
  delay_of (WanLinkProfile.mk 1 Duration.MAX 1000 None None None None) 5 0 = Duration.MAX
  ∧ ∃ client, ChaosRecorderClient.new tt longest = Ok client ∧ ChaosRecorderClient.next client = None.
Proof.
  split; [vm_compute; reflexivity|]. exists (ChaosRecorderClient.mk tt longest 1).
  split; vm_compute; reflexivity.
Qed.

Definition cluster : ClusterIdentity.t := ClusterIdentity.mk [1; 2; 3] 1 0 None.
Definition recorder : RecorderCore.t Z :=
  RecorderCore.new (RecorderConfig.mk 2 cluster RecorderLimits.default).
Definition request : RecordRequest.t Z :=
  RecordRequest.mk 1 1 (Some 1) 4 (Proposal.mk (ProposalKey.new Priority.MAX 1 0) [10])
    [Decision.mk 3 [30] 1 4].
Definition repeating : ChaosRecorderClient.t (RecorderCore.t Z) :=
  ChaosRecorderClient.mk recorder (RpcChaosProfile.mk 1 0 1000 (Some 2) (Some 1)) 1.
Definition available (ids : list Z) : Result unit := Ok tt.
Definition after_repeat :=
  default (repeating, 0, Err QuePaxaError.EmptyProposal)
    (ChaosRecorderClient.record (AsyncRecorderClient0:=recorder_core_client available) repeating request).

Lemma duplicated_rpc_is_harmless_witness :
  (ChaosRecorderClient.inner after_repeat.1.1, after_repeat.2)
  = RecorderCore.record available request recorder
  ∧ is_ok after_repeat.2 = true.
Proof.
  destruct after_repeat as [[self' delay] r] eqn:Hr.
  destruct (duplicated_rpc_is_harmless available repeating self' request delay r) as [Heq|(_ & _ & Hd)].
  - rewrite <-Hr. vm_compute. reflexivity.
  - split; [exact Heq|]. change r with ((self', delay, r).2). rewrite <-Hr. vm_compute. reflexivity.
  - discriminate.
Defined.
End ChaosRuns.
