(* ===== verification/Load.v ===== *)
(** * The open-loop load generator (src/network/load.rs)

  Requests arrive at times drawn from the seed, whatever the servers do; a
  request that finds [max_in_flight] others running is dropped. The clock, the
  answers and their order are the environment of a run. Floating-point
  arithmetic is IEEE binary64 ([SpecFloat]); [f64::ln], whose precision the
  language leaves open, is a parameter. Durations and instants are in
  nanoseconds. *)
From Stdlib Require Import SpecFloat.
From stdpp Require Import sorting.
From S2P Require Import Prelude Errors Types Policy Durable Codec Wire Transport Mixing Listener Report.

(** ** [f64] and durations *)

Module F64.
Definition t : Type := spec_float.
Definition prec : Z := 53.
Definition emax : Z := 1024.
(** [n as f64]. *)
Definition of_u64 (n : Z) : t := binary_normalize prec emax n 0 false.
Definition add (x y : t) : t := SFadd prec emax x y.
Definition div (x y : t) : t := SFdiv prec emax x y.
Definition neg (x : t) : t := SFopp x.
End F64.

(** [num / den], rounded to the nearest integer and ties to the even one. *)
Definition round_half_even (num den : Z) : Z :=
  let q := num / den in
  match 2 * (num mod den) ?= den with
  | Lt => q
  | Gt => q + 1
  | Eq => if Z.even q then q else q + 1
  end.

(** [Duration::from_secs_f64], which panics when the argument is negative, not
    finite or too large. *)
Definition from_secs_f64 (secs : F64.t) : option Z :=
  match secs with
  | S754_zero _ => Some 0
  | S754_finite false m e =>
      let nanos := round_half_even (Zpos m * 1000000000 * 2 ^ Z.max e 0) (2 ^ Z.max (- e) 0) in
      if nanos <=? Duration.MAX then Some nanos else None
  | _ => None
  end.

(** [Duration::as_secs_f64]. *)
Definition as_secs_f64 (duration : Z) : F64.t :=
  F64.add (F64.of_u64 (duration / 1000000000))
          (F64.div (F64.of_u64 (duration mod 1000000000)) (F64.of_u64 1000000000)).

(** ** Clients *)

(** [TlsSubmitClient]'s instance of [U64SubmissionClient]. *)
Definition submit_u64 `{!U32Stream, !Postcard (NodeRequest.t Z), !Postcard (NodeResponse.t Z)}
    (self : TlsSubmitClient.t) (request_id value_id : Z) (conn : TlsRpcClient.connection)
    : TlsSubmitClient.t * Result (SubmissionOutcome.t Z) :=
  TlsSubmitClient.submit self request_id [value_id] conn.

Module OpenLoopLoadConfig.
Record t : Type := mk {
  seed : Z;
  requests_per_second : Z;
  duration : Z;
  max_in_flight : Z;
}.

Definition validate (self : t) : Result unit :=
  reject (requests_per_second self =? 0) || (duration self =? 0) || (max_in_flight self =? 0)
    with QuePaxaError.InvalidProposal "load rate, duration, and max in-flight requests must be non-zero" ;;
  Ok tt.

Definition typed (self : t) : Prop :=
  U64.fits (seed self) ∧ U64.fits (requests_per_second self)
  ∧ 0 ≤ duration self ≤ Duration.MAX ∧ U64.fits (max_in_flight self).
End OpenLoopLoadConfig.

Module OpenLoopLoadReport.
Record t : Type := mk {
  seed : Z;
  requested_rate : Z;
  elapsed_millis : Z;
  offered : Z;
  committed : Z;
  accepted : Z;
  duplicates : Z;
  errors : Z;
  dropped_overload : Z;
  achieved_success_per_second : F64.t;
  latency_p50_micros : Z;
  latency_p99_micros : Z;
}.

Definition write_json to_vec_pretty (self : t) (o : AtomicFile.io)
    : M AtomicFile.disk QuePaxaError.t unit :=
  write_json_atomic to_vec_pretty self "load report" o.
End OpenLoopLoadReport.

(** [values[index]] panics out of range, and so does a product beyond [usize]. *)
Definition percentile (values : list Z) (percentile : Z) : option Z :=
  if is_empty values then Some 0 else
  scaled ← U64.checked_mul (len values - 1) percentile;
  values !! Z.to_nat (scaled / 100).

(** ** The generator *)

(** What [join_next] yields for a task: its result, or the task's panic. *)
Inductive joined : Type :=
| Returned (latency : Z) (outcome : Result (SubmissionOutcome.t Z))
| TaskFailed (error : string).

(** The task of a request ends. *)
Record completion : Type := Completion { completed : Z; result : joined }.

Module OpenLoopLoadGenerator.
Record t {C : Type} : Type := mk { client : C; config : OpenLoopLoadConfig.t }.
Arguments t : clear implicits.
Arguments mk {C}.

Definition new {C} (client : C) (config : OpenLoopLoadConfig.t) : Result (t C) :=
  let? _ := OpenLoopLoadConfig.validate config in
  Ok (mk client config).

(** The variables of the first loop of [run]; the task set is split into the
    requests still running and the results not yet joined, in their order. *)
Record progress : Type := Progress {
  random : Z;
  request_id : Z;
  offered : Z;
  dropped : Z;
  next_at : Z;
  permits : Z;
  running : list (Z * Z);
  finished : list joined;
  calls : list (Z * Z);
}.

Definition complete (st : progress) (c : completion) : progress :=
  if existsb (λ task, task.1 =? completed c) (running st) then
    Progress (random st) (request_id st) (offered st) (dropped st) (next_at st)
      (Semaphore.release (permits st))
      (List.filter (λ task, negb (task.1 =? completed c)) (running st))
      (finished st ++ [result c]) (calls st)
  else st.

(** How a computation goes on: it may fail, and it may panic. *)
Inductive flow (A : Type) : Type :=
| Next (a : A)
| Failed (error : QuePaxaError.t)
| Panicked.
Arguments Next {A}.
Arguments Failed {A}.
Arguments Panicked {A}.

Section run.
(** [f64::ln], and the last instant the platform represents. *)
Context (ln : F64.t → F64.t) (instant_limit : Z).

Definition instant_add (instant duration : Z) : option Z :=
  if instant + duration <=? instant_limit then Some (instant + duration) else None.

(** The time to the next arrival. *)
Definition interval (config : OpenLoopLoadConfig.t) (random : Z) : option Z :=
  let unit := F64.div (F64.add (F64.of_u64 random) (F64.of_u64 1))
                      (F64.add (F64.of_u64 U64.MAX) (F64.of_u64 2)) in
  let interval := F64.div (F64.neg (ln unit))
                          (F64.of_u64 (OpenLoopLoadConfig.requests_per_second config)) in
  from_secs_f64 interval.

(** An arrival: the tasks that ended since the last one have released their
    permits. *)
Definition arrive (config : OpenLoopLoadConfig.t) (ended : list completion) (st : progress)
    : flow progress :=
  let st := foldl complete st ended in
  let offered := U64.saturating_add (offered st) 1 in
  match U64.checked_add (request_id st) 1 with
  | None => Failed (QuePaxaError.InvalidProposal "load request ID overflowed")
  | Some request_id =>
      let '(dropped, permits, spawned) :=
        match Semaphore.try_acquire (permits st) with
        | Some permits =>
            (dropped st, permits,
             [(request_id, mix64 (Z.lxor (OpenLoopLoadConfig.seed config) request_id))])
        | None => (U64.saturating_add (dropped st) 1, permits st, [])
        end in
      let random := xorshift (random st) in
      match interval config random with
      | None => Panicked
      | Some interval =>
          match instant_add (next_at st) interval with
          | None => Panicked
          | Some next_at =>
              Next (Progress random request_id offered dropped next_at permits
                      (running st ++ spawned) (finished st) (calls st ++ spawned))
          end
      end
  end.

(** The first loop; [ended n] are the tasks that end before the [n]-th arrival.
    [None] when the fuel is not enough. *)
Fixpoint generate (fuel : nat) (config : OpenLoopLoadConfig.t) (ended : Z → list completion)
    (deadline : Z) (st : progress) : option (flow progress) :=
  if next_at st <? deadline then
    match fuel with
    | O => None
    | S fuel =>
        match arrive config (ended (request_id st + 1)) st with
        | Next st => generate fuel config ended deadline st
        | stop => Some stop
        end
    end
  else Some (Next st).

(** The second loop. *)
Record tally : Type := Tally {
  committed : Z;
  accepted : Z;
  duplicates : Z;
  errors : Z;
  latencies : list Z;
}.

(** [counter += 1]. *)
Definition count (n : Z) (update : Z → tally) : flow tally :=
  match U64.checked_add n 1 with Some n => Next (update n) | None => Panicked end.

Definition join_next (t : tally) (j : joined) : flow tally :=
  match j with
  | TaskFailed error => Failed (QuePaxaError.TransportError ("load task failed: " +:+ error))
  | Returned latency outcome =>
      let latencies := latencies t ++ [Z.min (latency / 1000) U64.MAX] in
      match outcome with
      | Ok (SubmissionOutcome.Committed _) =>
          count (committed t) (λ n, Tally n (accepted t) (duplicates t) (errors t) latencies)
      | Ok SubmissionOutcome.Accepted =>
          count (accepted t) (λ n, Tally (committed t) n (duplicates t) (errors t) latencies)
      | Ok (SubmissionOutcome.Duplicate _) =>
          count (duplicates t) (λ n, Tally (committed t) (accepted t) n (errors t) latencies)
      | Err _ =>
          count (errors t) (λ n, Tally (committed t) (accepted t) (duplicates t) n latencies)
      end
  end.

Fixpoint join_all (results : list joined) (t : tally) : flow tally :=
  match results with
  | [] => Next t
  | j :: results =>
      match join_next t j with
      | Next t => join_all results t
      | Failed e => Failed e
      | Panicked => Panicked
      end
  end.

(** The report: [None] when an addition or an index panics. *)
Definition report_of (config : OpenLoopLoadConfig.t) (st : progress) (t : tally) (elapsed : Z)
    : option OpenLoopLoadReport.t :=
  let latencies := merge_sort Z.le (latencies t) in
  some_committed ← U64.checked_add (committed t) (accepted t);
  successes ← U64.checked_add some_committed (duplicates t);
  p50 ← percentile latencies 50;
  p99 ← percentile latencies 99;
  Some (OpenLoopLoadReport.mk (OpenLoopLoadConfig.seed config)
          (OpenLoopLoadConfig.requests_per_second config)
          (Z.min (elapsed / 1000000) U64.MAX) (offered st)
          (committed t) (accepted t) (duplicates t) (errors t) (dropped st)
          (F64.div (F64.of_u64 successes) (as_secs_f64 elapsed)) p50 p99).

(** A run's environment: when it starts, which tasks end before each arrival
    and which after the last one, and how long it took. *)
Record environment : Type := Environment {
  started : Z;
  ended : Z → list completion;
  late : list completion;
  elapsed : Z;
}.

(** A run that panics, waits for tasks that never end, or returns. *)
Inductive ran : Type :=
| Panics
| Waits
| Returns (result : Result OpenLoopLoadReport.t).

Definition begin (config : OpenLoopLoadConfig.t) (permits started : Z) : progress :=
  Progress (Z.max (OpenLoopLoadConfig.seed config) 1) 0 0 0 started permits [] [] [].

Definition run {C} (fuel : nat) (self : t C) (env : environment) : option ran :=
  let config := config self in
  match instant_add (started env) (OpenLoopLoadConfig.duration config),
        Semaphore.new (OpenLoopLoadConfig.max_in_flight config) with
  | Some deadline, Some permits =>
      flow ← generate fuel config (ended env) deadline (begin config permits (started env));
      Some (match flow with
      | Panicked => Panics
      | Failed e => Returns (Err e)
      | Next st =>
          let st := foldl complete st (late env) in
          match join_all (finished st) (Tally 0 0 0 0 []) with
          | Panicked => Panics
          | Failed e => Returns (Err e)
          | Next t =>
              if is_empty (running st) then
                match report_of config st t (elapsed env) with
                | Some report => Returns (Ok report)
                | None => Panics
                end
              else Waits
          end
      end)
  | _, _ => Some Panics
  end.
End run.
End OpenLoopLoadGenerator.
Import OpenLoopLoadGenerator.

(** ** What a run keeps *)

(** The request of an ID. *)
Definition request_of (config : OpenLoopLoadConfig.t) (id : Z) : Z * Z :=
  (id, mix64 (Z.lxor (OpenLoopLoadConfig.seed config) id)).

(** Every arrival is a request that was dropped, is running, or has ended; the
    running ones hold the permits. *)
Record steady (config : OpenLoopLoadConfig.t) (st : progress) : Prop := {
  st_permits : permits st + len (running st) = OpenLoopLoadConfig.max_in_flight config;
  st_free : 0 ≤ permits st;
  st_offered : offered st = request_id st;
  st_width : U64.fits (request_id st);
  st_dropped : 0 ≤ dropped st;
  st_sum : offered st = dropped st + len (running st) + len (finished st);
  st_unique : NoDup (running st).*1;
  st_running : ∀ task, task ∈ running st → task.1 ≤ request_id st;
  st_calls : ∃ ids, calls st = map (request_of config) ids ∧ NoDup ids
                    ∧ ∀ id, id ∈ ids → 1 ≤ id ≤ request_id st;
  st_called : len (calls st) = offered st - dropped st;
}.

(** Removing the one task of an ID. *)
Lemma remove_task (tasks : list (Z * Z)) id :
  NoDup tasks.*1 →
  let rest := List.filter (λ task, negb (task.1 =? id)) tasks in
  NoDup rest.*1 ∧ (∀ task, task ∈ rest → task ∈ tasks)
  ∧ (existsb (λ task, task.1 =? id) tasks = true → len tasks = len rest + 1)
  ∧ (existsb (λ task, task.1 =? id) tasks = false → rest = tasks).
Proof.
  induction tasks as [|[n v] tasks IH]; simpl; [intros _; split_and!; first [by apply NoDup_nil | done]|].
  intros [Hn Hu]%NoDup_cons. destruct (IH Hu) as (IHu & IHs & IHt & IHf).
  destruct (Z.eqb_spec n id) as [->|Hne]; simpl.
  - assert (existsb (λ task, task.1 =? id) tasks = false) as He.
    { apply not_true_is_false. intros [[m w] [Hin Hm]]%existsb_exists. apply Hn.
      apply list_elem_of_fmap. exists (m, w). simpl in *. split; [lia|by apply list_elem_of_In]. }
    rewrite (IHf He) in *. split_and!; [done|intros task; rewrite elem_of_cons; auto| |done].
    intros _. rewrite len_cons. lia.
  - split_and!.
    + apply NoDup_cons. split; [|done]. intros ([m w] & Hm & Hin)%list_elem_of_fmap.
      apply Hn. apply list_elem_of_fmap. exists (m, w). auto.
    + intros task. rewrite !elem_of_cons. naive_solver.
    + intros He. rewrite !len_cons, IHt by done. lia.
    + intros He. by rewrite IHf.
Qed.

Lemma complete_steady config st c : steady config st → steady config (complete st c).
Proof.
  intros []. unfold complete. destruct (existsb _ _) eqn:He; [|by constructor].
  destruct (remove_task (running st) (completed c)) as (Hu & Hs & Ht & _); [done|].
  specialize (Ht He). constructor; simpl; try done.
  - unfold Semaphore.release. lia.
  - unfold Semaphore.release. lia.
  - rewrite len_app, len_cons, len_nil. lia.
  - intros task Htask. auto.
Qed.

Lemma completes_steady config cs : ∀ st, steady config st → steady config (foldl complete st cs).
Proof. induction cs as [|c cs IH]; simpl; [done|]. intros st Hst. by apply IH, complete_steady. Qed.

Section properties.
Context (ln : F64.t → F64.t) (instant_limit : Z).
#[local] Abbreviation arrive := (arrive ln instant_limit).
#[local] Abbreviation generate := (generate ln instant_limit).
#[local] Abbreviation run := (run ln instant_limit).

Lemma completes_arrivals cs : ∀ st,
  random (foldl complete st cs) = random st ∧ request_id (foldl complete st cs) = request_id st
  ∧ offered (foldl complete st cs) = offered st ∧ next_at (foldl complete st cs) = next_at st
  ∧ dropped (foldl complete st cs) = dropped st.
Proof.
  induction cs as [|c cs IH]; intros st; simpl; [done|].
  destruct (IH (complete st c)) as (-> & -> & -> & -> & ->). unfold complete.
  by destruct (existsb _ _).
Qed.

Lemma arrive_Next config ended st st' :
  arrive config ended st = Next st' →
  let st := foldl complete st ended in
  ∃ i, interval ln config (xorshift (random st)) = Some i
  ∧ random st' = xorshift (random st) ∧ request_id st' = request_id st + 1
  ∧ request_id st + 1 ≤ U64.MAX
  ∧ offered st' = U64.saturating_add (offered st) 1 ∧ next_at st' = next_at st + i
  ∧ finished st' = finished st
  ∧ (let call := request_of config (request_id st') in
     (0 < permits st ∧ permits st' = permits st - 1 ∧ dropped st' = dropped st
      ∧ running st' = running st ++ [call] ∧ calls st' = calls st ++ [call])
     ∨ (permits st ≤ 0 ∧ permits st' = permits st ∧ dropped st' = U64.saturating_add (dropped st) 1
        ∧ running st' = running st ∧ calls st' = calls st)).
Proof.
  intros Ha st1. unfold arrive in Ha. fold st1 in Ha. revert Ha. generalize st1. clear st st1. intros st.
  destruct (U64.checked_add _ _) as [id|] eqn:Hid; [|done].
  apply U64.checked_add_Some in Hid as [-> Hle].
  unfold Semaphore.try_acquire, instant_add.
  destruct (Z.ltb_spec 0 (permits st)) as [Hp|Hp];
    (destruct (interval _ _ _) as [i|] eqn:Hi; [|done]);
    (destruct (_ <=? _); [|done]); intros [= <-]; exists i; simpl; split_and!; try done.
  - left. by split_and!.
  - right. by rewrite !app_nil_r.
Qed.

Lemma arrive_steady config ended st st' :
  steady config st → arrive config ended st = Next st' → steady config st'.
Proof.
  intros Hst Ha. apply arrive_Next in Ha as (i & _ & _ & Hid & Hle & Hoff & _ & Hfin & Hcase).
  apply (completes_steady config ended) in Hst. revert Hst Hid Hle Hoff Hfin Hcase.
  generalize (foldl complete st ended). clear st. intros st [] Hid Hle Hoff Hfin Hcase.
  pose proof (len_nonneg (running st)). pose proof (len_nonneg (finished st)).
  unfold U64.saturating_add, U64.fits in *. rewrite Hid in Hcase.
  assert (∀ ids : list Z, (∀ id, id ∈ ids → 1 ≤ id ≤ request_id st) → request_id st + 1 ∉ ids) as Hfresh.
  { intros ids Hids Hin. specialize (Hids _ Hin). lia. }
  destruct st_calls0 as (ids & Hcalls & Hnd & Hids).
  destruct Hcase as [(Hp & Hp' & Hd & Hr & Hc)|(Hp & Hp' & Hd & Hr & Hc)];
    constructor; rewrite ?Hid, ?Hoff, ?Hp', ?Hd, ?Hfin, ?Hr, ?Hc; unfold U64.fits in *;
    rewrite ?len_app, ?len_cons, ?len_nil; try lia; try done.
  - rewrite fmap_app. simpl. apply NoDup_app. split_and!; [done| |apply NoDup_singleton].
    intros id ([n v] & -> & Hin)%list_elem_of_fmap Heq%list_elem_of_singleton.
    specialize (st_running0 _ Hin). simpl in *. lia.
  - intros task. rewrite elem_of_app, list_elem_of_singleton. intros [Hin| ->]; simpl; [|lia].
    specialize (st_running0 _ Hin). lia.
  - exists (ids ++ [request_id st + 1]). rewrite map_app, Hcalls. split_and!; [done| |].
    + apply NoDup_app. split_and!; [done| |apply NoDup_singleton].
      intros id Hin ->%list_elem_of_singleton. by eapply Hfresh.
    + intros id. rewrite elem_of_app, list_elem_of_singleton. intros [Hin| ->]; [|lia].
      specialize (Hids _ Hin). lia.
  - intros task Hin. specialize (st_running0 _ Hin). lia.
  - exists ids. split_and!; [done..|]. intros id Hin. specialize (Hids _ Hin). lia.
Qed.

Lemma begin_steady config started :
  OpenLoopLoadConfig.typed config →
  steady config (begin config (OpenLoopLoadConfig.max_in_flight config) started).
Proof.
  intros (_ & _ & _ & Hm).
  unfold U64.fits, U64.MAX in *.
  constructor; simpl; rewrite ?len_nil; unfold U64.fits, U64.MAX; try lia; try (by apply NoDup_nil); try done.
  { by intros task ?%elem_of_nil. }
  exists []. split_and!; [done|by apply NoDup_nil|]. by intros id ?%elem_of_nil.
Qed.

Lemma generate_steady config ended deadline fuel : ∀ st st',
  steady config st → generate fuel config ended deadline st = Some (Next st') → steady config st'.
Proof.
  induction fuel as [|fuel IH]; intros st st' Hst; simpl; (destruct (_ <? _); [|by intros [= <-]]); [done|].
  destruct (arrive _ _ _) as [st1| |] eqn:Ha; [|done..].
  apply IH. by eapply arrive_steady.
Qed.

(** The request counter bounds the loop. *)
Lemma generate_returns config ended deadline fuel : ∀ st,
  request_id st ≤ U64.MAX → U64.MAX - request_id st < Z.of_nat fuel →
  is_Some (generate fuel config ended deadline st).
Proof.
  induction fuel as [|fuel IH]; intros st Hid Hfuel; [lia|]. simpl.
  destruct (_ <? _); [|by eexists].
  destruct (arrive _ _ _) as [st1| |] eqn:Ha; [|by eexists..].
  apply arrive_Next in Ha as (_ & _ & _ & Heq & Hle & _).
  destruct (completes_arrivals (ended (request_id st + 1)) st) as (_ & Hid' & _).
  rewrite Hid' in *. apply IH; lia.
Qed.

(** The arrivals of two runs, the second [shift] later. *)
Definition in_step (shift : Z) (st1 st2 : progress) : Prop :=
  random st2 = random st1 ∧ request_id st2 = request_id st1
  ∧ offered st2 = offered st1 ∧ next_at st2 = next_at st1 + shift.

Lemma completes_in_step shift st1 st2 cs1 cs2 :
  in_step shift st1 st2 → in_step shift (foldl complete st1 cs1) (foldl complete st2 cs2).
Proof.
  destruct (completes_arrivals cs1 st1) as (Hr1 & Hi1 & Ho1 & Hn1 & _).
  destruct (completes_arrivals cs2 st2) as (Hr2 & Hi2 & Ho2 & Hn2 & _).
  unfold in_step. by rewrite Hr1, Hi1, Ho1, Hn1, Hr2, Hi2, Ho2, Hn2.
Qed.

Lemma arrive_in_step config shift ended1 ended2 st1 st2 st1' st2' :
  in_step shift st1 st2 → arrive config ended1 st1 = Next st1' → arrive config ended2 st2 = Next st2' →
  in_step shift st1' st2'.
Proof.
  intros Hs Ha1 Ha2. apply (completes_in_step _ _ _ ended1 ended2) in Hs as (Hr & Hi & Ho & Hn).
  apply arrive_Next in Ha1 as (i1 & Hi1 & Hr1 & Hid1 & _ & Ho1 & Hn1 & _).
  apply arrive_Next in Ha2 as (i2 & Hi2 & Hr2 & Hid2 & _ & Ho2 & Hn2 & _).
  rewrite Hr in *. simplify_eq. unfold in_step.
  rewrite Hr1, Hr2, Hid1, Hid2, Ho1, Ho2, Hn1, Hn2, Hi, Ho, Hn. split_and!; try done. lia.
Qed.

Lemma generate_in_step config ended1 ended2 deadline shift fuel1 : ∀ fuel2 st1 st2 st1' st2',
  in_step shift st1 st2 →
  generate fuel1 config ended1 deadline st1 = Some (Next st1') →
  generate fuel2 config ended2 (deadline + shift) st2 = Some (Next st2') →
  in_step shift st1' st2'.
Proof.
  induction fuel1 as [|fuel1 IH]; intros [|fuel2] st1 st2 st1' st2' Hs; simpl;
    (replace (next_at st2 <? deadline + shift) with (next_at st1 <? deadline)
       by (destruct Hs as (_ & _ & _ & Hn); destruct (Z.ltb_spec (next_at st1) deadline), (Z.ltb_spec (next_at st2) (deadline + shift)); lia));
    (destruct (next_at st1 <? deadline); [|by intros [= <-] [= <-]]); try done.
  destruct (arrive _ _ st1) as [st1m| |] eqn:Ha1; [|done..].
  destruct (arrive _ _ st2) as [st2m| |] eqn:Ha2; [|done..].
  apply IH. by eapply arrive_in_step.
Qed.

(** ** The report *)

Definition outcomes (t : tally) : Z := committed t + accepted t + duplicates t + errors t.
Definition natural (t : tally) : Prop :=
  0 ≤ committed t ∧ 0 ≤ accepted t ∧ 0 ≤ duplicates t ∧ 0 ≤ errors t.

Definition latency_of (j : joined) : list Z :=
  match j with Returned latency _ => [Z.min (latency / 1000) U64.MAX] | TaskFailed _ => [] end.

Lemma join_next_counts t j t' :
  join_next t j = Next t' → natural t →
  natural t' ∧ outcomes t' = outcomes t + 1 ∧ latencies t' = latencies t ++ latency_of j.
Proof.
  unfold join_next, count, natural, outcomes.
  destruct j as [latency [[| |]|]|]; [..|done];
    (destruct (U64.checked_add _ _) as [n|] eqn:Hn; [|done]); intros [= <-];
    apply U64.checked_add_Some in Hn as [-> _]; simpl; intros (? & ? & ? & ?); split_and!; try done; lia.
Qed.

Lemma join_all_counts results : ∀ t t',
  join_all results t = Next t' → natural t →
  natural t' ∧ outcomes t' = outcomes t + len results
  ∧ latencies t' = latencies t ++ (results ≫= latency_of).
Proof.
  induction results as [|j results IH]; intros t t'; simpl.
  - intros [= <-] Hn. rewrite len_nil, app_nil_r. split_and!; [done|lia|done].
  - destruct (join_next t j) as [t1| |] eqn:Hj; [|done..]. intros Ht Hn.
    apply join_next_counts in Hj as (Hn1 & Hs1 & Hl1); [|done].
    apply IH in Ht as (Hn' & Hs & Hl); [|done].
    rewrite len_cons, Hs, Hs1, Hl, Hl1, <-app_assoc. split_and!; [done|lia|done].
Qed.

(** Counters that have room do not overflow. *)
Lemma join_all_counts_safely results : ∀ t,
  natural t → outcomes t + len results ≤ U64.MAX → join_all results t ≠ Panicked.
Proof.
  induction results as [|j results IH]; intros t Ht Hroom; simpl; [done|].
  rewrite len_cons in Hroom. pose proof (len_nonneg results).
  destruct (join_next t j) as [t1| |] eqn:Hj; [|done|].
  - apply join_next_counts in Hj as (Hn1 & Hs1 & _); [|done]. apply IH; [done|lia].
  - exfalso. revert Hj. unfold join_next, count, natural, outcomes in *.
    destruct j as [latency [[| |]|]|]; [..|done];
      (destruct (U64.checked_add _ _) as [n|] eqn:Hn; [done|]);
      apply U64.checked_add_None in Hn; lia.
Qed.

(** So counting the results of a run never panics. *)
Lemma joining_never_panics config st :
  steady config st → join_all (finished st) (Tally 0 0 0 0 []) ≠ Panicked.
Proof.
  intros []. apply join_all_counts_safely; [done|]. unfold outcomes, U64.fits in *. simpl.
  pose proof (len_nonneg (running st)). lia.
Qed.

(** The position a percentile is read from. *)
Definition rank (values : list Z) (p : Z) : Z := (len values - 1) * p / 100.

Lemma filter_keeps_all (P : Z → Prop) `{∀ x, Decision (P x)} (l : list Z) :
  (∀ x, x ∈ l → P x) → filter P l = l.
Proof.
  induction l as [|y l IH]; intros Hl; [done|].
  rewrite filter_cons_True, IH; [done| |]; [intros x Hx|]; apply Hl, elem_of_cons; auto.
Qed.

Lemma filter_keeps_none (P : Z → Prop) `{∀ x, Decision (P x)} (l : list Z) :
  (∀ x, x ∈ l → ¬ P x) → filter P l = [].
Proof.
  induction l as [|y l IH]; intros Hl; [done|].
  rewrite filter_cons_False, IH; [done| |]; [intros x Hx|]; apply Hl, elem_of_cons; auto.
Qed.

(** In a sorted list the values before a position are at most its value, and
    those after it at least. *)
Lemma sorted_split (l : list Z) i v :
  StronglySorted Z.le l → l !! i = Some v →
  (∀ x, x ∈ take i l → x ≤ v) ∧ (∀ x, x ∈ drop (S i) l → v ≤ x).
Proof.
  intros Hs Hv. rewrite <-(take_drop_middle l i v Hv) in Hs.
  apply StronglySorted_app in Hs as (Hle & _ & [Hge _]%StronglySorted_cons).
  rewrite Forall_forall in Hge. split; intros x Hx; [|by apply Hge].
  apply Hle; [done|]. apply elem_of_cons. by left.
Qed.

Lemma sorted_ranks (l : list Z) i v :
  StronglySorted Z.le l → l !! i = Some v →
  Z.of_nat i < len (filter (λ x, x ≤ v) l) ∧ len (filter (λ x, x < v) l) ≤ Z.of_nat i.
Proof.
  intros Hs Hv. destruct (sorted_split l i v Hs Hv) as [Hle Hge].
  pose proof (lookup_lt_Some _ _ _ Hv) as Hi.
  rewrite <-(take_drop_middle l i v Hv). rewrite !filter_app, !len_app.
  rewrite (filter_cons_True _ v) by lia. rewrite (filter_cons_False _ v) by lia.
  rewrite (filter_keeps_all (λ x, x ≤ v) (take i l)) by (intros; by apply Hle).
  rewrite (filter_keeps_none (λ x, x < v) (drop (S i) l)) by (intros x Hx; specialize (Hge x Hx); lia).
  rewrite len_cons, len_nil. unfold len. rewrite length_take.
  pose proof (length_filter (λ x, x < v) (take i l)) as Hf. rewrite length_take in Hf. lia.
Qed.

(** Up to its rank, the values are at most the percentile; below it lie no
    more values than its rank. *)
Lemma percentile_ranks values p v :
  percentile (merge_sort Z.le values) p = Some v → values ≠ [] → 0 ≤ p →
  v ∈ values ∧ rank values p < len (filter (λ x, x ≤ v) values)
  ∧ len (filter (λ x, x < v) values) ≤ rank values p.
Proof.
  intros Hp Hne Hp0. pose proof (merge_sort_Permutation Z.le values) as Hperm.
  assert (StronglySorted Z.le (merge_sort Z.le values)) as Hs by (apply StronglySorted_merge_sort; apply _).
  assert (is_empty (merge_sort Z.le values) = false) as He.
  { destruct (merge_sort Z.le values); [|done]. symmetry in Hperm. by apply Permutation_nil_r in Hperm. }
  assert (len (merge_sort Z.le values) = len values) as Hlen by (unfold len; by rewrite Hperm).
  revert Hp. unfold percentile. rewrite He, Hlen. unfold U64.checked_mul.
  destruct (_ <=? _); simpl; [|done]. intros Hv.
  assert (0 ≤ rank values p) as Hr.
  { unfold rank. destruct values; [done|]. rewrite len_cons. pose proof (len_nonneg values).
    apply Z.div_pos; [apply Z.mul_nonneg_nonneg|]; lia. }
  destruct (sorted_ranks _ _ _ Hs Hv) as [Hle Hlt].
  fold (rank values p) in *. rewrite Z2Nat.id in Hle, Hlt by done.
  unfold len in Hle, Hlt. rewrite Hperm in Hle, Hlt. split_and!; [|done..].
  rewrite <-Hperm. by eapply list_elem_of_lookup_2.
Qed.

Lemma sorted_lookup_mono (l : list Z) i j v w :
  StronglySorted Z.le l → (i ≤ j)%nat → l !! i = Some v → l !! j = Some w → v ≤ w.
Proof.
  intros Hs Hij Hv Hw. destruct (decide (i = j)) as [->|Hne]; [simplify_eq; lia|].
  apply (sorted_split l i v Hs Hv). apply (list_elem_of_lookup_2 _ (j - S i)).
  rewrite lookup_drop. by replace (S i + (j - S i))%nat with j by lia.
Qed.

Lemma percentile_mono values p q v w :
  percentile (merge_sort Z.le values) p = Some v → percentile (merge_sort Z.le values) q = Some w →
  0 ≤ p ≤ q → v ≤ w.
Proof.
  assert (StronglySorted Z.le (merge_sort Z.le values)) as Hs by (apply StronglySorted_merge_sort; apply _).
  revert Hs. generalize (merge_sort Z.le values). intros l Hs. unfold percentile.
  destruct (is_empty l) eqn:He; [intros [= <-] [= <-]; lia|]. unfold U64.checked_mul.
  do 2 (destruct (_ <=? _); simpl; [|done]). intros Hv Hw Hpq.
  eapply sorted_lookup_mono; [done| |done..].
  assert (0 ≤ len l - 1) by (destruct l; [done|]; rewrite len_cons; pose proof (len_nonneg l); lia).
  apply Z2Nat.inj_le; [apply Z.div_pos; nia..|]. apply Z.div_le_mono; nia.
Qed.

(** ** Runs *)

Lemma run_Ok {C} fuel (self : t C) env report :
  run fuel self env = Some (Returns (Ok report)) →
  OpenLoopLoadConfig.typed (config self) →
  ∃ st t,
    generate fuel (config self) (ended env) (started env + OpenLoopLoadConfig.duration (config self))
      (begin (config self) (OpenLoopLoadConfig.max_in_flight (config self)) (started env))
    = Some (Next st)
    ∧ steady (config self) (foldl complete st (late env))
    ∧ running (foldl complete st (late env)) = []
    ∧ join_all (finished (foldl complete st (late env))) (Tally 0 0 0 0 []) = Next t
    ∧ report_of (config self) (foldl complete st (late env)) t (elapsed env) = Some report.
Proof.
  unfold run, OpenLoopLoadGenerator.run, instant_add. destruct (_ <=? _); [|done].
  destruct (Semaphore.new _) as [permits|] eqn:Hsem; [|done].
  assert (permits = OpenLoopLoadConfig.max_in_flight (config self)) as ->.
  { revert Hsem. unfold Semaphore.new. by destruct (_ <=? _); intros [= <-]. }
  destruct (OpenLoopLoadGenerator.generate _ _ _ _ _ _ _) as [[st|e|]|] eqn:Hgen; simpl; [|done..].
  destruct (join_all _ _) as [t| |] eqn:Hjoin; [|done..].
  destruct (is_empty _) eqn:Hempty; [|done]. destruct (report_of _ _ _ _) eqn:Hreport; [|done].
  intros [= <-] Hty. exists st, t. split_and!; [done| | |done..].
  - eapply completes_steady, generate_steady; [|done]. by apply begin_steady.
  - by destruct (running _).
Qed.

(** Later completions release permits only. *)
Lemma finished_all config st : steady config st → running st = [] → len (finished st) = offered st - dropped st.
Proof. intros [] He. rewrite He, len_nil in *. lia. Qed.

Lemma report_offered config st t elapsed report :
  report_of config st t elapsed = Some report → OpenLoopLoadReport.offered report = offered st.
Proof.
  unfold report_of. destruct (U64.checked_add (committed t) _); simpl; [|done].
  destruct (U64.checked_add _ _); simpl; [|done]. destruct (percentile _ 50); simpl; [|done].
  destruct (percentile _ 99); simpl; [|done]. by intros [= <-].
Qed.

(** The latencies a run measured, in microseconds. *)
Definition measured (fuel : nat) (config : OpenLoopLoadConfig.t) (env : environment) : list Z :=
  match generate fuel config (ended env) (started env + OpenLoopLoadConfig.duration config)
          (begin config (OpenLoopLoadConfig.max_in_flight config) (started env)) with
  | Some (Next st) => finished (foldl complete st (late env)) ≫= latency_of
  | _ => []
  end.

Lemma join_all_latencies results : ∀ t t',
  join_all results t = Next t' → len (results ≫= latency_of) = len results.
Proof.
  induction results as [|j results IH]; intros t t'; [done|]. cbn [join_all].
  destruct (join_next t j) as [t1| |] eqn:Hj; [|done..]. intros Ht.
  rewrite bind_cons, len_app, len_cons, (IH _ _ Ht). by destruct j.
Qed.

(** C31: the report of a run adds up: every arrival is counted exactly once,
    as committed, accepted, duplicate, error or dropped, and each request that
    was sent has a measured latency; the percentiles are zero when nothing was
    sent and otherwise measured latencies of their rank: more requests than
    that took at most as long, and no more than that took less. *)
Theorem load_report_adds_up {C} (client : C) config self fuel env report :
  new client config = Ok self → OpenLoopLoadConfig.typed config →
  run fuel self env = Some (Returns (Ok report)) →
  let observed := measured fuel config env in
  OpenLoopLoadReport.offered report
  = OpenLoopLoadReport.committed report + OpenLoopLoadReport.accepted report
    + OpenLoopLoadReport.duplicates report + OpenLoopLoadReport.errors report
    + OpenLoopLoadReport.dropped_overload report
  ∧ len observed = OpenLoopLoadReport.offered report - OpenLoopLoadReport.dropped_overload report
  ∧ OpenLoopLoadReport.latency_p50_micros report ≤ OpenLoopLoadReport.latency_p99_micros report
  ∧ (observed = [] → OpenLoopLoadReport.latency_p99_micros report = 0)
  ∧ (observed ≠ [] → ∀ p v,
       (p, v) = (50, OpenLoopLoadReport.latency_p50_micros report)
       ∨ (p, v) = (99, OpenLoopLoadReport.latency_p99_micros report) →
       v ∈ observed ∧ rank observed p < len (filter (λ x, x ≤ v) observed)
       ∧ len (filter (λ x, x < v) observed) ≤ rank observed p).
Proof.
  intros Hnew Hty Hrun observed. unfold new in Hnew.
  destruct (OpenLoopLoadConfig.validate config); simpl in Hnew; [|done]. injection Hnew as <-.
  apply run_Ok in Hrun as (st & t & Hgen & Hst & Hdone & Hjoin & Hreport); [|done].
  simpl in *. pose proof (join_all_latencies _ _ _ Hjoin) as Hlen.
  pose proof (finished_all _ _ Hst Hdone) as Hall.
  apply join_all_counts in Hjoin as (_ & Hsum & Hlat); [|done].
  assert (observed = latencies t) as Hobs by (unfold observed, measured; by rewrite Hgen, Hlat).
  clearbody observed. subst observed. simpl in Hlat. rewrite <-Hlat in Hlen. unfold outcomes in Hsum. simpl in Hsum.
  unfold report_of in Hreport.
  destruct (U64.checked_add (committed t) _); simpl in Hreport; [|done].
  destruct (U64.checked_add _ _); simpl in Hreport; [|done].
  destruct (percentile _ 50) as [p50|] eqn:H50; simpl in Hreport; [|done].
  destruct (percentile _ 99) as [p99|] eqn:H99; simpl in Hreport; [|done].
  injection Hreport as <-. simpl. split_and!; [lia|lia|eapply percentile_mono; [done|done|lia]|..].
  - intros Hnil. rewrite Hnil in H99. by injection H99 as <-.
  - intros Hne p v [[= -> ->]|[= -> ->]]; eapply percentile_ranks; try done; lia.
Qed.

(** The load is open-loop and reproducible: two runs of one configuration,
    started at different times against servers that answer differently, offer
    the same number of requests. *)
Theorem load_is_reproducible {C} (self : t C) fuel1 fuel2 env1 env2 report1 report2 :
  OpenLoopLoadConfig.typed (config self) →
  run fuel1 self env1 = Some (Returns (Ok report1)) →
  run fuel2 self env2 = Some (Returns (Ok report2)) →
  OpenLoopLoadReport.offered report1 = OpenLoopLoadReport.offered report2.
Proof.
  intros Hty Hrun1 Hrun2.
  apply run_Ok in Hrun1 as (st1 & t1 & Hgen1 & _ & _ & _ & Hreport1); [|done].
  apply run_Ok in Hrun2 as (st2 & t2 & Hgen2 & _ & _ & _ & Hreport2); [|done].
  replace (started env2 + _) with (started env1 + OpenLoopLoadConfig.duration (config self) + (started env2 - started env1))
    in Hgen2 by lia.
  eapply generate_in_step in Hgen2; [| |exact Hgen1]; [|by unfold in_step; simpl; split_and!; try done; lia].
  apply (completes_in_step _ _ _ (late env1) (late env2)) in Hgen2 as (_ & _ & Hoff & _).
  by rewrite (report_offered _ _ _ _ _ Hreport1), (report_offered _ _ _ _ _ Hreport2), Hoff.
Qed.

(** The requests of a run are distinct: they carry increasing IDs from one
    and value IDs that never repeat, at most [max_in_flight] of them run at a
    time, and the loop that sends them ends, after at most [2^64] arrivals. *)
Theorem load_requests_are_distinct config ended started deadline :
  OpenLoopLoadConfig.typed config →
  is_Some (generate (Z.to_nat (U64.MAX + 1)) config ended deadline
             (begin config (OpenLoopLoadConfig.max_in_flight config) started))
  ∧ ∀ fuel st,
      generate fuel config ended deadline
        (begin config (OpenLoopLoadConfig.max_in_flight config) started) = Some (Next st) →
      len (running st) ≤ OpenLoopLoadConfig.max_in_flight config
      ∧ NoDup (calls st).*2
      ∧ ∀ call, call ∈ calls st → 1 ≤ call.1 ≤ offered st ∧ call = request_of config call.1.
Proof.
  intros Hty. split.
  { apply generate_returns; simpl; [done|]. rewrite Z2Nat.id; unfold U64.MAX; lia. }
  intros fuel st Hgen.
  assert (steady config st) as [] by (eapply generate_steady; [apply begin_steady|]; done).
  destruct st_calls0 as (ids & Hcalls & Hnd & Hids). rewrite Hcalls. split_and!.
  - lia.
  - rewrite <-list_fmap_compose. apply NoDup_fmap_2_strong; [|done].
    intros x y Hx Hy Heq. destruct Hty as [Hseed _].
    assert (∀ id, id ∈ ids → U64.fits id) as Hfit.
    { intros id Hin. specialize (Hids _ Hin). unfold U64.fits in *. lia. }
    eapply lxor_cancel, mix64_inj, Heq; apply lxor_fits; auto.
  - intros call (id & -> & Hin)%list_elem_of_fmap. rewrite st_offered0. split; [by apply Hids|done].
Qed.

End properties.

(** ** Concrete runs *)

Module LoadRuns.
(** A logarithm of -1 makes requests arrive every [1 / rate] seconds. *)
Definition regular (_ : F64.t) : F64.t := S754_finite true 4503599627370496 (-52).

(** A logarithm of -45: more than that of any argument the generator has. *)
Definition steepest (_ : F64.t) : F64.t := F64.neg (F64.of_u64 45).

Definition horizon : Z := Duration.MAX.
Definition small : OpenLoopLoadConfig.t := OpenLoopLoadConfig.mk 7 1000 3500000 2.
Definition generator : t unit := mk tt small.

Definition answered (id latency : Z) : completion :=
  Completion id (Returned latency (Ok (SubmissionOutcome.Committed (Decision.mk id [id] 1 4)))).
Definition busy : environment :=
  Environment 0 (λ n, if n =? 3 then [answered 1 1500000] else [])
    [Completion 3 (Returned 900000 (Err QuePaxaError.EmptyProposal));
     Completion 2 (Returned 2500000 (Ok SubmissionOutcome.Accepted))] 5000000.
(** Servers that answer at once, to a run that starts later. *)
Definition idle : environment :=
  Environment 77 (λ n, if n =? 1 then [] else [answered (n - 1) 1000]) [answered 4 1000] 4000000.

Definition empty_report : OpenLoopLoadReport.t :=
  OpenLoopLoadReport.mk 0 0 0 0 0 0 0 0 0 (S754_zero false) 0 0.
Definition report_in (env : environment) : OpenLoopLoadReport.t :=
  match run regular horizon 10 generator env with
  | Some (Returns (Ok report)) => report
  | _ => empty_report
  end.

(** Four arrivals: one is dropped while two run. *)
Example busy_counts :
  let r := report_in busy in
  (OpenLoopLoadReport.offered r, OpenLoopLoadReport.committed r, OpenLoopLoadReport.accepted r,
   OpenLoopLoadReport.errors r, OpenLoopLoadReport.dropped_overload r,
   OpenLoopLoadReport.latency_p50_micros r, OpenLoopLoadReport.latency_p99_micros r)
  = (4, 1, 1, 1, 1, 1500, 1500).
Proof. vm_compute. reflexivity. Qed.

Lemma small_typed : OpenLoopLoadConfig.typed small.
Proof. vm_compute. repeat split; discriminate. Qed.

Lemma report_in_busy : run regular horizon 10 generator busy = Some (Returns (Ok (report_in busy))).
Proof. vm_compute. reflexivity. Qed.

Lemma report_in_idle : run regular horizon 10 generator idle = Some (Returns (Ok (report_in idle))).
Proof. vm_compute. reflexivity. Qed.

Lemma load_report_adds_up_witness :
  len (measured regular horizon 10 small busy) = 3
  ∧ OpenLoopLoadReport.offered (report_in busy) - OpenLoopLoadReport.dropped_overload (report_in busy) = 3.
Proof.
  destruct (load_report_adds_up regular horizon tt small generator 10 busy (report_in busy))
    as (_ & Hlen & _).
  - reflexivity.
  - exact small_typed.
  - exact report_in_busy.
  - split; [vm_compute; reflexivity|]. rewrite <-Hlen. vm_compute. reflexivity.
Defined.

Lemma load_is_reproducible_witness :
  OpenLoopLoadReport.offered (report_in busy) = OpenLoopLoadReport.offered (report_in idle).
Proof.
  apply (load_is_reproducible regular horizon generator 10 10 busy idle).
  - exact small_typed.
  - exact report_in_busy.
  - exact report_in_idle.
Defined.

Lemma load_requests_are_distinct_witness :
  is_Some (generate regular horizon (Z.to_nat (U64.MAX + 1)) small (ended busy) 3500000
             (begin small 2 0)).
Proof. apply (load_requests_are_distinct regular horizon small (ended busy) 0 3500000). exact small_typed. Defined.

(** A rate so high that every interval rounds to zero is accepted, but the
    clock of the arrivals stands still: the loop never reaches its deadline
    and only the exhaustion of the request IDs ends it. *)
Lemma stalled_clock ln limit config ended deadline :
  (∀ random, interval ln config random = Some 0) →
  ∀ fuel st st', next_at st < deadline → generate ln limit fuel config ended deadline st ≠ Some (Next st').
Proof.
  intros Hzero. induction fuel as [|fuel IH]; intros st st' Hnext; simpl;
    (destruct (Z.ltb_spec (next_at st) deadline); [|lia]); [done|].
  destruct (arrive _ _ _ _ _) as [st1| |] eqn:Ha; [|done..].
  apply arrive_Next in Ha as (i & Hi & _ & _ & _ & _ & Hn & _). rewrite Hzero in Hi. injection Hi as <-.
  apply IH. destruct (completes_arrivals (ended (request_id st + 1)) st) as (_ & _ & _ & Hn' & _). lia.
Qed.

Definition absurd_rate : OpenLoopLoadConfig.t := OpenLoopLoadConfig.mk 7 U64.MAX 3500000 2.

Theorem absurd_rate_never_reaches_its_deadline ended fuel st :
  is_ok (OpenLoopLoadConfig.validate absurd_rate) = true
  ∧ generate steepest horizon fuel absurd_rate ended 3500000 (begin absurd_rate 2 0) ≠ Some (Next st).
Proof.
  split; [reflexivity|]. apply stalled_clock; [|vm_compute; reflexivity].
  intros random. unfold interval, steepest. vm_compute. reflexivity.
Qed.

(** A limit that [validate] accepts and the semaphore refuses. *)
Theorem huge_in_flight_limit_panics :
  let config := OpenLoopLoadConfig.mk 7 1000 3500000 U64.MAX in
  is_ok (OpenLoopLoadConfig.validate config) = true
  ∧ run regular horizon 10 (mk tt config) busy = Some Panics.
Proof. split; vm_compute; reflexivity. Qed.
End LoadRuns.
